(* ===== verification/_CoqProject ===== *)
-Q . S2P
Prelude.v
RustStr.v
IniValues.v
IniParser.v
IniResolve.v
IniVars.v
IniConfig.v
DeviceManager.v
DeviceFacts.v
DeviceLedger.v
DeviceTrust.v
SerialReader.v
SerialManager.v
SerialWorld.v
SerialFacts.v
SerialSessions.v
SerialStore.v
HeaderScan.v
HeaderTokens.v
HeaderActive.v
HeaderCond.v
HeaderBranches.v
HeaderC.v
CachePaths.v
CachePathFacts.v
CacheIndex.v
CacheFacts.v
CacheGc.v
GcFacts.v
GcEffect.v
CacheReconcile.v
InstallLock.v
LockFacts.v
PathBuf.v
IncludeWalk.v
LibSelect.v
LibCache.v
LibSamples.v
NormPath.v
FlagPaths.v
DaemonContext.v
DaemonRun.v
ProjectLocks.v
SessionMoves.v
DaemonLocks.v
DaemonStale.v
UsbProfiles.v
DeployPort.v
FileDisk.v
Fingerprint.v
FastPath.v
FingerprintFacts.v
FastPathFacts.v
BuildRuns.v
WatchCache.v
FastPathSamples.v
Effects.v
Uf2.v
Uf2Facts.v
Uf2Sound.v
Rp2040Target.v
Rp2040Host.v
Rp2040Deploy.v
Rp2040Time.v
Rp2040Acts.v
Rp2040Safe.v
Rp2040Success.v
Rp2040Samples.v
InoPrototypes.v
SourceFilter.v
SourceScan.v
SourceRescan.v
SourceTabs.v
SourceSamples.v
ResponseFile.v
FlagOverlay.v
CrashDecoder.v
SerialSocket.v
SymbolGraph.v
