(* ===== verification/Prelude.v ===== *)
(** * A verification library for fbuild

    fbuild builds, deploys and monitors firmware; a daemon owns the serial
    devices and keeps the packages, and short-lived clients talk to it.  This
    development models parts of it whose mistakes cost most: how a project's
    configuration is read, how the needed libraries are found, who may use a
    device or a serial port and when, what the package cache keeps, when a
    build is reused, and which board firmware goes to.  All
    paths below are relative to [src/crates].

    ** How the program is rendered

    A function is a function, executable throughout; [&str] and [String] are
    lists of bytes ([str]), integers are [Z] with the wrap-around written out
    where it can occur, binary64 is the standard library's [spec_float],
    [HashMap] and [BTreeMap] are [gmap]s.  Where the order of a hash map can
    be observed it is the interface [HashIter], any permutation of the
    entries.  Failures are [result]s; loops and recursion that are not
    structural take fuel, and a theorem about each says that the fuel given
    suffices.  Clocks, fresh identifiers, environment variables, the disk and
    the operating system's answers are arguments or events.  An [async fn] is
    one definition per stretch between its suspension points, and histories
    are arbitrary lists of events.  Log output is left out.

    Code of other crates is an interface ([Class]) with the laws that are
    relied on: the regular expression of variable references ([VarRegex]), the
    Unicode class of a character ([UnicodeAlnum]), SHA-256 and BLAKE3, the
    protobuf and bincode encodings ([Encodings]), tokio's mutex
    ([AsyncMutex]), the directory walker ([WalkDir]), JSON ([Json]), the
    zccache engine ([Zccache]), the hasher of the fingerprints ([PathHasher]).
    The SQL queries of the cache index are modelled by what they mean on its
    two tables.

    ** Shared files

    - [Prelude]: byte strings and their notation, [result], saturating and
      binary64 arithmetic, hash map order, the fuel monad [FM], sums over maps.
    - [RustStr]: the operations of [str] on bytes, decimal integers, and
      UTF-8 decoding, with their lemmas.
    - [PathBuf]: paths as the lists of components by which [Path] compares
      them, the lexicographic order, sorted sets.
    Each component has the view of the disk that it needs: [CacheGc],
    [InstallLock], [IncludeWalk] and [FileDisk] say which.

    ** Configuration: [fbuild-config/src/ini_parser/], [pio_env.rs]

    [IniValues] is [values.rs] (comments, flags, lists); [IniParser] is
    [parse_ini], a fold over lines; [IniResolve] is [resolve_env] and
    [resolve_section], which follow [extends] with the set of visited names;
    [IniVars] is [variables.rs], [substitute_vars] and [resolve_all_envs];
    [IniConfig] is [PlatformIOConfig] with its getters and the overrides of
    [pio_env.rs] ([get] and [get_core_dir] only).  The theorems: a rendered
    file is read back, flags survive quoting, inheritance ends and means the
    union along [extends], cycles are errors, and on success every environment
    is resolved and substituted whatever the hash order.  Fuel: one unit per
    section name that can still be visited, [max_depth] rounds of substitution
    as in the source.

    ** Device manager: [fbuild-daemon/src/device_manager.rs]

    [DeviceManager] has the state and every operation; the enumeration of
    ports ([usb/resolver.rs], [ports.rs]) is an argument.  [DeviceFacts] has
    the lease invariant, [DeviceLedger] an abstract account of leases that
    every operation implements, [DeviceTrust] what refreshes do to devices that
    move and to trusted firmware hashes.

    ** Serial manager: [fbuild-serial/src/manager.rs], [session.rs],
       [preemption.rs], [messages.rs]

    [SerialReader] is the decoding and buffering of the reader task,
    [SerialManager] the state with its shared objects in stores and every
    operation, [SerialWorld] the calls suspended in it and the events that
    resume them.  [SerialFacts], [SerialSessions] and [SerialStore] show, for
    every history, who can lose the write lock, when a grace timer may close a
    port, that sessions are complete, that flags and channels are not confused,
    and that opening a port ends.

    ** Includes and libraries: [fbuild-header-scan/src/], [fbuild-library-select/src/]

    [HeaderScan] is the scanner of [scanner.rs], [HeaderActive] its handling of
    conditionals.  [HeaderTokens] shows that the scanner reports exactly the
    includes of rendered source text, [HeaderCond] that conditions are read by
    the grammar of C, [HeaderBranches] which lines the state machine keeps, and
    [HeaderC] that on text of a syntax with a meaning of its own these are the
    branches C selects.  [IncludeWalk] is [walker.rs] over an abstract disk, and
    shows that a walk computes the closure of the include relation, also
    incrementally.  [LibSelect] is the resolver of [lib.rs], built on the walk
    and the scanner, and shows that it selects the least closed set of
    libraries.  [LibCache] is [cache.rs]: the key, the store, and that stored
    selections are returned; [LibSamples] has the concrete trees.  Fuel: a walk
    takes one round per file and seed, the resolver one per library, since
    every round but the last finds something new.

    ** Package cache: [fbuild-packages-fetch/src/]

    [CachePaths] is the naming of [cache.rs] and [disk_cache/paths.rs], with
    [CachePathFacts]: components are harmless and staging directories apart.
    [CacheIndex] is [disk_cache/index/] and [lease.rs], the tables and every
    query; [CacheFacts] has their invariant, leases, and the candidates for
    eviction.  [CacheGc] is [budget.rs] and the collection of [gc.rs];
    [GcFacts] shows that leased entries are spared, [GcEffect] that budgets are
    met and bytes counted.  [CacheReconcile] is the reconciliation of [gc.rs],
    after which rows claim only what is there.

    [InstallLock] is [install_lock.rs], every access to the file system a step
    of its own; [LockFacts] shows exclusion under any interleaving in which
    nobody creates the lock while another task judges it and no task keeps it
    too long, and that a waiter is served, and has the histories in which
    reclaiming goes wrong.

    ** Paths: [fbuild-core/src/path.rs]

    [NormPath] is lexical normalization, the key of a path, and the rewriting
    of flags for the directory of a compilation, all as compiled for Linux,
    where the comparison key keeps case; [std::fs::canonicalize] is an
    argument.  It shows that keys identify paths up to normalization;
    [FlagPaths] that the flags of a project do not depend on where its
    workspace lies.

    ** Daemon: [fbuild-daemon/src/context.rs], [main.rs], [handlers/]

    [DaemonContext] is the state the handlers share, with the serial and the
    device manager inside: pending attaches, [busy_reason], the operation
    guard of [operations/common.rs], project locks, and the rebinding of
    sessions after a refresh.  A project lock is a
    [tokio::sync::Mutex], the interface [AsyncMutex] with what its
    documentation promises: exclusion and a fair queue.  [DaemonRun] is the maintenance loop
    of [main.rs], the shutdown of [health.rs] and the life of an operation as
    in [operations/build.rs], one definition per stretch between suspension
    points; all clock readings of one turn of the loop are one instant.
    [DaemonRun.eviction_sound] shows that the daemon leaves only after an idle
    time; [ProjectLocks] that a project, however its directory is spelled, runs
    one operation at a time, and that who waits does so for an operation of that
    project, unless a clean-up falls between lookup and first poll;
    [SessionMoves] that a session follows its device through a refresh, from
    the enumeration to the handle opened at the new port, where the moves of a
    refresh are rebound one after the other.  [DaemonLocks] is [locks.rs]; what
    others do while a close waits is the argument [between]; [DaemonStale]
    shows which sessions and locks a clear request removes.

    [UsbProfiles] is [fbuild-core/src/usb/profiles.rs] from the decoded JSON
    on, with its lookups: a name leads to the one board that claims it.
    [DeployPort] is [operations/deploy_port.rs] with the board aliases of
    [fbuild-config/src/board/db.rs], and shows what an automatically chosen
    port satisfies.

    ** Build fingerprints: [fbuild-build-engine/src/build_fingerprint/],
       [zccache.rs], [fbuild-daemon/src/watch_set_cache.rs]

    [FileDisk] is the disk, one map of files and directories without links,
    with the operations used; [Fingerprint] is [mod.rs]: the digests of files
    and watched trees and the stamp caches; [FastPath] is [fast_path.rs] and
    its place in a build, as in [rp2040/orchestrator.rs].  [FingerprintFacts]
    and [FastPathFacts] relate a digest to the files it covers; [BuildRuns]
    shows over every history of edits and builds, stamps being honest, that a
    reused build is current and that an unchanged project is reused.
    [WatchCache] is the daemon's memory of watched-tree hashes.
    [FastPathSamples] has the histories in which an edit is missed.

    ** Source scanner: [fbuild-build-engine/src/source_scanner.rs]

    [InoPrototypes] finds the prototypes of a sketch in the tree of the C++
    parser, an argument, and takes default arguments out of their texts;
    [SourceFilter] reads the rules of [src_filter] as regular expressions,
    whose engine is the interface [Regex], and shows that they mean the globs
    they are written as; [SourceScan] is the walk of the sources and the
    translation of the tabs of a sketch.  [SourceTabs] shows that its
    [#line] directives locate every line, and what the preludes are;
    [SourceRescan] what a scan writes, and that a second scan writes nothing.
    [SourceSamples] has a sketch on a disk, and what goes wrong.

    ** Flags of compilers: [flag_overlay.rs], [script_runtime.rs] of
       [fbuild-build-engine], [fbuild-core/src/response_file.rs]

    [FlagOverlay] has the flags that scripts leave behind and shows that the
    user's flags mean what they would mean at the end of the command line.
    [ResponseFile] writes flags to a file named by a digest and shows that the
    compiler reads them back, from a file found as well as from a new one, and
    what a clean-up removes.

    ** Serial monitors: [fbuild-daemon/src/handlers/websockets.rs],
       [fbuild-serial/src/crash_decoder.rs]

    [SerialSocket] has the three tasks of an attached client as steps in any
    order, the channels between them being lists, and the handshake and the
    clean-up on the serial manager; it shows that the frames are what was
    pushed and that the writer catches up.  [CrashDecoder] is the decoder the
    serial manager keeps per port; it shows how lines are cut into dumps and
    what is reported of each.

    ** Symbols: [fbuild-core/src/symbol_analysis/graph/]

    [SymbolGraph] builds the graph of what refers to a symbol, unit by unit
    with a queue and symbol by symbol recursively, and shows that both end,
    with one unit of fuel per reference and per level of depth, that the graph
    hangs together and that its edges stand for something.

    ** RP2040 deployment: [fbuild-deploy/src/rp2040*.rs]

    [Uf2] encodes and validates UF2 images; [Uf2Facts] shows that encoding
    loses nothing, [Uf2Sound] what an accepted image is.  [Effects] has
    programs over a host: trees of requests with arbitrary answers, what may
    be said of their executions, and runs against a host.  [Rp2040Target] has
    the decisions that need no look at the host, [Rp2040Host] the requests and
    the programs that scan, touch, write and wait, [Rp2040Deploy] the deploy in
    the four parts of its body.  For every host, [Rp2040Time] shows that it
    ends, [Rp2040Safe] that before a touch it looks for every volume that is
    there and leaves those alone, and that what it touches, resets and loads is
    the board the selector names, by what [Rp2040Acts] says of each part, and
    [Rp2040Success] what success means;
    [Rp2040Samples] runs it against two boards.  Loops that poll have one turn
    per 100 ms of their time and two more.  A failure is a constructor with
    what its message carries.  Joining a task never fails, the installed USB
    profiles stay the same during a deploy, paths are read as on Unix, and a
    write the watchdog gave up is not followed any further.

    ** Counterexamples

    Where the program does not do what it is meant to, a lemma evaluates it on
    an input that shows it, next to the theorems whose hypotheses exclude that
    input: among others [IniResolve.diamond_rejected],
    [SerialFacts.stale_timer_closes_new_session],
    [CacheReconcile.reconcile_guts_packages], [GcEffect.late_lease_is_lost],
    [LockFacts.two_waiters_both_hold], [LibSamples.edited_header_keeps_key],
    [ProjectLocks.cleanup_splits_project], [ProjectLocks.running_build_forgotten],
    [SessionMoves.session_captured], [DaemonStale.late_client_is_closed],
    [DeployPort.phantom_port_chosen], [FastPathSamples.analysis_build_hides_edit],
    [FastPathSamples.failed_build_hides_edit],
    [FastPathSamples.edit_during_build_hidden],
    [FastPathSamples.same_stamp_edit_missed],
    [Rp2040Samples.retry_flashes_other_board],
    [SourceSamples.angle_drops_parameters], [ResponseFile.cut_file_returned],
    [CrashDecoder.two_clients_cut_dump], [SerialSocket.clear_drops_news],
    [SymbolGraph.fixed_depth_ignored].

    ** Not modelled

    The running of compilers, linkers and flashing tools and the sequences of
    their calls per platform (the build and orchestrator crates, and the
    deployments of other boards), the
    network and archive formats, the daemon's other request handlers and the
    command line, most board tables, USB resets, bindings and tests: they are
    input and output, tables, or glue around the parts above.  Errors of
    SQLite other than failed constraints and overflow, partial failures of
    [remove_dir_all], and changes to the disk by others while a walk or a
    collection runs are outside the models.  So are the parsers of
    linker maps and disassembly, and the Python process that runs extra
    scripts. *)
From Stdlib Require Export Ascii String ZArith Lia.
From Stdlib Require Import Floats.SpecFloat.
From stdpp Require Export base tactics decidable option list gmap strings fin_maps.

(** ** Byte strings

    A Rust [&str] is modelled by its UTF-8 bytes.  Literals are written
    [&"text"]. *)
Abbreviation str := (list ascii).

#[global] Instance str_eq_dec : EqDecision str | 0 := list_eq_dec.
#[global] Instance str_countable : Countable str | 0 := list_countable.

Declare Scope rust_scope.
Delimit Scope rust_scope with rust.
Notation "& s" := (list_ascii_of_string s%string)
  (at level 1, s at level 0, format "& s") : rust_scope.
Global Open Scope rust_scope.

(** ** Results

    [Result<T, E>] of the source. *)
Inductive result (E A : Type) : Type :=
  | Ok (a : A)
  | Err (e : E).
Arguments Ok {E A} _.
Arguments Err {E A} _.

Definition is_ok {E A} (r : result E A) : bool :=
  match r with Ok _ => true | Err _ => false end.

Definition result_bind {E A B} (r : result E A) (k : A → result E B) : result E B :=
  match r with Ok a => k a | Err e => Err e end.

Notation "x <-? r ; k" := (result_bind r (λ x, k))
  (at level 100, r at next level, k at level 200, right associativity) : rust_scope.

Lemma result_bind_Ok {E A B} (r : result E A) (k : A → result E B) b :
  result_bind r k = Ok b ↔ ∃ a, r = Ok a ∧ k a = Ok b.
Proof. destruct r; naive_solver. Qed.

(** ** Machine integers *)
Definition u64_max : Z := 2 ^ 64 - 1.
Definition i64_min : Z := - 2 ^ 63.
Definition i64_max : Z := 2 ^ 63 - 1.

(** [u64::saturating_sub]. *)
Definition saturating_sub (a b : Z) : Z := Z.max 0 (a - b).

Lemma saturating_sub_le a b : (0 ≤ a → 0 ≤ b → 0 ≤ saturating_sub a b ≤ a)%Z.
Proof. unfold saturating_sub. lia. Qed.

(** ** IEEE binary64

    [f64] is the standard library's [spec_float] at precision 53 and
    exponent bound 1024; conversions and operations are the rounded ones. *)
Abbreviation f64 := spec_float.
Definition f64_of_Z (z : Z) : f64 := binary_normalize 53 1024 z 0 false.
Definition f64_mul : f64 → f64 → f64 := SFmul 53 1024.
Definition f64_div : f64 → f64 → f64 := SFdiv 53 1024.

(** [x as u64]: truncation toward zero, saturating at both ends; NaN is 0. *)
Definition f64_as_u64 (x : f64) : Z :=
  match x with
  | S754_finite false m e =>
      Z.min u64_max (if (0 <=? e)%Z then Z.pos m * 2 ^ e else Z.pos m / 2 ^ (- e))
  | S754_infinity false => u64_max
  | _ => 0
  end.

Lemma f64_as_u64_range x : (0 ≤ f64_as_u64 x ≤ u64_max)%Z.
Proof.
  assert (0 ≤ u64_max)%Z by (unfold u64_max; lia).
  destruct x as [| [] | | [] m e]; simpl; try lia.
  destruct (0 <=? e)%Z eqn:He.
  - assert (0 < 2 ^ e)%Z by (apply Z.pow_pos_nonneg; lia). nia.
  - assert (0 < 2 ^ (- e))%Z by (apply Z.pow_pos_nonneg; lia).
    pose proof (Z.div_pos (Z.pos m) (2 ^ (- e))). lia.
Qed.

(** ** Iteration over hash maps

    [HashMap::iter] enumerates every entry once, in an order the standard
    library leaves unspecified.  Operations that iterate take the order from
    this interface, so their theorems hold for every order. *)
Class HashIter := hm_iter : ∀ {K A} `{Countable K}, gmap K A → list (K * A).

Class HashIterOk (H : HashIter) :=
  hm_iter_perm : ∀ {K A} `{Countable K} (m : gmap K A), hm_iter m ≡ₚ map_to_list m.

(** The order of the finite-map library is one such order. *)
#[global] Instance map_order : HashIter | 100 := λ K A _ _ m, map_to_list m.
#[global] Instance map_order_ok : HashIterOk map_order.
Proof. intros K A ?? m. reflexivity. Qed.

(** ** Hint databases

    [rust_str] holds the string lemmas, [fb] the facts that close the common
    side conditions of the components' invariants. *)
Create HintDb rust_str.
Create Rewrite HintDb rust_str.
Create HintDb fb.

(** ** Lists *)

(** Induction that peels off one or two elements, for functions that look at
    a pair of neighbours. *)
Lemma list_ind2 {A} (P : list A → Prop) :
  P [] → (∀ a, P [a]) → (∀ a b l, P l → P (b :: l) → P (a :: b :: l)) → ∀ l, P l.
Proof.
  intros H0 H1 H2 l. cut (P l ∧ ∀ a, P (a :: l)); [by intros []|].
  induction l as [|b l [IH1 IH2]]; auto.
Qed.

(** The last element of a list that is one of [P]; the only one. *)
Definition last_of {A} (P : A → Prop) (l : list A) (x : A) : Prop := ∃ a b, l = a ++ x :: b ∧ P x ∧ Forall (λ y, ¬ P y) b.
Definition sole {A} (P : A → Prop) (l : list A) (x : A) : Prop :=
  ∃ a b, l = a ++ x :: b ∧ P x ∧ Forall (λ y, ¬ P y) a ∧ Forall (λ y, ¬ P y) b.

Section Bearers.
Context {A} (P Q : A → Prop) `{∀ x, Decision (P x)} (HPQ : ∀ x, P x ↔ Q x).

Lemma filter_none l : filter P l = [] → Forall (λ y, ¬ Q y) l.
Proof.
  intros E. apply Forall_forall. intros y Hy Hq%HPQ. assert (y ∈ filter P l) as Hin by by apply list_elem_of_filter.
  rewrite E in Hin. by apply not_elem_of_nil in Hin.
Qed.
Lemma none_filter l : Forall (λ y, ¬ Q y) l → filter P l = [].
Proof. induction 1 as [|y l Hy Hl IH]; [done|]. rewrite filter_cons_False; [done|]. by rewrite HPQ. Qed.

Lemma last_of_filter l x : last_of Q l x ↔ last (filter P l) = Some x.
Proof.
  split.
  - intros (a & b & -> & Hx%HPQ & Hb). rewrite filter_app, filter_cons_True, (none_filter b Hb) by done. apply last_snoc.
  - induction l as [|y l IH]; [done|]. rewrite filter_cons. destruct (decide (P y)) as [Hy|Hy].
    + destruct (filter P l) as [|z zs] eqn:E.
      * intros [= <-]. exists [], l. split; [done|]. split; [by apply HPQ|by apply filter_none].
      * rewrite last_cons_cons. intros Hl. destruct (IH Hl) as (a & b & -> & Ha & Hb). by exists (y :: a), b.
    + intros Hl. destruct (IH Hl) as (a & b & -> & Ha & Hb). by exists (y :: a), b.
Qed.
Lemma sole_filter l x : sole Q l x ↔ filter P l = [x].
Proof.
  split.
  - intros (a & b & -> & Hx%HPQ & Ha & Hb). by rewrite filter_app, filter_cons_True, (none_filter a Ha), (none_filter b Hb).
  - intros E. assert (last_of Q l x) as (a & b & -> & Hx & Hb) by by rewrite last_of_filter, E.
    exists a, b. split; [done|]. split; [done|]. split; [|done]. apply filter_none.
    apply HPQ in Hx. rewrite filter_app, filter_cons_True in E by done. by destruct (filter P a) as [|y [|z zs]].
Qed.
End Bearers.

(** ** Fuelled state-and-error computations

    [FM S E A] threads a mutable [S] through a fallible computation whose
    recursion is bounded by fuel; [None] is running out of it and nothing
    else.  State changes made before an error stay, as with [&mut]. *)
Definition FM (S E A : Type) : Type := S → option (result E A * S).

#[global] Instance FM_ret {S E} : MRet (FM S E) := λ A a s, Some (Ok a, s).
#[global] Instance FM_bind {S E} : MBind (FM S E) := λ A B k m s,
  match m s with
  | None => None
  | Some (Err e, s') => Some (Err e, s')
  | Some (Ok a, s') => k a s'
  end.
#[global] Instance FM_fmap {S E} : FMap (FM S E) := λ A B f m, m ≫= (λ a, mret (f a)).
Definition throw {S E A} (e : E) : FM S E A := λ s, Some (Err e, s).
Definition out_of_fuel {S E A} : FM S E A := λ _, None.

(** [visited.insert(x)]: was [x] new? *)
Definition visit {E} (x : str) : FM (gset str) E bool := λ s, Some (Ok (bool_decide (x ∉ s)), {[x]} ∪ s).

Lemma FM_bind_unfold {S E A B} (m : FM S E A) (k : A → FM S E B) s :
  (m ≫= k) s = match m s with
               | None => None
               | Some (Err e, s') => Some (Err e, s')
               | Some (Ok a, s') => k a s'
               end.
Proof. done. Qed.

(** A computation that finishes from [s] and only adds to the visited set. *)
Definition finishes {E A} (m : FM (gset str) E A) (s : gset str) : Prop :=
  ∃ r s', m s = Some (r, s') ∧ s ⊆ s'.

Lemma finishes_ret {E A} (a : A) s : finishes (E := E) (mret a) s.
Proof. by exists (Ok a), s. Qed.

Lemma finishes_throw {E A} (e : E) s : finishes (A := A) (throw e) s.
Proof. by exists (Err e), s. Qed.

Lemma finishes_bind {E A B : Type} (m : FM (gset str) E A) (k : A → FM (gset str) E B) s :
  finishes m s → (∀ a s', s ⊆ s' → finishes (k a) s') → finishes (m ≫= k) s.
Proof.
  intros (r & s' & Hm & Hs) Hk. unfold finishes. rewrite FM_bind_unfold, Hm.
  destruct r as [a|e]; [|eauto].
  destruct (Hk a s' Hs) as (r' & s'' & ? & ?). exists r', s''. split; [done|]. by etrans.
Qed.

Lemma finishes_fmap {E A B : Type} (f : A → B) (m : FM (gset str) E A) s :
  finishes m s → finishes (f <$> m) s.
Proof. intros Hm. apply finishes_bind; [done|]. intros. apply finishes_ret. Qed.

#[export] Hint Resolve finishes_ret finishes_throw finishes_fmap : fb.

(** ** Sums over finite maps

    The sum of an integer function over the entries of a map, and how it
    changes with the map. *)

#[local] Open Scope Z_scope.

Section MapSum.
Context `{Countable K} {A : Type}.
Implicit Types (f g : K → A → Z) (m : gmap K A).

Definition map_sum f m : Z := map_fold (λ k x acc, f k x + acc) 0 m.

Lemma map_sum_empty f : map_sum f ∅ = 0.
Proof. apply map_fold_empty. Qed.

Lemma map_sum_insert f k x m : m !! k = None → map_sum f (<[k := x]> m) = f k x + map_sum f m.
Proof. intros Hk. unfold map_sum. rewrite map_fold_insert_L; [done|intros; lia|done]. Qed.

Lemma map_sum_delete f k x m : m !! k = Some x → map_sum f m = f k x + map_sum f (delete k m).
Proof. intros Hk. unfold map_sum. rewrite (map_fold_delete_L _ _ k x); [done|intros; lia|done]. Qed.

(** Writing a key trades its old share for the new one. *)
Lemma map_sum_update f k x m :
  map_sum f (<[k := x]> m) = f k x - from_option (f k) 0 (m !! k) + map_sum f m.
Proof.
  rewrite <- insert_delete_eq. rewrite map_sum_insert by apply lookup_delete_eq.
  destruct (m !! k) as [y|] eqn:E; cbn.
  - rewrite (map_sum_delete f k y m E). lia.
  - rewrite delete_id by done. lia.
Qed.

Lemma map_sum_remove f k m : map_sum f (delete k m) = map_sum f m - from_option (f k) 0 (m !! k).
Proof.
  destruct (m !! k) as [x|] eqn:E; cbn.
  - rewrite (map_sum_delete f k x m E). lia.
  - rewrite delete_id by done. lia.
Qed.

Lemma map_sum_ext f g m : (∀ k x, m !! k = Some x → f k x = g k x) → map_sum f m = map_sum g m.
Proof.
  induction m as [|k x m Hk IH] using map_ind; intros E; [by rewrite !map_sum_empty|].
  rewrite !map_sum_insert by done. rewrite (E k x) by apply lookup_insert_eq. f_equal. apply IH.
  intros k' x' H'. apply E. rewrite lookup_insert_ne; [done|]. by intros ->; simplify_eq.
Qed.

Lemma map_sum_nonneg f m : (∀ k x, m !! k = Some x → 0 ≤ f k x) → 0 ≤ map_sum f m.
Proof.
  induction m as [|k x m Hk IH] using map_ind; intros E; [by rewrite map_sum_empty|].
  rewrite map_sum_insert by done. pose proof (E k x (lookup_insert_eq _ _ _)).
  assert (0 ≤ map_sum f m); [|lia]. apply IH.
  intros k' x' H'. apply (E k'). rewrite lookup_insert_ne; [done|]. by intros ->; simplify_eq.
Qed.

Lemma map_sum_zero f m : (∀ k x, m !! k = Some x → f k x = 0) → map_sum f m = 0.
Proof.
  intros E. rewrite (map_sum_ext f (λ _ _, 0) m E). clear E.
  induction m as [|k x m Hk IH] using map_ind; [apply map_sum_empty|]. by rewrite map_sum_insert, IH.
Qed.

(** A share is at most the whole. *)
Lemma map_sum_le f k x m : m !! k = Some x → (∀ k x, m !! k = Some x → 0 ≤ f k x) → f k x ≤ map_sum f m.
Proof.
  intros Hk Hn. rewrite (map_sum_delete f k x m Hk).
  assert (0 ≤ map_sum f (delete k m)); [|lia]. apply map_sum_nonneg.
  intros k' x' [_ H']%lookup_delete_Some. by apply Hn.
Qed.

Lemma map_sum_filter f (P : K * A → Prop) `{!∀ x, Decision (P x)} m :
  map_sum f (filter P m) = map_sum (λ k x, if decide (P (k, x)) then f k x else 0) m.
Proof.
  induction m as [|k x m Hk IH] using map_ind; [by rewrite map_filter_empty, !map_sum_empty|].
  rewrite map_sum_insert by done. destruct (decide (P (k, x))) as [HP|HP].
  - rewrite map_filter_insert_True by done. rewrite map_sum_insert, IH; [done|].
    apply map_lookup_filter_None. by left.
  - rewrite map_filter_insert_False by done. by rewrite delete_id, IH by done.
Qed.

End MapSum.

Lemma map_sum_imap `{Countable K} {A B} (h : K → A → B) (f : K → B → Z) (m : gmap K A) :
  map_sum f (map_imap (λ k x, Some (h k x)) m) = map_sum (λ k x, f k (h k x)) m.
Proof.
  induction m as [|k x m Hk IH] using map_ind.
  - by rewrite map_imap_empty.
  - rewrite map_imap_insert by done. cbn. rewrite !map_sum_insert; [by rewrite IH|done|].
    rewrite map_lookup_imap, Hk. done.
Qed.
