(* ===== verification/RustStr.v ===== *)
(** * The standard library's [&str] operations used by the components

    Strings are UTF-8 byte lists.  An operation that works on characters in
    Rust works here on the encodings of those characters; on valid UTF-8 an
    encoding can only be matched at a character boundary, so the byte-wise
    scan and the character-wise scan agree.  The file also holds the lemmas
    about trimming, splitting and line iteration that the parsers share. *)
From S2P Require Import Prelude.
Definition byte_of (n : N) : ascii := ascii_of_N n.
Definition nl : ascii := "010"%char.
Definition cr : ascii := "013"%char.
Definition sp : ascii := " "%char.
Definition tab : ascii := "009"%char.

(** ** Prefixes and suffixes *)

Fixpoint strip_prefix (p s : str) : option str :=
  match p, s with
  | [], _ => Some s
  | a :: p', b :: s' => if decide (a = b) then strip_prefix p' s' else None
  | _ :: _, [] => None
  end.

Definition starts_with (p s : str) : bool :=
  match strip_prefix p s with Some _ => true | None => false end.

Definition strip_suffix (p s : str) : option str :=
  reverse <$> strip_prefix (reverse p) (reverse s).

Definition ends_with (p s : str) : bool :=
  match strip_suffix p s with Some _ => true | None => false end.

(** [s.contains(p)] *)
Fixpoint contains (p s : str) : bool :=
  starts_with p s || match s with [] => false | _ :: s => contains p s end.

Lemma strip_prefix_Some p s r : strip_prefix p s = Some r ↔ s = p ++ r.
Proof.
  revert s. induction p as [|a p IH]; intros [|b s]; simpl; [naive_solver..|].
  destruct (decide (a = b)) as [->|Hne]; [rewrite IH|]; split; intros; simplify_eq; auto.
Qed.

Lemma strip_prefix_app p r : strip_prefix p (p ++ r) = Some r.
Proof. by apply strip_prefix_Some. Qed.

Lemma strip_prefix_None p s : strip_prefix p s = None ↔ ¬ p `prefix_of` s.
Proof.
  split.
  - intros Hn [r ->]. by rewrite strip_prefix_app in Hn.
  - intros Hn. destruct (strip_prefix p s) as [r|] eqn:E; [|done].
    apply strip_prefix_Some in E as ->. destruct Hn. by eexists.
Qed.

Lemma starts_with_iff p s : starts_with p s = true ↔ p `prefix_of` s.
Proof.
  unfold starts_with. destruct (strip_prefix p s) eqn:E.
  - apply strip_prefix_Some in E as ->. split; [by eexists | done].
  - apply strip_prefix_None in E. split; [done | naive_solver].
Qed.

Lemma contains_iff p s : contains p s = true ↔ ∃ a b, s = a ++ p ++ b.
Proof.
  induction s as [|c s IH]; cbn; rewrite orb_true_iff, starts_with_iff.
  - split; [intros [[r H]|H]; [|done]; by exists [], r|]. intros (a & b & H). left. destruct a; [|done]. by exists b.
  - rewrite IH. split; [intros [[r H]|(a & b & ->)]; [by exists [], r|by exists (c :: a), b]|].
    intros (a & b & H). destruct a as [|x a]; [left; by exists b|]. injection H as <- ->. right. by exists a, b.
Qed.

Lemma ends_with_snoc s c : ends_with [c] (s ++ [c]) = true.
Proof.
  unfold ends_with, strip_suffix. rewrite reverse_app. simpl.
  by rewrite decide_True.
Qed.

(** ** White space

    [char::is_whitespace] is the Unicode [White_Space] property; the list
    holds the UTF-8 encodings of its 25 members. *)
Definition enc3 (a b c : N) : str := [byte_of a; byte_of b; byte_of c].

Definition ws_encodings : list str :=
  [ [byte_of 9]; [byte_of 10]; [byte_of 11]; [byte_of 12]; [byte_of 13];
    [byte_of 32]; [byte_of 194; byte_of 133]; [byte_of 194; byte_of 160];
    enc3 225 154 128;
    enc3 226 128 128; enc3 226 128 129; enc3 226 128 130; enc3 226 128 131;
    enc3 226 128 132; enc3 226 128 133; enc3 226 128 134; enc3 226 128 135;
    enc3 226 128 136; enc3 226 128 137; enc3 226 128 138; enc3 226 128 168;
    enc3 226 128 169; enc3 226 128 175; enc3 226 129 159; enc3 227 128 128 ].

(** Remove the first of [encs] that [s] begins with. *)
Fixpoint strip_one (encs : list str) (s : str) : option str :=
  match encs with
  | [] => None
  | e :: encs' =>
      match strip_prefix e s with
      | Some r => Some r
      | None => strip_one encs' s
      end
  end.

(** Remove elements of [encs] from the front as long as possible. *)
Fixpoint strip_many (encs : list str) (fuel : nat) (s : str) : str :=
  match fuel with
  | O => s
  | S n => match strip_one encs s with Some r => strip_many encs n r | None => s end
  end.

Definition trim_start (s : str) : str := strip_many ws_encodings (length s) s.
Definition trim_end (s : str) : str :=
  reverse (strip_many (reverse <$> ws_encodings) (length s) (reverse s)).
Definition trim (s : str) : str := trim_end (trim_start s).

Definition starts_ws (s : str) : bool :=
  match strip_one ws_encodings s with Some _ => true | None => false end.

(** [u8::is_ascii_whitespace]: space, tab, LF, FF, CR. *)
Definition is_ascii_whitespace (c : ascii) : bool :=
  bool_decide (c ∈ [sp; tab; nl; byte_of 12; cr]).

Definition in_range (lo hi : ascii) (c : ascii) : bool :=
  (N_of_ascii lo <=? N_of_ascii c)%N && (N_of_ascii c <=? N_of_ascii hi)%N.
Definition is_ascii_digit (c : ascii) : bool := in_range "0" "9" c.
Definition is_ascii_alphabetic (c : ascii) : bool :=
  in_range "a" "z" c || in_range "A" "Z" c.
Definition is_ascii_alphanumeric (c : ascii) : bool :=
  is_ascii_alphabetic c || is_ascii_digit c.

(** ** Search and split *)

(** [s.find(c)] for a one-byte pattern. *)
Fixpoint find_char (c : ascii) (s : str) : option nat :=
  match s with
  | [] => None
  | a :: s' => if decide (a = c) then Some 0 else S <$> find_char c s'
  end.

(** [s.split(p)] for a predicate on one-byte characters: always at least one
    piece, empty pieces kept. *)
Fixpoint split_by (p : ascii → bool) (s : str) : list str :=
  match s with
  | [] => [[]]
  | a :: s' =>
      if p a then [] :: split_by p s'
      else match split_by p s' with
           | [] => [[a]]
           | w :: ws => (a :: w) :: ws
           end
  end.

Definition split_on (c : ascii) : str → list str := split_by (λ a, bool_decide (a = c)).

(** [s.split_inclusive('\n')]: no piece for an empty remainder. *)
Fixpoint split_inclusive (c : ascii) (s : str) : list str :=
  match s with
  | [] => []
  | a :: s' =>
      if decide (a = c) then [a] :: split_inclusive c s'
      else match split_inclusive c s' with
           | [] => [[a]]
           | w :: ws => (a :: w) :: ws
           end
  end.

(** [s.lines()]: pieces of [split_inclusive('\n')] without their terminator,
    which is ["\n"] or ["\r\n"]. *)
Definition strip_line_end (l : str) : str :=
  match strip_suffix [nl] l with
  | None => l
  | Some l' => match strip_suffix [cr] l' with Some l'' => l'' | None => l' end
  end.

Definition lines (s : str) : list str := strip_line_end <$> split_inclusive nl s.

Fixpoint join (sep : str) (l : list str) : str :=
  match l with
  | [] => []
  | [w] => w
  | w :: ws => w ++ sep ++ join sep ws
  end.

(** Byte-wise lexicographic order, [Ord for str]. *)
Fixpoint str_leb (s t : str) : bool :=
  match s, t with
  | [], _ => true
  | _ :: _, [] => false
  | a :: s', b :: t' =>
      if (N_of_ascii a <? N_of_ascii b)%N then true
      else if (N_of_ascii b <? N_of_ascii a)%N then false
      else str_leb s' t'
  end.
Definition str_le (s t : str) : Prop := str_leb s t.
#[global] Instance str_le_dec : RelDecision str_le := λ s t, decide (str_leb s t).

Lemma str_le_total s t : str_le s t ∨ str_le t s.
Proof.
  unfold str_le. revert t. induction s as [|a s IH]; intros [|b t]; simpl; auto.
  destruct (N.ltb_spec (N_of_ascii a) (N_of_ascii b)); [by left|].
  destruct (N.ltb_spec (N_of_ascii b) (N_of_ascii a)); [by right|]. apply IH.
Qed.

Lemma str_le_trans s t u : str_le s t → str_le t u → str_le s u.
Proof.
  unfold str_le. revert t u. induction s as [|a s IH]; intros [|b t] [|c u]; simpl; try done.
  intros H1 H2. repeat case_match; try done; rewrite ?N.ltb_lt, ?N.ltb_ge in *; try lia.
  by eapply IH.
Qed.

#[global] Instance str_le_total_inst : Total str_le := str_le_total.
#[global] Instance str_le_trans_inst : Transitive str_le := str_le_trans.

Lemma str_le_antisym s t : str_le s t → str_le t s → s = t.
Proof.
  unfold str_le. revert t. induction s as [|a s IH]; intros [|b t]; simpl; try done.
  destruct (N.ltb_spec (N_of_ascii a) (N_of_ascii b)), (N.ltb_spec (N_of_ascii b) (N_of_ascii a)); try done; try lia.
  intros H1 H2. assert (a = b) as ->; [|f_equal; auto].
  rewrite <- (ascii_N_embedding a), <- (ascii_N_embedding b). f_equal. lia.
Qed.
#[global] Instance str_le_antisym_inst : AntiSymm (=) str_le := str_le_antisym.

(** [str::to_ascii_lowercase]. *)
Definition ascii_lower (c : ascii) : ascii := if in_range "A" "Z" c then byte_of (N_of_ascii c + 32) else c.
Definition to_ascii_lowercase (s : str) : str := ascii_lower <$> s.

(** ** Trimming *)

Lemma strip_one_Some encs s r :
  strip_one encs s = Some r → ∃ e, e ∈ encs ∧ s = e ++ r.
Proof.
  induction encs as [|e encs IH]; simpl; [done|].
  destruct (strip_prefix e s) eqn:E; intros H.
  - simplify_eq. apply strip_prefix_Some in E. exists e. set_solver.
  - destruct (IH H) as (e' & ? & ?). exists e'. set_solver.
Qed.

Lemma strip_one_None encs s :
  strip_one encs s = None ↔ ∀ e, e ∈ encs → ¬ e `prefix_of` s.
Proof.
  induction encs as [|e encs IH]; simpl.
  - split; [set_solver | done].
  - destruct (strip_prefix e s) as [r|] eqn:E.
    + apply strip_prefix_Some in E as ->. split; [done|].
      intros H. destruct (H e); [set_solver | by eexists].
    + apply strip_prefix_None in E. rewrite IH. set_solver.
Qed.

Lemma strip_many_stop encs n s : strip_one encs s = None → strip_many encs n s = s.
Proof. by destruct n; simpl; [|intros ->]. Qed.

Lemma strip_many_suffix encs n s : strip_many encs n s `suffix_of` s.
Proof.
  revert s. induction n as [|n IH]; intros s; simpl; [done|].
  destruct (strip_one encs s) as [r|] eqn:E; [|done].
  apply strip_one_Some in E as (e & _ & ->).
  etrans; [apply IH | by exists e].
Qed.

Definition all_nonempty (encs : list str) : Prop := ∀ e, e ∈ encs → e ≠ [].

Lemma strip_many_normal encs n s :
  all_nonempty encs → length s ≤ n → strip_one encs (strip_many encs n s) = None.
Proof.
  intros Hne. revert s. induction n as [|n IH]; intros s Hlen; simpl.
  - destruct s; simpl in Hlen; [|lia]. apply strip_one_None.
    intros e He [r Hr]. apply (Hne e He). by destruct e.
  - destruct (strip_one encs s) as [r|] eqn:E; [|done]. apply IH.
    apply strip_one_Some in E as (e & He & ->). apply Hne in He.
    rewrite length_app in Hlen. destruct e; simpl in *; [done | lia].
Qed.

Lemma strip_many_fuel encs n m s :
  all_nonempty encs → length s ≤ n → length s ≤ m →
  strip_many encs n s = strip_many encs m s.
Proof.
  intros Hne. revert m s. induction n as [|n IH]; intros m s Hn Hm; simpl.
  - destruct s; simpl in Hn; [|lia]. symmetry. apply strip_many_stop.
    apply strip_one_None. intros e He [r Hr]. apply (Hne e He). by destruct e.
  - destruct (strip_one encs s) as [r|] eqn:E; [|by rewrite strip_many_stop].
    pose proof E as (e & He & ->)%strip_one_Some. apply Hne in He.
    rewrite length_app in Hn, Hm. destruct e as [|a e]; [done|]. simpl in *.
    destruct m as [|m]; [lia|]. simpl. rewrite E. apply IH; lia.
Qed.

Lemma ws_nonempty : all_nonempty ws_encodings.
Proof. intros e He. repeat (apply elem_of_cons in He as [->|He]; [done|]). by inversion He. Qed.

Lemma ws_rev_nonempty : all_nonempty (reverse <$> ws_encodings).
Proof.
  intros e (e' & -> & He')%list_elem_of_fmap. apply ws_nonempty in He'.
  intros Hr. by apply He', (inj reverse).
Qed.

Lemma trim_start_suffix s : trim_start s `suffix_of` s.
Proof. apply strip_many_suffix. Qed.

Lemma trim_end_prefix s : trim_end s `prefix_of` s.
Proof.
  unfold trim_end. rewrite <- (reverse_involutive s) at 3.
  apply suffix_prefix_reverse, strip_many_suffix.
Qed.

Lemma trim_start_normal s : starts_ws (trim_start s) = false.
Proof.
  unfold starts_ws, trim_start. by rewrite strip_many_normal by auto using ws_nonempty.
Qed.

Lemma trim_start_fix s : starts_ws s = false → trim_start s = s.
Proof.
  unfold starts_ws, trim_start. intros H. apply strip_many_stop.
  by destruct (strip_one ws_encodings s).
Qed.

Lemma trim_start_idemp s : trim_start (trim_start s) = trim_start s.
Proof. apply trim_start_fix, trim_start_normal. Qed.

Lemma starts_ws_prefix s t : s `prefix_of` t → starts_ws t = false → starts_ws s = false.
Proof.
  unfold starts_ws. intros Hpre Ht.
  destruct (strip_one ws_encodings t) eqn:Et; [done|].
  assert (strip_one ws_encodings s = None) as ->; [|done].
  rewrite strip_one_None in *. intros e He Hs. eapply Et; [done|]. by etrans.
Qed.

Lemma trim_end_idemp s : trim_end (trim_end s) = trim_end s.
Proof.
  unfold trim_end at 1. rewrite strip_many_stop.
  - apply reverse_involutive.
  - unfold trim_end. rewrite reverse_involutive.
    apply strip_many_normal; [apply ws_rev_nonempty | by rewrite length_reverse].
Qed.

Lemma trim_idemp s : trim (trim s) = trim s.
Proof.
  unfold trim at 1. rewrite (trim_start_fix (trim s)).
  - unfold trim. apply trim_end_idemp.
  - eapply starts_ws_prefix; [apply trim_end_prefix | apply trim_start_normal].
Qed.

Lemma trim_length s : length (trim s) ≤ length s.
Proof.
  unfold trim. etrans; [apply prefix_length, trim_end_prefix|].
  apply suffix_length, trim_start_suffix.
Qed.

Lemma suffix_length_eq {A} (s t : list A) : s `suffix_of` t → length t ≤ length s → s = t.
Proof. intros [r ->]. rewrite length_app. destruct r; simpl; [done | lia]. Qed.

Lemma trim_fix s : trim s = s → trim_start s = s ∧ trim_end s = s.
Proof.
  intros H. assert (trim_start s = s) as Hs.
  { apply suffix_length_eq; [apply trim_start_suffix|].
    rewrite <- H at 1. apply prefix_length, trim_end_prefix. }
  split; [done|]. unfold trim in H. by rewrite Hs in H.
Qed.

Lemma trim_of_start_end s : trim_start s = s → trim_end s = s → trim s = s.
Proof. unfold trim. by intros -> ->. Qed.

(** One-byte white space at either end disappears. *)
Definition is_ws1 (c : ascii) : bool :=
  bool_decide ([c] ∈ take 6 ws_encodings).

Lemma strip_one_ws1 c s : is_ws1 c = true → strip_one ws_encodings (c :: s) = Some s.
Proof.
  intros H%bool_decide_eq_true. simpl in H.
  repeat (apply elem_of_cons in H as [[= ->]|H]; [done|]). by inversion H.
Qed.

Lemma trim_start_cons c s : is_ws1 c = true → trim_start (c :: s) = trim_start s.
Proof. intros H. unfold trim_start. cbn [length strip_many]. by rewrite strip_one_ws1. Qed.

Lemma trim_end_snoc c s : is_ws1 c = true → trim_end (s ++ [c]) = trim_end s.
Proof.
  intros H%bool_decide_eq_true. unfold trim_end.
  rewrite length_app, reverse_snoc, Nat.add_comm. cbn [length Nat.add strip_many].
  assert (strip_one (reverse <$> ws_encodings) (c :: reverse s) = Some (reverse s)) as ->; [|done].
  simpl in H. repeat (apply elem_of_cons in H as [[= ->]|H]; [done|]). by inversion H.
Qed.

Lemma trim_nil : trim [] = [].
Proof. done. Qed.

#[export] Hint Rewrite trim_idemp trim_start_idemp trim_end_idemp trim_nil : rust_str.
#[export] Hint Resolve trim_end_prefix trim_start_suffix trim_length : rust_str.

(** ** Splitting and joining *)

Lemma split_by_nonnil p s : split_by p s ≠ [].
Proof. destruct s; simpl; [done|]. repeat case_match; done. Qed.

Lemma split_by_pieces p s w : w ∈ split_by p s → Forall (λ c, p c = false) w.
Proof.
  revert w. induction s as [|a s IH]; simpl; intros w.
  - intros ->%list_elem_of_singleton. constructor.
  - destruct (p a) eqn:Ha.
    + intros [->|?]%elem_of_cons; [constructor | auto].
    + destruct (split_by p s) as [|v vs].
      * intros ->%list_elem_of_singleton. by repeat constructor.
      * intros [->|?]%elem_of_cons; [constructor; [done|]|]; apply IH; set_solver.
Qed.

Lemma split_by_clean p w : Forall (λ c, p c = false) w → split_by p w = [w].
Proof. induction 1 as [|a w Ha Hw IH]; simpl; [done|]. by rewrite Ha, IH. Qed.

Lemma split_by_sep p w c s :
  Forall (λ c, p c = false) w → p c = true → split_by p (w ++ c :: s) = w :: split_by p s.
Proof.
  intros Hw Hc. induction Hw as [|a w Ha Hw IH]; simpl; [by rewrite Hc|].
  by rewrite Ha, IH.
Qed.

Lemma split_join c l :
  l ≠ [] → Forall (λ w, c ∉ w) l → split_on c (join [c] l) = l.
Proof.
  intros Hne Hl. unfold split_on.
  assert (∀ w, c ∉ w → Forall (λ a, bool_decide (a = c) = false) w) as Hcl.
  { intros w Hw. apply Forall_forall. intros a Ha. apply bool_decide_eq_false. by intros ->. }
  induction Hl as [|w l Hw Hl IH]; [done|]. destruct l as [|v l].
  - by apply split_by_clean, Hcl.
  - change (join [c] (w :: v :: l)) with (w ++ c :: join [c] (v :: l)).
    rewrite split_by_sep, IH; [done|done|by apply Hcl|by apply bool_decide_eq_true].
Qed.

Lemma join_elem c sep l : c ∈ join sep l → c ∈ sep ∨ ∃ w, w ∈ l ∧ c ∈ w.
Proof.
  induction l as [|w l IH]; simpl; [by intros ?%elem_of_nil|].
  destruct l as [|v l]; [set_solver|].
  rewrite !elem_of_app. intros [?|[?|[?|(x & ? & ?)]%IH]]; set_solver.
Qed.

Lemma split_inclusive_clean c w :
  w ≠ [] → c ∉ w → split_inclusive c w = [w].
Proof.
  intros Hne Hc. induction w as [|a w IH]; [done|]. simpl.
  apply not_elem_of_cons in Hc as [Hac Hw]. rewrite decide_False by done.
  destruct w; [done|]. by rewrite IH.
Qed.

Lemma split_inclusive_sep c w s :
  c ∉ w → split_inclusive c (w ++ c :: s) = (w ++ [c]) :: split_inclusive c s.
Proof.
  intros Hc. induction w as [|a w IH]; simpl; [by rewrite decide_True|].
  apply not_elem_of_cons in Hc as [Hac Hw]. rewrite decide_False by done.
  by rewrite IH.
Qed.

Lemma split_inclusive_concat c s : mjoin (split_inclusive c s) = s.
Proof.
  induction s as [|a s IH]; simpl; [done|].
  case_decide; simpl; [by rewrite IH|].
  destruct (split_inclusive c s); simpl in *; by rewrite <- IH.
Qed.

(** A line is its content, free of the separator, and at most one separator
    at its end. *)
Lemma split_inclusive_shape c s l :
  l ∈ split_inclusive c s → ∃ w, c ∉ w ∧ (l = w ∨ l = (w ++ [c])) ∧ l ≠ [].
Proof.
  revert l. induction s as [|a s IH]; simpl; intros l; [by intros ?%elem_of_nil|].
  case_decide as Ha.
  - subst. intros [->|?]%elem_of_cons; [|auto]. exists []. set_solver.
  - destruct (split_inclusive c s) as [|v vs].
    + intros ->%list_elem_of_singleton. exists [a]. set_solver.
    + intros [->|?]%elem_of_cons; [|apply IH; set_solver].
      destruct (IH v) as (w & Hw & Hv & ?); [set_solver|].
      exists (a :: w). split; [set_solver|]. split; [|done]. destruct Hv; subst; auto.
Qed.

Lemma strip_suffix_snoc w a c : strip_suffix [c] (w ++ [a]) = if decide (c = a) then Some w else None.
Proof.
  unfold strip_suffix. rewrite reverse_snoc. simpl.
  case_decide; simpl; [by rewrite reverse_involutive | done].
Qed.

Lemma strip_suffix_notin w c : c ∉ w → strip_suffix [c] w = None.
Proof.
  intros Hc. destruct w as [|a w _] using rev_ind; [done|].
  rewrite strip_suffix_snoc, decide_False; [done|]. set_solver.
Qed.

Lemma strip_line_end_clean w : nl ∉ w → strip_line_end w = w.
Proof. intros Hw. unfold strip_line_end. by rewrite strip_suffix_notin. Qed.

Lemma strip_line_end_nl w :
  strip_line_end (w ++ [nl]) = match strip_suffix [cr] w with Some v => v | None => w end.
Proof. unfold strip_line_end. by rewrite strip_suffix_snoc, decide_True. Qed.

Lemma lines_no_nl s l : l ∈ lines s → nl ∉ l.
Proof.
  unfold lines. intros (l' & -> & (w & Hw & Hl & _)%split_inclusive_shape)%list_elem_of_fmap.
  destruct Hl as [->| ->].
  - by rewrite strip_line_end_clean.
  - rewrite strip_line_end_nl. destruct w as [|a w _] using rev_ind; [done|].
    rewrite strip_suffix_snoc. case_decide; set_solver.
Qed.

(** The characters of the pieces are those of the text. *)
Lemma line_elem s l c : l ∈ lines s → c ∈ l → c ∈ s.
Proof.
  unfold lines. intros (p & -> & Hp)%list_elem_of_fmap Hc. rewrite <- (split_inclusive_concat nl s).
  apply list_elem_of_join. exists p. split; [|done].
  apply split_inclusive_shape in Hp as (w & Hw & [->| ->] & _); [by rewrite strip_line_end_clean in Hc|].
  rewrite strip_line_end_nl in Hc. apply elem_of_app. left.
  destruct w as [|a w _] using rev_ind; [done|]. rewrite strip_suffix_snoc in Hc. case_decide; set_solver.
Qed.

Lemma split_by_elem p s w c : w ∈ split_by p s → c ∈ w → c ∈ s.
Proof.
  revert w. induction s as [|a s IH]; cbn [split_by]; intros w Hw Hc.
  { apply list_elem_of_singleton in Hw as ->. done. }
  destruct (p a); [apply elem_of_cons in Hw as [->|Hw]; [by apply not_elem_of_nil in Hc|right; by eapply IH]|].
  destruct (split_by p s) as [|v vs].
  - apply list_elem_of_singleton in Hw as ->. apply list_elem_of_singleton in Hc as ->. left.
  - apply elem_of_cons in Hw as [->|Hw]; [|right; eapply IH; [by right|done]].
    apply elem_of_cons in Hc as [->|Hc]; [left|right]. eapply IH; [left|done].
Qed.

Lemma trim_elem s c : c ∈ trim s → c ∈ s.
Proof.
  unfold trim. destruct (trim_end_prefix (trim_start s)) as [k Hk], (trim_start_suffix s) as [j Hj]. intros Hin.
  rewrite Hj. apply elem_of_app. right. rewrite Hk. apply elem_of_app. by left.
Qed.
Lemma lines_clean w : w ≠ [] → nl ∉ w → lines w = [w].
Proof.
  intros. unfold lines. rewrite split_inclusive_clean by done.
  simpl. by rewrite strip_line_end_clean.
Qed.

Lemma lines_bind_clean {A} (f : str → list A) w :
  w ≠ [] → nl ∉ w → (l ← lines w; f l) = f w.
Proof. intros. rewrite lines_clean by done. apply app_nil_r. Qed.

Lemma lines_cons w s : nl ∉ w → cr ∉ w → lines (w ++ nl :: s) = w :: lines s.
Proof.
  intros. unfold lines. rewrite split_inclusive_sep by done. simpl.
  by rewrite strip_line_end_nl, strip_suffix_notin.
Qed.

Definition clean (l : str) : Prop := nl ∉ l ∧ cr ∉ l.
Definition unlines (l : list str) : str := mbind (λ w, w ++ [nl]) l.
Lemma unlines_app k l : unlines (k ++ l) = unlines k ++ unlines l.
Proof. apply bind_app. Qed.
Lemma unlines_one x : unlines [x] = x ++ [nl].
Proof. unfold unlines. by rewrite bind_singleton. Qed.

Lemma lines_unlines_app l s : Forall clean l → lines (unlines l ++ s) = l ++ lines s.
Proof.
  induction 1 as [|w l [Hw Hc] _ IH]; [done|]. unfold unlines in *. rewrite bind_cons, <- !app_assoc. cbn [app].
  by rewrite lines_cons, IH.
Qed.
Lemma lines_unlines l : Forall clean l → lines (unlines l) = l.
Proof. intros H. by rewrite <- (app_nil_r (unlines l)), lines_unlines_app, app_nil_r. Qed.

Lemma ends_with_char c s : ends_with [c] s = true ↔ ∃ r, s = r ++ [c].
Proof.
  split; [|intros [r ->]; apply ends_with_snoc]. destruct s as [|a s _] using rev_ind; [done|].
  unfold ends_with. rewrite strip_suffix_snoc. destruct (decide _) as [->|]; [by exists s|done].
Qed.


(** A string without white space at its ends is left alone by [trim]. *)
Lemma trim_wrapped c d w :
  starts_ws (c :: w ++ [d]) = false →
  strip_one (reverse <$> ws_encodings) (d :: reverse (c :: w)) = None →
  trim (c :: w ++ [d]) = c :: w ++ [d].
Proof.
  intros Hs He. apply trim_of_start_end; [by apply trim_start_fix|].
  unfold trim_end. rewrite app_comm_cons, reverse_snoc, strip_many_stop by done.
  by rewrite reverse_cons, reverse_involutive.
Qed.

(** ** Strings guarded by a byte that is not white space *)

Definition solid (c : ascii) : Prop := ∀ e, e ∈ ws_encodings → c ∉ e.
#[global] Instance solid_dec c : Decision (solid c).
Proof.
  refine (cast_if (decide (Forall (λ e, c ∉ e) ws_encodings)));
    abstract (unfold solid; rewrite <- Forall_forall; done).
Defined.

Lemma prefix_guard (e w : str) c t : c ∉ e → e `prefix_of` w ++ c :: t → e `prefix_of` w.
Proof.
  revert w. induction e as [|a e IH]; intros w Hc Hp; [apply prefix_nil|].
  apply not_elem_of_cons in Hc as [Hca Hc]. destruct w as [|b w].
  - apply prefix_cons_inv_1 in Hp. congruence.
  - pose proof Hp as ->%prefix_cons_inv_1. apply prefix_cons_inv_2 in Hp.
    by apply prefix_cons, IH.
Qed.

Lemma strip_one_guard encs w c t :
  (∀ e, e ∈ encs → c ∉ e) → strip_one encs w = None → strip_one encs (w ++ c :: t) = None.
Proof.
  rewrite !strip_one_None. intros Hc Hw e He Hp.
  apply (Hw e He). eapply prefix_guard; [|done]. by apply Hc.
Qed.

Lemma solid_reverse c e : solid c → e ∈ reverse <$> ws_encodings → c ∉ e.
Proof. intros Hc (e' & -> & He')%list_elem_of_fmap. rewrite elem_of_reverse. by apply Hc. Qed.

Lemma starts_ws_iff s : starts_ws s = false ↔ strip_one ws_encodings s = None.
Proof. unfold starts_ws. by destruct (strip_one ws_encodings s). Qed.

Lemma trim_start_fix_iff s : trim_start s = s ↔ starts_ws s = false.
Proof.
  split; [|apply trim_start_fix]. intros <-. apply trim_start_normal.
Qed.

Lemma trim_end_fix_iff s :
  trim_end s = s ↔ strip_one (reverse <$> ws_encodings) (reverse s) = None.
Proof.
  unfold trim_end. split.
  - intros Hs. apply (f_equal reverse) in Hs. rewrite reverse_involutive in Hs.
    rewrite <- Hs. apply strip_many_normal; [apply ws_rev_nonempty | by rewrite length_reverse].
  - intros Hs. rewrite strip_many_stop by done. apply reverse_involutive.
Qed.

(** Trimmed pieces around a solid byte stay as they are. *)
Lemma trim_around c w v : solid c → trim w = w → trim v = v → trim (w ++ c :: v) = w ++ c :: v.
Proof.
  intros Hc [Hw _]%trim_fix [_ Hv]%trim_fix. apply trim_of_start_end.
  - apply trim_start_fix_iff, starts_ws_iff. apply strip_one_guard; [apply Hc|].
    by apply starts_ws_iff, trim_start_fix_iff.
  - apply trim_end_fix_iff. rewrite reverse_app, reverse_cons, <- app_assoc.
    apply strip_one_guard; [by intros e; apply solid_reverse|]. by apply trim_end_fix_iff.
Qed.

Lemma find_char_app c w s : c ∉ w → find_char c (w ++ c :: s) = Some (length w).
Proof.
  intros Hc. induction w as [|a w IH]; simpl; [by rewrite decide_True|].
  apply not_elem_of_cons in Hc as [Ha Hw]. rewrite decide_False by done. by rewrite IH.
Qed.

Lemma starts_with_ne c a s : c ≠ a → starts_with [c] (a :: s) = false.
Proof. intros. unfold starts_with. simpl. by rewrite decide_False. Qed.

Lemma drop_past w c (s : str) : drop (S (length w)) (w ++ c :: s) = s.
Proof. induction w; simpl; [by rewrite drop_0 | done]. Qed.

Lemma find_char_Some c s i :
  find_char c s = Some i → s = take i s ++ c :: drop (S i) s ∧ c ∉ take i s.
Proof.
  revert i. induction s as [|a s IH]; simpl; intros i; [done|].
  case_decide as Ha.
  - intros [= <-]. subst. simpl. rewrite drop_0. split; [done | apply not_elem_of_nil].
  - intros (j & Hj & ->)%fmap_Some. apply IH in Hj as [Hs Hc]. simpl. split.
    + by rewrite <- Hs.
    + by apply not_elem_of_cons.
Qed.

Lemma find_char_None c s : find_char c s = None ↔ c ∉ s.
Proof.
  induction s as [|a s IH]; simpl; [split; [intros _; apply not_elem_of_nil | done]|].
  rewrite not_elem_of_cons. case_decide as Ha.
  - split; [done|]. intros [? _]. congruence.
  - rewrite fmap_None, IH. naive_solver.
Qed.

(** The first occurrence of a byte splits a string in one way only. *)
Lemma first_split_inj c (x y u v : str) : c ∉ x → c ∉ y → x ++ c :: u = y ++ c :: v → x = y ∧ u = v.
Proof.
  revert y. induction x as [|a x IH]; intros [|b y] Hx Hy H; simpl in H.
  { by injection H as ->. }
  { injection H as -> _. set_solver. }
  { injection H as -> _. set_solver. }
  injection H as -> H.
  apply not_elem_of_cons in Hx as [_ Hx]. apply not_elem_of_cons in Hy as [_ Hy].
  by destruct (IH y Hx Hy H) as [-> ->].
Qed.

(** ** Hexadecimal formatting: [{:04x}] and [{:04X}] of a [u16] *)

Definition hex_digit (alpha : ascii) (d : Z) : ascii :=
  if (d <? 10)%Z then byte_of (Z.to_N (48 + d))
  else byte_of (Z.to_N (Z.of_N (N_of_ascii alpha) + d - 10)).

Definition hex4 (alpha : ascii) (v : Z) : str :=
  (λ k, hex_digit alpha (Z.land (Z.shiftr v k) 15)) <$> [12; 8; 4; 0]%Z.

Example hex4_demo : hex4 "a" 12346 = &"303a" ∧ hex4 "A" 65535 = &"FFFF".
Proof. split; reflexivity. Qed.

(** ** UTF-8 in [String]

    [String::from_utf8_lossy] and [std::str::from_utf8] on byte strings. *)

(** ** [String::from_utf8_lossy]

    Each maximal prefix of a well-formed sequence that is cut short becomes
    one U+FFFD, as the standard library documents. *)
Definition code (c : ascii) : N := N_of_ascii c.
Definition between (lo hi : N) (c : ascii) : bool := (lo <=? code c)%N && (code c <=? hi)%N.
Definition is_cont : ascii → bool := between 128 191.
Definition replacement : str := enc3 239 191 189.

(** What the first byte of a multi-byte sequence asks of the second, and how
    many continuation bytes follow that one. *)
Definition lead (c : ascii) : option ((ascii → bool) * nat) :=
  if between 194 223 c then Some (is_cont, 0)
  else if between 224 224 c then Some (between 160 191, 1)
  else if between 225 236 c then Some (is_cont, 1)
  else if between 237 237 c then Some (between 128 159, 1)
  else if between 238 239 c then Some (is_cont, 1)
  else if between 240 240 c then Some (between 144 191, 2)
  else if between 241 243 c then Some (is_cont, 2)
  else if between 244 244 c then Some (between 128 143, 2)
  else None.

(** The continuation bytes at the head of [s], at most [n]: those taken,
    whether all [n] were there, and the rest. *)
Fixpoint take_cont (n : nat) (s : str) : str * bool * str :=
  match n, s with
  | O, _ => ([], true, s)
  | S _, [] => ([], false, [])
  | S n', c :: s' =>
      if is_cont c then let '(t, ok, r) := take_cont n' s' in (c :: t, ok, r) else ([], false, s)
  end.

Fixpoint utf8_lossy (fuel : nat) (s : str) : str :=
  match fuel, s with
  | O, _ | _, [] => []
  | S n, c :: s' =>
      if between 0 127 c then c :: utf8_lossy n s'
      else match lead c with
           | None => replacement ++ utf8_lossy n s'
           | Some (second, more) =>
               match s' with
               | d :: s'' =>
                   if second d then
                     let '(t, ok, r) := take_cont more s'' in
                     (if ok : bool then c :: d :: t else replacement) ++ utf8_lossy n r
                   else replacement ++ utf8_lossy n s'
               | [] => replacement
               end
           end
  end.

Definition from_utf8_lossy (s : str) : str := utf8_lossy (length s) s.

(** [std::str::from_utf8] succeeds when nothing has to be replaced. *)
Definition decoded (d : str) : Prop := from_utf8_lossy d = d.

Lemma utf8_ascii n s : length s ≤ n → Forall (λ c, between 0 127 c = true) s → utf8_lossy n s = s.
Proof.
  revert s. induction n as [|n IH]; intros [|c s] Hn Hs; cbn [length] in Hn; try lia; try done.
  apply Forall_cons in Hs as [Hc Hs]. cbn [utf8_lossy]. rewrite Hc. f_equal. apply IH; [lia|done].
Qed.

(** ASCII text is unchanged, however it is cut. *)
Lemma decoded_ascii s : Forall (λ c, between 0 127 c = true) s → decoded s.
Proof. by apply utf8_ascii. Qed.

#[global] Instance decoded_dec d : Decision (decoded d).
Proof. unfold decoded. apply _. Defined.

Definition from_utf8 (s : str) : option str := if decide (decoded s) then Some s else None.

(** ** Integers as text

    [str::parse] for the unsigned integer types, and [Display] of integers,
    with their round trip. *)

#[local] Open Scope Z_scope.
Implicit Types (n k : Z) (s : str).

Definition digit_value (c : ascii) : Z := Z.of_N (N_of_ascii c) - 48.
Definition digit_char (d : Z) : ascii := byte_of (Z.to_N (48 + d)).

(** The checked loop of [from_str_radix]. *)
Fixpoint parse_digits (bound : Z) (acc : Z) (s : str) : option Z :=
  match s with
  | [] => Some acc
  | c :: s =>
      if is_ascii_digit c then
        let acc := 10 * acc + digit_value c in
        if decide (acc ≤ bound) then parse_digits bound acc s else None
      else None
  end.

(** [s.parse::<uN>()], with the type's largest value. *)
Definition parse_uint (bound : Z) (s : str) : option Z :=
  match s with
  | [] => None
  | c :: s' =>
      if decide (c = "+"%char) then match s' with [] => None | _ => parse_digits bound 0 s' end
      else parse_digits bound 0 s
  end.

Definition u32_max : Z := 2 ^ 32 - 1.

Fixpoint decimal_fuel (fuel : nat) n (acc : str) : str :=
  match fuel with
  | O => acc
  | S fuel =>
      let acc := digit_char (n mod 10) :: acc in
      if decide (n < 10) then acc else decimal_fuel fuel (n / 10) acc
  end.

(** [format!("{n}")] for [0 ≤ n]: a number has at most as many digits as bits. *)
Definition decimal n : str := decimal_fuel (S (Z.to_nat (Z.log2 n))) n [].

Example decimal_demo : decimal <$> [0; 7; 10; 4294967295] = [&"0"; &"7"; &"10"; &"4294967295"].
Proof. by vm_compute. Qed.
Example parse_uint_demo :
  parse_uint u32_max <$> [&"12"; &"+7"; &""; &"+"; &"4294967295"; &"4294967296"; &"1x"; &"-1"]
  = [Some 12; Some 7; None; None; Some 4294967295; None; None; None].
Proof. by vm_compute. Qed.

(** ** The round trip *)

Lemma digit_char_ok d : 0 ≤ d < 10 → is_ascii_digit (digit_char d) = true ∧ digit_value (digit_char d) = d.
Proof.
  intros Hd. assert (d ∈ [0; 1; 2; 3; 4; 5; 6; 7; 8; 9]) as H.
  { rewrite !elem_of_cons, elem_of_nil. lia. }
  revert H. rewrite !elem_of_cons, elem_of_nil. naive_solver.
Qed.

(** Reading what is written in front of [acc] continues with [acc]. *)
Lemma parse_decimal_fuel bound fuel : ∀ n acc, 0 ≤ n ≤ bound → Z.log2 n < Z.of_nat fuel →
  parse_digits bound 0 (decimal_fuel fuel n acc) = parse_digits bound n acc.
Proof.
  induction fuel as [|fuel IH]; intros n acc Hn Hf; [pose proof (Z.log2_nonneg n); lia|]. cbn [decimal_fuel].
  assert (∀ q, 0 ≤ q → 10 * q + n mod 10 = n → parse_digits bound q (digit_char (n mod 10) :: acc) = parse_digits bound n acc) as Hd.
  { intros q Hq E. cbn [parse_digits]. destruct (digit_char_ok (n mod 10)) as [-> ->]; [by apply Z.mod_pos_bound|].
    rewrite E, decide_True; [done|lia]. }
  destruct (decide (n < 10)).
  - apply Hd; [lia|]. rewrite Z.mod_small; lia.
  - pose proof (Z.div_mod n 10). assert (1 ≤ n / 10) by (apply Z.div_le_lower_bound; lia).
    rewrite IH.
    + apply Hd; lia.
    + split; [lia|]. assert (n / 10 ≤ n) by (apply Z.div_le_upper_bound; lia). lia.
    + assert (Z.log2 (n / 10) < Z.log2 n); [|lia].
      apply Z.log2_lt_pow2; [lia|]. apply Z.div_lt_upper_bound; [lia|].
      pose proof (Z.log2_spec n) as [_ ?]; [lia|]. pose proof (Z.log2_nonneg n). rewrite Z.pow_succ_r in *; lia.
Qed.

Lemma decimal_fuel_digits fuel : ∀ n acc, 0 ≤ n → Forall (λ c, is_ascii_digit c = true) acc →
  Forall (λ c, is_ascii_digit c = true) (decimal_fuel fuel n acc).
Proof.
  induction fuel as [|fuel IH]; intros n acc Hn Ha; cbn [decimal_fuel]; [done|].
  assert (Forall (λ c, is_ascii_digit c = true) (digit_char (n mod 10) :: acc)).
  { constructor; [|done]. apply digit_char_ok, Z.mod_pos_bound. lia. }
  case_decide; [done|]. apply IH; [|done]. apply Z.div_pos; lia.
Qed.

Lemma decimal_digits n : 0 ≤ n → Forall (λ c, is_ascii_digit c = true) (decimal n).
Proof. intros Hn. by apply decimal_fuel_digits. Qed.

Lemma decimal_fuel_suffix fuel : ∀ n acc, acc `suffix_of` decimal_fuel fuel n acc.
Proof.
  induction fuel as [|fuel IH]; intros n acc; cbn [decimal_fuel]; [done|].
  case_decide; [by exists [digit_char (n mod 10)]|]. etrans; [|apply IH]. by exists [digit_char (n mod 10)].
Qed.

Lemma decimal_nonempty n : decimal n ≠ [].
Proof.
  unfold decimal. cbn [decimal_fuel]. destruct (decide (n < 10)); [done|]. intros E.
  destruct (decimal_fuel_suffix (Z.to_nat (Z.log2 n)) (n / 10) [digit_char (n mod 10)]) as [k H].
  rewrite E in H. by destruct k.
Qed.

Lemma parse_uint_digits bound s : s ≠ [] → Forall (λ c, is_ascii_digit c = true) s →
  parse_uint bound s = parse_digits bound 0 s.
Proof.
  intros Hs Hd. destruct s as [|c s]; [done|]. cbn [parse_uint]. rewrite decide_False; [done|].
  intros ->. by apply Forall_cons in Hd as [? _].
Qed.

Lemma parse_uint_decimal bound n : 0 ≤ n ≤ bound → parse_uint bound (decimal n) = Some n.
Proof.
  intros Hn. rewrite parse_uint_digits by (apply decimal_nonempty || (apply decimal_digits; lia)).
  unfold decimal. rewrite parse_decimal_fuel; [done|done|]. pose proof (Z.log2_nonneg n). lia.
Qed.

(** Digits are not white space, nor line ends. *)
Lemma digits_clean s : Forall (λ c, is_ascii_digit c = true) s → nl ∉ s ∧ cr ∉ s.
Proof. intros H. split; intros E; by apply (proj1 (Forall_forall _ _) H) in E. Qed.

Lemma digit_solid c : is_ascii_digit c = true → solid c.
Proof.
  intros Hc. assert (c ∈ digit_char <$> [0; 1; 2; 3; 4; 5; 6; 7; 8; 9]) as H.
  { destruct c as [[] [] [] [] [] [] [] []]; try discriminate Hc; apply (bool_decide_unpack _); by vm_compute. }
  assert (Forall solid (digit_char <$> [0; 1; 2; 3; 4; 5; 6; 7; 8; 9])) as Hs
    by (apply (bool_decide_unpack _); by vm_compute).
  by apply (proj1 (Forall_forall _ _) Hs).
Qed.

Lemma digits_trim s : Forall (λ c, is_ascii_digit c = true) s → trim s = s.
Proof.
  induction 1 as [|c s Hc Hs IH]; [apply trim_nil|].
  apply (trim_around c [] s); [by apply digit_solid|apply trim_nil|done].
Qed.
