(* ===== verification/IniValues.v ===== *)
(** * [fbuild-config/src/ini_parser/values.rs]

    Inline comments, flag tokenization and the multi-value lists, with the
    round trip of the shell-quoting layer and the shape of every list item. *)
From S2P Require Import Prelude RustStr.

(** ** Inline comments *)

(** The loop over [i in 1..bytes.len()]; [prev] is [bytes[i-1]] and [s] is
    [bytes[i..]].  The result is the first [i] such that [prev] is a space
    and [bytes[i]] opens a comment. *)
Fixpoint comment_from (i : nat) (prev : ascii) (s : str) : option nat :=
  match s with
  | [] => None
  | b :: s' =>
      if bool_decide (prev = sp) && (bool_decide (b = ";"%char) || bool_decide (b = "#"%char))
      then Some i else comment_from (S i) b s'
  end.

Definition strip_inline_comment (s : str) : str :=
  match s with
  | [] => trim s
  | a :: s' =>
      match comment_from 1 a s' with
      | Some i => trim (take i s)
      | None => trim s
      end
  end.

(** ** Flags *)

Definition dquote : ascii := "034"%char.
Definition squote : ascii := "'"%char.
Definition backslash : ascii := "\"%char.

(** Push [current] to the result when it is not empty. *)
Definition push_nonempty (current : str) (rest : list str) : list str :=
  match current with [] => rest | _ => current :: rest end.

(** The [while let Some(c) = chars.next()] loop on one trimmed line, arms in
    the source's order; the result is the list of flags pushed from here on. *)
Fixpoint flag_chars (cs current : str) (in_quotes : bool) (quote_char : ascii) : list str :=
  match cs with
  | [] => push_nonempty current []
  | c :: cs' =>
      let other :=
        if (bool_decide (c = dquote) || bool_decide (c = squote)) && negb in_quotes
        then flag_chars cs' current true c
        else if in_quotes && bool_decide (c = quote_char)
        then flag_chars cs' current false quote_char
        else if (bool_decide (c = sp) || bool_decide (c = tab)) && negb in_quotes
        then push_nonempty current (flag_chars cs' [] in_quotes quote_char)
        else flag_chars cs' (current ++ [c]) in_quotes quote_char in
      match cs' with
      | p :: cs'' =>
          if bool_decide (c = backslash) && bool_decide (p = dquote)
             && negb (in_quotes && bool_decide (quote_char = squote))
          then flag_chars cs'' (current ++ [dquote]) in_quotes quote_char
          else other
      | [] => other
      end
  end.

Definition flag_line (line : str) : list str :=
  let trimmed := trim line in
  match trimmed with [] => [] | _ => flag_chars trimmed [] false sp end.

(** [-D FLAG] becomes [-DFLAG]. *)
Fixpoint normalize_defines (l : list str) : list str :=
  match l with
  | [] => []
  | a :: l' =>
      match l' with
      | b :: l'' =>
          if bool_decide (a = &"-D") then (&"-D" ++ b) :: normalize_defines l''
          else a :: normalize_defines l'
      | [] => [a]
      end
  end.

Definition parse_flags (flags_str : str) : list str :=
  normalize_defines (mbind flag_line (lines flags_str)).

(** ** Lists *)

Definition keep_nonempty (l : list str) : list str := filter (λ w, w ≠ []) l.

Definition parse_lib_deps (deps_str : str) : list str :=
  l ← lines deps_str; keep_nonempty (trim <$> split_on "," l).

Definition parse_list_values (value : str) : list str :=
  l ← lines value; keep_nonempty (trim <$> split_on "," l).

(** [separator] is the host's path-list separator. *)
Definition parse_path_list (separator : ascii) (paths_str : str) : list str :=
  l ← lines paths_str; keep_nonempty (strip_inline_comment <$> split_on separator l).

Example parse_flags_demo :
  parse_flags (&"-D FOO -DNAME=" ++ [dquote; backslash; dquote] ++ &"Demo"
               ++ [backslash; dquote; dquote] ++ &" -Os")
  = [&"-DFOO"; &"-DNAME=" ++ [dquote] ++ &"Demo" ++ [dquote]; &"-Os"].
Proof. vm_compute. reflexivity. Qed.
Example strip_demo : strip_inline_comment &"a#b ; c" = &"a#b".
Proof. vm_compute. reflexivity. Qed.

(** ** Lemmas *)

Lemma comment_from_spec i a s j :
  comment_from i a s = Some j →
  i ≤ j ∧ comment_from i a (take (j - i) s) = None ∧ j - i < length s.
Proof.
  revert i a. induction s as [|b s IH]; simpl; intros i a; [done|].
  destruct (bool_decide (a = sp) && _) eqn:E.
  - intros [= ->]. rewrite Nat.sub_diag. simpl. auto with lia.
  - intros H. pose proof H as (Hle & Hn & Hlt)%IH.
    replace (j - i) with (S (j - S i)) by lia. simpl. rewrite E. auto with lia.
Qed.

Lemma comment_from_shift i j a s : comment_from i a s = None → comment_from j a s = None.
Proof.
  revert i j a. induction s as [|b s IH]; simpl; intros i j a; [done|].
  destruct (bool_decide (a = sp) && _); [done|]. apply IH.
Qed.

(** No comment can start inside [s]. *)
Definition comment_free (s : str) : Prop :=
  match s with [] => True | a :: s' => comment_from 1 a s' = None end.

Lemma comment_free_tail a s : comment_free (a :: s) → comment_free s.
Proof.
  destruct s as [|b s]; simpl; [done|].
  destruct (bool_decide (a = sp) && _); [done|]. apply comment_from_shift.
Qed.

Lemma comment_free_app s t : comment_free (s ++ t) → comment_free s ∧ comment_free t.
Proof.
  induction s as [|a s IH]; [by split|].
  intros H. pose proof H as Ht%comment_free_tail%IH. split; [|tauto].
  simpl in *. revert H. clear. generalize 1. revert a.
  induction s as [|b s IH]; simpl; intros a i; [done|].
  destruct (bool_decide (a = sp) && _); [done|]. apply IH.
Qed.

Lemma comment_free_trim s : comment_free s → comment_free (trim s).
Proof.
  intros H. destruct (trim_start_suffix s) as [t Ht]. rewrite Ht in H.
  apply comment_free_app in H as [_ H]. unfold trim.
  destruct (trim_end_prefix (trim_start s)) as [u Hu]. rewrite Hu in H.
  by apply comment_free_app in H as [? _].
Qed.

Lemma strip_inline_comment_free s : comment_free (strip_inline_comment s).
Proof.
  destruct s as [|a s]; [done|]. simpl.
  destruct (comment_from 1 a s) as [j|] eqn:E; apply comment_free_trim; [|done].
  apply comment_from_spec in E as (? & Hn & ?). destruct j as [|j]; [lia|].
  simpl. by replace (S j - 1) with j in Hn by lia.
Qed.

Lemma strip_inline_comment_id s : comment_free s → strip_inline_comment s = trim s.
Proof. destruct s; simpl; [done|]. by intros ->. Qed.

Lemma strip_inline_comment_trimmed s : trim (strip_inline_comment s) = strip_inline_comment s.
Proof.
  destruct s as [|a s]; [done|]. simpl.
  destruct (comment_from 1 a s); apply trim_idemp.
Qed.

(** [f] as one double-quoted shell word, inner double quotes escaped. *)
Definition quote (f : str) : str :=
  dquote :: mbind (λ c, if decide (c = dquote) then [backslash; dquote] else [c]) f ++ [dquote].

#[local] Arguments quote : simpl never.

Lemma flag_chars_quoted f cur rest :
  backslash ∉ f →
  flag_chars (mbind (λ c, if decide (c = dquote) then [backslash; dquote] else [c]) f
              ++ dquote :: rest) cur true dquote
  = flag_chars rest (cur ++ f) false dquote.
Proof.
  revert cur. induction f as [|c f IH]; intros cur Hf.
  - simpl. rewrite app_nil_r. by destruct rest.
  - apply not_elem_of_cons in Hf as [Hc Hf]. rewrite bind_cons, <- app_assoc.
    destruct (decide (c = dquote)) as [->|Hq].
    + simpl. rewrite IH by done. by rewrite <- app_assoc.
    + replace (cur ++ c :: f) with ((cur ++ [c]) ++ f) by by rewrite <- app_assoc.
      rewrite <- IH by done. cbn [app flag_chars].
      rewrite (bool_decide_eq_false_2 (c = backslash)) by done.
      rewrite (bool_decide_eq_false_2 (c = dquote)) by done.
      rewrite andb_false_r. simpl. rewrite andb_false_r. by case_match.
Qed.

Lemma flag_chars_open l cur q : flag_chars (dquote :: l) cur false q = flag_chars l cur true dquote.
Proof. by destruct l. Qed.

Lemma flag_chars_quote f cur rest q :
  backslash ∉ f →
  flag_chars (quote f ++ rest) cur false q = flag_chars rest (cur ++ f) false dquote.
Proof.
  intros Hf. unfold quote. rewrite <- app_comm_cons, <- app_assoc.
  rewrite flag_chars_open. by apply flag_chars_quoted.
Qed.

Lemma flag_chars_join fs q :
  Forall (λ f, f ≠ [] ∧ backslash ∉ f) fs →
  flag_chars (join [sp] (quote <$> fs)) [] false q = fs.
Proof.
  intros Hfs. revert q. induction Hfs as [|f fs [Hne Hf] Hfs IH]; intros q; [done|].
  rewrite fmap_cons. destruct fs as [|g fs].
  - cbn. rewrite <- (app_nil_r (quote f)), flag_chars_quote by done.
    simpl. by destruct f.
  - change (join [sp] (quote f :: (quote <$> g :: fs)))
      with (quote f ++ sp :: join [sp] (quote <$> g :: fs)).
    rewrite flag_chars_quote by done.
    replace (flag_chars (sp :: join [sp] (quote <$> g :: fs)) ([] ++ f) false dquote)
      with (push_nonempty ([] ++ f) (flag_chars (join [sp] (quote <$> g :: fs)) [] false dquote))
      by (simpl; by case_match).
    rewrite IH. by destruct f.
Qed.

Lemma quote_last f : ∃ w, quote f = w ++ [dquote].
Proof. unfold quote. by eexists (_ :: _). Qed.

Lemma join_quotes_shape f fs : ∃ w, join [sp] (quote <$> f :: fs) = dquote :: w ++ [dquote].
Proof.
  revert f. induction fs as [|g fs IH]; intros f.
  - by eexists.
  - destruct (IH g) as [w Hw].
    change (join [sp] (quote <$> f :: g :: fs))
      with (quote f ++ sp :: join [sp] (quote <$> g :: fs)).
    rewrite Hw. unfold quote. eexists. cbn [app]. f_equal.
    rewrite !app_comm_cons, !app_assoc. reflexivity.
Qed.

Lemma quote_no_nl f : nl ∉ f → nl ∉ quote f.
Proof.
  intros Hf. unfold quote. rewrite not_elem_of_cons, not_elem_of_app. split; [done|].
  split; [|by set_solver]. rewrite list_elem_of_bind. intros (c & Hc & ?).
  case_decide; set_solver.
Qed.

Lemma normalize_defines_id l : &"-D" ∉ l → normalize_defines l = l.
Proof.
  induction l as [|a l IH]; [done|]. intros [Ha Hl]%not_elem_of_cons.
  simpl. destruct l as [|b l]; [done|].
  rewrite bool_decide_eq_false_2 by done. by rewrite IH.
Qed.

Lemma normalize_defines_last l :
  Forall (λ f, f ≠ []) l →
  Forall (λ f, f ≠ []) (normalize_defines l) ∧
  ∀ i, normalize_defines l !! i = Some (&"-D") → S i = length (normalize_defines l).
Proof.
  induction l as [|a|a b l IH1 IH2] using list_ind2; intros Hl.
  - by split.
  - split; [done|]. by intros [|i].
  - apply Forall_cons in Hl as [Ha Hbl]. pose proof Hbl as [Hb Hl]%Forall_cons.
    cbn [normalize_defines]. case_bool_decide as Hd.
    + destruct (IH1 Hl) as [H1 H2]. split; [by constructor|].
      intros [|i]; simpl; [|by intros ->%H2]. destruct b; naive_solver.
    + destruct (IH2 Hbl) as [H1 H2]. split; [by constructor|].
      intros [|i]; cbn [lookup length]; [naive_solver | by intros ->%H2].
Qed.

Lemma push_nonempty_Forall cur l :
  Forall (λ f : str, f ≠ []) l → Forall (λ f, f ≠ []) (push_nonempty cur l).
Proof. destruct cur; [done|]. by constructor. Qed.

Lemma flag_chars_nonempty cs cur b q : Forall (λ f, f ≠ []) (flag_chars cs cur b q).
Proof.
  revert cur b q. induction cs as [|c|c p cs IH1 IH2] using list_ind2; intros cur b q.
  - by apply push_nonempty_Forall.
  - cbn. repeat case_match; repeat apply push_nonempty_Forall; by try constructor.
  - remember (p :: cs) as t eqn:Ht. cbn [flag_chars].
    destruct t as [|p' cs']; [done|]. simplify_eq. cbv zeta.
    repeat (case_match; try apply IH1; try apply IH2; try apply push_nonempty_Forall, IH2).
Qed.

Lemma parse_flags_nonempty s : Forall (λ f, f ≠ []) (l ← lines s; flag_line l).
Proof.
  apply Forall_bind, Forall_true. intros l. unfold flag_line.
  unfold compose. case_match; [constructor|]. apply flag_chars_nonempty.
Qed.

(** The items of the multi-value lists. *)
Definition list_item (w : str) : Prop := trim w = w ∧ w ≠ [] ∧ ","%char ∉ w ∧ nl ∉ w.

Lemma parse_list_values_items s : Forall list_item (parse_list_values s).
Proof.
  apply Forall_bind, Forall_forall. intros l Hl. apply Forall_forall. intros w.
  unfold keep_nonempty. rewrite list_elem_of_filter, list_elem_of_fmap.
  intros (Hne & v & -> & Hv). split; [apply trim_idemp|]. split; [done|].
  split; intros Hc%trim_elem.
  - apply split_by_pieces in Hv. rewrite Forall_forall in Hv.
    apply Hv, bool_decide_eq_false in Hc. done.
  - apply lines_no_nl in Hl. apply Hl. revert Hv Hc. clear. unfold split_on.
    revert v. induction l as [|a l IH]; simpl; intros v.
    + intros ->%list_elem_of_singleton. done.
    + case_bool_decide.
      * intros [->|?]%elem_of_cons; [by intros ?%elem_of_nil|]. right. eauto.
      * case_match; intros [->|?]%elem_of_cons; set_solver.
Qed.

Lemma keep_nonempty_id l : Forall (λ w, w ≠ []) l → keep_nonempty l = l.
Proof.
  unfold keep_nonempty. induction 1 as [|w l Hw Hl IH]; [done|].
  by rewrite filter_cons_True, IH.
Qed.

Lemma parse_list_values_join l : Forall list_item l → parse_list_values (join (&",") l) = l.
Proof.
  intros Hl. destruct l as [|w l]; [done|]. unfold parse_list_values.
  assert (Forall (λ v, trim v = v) (w :: l)) as Ht by (eapply Forall_impl; [exact Hl|]; by intros ? []).
  rewrite lines_bind_clean.
  - change (&",") with [","%char]. rewrite split_join; [|done|].
    + replace (trim <$> w :: l) with (w :: l).
      * apply keep_nonempty_id. eapply Forall_impl; [exact Hl|]. by intros ? (?&?&?).
      * symmetry. rewrite <- (list_fmap_id (w :: l)) at 2. by apply Forall_fmap_ext_1.
    + eapply Forall_impl; [exact Hl|]. by intros ? (?&?&?&?).
  - inversion Hl as [|?? (?&?&?)]; subst. destruct l; simpl; [done|].
    by destruct w.
  - intros [Hc|(v & Hv & Hc)]%join_elem; [set_solver|].
    rewrite Forall_forall in Hl. by apply Hl in Hv as (?&?&?&?).
Qed.

(** ** Properties *)

(** Flags survive the shell-quoting layer: the flags written one by one
    as double-quoted words, inner double quotes escaped with a backslash, are
    exactly what [parse_flags] reads back, for flags without backslash and
    newline that are not the bare [-D]. *)
Theorem parse_flags_quote_roundtrip fs :
  Forall (λ f, f ≠ [] ∧ backslash ∉ f ∧ nl ∉ f ∧ f ≠ &"-D") fs →
  parse_flags (join [sp] (quote <$> fs)) = fs.
Proof.
  intros Hfs. unfold parse_flags. destruct fs as [|f fs]; [done|].
  destruct (join_quotes_shape f fs) as [w Hw].
  assert (nl ∉ join [sp] (quote <$> f :: fs)) as Hnl.
  { intros [Hc|(v & (g & -> & Hg)%list_elem_of_fmap & Hc)]%join_elem; [set_solver|].
    rewrite Forall_forall in Hfs. apply Hfs in Hg as (?&?&?&?). by apply (quote_no_nl g). }
  rewrite lines_bind_clean by (done || by rewrite Hw). unfold flag_line. rewrite Hw, (trim_wrapped dquote dquote) by done. rewrite <- Hw.
  rewrite flag_chars_join.
  - apply normalize_defines_id. intros Hd.
    rewrite Forall_forall in Hfs. by apply Hfs in Hd as (?&?&?&?).
  - eapply Forall_impl; [done|]. naive_solver.
Qed.

Lemma parse_flags_quote_roundtrip_witness :
  parse_flags (join [sp] (quote <$> [&"-DA=1 2"; &"-I" ++ [dquote] ++ &"x"]))
  = [&"-DA=1 2"; &"-I" ++ [dquote] ++ &"x"].
Proof.
  apply (parse_flags_quote_roundtrip [&"-DA=1 2"; &"-I" ++ [dquote] ++ &"x"]).
  apply (bool_decide_unpack _). vm_compute. exact I.
Defined.

(** Whatever the input, every flag [parse_flags] returns is non-empty,
    and a bare [-D] is only ever the last one (every other [-D] has been
    joined with the flag after it). *)
Theorem parse_flags_shape s :
  Forall (λ f, f ≠ []) (parse_flags s) ∧
  ∀ i, parse_flags s !! i = Some (&"-D") → S i = length (parse_flags s).
Proof. apply normalize_defines_last, parse_flags_nonempty. Qed.

(** [parse_list_values] normalizes: joining what it returned with commas
    and parsing again changes nothing. *)
Theorem parse_list_values_idempotent s :
  parse_list_values (join (&",") (parse_list_values s)) = parse_list_values s.
Proof. apply parse_list_values_join, parse_list_values_items. Qed.

(** [strip_inline_comment] is idempotent: its result is trimmed and no
    comment can start inside it any more. *)
Theorem strip_inline_comment_idempotent s :
  strip_inline_comment (strip_inline_comment s) = strip_inline_comment s.
Proof.
  rewrite (strip_inline_comment_id (strip_inline_comment s)).
  - apply strip_inline_comment_trimmed.
  - apply strip_inline_comment_free.
Qed.
