(* ===== verification/IniParser.v ===== *)
(** * [fbuild-config/src/ini_parser/parser.rs], [parse_ini]

    The raw INI reader as a step function on the accumulator the source
    threads through its line loop, and its behaviour on rendered files. *)
From S2P Require Import Prelude RustStr IniValues.

Abbreviation section := (gmap str str).
Abbreviation sections := (gmap str (gmap str str)).

(** The loop's four [let mut] variables. *)
Record parse_state := ParseState {
  ps_sections : sections;
  ps_section : option str;
  ps_key : option str;
  ps_value : str;
}.

Definition parse_init : parse_state := ParseState ∅ None None [].

(** [sections.entry(section).or_default().insert(key, value)]. *)
Definition insert_kv (m : sections) (sec k v : str) : sections :=
  <[sec := <[k := v]> (default ∅ (m !! sec))]> m.

(** The sections after flushing the pending key, if both a section and a key
    are current. *)
Definition flushed (st : parse_state) : sections :=
  match ps_section st, ps_key st with
  | Some sec, Some k => insert_kv (ps_sections st) sec k (trim (ps_value st))
  | _, _ => ps_sections st
  end.

(** Flush and clear the pending key; nothing happens without a section. *)
Definition flush (st : parse_state) : parse_state :=
  match ps_section st, ps_key st with
  | Some sec, Some k => ParseState (flushed st) (Some sec) None []
  | _, _ => st
  end.

Definition is_comment (trimmed : str) : bool :=
  starts_with (&"#") trimmed || starts_with (&";") trimmed.

Definition is_header (trimmed : str) : bool :=
  starts_with (&"[") trimmed && ends_with (&"]") trimmed.

(** [trimmed[1..trimmed.len() - 1]]. *)
Definition header_name (trimmed : str) : str :=
  trim (take (length trimmed - 2) (drop 1 trimmed)).

(** One iteration of the line loop, branches in the source's order. *)
Definition parse_line (st : parse_state) (line : str) : parse_state :=
  let trimmed := trim line in
  if bool_decide (trimmed = []) || is_comment trimmed then
    if bool_decide (trimmed = []) then flush st else st
  else if is_header trimmed then
    let st' := flush st in
    ParseState (ps_sections st') (Some (header_name trimmed)) (ps_key st') (ps_value st')
  else if (starts_with (&" ") line || starts_with [tab] line) && bool_decide (is_Some (ps_key st)) then
    let val := strip_inline_comment trimmed in
    ParseState (ps_sections st) (ps_section st) (ps_key st)
      (ps_value st ++ (if bool_decide (ps_value st = []) then [] else [nl]) ++ val)
  else
    match find_char "=" trimmed with
    | Some eq_pos =>
        ParseState (flushed st) (ps_section st)
          (Some (trim (take eq_pos trimmed)))
          (strip_inline_comment (trim (drop (S eq_pos) trimmed)))
    | None => st
    end.

Definition parse_ini (content : str) : sections :=
  flushed (foldl parse_line parse_init (lines content)).

(** ** Rendering, the inverse direction *)

Definition render_pair (kv : str * str) : str := kv.1 ++ &"=" ++ kv.2.
Definition render_section (s : str * list (str * str)) : list str :=
  (&"[" ++ s.1 ++ &"]") :: (render_pair <$> s.2).
Definition render (l : list (str * list (str * str))) : str :=
  unlines (mbind render_section l).

(** What the file means: its pairs inserted from top to bottom. *)
Definition meaning (l : list (str * list (str * str))) (m : sections) : sections :=
  foldl (λ m s, foldl (λ m kv, insert_kv m s.1 kv.1 kv.2) m s.2) m l.

(** Text that sits on one line and has no white space at its ends. *)
Definition plain (w : str) : Prop := trim w = w ∧ nl ∉ w ∧ cr ∉ w.

Definition plain_key (k : str) : Prop :=
  plain k ∧ "="%char ∉ k ∧ head k ∉ [None; Some "#"%char; Some ";"%char; Some "["%char].
Definition plain_value (v : str) : Prop := plain v ∧ comment_free v.
Definition plain_section (s : str * list (str * str)) : Prop :=
  plain s.1 ∧ Forall (λ kv, plain_key kv.1 ∧ plain_value kv.2) s.2.

Example parse_ini_demo :
  parse_ini (&"[env]" ++ [nl] ++ &"a = 1 ; one" ++ [nl] ++ &" 2" ++ [nl; nl] ++ &"b=3") =
  {[ &"env" := {[ &"a" := &"1" ++ [nl] ++ &"2"; &"b" := &"3" ]} ]}.
Proof. vm_compute. reflexivity. Qed.

(** ** Lemmas *)

Lemma plain_nonempty_head k a : plain k → head k = Some a → is_ws1 a = false.
Proof.
  intros [Ht _] Hh. destruct k as [|b k]; [done|]. simplify_eq/=.
  apply trim_fix in Ht as [Ht _]. apply trim_start_fix_iff, starts_ws_iff in Ht.
  destruct (is_ws1 a) eqn:E; [|done]. by rewrite strip_one_ws1 in Ht.
Qed.

(** A line after which the pending key has a section. *)
Definition sectioned (st : parse_state) : Prop := is_Some (ps_section st).

Lemma flushed_flush st : ps_sections (flush st) = flushed st.
Proof. unfold flush, flushed. repeat case_match; done. Qed.

Lemma header_name_spec name : header_name (&"[" ++ name ++ &"]") = trim name.
Proof.
  unfold header_name. change (drop 1 (&"[" ++ name ++ &"]")) with (name ++ &"]").
  replace (length (&"[" ++ name ++ &"]") - 2) with (length name)
    by (rewrite !length_app; simpl; lia).
  by rewrite take_app_length.
Qed.

Lemma parse_header st name :
  plain name → sectioned st ∨ ps_key st = None →
  parse_line st (&"[" ++ name ++ &"]") = ParseState (flushed st) (Some name) None
    (ps_value (flush st)).
Proof.
  intros (Ht & _ & _) Hst. unfold parse_line.
  assert (trim (&"[" ++ name ++ &"]") = &"[" ++ name ++ &"]") as Hline.
  { apply trim_wrapped; [done|]. by rewrite reverse_cons. }
  rewrite Hline. cbv zeta. rewrite bool_decide_eq_false_2 by done. rewrite orb_false_l.
  assert (is_comment (&"[" ++ name ++ &"]") = false) as -> by done.
  assert (is_header (&"[" ++ name ++ &"]") = true) as ->.
  { unfold is_header. rewrite app_assoc. apply andb_true_intro. split; [done|].
    apply (ends_with_snoc (&"[" ++ name)). }
  rewrite flushed_flush. f_equal.
  - by rewrite header_name_spec, Ht.
  - unfold flush. destruct Hst as [[s ->]|Hk]; repeat case_match; done || congruence.
Qed.

Lemma parse_pair st k v :
  plain_key k → plain_value v →
  parse_line st (render_pair (k, v)) = ParseState (flushed st) (ps_section st) (Some k) v.
Proof.
  intros (Hk & Heq & Hh) [(Hv & _ & _) Hf]. unfold parse_line, render_pair. simpl fst. simpl snd.
  change (k ++ &"=" ++ v) with (k ++ "="%char :: v).
  rewrite trim_around; [|apply (bool_decide_unpack _); vm_compute; exact I|apply Hk|done].
  destruct k as [|a k]; [set_solver|]. simpl in Hh.
  assert (is_ws1 a = false) as Hws by by eapply plain_nonempty_head.
  cbv zeta. rewrite bool_decide_eq_false_2 by done. rewrite orb_false_l.
  assert (∀ c, c ∈ [&"#"; &";"; &"["; &" "; [tab]] → starts_with c (a :: k ++ "="%char :: v) = false)
    as Hsw.
  { intros c Hc. repeat (apply elem_of_cons in Hc as [->|Hc]; [|]); [..|by inversion Hc].
    all: apply starts_with_ne; intros <-; try done; set_solver. }
  unfold is_comment, is_header. rewrite <- app_comm_cons. rewrite !Hsw by set_solver.
  cbn [orb andb]. rewrite app_comm_cons, find_char_app, take_app_length by done.
  rewrite drop_past, Hv, (proj1 Hk).
  by rewrite strip_inline_comment_id, Hv by done.
Qed.

Lemma flushed_no_key ss sec v : flushed (ParseState ss sec None v) = ss.
Proof. by destruct sec. Qed.

Lemma parse_pairs kvs st sec :
  ps_section st = Some sec →
  Forall (λ kv, plain_key kv.1 ∧ plain_value kv.2) kvs →
  let st' := foldl parse_line st (render_pair <$> kvs) in
  ps_section st' = Some sec ∧
  flushed st' = foldl (λ m kv, insert_kv m sec kv.1 kv.2) (flushed st) kvs.
Proof.
  intros Hsec Hkvs. revert st Hsec.
  induction Hkvs as [|[k v] kvs [Hk Hv] Hkvs IH]; intros st Hsec; [done|].
  cbn [fmap list_fmap foldl]. rewrite parse_pair by done.
  destruct (IH (ParseState (flushed st) (ps_section st) (Some k) v)) as [-> ->]; [done|].
  split; [done|]. f_equal. unfold flushed at 1. simpl. rewrite Hsec.
  destruct Hv as [(Hv & _) _]. by rewrite <- Hv at 2.
Qed.

Lemma parse_section st s :
  plain_section s → sectioned st ∨ ps_key st = None →
  let st' := foldl parse_line st (render_section s) in
  sectioned st' ∧
  flushed st' = foldl (λ m kv, insert_kv m s.1 kv.1 kv.2) (flushed st) s.2.
Proof.
  intros [Hn Hkvs] Hst. unfold render_section. cbn [foldl]. rewrite parse_header by done.
  destruct (parse_pairs s.2 (ParseState (flushed st) (Some s.1) None (ps_value (flush st)))
    s.1 eq_refl Hkvs) as [Hs Hf].
  split; [by eexists|]. rewrite Hf. by rewrite flushed_no_key.
Qed.

Lemma parse_sections l st :
  Forall plain_section l → sectioned st ∨ ps_key st = None →
  flushed (foldl parse_line st (mbind render_section l)) = meaning l (flushed st).
Proof.
  intros Hl. revert st. induction Hl as [|s l Hs Hl IH]; intros st Hst; [done|].
  rewrite bind_cons, foldl_app. destruct (parse_section st s Hs Hst) as [H1 H2].
  rewrite IH by auto. unfold meaning at 2. cbn [foldl]. by rewrite H2.
Qed.

Lemma render_lines_plain l :
  Forall plain_section l → Forall (λ w, nl ∉ w ∧ cr ∉ w) (mbind render_section l).
Proof.
  intros Hl. apply Forall_bind. eapply Forall_impl; [exact Hl|].
  intros [n kvs] [(_ & Hn1 & Hn2) Hkvs]. simpl in *. constructor.
  - rewrite !not_elem_of_app. set_solver.
  - apply Forall_fmap. eapply Forall_impl; [exact Hkvs|].
    intros [k v] [((_ & ? & ?) & _) ((_ & ? & ?) & _)]. unfold render_pair. simpl in *.
    rewrite !not_elem_of_app. set_solver.
Qed.

(** ** Properties *)

(** C40: Reading back a rendered configuration gives its meaning: every pair
    is stored under its section, later pairs overriding earlier ones, for
    section names, keys and values that are trimmed one-line text, keys
    without an equals sign that do not look like a comment or a header, and
    values in which no comment starts. *)
Theorem parse_ini_render l :
  Forall plain_section l → parse_ini (render l) = meaning l ∅.
Proof.
  intros Hl. unfold parse_ini, render.
  rewrite lines_unlines by by apply render_lines_plain.
  rewrite parse_sections by auto. done.
Qed.

Definition sample : list (str * list (str * str)) :=
  [ (&"env", [(&"framework", &"arduino")]);
    (&"env:uno", [(&"board", &"uno"); (&"build_flags", &"-DA=1;2 -Os")]) ].

Lemma parse_ini_render_witness :
  Forall plain_section sample ∧ parse_ini (render sample) = meaning sample ∅.
Proof.
  assert (Forall plain_section sample) as H.
  { repeat constructor; cbv; repeat split; set_solver. }
  split; [exact H | exact (parse_ini_render sample H)].
Defined.
