(* ===== verification/IniResolve.v ===== *)
(** * [fbuild-config/src/ini_parser/parser.rs]: inheritance

    [resolve_env] and [resolve_section] follow [extends] with a visited set.
    They are bounded by fuel, and the theorems show how much is enough and
    what the result means. *)
From S2P Require Import Prelude RustStr IniParser.

Inductive config_error :=
  | CircularEnv (env_name : str)
  | EnvNotInConfig (env_name : str)
  | CircularSection (section_name : str)
  | EnvNotFound (env_name : str)
  | ReadFailed (path : str).

Abbreviation CM := (FM (gset str) config_error).

Definition env_key (name : str) : str := &"env:" ++ name.
Definition section_mark (name : str) : str := &"section:" ++ name.

(** [strip_prefix("env:").unwrap_or(parent_ref)]. *)
Definition bare_name (parent_ref : str) : str :=
  default parent_ref (strip_prefix (&"env:") parent_ref).

(** A section's own pairs, [extends] left out. *)
Definition own_pairs (s : section) : section := delete (&"extends") s.

(** The pieces of an [extends] value. *)
Definition parent_refs (extends : str) : list str := trim <$> split_on "," extends.

(** [for parent_ref in extends.split(',')]: [parent] resolves one reference,
    [None] when it names nothing; inserting the parent's pairs one by one
    overrides those already there. *)
Fixpoint merge_parents (parent : str → CM (option section)) (refs : list str)
    (config : section) : CM section :=
  match refs with
  | [] => mret config
  | r :: refs' =>
      p ← parent r;
      merge_parents parent refs' (match p with Some c => c ∪ config | None => config end)
  end.

Definition follow_extends (parent : str → CM (option section)) (s config : section) : CM section :=
  match s !! (&"extends") with
  | Some extends => merge_parents parent (parent_refs extends) config
  | None => mret config
  end.

Section Resolve.
Context (ss : sections).

Fixpoint resolve_env (fuel : nat) (env_name : str) : CM section :=
  match fuel with
  | O => out_of_fuel
  | S n =>
      fresh ← visit env_name;
      if negb fresh then throw (CircularEnv env_name) else
      match ss !! env_key env_name with
      | None => throw (EnvNotInConfig env_name)
      | Some s =>
          config ← follow_extends
            (λ parent_ref,
               let parent_name := bare_name parent_ref in
               if decide (is_Some (ss !! env_key parent_name)) then
                 Some <$> resolve_env n parent_name
               else if decide (is_Some (ss !! parent_name)) then
                 Some <$> resolve_section n parent_name
               else mret None)
            s (default ∅ (ss !! (&"env")));
          mret (own_pairs s ∪ config)
      end
  end
with resolve_section (fuel : nat) (section_name : str) : CM section :=
  match fuel with
  | O => out_of_fuel
  | S n =>
      fresh ← visit (section_mark section_name);
      if negb fresh then throw (CircularSection section_name) else
      let s := default ∅ (ss !! section_name) in
      config ← follow_extends
        (λ parent_ref,
           if decide (is_Some (ss !! env_key parent_ref)) then
             Some <$> resolve_env n parent_ref
           else if decide (is_Some (ss !! parent_ref)) then
             Some <$> resolve_section n parent_ref
           else mret None)
        s ∅;
      mret (own_pairs s ∪ config)
  end.
End Resolve.

(** ** What inheritance means

    Nodes of the [extends] graph, the node a reference denotes, and the
    configuration a node stands for, defined without visited sets or fuel. *)
Inductive node := NEnv (env_name : str) | NSection (section_name : str).

#[global] Instance node_eq_dec : EqDecision node.
Proof. solve_decision. Defined.

Section Meaning.
Context (ss : sections).

Definition section_parent (r : str) : option node :=
  if decide (is_Some (ss !! env_key r)) then Some (NEnv r)
  else if decide (is_Some (ss !! r)) then Some (NSection r) else None.

Definition env_parent (r : str) : option node :=
  let n := bare_name r in
  if decide (is_Some (ss !! env_key n)) then Some (NEnv n)
  else if decide (is_Some (ss !! n)) then Some (NSection n) else None.

Definition refs_of (s : section) : list str :=
  match s !! (&"extends") with Some e => parent_refs e | None => [] end.

(** [inherits n c]: node [n] stands for [c].  [merged f rs c d]: merging the
    parents [rs] into [c], later ones overriding, gives [d]. *)
Inductive inherits : node → section → Prop :=
  | inherits_env n s c :
      ss !! env_key n = Some s →
      merged env_parent (refs_of s) (default ∅ (ss !! (&"env"))) c →
      inherits (NEnv n) (own_pairs s ∪ c)
  | inherits_section n c :
      merged section_parent (refs_of (default ∅ (ss !! n))) ∅ c →
      inherits (NSection n) (own_pairs (default ∅ (ss !! n)) ∪ c)
with merged : (str → option node) → list str → section → section → Prop :=
  | merged_nil f c : merged f [] c c
  | merged_skip f r rs c d : f r = None → merged f rs c d → merged f (r :: rs) c d
  | merged_parent f r rs n p c d :
      f r = Some n → inherits n p → merged f rs (p ∪ c) d → merged f (r :: rs) c d.

Scheme inherits_mind := Induction for inherits Sort Prop
  with merged_mind := Induction for merged Sort Prop.
Combined Scheme inherits_merged_ind from inherits_mind, merged_mind.

(** One [extends] edge. *)
Definition extends_step (a b : node) : Prop :=
  match a with
  | NEnv n => ∃ s r, ss !! env_key n = Some s ∧ r ∈ refs_of s ∧ env_parent r = Some b
  | NSection n => ∃ r, r ∈ refs_of (default ∅ (ss !! n)) ∧ section_parent r = Some b
  end.

#[global] Instance extends_step_dec a b : Decision (extends_step a b).
Proof.
  refine (match a with
          | NEnv n =>
              match ss !! env_key n as o return ss !! env_key n = o → _ with
              | Some s => λ Hs, cast_if (decide (Exists (λ r, env_parent r = Some b) (refs_of s)))
              | None => λ Hs, right _
              end eq_refl
          | NSection n =>
              cast_if (decide (Exists (λ r, section_parent r = Some b)
                                 (refs_of (default ∅ (ss !! n)))))
          end); simpl; abstract (rewrite ?Exists_exists in *; naive_solver).
Defined.

(** The node a computation resolves. *)
Definition resolve_node (fuel : nat) (a : node) : CM section :=
  match a with NEnv n => resolve_env ss fuel n | NSection n => resolve_section ss fuel n end.
End Meaning.

(** ** Lemmas *)

Section Lemmas.
Context (ss : sections).

Definition resolve_parent (fuel : nat) (o : option node) : CM (option section) :=
  match o with Some b => Some <$> resolve_node ss fuel b | None => mret None end.

Lemma env_parent_resolve n r :
  (let parent_name := bare_name r in
   if decide (is_Some (ss !! env_key parent_name)) then Some <$> resolve_env ss n parent_name
   else if decide (is_Some (ss !! parent_name)) then Some <$> resolve_section ss n parent_name
   else mret None) = resolve_parent n (env_parent ss r).
Proof. unfold env_parent. cbv zeta. by repeat case_decide. Qed.

Lemma section_parent_resolve n r :
  (if decide (is_Some (ss !! env_key r)) then Some <$> resolve_env ss n r
   else if decide (is_Some (ss !! r)) then Some <$> resolve_section ss n r
   else mret None) = resolve_parent n (section_parent ss r).
Proof. unfold section_parent. by repeat case_decide. Qed.

Lemma inherits_acc :
  (∀ n c, inherits ss n c → Acc (flip (extends_step ss)) n) ∧
  (∀ f rs c d, merged ss f rs c d → ∀ r b, r ∈ rs → f r = Some b → Acc (flip (extends_step ss)) b).
Proof.
  apply inherits_merged_ind.
  - intros n s c Hs _ IH. constructor. intros b (s' & r & Hs' & Hr & Hb).
    simplify_eq. eauto.
  - intros n c _ IH. constructor. intros b (r & Hr & Hb). eauto.
  - intros f c r b Hr%not_elem_of_nil. done.
  - intros f r rs c d Hf _ IH r' b [->|Hr]%elem_of_cons; [congruence | eauto].
  - intros f r rs n p c d Hf _ IHn _ IH r' b [->|Hr]%elem_of_cons; [rewrite Hf; by intros [= <-] | eauto].
Qed.

Lemma inherits_det :
  (∀ n c, inherits ss n c → ∀ c', inherits ss n c' → c = c') ∧
  (∀ f rs c d, merged ss f rs c d → ∀ d', merged ss f rs c d' → d = d').
Proof.
  apply inherits_merged_ind.
  - intros n s c Hs _ IH c' Hc'. inversion Hc'; simplify_eq. f_equal. auto.
  - intros n c _ IH c' Hc'. inversion Hc'; simplify_eq. f_equal. auto.
  - intros f c d' Hd'. by inversion Hd'.
  - intros f r rs c d Hf _ IH d' Hd'. inversion Hd'; simplify_eq. auto.
  - intros f r rs n p c d Hf _ IHn _ IH d' Hd'. inversion Hd'; simplify_eq.
    match goal with H : inherits ss n _ |- _ => apply IHn in H as -> end. auto.
Qed.

Lemma acc_no_cycle n : Acc (flip (extends_step ss)) n → ¬ tc (extends_step ss) n n.
Proof.
  induction 1 as [n _ IH]. intros Hc. inversion Hc as [? ? Hs|? m ? Hs Ht]; subst.
  - by apply (IH n).
  - apply (IH m Hs). eapply tc_r; done.
Qed.

Lemma acc_rtc n m : rtc (extends_step ss) n m →
  Acc (flip (extends_step ss)) n → Acc (flip (extends_step ss)) m.
Proof. induction 1; [done|]. intros [Ha]. auto. Qed.

(** [merge_parents] over a parent function that is sound for [inherits]. *)
Lemma merge_parents_sound (parent : str → CM (option section)) f :
  (∀ r v p v', parent r v = Some (Ok p, v') →
     match f r with None => p = None | Some b => ∃ c, p = Some c ∧ inherits ss b c end) →
  ∀ rs c v d v', merge_parents parent rs c v = Some (Ok d, v') → merged ss f rs c d.
Proof.
  intros Hp rs. induction rs as [|r rs IH]; intros c v d v' H; simpl in H.
  - inversion H; subst. constructor.
  - rewrite FM_bind_unfold in H. destruct (parent r v) as [[[p|e] w]|] eqn:E; try done.
    apply Hp in E. apply IH in H. destruct (f r) eqn:Hf; [|subst; by constructor].
    destruct E as (c' & -> & ?). by econstructor.
Qed.

Lemma follow_extends_sound parent f s c v d v' :
  (∀ r v p v', parent r v = Some (Ok p, v') →
     match f r with None => p = None | Some b => ∃ c, p = Some c ∧ inherits ss b c end) →
  follow_extends parent s c v = Some (Ok d, v') → merged ss f (refs_of s) c d.
Proof.
  intros Hp. unfold follow_extends, refs_of. destruct (s !! _).
  - by apply merge_parents_sound.
  - intros [= <- <-]. constructor.
Qed.

Lemma fmap_Some_ok {A B} (f : A → B) (m : CM A) v r v' :
  (f <$> m) v = Some (Ok r, v') → ∃ a, m v = Some (Ok a, v') ∧ r = f a.
Proof.
  unfold fmap, FM_fmap. rewrite FM_bind_unfold.
  destruct (m v) as [[[a|e] w]|]; intros H; inversion H; eauto.
Qed.

Lemma resolve_parent_sound n o v p v' :
  (∀ a v c v', resolve_node ss n a v = Some (Ok c, v') → inherits ss a c) →
  resolve_parent n o v = Some (Ok p, v') →
  match o with None => p = None | Some b => ∃ c, p = Some c ∧ inherits ss b c end.
Proof.
  intros IH. destruct o as [b|]; simpl.
  - intros (c & Hc & ->)%fmap_Some_ok. eauto.
  - intros H. by injection H.
Qed.

Lemma resolve_sound fuel a v c v' :
  resolve_node ss fuel a v = Some (Ok c, v') → inherits ss a c.
Proof.
  revert a v c v'. induction fuel as [|n IH]; intros [m|m] v c v' H; try done; simpl in H.
  - rewrite FM_bind_unfold in H. unfold visit at 1 in H. case_bool_decide; [|done].
    simpl in H. destruct (ss !! env_key m) as [s|] eqn:Hs; [|done].
    rewrite FM_bind_unfold in H.
    destruct (follow_extends _ s _ _) as [[[d|e] w]|] eqn:E; [|done..].
    injection H as <- <-. econstructor; [done|].
    eapply follow_extends_sound; [|exact E]. intros r u p u'.
    cbv beta. rewrite env_parent_resolve. by apply resolve_parent_sound.
  - rewrite FM_bind_unfold in H. unfold visit at 1 in H. case_bool_decide; [|done].
    simpl in H. rewrite FM_bind_unfold in H.
    destruct (follow_extends _ _ _ _) as [[[d|e] w]|] eqn:E; [|done..].
    injection H as <- <-. constructor.
    eapply follow_extends_sound; [|exact E]. intros r u p u'.
    cbv beta. rewrite section_parent_resolve. by apply resolve_parent_sound.
Qed.
End Lemmas.

(** ** How much fuel is enough *)
Section Fuel.
Context (ss : sections).

(** Everything the visited set can grow by: the environments' bare names
    and the marks of the sections. *)
Definition universe : gset str :=
  list_to_set (omap (strip_prefix (&"env:")) (elements (dom ss))) ∪
  list_to_set (section_mark <$> elements (dom ss)).

Definition enough_fuel : nat := S (2 * size ss).

Lemma universe_env n : is_Some (ss !! env_key n) → n ∈ universe.
Proof.
  intros H. apply elem_of_union_l, elem_of_list_to_set, list_elem_of_omap.
  exists (env_key n). rewrite elem_of_elements, elem_of_dom. split; [done|].
  apply strip_prefix_app.
Qed.

Lemma universe_section n : is_Some (ss !! n) → section_mark n ∈ universe.
Proof.
  intros H. apply elem_of_union_r, elem_of_list_to_set, list_elem_of_fmap.
  exists n. by rewrite elem_of_elements, elem_of_dom.
Qed.

Lemma length_omap_le {A B} (f : A → option B) l : length (omap f l) ≤ length l.
Proof. induction l as [|x l IH]; csimpl; [lia|]. destruct (f x); simpl; lia. Qed.

Lemma size_list_to_set_le (l : list str) : size (list_to_set l : gset str) ≤ length l.
Proof.
  induction l as [|x l IH]; [by rewrite list_to_set_nil, size_empty|].
  rewrite list_to_set_cons, size_union_alt, size_singleton. simpl.
  pose proof (subseteq_size (list_to_set l ∖ {[x]}) (list_to_set l : gset str)
    ltac:(set_solver)). lia.
Qed.

Lemma size_universe : size universe ≤ 2 * size ss.
Proof.
  unfold universe. rewrite size_union_alt.
  set (l1 := omap (strip_prefix (&"env:")) (elements (dom ss))).
  set (l2 := section_mark <$> elements (dom ss)).
  pose proof (subseteq_size (list_to_set l2 ∖ list_to_set l1) (list_to_set l2 : gset str)
    ltac:(set_solver)) as H1.
  pose proof (size_list_to_set_le l1) as H2. pose proof (size_list_to_set_le l2) as H3.
  assert (length (elements (dom ss)) = size ss) as Hd by apply size_dom.
  assert (length l1 ≤ size ss) by (rewrite <- Hd; apply length_omap_le).
  assert (length l2 = size ss) by (unfold l2; by rewrite length_fmap).
  lia.
Qed.

(** What is left to visit. *)
Definition left_over (v : gset str) : nat := size (universe ∖ v).

Lemma left_over_visit x v w :
  x ∈ universe → x ∉ v → {[x]} ∪ v ⊆ w → left_over w < left_over v.
Proof. intros Hu Hv Hw. unfold left_over. apply subset_size. set_solver. Qed.

Lemma merge_parents_finishes parent rs c v :
  (∀ r w, v ⊆ w → finishes (parent r) w) → finishes (merge_parents parent rs c) v.
Proof.
  revert c v. induction rs as [|r rs IH]; intros c v H; simpl; [apply finishes_ret|].
  apply finishes_bind; [by apply H|]. intros p w Hw. apply IH.
  intros r' w' Hw'. apply H. by etrans.
Qed.

Lemma follow_extends_finishes parent s c v :
  (∀ r w, v ⊆ w → finishes (parent r) w) → finishes (follow_extends parent s c) v.
Proof.
  intros H. unfold follow_extends. case_match; [by apply merge_parents_finishes|].
  apply finishes_ret.
Qed.

(** The visit at the head of both functions. *)
Lemma visit_then {A : Type} (x : str) (e : config_error) (k : CM A) (v : gset str) :
  (x ∉ v → finishes k ({[x]} ∪ v)) →
  finishes (fresh ← visit x; if negb fresh then throw e else k) v.
Proof.
  intros Hk. unfold finishes. rewrite FM_bind_unfold. unfold visit. case_bool_decide; simpl.
  - destruct Hk as (r & s' & ? & ?); [done|]. exists r, s'. split; [done|]. set_solver.
  - exists (Err e), ({[x]} ∪ v). split; [done|]. set_solver.
Qed.

Lemma resolve_parent_finishes n o v :
  (∀ a, finishes (resolve_node ss n a) v) → finishes (resolve_parent ss n o) v.
Proof. intros H. destruct o; simpl; auto with fb. Qed.

Lemma resolve_finishes fuel a v :
  left_over v < fuel → finishes (resolve_node ss fuel a) v.
Proof.
  revert a v. induction fuel as [|n IH]; intros [m|m] v Hv; [lia..| |]; simpl.
  - apply visit_then. intros Hm. destruct (ss !! env_key m) as [s|] eqn:Hs;
      [|apply finishes_throw].
    apply finishes_bind; [|intros; apply finishes_ret].
    apply follow_extends_finishes. intros r u Hu. cbv beta. rewrite env_parent_resolve.
    apply resolve_parent_finishes. intros a. apply IH.
    assert (left_over u < left_over v); [|lia].
    apply (left_over_visit m); [by apply universe_env | done | done].
  - apply visit_then. intros Hm. apply finishes_bind; [|intros; apply finishes_ret].
    destruct (ss !! m) as [s|] eqn:Hs; simpl; [|apply finishes_ret].
    apply follow_extends_finishes. intros r u Hu. cbv beta. rewrite section_parent_resolve.
    apply resolve_parent_finishes. intros a. apply IH.
    assert (left_over u < left_over v); [|lia].
    apply (left_over_visit (section_mark m)); [by apply universe_section | done | done].
Qed.

Lemma resolve_enough a v : finishes (resolve_node ss enough_fuel a) v.
Proof.
  apply resolve_finishes. unfold enough_fuel, left_over.
  pose proof (subseteq_size (universe ∖ v) universe ltac:(set_solver)).
  pose proof size_universe. lia.
Qed.
End Fuel.

(** ** Properties of inheritance *)

(** C33: Resolving an environment always ends, and its answer is the meaning
    of the [extends] graph: with fuel one more than twice the number of
    sections, [resolve_env] either returns a configuration the environment
    stands for or one of the errors; it never runs out of fuel. *)
Theorem resolve_env_total (ss : sections) (env_name : str) (visited : gset str) :
  ∃ r visited', resolve_env ss (enough_fuel ss) env_name visited = Some (r, visited') ∧
    match r with Ok c => inherits ss (NEnv env_name) c | Err _ => True end.
Proof.
  destruct (resolve_enough ss (NEnv env_name) visited) as (r & v' & Hr & _).
  exists r, v'. split; [exact Hr|]. destruct r; [|done].
  by apply (resolve_sound ss (enough_fuel ss) (NEnv env_name) visited _ v').
Qed.

(** C39: a cycle of [extends] references that an environment can reach is
    always reported: resolution then ends in an error. *)
Theorem resolve_env_cycle (ss : sections) (env_name : str) (m : node) :
  rtc (extends_step ss) (NEnv env_name) m → tc (extends_step ss) m m →
  ∃ e visited', resolve_env ss (enough_fuel ss) env_name ∅ = Some (Err e, visited').
Proof.
  intros Hr Hc. destruct (resolve_enough ss (NEnv env_name) ∅) as (r & v' & Hv & _).
  destruct r as [c|e]; [exfalso|by exists e, v'].
  apply resolve_sound in Hv. apply (inherits_acc ss) in Hv.
  eapply acc_no_cycle; [|exact Hc]. by eapply acc_rtc.
Qed.

Definition cyclic_sections : sections :=
  {[ &"env:a" := {[ &"extends" := &"env:b" ]}; &"env:b" := {[ &"extends" := &"a" ]} ]}.

Lemma resolve_env_cycle_witness :
  ∃ e visited', resolve_env cyclic_sections (enough_fuel cyclic_sections) (&"a") ∅
    = Some (Err e, visited').
Proof.
  apply (resolve_env_cycle cyclic_sections (&"a") (NEnv (&"a"))); [apply rtc_refl|].
  apply tc_l with (NEnv (&"b")); [|apply tc_once];
    apply (bool_decide_unpack _); vm_compute; exact I.
Defined.

(** ** The meaning, executable

    [node_config] computes what [inherits] relates, again without a visited
    set: fuel bounds the depth of the [extends] graph. *)
Section Config.
Context (ss : sections).

Fixpoint merge_refs (get : node → option section) (f : str → option node)
    (rs : list str) (c : section) : option section :=
  match rs with
  | [] => Some c
  | r :: rs' =>
      match f r with
      | None => merge_refs get f rs' c
      | Some b => p ← get b; merge_refs get f rs' (p ∪ c)
      end
  end.

Fixpoint node_config (fuel : nat) (a : node) : option section :=
  match fuel with
  | O => None
  | S n =>
      match a with
      | NEnv m =>
          s ← ss !! env_key m;
          c ← merge_refs (node_config n) (env_parent ss) (refs_of s) (default ∅ (ss !! (&"env")));
          Some (own_pairs s ∪ c)
      | NSection m =>
          let s := default ∅ (ss !! m) in
          c ← merge_refs (node_config n) (section_parent ss) (refs_of s) ∅;
          Some (own_pairs s ∪ c)
      end
  end.

Lemma merge_refs_sound get f rs c d :
  (∀ b p, get b = Some p → inherits ss b p) →
  merge_refs get f rs c = Some d → merged ss f rs c d.
Proof.
  intros Hg. revert c. induction rs as [|r rs IH]; intros c H; simpl in H.
  - simplify_eq. constructor.
  - destruct (f r) as [b|] eqn:Hf; [|apply merged_skip; auto].
    apply bind_Some in H as (p & ? & ?). eapply merged_parent; eauto.
Qed.

Lemma node_config_sound fuel a c : node_config fuel a = Some c → inherits ss a c.
Proof.
  revert a c. induction fuel as [|n IH]; intros [m|m] c H; [done..| |]; cbn in H.
  - apply bind_Some in H as (s & Hs & (d & Hd & [= <-])%bind_Some).
    econstructor; [done|]. by eapply merge_refs_sound.
  - apply bind_Some in H as (d & Hd & [= <-]). constructor. by eapply merge_refs_sound.
Qed.
End Config.

(** Two parents that share an ancestor are not a cycle, and the graph has a
    meaning, yet the visited set is shared between siblings and the second
    path to the ancestor is reported as circular. *)
Definition diamond_sections : sections :=
  {[ &"env:a" := {[ &"extends" := &"l, r" ]};
     &"l" := {[ &"extends" := &"common" ]};
     &"r" := {[ &"extends" := &"common" ]};
     &"common" := {[ &"platform" := &"avr" ]} ]}.

Theorem diamond_rejected :
  ¬ tc (extends_step diamond_sections) (NEnv (&"a")) (NEnv (&"a")) ∧
  inherits diamond_sections (NEnv (&"a")) {[ &"platform" := &"avr" ]} ∧
  fst <$> resolve_env diamond_sections (enough_fuel diamond_sections) (&"a") ∅
    = Some (Err (CircularSection (&"common"))).
Proof.
  assert (inherits diamond_sections (NEnv (&"a")) {[ &"platform" := &"avr" ]}) as Ha.
  { apply node_config_sound with (fuel := 3). apply (bool_decide_unpack _). vm_compute. exact I. }
  split; [|split; [exact Ha|]].
  - exact (acc_no_cycle _ _ (proj1 (inherits_acc _) _ _ Ha)).
  - vm_compute. reflexivity.
Qed.
