(* ===== verification/IniVars.v ===== *)
(** * [fbuild-config/src/ini_parser/variables.rs] and [substitute_vars]

    References of the form [${section.key}]: lookup along [extends] chains,
    replacement in a value, and the resolved environments. *)
From S2P Require Import Prelude RustStr IniParser IniResolve.

(** ** Looking a key up along [extends] *)

Abbreviation VM := (FM (gset str) Empty_set).

(** [for parent_ref in ..] with its early return. *)
Fixpoint first_found (look : str → VM (option str)) (names : list str) : VM (option str) :=
  match names with
  | [] => mret None
  | n :: ns => o ← look n; match o with Some v => mret (Some v) | None => first_found look ns end
  end.

Section Lookup.
Context (ss : sections).

Definition parent_section_name (parent_ref : str) : str :=
  if starts_with (&"env:") parent_ref || bool_decide (is_Some (ss !! parent_ref))
  then parent_ref
  else if decide (is_Some (ss !! env_key parent_ref)) then env_key parent_ref
  else parent_ref.

Fixpoint resolve_section_key (fuel : nat) (section_name key : str) : VM (option str) :=
  match fuel with
  | O => out_of_fuel
  | S n =>
      fresh ← visit section_name;
      if negb fresh then mret None else
      match ss !! section_name with
      | None => mret None
      | Some s =>
          match s !! key with
          | Some v => mret (Some v)
          | None =>
              match s !! (&"extends") with
              | None => mret None
              | Some extends =>
                  first_found (λ parent_name, resolve_section_key n parent_name key)
                    (parent_section_name <$> parent_refs extends)
              end
          end
      end
  end.

Definition key_fuel : nat := S (size ss).

(** [resolve_section_key(.., &mut HashSet::new())]. *)
Definition section_key (section_name key : str) : option str :=
  match resolve_section_key key_fuel section_name key ∅ with
  | Some (Ok o, _) => o
  | _ => None
  end.

Definition resolve_variable (current_config : section) (reference : str) : str :=
  let fallback :=
    match current_config !! reference with
    | Some v => v
    | None => &"${" ++ reference ++ &"}"
    end in
  match find_char "." reference with
  | Some dot_pos =>
      let section_ref := take dot_pos reference in
      let key := drop (S dot_pos) reference in
      let section_name :=
        if starts_with (&"env:") section_ref then section_ref
        else if decide (is_Some (ss !! env_key section_ref)) then env_key section_ref
        else section_ref in
      match section_key section_name key with Some v => v | None => fallback end
  | None => fallback
  end.
End Lookup.

(** ** The reference pattern

    The source finds references with the regex crate and the pattern
    [\$\{([^}]+)\}].  [var_find s] is the leftmost match: the text before
    it, the capture, the text after it. *)
Definition reference_at (s pre ref post : str) : Prop :=
  s = pre ++ &"${" ++ ref ++ &"}" ++ post ∧ ref ≠ [] ∧ "}"%char ∉ ref.

Class VarRegex := var_find : str → option (str * str * str).

Class VarRegexOk (H : VarRegex) := {
  var_find_Some s pre ref post :
    var_find s = Some (pre, ref, post) →
    reference_at s pre ref post ∧
    ∀ pre' ref' post', reference_at s pre' ref' post' → length pre ≤ length pre';
  var_find_None s : var_find s = None → ∀ pre ref post, ¬ reference_at s pre ref post;
}.

Section Substitute.
Context {HR : VarRegex} (ss : sections).

(** [re.replace_all(&current, ..)]. *)
Fixpoint replace_all (fuel : nat) (f : str → str) (s : str) : str :=
  match fuel with
  | O => s
  | S n =>
      match var_find s with
      | None => s
      | Some (pre, ref, post) => pre ++ f ref ++ replace_all n f post
      end
  end.

Definition replace_refs (f : str → str) (s : str) : str := replace_all (S (length s)) f s.

Definition max_depth : nat := 10.

(** [for _ in 0..max_depth], stopping at a fixed point. *)
Fixpoint substitute_value (depth : nat) (config : section) (current : str) : str :=
  match depth with
  | O => current
  | S d =>
      let next := replace_refs (resolve_variable ss config) current in
      if decide (next = current) then current else substitute_value d config next
  end.

Definition substitute_vars (config : section) : section :=
  substitute_value max_depth config <$> config.
End Substitute.

(** ** All environments *)
Section AllEnvs.
Context {HR : VarRegex} {HI : HashIter}.

(** Names of the [env:*] sections in iteration order. *)
Definition env_names (ss : sections) : list str :=
  omap (strip_prefix (&"env:")) (hm_iter ss).*1.

Fixpoint resolve_envs (ss : sections) (names : list str) (resolved : gmap str section) :
    option (result config_error (gmap str section)) :=
  match names with
  | [] => Some (Ok resolved)
  | n :: ns =>
      match resolve_env ss (enough_fuel ss) n ∅ with
      | None => None
      | Some (Err e, _) => Some (Err e)
      | Some (Ok config, _) => resolve_envs ss ns (<[n := substitute_vars ss config]> resolved)
      end
  end.

Definition resolve_all_envs (ss : sections) : option (result config_error (gmap str section)) :=
  resolve_envs ss (env_names ss) ∅.
End AllEnvs.

(** ** A matcher for the pattern *)
Definition match_here (s : str) : option (str * str) :=
  r ← strip_prefix (&"${") s;
  i ← find_char "}" r;
  if decide (i = 0) then None else Some (take i r, drop (S i) r).

Fixpoint var_scan (s : str) : option (str * str * str) :=
  match match_here s with
  | Some (ref, post) => Some ([], ref, post)
  | None =>
      match s with
      | [] => None
      | a :: s' => '(pre, ref, post) ← var_scan s'; Some (a :: pre, ref, post)
      end
  end.

#[global] Instance var_scan_regex : VarRegex | 100 := var_scan.

Lemma match_here_Some s ref post :
  match_here s = Some (ref, post) ↔ reference_at s [] ref post.
Proof.
  unfold match_here, reference_at. split.
  - intros (r & ->%strip_prefix_Some & (i & Hi & H)%bind_Some)%bind_Some.
    case_decide; simplify_eq. apply find_char_Some in Hi as [Hr Hc]. simpl.
    split; [by rewrite Hr at 1|]. split; [|done].
    intros Ht. destruct i; [done|]. destruct r; simpl in *; [|done].
    by destruct i.
  - intros (-> & Hne & Hc). rewrite app_nil_l, strip_prefix_app.
    change (&"}" ++ post) with ("}"%char :: post). cbn [mbind option_bind].
    rewrite find_char_app by done. cbn [mbind option_bind].
    rewrite decide_False by by destruct ref.
    by rewrite take_app_length, drop_past.
Qed.

Lemma reference_at_cons a b s pre ref post :
  reference_at (a :: s) (b :: pre) ref post ↔ a = b ∧ reference_at s pre ref post.
Proof.
  unfold reference_at. simpl. split.
  - intros (H & ? & ?). injection H as -> ->. auto.
  - by intros (-> & -> & ? & ?).
Qed.

Lemma var_scan_None s : var_scan s = None → ∀ pre ref post, ¬ reference_at s pre ref post.
Proof.
  induction s as [|a s IH]; intros H pre ref post Hr.
  - destruct Hr as [Hr _]. by destruct pre.
  - cbn [var_scan] in H. destruct (match_here (a :: s)) as [[r p]|] eqn:E; [done|].
    destruct pre as [|b pre].
    + apply match_here_Some in Hr. congruence.
    + destruct (var_scan s) as [[[??]?]|]; [done|]. apply reference_at_cons in Hr as [_ Hr].
      exact (IH eq_refl pre ref post Hr).
Qed.

Lemma var_scan_Some s pre ref post :
  var_scan s = Some (pre, ref, post) →
  reference_at s pre ref post ∧
  ∀ pre' ref' post', reference_at s pre' ref' post' → length pre ≤ length pre'.
Proof.
  revert pre. induction s as [|a s IH]; intros pre H; [done|].
  cbn [var_scan] in H. destruct (match_here (a :: s)) as [[r p]|] eqn:E.
  - simplify_eq. split; [by apply match_here_Some | simpl; lia].
  - destruct (var_scan s) as [[[pre0 r0] p0]|] eqn:Es; [|done]. simplify_eq/=.
    destruct (IH pre0 eq_refl) as [H1 H2]. split; [by apply reference_at_cons|].
    intros [|b pre'] ref' post' Hr.
    + apply match_here_Some in Hr. congruence.
    + apply reference_at_cons in Hr as [_ Hr]. simpl. by apply le_n_S, (H2 pre' ref' post').
Qed.

#[global] Instance var_scan_regex_ok : VarRegexOk var_scan_regex.
Proof.
  split.
  - intros s pre ref post. apply var_scan_Some.
  - intros s H. by apply var_scan_None.
Qed.

(** ** Lemmas on substitution *)
Section SubstituteFacts.
Context {HR : VarRegex} (ss : sections).

Lemma replace_refs_plain f s : var_find s = None → replace_refs f s = s.
Proof. unfold replace_refs. simpl. by intros ->. Qed.

Lemma replace_refs_one f s pre ref post :
  var_find s = Some (pre, ref, post) → var_find post = None →
  replace_refs f s = pre ++ f ref ++ post.
Proof.
  intros Hs Hp. unfold replace_refs. cbn [replace_all]. rewrite Hs.
  do 2 f_equal. destruct (length s); simpl; [done|]. by rewrite Hp.
Qed.

Lemma substitute_value_plain d config s : var_find s = None → substitute_value ss d config s = s.
Proof.
  intros Hs. destruct d; [done|]. simpl. rewrite replace_refs_plain by done.
  by rewrite decide_True.
Qed.
End SubstituteFacts.

(** ** The key search is a complete graph search *)
Section KeySearch.
Context (ss : sections) (key : str).

Definition children (x : str) : list str :=
  match ss !! x with
  | Some s => parent_section_name ss <$> refs_of s
  | None => []
  end.

Definition child (x y : str) : Prop := y ∈ children x.
Definition value_at (x : str) : option str := s ← ss !! x; s !! key.

(** What the search leaves behind when it found nothing. *)
Definition swept (v w : gset str) : Prop :=
  ∀ x, x ∈ w → x ∉ v → value_at x = None ∧ ∀ y, child x y → y ∈ w.

Lemma swept_trans u v w : u ⊆ v → v ⊆ w → swept u v → swept v w → swept u w.
Proof.
  intros Huv Hvw H1 H2 x Hx Hu. destruct (decide (x ∈ v)) as [Hv|Hv].
  - destruct (H1 x Hv Hu) as [? Hc]. split; [done|]. intros y Hy. apply Hvw, Hc, Hy.
  - by apply H2.
Qed.

(** The contract of one search: it ends; a value found sits at a node
    reachable from [x]; finding nothing sweeps the new nodes. *)
Definition searched (x : str) (v : gset str) (o : option (result Empty_set (option str) * gset str)) :
    Prop :=
  ∃ r w, o = Some (Ok r, w) ∧ v ⊆ w ∧
    match r with
    | Some a => ∃ y, rtc child x y ∧ value_at y = Some a
    | None => x ∈ w ∧ swept v w
    end.

Lemma first_found_searched (x : str) look names v :
  (∀ n u, n ∈ names → v ⊆ u → searched n u (look n u)) →
  (∀ n, n ∈ names → child x n) →
  ∃ r w, first_found look names v = Some (Ok r, w) ∧ v ⊆ w ∧
    match r with
    | Some a => ∃ y, rtc child x y ∧ value_at y = Some a
    | None => (∀ n, n ∈ names → n ∈ w) ∧ swept v w
    end.
Proof.
  revert v. induction names as [|n ns IH]; intros v Hl Hc.
  - exists None, v. repeat split; [done|by intros ? ?%not_elem_of_nil|done..].
  - cbn [first_found]. rewrite FM_bind_unfold.
    destruct (Hl n v) as (r & u & -> & Hvu & Hr); [left|done|]. destruct r as [a|].
    + exists (Some a), u. split; [done|]. split; [done|].
      destruct Hr as (y & Hy & Ha). exists y. split; [|done].
      eapply rtc_l; [|done]. apply Hc. left.
    + destruct (IH u) as (r & w & Hf & Huw & Hr').
      { intros m z Hm Hz. apply Hl; [by right | by etrans]. }
      { intros m Hm. apply Hc. by right. }
      exists r, w. split; [done|]. split; [by etrans|]. destruct r; [done|].
      destruct Hr as [Hn Hs]. destruct Hr' as [Hns Hs']. split.
      * intros m [->|Hm]%elem_of_cons; [by apply Huw | by apply Hns].
      * by eapply swept_trans.
Qed.

Lemma unvisited_shrinks (x : str) (v w : gset str) :
  is_Some (ss !! x) → x ∉ v → {[x]} ∪ v ⊆ w → size (dom ss ∖ w) < size (dom ss ∖ v).
Proof.
  intros Hx%elem_of_dom Hv Hw. apply subset_size. set_solver.
Qed.

Lemma swept_self (x : str) (v : gset str) : x ∈ v → swept v v.
Proof. by intros _ y Hy Hn. Qed.

Lemma resolve_section_key_searched (fuel : nat) (x : str) (v : gset str) :
  size (dom ss ∖ v) < fuel → searched x v (resolve_section_key ss fuel x key v).
Proof.
  revert x v. induction fuel as [|n IH]; intros x v Hf; [lia|].
  cbn [resolve_section_key]. rewrite FM_bind_unfold. unfold visit. case_bool_decide as Hx; cbn [negb].
  2: {
       exists None, ({[x]} ∪ v). split; [done|]. split; [set_solver|]. split; [set_solver|].
       intros y Hy Hn. set_solver. }
  assert (∀ w, v ⊆ w → x ∈ w → (∀ y, y ∈ w → y ∉ v → y ≠ x → value_at y = None ∧ ∀ z, child y z → z ∈ w) →
    value_at x = None → (∀ z, child x z → z ∈ w) → swept v w) as Hsw.
  { intros w _ _ Hw Hvx Hcx y Hy Hn. destruct (decide (y = x)) as [->|]; auto. }
  destruct (ss !! x) as [s|] eqn:Hs.
  - destruct (s !! key) as [a|] eqn:Ha.
    { exists (Some a), ({[x]} ∪ v). split; [done|]. split; [set_solver|].
      exists x. split; [apply rtc_refl|]. unfold value_at. by rewrite Hs. }
    assert (value_at x = None) as Hnone by (unfold value_at; by rewrite Hs).
    destruct (s !! (&"extends")) as [e|] eqn:He.
    + destruct (first_found_searched x (λ p, resolve_section_key ss n p key)
        (parent_section_name ss <$> parent_refs e) ({[x]} ∪ v)) as (r & w & Hr & Hw & Hres).
      { intros m u Hm Hu. apply IH. assert (size (dom ss ∖ u) < size (dom ss ∖ v)); [|lia].
        by apply (unvisited_shrinks x). }
      { intros m Hm. unfold child, children, refs_of. by rewrite Hs, He. }
      exists r, w. split; [exact Hr|]. split; [set_solver|]. destruct r; [exact Hres|].
      destruct Hres as [Hc Hswept]. split; [set_solver|].
      apply Hsw; [set_solver..| |done|].
      * intros y Hy Hn Hne. apply Hswept; set_solver.
      * intros z. unfold child, children, refs_of. rewrite Hs, He. apply Hc.
    + exists None, ({[x]} ∪ v). split; [done|]. split; [set_solver|]. split; [set_solver|].
      apply Hsw; [set_solver|set_solver|set_solver|done|].
      intros z. unfold child, children, refs_of. rewrite Hs, He. by intros ?%not_elem_of_nil.
  - exists None, ({[x]} ∪ v). split; [done|]. split; [set_solver|]. split; [set_solver|].
    apply Hsw; [set_solver|set_solver|set_solver|unfold value_at; by rewrite Hs|].
    intros z. unfold child, children. rewrite Hs. by intros ?%not_elem_of_nil.
Qed.

Lemma swept_reachable x y (w : gset str) : swept ∅ w → x ∈ w → rtc child x y → y ∈ w.
Proof.
  intros Hs Hx Hr. induction Hr as [|x z y Hxz Hr IH]; [done|].
  apply IH. destruct (Hs x Hx) as [_ Hc]; [apply not_elem_of_empty|]. by apply Hc.
Qed.

Lemma section_key_search x :
  match section_key ss x key with
  | Some a => ∃ y, rtc child x y ∧ value_at y = Some a
  | None => ∀ y, rtc child x y → value_at y = None
  end.
Proof.
  unfold section_key. destruct (resolve_section_key_searched (key_fuel ss) x ∅)
    as (r & w & -> & _ & Hr).
  { unfold key_fuel. rewrite difference_empty_L, size_dom. lia. }
  destruct r as [a|]; [done|]. destruct Hr as [Hx Hs]. intros y Hy.
  destruct (Hs y) as [? _]; [|apply not_elem_of_empty|done]. by eapply swept_reachable.
Qed.
End KeySearch.

(** ** Properties *)

(** Looking a key up along [extends] is a complete search: it finds the
    key exactly when some section reachable along [extends] references
    defines it, whatever the cycles and shared ancestors of the graph, and
    the value found is defined by such a section. *)
Theorem section_key_complete (ss : sections) (section_name key : str) :
  (∀ a, section_key ss section_name key = Some a →
     ∃ y, rtc (child ss) section_name y ∧ value_at ss key y = Some a) ∧
  (section_key ss section_name key = None ↔
     ∀ y, rtc (child ss) section_name y → value_at ss key y = None).
Proof.
  pose proof (section_key_search ss key section_name) as H.
  destruct (section_key ss section_name key) as [a|]; naive_solver.
Qed.

(** What resolving every environment has to deliver: an entry for each
    [env:*] section and nothing else, holding the section's inherited
    configuration after substitution. *)
Definition envs_meaning `{VarRegex} (ss : sections) (m : gmap str section) : Prop :=
  ∀ n, match ss !! env_key n with
       | None => m !! n = None
       | Some _ => ∃ c, inherits ss (NEnv n) c ∧ m !! n = Some (substitute_vars ss c)
       end.

Section AllEnvsFacts.
Context {HR : VarRegex} {HI : HashIter} {HIok : HashIterOk HI} (ss : sections).

Lemma env_names_spec n : n ∈ env_names ss ↔ is_Some (ss !! env_key n).
Proof.
  unfold env_names. rewrite list_elem_of_omap. split.
  - intros (k & Hk & ->%strip_prefix_Some).
    apply list_elem_of_fmap in Hk as ([k' s] & Hk' & Hin). simpl in Hk'. subst.
    rewrite (hm_iter_perm ss), elem_of_map_to_list in Hin. by eexists.
  - intros [s Hs]. exists (env_key n). split; [|apply strip_prefix_app].
    apply list_elem_of_fmap. exists (env_key n, s). split; [done|].
    by rewrite (hm_iter_perm ss), elem_of_map_to_list.
Qed.

Lemma resolve_envs_spec names acc :
  (∀ n, n ∈ names → is_Some (ss !! env_key n)) →
  ∃ r, resolve_envs ss names acc = Some r ∧
    match r with
    | Ok m => ∀ n, if decide (n ∈ names)
                   then ∃ c, inherits ss (NEnv n) c ∧ m !! n = Some (substitute_vars ss c)
                   else m !! n = acc !! n
    | Err e => ∃ n, n ∈ names ∧ fst <$> resolve_env ss (enough_fuel ss) n ∅ = Some (Err e)
    end.
Proof.
  revert acc. induction names as [|n ns IH]; intros acc Hn.
  - exists (Ok acc). by split.
  - cbn [resolve_envs]. destruct (resolve_enough ss (NEnv n) ∅) as (r & v & Hr & _).
    cbn [resolve_node] in Hr. rewrite Hr. destruct r as [c|e].
    + destruct (IH (<[n := substitute_vars ss c]> acc)) as (r & Hrs & Hm).
      { intros m Hm. apply Hn. by right. }
      exists r. split; [done|]. destruct r as [m|e].
      * intros k. specialize (Hm k). destruct (decide (k ∈ ns)).
        { rewrite decide_True by by right. done. }
        destruct (decide (k = n)) as [->|Hkn].
        -- rewrite decide_True by left. exists c. split.
           ++ by apply (resolve_sound ss (enough_fuel ss) (NEnv n) ∅ c v).
           ++ by rewrite Hm, lookup_insert_eq.
        -- rewrite decide_False by (by intros [|]%elem_of_cons).
           by rewrite Hm, lookup_insert_ne.
      * destruct Hm as (k & Hk & ?). exists k. split; [by right|done].
    + exists (Err e). split; [done|]. exists n. split; [left|]. by rewrite Hr.
Qed.
End AllEnvsFacts.

(** C4: [resolve_all_envs] ends for every input and iteration order.  When it
    succeeds the map holds exactly the [env:*] sections with their meaning,
    so the outcome does not depend on the order; otherwise the error is that
    of some environment. *)
Theorem resolve_all_envs_spec {HR : VarRegex} {HI : HashIter} {HIok : HashIterOk HI} (ss : sections) :
  ∃ r, resolve_all_envs ss = Some r ∧
    match r with
    | Ok m => envs_meaning ss m
    | Err e => ∃ n, is_Some (ss !! env_key n) ∧
                 fst <$> resolve_env ss (enough_fuel ss) n ∅ = Some (Err e)
    end.
Proof.
  destruct (resolve_envs_spec ss (env_names ss) ∅) as (r & Hr & Hm).
  { intros n. apply env_names_spec. }
  exists r. split; [done|]. destruct r as [m|e].
  - intros n. specialize (Hm n). destruct (ss !! env_key n) eqn:Hs; case_decide as Hn.
    + done.
    + destruct Hn. by apply env_names_spec.
    + apply env_names_spec in Hn as [? Hn]. congruence.
    + done.
  - destruct Hm as (n & Hn & He). exists n. by rewrite <- env_names_spec.
Qed.

(** The concrete order and matcher meet the interfaces. *)
Lemma resolve_all_envs_spec_witness :
  ∃ r, resolve_all_envs cyclic_sections = Some r ∧
    match r with
    | Ok m => envs_meaning cyclic_sections m
    | Err e => ∃ n, is_Some (cyclic_sections !! env_key n) ∧
        fst <$> resolve_env cyclic_sections (enough_fuel cyclic_sections) n ∅ = Some (Err e)
    end.
Proof. exact (resolve_all_envs_spec cyclic_sections). Defined.

(** One reference: a value whose leftmost reference is [ref], with no
    reference after it, becomes the text around it with the resolved value in
    place, provided the outcome holds no reference any more and differs from
    the input; a value without references is left alone. *)
Theorem substitute_one {HR : VarRegex} (ss : sections) (config : section)
    (key v pre ref post : str) :
  config !! key = Some v →
  var_find v = Some (pre, ref, post) → var_find post = None →
  var_find (pre ++ resolve_variable ss config ref ++ post) = None →
  substitute_vars ss config !! key = Some (pre ++ resolve_variable ss config ref ++ post).
Proof.
  intros Hk Hv Hp Hn. unfold substitute_vars. rewrite lookup_fmap, Hk. simpl fmap. f_equal.
  unfold max_depth. cbn [substitute_value].
  rewrite (replace_refs_one _ _ _ _ _ Hv Hp). case_decide as He.
  - congruence.
  - exact (substitute_value_plain ss 9 config _ Hn).
Qed.

Definition subst_sections : sections :=
  {[ &"common" := {[ &"flags" := &"-Os" ]}; &"env:uno" := {[ &"extends" := &"common" ]} ]}.
Definition subst_config : section := {[ &"build_flags" := &"-DA ${uno.flags} -g" ]}.

Lemma substitute_one_witness :
  substitute_vars subst_sections subst_config !! (&"build_flags") = Some (&"-DA -Os -g").
Proof.
  exact (substitute_one subst_sections subst_config (&"build_flags")
    (&"-DA ${uno.flags} -g") (&"-DA ") (&"uno.flags") (&" -g")
    ltac:(vm_compute; reflexivity) ltac:(vm_compute; reflexivity)
    ltac:(vm_compute; reflexivity) ltac:(vm_compute; reflexivity)).
Defined.
