(* ===== verification/IniConfig.v ===== *)
(** * [fbuild-config/src/ini_parser/mod.rs] and [pio_env.rs]

    [PlatformIOConfig] and its getters: environment overrides first, then the
    resolved environment, then the [[platformio]] section or a default. *)
From stdpp Require Import sorting.
From S2P Require Import Prelude RustStr IniValues IniParser IniResolve IniVars.

(** ** [PioEnvOverrides] *)

Abbreviation overrides := (gmap str str).

(** An empty value counts as unset. *)
Definition pio_get (o : overrides) (key : str) : option str :=
  match o !! key with Some [] => None | r => r end.

(** [PLATFORMIO_CORE_DIR], else the deprecated [PLATFORMIO_HOME]. *)
Definition get_core_dir (o : overrides) : option str :=
  match pio_get o (&"PLATFORMIO_CORE_DIR") with
  | Some d => Some d
  | None => pio_get o (&"PLATFORMIO_HOME")
  end.

(** ** [PlatformIOConfig] *)

Record PlatformIOConfig := {
  cfg_sections : sections;
  cfg_resolved_envs : gmap str section;
  cfg_path : str;
  cfg_overrides : overrides;
}.

Section Config.
Context {HR : VarRegex} {HI : HashIter}.

(** [content] is what reading [path] gave, [None] for an I/O error. *)
Definition from_path_with_overrides (content : option str) (path : str) (o : overrides) :
    option (result config_error PlatformIOConfig) :=
  match content with
  | None => Some (Err (ReadFailed path))
  | Some text =>
      let ss := parse_ini text in
      match resolve_all_envs ss with
      | None => None
      | Some (Err e) => Some (Err e)
      | Some (Ok m) =>
          Some (Ok {| cfg_sections := ss; cfg_resolved_envs := m;
                      cfg_path := path; cfg_overrides := o |})
      end
  end.
End Config.

Section Getters.
Context {HI : HashIter} (cfg : PlatformIOConfig).

Definition get_environments : list str :=
  merge_sort str_le (hm_iter (cfg_resolved_envs cfg)).*1.

Definition has_environment (env_name : str) : bool :=
  bool_decide (is_Some (cfg_resolved_envs cfg !! env_name)).

Definition get_env_config (env_name : str) : result config_error section :=
  match cfg_resolved_envs cfg !! env_name with
  | Some c => Ok c
  | None => Err (EnvNotFound env_name)
  end.

(** [defaults.split(',').next().unwrap_or("").trim()]. *)
Definition first_default (defaults : str) : str :=
  trim (default [] (head (split_on "," defaults))).

(** The name when it is not empty and resolved. *)
Definition usable_default (defaults : option str) : option str :=
  d ← defaults;
  let first := first_default d in
  if decide (first ≠ [] ∧ is_Some (cfg_resolved_envs cfg !! first)) then Some first else None.

Definition get_default_environment : option str :=
  match usable_default (pio_get (cfg_overrides cfg) (&"PLATFORMIO_DEFAULT_ENVS")) with
  | Some e => Some e
  | None =>
      match usable_default (pio ← cfg_sections cfg !! (&"platformio"); pio !! (&"default_envs")) with
      | Some e => Some e
      | None => head get_environments
      end
  end.

(** [get_build_flags], [get_build_src_flags] and [get_build_unflags]: the
    override, else the environment's key, parsed as flags. *)
Definition flags_of (override key env_name : str) : result config_error (list str) :=
  match pio_get (cfg_overrides cfg) override with
  | Some flags => Ok (parse_flags flags)
  | None =>
      config <-? get_env_config env_name;
      match config !! key with Some flags => Ok (parse_flags flags) | None => Ok [] end
  end.

Definition get_build_flags := flags_of (&"PLATFORMIO_BUILD_FLAGS") (&"build_flags").
Definition get_build_src_flags := flags_of (&"PLATFORMIO_BUILD_SRC_FLAGS") (&"build_src_flags").
Definition get_build_unflags := flags_of (&"PLATFORMIO_BUILD_UNFLAGS") (&"build_unflags").

(** The first of [candidates] that is set and not blank after stripping. *)
Fixpoint first_clean (candidates : list (option str)) : option str :=
  match candidates with
  | [] => None
  | Some v :: rest =>
      let cleaned := strip_inline_comment v in
      if decide (cleaned ≠ []) then Some cleaned else first_clean rest
  | None :: rest => first_clean rest
  end.

Definition get_build_type (env_name : str) : result config_error str :=
  config <-? get_env_config env_name;
  Ok (default (&"release") (first_clean [config !! (&"build_type")])).

Definition get_debug_build_flags (env_name : str) : result config_error (list str) :=
  config <-? get_env_config env_name;
  match config !! (&"debug_build_flags") with
  | Some flags => Ok (parse_flags flags)
  | None => Ok [&"-Og"; &"-g2"; &"-ggdb2"]
  end.

Definition get_source_filter (env_name : str) : result config_error (option str) :=
  match first_clean [pio_get (cfg_overrides cfg) (&"PLATFORMIO_BUILD_SRC_FILTER")] with
  | Some v => Ok (Some v)
  | None =>
      config <-? get_env_config env_name;
      Ok (first_clean [config !! (&"build_src_filter"); config !! (&"src_filter")])
  end.

(** [get_lib_deps], [get_lib_ignore], [get_extra_scripts]: one key, split. *)
Definition list_of (parse : str → list str) (key env_name : str) : result config_error (list str) :=
  config <-? get_env_config env_name;
  match config !! key with Some v => Ok (parse v) | None => Ok [] end.

Definition get_lib_deps := list_of parse_lib_deps (&"lib_deps").
Definition get_lib_ignore := list_of parse_lib_deps (&"lib_ignore").
Definition get_extra_scripts := list_of parse_list_values (&"extra_scripts").

Definition get_lib_ldf_mode (env_name : str) : result config_error (option str) :=
  config <-? get_env_config env_name;
  Ok (trim <$> config !! (&"lib_ldf_mode")).

(** [separator] is the host's path-list separator. *)
Definition get_lib_extra_dirs (separator : ascii) (env_name : str) : result config_error (list str) :=
  match pio_get (cfg_overrides cfg) (&"PLATFORMIO_LIB_EXTRA_DIRS") with
  | Some dirs => Ok (parse_path_list separator dirs)
  | None => list_of parse_list_values (&"lib_extra_dirs") env_name
  end.

(** One entry of the [board_build.*] / [board_upload.*] overrides. *)
Definition board_override (kv : str * str) (acc : section) : section :=
  match strip_prefix (&"board_build.") kv.1 with
  | Some stripped => <[stripped := kv.2]> acc
  | None =>
      match strip_prefix (&"board_upload.") kv.1 with
      | Some stripped => <[&"upload." ++ stripped := kv.2]> acc
      | None =>
          if decide (kv.1 ∈ [&"monitor_filters"; &"check_tool"]) then <[kv.1 := kv.2]> acc
          else acc
      end
  end.

Definition get_board_overrides (env_name : str) : result config_error section :=
  config <-? get_env_config env_name;
  Ok (foldl (λ acc kv, board_override kv acc) ∅ (hm_iter config)).

Definition embedded_files (key env_name : str) : result config_error (list str) :=
  o <-? get_board_overrides env_name;
  match o !! key with Some files => Ok (parse_lib_deps files) | None => Ok [] end.
Definition get_embed_files := embedded_files (&"embed_files").
Definition get_embed_txtfiles := embedded_files (&"embed_txtfiles").

Definition get_src_dir (env_name : str) : result config_error (option str) :=
  match pio_get (cfg_overrides cfg) (&"PLATFORMIO_SRC_DIR") with
  | Some v => Ok (Some v)
  | None =>
      config <-? get_env_config env_name;
      Ok (first_clean [config !! (&"src_dir");
                       pio ← cfg_sections cfg !! (&"platformio"); pio !! (&"src_dir")])
  end.
End Getters.

(** ** Lemmas *)

Section ConfigFacts.
Context {HI : HashIter} {HIok : HashIterOk HI} (cfg : PlatformIOConfig).

Lemma get_environments_spec e :
  e ∈ get_environments cfg ↔ is_Some (cfg_resolved_envs cfg !! e).
Proof.
  unfold get_environments. rewrite (merge_sort_Permutation str_le), list_elem_of_fmap. split.
  - intros ([k c] & -> & Hin). rewrite (hm_iter_perm (cfg_resolved_envs cfg)) in Hin.
    apply elem_of_map_to_list in Hin. by eexists.
  - intros [c Hc]. exists (e, c). split; [done|].
    by rewrite (hm_iter_perm (cfg_resolved_envs cfg)), elem_of_map_to_list.
Qed.

Lemma get_environments_least e : head (get_environments cfg) = Some e →
  ∀ e', is_Some (cfg_resolved_envs cfg !! e') → str_le e e'.
Proof.
  intros Hh e' He'%get_environments_spec.
  pose proof (StronglySorted_merge_sort str_le (hm_iter (cfg_resolved_envs cfg)).*1) as Hs.
  fold (get_environments cfg) in Hs. destruct (get_environments cfg) as [|a l]; [done|].
  injection Hh as ->. apply StronglySorted_inv in Hs as [_ Hs]. rewrite Forall_forall in Hs.
  apply elem_of_cons in He' as [->|Hin]; [|by apply Hs].
  destruct (str_le_total e e); done.
Qed.

Lemma usable_default_resolved d e :
  usable_default cfg d = Some e → is_Some (cfg_resolved_envs cfg !! e).
Proof. unfold usable_default. intros (x & _ & H)%bind_Some. case_decide; naive_solver. Qed.
End ConfigFacts.

(** [get_default_environment] names a resolved environment whenever there
    is one; without a usable [default_envs] it is the least name in byte
    order, whatever the order of the file or of the hash map. *)
Theorem get_default_environment_spec {HI : HashIter} {HIok : HashIterOk HI}
    (cfg : PlatformIOConfig) :
  match get_default_environment cfg with
  | None => cfg_resolved_envs cfg = ∅
  | Some e =>
      is_Some (cfg_resolved_envs cfg !! e) ∧
      (usable_default cfg (pio_get (cfg_overrides cfg) (&"PLATFORMIO_DEFAULT_ENVS")) = None →
       usable_default cfg (pio ← cfg_sections cfg !! (&"platformio"); pio !! (&"default_envs")) = None →
       ∀ e', is_Some (cfg_resolved_envs cfg !! e') → str_le e e')
  end.
Proof.
  unfold get_default_environment.
  destruct (usable_default cfg (pio_get _ _)) as [e|] eqn:H1.
  { split; [by eapply usable_default_resolved | done]. }
  destruct (usable_default cfg (cfg_sections cfg !! _ ≫= _)) as [e|] eqn:H2.
  { split; [by eapply usable_default_resolved | done]. }
  destruct (head (get_environments cfg)) as [e|] eqn:He.
  - split; [|intros _ _; by apply get_environments_least].
    apply get_environments_spec. destruct (get_environments cfg); [done|].
    injection He as ->. left.
  - apply map_eq. intros e. rewrite lookup_empty. apply eq_None_not_Some.
    intros Hs%get_environments_spec. by destruct (get_environments cfg); [apply not_elem_of_nil in Hs|].
Qed.

Definition two_envs : PlatformIOConfig :=
  {| cfg_sections := ∅; cfg_path := []; cfg_overrides := ∅;
     cfg_resolved_envs := {[ &"uno" := ∅; &"esp32" := ∅ ]} |}.

Lemma get_default_environment_spec_witness :
  get_default_environment two_envs = Some (&"esp32") ∧ str_le (&"esp32") (&"uno").
Proof.
  pose proof (get_default_environment_spec two_envs) as H.
  assert (get_default_environment two_envs = Some (&"esp32")) as E by (vm_compute; reflexivity).
  rewrite E in H. split; [exact E|]. destruct H as [_ H].
  apply H; [vm_compute; reflexivity.. | apply (bool_decide_unpack _); vm_compute; exact I].
Defined.

(** ** Board overrides *)

(** The key under which [board_override] stores a pair. *)
Definition board_key (k : str) : option str :=
  match strip_prefix (&"board_build.") k with
  | Some stripped => Some stripped
  | None =>
      match strip_prefix (&"board_upload.") k with
      | Some stripped => Some (&"upload." ++ stripped)
      | None => if decide (k ∈ [&"monitor_filters"; &"check_tool"]) then Some k else None
      end
  end.

Lemma board_override_key kv acc :
  board_override kv acc = match board_key kv.1 with Some k => <[k := kv.2]> acc | None => acc end.
Proof. unfold board_override, board_key. repeat case_match; done. Qed.

Lemma board_fold_spec (l : list (str * str)) (acc : section) k v :
  (∀ kv kv', kv ∈ l → kv' ∈ l → board_key kv.1 = Some k → board_key kv'.1 = Some k → kv = kv') →
  foldl (λ acc kv, board_override kv acc) acc l !! k = Some v ↔
  (∃ k0, (k0, v) ∈ l ∧ board_key k0 = Some k) ∨
  (acc !! k = Some v ∧ ∀ kv, kv ∈ l → board_key kv.1 ≠ Some k).
Proof.
  revert acc. induction l as [|[k0 v0] l IH]; intros acc Hinj; simpl.
  - split; [intros; right; split; [done|] | intros [(?&H&_)|[? _]]; [|done]];
      [by intros ? ?%not_elem_of_nil | by apply not_elem_of_nil in H].
  - rewrite IH by (intros; apply Hinj; by try right). rewrite board_override_key. simpl.
    destruct (board_key k0) as [k1|] eqn:E; [destruct (decide (k1 = k)) as [->|Hne]|].
    + rewrite lookup_insert_eq. split.
      * intros [(k2 & ? & ?)|[[= ->] Hn]]; left; [exists k2|exists k0]; set_solver.
      * intros [(k2 & [[= -> ->]|Hin]%elem_of_cons & Hk)|[_ Hn]].
        -- destruct (decide (Exists (λ kv, board_key kv.1 = Some k) l)) as [Hx|Hx].
           ++ apply Exists_exists in Hx as ([k3 v3] & Hin & Hk3). simpl in Hk3.
              assert ((k0, v0) = (k3, v3)) as [= <- <-]; [apply Hinj; by try left; try right|].
              left. by exists k0.
           ++ right. split; [done|]. intros kv Hkv Hk'. apply Hx, Exists_exists. eauto.
        -- left. by exists k2.
        -- destruct (Hn (k0, v0)); [left|done].
    + rewrite lookup_insert_ne by done. split.
      * intros [(k2 & ? & ?)|[? Hn]]; [left; exists k2; set_solver|right].
        split; [done|]. intros kv [->|?]%elem_of_cons; simpl; [congruence | auto].
      * intros [(k2 & [[= -> ->]|Hin]%elem_of_cons & Hk)|[? Hn]]; [congruence|left; eauto|right].
        split; [done|]. intros; apply Hn. by right.
    + split.
      * intros [(k2 & ? & ?)|[? Hn]]; [left; exists k2; set_solver|right].
        split; [done|]. intros kv [->|?]%elem_of_cons; simpl; [congruence | auto].
      * intros [(k2 & [[= -> ->]|Hin]%elem_of_cons & Hk)|[? Hn]]; [congruence|left; eauto|right].
        split; [done|]. intros; apply Hn. by right.
Qed.

(** When no two keys of the environment are spellings of the same board
    override (as [board_build.upload.x] and [board_upload.x] are),
    [get_board_overrides] holds exactly the renamed pairs, so it does
    not depend on the order in which the hash map is walked. *)
Theorem get_board_overrides_spec {HI : HashIter} {HIok : HashIterOk HI}
    (cfg : PlatformIOConfig) (env_name : str) (config : section) :
  cfg_resolved_envs cfg !! env_name = Some config →
  (∀ k1 k2 k, is_Some (config !! k1) → is_Some (config !! k2) →
     board_key k1 = Some k → board_key k2 = Some k → k1 = k2) →
  ∃ o, get_board_overrides cfg env_name = Ok o ∧
    ∀ k v, o !! k = Some v ↔ ∃ k0, config !! k0 = Some v ∧ board_key k0 = Some k.
Proof.
  intros Hc Hinj. unfold get_board_overrides, get_env_config. rewrite Hc. simpl.
  eexists. split; [done|]. intros k v.
  assert (∀ kv, kv ∈ hm_iter config ↔ config !! kv.1 = Some kv.2) as Hin.
  { intros [k0 v0]. by rewrite (hm_iter_perm config), elem_of_map_to_list. }
  rewrite board_fold_spec.
  - rewrite lookup_empty. split; [intros [(k0 & H%Hin & ?)|[[=] _]]|intros (k0 & ? & ?); left];
      exists k0; [done|by rewrite Hin].
  - intros [k1 v1] [k2 v2] H1%Hin H2%Hin Hk1 Hk2. simpl in *.
    assert (k1 = k2) as <- by eauto. congruence.
Qed.

Definition board_cfg : PlatformIOConfig :=
  {| cfg_sections := ∅; cfg_path := []; cfg_overrides := ∅;
     cfg_resolved_envs := {[ &"uno" := {[ &"board_build.f_cpu" := &"8L"; &"board_upload.speed" := &"9" ]} ]} |}.

Lemma get_board_overrides_spec_witness :
  ∃ o, get_board_overrides board_cfg (&"uno") = Ok o ∧
    ∀ k v, o !! k = Some v ↔ ∃ k0,
      ({[ &"board_build.f_cpu" := &"8L"; &"board_upload.speed" := &"9" ]} : section) !! k0 = Some v ∧
      board_key k0 = Some k.
Proof.
  apply get_board_overrides_spec; [vm_compute; reflexivity|].
  intros k1 k2 k H1%elem_of_dom H2%elem_of_dom.
  rewrite !dom_insert_L, dom_singleton_L in H1, H2.
  apply elem_of_union in H1 as [->%elem_of_singleton| ->%elem_of_singleton];
    apply elem_of_union in H2 as [->%elem_of_singleton| ->%elem_of_singleton]; try done.
  all: intros Ha Hb; vm_compute in Ha; vm_compute in Hb; congruence.
Defined.
