(* ===== verification/DeviceManager.v ===== *)
(** * [fbuild-daemon/src/device_manager.rs]

    The daemon's in-memory inventory of serial devices: leases, refresh from
    a port enumeration with port moves, and the session-trusted firmware
    hash.  Clock readings and fresh lease ids are arguments; the hash map's
    iteration order is the interface [HashIter]. *)
From S2P Require Import Prelude RustStr.

(** ** Data *)

Inductive LeaseType := Exclusive | Monitor.
#[global] Instance LeaseType_eq_dec : EqDecision LeaseType.
Proof. solve_decision. Defined.

Record DeviceLease := {
  lease_id : str;
  client_id : str;
  lease_type : LeaseType;
  lease_description : str;
  acquired_at : f64;
  track_serial : bool;
}.

Inductive DeviceLeaseError :=
  | NotFound (port : str)
  | Disconnected (port : str)
  | ExclusiveConflict (port device_id description : str) (holder : DeviceLease)
  | InvalidLeaseType (lease_type : str)
  | InvalidPreemption (message : str).

Definition message (e : DeviceLeaseError) : str :=
  match e with
  | NotFound port => &"device '" ++ port ++ &"' not found"
  | Disconnected port => &"device '" ++ port ++ &"' is disconnected"
  | ExclusiveConflict port _ _ holder =>
      &"device '" ++ port ++ &"' already has exclusive lease held by client '"
      ++ client_id holder ++ &"' (" ++ lease_description holder ++ &")"
  | InvalidLeaseType t =>
      &"invalid lease_type '" ++ t ++ &"', must be 'exclusive' or 'monitor'"
  | InvalidPreemption m => m
  end.

(** [Instant]s are nanoseconds of the monotonic clock. *)
Record TrustedFirmwareHash := { hash : list ascii; set_at : Z }.
#[global] Instance TrustedFirmwareHash_eq_dec : EqDecision TrustedFirmwareHash.
Proof. solve_decision. Defined.

(** [fbuild-serial/src/ports.rs] *)
Inductive PortHealth :=
  | HealthyPresent
  | PresentProblem (problem_code : Z) (status : option Z)
  | Phantom (problem_code : option Z) (status : option Z)
  | UnknownHealth.

(** The facts about a device that each enumeration reports anew. *)
Record DiscoveredDevice := {
  dd_port : str;
  dd_device_id : str;
  dd_description : str;
  dd_vid : option Z;
  dd_pid : option Z;
  dd_vendor_name : option str;
  dd_product_name : option str;
  dd_is_cdc : option bool;
  dd_serial_number : option str;
  dd_port_health : PortHealth;
  dd_instance_id : option str;
  dd_parent_instance_id : option str;
  dd_location_paths : list str;
}.

Record DeviceState := {
  device_id : str;
  port : str;
  description : str;
  vid : option Z;
  pid : option Z;
  vendor_name : option str;
  product_name : option str;
  is_cdc : option bool;
  serial_number : option str;
  port_health : PortHealth;
  instance_id : option str;
  parent_instance_id : option str;
  location_paths : list str;
  previous_port : option str;
  exclusive_lease : option DeviceLease;
  monitor_leases : gmap str DeviceLease;
  last_seen_at : f64;
  is_connected : bool;
  trusted_firmware : option TrustedFirmwareHash;
  last_disconnect_at : option Z;
}.

Record DevicePortMove := { pm_previous_port : str; pm_port : str; pm_serial_number : option str }.

Record DeviceManager := {
  devices : gmap str DeviceState;
  last_refresh_at : option Z;
  recent_port_moves : list DevicePortMove;
}.

Definition new_manager : DeviceManager :=
  {| devices := ∅; last_refresh_at := None; recent_port_moves := [] |}.

Definition is_available_for_exclusive (s : DeviceState) : bool :=
  match exclusive_lease s with None => true | Some _ => false end.

Definition monitor_count (s : DeviceState) : nat := size (monitor_leases s).

Definition has_tracked_serial_lease (s : DeviceState) : bool :=
  match exclusive_lease s with Some l => track_serial l | None => false end
  || existsb track_serial (map_to_list (monitor_leases s)).*2.

(** ** Field assignments *)

Definition set_leases (e : option DeviceLease) (m : gmap str DeviceLease) (s : DeviceState) : DeviceState :=
  {| device_id := device_id s; port := port s; description := description s; vid := vid s;
     pid := pid s; vendor_name := vendor_name s; product_name := product_name s;
     is_cdc := is_cdc s; serial_number := serial_number s; port_health := port_health s;
     instance_id := instance_id s; parent_instance_id := parent_instance_id s;
     location_paths := location_paths s; previous_port := previous_port s;
     exclusive_lease := e; monitor_leases := m; last_seen_at := last_seen_at s;
     is_connected := is_connected s; trusted_firmware := trusted_firmware s;
     last_disconnect_at := last_disconnect_at s |}.

Definition set_exclusive (e : option DeviceLease) (s : DeviceState) : DeviceState :=
  set_leases e (monitor_leases s) s.
Definition set_monitors (m : gmap str DeviceLease) (s : DeviceState) : DeviceState :=
  set_leases (exclusive_lease s) m s.

Definition set_trust (t : option TrustedFirmwareHash) (s : DeviceState) : DeviceState :=
  {| device_id := device_id s; port := port s; description := description s; vid := vid s;
     pid := pid s; vendor_name := vendor_name s; product_name := product_name s;
     is_cdc := is_cdc s; serial_number := serial_number s; port_health := port_health s;
     instance_id := instance_id s; parent_instance_id := parent_instance_id s;
     location_paths := location_paths s; previous_port := previous_port s;
     exclusive_lease := exclusive_lease s; monitor_leases := monitor_leases s;
     last_seen_at := last_seen_at s; is_connected := is_connected s;
     trusted_firmware := t; last_disconnect_at := last_disconnect_at s |}.

Definition set_connection (connected : bool) (disc : option Z) (s : DeviceState) : DeviceState :=
  {| device_id := device_id s; port := port s; description := description s; vid := vid s;
     pid := pid s; vendor_name := vendor_name s; product_name := product_name s;
     is_cdc := is_cdc s; serial_number := serial_number s; port_health := port_health s;
     instance_id := instance_id s; parent_instance_id := parent_instance_id s;
     location_paths := location_paths s; previous_port := previous_port s;
     exclusive_lease := exclusive_lease s; monitor_leases := monitor_leases s;
     last_seen_at := last_seen_at s; is_connected := connected;
     trusted_firmware := trusted_firmware s; last_disconnect_at := disc |}.

Definition mark_disconnected (s : DeviceState) : DeviceState :=
  set_connection false (last_disconnect_at s) s.

Definition set_port (p : str) (previous : option str) (s : DeviceState) : DeviceState :=
  {| device_id := device_id s; port := p; description := description s; vid := vid s;
     pid := pid s; vendor_name := vendor_name s; product_name := product_name s;
     is_cdc := is_cdc s; serial_number := serial_number s; port_health := port_health s;
     instance_id := instance_id s; parent_instance_id := parent_instance_id s;
     location_paths := location_paths s; previous_port := previous;
     exclusive_lease := exclusive_lease s; monitor_leases := monitor_leases s;
     last_seen_at := last_seen_at s; is_connected := is_connected s;
     trusted_firmware := trusted_firmware s; last_disconnect_at := last_disconnect_at s |}.

(** The assignments both branches of the refresh loop make from [device]. *)
Definition absorb (now : f64) (d : DiscoveredDevice) (s : DeviceState) : DeviceState :=
  {| device_id := dd_device_id d; port := port s; description := dd_description d;
     vid := dd_vid d; pid := dd_pid d; vendor_name := dd_vendor_name d;
     product_name := dd_product_name d; is_cdc := dd_is_cdc d;
     serial_number := dd_serial_number d; port_health := dd_port_health d;
     instance_id := dd_instance_id d; parent_instance_id := dd_parent_instance_id d;
     location_paths :=
       match dd_location_paths d with [] => location_paths s | l => l end;
     previous_port := previous_port s; exclusive_lease := exclusive_lease s;
     monitor_leases := monitor_leases s; last_seen_at := now; is_connected := true;
     trusted_firmware := trusted_firmware s; last_disconnect_at := last_disconnect_at s |}.

(** [or_insert_with]. *)
Definition fresh_device (now : f64) (d : DiscoveredDevice) : DeviceState :=
  {| device_id := dd_device_id d; port := dd_port d; description := dd_description d;
     vid := dd_vid d; pid := dd_pid d; vendor_name := dd_vendor_name d;
     product_name := dd_product_name d; is_cdc := dd_is_cdc d;
     serial_number := dd_serial_number d; port_health := dd_port_health d;
     instance_id := dd_instance_id d; parent_instance_id := dd_parent_instance_id d;
     location_paths := dd_location_paths d; previous_port := None; exclusive_lease := None;
     monitor_leases := ∅; last_seen_at := now; is_connected := true;
     trusted_firmware := None; last_disconnect_at := None |}.

(** ** Refresh from an enumeration *)

Section Refresh.
Context {HI : HashIter}.

(** [devices.iter().find_map(..)]: a device with this serial number that is
    not (or not yet) connected and holds a tracked lease. *)
Definition moved_from (m : gmap str DeviceState) (serial : str) : option str :=
  fst <$> head (filter (λ ks : str * DeviceState,
    serial_number ks.2 = Some serial ∧ is_connected ks.2 = false ∧
    has_tracked_serial_lease ks.2 = true) (hm_iter m)).

Abbreviation refresh_acc := (gmap str DeviceState * list DevicePortMove)%type.

(** The body after the move branch: [entry(key).or_insert_with(..)] and the
    assignments. *)
Definition refresh_entry (now : f64) (d : DiscoveredDevice) (acc : refresh_acc) : refresh_acc :=
  (<[dd_port d := absorb now d (default (fresh_device now d) (acc.1 !! dd_port d))]> acc.1, acc.2).

(** One iteration of [for device in discovered]. *)
Definition refresh_device (now : f64) (acc : refresh_acc) (d : DiscoveredDevice) : refresh_acc :=
  let key := dd_port d in
  if decide (is_Some (acc.1 !! key)) then refresh_entry now d acc
  else
    match dd_serial_number d with
    | None => refresh_entry now d acc
    | Some serial =>
        match moved_from acc.1 serial with
        | None => refresh_entry now d acc
        | Some old_port =>
            match acc.1 !! old_port with
            | None => refresh_entry now d (delete old_port acc.1, acc.2)
            | Some state =>
                (<[key := absorb now d (set_port key (Some old_port) state)]> (delete old_port acc.1),
                 acc.2 ++ [{| pm_previous_port := old_port; pm_port := key;
                              pm_serial_number := dd_serial_number d |}])
            end
        end
    end.

(** The final pass over [was_connected]; [stamp key] is the [Instant::now()]
    read for [key]. *)
Definition stamp_disconnect (was : gmap str DeviceState) (stamp : str → Z) (key : str)
    (s : DeviceState) : DeviceState :=
  match was !! key with
  | Some prev =>
      if is_connected prev && negb (is_connected s)
      then set_connection (is_connected s) (Some (stamp key)) s else s
  | None => s
  end.

Definition refresh_from_discovered (now : f64) (stamp : str → Z)
    (discovered : list DiscoveredDevice) (dm : DeviceManager) : DeviceManager :=
  let start := (mark_disconnected <$> devices dm, recent_port_moves dm) in
  let acc := foldl (refresh_device now) start discovered in
  {| devices := map_imap (λ k s, Some (stamp_disconnect (devices dm) stamp k s)) acc.1;
     last_refresh_at := last_refresh_at dm;
     recent_port_moves := acc.2 |}.
End Refresh.

(** ** The enumeration

    The entries of the [serialport] crate and what [ports.rs] adds to them. *)
Inductive SerialPortType :=
  | UsbPort (usb_vid usb_pid : Z) (usb_serial usb_product : option str)
  | BluetoothPort
  | PciPort
  | UnknownPort.

Record DetectedPort := {
  port_name : str;
  port_type : SerialPortType;
  health : PortHealth;
  det_instance_id : option str;
  det_parent_instance_id : option str;
  det_location_paths : list str;
}.

Inductive KernelDriverClass := CdcAcm | UsbSerialBridge.

Record UsbInfo := { vendor : str; product : str }.

Section Enumeration.
(** The verified runtime cache of USB names, and the host's classification
    of a port's kernel driver. *)
Context (online_lookup : Z → Z → option UsbInfo).
Context (detect_port_kernel_class : str → option KernelDriverClass).

(** [fbuild-core/src/usb/resolver.rs] *)
Definition usb_resolve (v p : Z) : UsbInfo :=
  match online_lookup v p with
  | Some info => info
  | None => {| vendor := &"Unknown vendor 0x" ++ hex4 "A" v;
               product := &"Unknown product 0x" ++ hex4 "A" p |}
  end.

Definition detect_is_cdc (name : str) : option bool :=
  c ← detect_port_kernel_class name;
  Some (match c with CdcAcm => true | UsbSerialBridge => false end).

Definition discover (d : DetectedPort) : DiscoveredDevice :=
  let '(v, p, fallback_desc) :=
    match port_type d with
    | UsbPort v p _ prod => (Some v, Some p, default (&"USB Serial Device") prod)
    | BluetoothPort => (None, None, &"Bluetooth Serial")
    | PciPort => (None, None, &"PCI Serial")
    | UnknownPort => (None, None, &"Unknown")
    end in
  let cdc := match port_type d with UsbPort _ _ _ _ => detect_is_cdc (port_name d) | _ => None end in
  let '(vn, pn, desc) :=
    match v, p with
    | Some v, Some p =>
        let info := usb_resolve v p in
        (Some (vendor info), Some (product info), vendor info ++ &" " ++ product info)
    | _, _ => (None, None, fallback_desc)
    end in
  {| dd_port := port_name d;
     dd_device_id :=
       match v with Some v => hex4 "a" v ++ &":" ++ hex4 "a" (default 0%Z p) | None => port_name d end;
     dd_description := desc; dd_vid := v; dd_pid := p; dd_vendor_name := vn;
     dd_product_name := pn; dd_is_cdc := cdc;
     dd_serial_number := match port_type d with UsbPort _ _ ser _ => ser | _ => None end;
     dd_port_health := health d; dd_instance_id := det_instance_id d;
     dd_parent_instance_id := det_parent_instance_id d;
     dd_location_paths := det_location_paths d |}.

Context {HI : HashIter}.

(** [ports] is the outcome of [available_ports()]; [done_at] is the instant
    read after the refresh. *)
Definition refresh_devices (ports : option (list DetectedPort)) (now : f64) (stamp : str → Z)
    (done_at : Z) (dm : DeviceManager) : DeviceManager :=
  match ports with
  | None => dm
  | Some l =>
      let dm' := refresh_from_discovered now stamp (discover <$> l) dm in
      {| devices := devices dm'; last_refresh_at := Some done_at;
         recent_port_moves := recent_port_moves dm' |}
  end.

(** [t.elapsed() < max_age] at instant [at_]. *)
Definition refresh_devices_if_stale (max_age at_ : Z) (ports : option (list DetectedPort))
    (now : f64) (stamp : str → Z) (done_at : Z) (dm : DeviceManager) : bool * DeviceManager :=
  let stale :=
    match last_refresh_at dm with
    | Some t => negb (saturating_sub at_ t <? max_age)%Z
    | None => true
    end in
  if stale then (true, refresh_devices ports now stamp done_at dm) else (false, dm).
End Enumeration.

(** ** Leases *)

Definition with_devices (m : gmap str DeviceState) (dm : DeviceManager) : DeviceManager :=
  {| devices := m; last_refresh_at := last_refresh_at dm;
     recent_port_moves := recent_port_moves dm |}.

Definition set_device (p : str) (s : DeviceState) (dm : DeviceManager) : DeviceManager :=
  with_devices (<[p := s]> (devices dm)) dm.

Definition take_recent_port_moves (dm : DeviceManager) : list DevicePortMove * DeviceManager :=
  (recent_port_moves dm,
   {| devices := devices dm; last_refresh_at := last_refresh_at dm; recent_port_moves := [] |}).

Definition get_device_status (p : str) (dm : DeviceManager) : option DeviceState := devices dm !! p.

(** [uuid] is the fresh lease id, [now] the Unix time. *)
Definition acquire_exclusive (p client descr : str) (track : bool) (uuid : str) (now : f64)
    (dm : DeviceManager) : result DeviceLeaseError DeviceLease * DeviceManager :=
  match devices dm !! p with
  | None => (Err (NotFound p), dm)
  | Some s =>
      if negb (is_connected s) then (Err (Disconnected p), dm)
      else
        match exclusive_lease s with
        | Some existing => (Err (ExclusiveConflict p (device_id s) (description s) existing), dm)
        | None =>
            let lease := {| lease_id := uuid; client_id := client; lease_type := Exclusive;
                            lease_description := descr; acquired_at := now; track_serial := track |} in
            (Ok lease, set_device p (set_exclusive (Some lease) s) dm)
        end
  end.

Definition acquire_monitor (p client descr : str) (track : bool) (uuid : str) (now : f64)
    (dm : DeviceManager) : result DeviceLeaseError DeviceLease * DeviceManager :=
  match devices dm !! p with
  | None => (Err (NotFound p), dm)
  | Some s =>
      if negb (is_connected s) then (Err (Disconnected p), dm)
      else
        let lease := {| lease_id := uuid; client_id := client; lease_type := Monitor;
                        lease_description := descr; acquired_at := now; track_serial := track |} in
        (Ok lease, set_device p (set_monitors (<[uuid := lease]> (monitor_leases s)) s) dm)
  end.

(** What [release_lease] does to one device: [None] when it does not hold
    the lease. *)
Definition release_from (id : str) (s : DeviceState) : option DeviceState :=
  match exclusive_lease s with
  | Some exc =>
      if decide (lease_id exc = id) then Some (set_exclusive None s)
      else if decide (is_Some (monitor_leases s !! id))
           then Some (set_monitors (delete id (monitor_leases s)) s) else None
  | None =>
      if decide (is_Some (monitor_leases s !! id))
      then Some (set_monitors (delete id (monitor_leases s)) s) else None
  end.

(** [for state in devices.values_mut()] with its early returns. *)
Fixpoint release_loop (id : str) (l : list (str * DeviceState)) : option (str * DeviceState) :=
  match l with
  | [] => None
  | (k, s) :: rest =>
      match release_from id s with Some s' => Some (k, s') | None => release_loop id rest end
  end.

Definition release_lease {HI : HashIter} (id : str) (dm : DeviceManager) :
    result str unit * DeviceManager :=
  match release_loop id (hm_iter (devices dm)) with
  | Some (k, s') => (Ok tt, set_device k s' dm)
  | None => (Err (&"lease '" ++ id ++ &"' not found"), dm)
  end.

Definition release_device_leases (p : str) (dm : DeviceManager) : result str nat * DeviceManager :=
  match devices dm !! p with
  | None => (Err (&"device '" ++ p ++ &"' not found"), dm)
  | Some s =>
      let count := (match exclusive_lease s with Some _ => 1 | None => 0 end)
                   + size (monitor_leases s) in
      (Ok count, set_device p (set_leases None ∅ s) dm)
  end.

Definition preempt_device (p client reason : str) (uuid : str) (now : f64) (dm : DeviceManager) :
    result DeviceLeaseError (DeviceLease * option str) * DeviceManager :=
  if decide (reason = []) then (Err (InvalidPreemption (&"preemption reason is required")), dm)
  else
    match devices dm !! p with
    | None => (Err (NotFound p), dm)
    | Some s =>
        if negb (is_connected s) then (Err (Disconnected p), dm)
        else
          let preempted := client_id <$> exclusive_lease s in
          let lease := {| lease_id := uuid; client_id := client; lease_type := Exclusive;
                          lease_description := &"preempted: " ++ reason; acquired_at := now;
                          track_serial := false |} in
          (Ok (lease, preempted), set_device p (set_leases (Some lease) ∅ s) dm)
    end.

(** ** Trust *)

Definition trusted_hash_of (s : DeviceState) : option (list ascii) :=
  if negb (is_connected s) then None
  else
    trusted ← trusted_firmware s;
    match last_disconnect_at s with
    | Some disc => if (set_at trusted <? disc)%Z then None else Some (hash trusted)
    | None => Some (hash trusted)
    end.

Definition trusted_firmware_hash (p : str) (dm : DeviceManager) : option (list ascii) :=
  s ← devices dm !! p; trusted_hash_of s.

Definition set_trusted_firmware_hash (p : str) (h : list ascii) (at_ : Z) (dm : DeviceManager) :
    DeviceManager :=
  match devices dm !! p with
  | Some s => set_device p (set_trust (Some {| hash := h; set_at := at_ |}) s) dm
  | None => dm
  end.

Definition clear_trusted_firmware_hash (p : str) (dm : DeviceManager) : DeviceManager :=
  match devices dm !! p with
  | Some s => set_device p (set_trust None s) dm
  | None => dm
  end.

(** ** Cleanup *)

Definition is_stale (s : DeviceState) : bool :=
  negb (is_connected s) && is_available_for_exclusive s && bool_decide (monitor_leases s = ∅).

Definition cleanup_stale_devices {HI : HashIter} (dm : DeviceManager) : nat * DeviceManager :=
  let stale := (filter (λ ks : str * DeviceState, is_stale ks.2 = true) (hm_iter (devices dm))).*1 in
  (length stale, with_devices (foldl (λ m k, delete k m) (devices dm) stale) dm).
