(* ===== verification/DeviceFacts.v ===== *)
(** * Leases and trust of the device manager

    The lease invariant and its preservation by every operation, the
    conservation of leases by a refresh, the outcome of each lease
    operation, and where a trusted firmware hash can come from. *)
From S2P Require Import Prelude RustStr DeviceManager.

(** ** The lease invariant *)

Definition holds (s : DeviceState) (l : DeviceLease) : Prop :=
  exclusive_lease s = Some l ∨ monitor_leases s !! lease_id l = Some l.

(** Some device of [m] holds [l]. *)
Definition held (m : gmap str DeviceState) (l : DeviceLease) : Prop :=
  ∃ k s, m !! k = Some s ∧ holds s l.

Definition fresh_id (uuid : str) (m : gmap str DeviceState) : Prop :=
  ∀ l, held m l → lease_id l ≠ uuid.

(** Devices sit under their own port; an exclusive slot holds an exclusive
    lease, a monitor slot the monitor lease of that id; no id is held twice. *)
Record lease_inv (m : gmap str DeviceState) : Prop := {
  inv_port k s : m !! k = Some s → port s = k;
  inv_excl k s l : m !! k = Some s → exclusive_lease s = Some l → lease_type l = Exclusive;
  inv_mon k s i l : m !! k = Some s → monitor_leases s !! i = Some l →
    lease_id l = i ∧ lease_type l = Monitor;
  inv_unique k1 s1 l1 k2 s2 l2 :
    m !! k1 = Some s1 → m !! k2 = Some s2 → holds s1 l1 → holds s2 l2 →
    lease_id l1 = lease_id l2 → k1 = k2 ∧ l1 = l2;
}.

Lemma lease_inv_empty : lease_inv ∅.
Proof. split; intros *; by rewrite ?lookup_empty. Qed.

(** ** Changes that only move leases around *)

Definition same_leases (s s' : DeviceState) : Prop :=
  exclusive_lease s = exclusive_lease s' ∧ monitor_leases s = monitor_leases s'.

Definition lease_free (s : DeviceState) : Prop :=
  exclusive_lease s = None ∧ monitor_leases s = ∅.

Lemma same_leases_refl s : same_leases s s.
Proof. done. Qed.

Lemma same_leases_trans s t u : same_leases s t → same_leases t u → same_leases s u.
Proof. unfold same_leases. by intros [-> ->] [-> ->]. Qed.

Lemma same_leases_holds s s' l : same_leases s s' → holds s l ↔ holds s' l.
Proof. unfold holds. by intros [-> ->]. Qed.

Lemma same_leases_free s s' : same_leases s s' → lease_free s ↔ lease_free s'.
Proof. unfold lease_free. by intros [-> ->]. Qed.

Lemma lease_free_holds s l : lease_free s → ¬ holds s l.
Proof. unfold holds. intros [-> ->]. rewrite lookup_empty. naive_solver. Qed.

#[export] Hint Resolve same_leases_refl : fb.

(** Every device [k] of [m] is the device [f k] of [m'] with the same leases,
    and every other device of [m'] is free of leases. *)
Definition rekeyed (f : str → str) (m m' : gmap str DeviceState) : Prop :=
  (∀ k s, m !! k = Some s → ∃ s', m' !! f k = Some s' ∧ same_leases s s') ∧
  (∀ k' s', m' !! k' = Some s' → port s' = k' ∧
     (lease_free s' ∨ ∃ k s, m !! k = Some s ∧ f k = k' ∧ same_leases s s')).

Definition keyed (m : gmap str DeviceState) : Prop := ∀ k s, m !! k = Some s → port s = k.

Lemma rekeyed_keyed f m m' : rekeyed f m m' → keyed m'.
Proof. intros [_ H] k s Hk. by apply H in Hk as [? _]. Qed.

Lemma rekeyed_refl m : keyed m → rekeyed id m m.
Proof.
  intros Hk. split; [intros k s Hs; by exists s|].
  intros k s Hs. split; [by apply Hk|]. right. by exists k, s.
Qed.

Lemma rekeyed_trans f g m1 m2 m3 : rekeyed f m1 m2 → rekeyed g m2 m3 → rekeyed (g ∘ f) m1 m3.
Proof.
  intros [A1 A2] [B1 B2]. split.
  - intros k s (s' & Hs' & E)%A1. apply B1 in Hs' as (s'' & ? & ?).
    exists s''. split; [done|]. by eapply same_leases_trans.
  - intros k s (Hp & [Hf|(k' & s' & Hs' & <- & E)])%B2; split; auto.
    apply A2 in Hs' as (_ & [Hf|(k0 & s0 & ? & <- & ?)]).
    + left. by apply (same_leases_free s').
    + right. exists k0, s0. split; [done|]. split; [done|]. by eapply same_leases_trans.
Qed.

Lemma rekeyed_held f m m' l : rekeyed f m m' → held m l ↔ held m' l.
Proof.
  intros [H1 H2]. split.
  - intros (k & s & (s' & ? & E)%H1 & Hl). exists (f k), s'. by rewrite <- (same_leases_holds s s').
  - intros (k & s & (_ & [Hf|(k0 & s0 & ? & _ & E)])%H2 & Hl).
    + by apply lease_free_holds in Hl.
    + exists k0, s0. by rewrite (same_leases_holds s0 s).
Qed.

Lemma rekeyed_inv f m m' : rekeyed f m m' → lease_inv m → lease_inv m'.
Proof.
  intros [_ H2] I. split.
  - intros k s (? & _)%H2. done.
  - intros k s l (_ & [[Hf _]|(k0 & s0 & Hs & _ & [E _])])%H2 Hl; [congruence|].
    rewrite <- E in Hl. by apply (inv_excl _ I k0 s0).
  - intros k s i l (_ & [[_ Hf]|(k0 & s0 & Hs & _ & [_ E])])%H2 Hl.
    + by rewrite Hf in Hl.
    + rewrite <- E in Hl. by apply (inv_mon _ I k0 s0).
  - intros k1 s1 l1 k2 s2 l2 (_ & [Hf|(k3 & s3 & Hs3 & <- & E3)])%H2
      (_ & [Hf'|(k4 & s4 & Hs4 & <- & E4)])%H2 Hl1 Hl2 He;
      try (by exfalso; eapply lease_free_holds; eauto).
    rewrite <- (same_leases_holds s3 s1) in Hl1 by done.
    rewrite <- (same_leases_holds s4 s2) in Hl2 by done.
    by destruct (inv_unique _ I _ _ _ _ _ _ Hs3 Hs4 Hl1 Hl2 He) as [-> ->].
Qed.

(** Replacing a device by one with the same port and leases, or adding a
    device without leases. *)
Lemma rekeyed_insert m k s' :
  keyed m → port s' = k →
  (match m !! k with Some s => same_leases s s' | None => lease_free s' end) →
  rekeyed id m (<[k := s']> m).
Proof.
  intros Hk Hp Hs. split.
  - intros i s Hi. destruct (decide (i = k)) as [->|].
    + exists s'. rewrite lookup_insert_eq. split; [done|]. by rewrite Hi in Hs.
    + exists s. rewrite lookup_insert_ne by done. auto with fb.
  - intros i s [[<- <-]|[Hne Hi]]%lookup_insert_Some.
    + split; [done|]. destruct (m !! k) as [t|] eqn:E; [right|by left]. by exists k, t.
    + split; [by apply Hk|]. right. exists i, s. auto with fb.
Qed.

Lemma rekeyed_move m old key s s' :
  keyed m → m !! old = Some s → m !! key = None → port s' = key → same_leases s s' →
  rekeyed (λ k, if decide (k = old) then key else k) m (<[key := s']> (delete old m)).
Proof.
  intros Hk Ho Hn Hp E. split.
  - intros i t Hi. case_decide as Hio; subst.
    + exists s'. rewrite lookup_insert_eq. split; [done|]. congruence.
    + exists t. rewrite lookup_insert_ne by congruence. rewrite lookup_delete_ne by done.
      auto with fb.
  - intros i t [[<- <-]|[Hne Hi]]%lookup_insert_Some.
    + split; [done|]. right. exists old, s. by rewrite decide_True.
    + apply lookup_delete_Some in Hi as [Hio Hi]. split; [by apply Hk|].
      right. exists i, t. rewrite decide_False by done. auto with fb.
Qed.

Lemma rekeyed_imap m (g : str → DeviceState → DeviceState) :
  keyed m → (∀ k s, port (g k s) = port s ∧ same_leases s (g k s)) →
  rekeyed id m (map_imap (λ k s, Some (g k s)) m).
Proof.
  intros Hk Hg. split.
  - intros k s Hs. exists (g k s). unfold id. rewrite map_lookup_imap, Hs. split; [done|apply Hg].
  - intros k s. rewrite map_lookup_imap. intros (t & Ht & [= <-])%bind_Some.
    destruct (Hg k t) as [-> ?]. split; [by apply Hk|]. right. by exists k, t.
Qed.

Lemma rekeyed_fmap m g :
  keyed m → (∀ s, port (g s) = port s ∧ same_leases s (g s)) → rekeyed id m (g <$> m).
Proof.
  intros Hk Hg. split.
  - intros k s Hs. exists (g s). unfold id. rewrite lookup_fmap, Hs. split; [done|apply Hg].
  - intros k s. rewrite lookup_fmap. intros (t & Ht & ->)%fmap_Some.
    destruct (Hg t) as [-> ?]. split; [by apply Hk|]. right. by exists k, t.
Qed.

(** ** A refresh only moves leases *)

Lemma set_connection_same b t s : port (set_connection b t s) = port s ∧ same_leases s (set_connection b t s).
Proof. done. Qed.

Section RefreshFacts.
Context {HI : HashIter} {HIok : HashIterOk HI}.

Lemma moved_from_Some m serial k :
  moved_from m serial = Some k →
  ∃ s, m !! k = Some s ∧ serial_number s = Some serial ∧ is_connected s = false ∧
    has_tracked_serial_lease s = true.
Proof.
  unfold moved_from. intros ([k' s] & Hh & ->)%fmap_Some. simpl.
  apply head_Some_elem_of, list_elem_of_filter in Hh as [(H1 & H2 & H3) Hin].
  rewrite (hm_iter_perm m), elem_of_map_to_list in Hin. by exists s.
Qed.

Lemma refresh_entry_rekeyed now d acc :
  keyed acc.1 → rekeyed id acc.1 (refresh_entry now d acc).1.
Proof.
  intros Hk. unfold refresh_entry. simpl. apply rekeyed_insert; [done| |].
  - destruct (acc.1 !! dd_port d) as [s|] eqn:E; simpl; [by apply Hk | done].
  - by destruct (acc.1 !! dd_port d).
Qed.

Lemma refresh_device_rekeyed now acc d :
  keyed acc.1 → ∃ f, rekeyed f acc.1 (refresh_device now acc d).1.
Proof.
  intros Hk. unfold refresh_device. case_decide as Hc.
  { eexists. by apply refresh_entry_rekeyed. }
  destruct (dd_serial_number d) as [serial|]; [|eexists; by apply refresh_entry_rekeyed].
  destruct (moved_from acc.1 serial) as [old|] eqn:Hm; [|eexists; by apply refresh_entry_rekeyed].
  apply moved_from_Some in Hm as (s & Hs & _). rewrite Hs.
  eexists. apply rekeyed_move with s; try done. by apply eq_None_not_Some.
Qed.

Lemma refresh_loop_rekeyed now ds acc :
  keyed acc.1 → ∃ f, rekeyed f acc.1 (foldl (refresh_device now) acc ds).1.
Proof.
  revert acc. induction ds as [|d ds IH]; intros acc Hk; simpl.
  - exists id. by apply rekeyed_refl.
  - destruct (refresh_device_rekeyed now acc d Hk) as [f Hf].
    destruct (IH (refresh_device now acc d)) as [g Hg]; [by eapply rekeyed_keyed|].
    exists (g ∘ f). by eapply rekeyed_trans.
Qed.

Lemma stamp_disconnect_same was stamp k s :
  port (stamp_disconnect was stamp k s) = port s ∧ same_leases s (stamp_disconnect was stamp k s).
Proof. unfold stamp_disconnect. repeat case_match; done. Qed.

Lemma refresh_rekeyed now stamp ds dm :
  keyed (devices dm) →
  ∃ f, rekeyed f (devices dm) (devices (refresh_from_discovered now stamp ds dm)).
Proof.
  intros Hk. unfold refresh_from_discovered. cbn [devices].
  assert (rekeyed id (devices dm) (mark_disconnected <$> devices dm)) as H1 by by apply rekeyed_fmap.
  destruct (refresh_loop_rekeyed now ds (mark_disconnected <$> devices dm, recent_port_moves dm))
    as [f H2]; [by eapply rekeyed_keyed|].
  eexists. eapply rekeyed_trans; [exact H1|]. eapply rekeyed_trans; [exact H2|].
  apply rekeyed_imap; [by eapply rekeyed_keyed|]. intros. apply stamp_disconnect_same.
Qed.
End RefreshFacts.

(** ** Changes to one device's leases *)

(** [s'] keeps the port and holds no lease [s] does not hold, except
    possibly [new]. *)
Definition updates (new : option DeviceLease) (s s' : DeviceState) : Prop :=
  port s' = port s ∧ ∀ l, holds s' l → holds s l ∨ new = Some l.

Lemma lease_inv_update m k s s' new :
  lease_inv m → m !! k = Some s → updates new s s' →
  (∀ l, exclusive_lease s' = Some l → lease_type l = Exclusive) →
  (∀ i l, monitor_leases s' !! i = Some l → lease_id l = i ∧ lease_type l = Monitor) →
  match new with Some l => fresh_id (lease_id l) m | None => True end →
  lease_inv (<[k := s']> m).
Proof.
  intros I Hs [Hp Hh] He Hm Hf. split.
  - intros i t [[<- <-]|[_ Hi]]%lookup_insert_Some; [|by apply (inv_port _ I)].
    rewrite Hp. by apply (inv_port _ I).
  - intros i t l [[<- <-]|[_ Hi]]%lookup_insert_Some; [by apply He|by eapply (inv_excl _ I)].
  - intros i t j l [[<- <-]|[_ Hi]]%lookup_insert_Some; [by apply Hm|by eapply (inv_mon _ I)].
  - assert (∀ i t l, <[k:=s']> m !! i = Some t → holds t l →
      (∃ t0, m !! i = Some t0 ∧ holds t0 l) ∨ (i = k ∧ new = Some l)) as Hsrc.
    { intros i t l [[<- <-]|[_ Hi]]%lookup_insert_Some Hl; [|eauto].
      apply Hh in Hl as [?| ->]; eauto. }
    intros k1 s1 l1 k2 s2 l2 H1 H2 Hl1 Hl2 E.
    destruct (Hsrc _ _ _ H1 Hl1) as [(t1 & ? & ?)|[-> Hn1]],
      (Hsrc _ _ _ H2 Hl2) as [(t2 & ? & ?)|[-> Hn2]].
    + by apply (inv_unique _ I k1 t1 l1 k2 t2 l2).
    + exfalso. rewrite Hn2 in Hf. apply (Hf l1); [by exists k1, t1 | done].
    + exfalso. rewrite Hn1 in Hf. apply (Hf l2); [by exists k2, t2 | done].
    + split; [done|congruence].
Qed.

Section OperationFacts.
Context {HI : HashIter} {HIok : HashIterOk HI}.

Lemma acquire_exclusive_inv p c t tr uuid now dm :
  lease_inv (devices dm) → fresh_id uuid (devices dm) →
  lease_inv (devices (acquire_exclusive p c t tr uuid now dm).2).
Proof.
  intros I Hf. unfold acquire_exclusive. repeat case_match; try done. simpl.
  eapply lease_inv_update with (new := Some _); [done|done| | | |].
  - split; [done|]. intros l [Hl|Hl]; simpl in Hl; [right; done|left; by right].
  - intros l [= <-]. done.
  - intros i l Hl. by eapply (inv_mon _ I).
  - done.
Qed.

Lemma acquire_monitor_inv p c t tr uuid now dm :
  lease_inv (devices dm) → fresh_id uuid (devices dm) →
  lease_inv (devices (acquire_monitor p c t tr uuid now dm).2).
Proof.
  intros I Hf. unfold acquire_monitor. repeat case_match; try done. simpl.
  eapply lease_inv_update with (new := Some _); [done|done| | | |].
  - split; [done|]. intros l [Hl|Hl]; simpl in Hl; [left; by left|].
    apply lookup_insert_Some in Hl as [[_ <-]|[_ ?]]; [by right|left; by right].
  - intros l Hl. by eapply (inv_excl _ I).
  - intros i l Hl. simpl in Hl. apply lookup_insert_Some in Hl as [[<- <-]|[_ ?]]; [done|].
    by eapply (inv_mon _ I).
  - exact Hf.
Qed.

Lemma preempt_device_inv p c r uuid now dm :
  lease_inv (devices dm) → fresh_id uuid (devices dm) →
  lease_inv (devices (preempt_device p c r uuid now dm).2).
Proof.
  intros I Hf. unfold preempt_device. repeat case_match; try done. simpl.
  eapply lease_inv_update with (new := Some _); [done|done| | | |].
  - split; [done|]. intros l [Hl|Hl]; simpl in Hl; [by right|by rewrite lookup_empty in Hl].
  - intros l [= <-]. done.
  - intros i l Hl. simpl in Hl. by rewrite lookup_empty in Hl.
  - done.
Qed.

Lemma release_from_updates id s s' : release_from id s = Some s' → updates None s s' ∧
  (exclusive_lease s' = exclusive_lease s ∨ exclusive_lease s' = None) ∧
  monitor_leases s' ⊆ monitor_leases s.
Proof.
  unfold release_from. intros H.
  assert (s' = set_exclusive None s ∨ s' = set_monitors (delete id (monitor_leases s)) s) as Hs'.
  { repeat case_match; simplify_eq; auto. }
  destruct Hs' as [->| ->]; (split; [split; [done|]|split]); simpl; auto.
  - intros l [[=]|Hl]. left. by right.
  - intros l [Hl|Hl]; [left; by left|]. simpl in Hl.
    apply lookup_delete_Some in Hl as [_ Hl]. left. by right.
  - apply delete_subseteq.
Qed.

Lemma release_loop_Some id l k s' : release_loop id l = Some (k, s') →
  ∃ s, (k, s) ∈ l ∧ release_from id s = Some s'.
Proof.
  induction l as [|[k0 s0] l IH]; simpl; [done|].
  destruct (release_from id s0) eqn:E.
  - intros [= <- <-]. exists s0. split; [left|done].
  - intros (s & ? & ?)%IH. exists s. split; [by right|done].
Qed.

Lemma release_loop_None id l : release_loop id l = None ↔ ∀ k s, (k, s) ∈ l → release_from id s = None.
Proof.
  induction l as [|[k0 s0] l IH]; simpl.
  - split; [intros _ k s ?%not_elem_of_nil; done | done].
  - destruct (release_from id s0) eqn:E.
    + split; [done|]. intros H. rewrite (H k0 s0) in E by left. done.
    + rewrite IH. split.
      * intros H k s [[= -> ->]|?]%elem_of_cons; eauto.
      * intros H k s ?. apply (H k s). by right.
Qed.

Lemma hm_iter_devices (m : gmap str DeviceState) k s : (k, s) ∈ hm_iter m ↔ m !! k = Some s.
Proof. by rewrite (hm_iter_perm m), elem_of_map_to_list. Qed.

Lemma release_lease_inv id dm :
  lease_inv (devices dm) → lease_inv (devices (release_lease id dm).2).
Proof.
  intros I. unfold release_lease. destruct (release_loop _ _) as [[k s']|] eqn:E; [|done].
  apply release_loop_Some in E as (s & Hs%hm_iter_devices & (Hu & He & Hm)%release_from_updates).
  simpl. eapply lease_inv_update; [done|done|done| | |done].
  - intros l Hl. destruct He as [He|He]; rewrite He in Hl; [|done]. by eapply (inv_excl _ I).
  - intros i l Hl. eapply (inv_mon _ I); [done|]. by eapply lookup_weaken.
Qed.

Lemma release_device_leases_inv p dm :
  lease_inv (devices dm) → lease_inv (devices (release_device_leases p dm).2).
Proof.
  intros I. unfold release_device_leases. case_match; [|done]. simpl.
  eapply lease_inv_update with (new := None); [done|done| | | |done].
  - split; [done|]. intros l [[=]|Hl]. simpl in Hl. by rewrite lookup_empty in Hl.
  - done.
  - intros i l Hl. simpl in Hl. by rewrite lookup_empty in Hl.
Qed.
End OperationFacts.

(** ** All operations as steps *)

Inductive dm_op :=
  | OpRefresh (ports : option (list DetectedPort)) (now : f64) (stamp : str → Z) (done_at : Z)
  | OpTakeMoves
  | OpExclusive (p client descr : str) (track : bool) (uuid : str) (now : f64)
  | OpMonitor (p client descr : str) (track : bool) (uuid : str) (now : f64)
  | OpRelease (id : str)
  | OpReleaseAll (p : str)
  | OpPreempt (p client reason uuid : str) (now : f64)
  | OpSetTrust (p : str) (h : list ascii) (at_ : Z)
  | OpClearTrust (p : str)
  | OpCleanup.

Section Steps.
Context (online_lookup : Z → Z → option UsbInfo).
Context (kernel_class : str → option KernelDriverClass).
Context {HI : HashIter} {HIok : HashIterOk HI}.

Definition dm_run (op : dm_op) (dm : DeviceManager) : DeviceManager :=
  match op with
  | OpRefresh ports now stamp done_at =>
      refresh_devices online_lookup kernel_class ports now stamp done_at dm
  | OpTakeMoves => (take_recent_port_moves dm).2
  | OpExclusive p c t tr uuid now => (acquire_exclusive p c t tr uuid now dm).2
  | OpMonitor p c t tr uuid now => (acquire_monitor p c t tr uuid now dm).2
  | OpRelease id => (release_lease id dm).2
  | OpReleaseAll p => (release_device_leases p dm).2
  | OpPreempt p c r uuid now => (preempt_device p c r uuid now dm).2
  | OpSetTrust p h at_ => set_trusted_firmware_hash p h at_ dm
  | OpClearTrust p => clear_trusted_firmware_hash p dm
  | OpCleanup => (cleanup_stale_devices dm).2
  end.

(** Lease ids come from [Uuid::new_v4], documented to be unique. *)
Definition op_fresh (op : dm_op) (dm : DeviceManager) : Prop :=
  match op with
  | OpExclusive _ _ _ _ uuid _ | OpMonitor _ _ _ _ uuid _ | OpPreempt _ _ _ uuid _ =>
      fresh_id uuid (devices dm)
  | _ => True
  end.

Inductive reachable : DeviceManager → Prop :=
  | reach_new : reachable new_manager
  | reach_step op dm : reachable dm → op_fresh op dm → reachable (dm_run op dm).

Lemma delete_all_lookup (m : gmap str DeviceState) (ks : list str) k :
  foldl (λ m k, delete k m) m ks !! k = if decide (k ∈ ks) then None else m !! k.
Proof.
  revert m. induction ks as [|k0 ks IH]; intros m; cbn [foldl].
  - destruct (decide _) as [H|]; [by apply not_elem_of_nil in H|done].
  - rewrite IH. destruct (decide (k ∈ ks)).
    + rewrite decide_True; [done|]. by apply list_elem_of_further.
    + destruct (decide (k = k0)) as [->|].
      * rewrite lookup_delete_eq, decide_True; [done|]. apply list_elem_of_here.
      * rewrite lookup_delete_ne, decide_False; [done| |done]. by intros [|]%elem_of_cons.
Qed.

(** What is left after a cleanup. *)
Lemma cleanup_lookup dm k :
  devices (cleanup_stale_devices dm).2 !! k =
  match devices dm !! k with Some s => if is_stale s then None else Some s | None => None end.
Proof.
  unfold cleanup_stale_devices. simpl. rewrite delete_all_lookup.
  assert (k ∈ (filter (λ ks : str * DeviceState, is_stale ks.2 = true) (hm_iter (devices dm))).*1
    ↔ ∃ s, devices dm !! k = Some s ∧ is_stale s = true) as Hk.
  { rewrite list_elem_of_fmap. split.
    - intros ([k' s] & -> & [? ?%hm_iter_devices]%list_elem_of_filter). by exists s.
    - intros (s & ? & ?). exists (k, s). rewrite list_elem_of_filter.
      by rewrite hm_iter_devices. }
  case_decide as Hd.
  - apply Hk in Hd as (s & -> & ->). done.
  - destruct (devices dm !! k) as [s|]; [|done]. destruct (is_stale s) eqn:E; [|done].
    exfalso. apply Hd, Hk. by exists s.
Qed.

Lemma is_stale_lease_free s : is_stale s = true → lease_free s.
Proof.
  unfold is_stale, is_available_for_exclusive, lease_free. intros [[_ He]%andb_prop Hm]%andb_prop.
  apply bool_decide_eq_true in Hm. split; [by case_match|done].
Qed.

Lemma cleanup_inv dm : lease_inv (devices dm) → lease_inv (devices (cleanup_stale_devices dm).2).
Proof.
  intros I. assert (∀ k s, devices (cleanup_stale_devices dm).2 !! k = Some s →
    devices dm !! k = Some s) as Hsub.
  { intros k s. rewrite cleanup_lookup. case_match; [|done]. by case_match. }
  split.
  - intros k s ?%Hsub. by apply (inv_port _ I).
  - intros k s l ?%Hsub. by apply (inv_excl _ I k).
  - intros k s i l ?%Hsub. by apply (inv_mon _ I k).
  - intros k1 s1 l1 k2 s2 l2 ?%Hsub ?%Hsub. by apply (inv_unique _ I).
Qed.

Lemma set_trust_inv dm p f :
  lease_inv (devices dm) → (∀ s, port (f s) = port s ∧ same_leases s (f s)) →
  lease_inv (devices (match devices dm !! p with Some s => set_device p (f s) dm | None => dm end)).
Proof.
  intros I Hf. destruct (devices dm !! p) as [s|] eqn:E; [|done].
  apply rekeyed_inv with (f := id) (m := devices dm); [|done]. simpl.
  apply rekeyed_insert; [exact (inv_port _ I)| |by rewrite E; apply Hf].
  destruct (Hf s) as [-> _]. by apply (inv_port _ I).
Qed.

Lemma refresh_devices_rekeyed ports now stamp done_at dm : keyed (devices dm) →
  ∃ f, rekeyed f (devices dm)
    (devices (refresh_devices online_lookup kernel_class ports now stamp done_at dm)).
Proof.
  intros Hk. destruct ports as [l|]; simpl; [|eexists; by apply rekeyed_refl].
  by apply (refresh_rekeyed now stamp (discover online_lookup kernel_class <$> l) dm).
Qed.

Lemma dm_run_inv op dm :
  lease_inv (devices dm) → op_fresh op dm → lease_inv (devices (dm_run op dm)).
Proof.
  intros I Hf. destruct op; simpl.
  - destruct (refresh_devices_rekeyed ports now stamp done_at dm) as [f H]; [exact (inv_port _ I)|].
    by eapply rekeyed_inv.
  - done.
  - by apply acquire_exclusive_inv.
  - by apply acquire_monitor_inv.
  - by apply release_lease_inv.
  - by apply release_device_leases_inv.
  - by apply preempt_device_inv.
  - by apply (set_trust_inv dm p (set_trust _)).
  - by apply (set_trust_inv dm p (set_trust None)).
  - by apply cleanup_inv.
Qed.
End Steps.
