(* ===== verification/DeviceLedger.v ===== *)
(** * The lease ledger of the device manager

    An abstract account of the leases — which are alive before and after an
    operation, regardless of the device, port or slot that carries them —
    and the proof that [DeviceManager] implements it, with the theorems on
    granting, releasing and losing leases that follow. *)
From S2P Require Import Prelude RustStr DeviceManager DeviceFacts.

Section Ledger.
Context (online_lookup : Z → Z → option UsbInfo).
Context (kernel_class : str → option KernelDriverClass).
Context {HI : HashIter} {HIok : HashIterOk HI}.

(** The lease an operation hands out. *)
Definition granted (op : dm_op) (dm : DeviceManager) : option DeviceLease :=
  match op with
  | OpExclusive p c t tr uuid now =>
      match (acquire_exclusive p c t tr uuid now dm).1 with Ok l => Some l | Err _ => None end
  | OpMonitor p c t tr uuid now =>
      match (acquire_monitor p c t tr uuid now dm).1 with Ok l => Some l | Err _ => None end
  | OpPreempt p c r uuid now =>
      match (preempt_device p c r uuid now dm).1 with Ok (l, _) => Some l | Err _ => None end
  | _ => None
  end.

(** The leases an operation ends: the one released, or every lease of the
    device released or taken over. *)
Definition on_device (p : str) (dm : DeviceManager) (l : DeviceLease) : Prop :=
  ∃ s, devices dm !! p = Some s ∧ holds s l.

Definition revoked (op : dm_op) (dm : DeviceManager) (l : DeviceLease) : Prop :=
  match op with
  | OpRelease id => lease_id l = id
  | OpReleaseAll p => on_device p dm l
  | OpPreempt p _ _ _ _ => granted op dm ≠ None ∧ on_device p dm l
  | _ => False
  end.

Lemma held_insert (m : gmap str DeviceState) k s' l :
  held (<[k := s']> m) l ↔ holds s' l ∨ ∃ i t, i ≠ k ∧ m !! i = Some t ∧ holds t l.
Proof.
  unfold held. split.
  - intros (i & t & [[<- <-]|[? ?]]%lookup_insert_Some & ?); [by left|right; eauto 10].
  - intros [?|(i & t & ? & ? & ?)].
    + exists k, s'. by rewrite lookup_insert_eq.
    + exists i, t. by rewrite lookup_insert_ne.
Qed.

(** Replacing the device at [k]: the leases [gone] are those it drops,
    [new] the one it gains. *)
Lemma held_update m k s s' (new : option DeviceLease) (gone : DeviceLease → Prop) l :
  lease_inv m → m !! k = Some s →
  (holds s' l ↔ (holds s l ∧ ¬ gone l) ∨ new = Some l) →
  (gone l → ∀ i t, m !! i = Some t → holds t l → i = k) →
  held (<[k := s']> m) l ↔ (held m l ∧ ¬ gone l) ∨ new = Some l.
Proof.
  intros I Hs Hh Hg. rewrite held_insert, Hh. split.
  - intros [[[? ?]|?]|(i & t & Hi & Ht & Hl)]; [left; split; [by exists k, s|done]|by right|].
    left. split; [by exists i, t|]. intros G. by apply Hi, (Hg G i t).
  - intros [[(i & t & Ht & Hl) G]|?]; [|by left; right].
    destruct (decide (i = k)) as [->|]; [|right; eauto 10].
    left. left. assert (t = s) as -> by congruence. done.
Qed.

(** Apply [held_update] to the device [s] at [p], with the lease the goal
    grants. *)
Ltac ledger_update p s gone :=
  match goal with
  | |- context [Some ?x = Some ?l] => rewrite (held_update _ p s _ (Some x) gone)
  end.

Lemma on_device_unique dm p l i t :
  lease_inv (devices dm) → on_device p dm l → devices dm !! i = Some t → holds t l → i = p.
Proof. intros I (s & ? & ?) ? ?. by destruct (inv_unique _ I i t l p s l). Qed.

Lemma release_from_holds m k s id s' l :
  lease_inv m → m !! k = Some s → release_from id s = Some s' →
  holds s' l ↔ holds s l ∧ lease_id l ≠ id.
Proof.
  intros I Hs H. unfold release_from in H.
  assert (∀ e i x, exclusive_lease s = Some e → monitor_leases s !! i = Some x →
    lease_id e ≠ lease_id x) as Hdis.
  { intros e i x He Hx E. destruct (inv_mon _ I k s i x Hs Hx) as [<- Hm].
    destruct (inv_unique _ I k s e k s x Hs Hs) as [_ ->]; [by left|by right|done|].
    by rewrite (inv_excl _ I k s x Hs He) in Hm. }
  assert (∀ x, exclusive_lease s = Some x → lease_id x = id → s' = set_exclusive None s →
    holds s' l ↔ holds s l ∧ lease_id l ≠ id) as Hexc.
  { intros x Hx E ->. unfold holds. simpl. rewrite Hx. split.
    - intros [|Hl]; [done|]. split; [by right|]. rewrite <- E. intros E2. by eapply Hdis.
    - intros [[[= ->]|?] ?]; [done|by right]. }
  assert (∀ x, monitor_leases s !! id = Some x →
    s' = set_monitors (delete id (monitor_leases s)) s →
    holds s' l ↔ holds s l ∧ lease_id l ≠ id) as Hmon.
  { intros x Hx ->. unfold holds. simpl. split.
    - intros [Hl|[? Hl]%lookup_delete_Some]; [|split; [by right|done]].
      split; [by left|]. destruct (inv_mon _ I k s id x Hs Hx) as [<- _]. by eapply Hdis.
    - intros [[?|?] ?]; [by left|right]. by rewrite lookup_delete_ne. }
  destruct (exclusive_lease s) as [x|] eqn:Hx.
  - case_decide; [simplify_eq; by eapply Hexc|].
    case_decide as Hi; [|done]. destruct Hi. simplify_eq. by eapply Hmon.
  - case_decide as Hi; [|done]. destruct Hi. simplify_eq. by eapply Hmon.
Qed.

Lemma release_from_id m k s id s' :
  lease_inv m → m !! k = Some s → release_from id s = Some s' →
  ∃ x, holds s x ∧ lease_id x = id.
Proof.
  intros I Hs Hr. unfold release_from in Hr. unfold holds.
  repeat case_match; simplify_eq; try (by eexists; split; [by left|]);
    match goal with H : is_Some _ |- _ => destruct H as [x Hx] end;
    destruct (inv_mon _ I k s _ x Hs Hx) as [<- _]; exists x; (split; [by right|done]).
Qed.

Lemma release_from_None m k s id l :
  lease_inv m → m !! k = Some s → release_from id s = None → holds s l → lease_id l ≠ id.
Proof.
  intros I Hs H Hl <-. unfold release_from in H. destruct Hl as [Hl|Hl].
  - rewrite Hl in H. by rewrite decide_True in H.
  - rewrite Hl in H. repeat case_match; try done; by apply n0 || (apply n; eauto).
Qed.
Lemma release_held id dm l : lease_inv (devices dm) →
  held (devices (release_lease id dm).2) l ↔ held (devices dm) l ∧ lease_id l ≠ id.
Proof.
  intros I. unfold release_lease. destruct (release_loop _ _) as [[k s']|] eqn:E.
  - apply release_loop_Some in E as (s & Hs%hm_iter_devices & Hr). simpl.
    rewrite (held_update _ k s s' None (λ l, lease_id l = id)); [naive_solver|done|done| |].
    + rewrite (release_from_holds _ k s id s' l) by done. naive_solver.
    + intros G i t Hi Hl. destruct (release_from_id _ k s id s' I Hs Hr) as (x & Hx & Ex).
      destruct (inv_unique _ I i t l k s x); naive_solver.
  - simpl. rewrite release_loop_None in E. split; [|by intros []].
    intros (k & s & Hs & Hl). split; [by exists k, s|].
    eapply release_from_None; [done|done| |done]. by apply (E k), hm_iter_devices.
Qed.

Lemma acquire_exclusive_held p c t tr uuid now dm l :
  lease_inv (devices dm) → fresh_id uuid (devices dm) →
  held (devices (acquire_exclusive p c t tr uuid now dm).2) l ↔
  held (devices dm) l ∨ granted (OpExclusive p c t tr uuid now) dm = Some l.
Proof.
  intros I Hf. unfold granted, acquire_exclusive.
  destruct (devices dm !! p) as [s|] eqn:Hs; [|naive_solver].
  destruct (is_connected s); [|naive_solver]. destruct (exclusive_lease s) eqn:He; [naive_solver|].
  simpl. ledger_update p s (λ _ : DeviceLease, False); [naive_solver|done|done| |done].
  unfold holds. simpl. rewrite He. naive_solver.
Qed.

Lemma acquire_monitor_held p c t tr uuid now dm l :
  lease_inv (devices dm) → fresh_id uuid (devices dm) →
  held (devices (acquire_monitor p c t tr uuid now dm).2) l ↔
  held (devices dm) l ∨ granted (OpMonitor p c t tr uuid now) dm = Some l.
Proof.
  intros I Hf. unfold granted, acquire_monitor.
  destruct (devices dm !! p) as [s|] eqn:Hs; [|naive_solver].
  destruct (is_connected s); [|naive_solver].
  simpl. ledger_update p s (λ _ : DeviceLease, False); [naive_solver|done|done| |done].
  unfold holds. simpl. split.
  - intros [?|[[? <-]|[? ?]]%lookup_insert_Some]; naive_solver.
  - intros [[[?|Hl] _]|[= <-]]; [by left| |right; by rewrite lookup_insert_eq].
    right. rewrite lookup_insert_ne; [done|]. intros E. apply (Hf l); [|done].
    exists p, s. split; [done|by right].
Qed.

Lemma preempt_held p c r uuid now dm l :
  lease_inv (devices dm) → fresh_id uuid (devices dm) →
  held (devices (preempt_device p c r uuid now dm).2) l ↔
  (held (devices dm) l ∧ ¬ revoked (OpPreempt p c r uuid now) dm l) ∨
  granted (OpPreempt p c r uuid now) dm = Some l.
Proof.
  intros I Hf. unfold revoked, granted, preempt_device.
  case_decide; [naive_solver|].
  destruct (devices dm !! p) as [s|] eqn:Hs; [|naive_solver].
  destruct (is_connected s); [|naive_solver].
  simpl. ledger_update p s (on_device p dm); [naive_solver|done|done| |].
  - unfold holds at 1. simpl. rewrite lookup_empty. split; [naive_solver|].
    intros [[Hl Hn]|?]; [|by left]. destruct Hn. by exists s.
  - intros G i t' Hi Hl. by eapply on_device_unique.
Qed.

Lemma release_all_held p dm l : lease_inv (devices dm) →
  held (devices (release_device_leases p dm).2) l ↔
  held (devices dm) l ∧ ¬ on_device p dm l.
Proof.
  intros I. unfold release_device_leases.
  destruct (devices dm !! p) as [s|] eqn:Hs; simpl.
  - rewrite (held_update _ p s _ None (on_device p dm)); [naive_solver|done|done| |].
    + unfold holds at 1. simpl. rewrite lookup_empty. split; [naive_solver|].
      intros [[Hl Hn]|?]; [|done]. destruct Hn. by exists s.
    + intros G i t' Hi Hl. by eapply on_device_unique.
  - unfold on_device. rewrite Hs. naive_solver.
Qed.

Lemma cleanup_held dm l : held (devices (cleanup_stale_devices dm).2) l ↔ held (devices dm) l.
Proof.
  unfold held. split; intros (k & s & Hs & Hl); exists k, s; (split; [|done]).
  - rewrite cleanup_lookup in Hs. case_match; [|done]. by case_match.
  - rewrite cleanup_lookup, Hs. destruct (is_stale s) eqn:E; [|done].
    by apply is_stale_lease_free, (lease_free_holds _ l) in E.
Qed.

Lemma set_trust_held dm p (f : DeviceState → DeviceState) l :
  lease_inv (devices dm) → (∀ s, same_leases s (f s)) →
  held (devices (match devices dm !! p with Some s => set_device p (f s) dm | None => dm end)) l
  ↔ held (devices dm) l.
Proof.
  intros I Hf. destruct (devices dm !! p) as [s|] eqn:Hs; [|done]. simpl.
  rewrite (held_update _ p s _ None (λ _, False)); [naive_solver|done|done| |done].
  rewrite <- (same_leases_holds s (f s) l) by done. naive_solver.
Qed.

(** C1: the ledger. Whatever the operation and whatever it does to ports
    and devices, the leases alive after it are those alive before that it
    did not revoke, and the one it granted. *)
Theorem lease_ledger op dm : lease_inv (devices dm) → op_fresh op dm → ∀ l,
  held (devices (dm_run online_lookup kernel_class op dm)) l ↔
  (held (devices dm) l ∧ ¬ revoked op dm l) ∨ granted op dm = Some l.
Proof.
  intros I Hf l. destruct op; cbn [dm_run].
  - destruct (refresh_devices_rekeyed online_lookup kernel_class ports now stamp done_at dm)
      as [f Hr]; [exact (inv_port _ I)|].
    rewrite <- (rekeyed_held f _ _ l Hr). naive_solver.
  - naive_solver.
  - rewrite acquire_exclusive_held by done. naive_solver.
  - rewrite acquire_monitor_held by done. naive_solver.
  - rewrite release_held by done. naive_solver.
  - rewrite release_all_held by done. naive_solver.
  - by apply preempt_held.
  - unfold set_trusted_firmware_hash. rewrite (set_trust_held dm p (set_trust _)) by done. naive_solver.
  - unfold clear_trusted_firmware_hash. rewrite (set_trust_held dm p (set_trust None)) by done. naive_solver.
  - rewrite cleanup_held. naive_solver.
Qed.

(** no run of the manager ever breaks the lease invariant: each device
    sits under its own port, an exclusive slot holds an exclusive lease,
    and no lease id is held twice. *)
Theorem reachable_lease_inv dm :
  reachable online_lookup kernel_class dm → lease_inv (devices dm).
Proof.
  induction 1; [apply lease_inv_empty|]. by apply dm_run_inv.
Qed.

(** a release succeeds exactly when some device holds a lease with this
    id, and changes nothing otherwise. *)
Theorem release_lease_ok id dm : lease_inv (devices dm) →
  ((release_lease id dm).1 = Ok tt ↔ ∃ l, held (devices dm) l ∧ lease_id l = id) ∧
  (is_ok (release_lease id dm).1 = false → (release_lease id dm).2 = dm).
Proof.
  intros I. unfold release_lease. destruct (release_loop _ _) as [[k s']|] eqn:E; simpl.
  - split; [|done]. split; [|done]. intros _.
    apply release_loop_Some in E as (s & Hs%hm_iter_devices & Hr).
    destruct (release_from_id _ k s id s' I Hs Hr) as (x & ? & ?). exists x. split; [by exists k, s|done].
  - split; [|done]. split; [done|]. intros (l & (k & s & Hs & Hl) & Hi). exfalso.
    rewrite release_loop_None in E. eapply release_from_None; [done|done| |done|done].
    by apply (E k), hm_iter_devices.
Qed.

(** an exclusive request is granted exactly on a known, connected
    device without an exclusive lease; from then on every other exclusive
    request for the device is refused, naming the holder. *)
Theorem acquire_exclusive_excludes p c t tr uuid now dm :
  (is_ok (acquire_exclusive p c t tr uuid now dm).1 = true ↔
    ∃ s, devices dm !! p = Some s ∧ is_connected s = true ∧ exclusive_lease s = None) ∧
  ∀ l, (acquire_exclusive p c t tr uuid now dm).1 = Ok l →
    ∀ c' t' tr' uuid' now',
      let dm1 := (acquire_exclusive p c t tr uuid now dm).2 in
      ∃ s, devices dm !! p = Some s ∧
        acquire_exclusive p c' t' tr' uuid' now' dm1 =
          (Err (ExclusiveConflict p (device_id s) (description s) l), dm1).
Proof.
  unfold acquire_exclusive. destruct (devices dm !! p) as [s|] eqn:Hs.
  2:{ split; [|done]. split; [done|]. intros (s & ? & _). done. }
  destruct (is_connected s) eqn:Hc; simpl.
  2:{ split; [|done]. split; [done|]. intros (? & [= <-] & ? & _). congruence. }
  destruct (exclusive_lease s) as [e|] eqn:He; simpl.
  { split; [|done]. split; [done|]. intros (? & [= <-] & _ & ?). congruence. }
  split; [split; [|done]; intros _; by exists s|].
  intros l [= <-] *. exists s. split; [done|].
  rewrite lookup_insert_eq. simpl. by rewrite Hc.
Qed.
End Ledger.

(** The hash map's order never shows in what a release does. *)
Lemma release_from_unique m k1 s1 k2 s2 t1 t2 id :
  lease_inv m → m !! k1 = Some s1 → m !! k2 = Some s2 →
  release_from id s1 = Some t1 → release_from id s2 = Some t2 → k1 = k2 ∧ t1 = t2.
Proof.
  intros I H1 H2 R1 R2.
  destruct (release_from_id m k1 s1 id t1 I H1 R1) as (x1 & ? & E1).
  destruct (release_from_id m k2 s2 id t2 I H2 R2) as (x2 & ? & E2).
  destruct (inv_unique _ I k1 s1 x1 k2 s2 x2) as [<- _]; [done..|congruence|].
  split; [done|congruence].
Qed.

(** two managers that iterate their device maps in different orders
    release the same lease from the same device. *)
Theorem release_order_irrelevant (H1 H2 : HashIter) (O1 : HashIterOk H1) (O2 : HashIterOk H2) id dm :
  lease_inv (devices dm) →
  release_lease (HI := H1) id dm = release_lease (HI := H2) id dm.
Proof.
  intros I. unfold release_lease.
  destruct (release_loop id (hm_iter (HashIter := H1) (devices dm))) as [[k1 t1]|] eqn:E1;
    destruct (release_loop id (hm_iter (HashIter := H2) (devices dm))) as [[k2 t2]|] eqn:E2.
  - apply release_loop_Some in E1 as (s1 & Hs1 & R1).
    apply release_loop_Some in E2 as (s2 & Hs2 & R2).
    rewrite (hm_iter_devices (HI := H1)) in Hs1. rewrite (hm_iter_devices (HI := H2)) in Hs2.
    by destruct (release_from_unique _ k1 s1 k2 s2 t1 t2 id I Hs1 Hs2 R1 R2) as [-> ->].
  - apply release_loop_Some in E1 as (s1 & Hs1 & R1). rewrite (hm_iter_devices (HI := H1)) in Hs1.
    rewrite release_loop_None in E2. rewrite (E2 k1 s1) in R1; [done|].
    by rewrite (hm_iter_devices (HI := H2)).
  - apply release_loop_Some in E2 as (s2 & Hs2 & R2). rewrite (hm_iter_devices (HI := H2)) in Hs2.
    rewrite release_loop_None in E1. rewrite (E1 k2 s2) in R2; [done|].
    by rewrite (hm_iter_devices (HI := H1)).
  - done.
Qed.

(** ** A run of the manager *)

Definition lease_ids (s : DeviceState) : list str :=
  match exclusive_lease s with Some l => [lease_id l] | None => [] end ++
  (lease_id <$> (map_to_list (monitor_leases s)).*2).

Definition all_ids (m : gmap str DeviceState) : list str :=
  map_to_list m ≫= (λ ks, lease_ids ks.2).

Lemma fresh_id_intro (uuid : str) m : uuid ∉ all_ids m → fresh_id uuid m.
Proof.
  intros Hn l (k & s & Hs & Hl) <-. apply Hn. unfold all_ids.
  apply list_elem_of_bind. exists (k, s). rewrite elem_of_map_to_list. split; [|done].
  unfold lease_ids. apply elem_of_app. simpl. destruct Hl as [->|Hl]; [left; by apply list_elem_of_here|right].
  apply list_elem_of_fmap. exists l. split; [done|]. apply list_elem_of_fmap.
  exists (lease_id l, l). by rewrite elem_of_map_to_list.
Qed.

Definition no_names (v p : Z) : option UsbInfo := None.
Definition no_driver (p : str) : option KernelDriverClass := None.

(** [op_fresh] as a check. *)
Definition op_freshb (op : dm_op) (dm : DeviceManager) : bool :=
  match op with
  | OpExclusive _ _ _ _ uuid _ | OpMonitor _ _ _ _ uuid _ | OpPreempt _ _ _ uuid _ =>
      bool_decide (uuid ∉ all_ids (devices dm))
  | _ => true
  end.

Fixpoint run_ops (ops : list dm_op) (dm : DeviceManager) : option DeviceManager :=
  match ops with
  | [] => Some dm
  | op :: ops =>
      if op_freshb op dm then run_ops ops (dm_run no_names no_driver op dm) else None
  end.

Lemma op_freshb_ok op dm : op_freshb op dm = true → op_fresh op dm.
Proof. destruct op; simpl; try done; intros ?%bool_decide_eq_true; by apply fresh_id_intro. Qed.

Lemma run_ops_reachable ops dm dm' :
  reachable no_names no_driver dm → run_ops ops dm = Some dm' → reachable no_names no_driver dm'.
Proof.
  revert dm. induction ops as [|op ops IH]; intros dm Hr; simpl; [by intros [= <-]|].
  destruct (op_freshb op dm) eqn:E; [|done]. apply IH. apply reach_step; [done|by apply op_freshb_ok].
Qed.

Definition usb_entry (p ser : str) : DetectedPort :=
  {| port_name := p; port_type := UsbPort 9025 67 (Some ser) None; health := HealthyPresent;
     det_instance_id := None; det_parent_instance_id := None; det_location_paths := [] |}.

(** Two boards appear, one is leased, moves to another port, and is watched
    and then taken over there. *)
Definition demo_ops : list dm_op :=
  [OpRefresh (Some [usb_entry (&"COM1") (&"A"); usb_entry (&"COM2") (&"B")]) (f64_of_Z 1) (λ _, 1%Z) 1;
   OpExclusive (&"COM1") (&"ide") (&"monitor") true (&"u1") (f64_of_Z 2);
   OpRefresh (Some [usb_entry (&"COM3") (&"A"); usb_entry (&"COM2") (&"B")]) (f64_of_Z 3) (λ _, 3%Z) 3;
   OpMonitor (&"COM3") (&"cli") (&"watch") true (&"u2") (f64_of_Z 4)].

Definition demo : DeviceManager := default new_manager (run_ops demo_ops new_manager).

Definition runs_ok (ops : list dm_op) : bool :=
  match run_ops ops new_manager with Some _ => true | None => false end.

Lemma runs_ok_Some ops : runs_ok ops = true →
  run_ops ops new_manager = Some (default new_manager (run_ops ops new_manager)).
Proof. unfold runs_ok. by destruct (run_ops ops new_manager). Qed.

Lemma demo_reachable : reachable no_names no_driver demo.
Proof.
  apply (run_ops_reachable demo_ops new_manager); [apply reach_new|].
  apply runs_ok_Some. by vm_compute.
Qed.

Definition lease1 : DeviceLease :=
  {| lease_id := &"u1"; client_id := &"ide"; lease_type := Exclusive;
     lease_description := &"monitor"; acquired_at := f64_of_Z 2; track_serial := true |}.

Lemma run_ops_inv ops dm dm' :
  lease_inv (devices dm) → run_ops ops dm = Some dm' → lease_inv (devices dm').
Proof.
  revert dm. induction ops as [|op ops IH]; intros dm Hr; simpl; [by intros [= <-]|].
  destruct (op_freshb op dm) eqn:E; [|done]. apply IH. apply (dm_run_inv no_names no_driver op dm Hr). by apply op_freshb_ok.
Qed.

Lemma demo_inv : lease_inv (devices demo).
Proof.
  apply (run_ops_inv demo_ops new_manager); [apply lease_inv_empty|].
  apply runs_ok_Some. by vm_compute.
Qed.

Lemma reachable_lease_inv_witness : lease_inv (devices demo) ∧ size (devices demo) = 2.
Proof.
  split; [|by vm_compute]. apply (reachable_lease_inv no_names no_driver demo demo_reachable).
Defined.

(** The takeover of the moved board ends the lease it had at its old port. *)
Lemma lease_ledger_witness :
  let op := OpPreempt (&"COM3") (&"deployer") (&"deploy") (&"u3") (f64_of_Z 5) in
  ¬ held (devices (dm_run no_names no_driver op demo)) lease1.
Proof.
  intros op Hh. apply (lease_ledger no_names no_driver op demo demo_inv) in Hh.
  - destruct Hh as [[_ Hn]|Hg].
    + apply Hn. split; [by vm_compute|]. eexists. split; [|left]; by vm_compute.
    + by vm_compute in Hg.
  - apply op_freshb_ok. by vm_compute.
Defined.

Lemma release_lease_ok_witness : (release_lease (&"u1") demo).1 = Ok tt.
Proof.
  apply (release_lease_ok (&"u1") demo demo_inv). exists lease1. split; [|done].
  exists (&"COM3"). eexists. split; [|left]; by vm_compute.
Defined.

(** Another order of iteration. *)
Definition reversed : HashIter := λ K A _ _ m, reverse (map_to_list m).
Lemma reversed_ok : HashIterOk reversed.
Proof. intros K A ?? m. apply reverse_Permutation. Qed.

Lemma release_order_irrelevant_witness :
  release_lease (HI := map_order) (&"u2") demo = release_lease (HI := reversed) (&"u2") demo.
Proof. exact (release_order_irrelevant map_order reversed map_order_ok reversed_ok (&"u2") demo demo_inv). Defined.
