(* ===== verification/DeviceTrust.v ===== *)
(** * Refreshes, port moves and trust

    What a refresh does to the devices that hold leases, and what the daemon
    may believe about the firmware on a device: replaying the reported port
    moves finds every lease again, trust is only created by
    [set_trusted_firmware_hash], and trust that a seen disconnection has
    spoiled is never reported again. *)
From S2P Require Import Prelude RustStr DeviceManager DeviceFacts DeviceLedger.

(** ** Following the reported moves *)

(** Where a client that knew port [k] finds its device after the moves. *)
Definition follow (moves : list DevicePortMove) (k : str) : str :=
  foldl (λ k mv, if decide (k = pm_previous_port mv) then pm_port mv else k) k moves.

Lemma follow_app a b k : follow (a ++ b) k = follow b (follow a k).
Proof. apply foldl_app. Qed.

Lemma rekeyed_ext f g m m' : (∀ k, f k = g k) → rekeyed f m m' → rekeyed g m m'.
Proof.
  intros E [H1 H2]. split.
  - intros k s Hs. rewrite <- E. by apply H1.
  - intros k s (? & [?|(k0 & s0 & ? & <- & ?)])%H2; (split; [done|]); [by left|right].
    exists k0, s0. by rewrite E.
Qed.

Section Moves.
Context {HI : HashIter} {HIok : HashIterOk HI}.

Lemma refresh_device_moves now acc d : keyed acc.1 →
  ∃ new, (refresh_device now acc d).2 = acc.2 ++ new ∧
    rekeyed (follow new) acc.1 (refresh_device now acc d).1.
Proof.
  intros Hk.
  assert (∃ new, (refresh_entry now d acc).2 = acc.2 ++ new ∧
    rekeyed (follow new) acc.1 (refresh_entry now d acc).1) as He.
  { exists []. split; [by rewrite app_nil_r|]. by apply refresh_entry_rekeyed. }
  unfold refresh_device. case_decide as Hc; [done|].
  destruct (dd_serial_number d) as [serial|]; [|done].
  destruct (moved_from acc.1 serial) as [old|] eqn:Hm; [|done].
  apply moved_from_Some in Hm as (s & Hs & _). rewrite Hs.
  eexists. split; [done|]. simpl. apply rekeyed_move with s; try done. by apply eq_None_not_Some.
Qed.

Lemma refresh_loop_moves now ds acc : keyed acc.1 →
  ∃ new, (foldl (refresh_device now) acc ds).2 = acc.2 ++ new ∧
    rekeyed (follow new) acc.1 (foldl (refresh_device now) acc ds).1.
Proof.
  revert acc. induction ds as [|d ds IH]; intros acc Hk; simpl.
  - exists []. split; [by rewrite app_nil_r|]. by apply rekeyed_refl.
  - destruct (refresh_device_moves now acc d Hk) as (n1 & E1 & H1).
    destruct (IH (refresh_device now acc d)) as (n2 & E2 & H2); [by eapply rekeyed_keyed|].
    exists (n1 ++ n2). split; [by rewrite E2, E1, app_assoc|].
    eapply rekeyed_ext; [|by eapply rekeyed_trans]. intros k. by rewrite follow_app.
Qed.

Lemma refresh_keeps_leases now stamp ds dm : lease_inv (devices dm) →
  ∃ new, recent_port_moves (refresh_from_discovered now stamp ds dm) = recent_port_moves dm ++ new ∧
    ∀ k s, devices dm !! k = Some s →
      ∃ s', devices (refresh_from_discovered now stamp ds dm) !! follow new k = Some s' ∧
        exclusive_lease s' = exclusive_lease s ∧ monitor_leases s' = monitor_leases s.
Proof.
  intros I. unfold refresh_from_discovered. cbn [devices recent_port_moves].
  assert (rekeyed id (devices dm) (mark_disconnected <$> devices dm)) as H1
    by (apply rekeyed_fmap; [exact (inv_port _ I)|done]).
  destruct (refresh_loop_moves now ds (mark_disconnected <$> devices dm, recent_port_moves dm))
    as (new & E & H2); [by eapply rekeyed_keyed|].
  exists new. split; [done|]. intros k s Hs.
  assert (rekeyed id (foldl (refresh_device now)
      (mark_disconnected <$> devices dm, recent_port_moves dm) ds).1
    (map_imap (λ k s, Some (stamp_disconnect (devices dm) stamp k s)) (foldl (refresh_device now)
      (mark_disconnected <$> devices dm, recent_port_moves dm) ds).1)) as H3.
  { apply rekeyed_imap; [by eapply rekeyed_keyed|]. intros. apply stamp_disconnect_same. }
  destruct (rekeyed_trans _ _ _ _ _ H1 (rekeyed_trans _ _ _ _ _ H2 H3)) as [Hm _].
  destruct (Hm k s Hs) as (s' & Hs' & [E1 E2]). by exists s'.
Qed.

(** a refresh reports enough: it appends to the recorded moves, and a
    client that replays the appended ones from the port of its device finds
    a device there with the same exclusive and monitor leases. *)
Theorem refresh_moves_complete now stamp ds dm : lease_inv (devices dm) →
  ∃ new, recent_port_moves (refresh_from_discovered now stamp ds dm) = recent_port_moves dm ++ new ∧
    ∀ k s, devices dm !! k = Some s →
      ∃ s', devices (refresh_from_discovered now stamp ds dm) !! follow new k = Some s' ∧
        exclusive_lease s' = exclusive_lease s ∧ monitor_leases s' = monitor_leases s.
Proof. apply refresh_keeps_leases. Qed.
End Moves.

(** The demonstration's second enumeration finds board A on another port. *)
Definition demo_before : DeviceManager := default new_manager (run_ops (take 2 demo_ops) new_manager).
Definition demo_scan : list DiscoveredDevice :=
  discover no_names no_driver <$> [usb_entry (&"COM3") (&"A"); usb_entry (&"COM2") (&"B")].
Definition demo_after : DeviceManager :=
  refresh_from_discovered (f64_of_Z 3) (λ _, 3%Z) demo_scan demo_before.

Lemma demo_before_inv : lease_inv (devices demo_before).
Proof.
  apply (run_ops_inv (take 2 demo_ops) new_manager); [apply lease_inv_empty|].
  apply runs_ok_Some. by vm_compute.
Qed.

Lemma refresh_moves_complete_witness :
  ∃ s, devices demo_after !! &"COM3" = Some s ∧ exclusive_lease s = Some lease1.
Proof.
  destruct (refresh_moves_complete (f64_of_Z 3) (λ _, 3%Z) demo_scan demo_before demo_before_inv)
    as (new & E & H).
  assert (recent_port_moves demo_after = [{| pm_previous_port := &"COM1"; pm_port := &"COM3";
    pm_serial_number := Some (&"A") |}]) as E' by by vm_compute.
  assert (recent_port_moves demo_before = []) as E0 by by vm_compute.
  unfold demo_after in E'. rewrite E, E0 in E'. cbn [app] in E'. subst new.
  assert (∃ s, devices demo_before !! &"COM1" = Some s ∧ exclusive_lease s = Some lease1) as (s & Hs & Hl).
  { apply bind_Some. by vm_compute. }
  destruct (H _ s Hs) as (s' & Hs' & He & _). exists s'. split; [exact Hs'|]. by rewrite He.
Defined.

(** ** Where trust comes from *)

(** Every trusted hash of [m'] is one of [m], with the same last
    disconnection. *)
Definition trust_from (m m' : gmap str DeviceState) : Prop :=
  ∀ k s t, m' !! k = Some s → trusted_firmware s = Some t →
    ∃ k0 s0, m !! k0 = Some s0 ∧ trusted_firmware s0 = Some t ∧
      last_disconnect_at s0 = last_disconnect_at s.

Lemma trust_from_refl m : trust_from m m.
Proof. intros k s t ??. by exists k, s. Qed.

Lemma trust_from_trans m1 m2 m3 : trust_from m1 m2 → trust_from m2 m3 → trust_from m1 m3.
Proof.
  intros H1 H2 k s t Hs Ht. destruct (H2 k s t Hs Ht) as (k1 & s1 & Hs1 & Ht1 & <-).
  by apply (H1 k1).
Qed.

Lemma trust_from_sub (m m' : gmap str DeviceState) : m' ⊆ m → trust_from m m'.
Proof. intros Hs k s t ? ?. exists k, s. split; [|done]. by eapply lookup_weaken. Qed.

Lemma trust_from_insert m k s' :
  (∀ t, trusted_firmware s' = Some t → ∃ k0 s0, m !! k0 = Some s0 ∧ trusted_firmware s0 = Some t ∧
      last_disconnect_at s0 = last_disconnect_at s') →
  trust_from m (<[k := s']> m).
Proof. intros H i s t [[<- <-]|[_ ?]]%lookup_insert_Some Ht; [by apply H|by exists i, s]. Qed.

(** An update of a known device that keeps or drops its trust. *)
Lemma trust_from_update m k s s' :
  m !! k = Some s → (trusted_firmware s' = trusted_firmware s ∨ trusted_firmware s' = None) →
  last_disconnect_at s' = last_disconnect_at s → trust_from m (<[k := s']> m).
Proof.
  intros Hs [E|E] Ed; apply trust_from_insert; intros t Ht; rewrite E in Ht; [|done].
  by exists k, s.
Qed.

Lemma trust_from_fmap m (g : DeviceState → DeviceState) :
  (∀ s, trusted_firmware (g s) = trusted_firmware s ∧ last_disconnect_at (g s) = last_disconnect_at s) →
  trust_from m (g <$> m).
Proof.
  intros Hg k s t. rewrite lookup_fmap. intros (s0 & Hs & ->)%fmap_Some Ht.
  destruct (Hg s0) as [E1 E2]. exists k, s0. by rewrite <- E1, E2.
Qed.

#[export] Hint Resolve trust_from_refl : fb.

Section TrustFacts.
Context (online_lookup : Z → Z → option UsbInfo).
Context (kernel_class : str → option KernelDriverClass).
Context {HI : HashIter} {HIok : HashIterOk HI}.

Lemma refresh_entry_trust now d acc : trust_from acc.1 (refresh_entry now d acc).1.
Proof.
  unfold refresh_entry. simpl. apply trust_from_insert. intros t Ht. simpl in Ht |- *.
  destruct (acc.1 !! dd_port d) as [s|] eqn:E; simpl in Ht |- *; [by exists (dd_port d), s|done].
Qed.

Lemma refresh_device_trust now acc d : trust_from acc.1 (refresh_device now acc d).1.
Proof.
  unfold refresh_device. case_decide; [apply refresh_entry_trust|].
  destruct (dd_serial_number d); [|apply refresh_entry_trust].
  destruct (moved_from acc.1 _) as [old|]; [|apply refresh_entry_trust].
  destruct (acc.1 !! old) as [s|] eqn:E.
  - cbn [fst]. intros k s1 t [[<- <-]|[_ [_ ?]%lookup_delete_Some]]%lookup_insert_Some Ht;
      [by exists old, s|by exists k, s1].
  - eapply trust_from_trans; [|apply refresh_entry_trust].
    apply trust_from_sub, delete_subseteq.
Qed.

Lemma refresh_loop_trust now ds acc : trust_from acc.1 (foldl (refresh_device now) acc ds).1.
Proof.
  revert acc. induction ds as [|d ds IH]; intros acc; simpl; [auto with fb|].
  eapply trust_from_trans; [apply refresh_device_trust|apply IH].
Qed.

(** Every insertion of the loop is of a connected device, so a device that
    comes out disconnected was not touched. *)
Lemma refresh_loop_disconnected now ds acc k s :
  (foldl (refresh_device now) acc ds).1 !! k = Some s → is_connected s = false →
  acc.1 !! k = Some s.
Proof.
  revert acc. induction ds as [|d ds IH]; intros acc; simpl; [done|].
  intros H Hc. apply IH in H; [|done]. revert H. clear IH. unfold refresh_device, refresh_entry.
  repeat case_match; simpl; intros [[<- <-]|[_ Hk]]%lookup_insert_Some; try done;
    by apply lookup_delete_Some in Hk as [_ ?].
Qed.

(** A device of the refreshed map: its trust comes from a device of the old
    map, whose last disconnection it keeps unless it is stamped. *)
Lemma refresh_trust now stamp ds dm k s t :
  devices (refresh_from_discovered now stamp ds dm) !! k = Some s → trusted_firmware s = Some t →
  ∃ k0 s0, devices dm !! k0 = Some s0 ∧ trusted_firmware s0 = Some t ∧
    (last_disconnect_at s = last_disconnect_at s0 ∨ last_disconnect_at s = Some (stamp k)).
Proof.
  unfold refresh_from_discovered. cbn [devices]. rewrite map_lookup_imap.
  intros (s1 & Hs1 & [= <-])%bind_Some Ht.
  assert (trusted_firmware s1 = Some t) as Ht1.
  { revert Ht. unfold stamp_disconnect. repeat case_match; done. }
  apply (refresh_loop_trust _ _ _ k s1 t Hs1) in Ht1 as (k0 & s0 & Hs0 & Ht0 & E0).
  simpl in Hs0. rewrite lookup_fmap in Hs0. apply fmap_Some in Hs0 as (s2 & Hs2 & ->).
  exists k0, s2. split; [done|]. split; [done|]. simpl in E0.
  unfold stamp_disconnect. repeat case_match; simpl; auto.
Qed.

Definition sets_trust (op : dm_op) (t : TrustedFirmwareHash) : Prop :=
  match op with OpSetTrust _ h at_ => t = {| hash := h; set_at := at_ |} | _ => False end.

(** Every operation but a refresh and a setting of the hash only moves or
    drops trust. *)
Lemma dm_run_trust op dm k s t :
  devices (dm_run online_lookup kernel_class op dm) !! k = Some s → trusted_firmware s = Some t →
  sets_trust op t ∨
  ∃ k0 s0, devices dm !! k0 = Some s0 ∧ trusted_firmware s0 = Some t ∧
    (last_disconnect_at s = last_disconnect_at s0 ∨
     ∃ ports now stamp done_at, op = OpRefresh ports now stamp done_at ∧
       last_disconnect_at s = Some (stamp k)).
Proof.
  intros Hs Ht.
  assert (trust_from (devices dm) (devices (dm_run online_lookup kernel_class op dm)) → 
    ∃ k0 s0, devices dm !! k0 = Some s0 ∧ trusted_firmware s0 = Some t ∧
    (last_disconnect_at s = last_disconnect_at s0 ∨
     ∃ ports now stamp done_at, op = OpRefresh ports now stamp done_at ∧
       last_disconnect_at s = Some (stamp k))) as Hfrom.
  { intros H. destruct (H k s t Hs Ht) as (k0 & s0 & ? & ? & <-). exists k0, s0. auto. }
  destruct op; cbn [dm_run] in Hs.
  - right. destruct ports as [l|]; simpl in Hs.
    + destruct (refresh_trust _ _ _ _ _ _ _ Hs Ht) as (k0 & s0 & ? & ? & H).
      exists k0, s0. split; [done|]. split; [done|]. destruct H as [?|?]; [by left|right].
      by exists (Some l), now, stamp, done_at.
    + apply Hfrom. apply trust_from_refl.
  - right. apply Hfrom. apply trust_from_refl.
  - right. apply Hfrom. simpl. unfold acquire_exclusive. repeat case_match; try apply trust_from_refl.
    all: eapply trust_from_update; [done|auto|auto].
  - right. apply Hfrom. simpl. unfold acquire_monitor. repeat case_match; try apply trust_from_refl.
    all: eapply trust_from_update; [done|auto|auto].
  - right. apply Hfrom. simpl. unfold release_lease.
    destruct (release_loop _ _) as [[k1 s1]|] eqn:E; [|auto with fb].
    apply release_loop_Some in E as (s0 & Hs0%hm_iter_devices & Hr). simpl.
    eapply trust_from_update; [done| |]; unfold release_from in Hr; repeat case_match; simplify_eq; auto.
  - right. apply Hfrom. simpl. unfold release_device_leases. repeat case_match; try apply trust_from_refl.
    all: eapply trust_from_update; [done|auto|auto].
  - right. apply Hfrom. simpl. unfold preempt_device. repeat case_match; try apply trust_from_refl.
    all: eapply trust_from_update; [done|auto|auto].
  - unfold set_trusted_firmware_hash in Hs. destruct (devices dm !! p) as [s0|] eqn:E; [|right; eauto 10].
    simpl in Hs. apply lookup_insert_Some in Hs as [[<- <-]|[_ Hs]]; [|right; eauto 10].
    left. by injection Ht as <-.
  - right. apply Hfrom. simpl. unfold clear_trusted_firmware_hash.
    destruct (devices dm !! p) as [s0|] eqn:E; [|auto with fb]. simpl.
    eapply trust_from_update; [done|auto|auto].
  - right. exists k, s. rewrite cleanup_lookup in Hs.
    destruct (devices dm !! k) as [s0|]; [|done]. destruct (is_stale s0); [done|].
    simplify_eq. auto.
Qed.

(** [t] can no longer be reported: whatever device carries it was seen
    disconnected after [t] was set. *)
Definition dead (t : TrustedFirmwareHash) (m : gmap str DeviceState) : Prop :=
  ∀ k s, m !! k = Some s → trusted_firmware s = Some t →
    ∃ d, last_disconnect_at s = Some d ∧ (set_at t < d)%Z.

(** [Instant]s do not decrease: a refresh stamps no earlier than any
    disconnection already recorded. *)
Definition clock_ok (op : dm_op) (dm : DeviceManager) : Prop :=
  match op with
  | OpRefresh _ _ stamp _ => ∀ k k0 s0 d,
      devices dm !! k0 = Some s0 → last_disconnect_at s0 = Some d → (d ≤ stamp k)%Z
  | _ => True
  end.

Inductive later (t : TrustedFirmwareHash) : DeviceManager → DeviceManager → Prop :=
  | later_refl dm : later t dm dm
  | later_step dm op dm' : later t dm dm' → clock_ok op dm' → ¬ sets_trust op t →
      later t dm (dm_run online_lookup kernel_class op dm').

Lemma dead_step t op dm : dead t (devices dm) → clock_ok op dm → ¬ sets_trust op t →
  dead t (devices (dm_run online_lookup kernel_class op dm)).
Proof.
  intros Hd Hc Hn k s Hs Ht.
  apply dm_run_trust with (t := t) in Hs as [?|(k0 & s0 & Hs0 & Ht0 & H)]; [done| |done].
  destruct (Hd k0 s0 Hs0 Ht0) as (d & Ed & Hlt).
  destruct H as [->|(ports & now & stamp & done_at & -> & ->)]; [by exists d|].
  exists (stamp k). split; [done|]. pose proof (Hc k k0 s0 d Hs0 Ed). lia.
Qed.

Lemma dead_untrusted t s : trusted_firmware s = Some t →
  (∃ d, last_disconnect_at s = Some d ∧ (set_at t < d)%Z) → trusted_hash_of s = None.
Proof.
  intros Ht (d & Ed & Hlt). unfold trusted_hash_of. destruct (negb _); [done|].
  rewrite Ht. simpl. rewrite Ed. by rewrite (proj2 (Z.ltb_lt _ _) Hlt).
Qed.

(** C32: a disconnection that a refresh sees ends trust for good. If every
    device that carries [t] was connected before the refresh and is
    disconnected after it, and [t] was set before the stamps, then no port
    reports [t] ever again, whatever refreshes, leases and cleanups follow,
    until it is set anew. *)
Theorem disconnect_ends_trust now stamp ds dm t dm2 :
  let dm1 := refresh_from_discovered now stamp ds dm in
  (∀ k s, devices dm !! k = Some s → trusted_firmware s = Some t →
    is_connected s = true ∧ (set_at t < stamp k)%Z) →
  (∀ k s, devices dm1 !! k = Some s → trusted_firmware s = Some t → is_connected s = false) →
  later t dm1 dm2 →
  ∀ p s, devices dm2 !! p = Some s → trusted_firmware s = Some t →
    trusted_firmware_hash p dm2 = None.
Proof.
  intros dm1 Hb Ha Hl p s Hs Ht. unfold trusted_firmware_hash. rewrite Hs. simpl.
  eapply dead_untrusted; [done|]. revert p s Hs Ht. change (dead t (devices dm2)).
  assert (dead t (devices dm1)) as Hd.
  { intros k s Hs Ht. pose proof (Ha k s Hs Ht) as Hf. revert Hs. unfold dm1, refresh_from_discovered.
    cbn [devices]. rewrite map_lookup_imap. intros (s1 & Hs1 & [= <-])%bind_Some.
    assert (is_connected s1 = false ∧ trusted_firmware s1 = Some t) as [Hf1 Ht1].
    { revert Hf Ht. unfold stamp_disconnect. by repeat case_match. }
    apply refresh_loop_disconnected in Hs1; [|done]. simpl in Hs1.
    rewrite lookup_fmap in Hs1. apply fmap_Some in Hs1 as (s0 & Hs0 & ->).
    destruct (Hb k s0 Hs0 Ht1) as [Hc0 Hlt]. exists (stamp k). split; [|done].
    unfold stamp_disconnect. rewrite Hs0, Hc0. done. }
  clear Hb Ha. induction Hl as [|dm0 op dm3 Hl IH Hc Hn]; [done|]. apply dead_step; auto.
Qed.

Inductive run : list dm_op → DeviceManager → DeviceManager → Prop :=
  | run_nil dm : run [] dm dm
  | run_snoc ops op dm dm' : run ops dm dm' →
      run (ops ++ [op]) dm (dm_run online_lookup kernel_class op dm').

(** trust is never made up: a hash that a port reports after any run
    of a new manager was set by a [set_trusted_firmware_hash] of the run. *)
Theorem trust_was_set ops dm p h :
  run ops new_manager dm → trusted_firmware_hash p dm = Some h →
  ∃ q at_, OpSetTrust q h at_ ∈ ops.
Proof.
  intros Hr Hh.
  assert (∃ s t, devices dm !! p = Some s ∧ trusted_firmware s = Some t ∧ hash t = h) as (s & t & Hs & Ht & <-).
  { unfold trusted_firmware_hash in Hh. apply bind_Some in Hh as (s & Hs & Hh). exists s.
    unfold trusted_hash_of in Hh. destruct (negb _); [done|].
    apply bind_Some in Hh as (t & Ht & Hh). exists t. repeat case_match; naive_solver. }
  clear Hh. revert p s Hs Ht. remember new_manager as dm0 eqn:E0.
  induction Hr as [dm'|ops op dm' dm'' Hr IH]; intros p s Hs Ht; subst.
  - simpl in Hs. by rewrite lookup_empty in Hs.
  - apply dm_run_trust with (t := t) in Hs as [Hset|(k0 & s0 & Hs0 & Ht0 & _)]; [| |done].
    + destruct op; try done. simpl in Hset. subst t. exists p0, at_. apply elem_of_app. right.
      by apply list_elem_of_here.
    + destruct (IH eq_refl k0 s0 Hs0 Ht0) as (q & a & Hin). exists q, a. apply elem_of_app. by left.
Qed.
End TrustFacts.

Definition trusting (ops : list dm_op) : DeviceManager :=
  foldl (λ dm op, dm_run no_names no_driver op dm) new_manager ops.

Definition refresh_at (ports : list DetectedPort) (n : Z) : dm_op :=
  OpRefresh (Some ports) (f64_of_Z n) (λ _, n) n.

Definition unplug_ops : list dm_op :=
  [refresh_at [usb_entry (&"COM1") (&"A")] 1; OpSetTrust (&"COM1") (&"hash") 2].

Lemma trust_was_set_witness : ∃ q at_, OpSetTrust q (&"hash") at_ ∈ unplug_ops.
Proof.
  apply (trust_was_set no_names no_driver unplug_ops (trusting unplug_ops) (&"COM1") (&"hash"));
    [|by vm_compute].
  unfold trusting, unplug_ops. cbn [foldl].
  apply (run_snoc _ _ [refresh_at [usb_entry (&"COM1") (&"A")] 1]).
  apply (run_snoc _ _ []). apply run_nil.
Defined.

(** The board is unplugged at 3 and back at 4. *)
Definition t2 : TrustedFirmwareHash := {| hash := &"hash"; set_at := 2 |}.

Lemma disconnect_ends_trust_witness :
  let back := dm_run no_names no_driver (refresh_at [usb_entry (&"COM1") (&"A")] 4)
    (refresh_from_discovered (f64_of_Z 3) (λ _, 3%Z) [] (trusting unplug_ops)) in
  trusted_firmware_hash (&"COM1") (trusting unplug_ops) = Some (&"hash") ∧
  trusted_firmware_hash (&"COM1") back = None.
Proof.
  intros back. split; [by vm_compute|].
  destruct (devices back !! &"COM1") as [s|] eqn:Hs; [|by vm_compute in Hs].
  assert (trusted_firmware s = Some t2) as Ht.
  { assert ((devices back !! &"COM1") ≫= trusted_firmware = Some t2) as Hx by by vm_compute.
    by rewrite Hs in Hx. }
  refine (disconnect_ends_trust no_names no_driver (f64_of_Z 3) (λ _, 3%Z) [] (trusting unplug_ops)
    t2 back _ _ _ (&"COM1") s Hs Ht).
  - assert (map_Forall (λ (_ : str) s, trusted_firmware s = Some t2 → is_connected s = true ∧ (2 < 3)%Z)
      (devices (trusting unplug_ops))) as HF by (apply (bool_decide_unpack _); by vm_compute).
    exact HF.
  - assert (map_Forall (λ (_ : str) s, trusted_firmware s = Some t2 → is_connected s = false)
      (devices (refresh_from_discovered (f64_of_Z 3) (λ _, 3%Z) [] (trusting unplug_ops)))) as HF
      by (apply (bool_decide_unpack _); by vm_compute).
    exact HF.
  - apply later_step; [apply later_refl| |by intros []].
    cbn [clock_ok refresh_at]. intros k k0 s0 d Hk0 E.
    assert (default 0 (last_disconnect_at s0) ≤ 4)%Z as H.
    { assert (map_Forall (λ (_ : str) s, (default 0 (last_disconnect_at s) ≤ 4)%Z)
        (devices (refresh_from_discovered (f64_of_Z 3) (λ _, 3%Z) [] (trusting unplug_ops)))) as HF
        by (apply (bool_decide_unpack _); by vm_compute).
      by apply (HF k0 s0). }
    by rewrite E in H.
Defined.

(** Finding: a device that re-enumerates on another port within one refresh
    was disconnected — the hash was set for the board at COM1 — but is never
    stamped, so the daemon goes on trusting the hash at the new port. *)
Definition leased_ops : list dm_op :=
  [refresh_at [usb_entry (&"COM1") (&"A")] 1;
   OpExclusive (&"COM1") (&"ide") (&"monitor") true (&"u1") (f64_of_Z 2);
   OpSetTrust (&"COM1") (&"hash") 2].

Lemma moved_device_keeps_trust :
  trusted_firmware_hash (&"COM3")
    (refresh_from_discovered (f64_of_Z 3) (λ _, 3%Z)
      (discover no_names no_driver <$> [usb_entry (&"COM3") (&"A")]) (trusting leased_ops)) = Some (&"hash").
Proof. by vm_compute. Qed.
