(* ===== verification/SerialReader.v ===== *)
(** * The background reader of [fbuild-serial/src/manager.rs]

    What the reader task does with the bytes of one [read]: lossy UTF-8
    decoding, splitting the accumulated text into lines, and the capped
    output buffer it shares with the manager. *)
From S2P Require Import Prelude RustStr.

(** ** Lines *)

Definition OUTPUT_BUFFER_CAP : nat := N.to_nat 10000.
Lemma OUTPUT_BUFFER_CAP_pos : 0 < OUTPUT_BUFFER_CAP.
Proof. unfold OUTPUT_BUFFER_CAP. lia. Qed.
#[global] Opaque OUTPUT_BUFFER_CAP.
Definition READ_BUF_SIZE : Z := 4096.
Definition BROADCAST_CHANNEL_SIZE : Z := 1024.

Record PortOutputBuffer := {
  buffer : list str;
  total_bytes_read : Z;
  last_read_at_ms : Z;
}.

Definition new_buffer : PortOutputBuffer :=
  {| buffer := []; total_bytes_read := 0; last_read_at_ms := 0 |}.

(** [if ob.len() >= OUTPUT_BUFFER_CAP { ob.pop_front() }; ob.push_back(line)] *)
Definition push_line (ob : list str) (line : str) : list str :=
  (if decide (OUTPUT_BUFFER_CAP ≤ length ob) then tail ob else ob) ++ [line].

(** [while let Some(newline_pos) = partial_line.find('\n')]: the lines to
    send, in order, and the partial line that is left. *)
Fixpoint drain_lines (fuel : nat) (partial : str) : list str * str :=
  match fuel with
  | O => ([], partial)
  | S n =>
      match find_char nl partial with
      | None => ([], partial)
      | Some i =>
          let line := trim_end (take i partial) in
          let '(ls, rest) := drain_lines n (drop (S i) partial) in
          (if decide (line = []) then ls else line :: ls, rest)
      end
  end.

(** One [read] of [n > 0] bytes [data] at [ms]: the lines it sends, the new
    partial line and the port buffer. *)
Definition read_data (data : str) (ms : Z) (partial : str) (pb : PortOutputBuffer) :
    list str * str * PortOutputBuffer :=
  let partial := partial ++ from_utf8_lossy data in
  let '(ls, rest) := drain_lines (S (length partial)) partial in
  (ls, rest,
   {| buffer := foldl push_line (buffer pb) ls;
      total_bytes_read := (total_bytes_read pb + Z.of_nat (length data)) mod 2 ^ 64;
      last_read_at_ms := ms |}).

(** Successive reads. *)
Fixpoint read_all (reads : list (str * Z)) (partial : str) (pb : PortOutputBuffer) :
    list str * str * PortOutputBuffer :=
  match reads with
  | [] => ([], partial, pb)
  | (data, ms) :: reads =>
      let '(ls, partial, pb) := read_data data ms partial pb in
      let '(ls', partial, pb) := read_all reads partial pb in
      (ls ++ ls', partial, pb)
  end.

Example read_demo :
  (read_all [(&"boot: o", 5%Z); (&"k" ++ [cr; nl; nl] ++ &"tem", 6%Z); (&"p=3" ++ [nl], 7%Z)] [] new_buffer).1.1
    = [&"boot: ok"; &"temp=3"].
Proof. by vm_compute. Qed.

(** ** The lines are a function of the text *)

(** The reference: pieces between newlines, without trailing white space and
    without empty ones; the last piece is not a line yet. *)
Definition text_lines (text : str) : list str :=
  filter (λ l, l ≠ []) (trim_end <$> removelast (split_on nl text)).
Definition text_rest (text : str) : str := List.last (split_on nl text) [].

Lemma split_on_sep c w s : c ∉ w → split_on c (w ++ c :: s) = w :: split_on c s.
Proof.
  intros Hw. unfold split_on. rewrite split_by_sep; [done| |by apply bool_decide_eq_true].
  apply Forall_forall. intros x Hx. apply bool_decide_eq_false. by intros ->.
Qed.

Lemma split_on_clean c w : c ∉ w → split_on c w = [w].
Proof.
  intros Hw. apply split_by_clean. apply Forall_forall. intros x Hx.
  apply bool_decide_eq_false. by intros ->.
Qed.

Lemma text_lines_cons w s : nl ∉ w →
  text_lines (w ++ nl :: s) = (if decide (trim_end w = []) then [] else [trim_end w]) ++ text_lines s.
Proof.
  intros Hw. unfold text_lines. rewrite split_on_sep by done. cbn [removelast].
  destruct (split_on nl s) as [|x l] eqn:E; [by apply split_by_nonnil in E|].
  rewrite fmap_cons, filter_cons. destruct (decide (trim_end w = [])), (decide (trim_end w ≠ [])); done.
Qed.

Lemma text_rest_cons w s : nl ∉ w → text_rest (w ++ nl :: s) = text_rest s.
Proof.
  intros Hw. unfold text_rest. rewrite split_on_sep by done.
  destruct (split_on nl s) as [|x l] eqn:E; [by apply split_by_nonnil in E|done].
Qed.

Lemma text_clean w : nl ∉ w → text_lines w = [] ∧ text_rest w = w.
Proof. intros Hw. unfold text_lines, text_rest. by rewrite split_on_clean. Qed.

Lemma drain_lines_spec n partial : length partial < n →
  drain_lines n partial = (text_lines partial, text_rest partial).
Proof.
  revert partial. induction n as [|n IH]; intros p Hn; [lia|]. cbn [drain_lines].
  destruct (find_char nl p) as [i|] eqn:E.
  - apply find_char_Some in E as [Hp Hi].
    assert (length (drop (S i) p) < n) as Hd.
    { rewrite Hp, length_app in Hn. cbn [length] in Hn. lia. }
    rewrite (IH _ Hd). set (w := take i p) in *. set (s := drop (S i) p) in *.
    clearbody w s. subst p. rewrite text_lines_cons, text_rest_cons by done.
    by destruct (decide _).
  - apply find_char_None in E. by destruct (text_clean p E) as [-> ->].
Qed.

(** Text that arrives in two parts: the rest of the first is prepended to
    the second. *)
Lemma text_app n p q : length p < n →
  text_lines (p ++ q) = text_lines p ++ text_lines (text_rest p ++ q) ∧
  text_rest (p ++ q) = text_rest (text_rest p ++ q).
Proof.
  revert p. induction n as [|n IH]; intros p Hn; [lia|].
  destruct (find_char nl p) as [i|] eqn:E.
  - apply find_char_Some in E as [Hp Hi].
    assert (length (drop (S i) p) < n) as Hd.
    { rewrite Hp, length_app in Hn. cbn [length] in Hn. lia. }
    destruct (IH _ Hd) as [IH1 IH2]. set (w := take i p) in *. set (s := drop (S i) p) in *.
    clearbody w s. subst p. rewrite <- app_assoc. cbn [app].
    rewrite !text_lines_cons, !text_rest_cons by done.
    by rewrite IH1, IH2, app_assoc.
  - apply find_char_None in E. destruct (text_clean p E) as [-> ->]. done.
Qed.

(** ** The capped buffer *)

Definition last_n {A} (n : nat) (l : list A) : list A := drop (length l - n) l.

Lemma last_n_short {A} n (l : list A) : length l ≤ n → last_n n l = l.
Proof. intros H. unfold last_n. by replace (length l - n) with 0 by lia. Qed.

Lemma last_n_length {A} n (l : list A) : length (last_n n l) ≤ n.
Proof. unfold last_n. rewrite length_drop. lia. Qed.

Lemma last_n_app {A} n (l k : list A) : last_n n (last_n n l ++ k) = last_n n (l ++ k).
Proof.
  unfold last_n. rewrite !length_app, length_drop.
  destruct (decide (length l ≤ n)).
  - replace (length l - n) with 0 by lia. by rewrite drop_0, Nat.sub_0_r.
  - replace (l ++ k) with (take (length l - n) l ++ drop (length l - n) l ++ k)
      by (by rewrite app_assoc, take_drop).
    rewrite (drop_app_ge (take _ _)) by (rewrite length_take; lia).
    rewrite length_take. f_equal; lia.
Qed.

Lemma push_line_last ob line :
  length ob ≤ OUTPUT_BUFFER_CAP → push_line ob line = last_n OUTPUT_BUFFER_CAP (ob ++ [line]).
Proof.
  generalize OUTPUT_BUFFER_CAP_pos. intros Hp H. unfold push_line, last_n. rewrite length_app. cbn [length].
  case_decide.
  - replace (length ob + 1 - OUTPUT_BUFFER_CAP) with 1 by lia.
    destruct ob as [|x ob]; [cbn [length] in *; lia|]. cbn. by rewrite drop_0.
  - by replace (length ob + 1 - OUTPUT_BUFFER_CAP) with 0 by lia.
Qed.

Lemma push_lines_last ls ob :
  length ob ≤ OUTPUT_BUFFER_CAP → foldl push_line ob ls = last_n OUTPUT_BUFFER_CAP (ob ++ ls).
Proof.
  revert ob. induction ls as [|l ls IH]; intros ob H; cbn [foldl].
  - by rewrite app_nil_r, last_n_short.
  - rewrite push_line_last by done. rewrite IH by apply last_n_length.
    by rewrite last_n_app, <- app_assoc.
Qed.

(** ** Reading in chunks *)

(** What the buffer of a port holds after [ls], and its byte counter after
    [bytes] more. *)
Lemma read_all_spec reads p pb :
  Forall (λ r, decoded r.1) reads → length (buffer pb) ≤ OUTPUT_BUFFER_CAP →
  let text := p ++ mjoin reads.*1 in
  let '(ls, rest, pb') := read_all reads p pb in
  ls = match reads with [] => [] | _ => text_lines text end ∧
  rest = match reads with [] => p | _ => text_rest text end ∧
  buffer pb' = last_n OUTPUT_BUFFER_CAP (buffer pb ++ ls) ∧
  total_bytes_read pb' = match reads with [] => total_bytes_read pb
    | _ => ((total_bytes_read pb + Z.of_nat (length (mjoin reads.*1))) mod 2 ^ 64)%Z end.
Proof.
  revert p pb. induction reads as [|[d ms] reads IH]; intros p pb Hd Hb; cbn zeta.
  { cbn. rewrite app_nil_r. by rewrite last_n_short. }
  apply Forall_cons in Hd as [Hd Hds]. cbn [read_all].
  destruct (read_data d ms p pb) as [[ls p1] pb1] eqn:E.
  unfold read_data in E. rewrite (Hd : from_utf8_lossy d = d) in E.
  rewrite drain_lines_spec in E by lia. injection E as <- <- <-.
  match goal with |- context [read_all reads ?q ?b] => specialize (IH q b Hds); set (pb1 := b) in * end.
  cbn zeta in IH. destruct (read_all reads (text_rest (p ++ d)) pb1) as [[ls' rest'] pb'].
  assert (length (buffer pb1) ≤ OUTPUT_BUFFER_CAP) as Hb1.
  { unfold pb1. cbn [buffer]. rewrite push_lines_last by done. apply last_n_length. }
  destruct (IH Hb1) as (-> & -> & Ebuf & Etot). clear IH.
  assert (buffer pb1 = last_n OUTPUT_BUFFER_CAP (buffer pb ++ text_lines (p ++ d))) as E1
    by (unfold pb1; cbn [buffer]; by rewrite push_lines_last).
  change (mjoin ((d, ms) :: reads).*1) with (d ++ mjoin reads.*1). rewrite app_assoc.
  destruct (text_app (S (length (p ++ d))) (p ++ d) (mjoin reads.*1)) as [T1 T2]; [lia|].
  destruct reads as [|r reads].
  - cbn in *. rewrite !app_nil_r in *. split; [done|]. split; [done|]. split.
    + rewrite Ebuf, E1. apply last_n_short, last_n_length.
    + rewrite Etot. done.
  - split; [done|]. split; [done|]. split.
    + rewrite Ebuf, E1, last_n_app. by rewrite <- app_assoc.
    + rewrite Etot. unfold pb1. cbn [total_bytes_read]. rewrite length_app, Nat2Z.inj_add.
      rewrite Zplus_mod_idemp_l. f_equal. lia.
Qed.

(** the reader is insensitive to how the bytes arrive. However well-formed
    text is cut into reads, the lines sent are those of the whole text —
    trimmed at the end, empty ones left out — in order, the unfinished rest
    is kept for later, the output buffer holds the last [OUTPUT_BUFFER_CAP]
    lines and the byte counter is exact modulo [2^64]. *)
Theorem reader_chunking reads p pb ls rest pb' :
  reads ≠ [] → Forall (λ r, decoded r.1) reads → length (buffer pb) ≤ OUTPUT_BUFFER_CAP →
  read_all reads p pb = (ls, rest, pb') →
  let text := p ++ mjoin reads.*1 in
  ls = text_lines text ∧ rest = text_rest text ∧
  buffer pb' = last_n OUTPUT_BUFFER_CAP (buffer pb ++ ls) ∧ length (buffer pb') ≤ OUTPUT_BUFFER_CAP ∧
  total_bytes_read pb' = ((total_bytes_read pb + Z.of_nat (length (mjoin reads.*1))) mod 2 ^ 64)%Z.
Proof.
  intros Hn Hd Hb E text. pose proof (read_all_spec reads p pb Hd Hb) as H.
  cbn zeta in H. rewrite E in H. destruct H as (H1 & H2 & H3 & H4).
  destruct reads; [done|]. split_and!; try done. rewrite H3. apply last_n_length.
Qed.

Lemma reader_chunking_witness :
  ∃ pb, read_all [(&"boot: o", 5%Z); (&"k" ++ [cr; nl; nl] ++ &"tem", 6%Z)] (&"re") new_buffer
    = ([&"reboot: ok"], &"tem", pb) ∧ buffer pb = [&"reboot: ok"] ∧ total_bytes_read pb = 14%Z.
Proof.
  set (reads := [(&"boot: o", 5%Z); (&"k" ++ [cr; nl; nl] ++ &"tem", 6%Z)]).
  destruct (read_all reads (&"re") new_buffer) as [[ls rest] pb] eqn:E.
  destruct (reader_chunking reads (&"re") new_buffer ls rest pb) as (-> & -> & Hb & _ & Ht).
  - done.
  - repeat constructor; by vm_compute.
  - unfold new_buffer. cbn. lia.
  - exact E.
  - exists pb. split; [by vm_compute|]. split; [|by rewrite Ht; vm_compute].
    rewrite Hb. rewrite last_n_short; [by vm_compute|].
    pose proof OUTPUT_BUFFER_CAP_pos. by vm_compute (length _).
Defined.

(** Finding: decoding each read on its own breaks a character that straddles
    two reads.  The bytes of [é] sent in one read arrive; cut after the first
    byte they become two replacement characters. *)
Definition e_acute : str := [byte_of 195; byte_of 169].

Lemma split_character_lost :
  (read_all [(e_acute ++ [nl], 0%Z)] [] new_buffer).1.1 = [e_acute] ∧
  (read_all [([byte_of 195], 0%Z); ([byte_of 169; nl], 0%Z)] [] new_buffer).1.1
    = [replacement ++ replacement].
Proof. split; by vm_compute. Qed.
