(* ===== verification/SerialManager.v ===== *)
(** * [fbuild-serial/src/manager.rs], [session.rs] and [preemption.rs]

    The daemon's serial port manager.  The shared objects behind [Arc]s —
    stop flags, broadcast channels, output buffers, reader tasks — live in
    stores and are referred to by number, so sessions and readers alias them
    as in the program.

    An [async fn] is one definition per stretch between suspension points;
    what it awaits (the operating system opening a port, a write, a reader
    task ending, a sleep) is an argument of the next stretch.  A stretch is
    taken to be atomic. *)
From S2P Require Import Prelude RustStr SerialReader.
From stdpp Require Import pretty sorting.

(** ** Data *)

Record SerialClientMetadata := {
  md_pid : option Z; md_exe : option str; md_cwd : option str; md_argv : option (list str) }.

Inductive SerialStreamEvent :=
  | Data (line : str)
  | PortDisconnected (port reason message : str)
  | PortRenumbered (port new_port reason : str) (serial : option str)
  | PortReattached (port previous_port : str)
  | PortRebindFailed (port new_port reason message : str).

(** An open handle of the operating system. *)
Record Handle := { h_id : nat; h_port : str; h_baud : Z }.

Record SerialSession := MkSession {
  port : str;
  baud_rate : Z;
  is_open : bool;
  writer_client_id : option str;
  reader_client_ids : gset str;
  output_buffer : list str;
  session_bytes_read : Z;
  total_bytes_written : Z;
  started_at : f64;
  last_activity_at : f64;
  last_write_at : option f64;
  owner_client_id : option str;
  client_metadata : gmap str SerialClientMetadata;
  elf_path : option str;
  serial_handle : option Handle;
  reader_handle : option nat;
  stop_flag : nat;
}.

Record PreemptionInfo := { pre_reason : str; preempted_by : str; pre_started_at : Z }.

(** A broadcast channel: the events sent while it had receivers, and how many
    receivers it has. *)
Record Chan := { sent : list SerialStreamEvent; receivers : nat }.

(** A background reader and the objects it holds. *)
Record ReaderTask := {
  rt_stop : nat; rt_tx : nat; rt_buf : nat; rt_handle : nat; rt_port : str;
  rt_partial : str; rt_running : bool }.

(** The manager's maps, then the stores. *)
Record SharedSerialManager {D : Type} := MkManager {
  sessions : gmap str SerialSession;
  port_aliases : gmap str str;
  broadcasters : gmap str nat;
  close_generations : gmap str Z;
  preempted_ports : gmap str PreemptionInfo;
  crash_decoders : gmap str D;
  output_buffers : gmap str nat;
  flags : gmap nat bool;
  chans : gmap nat Chan;
  bufs : gmap nat PortOutputBuffer;
  readers : gmap nat ReaderTask;
  next : nat;
}.
Arguments SharedSerialManager : clear implicits.
Arguments MkManager {D}.

Definition new_serial_manager {D} : SharedSerialManager D :=
  MkManager ∅ ∅ ∅ ∅ ∅ ∅ ∅ ∅ ∅ ∅ ∅ 0.

(** ** Field updates *)

Definition set_client (writer : option str) (readers : gset str) (s : SerialSession) : SerialSession :=
  MkSession (port s) (baud_rate s) (is_open s) writer readers (output_buffer s)
    (session_bytes_read s) (total_bytes_written s) (started_at s) (last_activity_at s)
    (last_write_at s) (owner_client_id s) (client_metadata s) (elf_path s) (serial_handle s)
    (reader_handle s) (stop_flag s).
Definition set_writer (w : option str) (s : SerialSession) := set_client w (reader_client_ids s) s.
Definition set_readers (r : gset str) (s : SerialSession) := set_client (writer_client_id s) r s.

Definition touch (now : f64) (s : SerialSession) : SerialSession :=
  MkSession (port s) (baud_rate s) (is_open s) (writer_client_id s) (reader_client_ids s)
    (output_buffer s) (session_bytes_read s) (total_bytes_written s) (started_at s) now
    (last_write_at s) (owner_client_id s) (client_metadata s) (elf_path s) (serial_handle s)
    (reader_handle s) (stop_flag s).

(** [if let Some(metadata) = client_metadata { .. insert .. }] *)
Definition add_metadata (client : str) (md : option SerialClientMetadata) (s : SerialSession) :
    SerialSession :=
  MkSession (port s) (baud_rate s) (is_open s) (writer_client_id s) (reader_client_ids s)
    (output_buffer s) (session_bytes_read s) (total_bytes_written s) (started_at s)
    (last_activity_at s) (last_write_at s) (owner_client_id s)
    (match md with Some md => <[client := md]> (client_metadata s) | None => client_metadata s end)
    (elf_path s) (serial_handle s) (reader_handle s) (stop_flag s).

Definition count_write (n : Z) (now : f64) (s : SerialSession) : SerialSession :=
  MkSession (port s) (baud_rate s) (is_open s) (writer_client_id s) (reader_client_ids s)
    (output_buffer s) (session_bytes_read s) ((total_bytes_written s + n) mod 2 ^ 64)%Z
    (started_at s) now (Some now) (owner_client_id s) (client_metadata s) (elf_path s)
    (serial_handle s) (reader_handle s) (stop_flag s).

(** The session's physical side. *)
Definition set_physical (p : str) (opened : bool) (h : option Handle) (r : option nat) (stop : nat)
    (s : SerialSession) : SerialSession :=
  MkSession p (baud_rate s) opened (writer_client_id s) (reader_client_ids s)
    (output_buffer s) (session_bytes_read s) (total_bytes_written s) (started_at s)
    (last_activity_at s) (last_write_at s) (owner_client_id s) (client_metadata s) (elf_path s)
    h r stop.

Section Setters.
Context {D : Type}.
Implicit Types m : SharedSerialManager D.

Definition set_sessions v m := MkManager v (port_aliases m) (broadcasters m) (close_generations m)
  (preempted_ports m) (crash_decoders m) (output_buffers m) (flags m) (chans m) (bufs m) (readers m) (next m).
Definition set_aliases v m := MkManager (sessions m) v (broadcasters m) (close_generations m)
  (preempted_ports m) (crash_decoders m) (output_buffers m) (flags m) (chans m) (bufs m) (readers m) (next m).
Definition set_broadcasters v m := MkManager (sessions m) (port_aliases m) v (close_generations m)
  (preempted_ports m) (crash_decoders m) (output_buffers m) (flags m) (chans m) (bufs m) (readers m) (next m).
Definition set_generations v m := MkManager (sessions m) (port_aliases m) (broadcasters m) v
  (preempted_ports m) (crash_decoders m) (output_buffers m) (flags m) (chans m) (bufs m) (readers m) (next m).
Definition set_preempted v m := MkManager (sessions m) (port_aliases m) (broadcasters m)
  (close_generations m) v (crash_decoders m) (output_buffers m) (flags m) (chans m) (bufs m) (readers m) (next m).
Definition set_decoders (v : gmap str D) m := MkManager (sessions m) (port_aliases m) (broadcasters m)
  (close_generations m) (preempted_ports m) v (output_buffers m) (flags m) (chans m) (bufs m) (readers m) (next m).
Definition set_buffers v m := MkManager (sessions m) (port_aliases m) (broadcasters m)
  (close_generations m) (preempted_ports m) (crash_decoders m) v (flags m) (chans m) (bufs m) (readers m) (next m).
Definition set_flags v m := MkManager (sessions m) (port_aliases m) (broadcasters m)
  (close_generations m) (preempted_ports m) (crash_decoders m) (output_buffers m) v (chans m) (bufs m) (readers m) (next m).
Definition set_chans v m := MkManager (sessions m) (port_aliases m) (broadcasters m)
  (close_generations m) (preempted_ports m) (crash_decoders m) (output_buffers m) (flags m) v (bufs m) (readers m) (next m).
Definition set_bufs v m := MkManager (sessions m) (port_aliases m) (broadcasters m)
  (close_generations m) (preempted_ports m) (crash_decoders m) (output_buffers m) (flags m) (chans m) v (readers m) (next m).
Definition set_tasks v m := MkManager (sessions m) (port_aliases m) (broadcasters m)
  (close_generations m) (preempted_ports m) (crash_decoders m) (output_buffers m) (flags m) (chans m) (bufs m) v (next m).
Definition set_next v m := MkManager (sessions m) (port_aliases m) (broadcasters m)
  (close_generations m) (preempted_ports m) (crash_decoders m) (output_buffers m) (flags m) (chans m) (bufs m) (readers m) v.

(** [sessions.get_mut(key)] and an update. *)
Definition with_session (key : str) (f : SerialSession → SerialSession) m :=
  set_sessions (alter f key (sessions m)) m.

(** ** Keys and generations *)

Definition resolve_port_key (p : str) m : str := default p (port_aliases m !! p).

(** [u64] addition; the release profile wraps. *)
Definition bump_close_generation (p : str) m : Z * SharedSerialManager D :=
  let g := ((default 0 (close_generations m !! p) + 1) mod 2 ^ 64)%Z in
  (g, set_generations (<[p := g]> (close_generations m)) m).

Definition bump (p : str) m : SharedSerialManager D := (bump_close_generation p m).2.

Definition close_generation (p : str) m : option Z := close_generations m !! p.

Definition remove_aliases_for_session (key : str) m :=
  set_aliases (filter (λ a : str * str, a.2 ≠ key) (port_aliases m)) m.

Definition has_clients (p : str) m : bool :=
  match sessions m !! resolve_port_key p m with
  | Some s => negb (bool_decide (reader_client_ids s = ∅)) || bool_decide (is_Some (writer_client_id s))
  | None => false
  end.

Definition reader_count (p : str) m : nat :=
  match sessions m !! resolve_port_key p m with Some s => size (reader_client_ids s) | None => 0 end.

(** ** Channels *)

(** [tx.send(event)]: fails when there is no receiver. *)
Definition send (ch : nat) (e : SerialStreamEvent) m : bool * SharedSerialManager D :=
  match chans m !! ch with
  | Some c =>
      if decide (receivers c = 0) then (false, m)
      else (true, set_chans (<[ch := {| sent := sent c ++ [e]; receivers := receivers c |}]> (chans m)) m)
  | None => (false, m)
  end.

Definition send_ (ch : nat) (e : SerialStreamEvent) m := (send ch e m).2.

(** [tx.subscribe()], and the drop of a receiver. *)
Definition subscribe (ch : nat) m :=
  set_chans (alter (λ c, {| sent := sent c; receivers := S (receivers c) |}) ch (chans m)) m.
Definition drop_receiver (ch : nat) m :=
  set_chans (alter (λ c, {| sent := sent c; receivers := pred (receivers c) |}) ch (chans m)) m.

Definition attach_reader (p client : str) (md : option SerialClientMetadata) (now : f64) m :
    option nat * SharedSerialManager D :=
  let key := resolve_port_key p m in
  match broadcasters m !! key with
  | None => (None, m)
  | Some tx =>
      let m := subscribe tx m in
      match sessions m !! key with
      | None => (Some tx, m)
      | Some _ =>
          (Some tx, bump key (with_session key (λ s,
             add_metadata client md (set_readers ({[client]} ∪ reader_client_ids s) (touch now s))) m))
      end
  end.

Definition detach_reader (p client : str) (now : f64) m :=
  with_session (resolve_port_key p m)
    (λ s, touch now (set_readers (reader_client_ids s ∖ {[client]}) s)) m.

Definition notify_port_renumbered (old_port new_port reason : str) (serial : option str) m :
    bool * SharedSerialManager D :=
  let key := resolve_port_key old_port m in
  match broadcasters m !! key with
  | None => (false, m)
  | Some tx =>
      let '(a, m) := send tx (PortRenumbered key new_port reason serial) m in
      let '(b, m) := send tx (PortReattached new_port old_port) m in
      (a || b, m)
  end.

Definition notify_port_rebind_failed (old_port new_port reason message : str) m :
    bool * SharedSerialManager D :=
  let key := resolve_port_key old_port m in
  match broadcasters m !! key with
  | None => (false, m)
  | Some tx => send tx (PortRebindFailed key new_port reason message) m
  end.

(** ** The writer *)

Definition acquire_writer (p client : str) (now : f64) m : result str unit * SharedSerialManager D :=
  let key := resolve_port_key p m in
  match sessions m !! key with
  | None => (Err (&"port " ++ p ++ &" not open"), m)
  | Some s =>
      match writer_client_id s with
      | Some _ => (Err (&"port " ++ p ++ &" already has an exclusive writer"), m)
      | None => (Ok tt, bump key (with_session key (λ s, touch now (set_writer (Some client) s)) m))
      end
  end.

Definition release_writer (p client : str) (now : f64) m :=
  with_session (resolve_port_key p m)
    (λ s, if decide (writer_client_id s = Some client) then touch now (set_writer None s) else s) m.

(** [write_to_port] up to the blocking write: the session key and the handle
    written to. *)
Definition write_check (p client : str) m : result str (str * Handle) :=
  let key := resolve_port_key p m in
  match sessions m !! key with
  | None => Err (&"port " ++ p ++ &" not open")
  | Some s =>
      if decide (writer_client_id s = Some client) then
        match serial_handle s with
        | None => Err (&"port " ++ p ++ &" has no serial handle")
        | Some h => Ok (key, h)
        end
      else Err (&"client " ++ client ++ &" does not hold writer lock on " ++ p)
  end.

(** How the spawned write ended: within the two seconds or not. *)
Inductive io_outcome :=
  | IoDone
  | IoFailed (msg : str)
  | IoPanicked (err : str)
  | IoTimedOut.

Definition write_finish (p key : str) (len : Z) (o : io_outcome) (now : f64) m :
    result str Z * SharedSerialManager D :=
  match o with
  | IoTimedOut => (Err (&"write to " ++ p ++ &" timed out after 2s"), m)
  | IoFailed msg => (Err msg, m)
  | IoPanicked e => (Err (&"write task panicked on " ++ p ++ &": " ++ e), m)
  | IoDone => (Ok len, with_session key (count_write len now) m)
  end.

Definition esp_hard_reset_check (p client : str) m : result str Handle :=
  match sessions m !! resolve_port_key p m with
  | None => Err (&"port " ++ p ++ &" not open")
  | Some s =>
      if decide (owner_client_id s = Some client) then
        match serial_handle s with
        | None => Err (&"port " ++ p ++ &" has no serial handle")
        | Some h => Ok h
        end
      else Err (&"client " ++ client ++ &" does not own " ++ p ++ &" (cannot issue ESP hard-reset)")
  end.

Definition esp_hard_reset_finish (p : str) (o : io_outcome) : result str unit :=
  match o with
  | IoTimedOut => Err (&"esp_hard_reset on " ++ p ++ &" timed out after 3s")
  | IoDone => Ok tt
  | IoFailed e => Err (&"esp_hard_reset on " ++ p ++ &": " ++ e)
  | IoPanicked e => Err (&"esp_hard_reset task panicked on " ++ p ++ &": " ++ e)
  end.
End Setters.

(** ** Opening *)

(** One attempt of the blocking pool to open the port: the handle, the
    error, or the panic. *)
Inductive open_result :=
  | Opened (h : nat)
  | OpenFailed (e : str)
  | OpenPanicked (e : str).

Definition backoff_schedule : list Z := [250; 500; 1000; 2000; 3000]%Z.
Definition backoff (attempt : nat) : Z :=
  nth (Nat.min attempt (length backoff_schedule - 1)) backoff_schedule 0%Z.
Definition max_retries (is_windows : bool) : nat := if is_windows then 8 else 6.

(** [for attempt in 0..max_retries]: the handle if one attempt succeeded, the
    last error, and the milliseconds slept. [n] attempts are left. *)
Fixpoint open_loop (outcome : nat → open_result) (n attempt : nat) (last_err : str) :
    option nat * str * Z :=
  match n with
  | O => (None, last_err, 0%Z)
  | S n' =>
      match outcome attempt with
      | Opened h => (Some h, last_err, 0%Z)
      | OpenFailed e =>
          let '(r, le, t) := open_loop outcome n' (S attempt) e in (r, le, (backoff attempt + t)%Z)
      | OpenPanicked e =>
          let '(r, le, t) := open_loop outcome n' (S attempt) (&"open task panicked: " ++ e) in
          (r, le, (backoff attempt + t)%Z)
      end
  end.

Definition show_nat (n : nat) : str := list_ascii_of_string (pretty n).

Definition open_failed (p : str) (retries : nat) (last_err : str) : str :=
  &"failed to open " ++ p ++ &" after " ++ show_nat retries ++ &" attempts: " ++ last_err.

Definition open_physical_serial (is_windows : bool) (p : str) (outcome : nat → open_result) :
    result str nat * Z :=
  let '(r, e, t) := open_loop outcome (max_retries is_windows) 0 [] in
  (match r with Some h => Ok h | None => Err (open_failed p (max_retries is_windows) e) end, t).

Section Operations.
Context {D : Type}.
Implicit Types m : SharedSerialManager D.

(** A stop flag, a channel, a buffer and a reader on the handle [h]. *)
Definition fresh_reader (stop tx buf : nat) (p : str) (h : nat) : ReaderTask :=
  {| rt_stop := stop; rt_tx := tx; rt_buf := buf; rt_handle := h; rt_port := p;
     rt_partial := []; rt_running := true |}.

(** [SerialSession::new]; its flag is replaced at once. *)
Definition new_session (p : str) (baud : Z) (now : f64) (stop : nat) : SerialSession :=
  MkSession p baud false None ∅ [] 0 0 now now None None ∅ None None None stop.

(** The assignments [open_port] makes to the new session. *)
Definition opened (client : str) (md : option SerialClientMetadata) (h : Handle) (rd stop : nat)
    (now : f64) (s : SerialSession) : SerialSession :=
  add_metadata client md
    (MkSession (port s) (baud_rate s) true (writer_client_id s) (reader_client_ids s)
      (output_buffer s) (session_bytes_read s) (total_bytes_written s) now now
      (last_write_at s) (Some client) (client_metadata s) (elf_path s) (Some h) (Some rd) stop).

(** [open_port] up to the first attempt: [true] when the port is open
    already. *)
Definition open_check (p client : str) (md : option SerialClientMetadata) (now : f64) m :
    bool * SharedSerialManager D :=
  let key := resolve_port_key p m in
  match sessions m !! key with
  | Some s =>
      if is_open s then
        (true, bump key (with_session key (λ s, add_metadata client md (touch now s)) m))
      else (false, m)
  | None => (false, m)
  end.

(** The arm [Ok(serial)]: everything is inserted under the name asked for. *)
Definition open_success (p : str) (baud : Z) (client : str) (md : option SerialClientMetadata)
    (h : nat) (now : f64) m : SharedSerialManager D :=
  let stop := next m in let tx := S stop in let buf := S tx in let rd := S buf in
  let m := set_next (S rd) m in
  let m := set_flags (<[stop := false]> (flags m)) m in
  let m := set_chans (<[tx := {| sent := []; receivers := 0 |}]> (chans m)) m in
  let m := set_broadcasters (<[p := tx]> (broadcasters m)) m in
  let m := set_bufs (<[buf := new_buffer]> (bufs m)) m in
  let m := set_buffers (<[p := buf]> (output_buffers m)) m in
  let m := set_tasks (<[rd := fresh_reader stop tx buf p h]> (readers m)) m in
  let handle := {| h_id := h; h_port := p; h_baud := baud |} in
  let s := opened client md handle rd stop now (new_session p baud now stop) in
  bump p (set_sessions (<[p := s]> (sessions m)) m).

Definition open_finish (is_windows : bool) (p : str) (baud : Z) (client : str)
    (md : option SerialClientMetadata) (outcome : nat → open_result) (now : f64) m :
    result str unit * SharedSerialManager D :=
  match open_loop outcome (max_retries is_windows) 0 [] with
  | (Some h, _, _) => (Ok tt, open_success p baud client md h now m)
  | (None, e, _) => (Err (open_failed p (max_retries is_windows) e), m)
  end.

(** [open_port] when nothing else runs while it waits; [now] and [now'] are
    the clock before and after. *)
Definition open_port (is_windows : bool) (p : str) (baud : Z) (client : str)
    (md : option SerialClientMetadata) (outcome : nat → open_result) (now now' : f64) m :
    result str unit * SharedSerialManager D :=
  let '(already, m) := open_check p client md now m in
  if already then (Ok tt, m) else open_finish is_windows p baud client md outcome now' m.

(** ** Closing *)

(** [close_port] up to the wait for the reader: the key, and the session
    taken out of the map if there was one. *)
Definition close_begin (p : str) m : str * option SerialSession * SharedSerialManager D :=
  let key := resolve_port_key p m in
  let m := bump key m in
  match sessions m !! key with
  | Some s => (key, Some s, set_flags (<[stop_flag s := true]> (flags m)) (set_sessions (delete key (sessions m)) m))
  | None => (key, None, m)
  end.

Definition close_end (key : str) m : SharedSerialManager D :=
  let m := set_broadcasters (delete key (broadcasters m)) m in
  let m := set_buffers (delete key (output_buffers m)) m in
  let m := set_generations (delete key (close_generations m)) m in
  remove_aliases_for_session key m.

(** [close_port] suspends only to wait for a reader. *)
Definition close_waits (taken : option SerialSession) : bool :=
  match taken with Some s => bool_decide (is_Some (reader_handle s)) | None => false end.

Definition close_port (p : str) m : SharedSerialManager D :=
  let '(key, _, m) := close_begin p m in close_end key m.

(** [None]: the close is stale and skipped. *)
Definition close_port_if_generation (p : str) (expected : option Z) m :
    option (str * option SerialSession) * SharedSerialManager D :=
  let key := resolve_port_key p m in
  if decide (close_generation key m = expected) then
    let '(k, taken, m) := close_begin p m in (Some (k, taken), m)
  else (None, m).

(** [close_port_after_grace_if_idle]: the key and generation its timer
    remembers. *)
Definition grace_schedule (p : str) m : option (str * Z) * SharedSerialManager D :=
  let key := resolve_port_key p m in
  if has_clients key m || negb (bool_decide (is_Some (sessions m !! key))) then (None, m)
  else let '(g, m) := bump_close_generation key m in (Some (key, g), m).

(** The timer after its sleep: the close it starts, if any. *)
Definition grace_fire (key : str) (g : Z) m :
    option (str * option SerialSession) * SharedSerialManager D :=
  if negb (bool_decide (close_generation key m = Some g)) || has_clients key m then (None, m)
  else let '(k, taken, m) := close_begin key m in (Some (k, taken), m).

(** ** Preemption *)

Definition preempt (p reason by_ : str) (at_ : Z) m :=
  set_preempted (<[p := {| pre_reason := reason; preempted_by := by_; pre_started_at := at_ |}]>
    (preempted_ports m)) m.

Definition preempt_for_deploy (p reason by_ : str) (at_ : Z) m :
    option (str * option SerialSession) * SharedSerialManager D :=
  let key := resolve_port_key p m in
  let generation := close_generation key m in
  close_port_if_generation key generation (preempt key reason by_ at_ m).

Definition clear_preemption (p : str) m :=
  set_preempted (delete (resolve_port_key p m) (preempted_ports m)) m.

Definition is_preempted (p : str) m : bool :=
  bool_decide (is_Some (preempted_ports m !! resolve_port_key p m)).

(** ** Rebinding a session to the port its device moved to *)

(** Up to the opening of [new_port]: the key and the baud rate. *)
Definition rebind_check (old_port : str) m : option (str * Z) :=
  let key := resolve_port_key old_port m in
  match sessions m !! key, broadcasters m !! key with
  | Some s, Some _ => Some (key, baud_rate s)
  | _, _ => None
  end.

(** [rebind_port_session_to_handle] up to the wait for the old reader: the
    channel and the buffer the new reader will use. *)
Definition rebind_begin (key : str) m : option (nat * nat) * SharedSerialManager D :=
  match broadcasters m !! key with
  | None => (None, m)
  | Some tx =>
      let '(buf, m) :=
        match output_buffers m !! key with
        | Some buf => (buf, m)
        | None =>
            let buf := next m in
            (buf, set_buffers (<[key := buf]> (output_buffers m))
                    (set_bufs (<[buf := new_buffer]> (bufs m)) (set_next (S buf) m)))
        end in
      match sessions m !! key with
      | None => (None, m)
      | Some s =>
          (Some (tx, buf),
           with_session key (λ s, set_physical (port s) (is_open s) (serial_handle s) None (stop_flag s) s)
             (set_flags (<[stop_flag s := true]> (flags m)) m))
      end
  end.

Definition rebind_end (key new_port reason : str) (serial : option str) (h : Handle) (tx buf : nat) m :
    SharedSerialManager D :=
  let stop := next m in let rd := S stop in
  let m := set_next (S rd) m in
  let m := set_flags (<[stop := false]> (flags m)) m in
  let m := set_tasks (<[rd := fresh_reader stop tx buf key (h_id h)]> (readers m)) m in
  let m := with_session key (set_physical new_port true (Some h) (Some rd) stop) m in
  let m := set_aliases (<[new_port := key]> (port_aliases m)) m in
  let m := bump key m in
  let m := send_ tx (PortRenumbered key new_port reason serial) m in
  send_ tx (PortReattached new_port key) m.

(** ** The reader task *)

Inductive read_result :=
  | ReadBytes (data : str)
  | ReadTimeout
  | ReadError (message : str).

Definition set_reader (rd : nat) (partial : str) (running : bool) m :=
  set_tasks (alter (λ r, {| rt_stop := rt_stop r; rt_tx := rt_tx r; rt_buf := rt_buf r;
    rt_handle := rt_handle r; rt_port := rt_port r; rt_partial := partial;
    rt_running := running |}) rd (readers m)) m.

(** One turn of [while !stop_clone.load()]; [read] is what the handle
    returns. [ReadBytes] has at least one byte. *)
Definition reader_turn (rd : nat) (read : read_result) (ms : Z) m : SharedSerialManager D :=
  match readers m !! rd with
  | None => m
  | Some r =>
      if negb (rt_running r) then m
      else if default false (flags m !! rt_stop r) then set_reader rd (rt_partial r) false m
      else
        match read with
        | ReadTimeout => m
        | ReadError message =>
            set_reader rd (rt_partial r) false
              (send_ (rt_tx r) (PortDisconnected (rt_port r) (&"read_error") message) m)
        | ReadBytes data =>
            let '(ls, partial, pb) :=
              read_data data ms (rt_partial r) (default new_buffer (bufs m !! rt_buf r)) in
            let m := foldl (λ m l, send_ (rt_tx r) (Data l) m) m ls in
            set_reader rd partial true (set_bufs (<[rt_buf r := pb]> (bufs m)) m)
        end
  end.

(** ** Crash decoders *)

Definition set_crash_decoder (p : str) (d : D) m :=
  set_decoders (<[resolve_port_key p m := d]> (crash_decoders m)) m.
Definition remove_crash_decoder (p : str) m :=
  set_decoders (delete (resolve_port_key p m) (crash_decoders m)) m.

(** [process_line] is the decoder's: the decoded trace, and its new state. *)
Definition process_crash_line (process_line : str → D → option (list str) * D) (p line : str) m :
    option (list str) * SharedSerialManager D :=
  let key := resolve_port_key p m in
  match crash_decoders m !! key with
  | None => (None, m)
  | Some d =>
      let m := set_decoders (delete key (crash_decoders m)) m in
      let '(r, d) := process_line line d in
      (r, set_decoders (<[key := d]> (crash_decoders m)) m)
  end.

(** ** Status *)

Record SerialClientInfo := { ci_client_id : str; ci_metadata : SerialClientMetadata }.

Record PortSessionInfo := {
  ps_port : str; ps_is_open : bool; ps_writer_client_id : option str; ps_reader_count : nat;
  ps_reader_client_ids : list str; ps_owner_client_id : option str; ps_baud_rate : Z;
  ps_started_at : f64; ps_last_activity_at : f64; ps_last_read_at : option f64;
  ps_last_write_at : option f64; ps_total_bytes_read : Z; ps_total_bytes_written : Z;
  ps_clients : list SerialClientInfo }.

Definition millis_to_unix_secs (ms : Z) : option f64 :=
  if (0 <? ms)%Z then Some (f64_div (f64_of_Z ms) (f64_of_Z 1000)) else None.

Definition session_info (m : SharedSerialManager D) (key : str) (s : SerialSession) : PortSessionInfo :=
  let buf := output_buffers m !! key ≫= λ b, bufs m !! b in
  {| ps_port := port s; ps_is_open := is_open s; ps_writer_client_id := writer_client_id s;
     ps_reader_count := size (reader_client_ids s);
     ps_reader_client_ids := merge_sort str_le (elements (reader_client_ids s));
     ps_owner_client_id := owner_client_id s; ps_baud_rate := baud_rate s;
     ps_started_at := started_at s; ps_last_activity_at := last_activity_at s;
     ps_last_read_at := buf ≫= λ b, millis_to_unix_secs (last_read_at_ms b);
     ps_last_write_at := last_write_at s;
     ps_total_bytes_read := default (session_bytes_read s) (total_bytes_read <$> buf);
     ps_total_bytes_written := total_bytes_written s;
     ps_clients := (λ kv : str * SerialClientMetadata, {| ci_client_id := kv.1; ci_metadata := kv.2 |}) <$>
       merge_sort (λ a b, str_le a.1 b.1) (map_to_list (client_metadata s)) |}.

Definition get_port_sessions `{HashIter} (m : SharedSerialManager D) : list PortSessionInfo :=
  (λ kv : str * SerialSession, session_info m kv.1 kv.2) <$> hm_iter (sessions m).
End Operations.

(** Computes the manager's maps after field updates. *)
Ltac mgr_simpl :=
  cbn [sessions port_aliases broadcasters close_generations preempted_ports crash_decoders
    output_buffers flags chans bufs readers next set_sessions set_aliases set_broadcasters
    set_generations set_preempted set_decoders set_buffers set_flags set_chans set_bufs set_tasks
    set_next with_session subscribe drop_receiver bump_close_generation bump
    remove_aliases_for_session set_reader send_ fst snd].
Tactic Notation "mgr_simpl" "in" hyp(H) :=
  cbn [sessions port_aliases broadcasters close_generations preempted_ports crash_decoders
    output_buffers flags chans bufs readers next set_sessions set_aliases set_broadcasters
    set_generations set_preempted set_decoders set_buffers set_flags set_chans set_bufs set_tasks
    set_next with_session subscribe drop_receiver bump_close_generation bump
    remove_aliases_for_session set_reader send_ fst snd] in H.
