(* ===== verification/SerialWorld.v ===== *)
(** * Interleavings of the serial manager

    The manager together with the calls that are suspended in it: what each
    waits for, and what resuming it does.  An [Event] is a new call, the end
    of something a call waits for, or a turn of a reader task; any sequence
    of events is a possible history. *)
From S2P Require Import Prelude RustStr SerialReader SerialManager.

Inductive Task :=
  | TOpen (p : str) (baud : Z) (client : str) (md : option SerialClientMetadata)
  | TWrite (p key : str) (len : Z)
  | TClose (key : str)
  | TTimer (key : str) (g : Z)
  | TRebindOpen (key new_port reason : str) (serial : option str) (baud : Z)
  | TRebindWait (key new_port reason : str) (serial : option str) (h : Handle) (tx buf : nat).

Record World (D : Type) := MkWorld {
  mgr : SharedSerialManager D;
  tasks : gmap nat Task;
  next_task : nat;
}.
Arguments MkWorld {D}.
Arguments mgr {D}.
Arguments tasks {D}.
Arguments next_task {D}.

Inductive Event (D : Type) :=
  | EvOpen (p : str) (baud : Z) (client : str) (md : option SerialClientMetadata) (now : f64)
  | EvOpened (t : nat) (outcome : nat → open_result) (now : f64)
  | EvWrite (p client : str) (len : Z)
  | EvWritten (t : nat) (o : io_outcome) (now : f64)
  | EvClose (p : str)
  | EvReaderJoined (t : nat)
  | EvGrace (p : str)
  | EvFire (t : nat)
  | EvAttach (p client : str) (md : option SerialClientMetadata) (now : f64)
  | EvDetach (p client : str) (now : f64)
  | EvAcquire (p client : str) (now : f64)
  | EvRelease (p client : str) (now : f64)
  | EvPreempt (p reason by_ : str) (at_ : Z)
  | EvClear (p : str)
  | EvNotify (old_port new_port reason : str) (serial : option str)
  | EvNotifyFailed (old_port new_port reason message : str)
  | EvRebind (old_port new_port reason : str) (serial : option str)
  | EvRebindOpened (t : nat) (outcome : nat → open_result)
  | EvRead (rd : nat) (read : read_result) (ms : Z)
  | EvDropReceiver (tx : nat)
  | EvSetDecoder (p : str) (d : D)
  | EvRemoveDecoder (p : str)
  | EvCrashLine (p line : str).
Arguments EvOpen {D}. Arguments EvOpened {D}. Arguments EvWrite {D}. Arguments EvWritten {D}.
Arguments EvClose {D}. Arguments EvReaderJoined {D}. Arguments EvGrace {D}. Arguments EvFire {D}.
Arguments EvAttach {D}. Arguments EvDetach {D}. Arguments EvAcquire {D}. Arguments EvRelease {D}.
Arguments EvPreempt {D}. Arguments EvClear {D}. Arguments EvNotify {D}. Arguments EvNotifyFailed {D}.
Arguments EvRebind {D}. Arguments EvRebindOpened {D}. Arguments EvRead {D}.
Arguments EvDropReceiver {D}. Arguments EvSetDecoder {D}. Arguments EvRemoveDecoder {D}.
Arguments EvCrashLine {D}.

Section World.
Context {D : Type} (is_windows : bool) (process_line : str → D → option (list str) * D).
Implicit Types w : World D.

Definition in_mgr (f : SharedSerialManager D → SharedSerialManager D) w : World D :=
  MkWorld (f (mgr w)) (tasks w) (next_task w).

Definition spawn (t : Task) (m : SharedSerialManager D) w : World D :=
  MkWorld m (<[next_task w := t]> (tasks w)) (S (next_task w)).

Definition finish (t : nat) (m : SharedSerialManager D) w : World D :=
  MkWorld m (delete t (tasks w)) (next_task w).

(** The part of [close_port] after [close_begin]: wait for the reader, or go
    on at once. *)
Definition continue_close (c : option (str * option SerialSession)) (m : SharedSerialManager D) w : World D :=
  match c with
  | None => MkWorld m (tasks w) (next_task w)
  | Some (key, taken) =>
      if close_waits taken then spawn (TClose key) m w
      else MkWorld (close_end key m) (tasks w) (next_task w)
  end.

(** Once the new port is open: take the old reader, wait for it if there is
    one, and install the new one. *)
Definition continue_rebind (key new_port reason : str) (serial : option str) (h : Handle) w : World D :=
  let waits := match sessions (mgr w) !! key with
               | Some s => bool_decide (is_Some (reader_handle s)) | None => false end in
  let '(r, m) := rebind_begin key (mgr w) in
  match r with
  | None => MkWorld m (tasks w) (next_task w)
  | Some (tx, buf) =>
      if waits : bool then spawn (TRebindWait key new_port reason serial h tx buf) m w
      else MkWorld (rebind_end key new_port reason serial h tx buf m) (tasks w) (next_task w)
  end.

Definition exec (e : Event D) w : World D :=
  match e with
  | EvOpen p baud client md now =>
      let '(already, m) := open_check p client md now (mgr w) in
      if already then MkWorld m (tasks w) (next_task w) else spawn (TOpen p baud client md) m w
  | EvOpened t outcome now =>
      match tasks w !! t with
      | Some (TOpen p baud client md) =>
          finish t (open_finish is_windows p baud client md outcome now (mgr w)).2 w
      | _ => w
      end
  | EvWrite p client len =>
      match write_check p client (mgr w) with
      | Ok (key, _) => spawn (TWrite p key len) (mgr w) w
      | Err _ => w
      end
  | EvWritten t o now =>
      match tasks w !! t with
      | Some (TWrite p key len) => finish t (write_finish p key len o now (mgr w)).2 w
      | _ => w
      end
  | EvClose p => let '(key, taken, m) := close_begin p (mgr w) in continue_close (Some (key, taken)) m w
  | EvReaderJoined t =>
      match tasks w !! t with
      | Some (TClose key) => finish t (close_end key (mgr w)) w
      | Some (TRebindWait key new_port reason serial h tx buf) =>
          finish t (rebind_end key new_port reason serial h tx buf (mgr w)) w
      | _ => w
      end
  | EvGrace p =>
      let '(r, m) := grace_schedule p (mgr w) in
      match r with Some (key, g) => spawn (TTimer key g) m w | None => w end
  | EvFire t =>
      match tasks w !! t with
      | Some (TTimer key g) =>
          let w := finish t (mgr w) w in
          let '(c, m) := grace_fire key g (mgr w) in continue_close c m w
      | _ => w
      end
  | EvAttach p client md now => in_mgr (λ m, (attach_reader p client md now m).2) w
  | EvDetach p client now => in_mgr (detach_reader p client now) w
  | EvAcquire p client now => in_mgr (λ m, (acquire_writer p client now m).2) w
  | EvRelease p client now => in_mgr (release_writer p client now) w
  | EvPreempt p reason by_ at_ =>
      let '(c, m) := preempt_for_deploy p reason by_ at_ (mgr w) in continue_close c m w
  | EvClear p => in_mgr (clear_preemption p) w
  | EvNotify o n r s => in_mgr (λ m, (notify_port_renumbered o n r s m).2) w
  | EvNotifyFailed o n r msg => in_mgr (λ m, (notify_port_rebind_failed o n r msg m).2) w
  | EvRebind old_port new_port reason serial =>
      match rebind_check old_port (mgr w) with
      | Some (key, baud) => spawn (TRebindOpen key new_port reason serial baud) (mgr w) w
      | None => w
      end
  | EvRebindOpened t outcome =>
      match tasks w !! t with
      | Some (TRebindOpen key new_port reason serial baud) =>
          let w := finish t (mgr w) w in
          match (open_physical_serial is_windows new_port outcome).1 with
          | Ok h => continue_rebind key new_port reason serial
                      {| h_id := h; h_port := new_port; h_baud := baud |} w
          | Err _ => w
          end
      | _ => w
      end
  | EvRead rd read ms => in_mgr (reader_turn rd read ms) w
  | EvDropReceiver tx => in_mgr (drop_receiver tx) w
  | EvSetDecoder p d => in_mgr (set_crash_decoder p d) w
  | EvRemoveDecoder p => in_mgr (remove_crash_decoder p) w
  | EvCrashLine p line => in_mgr (λ m, (process_crash_line process_line p line m).2) w
  end.

Definition run (es : list (Event D)) w : World D := foldl (λ w e, exec e w) w es.

Definition start : World D := MkWorld new_serial_manager ∅ 0.

(** ** Sending and reading leave the manager's maps alone *)

Lemma send_maps ch e (m : SharedSerialManager D) :
  sessions (send ch e m).2 = sessions m ∧ port_aliases (send ch e m).2 = port_aliases m ∧
  broadcasters (send ch e m).2 = broadcasters m ∧
  close_generations (send ch e m).2 = close_generations m ∧
  output_buffers (send ch e m).2 = output_buffers m ∧
  readers (send ch e m).2 = readers m ∧ flags (send ch e m).2 = flags m ∧
  next (send ch e m).2 = next m.
Proof. unfold send. repeat case_match; done. Qed.

Lemma sends_maps ch (ls : list str) (m : SharedSerialManager D) :
  let m' := foldl (λ m l, send_ ch (Data l) m) m ls in
  sessions m' = sessions m ∧ port_aliases m' = port_aliases m ∧
  broadcasters m' = broadcasters m ∧ close_generations m' = close_generations m ∧
  output_buffers m' = output_buffers m ∧ readers m' = readers m ∧ flags m' = flags m ∧
  next m' = next m.
Proof.
  revert m. induction ls as [|l ls IH]; intros m; cbn; [done|].
  destruct (IH (send_ ch (Data l) m)) as (-> & -> & -> & -> & -> & -> & -> & ->).
  apply (send_maps ch (Data l) m).
Qed.

Lemma reader_turn_maps rd r ms (m : SharedSerialManager D) :
  let m' := reader_turn rd r ms m in
  sessions m' = sessions m ∧ port_aliases m' = port_aliases m ∧
  broadcasters m' = broadcasters m ∧ close_generations m' = close_generations m ∧
  output_buffers m' = output_buffers m ∧ flags m' = flags m ∧ next m' = next m.
Proof.
  cbn zeta. unfold reader_turn. destruct (readers m !! rd) as [t|]; [|done].
  destruct (negb _); [done|]. destruct (default _ _); [done|].
  destruct r as [data| |msg]; [|done|].
  - destruct (read_data _ _ _ _) as [[ls p] pb]. cbn.
    destruct (sends_maps (rt_tx t) ls m) as (-> & -> & -> & -> & -> & _ & -> & ->). done.
  - mgr_simpl. destruct (send_maps (rt_tx t) (PortDisconnected (rt_port t) (&"read_error") msg) m)
      as (E1 & E2 & E3 & E4 & E5 & _ & E7 & E8). unfold send_.
    by rewrite E1, E2, E3, E4, E5, E7, E8.
Qed.
End World.
