(* ===== verification/SerialFacts.v ===== *)
(** * Safety of the serial manager

    Who can lose the writer lock, when a delayed close may fire, what a
    stopped reader still does, and the sessions that stay complete. *)
From S2P Require Import Prelude RustStr SerialReader SerialManager SerialWorld.

Section Safety.
Context {D : Type} (is_windows : bool) (process_line : str → D → option (list str) * D).
Implicit Types w : World D.
Implicit Types m : SharedSerialManager D.

Notation exec := (exec is_windows process_line).
Notation run := (run is_windows process_line).

(** ** The writer lock *)

Definition writer_of (k : str) m : option str := sessions m !! k ≫= writer_client_id.

(** The events that may end [c]'s lock on [k]: its own release, a close or a
    preemption of the port, and an open of the port that was already under
    way and completes. *)
Definition may_end (e : Event D) w (k c : str) : Prop :=
  match e with
  | EvRelease p c' _ => resolve_port_key p (mgr w) = k ∧ c' = c
  | EvClose p => resolve_port_key p (mgr w) = k
  | EvPreempt p _ _ _ => resolve_port_key (resolve_port_key p (mgr w)) (mgr w) = k
  | EvOpened t _ _ => ∃ baud client md, tasks w !! t = Some (TOpen k baud client md)
  | _ => False
  end.

Lemma writer_alter k key f m : (∀ s, writer_client_id (f s) = writer_client_id s) →
  writer_of k (with_session key f m) = writer_of k m.
Proof.
  intros Hf. unfold writer_of. mgr_simpl. destruct (decide (key = k)) as [->|].
  - rewrite lookup_alter_eq. by destruct (sessions m !! k) as [s|]; cbn; rewrite ?Hf.
  - by rewrite lookup_alter_ne.
Qed.

Lemma writer_sessions k m m' : sessions m' = sessions m → writer_of k m' = writer_of k m.
Proof. unfold writer_of. by intros ->. Qed.

Lemma continue_close_sessions c m w : sessions (mgr (continue_close c m w)) = sessions m.
Proof. unfold continue_close. destruct c as [[key taken]|]; [|done]. by destruct (close_waits taken). Qed.

Lemma close_begin_sessions p m :
  sessions (close_begin p m).2 = delete (resolve_port_key p m) (sessions m).
Proof.
  unfold close_begin. mgr_simpl. destruct (sessions m !! resolve_port_key p m) eqn:E; mgr_simpl; [done|].
  by rewrite delete_id.
Qed.

Lemma writer_delete k key m m' : sessions m' = delete key (sessions m) → key ≠ k →
  writer_of k m' = writer_of k m.
Proof. intros E Hk. unfold writer_of. by rewrite E, lookup_delete_ne. Qed.

Lemma writer_has_clients k c m p : writer_of k m = Some c → resolve_port_key p m = k → has_clients p m = true.
Proof.
  unfold writer_of, has_clients. intros (s & Hs & Hw)%bind_Some ->. rewrite Hs, Hw.
  by rewrite orb_true_r.
Qed.

Lemma rebind_begin_writer k key m : writer_of k (rebind_begin key m).2 = writer_of k m.
Proof.
  unfold rebind_begin. destruct (broadcasters m !! key); [|done].
  destruct (output_buffers m !! key); mgr_simpl;
    (destruct (sessions m !! key); mgr_simpl; [|done]);
    unfold writer_of; mgr_simpl; (destruct (decide (key = k)) as [->|]; 
      [rewrite lookup_alter_eq; by destruct (sessions m !! k) | by rewrite lookup_alter_ne]).
Qed.

Lemma rebind_end_writer k key new reason ser h tx buf m :
  writer_of k (rebind_end key new reason ser h tx buf m) = writer_of k m.
Proof.
  unfold rebind_end, send_. unfold writer_of at 1.
  rewrite !(proj1 (send_maps _ _ _)). mgr_simpl.
  destruct (decide (key = k)) as [->|]; [|by rewrite lookup_alter_ne].
  rewrite lookup_alter_eq. unfold writer_of. by destruct (sessions m !! k).
Qed.

Lemma continue_rebind_writer k key new reason ser h w :
  writer_of k (mgr (continue_rebind key new reason ser h w)) = writer_of k (mgr w).
Proof.
  unfold continue_rebind. generalize (rebind_begin_writer k key (mgr w)).
  destruct (rebind_begin key (mgr w)) as [[[tx buf]|] m]; cbn [snd mgr]; [|done].
  intros E. destruct (match sessions (mgr w) !! key with Some _ => _ | None => _ end); cbn [mgr spawn]; [done|].
  by rewrite rebind_end_writer.
Qed.

Lemma open_check_writer k p baud client md now w :
  writer_of k (mgr (let '(already, m) := open_check p client md now (mgr w) in
    if already then MkWorld m (tasks w) (next_task w) else spawn (TOpen p baud client md) m w))
  = writer_of k (mgr w).
Proof.
  unfold open_check. destruct (sessions (mgr w) !! _) as [s|]; [|done]. destruct (is_open s); [|done].
  cbn [mgr]. unfold bump, bump_close_generation. cbn [snd].
  exact (writer_alter k (resolve_port_key p (mgr w)) (λ s, add_metadata client md (touch now s)) (mgr w) (λ _, eq_refl)).
Qed.

Lemma open_finish_writer k p baud client md outcome now m : p ≠ k →
  writer_of k (open_finish is_windows p baud client md outcome now m).2 = writer_of k m.
Proof.
  intros Hp. unfold open_finish. destruct (open_loop _ _ _ _) as [[[h|] e] t]; [|done].
  unfold open_success, writer_of. mgr_simpl. by rewrite lookup_insert_ne.
Qed.

Lemma write_finish_writer k p key len o now m :
  writer_of k (write_finish p key len o now m).2 = writer_of k m.
Proof. unfold write_finish. destruct o; try done. cbn [snd]. by rewrite writer_alter. Qed.

Lemma grace_fire_sessions key g m :
  sessions (grace_fire key g m).2 = sessions m ∨
  has_clients key m = false ∧ sessions (grace_fire key g m).2 = delete (resolve_port_key key m) (sessions m).
Proof.
  unfold grace_fire. destruct (negb _); cbn [orb]; [by left|].
  destruct (has_clients key m); [by left|right]. split; [done|].
  generalize (close_begin_sessions key m). by destruct (close_begin key m) as [[k taken] m'].
Qed.

Lemma attach_reader_writer k p client md now m :
  writer_of k (attach_reader p client md now m).2 = writer_of k m.
Proof.
  unfold attach_reader. destruct (broadcasters m !! _); [|done]. mgr_simpl.
  destruct (sessions m !! _); [|done]. mgr_simpl.
  exact (writer_alter k (resolve_port_key p m) (λ s, add_metadata client md
    (set_readers ({[client]} ∪ reader_client_ids s) (touch now s))) m (λ _, eq_refl)).
Qed.

Lemma writer_preempt_bump k key m : writer_of k (bump key m) = writer_of k m.
Proof. done. Qed.

Lemma acquire_keeps_writer k c p client now m : writer_of k m = Some c →
  writer_of k (acquire_writer p client now m).2 = Some c.
Proof.
  intros Hw. unfold acquire_writer. destruct (sessions m !! _) as [s|] eqn:Hs; [|done].
  destruct (writer_client_id s) eqn:Hc; [done|]. cbn [snd]. rewrite writer_preempt_bump.
  rewrite <- Hw. unfold writer_of. mgr_simpl. rewrite lookup_alter_ne; [done|].
  intros <-. unfold writer_of in Hw. rewrite Hs in Hw. cbn in Hw. congruence.
Qed.

Lemma acquire_refused k c p client now m : writer_of k m = Some c → resolve_port_key p m = k →
  acquire_writer p client now m = (Err (&"port " ++ p ++ &" already has an exclusive writer"), m).
Proof.
  intros Hw Hp. unfold acquire_writer. rewrite Hp.
  unfold writer_of in Hw. apply bind_Some in Hw as (s & Hs & Hc). by rewrite Hs, Hc.
Qed.

Lemma release_keeps_writer k c p client now m : writer_of k m = Some c →
  ¬ (resolve_port_key p m = k ∧ client = c) → writer_of k (release_writer p client now m) = Some c.
Proof.
  intros Hw Hn. unfold release_writer, writer_of. mgr_simpl.
  destruct (decide (resolve_port_key p m = k)) as [E|]; [|by rewrite lookup_alter_ne].
  rewrite E, lookup_alter_eq. unfold writer_of in Hw. apply bind_Some in Hw as (s & -> & Hc). cbn.
  rewrite decide_False; [done|]. intros Hc'. apply Hn. split; [done|congruence].
Qed.

Lemma notify_keeps_writer k old_port new_port reason serial m :
  writer_of k (notify_port_renumbered old_port new_port reason serial m).2 = writer_of k m.
Proof.
  unfold notify_port_renumbered. destruct (broadcasters m !! _) as [tx|]; [|done].
  rewrite (surjective_pairing (send _ _ m)), (surjective_pairing (send _ _ _)). cbn [snd].
  by rewrite (writer_sessions k m) by (by rewrite !(proj1 (send_maps _ _ _))).
Qed.

Lemma notify_failed_keeps_writer k old_port new_port reason e m :
  writer_of k (notify_port_rebind_failed old_port new_port reason e m).2 = writer_of k m.
Proof.
  unfold notify_port_rebind_failed. destruct (broadcasters m !! _) as [tx|]; [|done].
  by rewrite (writer_sessions k m) by (by rewrite !(proj1 (send_maps _ _ _))).
Qed.

(** C13: the writer lock is exclusive and only a release by its holder, a close of
    the port, a preemption of it or a completing open of it can take it away
    ([may_end]).  In particular no delayed close, no rebinding to another port
    and no other client ever does, in any interleaving; and while it lasts,
    everybody who asks for it is refused. *)
Theorem writer_keeps_lock e w k c :
  writer_of k (mgr w) = Some c → ¬ may_end e w k c →
  writer_of k (mgr (exec e w)) = Some c ∧
  ∀ p c' now, resolve_port_key p (mgr w) = k →
    acquire_writer p c' now (mgr w) = (Err (&"port " ++ p ++ &" already has an exclusive writer"), mgr w).
Proof.
  intros Hw Hn. split; [|intros p c' now Hp; by apply acquire_refused with k c].
  destruct e; cbn [SerialWorld.exec in_mgr mgr]; cbn [may_end] in Hn; try done.
  - by rewrite open_check_writer.
  - destruct (tasks w !! t) as [[]|] eqn:Et; try done. cbn [finish mgr].
    rewrite open_finish_writer; [done|]. intros ->. apply Hn. eauto.
  - by destruct (write_check p client (mgr w)) as [[key h]|].
  - destruct (tasks w !! t) as [[]|]; try done. cbn [finish mgr]. by rewrite write_finish_writer.
  - generalize (close_begin_sessions p (mgr w)).
    destruct (close_begin p (mgr w)) as [[key taken] m]. cbn [snd]. intros E.
    rewrite <- Hw. eapply writer_delete; [|exact Hn]. by rewrite continue_close_sessions.
  - destruct (tasks w !! t) as [[]|]; try done. cbn [finish mgr]. by rewrite rebind_end_writer.
  - unfold grace_schedule. destruct (has_clients _ _ || _); done.
  - destruct (tasks w !! t) as [[]|]; try done. cbn [finish mgr].
    generalize (grace_fire_sessions key g (mgr w)).
    destruct (grace_fire key g (mgr w)) as [c' m]. cbn [snd]. intros [E|[Hc E]].
    + by rewrite (writer_sessions k (mgr w)) by (by rewrite continue_close_sessions).
    + rewrite <- Hw. eapply writer_delete; [by rewrite continue_close_sessions|].
      intros Hk. by rewrite (writer_has_clients k c _ key Hw Hk) in Hc.
  - by rewrite attach_reader_writer.
  - unfold detach_reader. by rewrite writer_alter.
  - by apply acquire_keeps_writer.
  - apply release_keeps_writer; [done|]. intros [??]. apply Hn. split; congruence.
  - unfold preempt_for_deploy, close_port_if_generation.
    set (m1 := preempt _ _ _ _ _). case_decide; [|by rewrite (writer_sessions k (mgr w))].
    generalize (close_begin_sessions (resolve_port_key p (mgr w)) m1).
    destruct (close_begin _ m1) as [[key taken] m]. cbn [snd]. intros E.
    rewrite <- Hw. eapply writer_delete; [by rewrite continue_close_sessions|exact Hn].
  - by rewrite notify_keeps_writer.
  - by rewrite notify_failed_keeps_writer.
  - by destruct (rebind_check old_port (mgr w)) as [[key baud]|].
  - destruct (tasks w !! t) as [[]|]; try done.
    destruct (open_physical_serial _ _ _).1; [|done]. by rewrite continue_rebind_writer.
  - by rewrite (writer_sessions k (mgr w)) by apply reader_turn_maps.
  - unfold process_crash_line. destruct (crash_decoders (mgr w) !! _); [|done].
    by destruct (process_line _ _).
Qed.

(** ** Generations *)

Definition gen_of (k : str) m : option Z := close_generations m !! k.

(** One event changes a generation by one, or drops it. *)
Definition gen_step (g g' : option Z) : Prop :=
  g' = g ∨ g' = Some ((default 0 g + 1) mod 2 ^ 64)%Z ∨ g' = None.

Lemma gen_step_refl g : gen_step g g.
Proof. by left. Qed.

Lemma gen_of_bump k key m : gen_step (gen_of k m) (gen_of k (bump key m)).
Proof.
  unfold gen_of. mgr_simpl. destruct (decide (key = k)) as [->|].
  - rewrite lookup_insert_eq. by right; left.
  - rewrite lookup_insert_ne by done. by left.
Qed.

Lemma gen_step_bump k key m m' :
  close_generations m' = close_generations (bump key m) → gen_step (gen_of k m) (gen_of k m').
Proof. intros E. unfold gen_of at 2. rewrite E. apply gen_of_bump. Qed.

Lemma gen_step_eq k m m' : close_generations m' = close_generations m → gen_step (gen_of k m) (gen_of k m').
Proof. unfold gen_of. intros ->. by left. Qed.

Lemma close_begin_gen p m :
  close_generations (close_begin p m).2 = close_generations (bump (resolve_port_key p m) m).
Proof. unfold close_begin. mgr_simpl. by destruct (sessions m !! _). Qed.

Lemma close_end_gen k key m : gen_of k (close_end key m) = if decide (key = k) then None else gen_of k m.
Proof.
  unfold close_end, gen_of. mgr_simpl. case_decide as E; [by rewrite E, lookup_delete_eq|].
  by rewrite lookup_delete_ne.
Qed.

Lemma gen_step_close k key g m : gen_step g (gen_of k m) → gen_step g (gen_of k (close_end key m)).
Proof. intros H. rewrite close_end_gen. case_decide; [by right; right|done]. Qed.

Lemma continue_close_gen k c g m w : gen_step g (gen_of k m) → gen_step g (gen_of k (mgr (continue_close c m w))).
Proof.
  intros H. unfold continue_close. destruct c as [[key taken]|]; [|done].
  destruct (close_waits taken); [done|]. by apply gen_step_close.
Qed.

Lemma rebind_begin_gen key m : close_generations (rebind_begin key m).2 = close_generations m.
Proof.
  unfold rebind_begin. destruct (broadcasters m !! key); [|done].
  destruct (output_buffers m !! key); mgr_simpl; by destruct (sessions m !! key).
Qed.

Lemma rebind_end_gen key new reason ser h tx buf m :
  close_generations (rebind_end key new reason ser h tx buf m) = close_generations (bump key m).
Proof.
  unfold rebind_end, send_.
  set (m1 := bump key _). set (p := send tx (PortRenumbered key new reason ser) m1).
  destruct (send_maps tx (PortReattached new key) p.2) as (_ & _ & _ & -> & _).
  destruct (send_maps tx (PortRenumbered key new reason ser) m1) as (_ & _ & _ & E & _).
  subst p. by rewrite E.
Qed.

Lemma grace_fire_gen k key g m :
  gen_step (gen_of k m) (gen_of k (grace_fire key g m).2).
Proof.
  unfold grace_fire. destruct (_ || _); [apply gen_step_refl|].
  generalize (close_begin_gen key m). destruct (close_begin key m) as [[x taken] m']. cbn [snd].
  unfold gen_of at 2. intros ->. apply gen_of_bump.
Qed.

Lemma exec_gen k e w : gen_step (gen_of k (mgr w)) (gen_of k (mgr (exec e w))).
Proof.
  destruct e; cbn [SerialWorld.exec in_mgr mgr]; try apply gen_step_refl.
  - unfold open_check. destruct (sessions (mgr w) !! _) as [s|]; [|apply gen_step_refl].
    destruct (is_open s); [|apply gen_step_refl]. by apply (gen_step_bump k (resolve_port_key p (mgr w))).
  - destruct (tasks w !! t) as [[]|]; try apply gen_step_refl. cbn [finish mgr]. unfold open_finish.
    destruct (open_loop _ _ _ _) as [[[h|] le] tt']; [|apply gen_step_refl].
    by apply (gen_step_bump k p).
  - destruct (write_check p client (mgr w)) as [[key h]|]; apply gen_step_refl.
  - destruct (tasks w !! t) as [[]|]; try apply gen_step_refl. destruct o; apply gen_step_refl.
  - generalize (close_begin_gen p (mgr w)).
    destruct (close_begin p (mgr w)) as [[key taken] m]. cbn [snd]. intros E.
    apply continue_close_gen. by apply (gen_step_bump k (resolve_port_key p (mgr w))).
  - destruct (tasks w !! t) as [[]|]; try apply gen_step_refl; cbn [finish mgr].
    + apply gen_step_close, gen_step_refl.
    + by apply (gen_step_bump k key), rebind_end_gen.
  - unfold grace_schedule. destruct (has_clients _ _ || _); [apply gen_step_refl|].
    by apply (gen_step_bump k (resolve_port_key p (mgr w))).
  - destruct (tasks w !! t) as [[]|]; try apply gen_step_refl. cbn [finish mgr].
    generalize (grace_fire_gen k key g (mgr w)).
    destruct (grace_fire key g (mgr w)) as [c m]. cbn [snd]. apply continue_close_gen.
  - unfold attach_reader. destruct (broadcasters (mgr w) !! _); [|apply gen_step_refl]. mgr_simpl.
    destruct (sessions (mgr w) !! _); [|apply gen_step_refl].
    by apply (gen_step_bump k (resolve_port_key p (mgr w))).
  - unfold acquire_writer. destruct (sessions (mgr w) !! _) as [s|]; [|apply gen_step_refl].
    destruct (writer_client_id s); [apply gen_step_refl|].
    by apply (gen_step_bump k (resolve_port_key p (mgr w))).
  - unfold preempt_for_deploy, close_port_if_generation. set (m1 := preempt _ _ _ _ _).
    case_decide; [|apply gen_step_refl].
    generalize (close_begin_gen (resolve_port_key p (mgr w)) m1).
    destruct (close_begin _ m1) as [[key taken] m]. cbn [snd]. intros E.
    apply continue_close_gen. by apply (gen_step_bump k (resolve_port_key (resolve_port_key p (mgr w)) m1)).
  - unfold notify_port_renumbered. destruct (broadcasters (mgr w) !! _) as [tx|]; [|apply gen_step_refl].
    rewrite (surjective_pairing (send _ _ (mgr w))), (surjective_pairing (send _ _ _)). cbn [snd].
    apply gen_step_eq. set (m1 := (send _ _ (mgr w)).2).
    destruct (send_maps tx (PortReattached new_port old_port) m1) as (_ & _ & _ & -> & _).
    apply send_maps.
  - unfold notify_port_rebind_failed. destruct (broadcasters (mgr w) !! _) as [tx|]; [|apply gen_step_refl].
    apply gen_step_eq, send_maps.
  - destruct (rebind_check old_port (mgr w)) as [[key baud]|]; apply gen_step_refl.
  - destruct (tasks w !! t) as [[]|]; try apply gen_step_refl.
    destruct (open_physical_serial _ _ _).1 as [h|]; [|apply gen_step_refl].
    unfold continue_rebind. cbn [finish mgr].
    generalize (rebind_begin_gen key (mgr w)).
    destruct (rebind_begin key (mgr w)) as [[[tx buf]|] m]; cbn [snd mgr]; intros E; [|by apply gen_step_eq].
    destruct (match sessions (mgr w) !! key with Some _ => _ | None => _ end); cbn [mgr spawn];
      [by apply gen_step_eq|].
    apply (gen_step_bump k key). rewrite rebind_end_gen. mgr_simpl. by rewrite E.
  - apply gen_step_eq, reader_turn_maps.
  - unfold process_crash_line. destruct (crash_decoders (mgr w) !! _); [|apply gen_step_refl].
    destruct (process_line _ _). apply gen_step_refl.
Qed.

(** ** Delayed closes *)

(** The generation entry of [k] outlives every event: no close of [k] ends. *)
Fixpoint survives (es : list (Event D)) w (k : str) : Prop :=
  match es with
  | [] => True
  | e :: es => gen_of k (mgr (exec e w)) ≠ None ∧ survives es (exec e w) k
  end.

Lemma gen_run es w k g : gen_of k (mgr w) = Some g → (0 ≤ g < 2 ^ 64)%Z → survives es w k →
  ∃ n, n ≤ length es ∧ gen_of k (mgr (run es w)) = Some ((g + Z.of_nat n) mod 2 ^ 64)%Z.
Proof.
  revert w g. induction es as [|e es IH]; intros w g Hg Hr Hs; cbn in Hs |- *.
  - exists 0. split; [done|]. rewrite Hg. f_equal. rewrite Z.add_0_r. by rewrite Z.mod_small.
  - destruct Hs as [Hne Hs]. pose proof (exec_gen k e w) as [E|[E|E]]; [| |done].
    + destruct (IH (exec e w) g) as (n & Hn & E'); [by rewrite E|done|done|].
      exists n. split; [lia|exact E'].
    + rewrite Hg in E. cbn in E.
      destruct (IH (exec e w) ((g + 1) mod 2 ^ 64)%Z) as (n & Hn & E'); [done| |done|].
      { apply Z.mod_pos_bound. lia. }
      exists (S n). split; [lia|]. rewrite Nat2Z.inj_succ. unfold SerialWorld.run in E' |- *. cbn [foldl].
      rewrite E'. rewrite Zplus_mod_idemp_l. do 2 f_equal. lia.
Qed.

(** A use of the session [k]: an attach, a writer, an open that finds the
    port open, or another timer. *)
Definition uses (e : Event D) w (k : str) : Prop :=
  match e with
  | EvAttach p _ _ _ => resolve_port_key p (mgr w) = k ∧
      is_Some (broadcasters (mgr w) !! k) ∧ is_Some (sessions (mgr w) !! k)
  | EvAcquire p c now => resolve_port_key p (mgr w) = k ∧ (acquire_writer p c now (mgr w)).1 = Ok tt
  | EvOpen p _ c md now => resolve_port_key p (mgr w) = k ∧ (open_check p c md now (mgr w)).1 = true
  | EvGrace p => resolve_port_key p (mgr w) = k ∧ (grace_schedule p (mgr w)).1 ≠ None
  | _ => False
  end.

Lemma uses_bump e w k : uses e w k →
  gen_of k (mgr (exec e w)) = Some ((default 0 (gen_of k (mgr w)) + 1) mod 2 ^ 64)%Z.
Proof.
  assert (∀ m', close_generations m' = close_generations (bump k (mgr w)) →
    gen_of k m' = Some ((default 0 (gen_of k (mgr w)) + 1) mod 2 ^ 64)%Z) as Hb.
  { intros m' E. unfold gen_of. rewrite E. mgr_simpl. by rewrite lookup_insert_eq. }
  destruct e; cbn [uses SerialWorld.exec in_mgr mgr]; try done.
  - unfold open_check. intros [-> Ho]. destruct (sessions (mgr w) !! k) as [s|]; [|done].
    destruct (is_open s); [|done]. by apply Hb.
  - unfold grace_schedule. intros [-> Ho]. destruct (_ || _); [done|]. by apply Hb.
  - unfold attach_reader. intros (-> & [tx ->] & [s Hs]). mgr_simpl. rewrite Hs. by apply Hb.
  - unfold acquire_writer. intros [-> Ho]. destruct (sessions (mgr w) !! k) as [s|]; [|done].
    destruct (writer_client_id s); [done|]. by apply Hb.
Qed.

(** a delayed close is cancelled by any use of the session.  A timer set
    at generation [g] does nothing when it fires if, since then, a client
    attached, wrote, opened or set another timer, and no close of the
    session ended meanwhile (so few events that [u64] does not wrap). *)
Theorem used_session_not_closed es1 e es2 w k g :
  gen_of k (mgr w) = Some g → (0 ≤ g < 2 ^ 64)%Z →
  let w1 := run es1 w in let w2 := exec e w1 in let w3 := run es2 w2 in
  survives es1 w k → uses e w1 k → survives es2 w2 k →
  (Z.of_nat (length es1 + length es2 + 1) < 2 ^ 64)%Z →
  grace_fire k g (mgr w3) = (None, mgr w3).
Proof.
  intros Hg Hr w1 w2 w3 H1 Hu H2 Hl.
  destruct (gen_run es1 w k g Hg Hr H1) as (n1 & L1 & E1). fold w1 in E1.
  pose proof (uses_bump e w1 k Hu) as E2. fold w2 in E2. rewrite E1 in E2. cbn in E2.
  rewrite Zplus_mod_idemp_l in E2.
  destruct (gen_run es2 w2 k _ E2) as (n2 & L2 & E3); [apply Z.mod_pos_bound; lia|done|]. fold w3 in E3.
  rewrite Zplus_mod_idemp_l in E3.
  unfold grace_fire, close_generation. unfold gen_of in E3. rewrite E3.
  rewrite bool_decide_eq_false_2; [done|]. intros [= E].
  assert (((g + (Z.of_nat n1 + 1 + Z.of_nat n2)) mod 2 ^ 64 = g mod 2 ^ 64)%Z) as E4.
  { rewrite (Z.mod_small g) by lia. rewrite <- E at 2. f_equal. lia. }
  apply Z.cong_iff_0 in E4. replace (g + (Z.of_nat n1 + 1 + Z.of_nat n2) - g)%Z
    with (Z.of_nat n1 + 1 + Z.of_nat n2)%Z in E4 by lia.
  rewrite Z.mod_small in E4; lia.
Qed.

(** a timer never closes a session that has a client: whenever it does
    start a close, the session it takes has no readers and no writer. *)
Theorem timer_spares_clients k g m key s m' :
  grace_fire k g m = (Some (key, Some s), m') →
  sessions m !! key = Some s ∧ reader_client_ids s = ∅ ∧ writer_client_id s = None ∧
  close_generation k m = Some g.
Proof.
  unfold grace_fire. case_bool_decide as Hg; cbn [negb orb]; [|done].
  destruct (has_clients k m) eqn:Hc; [done|]. unfold close_begin. mgr_simpl.
  destruct (sessions m !! resolve_port_key k m) as [s'|] eqn:Hs; intros [= <- <- <-].
  split; [done|]. unfold has_clients in Hc. rewrite Hs in Hc.
  apply orb_false_iff in Hc as [Hr Hw]. apply negb_false_iff, bool_decide_eq_true in Hr.
  apply bool_decide_eq_false in Hw. split; [done|]. split; [|done]. by apply eq_None_not_Some.
Qed.
End Safety.

(** ** Concrete histories *)

Definition no_decoder (line : str) (d : unit) : option (list str) * unit := (None, d).
Notation exec0 := (exec false no_decoder).
Notation run0 := (run (D := unit) false no_decoder).

Definition t0 : f64 := f64_of_Z 0.
Definition opens (h : nat) : nat → open_result := λ _, Opened h.

(** COM3 is opened, read, left alone; its idle timer is task 1. *)
Definition idle_history : list (Event unit) :=
  [EvOpen (&"COM3") 115200 (&"ide") None t0; EvOpened 0 (opens 1) t0;
   EvAttach (&"COM3") (&"ide") None t0; EvDetach (&"COM3") (&"ide") t0; EvGrace (&"COM3")].

Definition idle_world : World unit := run0 idle_history start.

Lemma used_session_not_closed_witness :
  let w3 := run0 [EvDetach (&"COM3") (&"cli") t0]
    (exec0 (EvAttach (&"COM3") (&"cli") None t0) (run0 [] idle_world)) in
  grace_fire (&"COM3") 3 (mgr w3) = (None, mgr w3).
Proof.
  refine (used_session_not_closed false no_decoder [] (EvAttach (&"COM3") (&"cli") None t0)
    [EvDetach (&"COM3") (&"cli") t0] idle_world (&"COM3") 3 _ _ _ _ _ _).
  - by vm_compute.
  - lia.
  - done.
  - split; [by vm_compute|]. split; apply (bool_decide_unpack _); by vm_compute.
  - split; [by vm_compute|done].
  - cbn. lia.
Defined.

Lemma timer_spares_clients_witness :
  ∃ s, sessions (mgr idle_world) !! &"COM3" = Some s ∧ writer_client_id s = None.
Proof.
  destruct (grace_fire (&"COM3") 3 (mgr idle_world)) as [[[key [s|]]|] m'] eqn:E.
  - destruct (timer_spares_clients (&"COM3") 3 (mgr idle_world) key s m' E) as (Hs & _ & Hw & _).
    assert (key = &"COM3") as ->.
    { assert (fst <$> (grace_fire (&"COM3") 3 (mgr idle_world)).1 = Some (&"COM3")) as Hk by by vm_compute.
      rewrite E in Hk. by injection Hk. }
    by exists s.
  - exfalso. assert (((grace_fire (&"COM3") 3 (mgr idle_world)).1 ≫= snd) ≠ None) as H.
    { apply not_eq_None_Some. apply (bool_decide_unpack _). by vm_compute. }
    by rewrite E in H.
  - exfalso. assert (((grace_fire (&"COM3") 3 (mgr idle_world)).1 ≫= snd) ≠ None) as H.
    { apply not_eq_None_Some. apply (bool_decide_unpack _). by vm_compute. }
    by rewrite E in H.
Defined.

Lemma writer_keeps_lock_witness :
  let w := exec0 (EvAcquire (&"COM3") (&"ide") t0) idle_world in
  writer_of (&"COM3") (mgr (exec0 (EvFire 1) w)) = Some (&"ide").
Proof.
  intros w. apply (writer_keeps_lock false no_decoder (EvFire 1) w (&"COM3") (&"ide")); [by vm_compute|].
  intros [].
Defined.

(** Finding: [close_port] removes the generation of the port, so it starts
    again at 1, and a stale timer can match it.  Here the first timer of
    COM3 survives a close and a reopening; it fires as soon as the new
    session has as many uses as the old one had, long before the new
    session's own grace period is over, and takes the new session down. *)
Definition aba_history : list (Event unit) :=
  idle_history ++
  [EvClose (&"COM3"); EvReaderJoined 2;
   EvOpen (&"COM3") 115200 (&"cli") None t0; EvOpened 3 (opens 2) t0;
   EvAttach (&"COM3") (&"cli") None t0; EvDetach (&"COM3") (&"cli") t0; EvGrace (&"COM3")].

Definition aba_world : World unit := run0 aba_history start.

Lemma stale_timer_closes_new_session :
  tasks idle_world !! 1 = Some (TTimer (&"COM3") 3) ∧
  tasks aba_world !! 1 = Some (TTimer (&"COM3") 3) ∧
  (h_id <$> (sessions (mgr aba_world) !! &"COM3" ≫= serial_handle)) = Some 2 ∧
  sessions (mgr (exec0 (EvFire 1) aba_world)) !! &"COM3" = None.
Proof. split_and!; by vm_compute. Qed.
