(* ===== verification/SerialSessions.v ===== *)
(** * Sessions, readers and rebinding

    The bound on the time an open can take, the completeness of the sessions
    and the fate of their readers in every interleaving, what preemption and
    rebinding guarantee, and the histories in which they do not. *)
From S2P Require Import Prelude RustStr SerialReader SerialManager SerialWorld SerialFacts.

(** ** The retry loop *)

Definition failed_at (outcome : nat → open_result) (i : nat) : bool :=
  match outcome i with Opened _ => false | _ => true end.

Lemma backoff_bound a : (0 ≤ backoff a ≤ 3000)%Z.
Proof.
  unfold backoff. destruct (Nat.min a (length backoff_schedule - 1)) as [|[|[|[|[|n]]]]]; cbn; try lia.
  by destruct n; cbn; lia.
Qed.

Definition total_backoff (a n : nat) : Z := foldr (λ i t, (backoff i + t)%Z) 0%Z (seq a n).

Lemma open_loop_spec outcome n a e r le t : open_loop outcome n a e = (r, le, t) →
  match r with
  | Some h => ∃ i, i < n ∧ outcome (a + i) = Opened h ∧ t = total_backoff a i ∧
                ∀ j, j < i → failed_at outcome (a + j) = true
  | None => t = total_backoff a n ∧ ∀ j, j < n → failed_at outcome (a + j) = true
  end.
Proof.
  revert a e t. induction n as [|n IH]; intros a e t; cbn [open_loop].
  { intros [= <- <- <-]. split; [done|]. lia. }
  assert (∀ e' r' le' t', failed_at outcome a = true → open_loop outcome n (S a) e' = (r', le', t') →
    r' = r → le' = le → (backoff a + t' = t)%Z →
    match r with
    | Some h => ∃ i, i < S n ∧ outcome (a + i) = Opened h ∧ t = total_backoff a i ∧
                  ∀ j, j < i → failed_at outcome (a + j) = true
    | None => t = total_backoff a (S n) ∧ ∀ j, j < S n → failed_at outcome (a + j) = true
    end) as Hstep.
  { intros e' r' le' t' Hf Hl -> -> <-. apply IH in Hl. destruct r as [h|].
    - destruct Hl as (i & Hi & Ho & -> & Hj). exists (S i). split; [lia|].
      rewrite Nat.add_succ_r. split; [done|]. split; [done|].
      intros [|j] Hlt; [by rewrite Nat.add_0_r|]. rewrite Nat.add_succ_r. apply Hj. lia.
    - destruct Hl as [-> Hj]. split; [done|].
      intros [|j] Hlt; [by rewrite Nat.add_0_r|]. rewrite Nat.add_succ_r. apply Hj. lia. }
  unfold failed_at in Hstep at 1. destruct (outcome a) as [h|e'|e'] eqn:Ho.
  - intros [= <- <- <-]. exists 0. rewrite Nat.add_0_r. split; [lia|]. split; [done|]. split; [done|]. lia.
  - destruct (open_loop outcome n (S a) e') as [[r' le'] t'] eqn:El. intros [= -> -> <-]. by eapply Hstep.
  - destruct (open_loop outcome n (S a) (&"open task panicked: " ++ e')) as [[r' le'] t'] eqn:El.
    intros [= -> -> <-]. by eapply Hstep.
Qed.

(** opening a port ends. It gives up only after every attempt failed,
    having slept 9.75 s (15.75 s on Windows), succeeds with the first
    attempt that does, and never sleeps longer than that. *)
Theorem open_physical_bounded is_windows p outcome :
  let bound := if is_windows : bool then 15750%Z else 9750%Z in
  match open_physical_serial is_windows p outcome with
  | (Ok h, t) => (t ≤ bound)%Z ∧ ∃ i, i < max_retries is_windows ∧ outcome i = Opened h ∧
                   ∀ j, j < i → failed_at outcome j = true
  | (Err _, t) => t = bound ∧ ∀ j, j < max_retries is_windows → failed_at outcome j = true
  end.
Proof.
  cbn zeta. unfold open_physical_serial.
  destruct (open_loop outcome (max_retries is_windows) 0 []) as [[r e] t] eqn:E.
  apply open_loop_spec in E. cbn [Nat.add] in E. destruct r as [h|].
  - destruct E as (i & Hi & Ho & -> & Hj). split; [|by exists i].
    assert (i ≤ 7) by (destruct is_windows; cbn in Hi; lia).
    destruct is_windows; cbn in Hi;
      do 8 (destruct i as [|i]; [first [exfalso; lia | vm_compute; discriminate]|]); lia.
  - destruct E as [-> Hj]. split; [|done]. by destruct is_windows.
Qed.

Section Sessions.
Context {D : Type} (is_windows : bool) (process_line : str → D → option (list str) * D).
Implicit Types w : World D.
Implicit Types m : SharedSerialManager D.

Notation exec := (exec is_windows process_line).
Notation run := (run is_windows process_line).

(** ** Complete sessions *)

Definition usable (s : SerialSession) : Prop := is_open s = true ∧ is_Some (serial_handle s).

(** Every session is open, has its handle, and finds its channel, its buffer
    and its generation under its key. *)
Definition complete m : Prop := ∀ k s, sessions m !! k = Some s →
  usable s ∧ is_Some (broadcasters m !! k) ∧ is_Some (output_buffers m !! k) ∧
  is_Some (close_generations m !! k).

(** Every entry of [m] is still there in [m']. *)
Definition keeps m m' : Prop :=
  (∀ k, is_Some (broadcasters m !! k) → is_Some (broadcasters m' !! k)) ∧
  (∀ k, is_Some (output_buffers m !! k) → is_Some (output_buffers m' !! k)) ∧
  (∀ k, is_Some (close_generations m !! k) → is_Some (close_generations m' !! k)).

Lemma keeps_refl m : keeps m m.
Proof. done. Qed.

Lemma keeps_eq m m' : broadcasters m' = broadcasters m → output_buffers m' = output_buffers m →
  close_generations m' = close_generations m → keeps m m'.
Proof. unfold keeps. by intros -> -> ->. Qed.

Lemma keeps_trans m1 m2 m3 : keeps m1 m2 → keeps m2 m3 → keeps m1 m3.
Proof. intros (A1 & A2 & A3) (B1 & B2 & B3). split_and!; auto. Qed.

Lemma insert_is_Some {A} (x : gmap str A) k k' v : is_Some (x !! k) → is_Some (<[k' := v]> x !! k).
Proof. intros H. rewrite lookup_insert_is_Some. destruct (decide (k' = k)); auto. Qed.

Lemma keeps_bump key m : keeps m (bump key m).
Proof. split_and!; try done. intros k H. mgr_simpl. by apply insert_is_Some. Qed.

(** The sessions of [m'] are usable if those of [m] are. *)
Lemma complete_keeps m m' : keeps m m' → complete m →
  (∀ k s', sessions m' !! k = Some s' → ∃ s, sessions m !! k = Some s ∧ (usable s → usable s')) →
  complete m'.
Proof.
  intros (K1 & K2 & K3) C H k s' Hs'. destruct (H k s' Hs') as (s & Hs & Hu).
  destruct (C k s Hs) as (? & ? & ? & ?). auto 10.
Qed.

Lemma complete_same m m' : keeps m m' → complete m → sessions m' = sessions m → complete m'.
Proof. intros K C E. apply (complete_keeps m); [done..|]. rewrite E. eauto. Qed.

Lemma complete_alter key f m m' : keeps m m' → complete m → (∀ s, usable s → usable (f s)) →
  sessions m' = alter f key (sessions m) → complete m'.
Proof.
  intros K C Hf E. apply (complete_keeps m); [done..|]. rewrite E. intros k s'.
  destruct (decide (key = k)) as [->|].
  - rewrite lookup_alter_eq. intros (s & Hs & ->)%fmap_Some. eauto.
  - rewrite lookup_alter_ne by done. eauto.
Qed.

Lemma complete_close_begin p m : complete m → complete (close_begin p m).2.
Proof.
  intros C. apply (complete_keeps m); [|done|].
  - unfold close_begin. destruct (sessions _ !! _); mgr_simpl; apply (keeps_bump (resolve_port_key p m)).
  - rewrite close_begin_sessions. intros k s' [_ ?]%lookup_delete_Some. eauto.
Qed.

Lemma complete_close_end key m : complete m → sessions m !! key = None → complete (close_end key m).
Proof.
  intros C Hn k s Hs. unfold close_end in *. mgr_simpl. mgr_simpl in Hs.
  assert (key ≠ k) by congruence. rewrite !lookup_delete_ne by done. by apply C.
Qed.

Lemma complete_open p baud client md h now m : complete m → complete (open_success p baud client md h now m).
Proof.
  intros C k s. unfold open_success. mgr_simpl. destruct (decide (p = k)) as [->|].
  - rewrite !lookup_insert_eq. intros [= <-]. split_and!; try done; by eexists.
  - rewrite !lookup_insert_ne by done. apply C.
Qed.

Lemma close_begin_key p m : (close_begin p m).1.1 = resolve_port_key p m ∧
  sessions (close_begin p m).2 !! resolve_port_key p m = None.
Proof.
  split; [|by rewrite close_begin_sessions, lookup_delete_eq].
  unfold close_begin. by destruct (sessions _ !! _).
Qed.

Lemma complete_continue_close p m w : complete m →
  let '(key, taken, m') := close_begin p m in complete (mgr (continue_close (Some (key, taken)) m' w)).
Proof.
  intros C. pose proof (complete_close_begin p m C) as C'. destruct (close_begin_key p m) as [Hk Hn].
  destruct (close_begin p m) as [[key taken] m']. cbn in *. subst key.
  destruct (close_waits taken); [done|]. by apply complete_close_end.
Qed.

Lemma complete_with_session key f m : complete m → (∀ s, usable s → usable (f s)) →
  complete (with_session key f m).
Proof. intros C Hf. apply (complete_alter key f m); [by apply keeps_eq|done..]. Qed.

Lemma complete_bump key m : complete m → complete (bump key m).
Proof. intros C. apply (complete_same m); [apply keeps_bump|done..]. Qed.

Lemma complete_rebind_begin key m : complete m → complete (rebind_begin key m).2.
Proof.
  intros C. unfold rebind_begin. destruct (broadcasters m !! key); [|done].
  assert (∀ buf m', sessions m' = sessions m → broadcasters m' = broadcasters m →
    output_buffers m' = <[key := buf]> (output_buffers m) →
    close_generations m' = close_generations m → complete m') as Hb.
  { intros buf m' E1 E2 E3 E4. apply (complete_same m); [|done..].
    split_and!; [by rewrite E2| |by rewrite E4]. intros k H. rewrite E3. by apply insert_is_Some. }
  destruct (output_buffers m !! key).
  - destruct (sessions m !! key); [|done]. by apply complete_with_session.
  - mgr_simpl. destruct (sessions m !! key); [|by eapply Hb].
    apply complete_with_session; [by eapply Hb|done].
Qed.

Lemma keeps_send tx e m : keeps m (send_ tx e m).
Proof.
  destruct (send_maps tx e m) as (_ & _ & ? & ? & ? & _). by apply keeps_eq.
Qed.

Lemma complete_send tx e m : complete m → complete (send_ tx e m).
Proof. intros C. eapply complete_same; [apply keeps_send|done|apply send_maps]. Qed.

Lemma complete_rebind_end key new reason ser h tx buf m :
  complete m → complete (rebind_end key new reason ser h tx buf m).
Proof.
  intros C. unfold rebind_end. do 2 apply complete_send.
  apply complete_bump. match goal with |- complete (set_aliases _ ?m') => change (complete m') end.
  apply complete_with_session; [done|]. intros s [_ _]. split; [done|by eexists].
Qed.

Lemma complete_continue_rebind key new reason ser h w :
  complete (mgr w) → complete (mgr (continue_rebind key new reason ser h w)).
Proof.
  intros C. unfold continue_rebind. pose proof (complete_rebind_begin key (mgr w) C) as C'.
  destruct (rebind_begin key (mgr w)) as [[[tx buf]|] m]; cbn [snd mgr] in *; [|done].
  destruct (match sessions (mgr w) !! key with Some _ => _ | None => _ end); cbn [mgr spawn]; [done|].
  by apply complete_rebind_end.
Qed.

Lemma complete_grace_fire key g m w : complete m →
  complete (mgr (let '(c, m) := grace_fire key g m in continue_close c m w)).
Proof.
  intros C. unfold grace_fire. destruct (_ || _); [done|].
  pose proof (complete_continue_close key m w C) as H.
  by destruct (close_begin key m) as [[k taken] m'].
Qed.

Lemma complete_preempt p reason by_ at_ m w : complete m →
  complete (mgr (let '(c, m) := preempt_for_deploy p reason by_ at_ m in continue_close c m w)).
Proof.
  intros C. unfold preempt_for_deploy, close_port_if_generation. set (m1 := preempt _ _ _ _ _).
  assert (complete m1) as C1 by done. case_decide; [|done].
  pose proof (complete_continue_close (resolve_port_key p m) m1 w C1) as H1.
  by destruct (close_begin _ m1) as [[k taken] m'].
Qed.

(** No session appeared under the key of a close that now ends. *)
Definition calm (e : Event D) w : Prop :=
  match e with
  | EvReaderJoined t => ∀ key, tasks w !! t = Some (TClose key) → sessions (mgr w) !! key = None
  | _ => True
  end.

Lemma complete_step e w : complete (mgr w) → calm e w → complete (mgr (exec e w)).
Proof.
  intros C Hc. destruct e; cbn [SerialWorld.exec in_mgr mgr]; cbn [calm] in Hc; try done.
  - unfold open_check. destruct (sessions (mgr w) !! _) as [s|]; [|done].
    destruct (is_open s); [|done]. cbn [mgr]. by apply complete_bump, complete_with_session.
  - destruct (tasks w !! t) as [[]|]; try done. cbn [finish mgr]. unfold open_finish.
    destruct (open_loop _ _ _ _) as [[[h|] le] tt']; [|done]. by apply complete_open.
  - by destruct (write_check p client (mgr w)) as [[key h]|].
  - destruct (tasks w !! t) as [[]|]; try done. destruct o; try done. by apply complete_with_session.
  - pose proof (complete_continue_close p (mgr w) w C) as H.
    by destruct (close_begin p (mgr w)) as [[key taken] m].
  - destruct (tasks w !! t) as [[]|] eqn:Et; try done; cbn [finish mgr].
    + apply complete_close_end; auto.
    + by apply complete_rebind_end.
  - unfold grace_schedule. destruct (has_clients _ _ || _); [done|]. by apply complete_bump.
  - destruct (tasks w !! t) as [[]|]; try done. by apply complete_grace_fire.
  - unfold attach_reader. destruct (broadcasters (mgr w) !! _); [|done].
    destruct (sessions (subscribe _ _) !! _); [|done].
    apply complete_bump, complete_with_session; done.
  - by apply complete_with_session.
  - unfold acquire_writer. destruct (sessions (mgr w) !! _) as [s|]; [|done].
    destruct (writer_client_id s); [done|]. by apply complete_bump, complete_with_session.
  - apply complete_with_session; [done|]. intros s Hs. by case_decide.
  - by apply complete_preempt.
  - unfold notify_port_renumbered. destruct (broadcasters (mgr w) !! _) as [tx|]; [|done].
    rewrite (surjective_pairing (send _ _ (mgr w))), (surjective_pairing (send _ _ _)). cbn [snd].
    by do 2 apply complete_send.
  - unfold notify_port_rebind_failed. destruct (broadcasters (mgr w) !! _) as [tx|]; [|done].
    by apply complete_send.
  - by destruct (rebind_check old_port (mgr w)) as [[key baud]|].
  - destruct (tasks w !! t) as [[]|]; try done.
    destruct (open_physical_serial _ _ _).1 as [h|]; [|done]. by apply complete_continue_rebind.
  - destruct (reader_turn_maps rd read ms (mgr w)) as (? & ? & ? & ? & ? & _).
    eapply complete_same; [|exact C|done]. by apply keeps_eq.
  - unfold process_crash_line. destruct (crash_decoders (mgr w) !! _); [|done].
    by destruct (process_line _ _).
Qed.

(** Histories in which no port is opened again while a close of it still
    waits for its reader. *)
Inductive calm_history : list (Event D) → World D → Prop :=
  | calm_nil : calm_history [] start
  | calm_snoc es e w : calm_history es w → calm e w → calm_history (es ++ [e]) (exec e w).

(** in every such history, a session that exists serves: it is open, a
    client that attaches gets a receiver, and its writer can write. *)
Theorem sessions_serve es w p s : calm_history es w →
  sessions (mgr w) !! resolve_port_key p (mgr w) = Some s →
  is_open s = true ∧
  (∀ c md now, is_Some (attach_reader p c md now (mgr w)).1) ∧
  (∀ c, writer_client_id s = Some c → is_ok (write_check p c (mgr w)) = true).
Proof.
  intros Hh Hs. assert (complete (mgr w)) as C.
  { clear s Hs. induction Hh as [|es e w Hh IH Hc]; [by intros k s ?|by apply complete_step]. }
  destruct (C _ s Hs) as ([Ho [h Hh']] & [tx Ht] & _). split; [done|]. split.
  - intros c md now. unfold attach_reader. rewrite Ht. cbn. rewrite Hs. by eexists.
  - intros c Hw. unfold write_check. rewrite Hs, Hh'. by rewrite decide_True.
Qed.
End Sessions.

Section Guarantees.
Context {D : Type}.
Implicit Types m : SharedSerialManager D.

(** a deploy gets the port. Preempting a port under its session's own key
    always closes the session — the generation guard cannot fail, since
    nothing is awaited in between — stops its reader and marks the port. *)
Theorem preempt_takes_port p reason by_ at_ m :
  resolve_port_key (resolve_port_key p m) m = resolve_port_key p m →
  let key := resolve_port_key p m in
  let '(c, m') := preempt_for_deploy p reason by_ at_ m in
  c = Some (key, sessions m !! key) ∧ sessions m' !! key = None ∧ is_preempted p m' = true ∧
  (∀ s, sessions m !! key = Some s → flags m' !! stop_flag s = Some true) ∧
  (∀ k, k ≠ key → sessions m' !! k = sessions m !! k).
Proof.
  intros Hr key. fold key in Hr. unfold preempt_for_deploy. fold key.
  unfold close_port_if_generation. set (m1 := preempt key reason by_ at_ m).
  assert (resolve_port_key key m1 = key) as Hk by exact Hr. rewrite Hk.
  rewrite decide_True by done. unfold close_begin. rewrite Hk. mgr_simpl.
  assert (∀ m', preempted_ports m' = preempted_ports m1 → port_aliases m' = port_aliases m →
    is_preempted p m' = true) as Hpre.
  { intros m' E E'. unfold is_preempted, resolve_port_key. rewrite E, E'. apply bool_decide_eq_true.
    unfold m1, preempt. mgr_simpl. fold (resolve_port_key p m). fold key. rewrite lookup_insert_eq. by eexists. }
  change (sessions m1) with (sessions m). destruct (sessions m !! key) as [s|] eqn:Hs; mgr_simpl.
  - split_and!; try done.
    + by rewrite lookup_delete_eq.
    + by apply Hpre.
    + intros s' [= <-]. by rewrite lookup_insert_eq.
    + intros k Hne. by rewrite lookup_delete_ne.
  - split_and!; try done. by apply Hpre.
Qed.

(** rebinding preserves the logical session: its clients, writer, owner,
    metadata and counters survive, it now uses the new handle, the new port
    name reaches it, no other session changes, and subscribers are told of
    the move, in order. *)
Theorem rebind_preserves_session key new_port reason ser h tx buf m s c :
  sessions m !! key = Some s → chans m !! tx = Some c → receivers c ≠ 0 →
  let m' := rebind_end key new_port reason ser h tx buf m in
  ∃ s', sessions m' !! key = Some s' ∧
    (writer_client_id s', reader_client_ids s', client_metadata s', owner_client_id s', baud_rate s',
     total_bytes_written s') =
    (writer_client_id s, reader_client_ids s, client_metadata s, owner_client_id s, baud_rate s,
     total_bytes_written s) ∧
    serial_handle s' = Some h ∧ port s' = new_port ∧
    resolve_port_key new_port m' = key ∧
    (∀ k, k ≠ key → sessions m' !! k = sessions m !! k) ∧
    (sent <$> chans m' !! tx) =
      Some (sent c ++ [PortRenumbered key new_port reason ser; PortReattached new_port key]).
Proof.
  intros Hs Hc Hn m'. subst m'. unfold rebind_end. set (m0 := bump key _).
  set (e1 := PortRenumbered key new_port reason ser). set (e2 := PortReattached new_port key).
  assert (∀ m1, sessions m1 = sessions m0 → sessions m1 !! key =
    Some (set_physical new_port true (Some h) (Some (S (next m))) (next m) s)) as Hkey.
  { intros m1 ->. unfold m0. mgr_simpl. by rewrite lookup_alter_eq, Hs. }
  assert (sessions (send_ tx e2 (send_ tx e1 m0)) = sessions m0) as Es.
  { unfold send_. by rewrite !(proj1 (send_maps _ _ _)). }
  eexists. split; [by apply Hkey|]. split; [done|]. split; [done|]. split; [done|]. split_and!.
  - destruct (send_maps tx e2 (send_ tx e1 m0)) as (_ & E2 & _).
    destruct (send_maps tx e1 m0) as (_ & E1 & _).
    unfold resolve_port_key, send_ in *. rewrite E2, E1. unfold m0. mgr_simpl. by rewrite lookup_insert_eq.
  - intros k Hk. rewrite Es. unfold m0. mgr_simpl. by rewrite lookup_alter_ne.
  - unfold send_, send. change (chans m0) with (chans m). rewrite Hc. rewrite decide_False by done.
    mgr_simpl. rewrite lookup_insert_eq. cbn [receivers]. rewrite decide_False by done.
    mgr_simpl. rewrite lookup_insert_eq. cbn. by rewrite <- app_assoc.
Qed.
End Guarantees.

(** ** Concrete histories *)

Notation exec0 := (exec (D := unit) false no_decoder).
Notation run0 := (run (D := unit) false no_decoder).

Definition calmb (e : Event unit) (w : World unit) : bool :=
  match e with
  | EvReaderJoined t =>
      match tasks w !! t with
      | Some (TClose key) => match sessions (mgr w) !! key with None => true | Some _ => false end
      | _ => true
      end
  | _ => true
  end.

Fixpoint calm_runb (es : list (Event unit)) (w : World unit) : bool :=
  match es with [] => true | e :: es => calmb e w && calm_runb es (exec0 e w) end.

Lemma calm_run_history es0 es w : calm_history false no_decoder es0 w → calm_runb es w = true →
  calm_history false no_decoder (es0 ++ es) (run0 es w).
Proof.
  revert es0 w. induction es as [|e es IH]; intros es0 w H; cbn [calm_runb]; [by rewrite app_nil_r|].
  intros [Hc Hb]%andb_prop. replace (es0 ++ e :: es) with ((es0 ++ [e]) ++ es) by by rewrite <- app_assoc.
  unfold run. cbn [foldl]. apply IH; [|done]. apply calm_snoc; [done|].
  destruct e; try done. cbn. intros key E. cbn in Hc. rewrite E in Hc. by destruct (sessions (mgr w) !! key).
Qed.

Lemma sessions_serve_witness :
  is_Some (attach_reader (&"COM3") (&"cli") None t0 (mgr idle_world)).1.
Proof.
  destruct (sessions (mgr idle_world) !! resolve_port_key (&"COM3") (mgr idle_world)) as [s|] eqn:Hs.
  - destruct (sessions_serve false no_decoder ([] ++ idle_history) idle_world (&"COM3") s) as (_ & H & _).
    + apply calm_run_history; [apply calm_nil|by vm_compute].
    + exact Hs.
    + apply H.
  - assert (bool_decide (is_Some (sessions (mgr idle_world) !!
      resolve_port_key (&"COM3") (mgr idle_world))) = true) as H by by vm_compute.
    rewrite Hs in H. discriminate H.
Defined.

Lemma preempt_takes_port_witness :
  is_preempted (&"COM3") (preempt_for_deploy (&"COM3") (&"deploy") (&"esptool") 7 (mgr idle_world)).2 = true.
Proof.
  generalize (preempt_takes_port (&"COM3") (&"deploy") (&"esptool") 7 (mgr idle_world) (eq_refl _)).
  destruct (preempt_for_deploy _ _ _ _ _) as [c m']. intros (_ & _ & H & _). exact H.
Defined.

Definition com5_handle : Handle := {| h_id := 9; h_port := &"COM5"; h_baud := 115200 |}.
Definition read_history : list (Event unit) :=
  [EvOpen (&"COM3") 115200 (&"ide") None t0; EvOpened 0 (opens 1) t0;
   EvAttach (&"COM3") (&"ide") None t0].
Definition read_world : World unit := run0 read_history start.

Lemma rebind_preserves_session_witness :
  resolve_port_key (&"COM5") (rebind_end (&"COM3") (&"COM5") (&"moved") None com5_handle 1 2 (mgr read_world))
    = &"COM3".
Proof.
  destruct (sessions (mgr read_world) !! &"COM3") as [s|] eqn:Hs.
  - destruct (rebind_preserves_session (&"COM3") (&"COM5") (&"moved") None com5_handle 1 2 (mgr read_world)
      s {| sent := []; receivers := 1 |} Hs) as (s' & _ & _ & _ & _ & H & _).
    + by vm_compute.
    + done.
    + exact H.
  - assert (bool_decide (is_Some (sessions (mgr read_world) !! &"COM3")) = true) as H by by vm_compute.
    rewrite Hs in H. discriminate H.
Defined.

(** Finding: [close_port] removes the session before it waits for the reader
    and the channel, buffer and generation after it.  A session that was
    rebound to COM5 holds no handle on COM3, so a new device there can be
    opened during the wait; the close then strips the new session, which
    stays open but refuses every client. *)
Definition rebound_history : list (Event unit) :=
  read_history ++
  [EvRebind (&"COM3") (&"COM5") (&"moved") None; EvRebindOpened 1 (opens 2); EvReaderJoined 2].

Definition stripped_world : World unit :=
  run0 (rebound_history ++
    [EvClose (&"COM3"); EvOpen (&"COM3") 115200 (&"cli") None t0; EvOpened 4 (opens 3) t0; EvReaderJoined 3])
    start.

Lemma close_strips_new_session :
  (h_id <$> (sessions (mgr stripped_world) !! &"COM3" ≫= serial_handle)) = Some 3 ∧
  (attach_reader (&"COM3") (&"cli") None t0 (mgr stripped_world)).1 = None.
Proof. split; by vm_compute. Qed.

(** Finding: a rebinding that is waiting for the old reader does not notice
    that its session is closed meanwhile, and still adds the alias. Opening
    the new port afterwards succeeds, but every operation on it is sent to
    the closed session. *)
Definition dangling_world : World unit :=
  run0 (read_history ++
    [EvRebind (&"COM3") (&"COM5") (&"moved") None; EvRebindOpened 1 (opens 2);
     EvClose (&"COM3"); EvReaderJoined 2;
     EvOpen (&"COM5") 115200 (&"cli") None t0; EvOpened 3 (opens 4) t0])
    start.

Lemma rebind_leaves_dangling_alias :
  (h_id <$> (sessions (mgr dangling_world) !! &"COM5" ≫= serial_handle)) = Some 4 ∧
  resolve_port_key (&"COM5") (mgr dangling_world) = &"COM3" ∧
  (attach_reader (&"COM5") (&"cli") None t0 (mgr dangling_world)).1 = None.
Proof. split_and!; by vm_compute. Qed.

(** Finding: an alias hides a session of the same name.  With COM5 open as a
    session of its own, a session rebound from COM3 to COM5 takes the name
    over: a client that asks for the writer of COM5 gets the other one. *)
Definition shadowed_world : World unit :=
  run0 ([EvOpen (&"COM5") 115200 (&"cli") None t0; EvOpened 0 (opens 7) t0;
         EvOpen (&"COM3") 115200 (&"ide") None t0; EvOpened 1 (opens 8) t0;
         EvRebind (&"COM3") (&"COM5") (&"moved") None; EvRebindOpened 2 (opens 9); EvReaderJoined 3;
         EvAcquire (&"COM5") (&"cli") t0])
    start.

Lemma alias_hides_session :
  is_Some (sessions (mgr shadowed_world) !! &"COM5") ∧
  writer_of (&"COM3") (mgr shadowed_world) = Some (&"cli") ∧
  writer_of (&"COM5") (mgr shadowed_world) = None.
Proof. split_and!; [apply (bool_decide_unpack _)| |]; by vm_compute. Qed.
