(* ===== verification/SerialStore.v ===== *)
(** * The objects sessions and readers share

    Stop flags, reader tasks and channels are shared by reference.  This file
    shows that no operation confuses them: a flag belongs to one session, so
    closing or rebinding a session stops its own reader and no other, and a
    reader delivers the text it reads to its channel. *)
From S2P Require Import Prelude RustStr SerialReader SerialManager SerialWorld SerialFacts.

Section Store.
Context {D : Type} (is_windows : bool) (process_line : str → D → option (list str) * D).
Implicit Types w : World D.
Implicit Types m : SharedSerialManager D.

Notation exec := (exec is_windows process_line).

(** A session that has a reader shares its stop flag with it, with no other
    session, and the flag is down. *)
Record store_ok m : Prop := {
  st_flag k s : sessions m !! k = Some s → stop_flag s < next m;
  st_own k1 k2 s1 s2 : sessions m !! k1 = Some s1 → sessions m !! k2 = Some s2 →
    stop_flag s1 = stop_flag s2 → k1 = k2;
  st_reader k s rd : sessions m !! k = Some s → reader_handle s = Some rd →
    rd < next m ∧ rt_stop <$> readers m !! rd = Some (stop_flag s);
  st_down k s rd : sessions m !! k = Some s → reader_handle s = Some rd →
    flags m !! stop_flag s = Some false;
}.

(** [m'] keeps the objects of [m] that are in use. *)
Definition store_le m m' : Prop :=
  next m ≤ next m' ∧
  (∀ rd, rd < next m → rt_stop <$> readers m' !! rd = rt_stop <$> readers m !! rd) ∧
  (∀ f, f < next m → flags m' !! f = flags m !! f).

Lemma store_le_refl m : store_le m m.
Proof. done. Qed.

Lemma store_le_eq m m' : next m' = next m → readers m' = readers m → flags m' = flags m → store_le m m'.
Proof. unfold store_le. by intros -> -> ->. Qed.

Lemma store_ok_le m m' : store_ok m → store_le m m' →
  (∀ k s', sessions m' !! k = Some s' → ∃ s, sessions m !! k = Some s ∧
     stop_flag s' = stop_flag s ∧ reader_handle s' = reader_handle s) → store_ok m'.
Proof.
  intros [S1 S2 S3 S4] (Hn & Hr & Hf) H. split.
  - intros k s' (s & Hs & -> & _)%H. apply S1 in Hs. lia.
  - intros k1 k2 s1 s2 (t1 & ? & -> & _)%H (t2 & ? & -> & _)%H. by apply (S2 _ _ t1 t2).
  - intros k s' rd (s & Hs & -> & ->)%H Hrd. destruct (S3 k s rd Hs Hrd) as [Hlt E].
    split; [lia|]. by rewrite Hr.
  - intros k s' rd (s & Hs & -> & ->)%H Hrd. rewrite Hf by (by eapply S1). by eapply S4.
Qed.

Lemma store_same m m' : store_ok m → store_le m m' → sessions m' = sessions m → store_ok m'.
Proof. intros S L E. apply (store_ok_le m); [done..|]. rewrite E. eauto. Qed.

Lemma store_with_session key f m : store_ok m →
  (∀ s, stop_flag (f s) = stop_flag s ∧ reader_handle (f s) = reader_handle s) →
  store_ok (with_session key f m).
Proof.
  intros S Hf. apply (store_ok_le m); [done|by apply store_le_eq|]. intros k s'. mgr_simpl.
  destruct (decide (key = k)) as [->|].
  - rewrite lookup_alter_eq. intros (s & Hs & ->)%fmap_Some. exists s. split; [done|apply Hf].
  - rewrite lookup_alter_ne by done. eauto.
Qed.

(** Raising the flag of one session, which leaves the map or loses its
    reader. *)
Lemma store_stop m m' key s : store_ok m → sessions m !! key = Some s →
  next m ≤ next m' → readers m' = readers m → flags m' = <[stop_flag s := true]> (flags m) →
  (∀ k t, sessions m' !! k = Some t →
     (k ≠ key ∧ sessions m !! k = Some t) ∨
     (k = key ∧ stop_flag t = stop_flag s ∧ reader_handle t = None)) → store_ok m'.
Proof.
  intros [S1 S2 S3 S4] Hs Hn Hr Hf H. split.
  - intros k t [[_ Ht]|(-> & -> & _)]%H; [apply S1 in Ht|apply S1 in Hs]; lia.
  - intros k1 k2 t1 t2 [[N1 H1]|(-> & E1 & _)]%H [[N2 H2]|(-> & E2 & _)]%H E; try done.
    + by apply (S2 _ _ t1 t2).
    + apply (S2 _ _ t1 s); [done..|congruence].
    + apply (S2 _ _ s t2); [done..|congruence].
  - intros k t rd [[_ Ht]|(_ & _ & E)]%H Hrd; [|congruence].
    destruct (S3 k t rd Ht Hrd). rewrite Hr. split; [lia|done].
  - intros k t rd [[Hk Ht]|(_ & _ & E)]%H Hrd; [|congruence].
    rewrite Hf, lookup_insert_ne; [by eapply S4|]. intros E. apply Hk. symmetry.
    by apply (S2 _ _ s t).
Qed.

Lemma store_close_begin p m : store_ok m → store_ok (close_begin p m).2.
Proof.
  intros S. unfold close_begin. mgr_simpl.
  destruct (sessions m !! resolve_port_key p m) as [s|] eqn:Hs; mgr_simpl.
  - eapply (store_stop m _ (resolve_port_key p m) s); try done; mgr_simpl.
    intros k t [? ?]%lookup_delete_Some. left. done.
  - by apply (store_same m); [done|apply store_le_eq|].
Qed.

Lemma store_close_end key m : store_ok m → store_ok (close_end key m).
Proof. intros S. apply (store_same m); [done|by apply store_le_eq|done]. Qed.

Lemma store_rebind_begin key m : store_ok m → store_ok (rebind_begin key m).2.
Proof.
  intros S. unfold rebind_begin. destruct (broadcasters m !! key); [|done].
  assert (∀ m1, store_ok m1 → sessions m1 = sessions m → readers m1 = readers m → flags m1 = flags m →
    store_ok (match sessions m1 !! key with
      | None => (None, m1)
      | Some s => (Some (n, 0),
          with_session key (λ s, set_physical (port s) (is_open s) (serial_handle s) None (stop_flag s) s)
            (set_flags (<[stop_flag s := true]> (flags m1)) m1))
      end).2) as Hend.
  { intros m1 S1 E1 E2 E3. rewrite E1. destruct (sessions m !! key) as [s|] eqn:Hs; [|done]. cbn [snd].
    apply (store_stop m1 _ key s); mgr_simpl; try done; [by rewrite E1|].
    intros k t. destruct (decide (k = key)) as [->|Hk].
    - rewrite lookup_alter_eq. intros (t' & Ht' & ->)%fmap_Some. right.
      assert (t' = s) as -> by congruence. done.
    - rewrite lookup_alter_ne by done. by left. }
  destruct (output_buffers m !! key) as [b|].
  - specialize (Hend m S eq_refl eq_refl eq_refl). by destruct (sessions m !! key).
  - set (m1 := set_buffers _ _).
    assert (store_ok m1) as S1.
    { apply (store_same m); [done| |done]. split_and!; try done. cbn. lia. }
    specialize (Hend m1 S1 eq_refl eq_refl eq_refl). by destruct (sessions m1 !! key).
Qed.

(** A new reader and its flag: what [open_port] and a rebinding install. *)
Lemma store_install m m' key stop rd r : store_ok m →
  next m ≤ stop < next m' → next m ≤ rd < next m' → rt_stop r = stop →
  readers m' = <[rd := r]> (readers m) → flags m' = <[stop := false]> (flags m) →
  (∀ k t, sessions m' !! k = Some t → (k ≠ key ∧ sessions m !! k = Some t) ∨
     (k = key ∧ stop_flag t = stop ∧ reader_handle t = Some rd)) → store_ok m'.
Proof.
  intros [S1 S2 S3 S4] Hstop Hrd Er Hr Hf H. split.
  - intros k t [[_ Ht]|(_ & -> & _)]%H; [apply S1 in Ht|]; lia.
  - intros k1 k2 t1 t2 [[_ H1]|(-> & E1 & _)]%H [[_ H2]|(-> & E2 & _)]%H E; try done.
    + by apply (S2 _ _ t1 t2).
    + apply S1 in H1. lia.
    + apply S1 in H2. lia.
  - intros k t rd' [[_ Ht]|(_ & E & E')]%H Hrd'.
    + destruct (S3 k t rd' Ht Hrd'). rewrite Hr, lookup_insert_ne by lia. split; [lia|done].
    + assert (rd' = rd) as -> by congruence. split; [lia|].
      rewrite Hr, lookup_insert_eq, E. cbn. by rewrite Er.
  - intros k t rd' [[_ Ht]|(_ & E & E')]%H Hrd'.
    + rewrite Hf, lookup_insert_ne; [by eapply S4|]. apply S1 in Ht. lia.
    + by rewrite Hf, E, lookup_insert_eq.
Qed.

Lemma store_open p baud client md h now m : store_ok m → store_ok (open_success p baud client md h now m).
Proof.
  intros S. eapply (store_install m _ p (next m)); try done; unfold open_success; mgr_simpl;
    [lia| | |]; [|reflexivity|].
  - lia.
  - intros k t [[<- <-]|[? ?]]%lookup_insert_Some; [by right|by left].
Qed.

Lemma store_send tx e m : store_ok m → store_ok (send_ tx e m).
Proof.
  intros S. destruct (send_maps tx e m) as (? & _ & _ & _ & _ & ? & ? & ?).
  apply (store_same m); [done|by apply store_le_eq|done].
Qed.

Lemma store_rebind_end key new reason ser h tx buf m :
  store_ok m → store_ok (rebind_end key new reason ser h tx buf m).
Proof.
  intros S. unfold rebind_end. do 2 apply store_send.
  eapply (store_install m _ key (next m)); try done; mgr_simpl; [lia| | |]; [|reflexivity|].
  - lia.
  - intros k t. destruct (decide (k = key)) as [->|].
    + rewrite lookup_alter_eq. intros (t' & _ & ->)%fmap_Some. by right.
    + rewrite lookup_alter_ne by done. by left.
Qed.

Lemma store_reader_turn rd read ms m : store_ok m → store_ok (reader_turn rd read ms m).
Proof.
  intros S. destruct (reader_turn_maps rd read ms m) as (E1 & _ & _ & _ & _ & E2 & E3).
  apply (store_same m); [done| |done]. split_and!; [by rewrite E3| |by rewrite E2].
  intros i _. unfold reader_turn. destruct (readers m !! rd) as [r|] eqn:Hr; [|done].
  assert (∀ partial b m1, readers m1 = readers m →
    rt_stop <$> readers (set_reader rd partial b m1) !! i = rt_stop <$> readers m !! i) as Hset.
  { intros partial b m1 E. mgr_simpl. rewrite E. destruct (decide (i = rd)) as [->|].
    - rewrite lookup_alter_eq. by rewrite Hr.
    - by rewrite lookup_alter_ne. }
  destruct (negb _); [done|]. destruct (default _ _); [by apply Hset|].
  destruct read as [data| |msg]; [|done|].
  - destruct (read_data _ _ _ _) as [[ls q] pb]. apply Hset. mgr_simpl. apply sends_maps.
  - apply Hset. apply send_maps.
Qed.

Lemma store_continue_close p m w : store_ok m →
  let '(key, taken, m') := close_begin p m in store_ok (mgr (continue_close (Some (key, taken)) m' w)).
Proof.
  intros S. pose proof (store_close_begin p m S) as S'.
  destruct (close_begin p m) as [[key taken] m']. cbn in *.
  destruct (close_waits taken); [done|]. by apply store_close_end.
Qed.

Lemma store_continue_rebind key new reason ser h w :
  store_ok (mgr w) → store_ok (mgr (continue_rebind key new reason ser h w)).
Proof.
  intros C. unfold continue_rebind. pose proof (store_rebind_begin key (mgr w) C) as C'.
  destruct (rebind_begin key (mgr w)) as [[[tx buf]|] m]; cbn [snd mgr] in *; [|done].
  destruct (match sessions (mgr w) !! key with Some _ => _ | None => _ end); cbn [mgr spawn]; [done|].
  by apply store_rebind_end.
Qed.

Lemma store_eq m m' : store_ok m → next m' = next m → readers m' = readers m → flags m' = flags m →
  sessions m' = sessions m → store_ok m'.
Proof. intros. apply (store_same m); [done|by apply store_le_eq|done]. Qed.

Lemma store_bump key m : store_ok m → store_ok (bump key m).
Proof. intros. by apply (store_eq m). Qed.

Lemma store_step e w : store_ok (mgr w) → store_ok (mgr (exec e w)).
Proof.
  intros C. destruct e; cbn [SerialWorld.exec in_mgr mgr]; try done.
  - unfold open_check. destruct (sessions (mgr w) !! _) as [s|]; [|done].
    destruct (is_open s); [|done]. cbn [mgr]. by apply store_bump, store_with_session.
  - destruct (tasks w !! t) as [[]|]; try done. cbn [finish mgr]. unfold open_finish.
    destruct (open_loop _ _ _ _) as [[[h|] le] tt']; [|done]. by apply store_open.
  - by destruct (write_check p client (mgr w)) as [[key h]|].
  - destruct (tasks w !! t) as [[]|]; try done. destruct o; try done. by apply store_with_session.
  - pose proof (store_continue_close p (mgr w) w C) as H.
    by destruct (close_begin p (mgr w)) as [[key taken] m].
  - destruct (tasks w !! t) as [[]|] eqn:Et; try done; cbn [finish mgr].
    + by apply store_close_end.
    + by apply store_rebind_end.
  - unfold grace_schedule. destruct (has_clients _ _ || _); [done|]. by apply store_bump.
  - destruct (tasks w !! t) as [[]|]; try done. cbn [finish mgr].
    unfold grace_fire. destruct (_ || _); [done|].
    pose proof (store_continue_close key (mgr w) (finish t (mgr w) w) C) as H.
    by destruct (close_begin key (mgr w)) as [[k taken] m'].
  - unfold attach_reader. destruct (broadcasters (mgr w) !! _); [|done].
    assert (store_ok (subscribe n (mgr w))) by by apply (store_eq (mgr w)).
    destruct (sessions (subscribe _ _) !! _); [|done].
    by apply store_bump, store_with_session.
  - by apply store_with_session.
  - unfold acquire_writer. destruct (sessions (mgr w) !! _) as [s|]; [|done].
    destruct (writer_client_id s); [done|]. by apply store_bump, store_with_session.
  - apply store_with_session; [done|]. intros s. by case_decide.
  - unfold preempt_for_deploy, close_port_if_generation. set (m1 := preempt _ _ _ _ _).
    assert (store_ok m1) as C1 by by apply (store_eq (mgr w)). case_decide; [|done].
    pose proof (store_continue_close (resolve_port_key p (mgr w)) m1 w C1) as H1.
    by destruct (close_begin _ m1) as [[k taken] m'].
  - by apply (store_eq (mgr w)).
  - unfold notify_port_renumbered. destruct (broadcasters (mgr w) !! _) as [tx|]; [|done].
    rewrite (surjective_pairing (send _ _ (mgr w))), (surjective_pairing (send _ _ _)). cbn [snd].
    by do 2 apply store_send.
  - unfold notify_port_rebind_failed. destruct (broadcasters (mgr w) !! _) as [tx|]; [|done].
    by apply store_send.
  - by destruct (rebind_check old_port (mgr w)) as [[key baud]|].
  - destruct (tasks w !! t) as [[]|]; try done.
    destruct (open_physical_serial _ _ _).1 as [h|]; [|done]. by apply store_continue_rebind.
  - by apply store_reader_turn.
  - by apply (store_eq (mgr w)).
  - by apply (store_eq (mgr w)).
  - by apply (store_eq (mgr w)).
  - unfold process_crash_line. destruct (crash_decoders (mgr w) !! _); [|done].
    destruct (process_line _ _). by apply (store_eq (mgr w)).
Qed.

(** in every history, under every interleaving of opens, closes, timers,
    preemptions and rebindings, the reader of a session is not told to stop
    as long as the session has it, and no two sessions share a stop flag. *)
Theorem live_reader_not_stopped es k s rd :
  let m := mgr (run is_windows process_line es start) in
  sessions m !! k = Some s → reader_handle s = Some rd →
  (∃ r, readers m !! rd = Some r ∧ rt_stop r = stop_flag s) ∧ flags m !! stop_flag s = Some false ∧
  ∀ k' s', sessions m !! k' = Some s' → stop_flag s' = stop_flag s → k' = k.
Proof.
  intros m Hs Hr. assert (store_ok m) as [S1 S2 S3 S4].
  { unfold m, run. clear. assert (store_ok (mgr (start (D := D)))) as H0.
    { split; intros *; cbn; by rewrite lookup_empty. }
    revert H0. generalize (start (D := D)). induction es as [|e es IH]; intros w H0; cbn [foldl]; [done|].
    by apply IH, store_step. }
  split_and!.
  - destruct (S3 k s rd Hs Hr) as [_ H]. by apply fmap_Some in H as (r & ? & ?); exists r.
  - by eapply S4.
  - intros k' s' Hs' E. by eapply S2.
Qed.

(** ** What a reader does *)

Lemma sends_log tx c ls m : chans m !! tx = Some c → receivers c ≠ 0 →
  chans (foldl (λ m l, send_ tx (Data l) m) m ls) !! tx =
    Some {| sent := sent c ++ (Data <$> ls); receivers := receivers c |}.
Proof.
  revert m c. induction ls as [|l ls IH]; intros m c Hc Hr; cbn [foldl fmap list_fmap].
  - rewrite app_nil_r, Hc. by destruct c.
  - rewrite (IH (send_ tx (Data l) m) {| sent := sent c ++ [Data l]; receivers := receivers c |}).
    + cbn [sent receivers]. by rewrite <- app_assoc.
    + unfold send_, send. rewrite Hc. rewrite decide_False by done. mgr_simpl. by rewrite lookup_insert_eq.
    + done.
Qed.

(** The turns of reader [rd] as it receives [reads]. *)
Definition turns (rd : nat) (reads : list (str * Z)) m : SharedSerialManager D :=
  foldl (λ m r, reader_turn rd (ReadBytes r.1) r.2 m) m reads.

Lemma turns_read_all rd reads m r c pb : readers m !! rd = Some r → rt_running r = true →
  flags m !! rt_stop r = Some false → chans m !! rt_tx r = Some c → receivers c ≠ 0 →
  default new_buffer (bufs m !! rt_buf r) = pb →
  let '(ls, rest, _) := read_all reads (rt_partial r) pb in
  (sent <$> chans (turns rd reads m) !! rt_tx r) = Some (sent c ++ (Data <$> ls)) ∧
  (rt_partial <$> readers (turns rd reads m) !! rd) = Some rest.
Proof.
  revert m r c pb. induction reads as [|[d ms] reads IH]; intros m r c pb Hr Hrun Hf Hc Hn Hb.
  { cbn. rewrite Hc, Hr. cbn. by rewrite app_nil_r. }
  cbn [turns foldl read_all]. unfold turns in IH.
  destruct (read_data d ms (rt_partial r) pb) as [[ls1 p1] pb1] eqn:E1.
  assert (reader_turn rd (ReadBytes d) ms m =
    set_reader rd p1 true (set_bufs (<[rt_buf r := pb1]>
      (bufs (foldl (λ m l, send_ (rt_tx r) (Data l) m) m ls1)))
      (foldl (λ m l, send_ (rt_tx r) (Data l) m) m ls1))) as Et.
  { unfold reader_turn. rewrite Hr, Hrun, Hf, Hb. cbn [negb default]. by rewrite E1. }
  destruct (sends_maps (rt_tx r) ls1 m) as (_ & _ & _ & _ & _ & Er & Ef & _).
  specialize (IH (reader_turn rd (ReadBytes d) ms m)
    {| rt_stop := rt_stop r; rt_tx := rt_tx r; rt_buf := rt_buf r; rt_handle := rt_handle r;
       rt_port := rt_port r; rt_partial := p1; rt_running := true |}
    {| sent := sent c ++ (Data <$> ls1); receivers := receivers c |} pb1).
  cbn [fst snd] in *. destruct (read_all reads p1 pb1) as [[ls2 rest] pb2] eqn:E2.
  cbn [rt_partial] in IH. rewrite E2 in IH. cbn [rt_tx rt_stop rt_buf sent receivers rt_running] in IH.
  destruct IH as [IH1 IH2].
  - rewrite Et. mgr_simpl. rewrite lookup_alter_eq, Er, Hr. done.
  - done.
  - rewrite Et. mgr_simpl. by rewrite Ef.
  - rewrite Et. mgr_simpl. by apply sends_log.
  - done.
  - rewrite Et. mgr_simpl. by rewrite lookup_insert_eq.
  - rewrite IH1, IH2. split; [|done]. by rewrite fmap_app, app_assoc.
Qed.

(** a running reader with at least one receiver delivers the text it
    reads: however the text is cut, the channel gains exactly its lines, in
    order, and the unfinished line is kept. *)
Theorem reader_delivers rd reads m r c : readers m !! rd = Some r → rt_running r = true →
  flags m !! rt_stop r = Some false → chans m !! rt_tx r = Some c → receivers c ≠ 0 →
  reads ≠ [] → Forall (λ r, decoded r.1) reads →
  length (buffer (default new_buffer (bufs m !! rt_buf r))) ≤ OUTPUT_BUFFER_CAP →
  let text := rt_partial r ++ mjoin reads.*1 in
  (sent <$> chans (turns rd reads m) !! rt_tx r) = Some (sent c ++ (Data <$> text_lines text)) ∧
  (rt_partial <$> readers (turns rd reads m) !! rd) = Some (text_rest text).
Proof.
  intros Hr Hrun Hf Hc Hn Hne Hd Hb text.
  pose proof (turns_read_all rd reads m r c _ Hr Hrun Hf Hc Hn eq_refl) as H.
  pose proof (read_all_spec reads (rt_partial r) _ Hd Hb) as Hs. cbn zeta in Hs.
  destruct (read_all reads (rt_partial r) _) as [[ls rest] pb'].
  destruct Hs as (-> & -> & _). by destruct reads.
Qed.

Lemma stopped_turn rd read ms m r : readers m !! rd = Some r →
  rt_running r = false ∨ flags m !! rt_stop r = Some true →
  let m' := reader_turn rd read ms m in
  chans m' = chans m ∧ bufs m' = bufs m ∧ flags m' = flags m ∧
  ∃ r', readers m' !! rd = Some r' ∧ rt_stop r' = rt_stop r ∧ rt_running r' = false.
Proof.
  intros Hr Hs. cbn zeta. unfold reader_turn. rewrite Hr. destruct (rt_running r) eqn:Hrun; cbn [negb].
  - destruct Hs as [?|Hf]; [done|]. rewrite Hf. cbn [from_option id]. mgr_simpl. split_and!; try done.
    rewrite lookup_alter_eq, Hr. by eexists.
  - split_and!; try done. by exists r.
Qed.

(** closing silences. After [close_port] has taken a session, its reader
    sends no event and writes no buffer any more, whatever its handle still
    returns and however often it runs. *)
Theorem close_silences_reader p m s rd r reads :
  sessions m !! resolve_port_key p m = Some s → readers m !! rd = Some r → rt_stop r = stop_flag s →
  let m1 := (close_begin p m).2 in
  let m2 := foldl (λ m x, reader_turn rd x.1 x.2 m) m1 reads in
  chans m2 = chans m ∧ bufs m2 = bufs m.
Proof.
  intros Hs Hr E m1 m2.
  assert (chans m1 = chans m ∧ bufs m1 = bufs m ∧ ∃ r', readers m1 !! rd = Some r' ∧
    (rt_running r' = false ∨ flags m1 !! rt_stop r' = Some true)) as H1.
  { unfold m1, close_begin. mgr_simpl. rewrite Hs. mgr_simpl. split_and!; try done.
    exists r. split; [done|]. right. by rewrite E, lookup_insert_eq. }
  unfold m2. clear m2. clearbody m1. revert m1 H1.
  induction reads as [|x reads IH]; intros m1 (E1 & E2 & r' & Hr' & Hst); cbn [foldl]; [done|].
  destruct (stopped_turn rd x.1 x.2 m1 r' Hr' Hst) as (E3 & E4 & E5 & r2 & Hr2 & Es2 & Hrun2).
  apply IH. rewrite E3, E4. split_and!; try done. exists r2. split; [done|]. by left.
Qed.
End Store.

Notation run0 := (run (D := unit) false no_decoder).

Definition attached_history : list (Event unit) :=
  [EvOpen (&"COM3") 115200 (&"ide") None t0; EvOpened 0 (opens 1) t0;
   EvAttach (&"COM3") (&"ide") None t0].

Definition attached_world : World unit := run0 attached_history start.

Lemma live_reader_not_stopped_witness :
  ∃ s, sessions (mgr attached_world) !! &"COM3" = Some s ∧
    flags (mgr attached_world) !! stop_flag s = Some false.
Proof.
  destruct (sessions (mgr attached_world) !! &"COM3") as [s|] eqn:Hs.
  - exists s. split; [done|].
    destruct (reader_handle s) as [rd|] eqn:Hr.
    + destruct (live_reader_not_stopped false no_decoder attached_history (&"COM3") s rd Hs Hr)
        as (_ & Hf & _). exact Hf.
    + assert (bool_decide (is_Some (sessions (mgr attached_world) !! &"COM3" ≫= reader_handle)) = true) as H
        by by vm_compute.
      rewrite Hs in H. cbn [mbind option_bind] in H. rewrite Hr in H. discriminate H.
  - assert (bool_decide (is_Some (sessions (mgr attached_world) !! &"COM3")) = true) as H by by vm_compute.
    rewrite Hs in H. discriminate H.
Defined.

(** The reader of COM3 is task 3, its channel 1. *)
Definition com3_reader (partial : str) : ReaderTask :=
  {| rt_stop := 0; rt_tx := 1; rt_buf := 2; rt_handle := 1; rt_port := &"COM3";
     rt_partial := partial; rt_running := true |}.

Lemma reader_delivers_witness :
  (sent <$> chans (turns 3 [(&"temp=", 1%Z); (&"21" ++ [nl] ++ &"te", 2%Z)] (mgr attached_world)) !! 1)
    = Some [Data (&"temp=21")].
Proof.
  refine (proj1 (reader_delivers 3 [(&"temp=", 1%Z); (&"21" ++ [nl] ++ &"te", 2%Z)] (mgr attached_world)
    (com3_reader []) {| sent := []; receivers := 1 |} _ _ _ _ _ _ _ _)).
  - by vm_compute.
  - done.
  - by vm_compute.
  - by vm_compute.
  - done.
  - done.
  - repeat constructor; by vm_compute.
  - vm_compute (length _). lia.
Defined.

Lemma close_silences_reader_witness :
  ∃ s, sessions (mgr attached_world) !! &"COM3" = Some s ∧
    chans (reader_turn 3 (ReadBytes (&"late" ++ [nl])) 9 (close_begin (&"COM3") (mgr attached_world)).2)
      = chans (mgr attached_world).
Proof.
  destruct (sessions (mgr attached_world) !! &"COM3") as [s|] eqn:Hs.
  - exists s. split; [done|].
    refine (proj1 (close_silences_reader (&"COM3") (mgr attached_world) s 3 (com3_reader [])
      [(ReadBytes (&"late" ++ [nl]), 9%Z)] _ _ _)); [exact Hs|by vm_compute|].
    assert ((stop_flag <$> sessions (mgr attached_world) !! &"COM3") = Some 0) as H by by vm_compute.
    rewrite Hs in H. cbn in H. by injection H as ->.
  - assert (bool_decide (is_Some (sessions (mgr attached_world) !! &"COM3")) = true) as H by by vm_compute.
    rewrite Hs in H. discriminate H.
Defined.
