(* ===== verification/HeaderScan.v ===== *)
(** * [fbuild-header-scan/src/scanner.rs]: the include scanner

    [scan] as a loop over the bytes that are left.  A position [bytes[i..]]
    of the source is a suffix; looking back one byte, which the raw-string
    test does, is the [prev] of the cursor.  Lines and columns are [u32]. *)
From S2P Require Import Prelude RustStr.

Inductive IncludeKind := Quoted | Angled.
#[global] Instance IncludeKind_eq_dec : EqDecision IncludeKind.
Proof. solve_decision. Defined.

Record Span := { line : Z; col : Z }.
Record IncludeRef := { path : str; kind : IncludeKind; span : Span }.

(** [RawString] carries [raw_delim]. *)
Inductive State :=
  | Code
  | LineComment
  | BlockComment
  | StringLit
  | CharLit
  | RawString (raw_delim : str).

Definition is_code (s : State) : bool := match s with Code => true | _ => false end.

Definition dquote : ascii := "034"%char.
Definition squote : ascii := "'"%char.
Definition backslash : ascii := "\"%char.
Definition slash : ascii := "/"%char.
Definition star : ascii := "*"%char.
Definition hash : ascii := "#"%char.

Definition is_horizontal_ws (b : ascii) : bool :=
  bool_decide (b = sp) || bool_decide (b = tab) || bool_decide (b = cr).

Definition u32 (n : Z) : Z := n mod 2 ^ 32.

(** ** Raw strings *)

(** The scan for the opening parenthesis of [is_raw_string_open], from after
    the quote. *)
Fixpoint raw_paren_ahead (s : str) : bool :=
  match s with
  | [] => false
  | c :: s' =>
      if decide (c = "("%char) then true
      else if decide (c = nl) then false
      else if decide (c = dquote) then false
      else raw_paren_ahead s'
  end.

Definition is_raw_string_open (s : str) : bool :=
  match s with
  | [] => false
  | c :: s' =>
      let j :=
        match s' with
        | d :: s'' =>
            if decide (c = "u"%char ∧ d = "8"%char) then s''
            else if decide (c = "L"%char ∨ c = "u"%char ∨ c = "U"%char) then s' else s
        | [] => if decide (c = "L"%char ∨ c = "u"%char ∨ c = "U"%char) then s' else s
        end in
      match j with
      | r :: q :: after_quote =>
          bool_decide (r = "R"%char) && bool_decide (q = dquote) && raw_paren_ahead after_quote
      | _ => false
      end
  end.

(** The delimiter and the bytes consumed up to and with the parenthesis; the
    default stands for the two [expect]s. *)
Definition raw_open (s : str) : option (str * nat) :=
  q ← find_char dquote s;
  p ← find_char "(" (drop (S q) s);
  Some (take p (drop (S q) s), S q + S p).

(** At a closing parenthesis: the whole terminator is consumed at once. *)
Definition raw_close (delim : str) (s : str) : option nat :=
  let close := ")"%char :: delim ++ [dquote] in
  if starts_with close s then Some (length close) else None.

(** ** Includes *)

Fixpoint skip_ws (s : str) : nat * str :=
  match s with
  | c :: s' => if is_horizontal_ws c then let '(n, r) := skip_ws s' in (S n, r) else (0, s)
  | [] => (0, [])
  end.

(** Up to [close] on this line: what is before it and what is after. *)
Fixpoint until_close (close : ascii) (s : str) : option (str * str) :=
  match s with
  | [] => None
  | c :: s' =>
      if decide (c = close) then Some ([], s')
      else if decide (c = nl) then None
      else '(p, r) ← until_close close s'; Some (c :: p, r)
  end.

(** [try_parse_include] on the bytes after the [#]; [column] is
    [hash_pos - line_start + 1]. *)
Definition try_parse_include (s : str) (ln column : Z) : option (IncludeRef * nat) :=
  let '(n1, s1) := skip_ws s in
  s2 ← strip_prefix (&"include") s1;
  let '(n2, s3) := skip_ws s2 in
  match s3 with
  | [] => None
  | c :: s4 =>
      '(close, k) ← (if decide (c = "<"%char) then Some (">"%char, Angled)
                     else if decide (c = dquote) then Some (dquote, Quoted) else None);
      '(p, _) ← until_close close s4;
      p ← from_utf8 p;
      Some ({| path := p; kind := k; span := {| line := ln; col := u32 column |} |},
            1 + n1 + 7 + n2 + 1 + length p + 1)
  end.

(** ** The loop *)

Record cursor := {
  c_prev : option ascii;  (** [bytes[i - 1]] *)
  c_line : Z;
  c_col : nat;            (** [i - line_start] *)
  c_start : bool;         (** [at_line_start_in_code] *)
}.

Definition begin_cursor : cursor := {| c_prev := None; c_line := 1; c_col := 0; c_start := true |}.

(** [i += n] past the first [n] bytes of [s]. *)
Definition advance (n : nat) (s : str) (start : bool) (c : cursor) : cursor :=
  {| c_prev := last (take n s); c_line := c_line c; c_col := c_col c + n; c_start := start |}.

Definition new_line (st : State) (c : cursor) : cursor :=
  {| c_prev := Some nl; c_line := u32 (c_line c + 1); c_col := 0; c_start := is_code st |}.

Definition is_ident (c : ascii) : bool := is_ascii_alphanumeric c || bool_decide (c = "_"%char).

Definition ident_before (c : cursor) : bool :=
  match c_prev c with Some p => is_ident p | None => false end.

Definition starts_raw (b : ascii) : bool :=
  bool_decide (b = "R"%char) || bool_decide (b = "L"%char) ||
  bool_decide (b = "u"%char) || bool_decide (b = "U"%char).

(** One iteration at the byte [b] with [rest] after it, not a newline: the
    include found, the new state, the bytes consumed and the new
    [at_line_start_in_code]. *)
Definition scan_code (b : ascii) (rest : str) (c : cursor) : option IncludeRef * State * nat * bool :=
  let s := b :: rest in
  if starts_with [slash; slash] s then (None, LineComment, 2, false)
  else if starts_with [slash; star] s then (None, BlockComment, 2, false)
  else
    match (if starts_raw b && negb (ident_before c) && is_raw_string_open s then raw_open s else None) with
    | Some (delim, n) => (None, RawString delim, n, false)
    | None =>
        if decide (b = dquote) then (None, StringLit, 1, false)
        else if decide (b = squote) then (None, CharLit, 1, false)
        else
          match (if bool_decide (b = hash) && c_start c
                 then try_parse_include rest (c_line c) (Z.of_nat (c_col c) + 1) else None) with
          | Some (inc, consumed) => (Some inc, Code, consumed, false)
          | None => (None, Code, 1, c_start c && is_horizontal_ws b)
          end
    end.

(** Inside a literal that [q] ends. *)
Definition scan_quoted (q : ascii) (st : State) (b : ascii) (rest : str) : State * nat :=
  if decide (b = backslash ∧ rest ≠ []) then (st, 2)
  else if decide (b = q) then (Code, 1) else (st, 1).

Definition scan_byte (st : State) (b : ascii) (rest : str) (c : cursor) :
    option IncludeRef * State * nat * bool :=
  match st with
  | LineComment => (None, LineComment, 1, c_start c)
  | BlockComment =>
      if starts_with [star; slash] (b :: rest) then (None, Code, 2, c_start c)
      else (None, BlockComment, 1, c_start c)
  | StringLit => let '(st, n) := scan_quoted dquote StringLit b rest in (None, st, n, c_start c)
  | CharLit => let '(st, n) := scan_quoted squote CharLit b rest in (None, st, n, c_start c)
  | RawString delim =>
      match raw_close delim (b :: rest) with
      | Some n => (None, Code, n, c_start c)
      | None => (None, RawString delim, 1, c_start c)
      end
  | Code => scan_code b rest c
  end.

Fixpoint scan_loop (fuel : nat) (st : State) (c : cursor) (s : str) : list IncludeRef :=
  match fuel, s with
  | O, _ | _, [] => []
  | S n, b :: rest =>
      if decide (b = nl) then
        let st := match st with LineComment => Code | st => st end in
        scan_loop n st (new_line st c) rest
      else
        let '(inc, st, k, start) := scan_byte st b rest c in
        (match inc with Some r => [r] | None => [] end) ++
        scan_loop n st (advance k s start c) (drop k s)
  end.

(** Every iteration consumes a byte, so the length is fuel enough. *)
Definition scan (src : str) : list IncludeRef := scan_loop (length src) Code begin_cursor src.

Example scan_demo :
  map path (scan (&"// #include <no.h>" ++ [nl] ++ &"  # include <a.h>" ++ [nl] ++
    &"char c = '#'; /* " ++ [nl] ++ &"#include <no.h> */" ++ [nl] ++ &"#include " ++ [dquote] ++ &"b.h" ++ [dquote]))
  = [&"a.h"; &"b.h"].
Proof. by vm_compute. Qed.

(** ** Every iteration consumes *)

Lemma skip_ws_app s n r : skip_ws s = (n, r) → s = take n s ++ r ∧ n = length (take n s) ∧
  Forall (λ c, is_horizontal_ws c = true) (take n s).
Proof.
  revert n. induction s as [|c s IH]; intros n; cbn; [by intros [= <- <-]|].
  destruct (is_horizontal_ws c) eqn:E.
  - destruct (skip_ws s) as [m r']. intros [= <- <-].
    destruct (IH m eq_refl) as (E1 & E2 & E3). cbn. split_and!; [by rewrite <- E1|by rewrite <- E2|by constructor].
  - intros [= <- <-]. done.
Qed.

Lemma scan_byte_pos st b rest c : 0 < (scan_byte st b rest c).1.2.
Proof.
  destruct st; cbn [scan_byte fst snd]; try lia.
  - unfold scan_code. destruct (starts_with _ _); [cbn; lia|].
    destruct (starts_with _ _); [cbn; lia|].
    destruct (if _ && _ then _ else _) as [[delim k]|] eqn:E.
    + cbn. destruct (_ && _) in E; [|done]. unfold raw_open in E.
      apply bind_Some in E as (q & _ & E). apply bind_Some in E as (p & _ & [= <- <-]). lia.
    + destruct (decide _); [cbn; lia|]. destruct (decide _); [cbn; lia|].
      destruct (bool_decide (b = hash) && c_start c); [|cbn; lia].
      destruct (try_parse_include rest _ _) as [[inc k]|] eqn:E'; [|cbn; lia].
      cbn. unfold try_parse_include in E'.
      destruct (skip_ws rest) as [n1 s1]. apply bind_Some in E' as (s2 & _ & E').
      destruct (skip_ws s2) as [n2 [|d s3]]; [done|].
      apply bind_Some in E' as ([cl kd] & _ & E'). apply bind_Some in E' as ([p r] & _ & E').
      apply bind_Some in E' as (p' & _ & [= <- <-]). lia.
  - destruct (starts_with _ _); cbn; lia.
  - unfold scan_quoted. repeat case_decide; cbn; lia.
  - unfold scan_quoted. repeat case_decide; cbn; lia.
  - unfold raw_close. destruct (starts_with _ _); cbn; lia.
Qed.

Lemma scan_loop_fuel n m st c s : length s ≤ n → length s ≤ m → scan_loop n st c s = scan_loop m st c s.
Proof.
  revert m st c s. induction n as [|n IH]; intros [|m] st c [|b s] Hn Hm; cbn [length] in *; try lia; try done.
  cbn [scan_loop]. case_decide; [apply IH; lia|].
  pose proof (scan_byte_pos st b s c) as Hk. destruct (scan_byte st b s c) as [[[inc st'] k] start].
  cbn in Hk. f_equal. apply IH; destruct k; try lia; cbn [drop]; rewrite length_drop; lia.
Qed.
