(* ===== verification/HeaderTokens.v ===== *)
(** * What the include scanner finds

    C++ source as a list of lexical tokens, its rendering, and the includes
    it means.  The scanner, run on the rendering, reports exactly those: an
    [#include] in a comment or in any kind of literal is never reported, and
    one at the start of a line always is, with its line and column. *)
From S2P Require Import Prelude RustStr HeaderScan.

(** ** Tokens *)

(** A byte of a quoted literal, or an escaped one. *)
Inductive lit := Plain (c : ascii) | Esc (c : ascii).

Inductive tok :=
  | TNewline
  | TSpace (c : ascii)
  | TWord (w : str)
  | TPunct (c : ascii)
  | TLine (text : str)
  | TBlock (text : str)
  | TString (l : list lit)
  | TChar (l : list lit)
  | TRaw (prefix delim text : str)
  | TInclude (ws1 ws2 : str) (k : IncludeKind) (p : str)
  | TSlash
  | THash.

Definition render_lit (l : lit) : str := match l with Plain c => [c] | Esc c => [backslash; c] end.

Definition raw_terminator (delim : str) : str := ")"%char :: delim ++ [dquote].

Definition open_of (k : IncludeKind) : ascii := match k with Angled => "<"%char | Quoted => dquote end.
Definition close_of (k : IncludeKind) : ascii := match k with Angled => ">"%char | Quoted => dquote end.

Definition render_tok (t : tok) : str :=
  match t with
  | TNewline => [nl]
  | TSpace c => [c]
  | TWord w => w
  | TPunct c => [c]
  | TLine text => &"//" ++ text ++ [nl]
  | TBlock text => &"/*" ++ text ++ &"*/"
  | TString l => [dquote] ++ mbind render_lit l ++ [dquote]
  | TChar l => [squote] ++ mbind render_lit l ++ [squote]
  | TRaw prefix delim text => prefix ++ [dquote] ++ delim ++ &"(" ++ text ++ raw_terminator delim
  | TInclude ws1 ws2 k p => [hash] ++ ws1 ++ &"include" ++ ws2 ++ [open_of k] ++ p ++ [close_of k]
  | TSlash => [slash]
  | THash => [hash]
  end.

Definition render (ts : list tok) : str := mbind render_tok ts.

(** ** Well-formed token lists *)

Definition raw_prefixes : list str := [&"R"; &"LR"; &"uR"; &"UR"; &"u8R"].

Definition plain_in (q : ascii) (l : lit) : Prop :=
  match l with Plain c => c ≠ q ∧ c ≠ backslash ∧ c ≠ nl | Esc c => c ≠ nl end.

#[global] Instance plain_in_dec q l : Decision (plain_in q l).
Proof. destruct l; unfold plain_in; apply _. Defined.

(** [pat] does not occur in [text ++ pat] before its end. *)
Definition unclosed (pat text : str) : Prop :=
  ∀ k, k < length text → starts_with pat (drop k (text ++ pat)) = false.

Definition wf_tok (t : tok) : Prop :=
  match t with
  | TNewline => True
  | TSpace c => is_horizontal_ws c = true
  | TWord w => w ≠ [] ∧ Forall (λ c, is_ident c = true) w
  | TPunct c => c ∉ [nl; dquote; squote; slash; hash] ∧ is_ident c = false ∧ is_horizontal_ws c = false
  | TLine text => nl ∉ text ∧ last text ≠ Some backslash
  | TBlock text => unclosed [star; slash] text
  | TString l => Forall (plain_in dquote) l
  | TChar l => Forall (plain_in squote) l
  | TRaw prefix delim text =>
      prefix ∈ raw_prefixes ∧ Forall (λ c, c ∉ ["("%char; nl; dquote]) delim ∧
      unclosed (raw_terminator delim) text
  | TInclude ws1 ws2 k p =>
      Forall (λ c, is_horizontal_ws c = true) ws1 ∧ Forall (λ c, is_horizontal_ws c = true) ws2 ∧
      close_of k ∉ p ∧ nl ∉ p ∧ decoded p
  | TSlash | THash => True
  end.

Definition is_word (t : tok) : bool := match t with TWord _ => true | _ => false end.

(** Whether the line so far is blank after [t], given that it was before. *)
Definition start_after (t : tok) (start : bool) : bool :=
  match t with TNewline | TLine _ => true | TSpace _ => start | _ => false end.

(** Whether the line is blank so far for C, which takes a comment for white
    space. *)
Definition blank_after (t : tok) (blank : bool) : bool :=
  match t with TNewline | TLine _ => true | TSpace _ | TBlock _ => blank | _ => false end.

(** After the number sign: a directive other than an include. *)
Fixpoint other_directive (ts : list tok) : Prop :=
  match ts with TSpace _ :: ts => other_directive ts | TWord w :: _ => w ≠ &"include" | _ => True end.

(** A word is maximal and not the prefix of a literal that follows; a slash
    opens no comment; an include begins its line, and a number sign where C
    sees a directive begins another one. *)
Fixpoint wf_toks (after_word start blank : bool) (ts : list tok) : Prop :=
  match ts with
  | [] => True
  | t :: ts =>
      wf_tok t ∧
      match t with
      | TWord w => after_word = false ∧
          match ts with TString _ :: _ => w ∉ raw_prefixes | _ => True end
      | TRaw _ _ _ => after_word = false
      | TInclude _ _ _ _ => start = true
      | TSlash => match render ts with c :: _ => c ≠ slash ∧ c ≠ star | [] => True end
      | THash => blank = true → other_directive ts
      | _ => True
      end ∧
      wf_toks (is_word t) (start_after t start) (blank_after t blank) ts
  end.

(** ** Meaning *)

(** Position after some text. *)
Fixpoint move (s : str) (p : Z * nat) : Z * nat :=
  match s with
  | [] => p
  | c :: s => move s (if decide (c = nl) then (u32 (p.1 + 1), 0) else (p.1, S p.2))
  end.

Definition include_of (t : tok) (p : Z * nat) : list IncludeRef :=
  match t with
  | TInclude _ _ k path => [{| path := path; kind := k;
      span := {| line := p.1; col := u32 (Z.of_nat p.2 + 1) |} |}]
  | _ => []
  end.

Fixpoint includes (ts : list tok) (p : Z * nat) : list IncludeRef :=
  match ts with
  | [] => []
  | t :: ts => include_of t p ++ includes ts (move (render_tok t) p)
  end.

(** ** Runs of the scanner *)

Definition scan_from (st : State) (c : cursor) (s : str) : list IncludeRef := scan_loop (length s) st c s.

(** The cursor at position [p], after the byte [prev]. *)
Definition at_ (p : Z * nat) (prev : option ascii) (start : bool) : cursor :=
  {| c_prev := prev; c_line := p.1; c_col := p.2; c_start := start |}.

Lemma scan_from_nl st c s : scan_from st c (nl :: s) =
  scan_from (match st with LineComment => Code | st => st end)
    (new_line (match st with LineComment => Code | st => st end) c) s.
Proof. done. Qed.

Lemma scan_from_byte st c b s inc st' k start : b ≠ nl → scan_byte st b s c = (inc, st', k, start) →
  scan_from st c (b :: s) = (match inc with Some r => [r] | None => [] end) ++
    scan_from st' (advance k (b :: s) start c) (drop k (b :: s)).
Proof.
  intros Hb Hs. unfold scan_from. cbn [length scan_loop]. rewrite decide_False by done.
  pose proof (scan_byte_pos st b s c) as Hk. rewrite Hs. rewrite Hs in Hk. cbn in Hk. f_equal.
  destruct k; [lia|]. cbn [drop]. apply scan_loop_fuel; rewrite ?length_drop; lia.
Qed.

Lemma move_app s t p : move (s ++ t) p = move t (move s p).
Proof. revert p. induction s as [|c s IH]; intros p; cbn; [done|]. apply IH. Qed.

Lemma move_clean s p : nl ∉ s → move s p = (p.1, p.2 + length s).
Proof.
  revert p. induction s as [|c s IH]; intros [l n] Hn; cbn [move length].
  - by rewrite Nat.add_0_r.
  - apply not_elem_of_cons in Hn as [Hc Hn]. rewrite decide_False by done.
    rewrite IH by done. cbn. f_equal. lia.
Qed.

(** Advancing over bytes without a newline. *)
Lemma advance_at n s start p prev start' : nl ∉ take n s → n ≤ length s →
  advance n s start (at_ p prev start') = at_ (move (take n s) p) (last (take n s)) start.
Proof.
  intros Hn Hl. unfold advance, at_. cbn. rewrite move_clean by done. cbn.
  by rewrite length_take_le.
Qed.

Lemma new_line_at st p prev start : new_line st (at_ p prev start) = at_ (move [nl] p) (Some nl) (is_code st).
Proof. done. Qed.

Lemma starts_with_app pat x s : length pat ≤ length x → starts_with pat (x ++ s) = starts_with pat x.
Proof.
  intros Hl. apply eq_bool_prop_intro. rewrite !Is_true_true, !starts_with_iff. split.
  - intros [r Hr]. exists (drop (length pat) x).
    assert (take (length pat) (x ++ s) = pat) as E by (rewrite Hr; by rewrite take_app_length).
    rewrite take_app_le in E by done. rewrite <- E at 1. by rewrite take_drop.
  - intros [r ->]. exists (r ++ s). by rewrite app_assoc.
Qed.

Lemma starts_with_self pat s : starts_with pat (pat ++ s) = true.
Proof. apply starts_with_iff. by exists s. Qed.

(** One byte that the state only skips. *)
Lemma scan_skip st p pv b c s : c ≠ nl →
  scan_byte st c s (at_ p pv b) = (None, st, 1, b) →
  scan_from st (at_ p pv b) (c :: s) = scan_from st (at_ (move [c] p) (Some c) b) s.
Proof.
  intros Hc Hs. rewrite (scan_from_byte _ _ _ _ _ _ _ _ Hc Hs). cbn [app drop].
  rewrite advance_at; [cbn [take drop last]; by rewrite drop_0| |cbn; lia].
  cbn. intros E. apply elem_of_cons in E as [?|E]; [done|]. by apply not_elem_of_nil in E.
Qed.

Lemma scan_line text p pv b s : nl ∉ text →
  scan_from LineComment (at_ p pv b) (text ++ nl :: s) =
  scan_from Code (at_ (move (text ++ [nl]) p) (Some nl) true) s.
Proof.
  revert p pv. induction text as [|c text IH]; intros p pv Hn.
  - cbn [app]. rewrite scan_from_nl. by rewrite new_line_at.
  - apply not_elem_of_cons in Hn as [Hc Hn]. cbn [app].
    rewrite scan_skip by done. rewrite IH by done. cbn [app]. done.
Qed.

(** Skipping up to a terminator that ends the state. *)
Lemma scan_until st pat text p pv s : pat ≠ [] → nl ∉ pat → is_code st = false →
  (match st with LineComment => Code | st => st end) = st →
  (∀ c r cur, c ≠ nl → starts_with pat (c :: r) = false → scan_byte st c r cur = (None, st, 1, c_start cur)) →
  (∀ c r cur, starts_with pat (c :: r) = true → scan_byte st c r cur = (None, Code, length pat, c_start cur)) →
  unclosed pat text →
  scan_from st (at_ p pv false) (text ++ pat ++ s) =
  scan_from Code (at_ (move (text ++ pat) p) (last pat) false) s.
Proof.
  intros Hne Hnl Hst Hlc Hskip Hend. revert p pv. induction text as [|c text IH]; intros p pv Hu.
  - cbn [app]. destruct pat as [|a pat]; [done|].
    assert (a ≠ nl) as Ha by (intros ->; apply Hnl, list_elem_of_here).
    pose proof (starts_with_self (a :: pat) s) as Hs. cbn [app] in Hs |- *.
    rewrite (scan_from_byte _ _ _ _ _ _ _ _ Ha (Hend a (pat ++ s) _ Hs)).
    change (a :: pat ++ s) with ((a :: pat) ++ s).
    rewrite advance_at.
    + by rewrite take_app_length, drop_app_length.
    + by rewrite take_app_length.
    + rewrite length_app. lia.
  - assert (unclosed pat text) as Hu' by (intros k Hk; apply (Hu (S k)); cbn [length]; lia).
    assert (starts_with pat (c :: text ++ pat ++ s) = false) as H0.
    { pose proof (Hu 0) as H. cbn [length] in H. specialize (H ltac:(lia)). rewrite drop_0 in H.
      rewrite <- H. replace (c :: text ++ pat ++ s) with (((c :: text) ++ pat) ++ s) by
        (cbn [app]; by rewrite <- app_assoc).
      apply starts_with_app. rewrite length_app. lia. }
    cbn [app]. destruct (decide (c = nl)) as [->|Hc].
    + rewrite scan_from_nl, Hlc, new_line_at, Hst. rewrite IH by done. done.
    + rewrite scan_skip by (try done; by apply Hskip). rewrite IH by done. done.
Qed.

Lemma scan_literal q st l p pv b s : (∀ c r cur, scan_byte st c r cur =
    let '(st', n) := scan_quoted q st c r in (None, st', n, c_start cur)) →
  q ≠ nl → q ≠ backslash → Forall (plain_in q) l →
  scan_from st (at_ p pv b) (mbind render_lit l ++ q :: s) =
  scan_from Code (at_ (move (mbind render_lit l ++ [q]) p) (Some q) b) s.
Proof.
  intros Hst Hq1 Hq2 Hl. revert p pv. induction Hl as [|x l Hx Hl IH]; intros p pv.
  - cbn [mbind list_bind app]. rewrite (scan_from_byte st _ q s None Code 1 b Hq1).
    + cbn [app drop]. rewrite drop_0, advance_at; [done| |cbn; lia].
      cbn. intros E. apply elem_of_cons in E as [?|E]; [done|]. by apply not_elem_of_nil in E.
    + rewrite Hst. unfold scan_quoted. rewrite decide_False by naive_solver. by rewrite decide_True.
  - destruct x as [c|c]; cbn [mbind list_bind render_lit app]; cbn [plain_in] in Hx.
    + destruct Hx as (H1 & H2 & H3). rewrite scan_skip; [by rewrite IH|done|].
      rewrite Hst. unfold scan_quoted. rewrite decide_False by naive_solver. by rewrite decide_False.
    + rewrite (scan_from_byte st _ backslash _ None st 2 b).
      * cbn [app drop]. rewrite drop_0, advance_at.
        -- cbn [take last]. rewrite IH. done.
        -- cbn. intros E. apply elem_of_cons in E as [?|E]; [done|].
           apply elem_of_cons in E as [?|E]; [done|]. by apply not_elem_of_nil in E.
        -- cbn [length]. lia.
      * done.
      * rewrite Hst. unfold scan_quoted. rewrite decide_True; [done|]. split; [done|]. done.
Qed.

(** ** Tokens met in code *)

Definition ident_special (c : ascii) : bool :=
  implb (is_ident c) (negb (is_horizontal_ws c) &&
    negb (bool_decide (c ∈ [nl; dquote; squote; slash; hash; star; "("%char]))).

Lemma ident_not_special c : is_ident c = true →
  is_horizontal_ws c = false ∧ c ∉ [nl; dquote; squote; slash; hash; star; "("%char].
Proof.
  intros H. assert (ident_special c = true) as E.
  { destruct c as [[] [] [] [] [] [] [] []]; by vm_compute. }
  unfold ident_special in E. rewrite H in E. cbn [implb] in E.
  apply andb_prop in E as [E1 E2]. apply negb_true_iff in E1, E2.
  apply bool_decide_eq_false in E2. done.
Qed.

Lemma starts_with_head a x b s : b ≠ a → starts_with (a :: x) (b :: s) = false.
Proof.
  intros H. apply not_true_iff_false. rewrite starts_with_iff. intros [r [= -> _]]. done.
Qed.

Lemma scan_code_other b s cur : b ∉ [dquote; squote; slash; hash] →
  (starts_raw b && negb (ident_before cur) && is_raw_string_open (b :: s)) = false →
  scan_code b s cur = (None, Code, 1, c_start cur && is_horizontal_ws b).
Proof.
  intros Hb Hr. unfold scan_code. rewrite Hr.
  assert (b ≠ dquote ∧ b ≠ squote ∧ b ≠ slash ∧ b ≠ hash) as (H1 & H2 & H3 & H4) by set_solver.
  rewrite !starts_with_head by done. rewrite !decide_False by done.
  rewrite (bool_decide_eq_false_2 (b = hash)) by done. done.
Qed.

Lemma scan_code_skip b s p pv start : b ∉ [nl; dquote; squote; slash; hash] →
  (starts_raw b && negb (ident_before (at_ p pv start)) && is_raw_string_open (b :: s)) = false →
  scan_from Code (at_ p pv start) (b :: s) =
  scan_from Code (at_ (move [b] p) (Some b) (start && is_horizontal_ws b)) s.
Proof.
  intros Hb Hr. assert (b ≠ nl ∧ b ∉ [dquote; squote; slash; hash]) as [Hn Hb'] by set_solver.
  rewrite (scan_from_byte Code _ _ _ _ _ _ _ Hn (scan_code_other _ _ _ Hb' Hr)). cbn [app drop].
  rewrite drop_0, advance_at; [done| |cbn; lia].
  cbn. intros E. apply elem_of_cons in E as [?|E]; [done|]. by apply not_elem_of_nil in E.
Qed.

(** The rest of a word, after its first byte. *)
Lemma scan_word_tail w s p c : Forall (λ c, is_ident c = true) w → is_ident c = true →
  scan_from Code (at_ p (Some c) false) (w ++ s) =
  scan_from Code (at_ (move w p) (last (c :: w)) false) s.
Proof.
  intros Hw. revert p c. induction Hw as [|a w Ha Hw IH]; intros p c Hc; [done|]. cbn [app].
  rewrite scan_code_skip.
  - cbn [andb]. rewrite IH by done. done.
  - destruct (ident_not_special a Ha) as [_ ?]. set_solver.
  - unfold ident_before. cbn. rewrite Hc. by rewrite andb_false_r.
Qed.

Lemma raw_open_prefix s : is_raw_string_open s = true →
  ∃ pre r, pre ∈ raw_prefixes ∧ s = pre ++ dquote :: r.
Proof.
  assert (∀ pre j, pre ++ [ "R"%char ] ∈ raw_prefixes → 
    match j with r :: q :: after => bool_decide (r = "R"%char) && bool_decide (q = dquote) && raw_paren_ahead after
      | _ => false end = true → ∃ pre' r, pre' ∈ raw_prefixes ∧ pre ++ j = pre' ++ dquote :: r) as Hj.
  { intros pre [|r [|q j]] Hp; try done. intros [[E1 E2]%andb_prop _]%andb_prop.
    apply bool_decide_eq_true in E1, E2. subst. exists (pre ++ ["R"%char]), j. split; [done|].
    by rewrite <- app_assoc. }
  unfold is_raw_string_open. destruct s as [|c [|d s]]; [done| |].
  - case_decide as Hc; [done|]. done.
  - case_decide as Hu.
    + destruct Hu as [-> ->]. intros H. apply (Hj [("u"%char); ("8"%char)] s); [unfold raw_prefixes; set_solver|done].
    + case_decide as Hl.
      * intros H. apply (Hj [c] (d :: s)); [|done].
        unfold raw_prefixes. destruct Hl as [->|[->| ->]]; set_solver.
      * intros H. apply (Hj [] (c :: d :: s)); [unfold raw_prefixes; set_solver|done].
Qed.

Lemma raw_prefix_ident pre : pre ∈ raw_prefixes → Forall (λ c, is_ident c = true) pre ∧ pre ≠ [].
Proof.
  intros H. unfold raw_prefixes in H.
  repeat (apply elem_of_cons in H as [->|H]; [split; [|done]; repeat constructor|]).
  by apply not_elem_of_nil in H.
Qed.

(** Two runs of identifier bytes that end where the same text stops being
    one. *)
Lemma ident_split (w pre s : str) (c : ascii) r : Forall (λ c, is_ident c = true) w →
  Forall (λ c, is_ident c = true) pre → is_ident c = false →
  match s with [] => True | a :: _ => is_ident a = false end →
  w ++ s = pre ++ c :: r → w = pre ∧ s = c :: r.
Proof.
  intros Hw Hp Hc Hs. revert w Hw. induction Hp as [|a pre Ha Hp IH]; intros w Hw E.
  - destruct Hw as [|b w Hb Hw]; [done|]. cbn in E. injection E as -> _. congruence.
  - destruct Hw as [|b w Hb Hw]; cbn in E.
    + destruct s; [done|]. injection E as -> _. congruence.
    + injection E as -> E. by destruct (IH w Hw E) as [-> ->].
Qed.

Lemma word_not_raw w s : Forall (λ c, is_ident c = true) w →
  match s with [] => True | a :: _ => is_ident a = false ∧ (a = dquote → w ∉ raw_prefixes) end →
  is_raw_string_open (w ++ s) = false.
Proof.
  intros Hw Hs. destruct (is_raw_string_open (w ++ s)) eqn:E; [exfalso|done].
  apply raw_open_prefix in E as (pre & r & Hpre & E).
  apply ident_split in E as [-> ->]; [|done|by apply raw_prefix_ident|by vm_compute|].
  - destruct Hs as [_ Hs]. by apply Hs.
  - destruct s; [done|]. apply Hs.
Qed.

Lemma scan_word w s p pv start : w ≠ [] → Forall (λ c, is_ident c = true) w →
  match s with [] => True | a :: _ => is_ident a = false ∧ (a = dquote → w ∉ raw_prefixes) end →
  scan_from Code (at_ p pv start) (w ++ s) = scan_from Code (at_ (move w p) (last w) false) s.
Proof.
  intros Hne Hw Hs. pose proof (word_not_raw w s Hw Hs) as Hr.
  destruct Hw as [|c w Hc Hw]; [done|]. cbn [app] in *.
  destruct (ident_not_special c Hc) as [Hws Hsp].
  rewrite scan_code_skip; [|set_solver|by rewrite Hr, andb_false_r].
  rewrite Hws, andb_false_r. rewrite scan_word_tail by done. done.
Qed.

Lemma skip_ws_run ws s : Forall (λ c, is_horizontal_ws c = true) ws →
  match s with [] => True | a :: _ => is_horizontal_ws a = false end →
  skip_ws (ws ++ s) = (length ws, s).
Proof.
  intros Hw Hs. induction Hw as [|c ws Hc Hw IH]; cbn [app skip_ws length].
  - destruct s as [|a s]; [done|]. cbn [skip_ws]. by rewrite Hs.
  - by rewrite Hc, IH.
Qed.

Lemma until_close_run close p s : close ∉ p → nl ∉ p →
  until_close close (p ++ close :: s) = Some (p, s).
Proof.
  induction p as [|c p IH]; intros Hc Hn; cbn [app until_close].
  - by rewrite decide_True.
  - apply not_elem_of_cons in Hc as [Hc1 Hc], Hn as [Hn1 Hn].
    rewrite !decide_False by done. by rewrite IH.
Qed.

Lemma scan_include ws1 ws2 k p pos pv s : wf_tok (TInclude ws1 ws2 k p) →
  scan_from Code (at_ pos pv true) (render_tok (TInclude ws1 ws2 k p) ++ s) =
  include_of (TInclude ws1 ws2 k p) pos ++
  scan_from Code (at_ (move (render_tok (TInclude ws1 ws2 k p)) pos) (Some (close_of k)) false) s.
Proof.
  intros (Hw1 & Hw2 & Hc & Hn & Hd). cbn [include_of].
  set (body := ws1 ++ &"include" ++ ws2 ++ [open_of k] ++ p ++ [close_of k]).
  change (render_tok (TInclude ws1 ws2 k p)) with (hash :: body).
  assert (try_parse_include (body ++ s) pos.1 (Z.of_nat pos.2 + 1) =
    Some ({| path := p; kind := k; span := {| line := pos.1; col := u32 (Z.of_nat pos.2 + 1) |} |},
      length (hash :: body))) as Ht.
  { unfold body, try_parse_include. rewrite <- !app_assoc.
    rewrite skip_ws_run by done. rewrite strip_prefix_app. cbn [mbind option_bind].
    rewrite skip_ws_run; [|done|by destruct k]. cbn [app].
    assert ((if decide (open_of k = "<"%char) then Some (">"%char, Angled)
      else if decide (open_of k = dquote) then Some (dquote, Quoted) else None) = Some (close_of k, k)) as ->
      by by destruct k.
    cbn [mbind option_bind]. rewrite until_close_run by done. cbn [mbind option_bind]. unfold from_utf8. rewrite decide_True by done.
    cbn [mbind option_bind]. repeat (rewrite length_app || cbn [length]).
    change (length (&"include")) with 7. do 2 f_equal. lia. }
  assert (scan_byte Code hash (body ++ s) (at_ pos pv true) =
    (Some {| path := p; kind := k; span := {| line := pos.1; col := u32 (Z.of_nat pos.2 + 1) |} |},
     Code, length (hash :: body), false)) as Hs.
  { cbn [scan_byte]. unfold scan_code. rewrite !starts_with_head by done.
    change (starts_raw hash) with false. cbn [andb]. rewrite !decide_False by done.
    rewrite bool_decide_eq_true_2 by done. cbn [andb c_start at_ c_line c_col]. by rewrite Ht. }
  assert (hash ≠ nl) as Hnl by done.
  cbn [app]. rewrite (scan_from_byte Code _ _ _ _ _ _ _ Hnl Hs). cbn [app]. f_equal.
  change (hash :: body ++ s) with ((hash :: body) ++ s).
  rewrite advance_at, take_app_length, drop_app_length.
  - f_equal. f_equal. unfold body. rewrite !app_assoc. change (hash :: ?x ++ [close_of k]) with ((hash :: x) ++ [close_of k]).
    by rewrite last_snoc.
  - rewrite take_app_length. unfold body. intros H. apply elem_of_cons in H as [?|H]; [done|].
    assert (∀ ws, Forall (λ c, is_horizontal_ws c = true) ws → nl ∉ ws) as Hws.
    { intros ws F E. rewrite Forall_forall in F. by specialize (F nl E). }
    pose proof (Hws _ Hw1). pose proof (Hws _ Hw2).
    repeat (apply elem_of_app in H as [H|H]; [try done|]); try done.
    + by repeat (apply elem_of_cons in H as [?|H]; [done|]); apply not_elem_of_nil in H.
    + destruct k; by repeat (apply elem_of_cons in H as [?|H]; [done|]); apply not_elem_of_nil in H.
    + destruct k; by repeat (apply elem_of_cons in H as [?|H]; [done|]); apply not_elem_of_nil in H.
  - rewrite length_app. lia.
Qed.

Lemma raw_paren_ahead_run delim s : Forall (λ c, c ∉ ["("%char; nl; dquote]) delim →
  raw_paren_ahead (delim ++ "("%char :: s) = true.
Proof.
  induction 1 as [|c delim Hc Hd IH]; cbn [app raw_paren_ahead]; [done|].
  rewrite !decide_False by set_solver. done.
Qed.

Lemma is_raw_string_open_prefix pre r : pre ∈ raw_prefixes → raw_paren_ahead r = true →
  is_raw_string_open (pre ++ dquote :: r) = true.
Proof.
  intros H Hr. unfold raw_prefixes in H.
  repeat (apply elem_of_cons in H as [->|H]; [by lazy -[raw_paren_ahead]; rewrite Hr|]).
  by apply not_elem_of_nil in H.
Qed.

Lemma raw_prefix_head pre : pre ∈ raw_prefixes → ∃ b pre', pre = b :: pre' ∧ starts_raw b = true ∧ b ≠ slash ∧ b ≠ nl.
Proof.
  intros H. unfold raw_prefixes in H.
  repeat (apply elem_of_cons in H as [->|H]; [by eexists _, _|]).
  by apply not_elem_of_nil in H.
Qed.

Lemma not_in_Forall (c : ascii) (P : ascii → Prop) l : Forall P l → ¬ P c → c ∉ l.
Proof. rewrite Forall_forall. naive_solver. Qed.

Lemma scan_raw pre delim text p pv start s : wf_tok (TRaw pre delim text) →
  ident_before (at_ p pv start) = false →
  scan_from Code (at_ p pv start) (render_tok (TRaw pre delim text) ++ s) =
  scan_from Code (at_ (move (render_tok (TRaw pre delim text)) p) (Some dquote) false) s.
Proof.
  intros (Hpre & Hdelim & Hu) Hid. cbn [render_tok].
  destruct (raw_prefix_ident pre Hpre) as [Hpi _].
  assert (nl ∉ pre ∧ dquote ∉ pre) as [Hpn Hpd] by (split; by eapply not_in_Forall; [exact Hpi|by vm_compute]).
  assert (nl ∉ delim ∧ "("%char ∉ delim) as [Hdn Hdp]
    by (split; (eapply not_in_Forall; [exact Hdelim|]); set_solver).
  set (tail := text ++ raw_terminator delim ++ s).
  replace ((pre ++ [dquote] ++ delim ++ &"(" ++ text ++ raw_terminator delim) ++ s)
    with (pre ++ dquote :: delim ++ "("%char :: tail).
  2:{ unfold tail. rewrite <- !app_assoc. cbn [app]. done. }
  set (opening := pre ++ [dquote] ++ delim ++ &"(").
  assert (raw_open (pre ++ dquote :: delim ++ "("%char :: tail) = Some (delim, length opening)) as Ho.
  { unfold raw_open. rewrite find_char_app by done. cbn [mbind option_bind].
    rewrite drop_past, find_char_app by done. cbn [mbind option_bind].
    rewrite take_app_length. do 2 f_equal. unfold opening. rewrite !length_app. cbn. lia. }
  destruct (raw_prefix_head pre Hpre) as (b & pre' & Eb & Hb1 & Hb2 & Hb3).
  assert (scan_byte Code b (pre' ++ dquote :: delim ++ "("%char :: tail) (at_ p pv start) =
    (None, RawString delim, length opening, false)) as Hs.
  { cbn [scan_byte]. unfold scan_code. rewrite !starts_with_head by done.
    change (b :: pre' ++ ?x) with ((b :: pre') ++ x). rewrite <- Eb.
    rewrite Hb1, Hid, is_raw_string_open_prefix; [|done|by apply raw_paren_ahead_run].
    cbn [negb andb]. by rewrite Ho. }
  rewrite Eb. cbn [app]. rewrite (scan_from_byte Code _ _ _ _ _ _ _ Hb3 Hs). cbn [app].
  change (b :: pre' ++ ?x) with ((b :: pre') ++ x). rewrite <- Eb.
  replace (pre ++ dquote :: delim ++ "("%char :: tail) with (opening ++ tail).
  2:{ unfold opening. rewrite <- !app_assoc. done. }
  rewrite advance_at, take_app_length, drop_app_length.
  - unfold tail. rewrite (scan_until (RawString delim) (raw_terminator delim)).
    + rewrite <- move_app. unfold opening. rewrite <- !app_assoc.
      unfold raw_terminator. rewrite app_comm_cons, last_snoc. done.
    + done.
    + unfold raw_terminator. intros [?|[H|H]%elem_of_app]%elem_of_cons; [done..|].
      apply elem_of_cons in H as [?|H]; [done|]. by apply not_elem_of_nil in H.
    + done.
    + done.
    + intros c r cur _ Hst. cbn [scan_byte]. unfold raw_close, raw_terminator in *. by rewrite Hst.
    + intros c r cur Hst. cbn [scan_byte]. unfold raw_close, raw_terminator in *. by rewrite Hst.
    + done.
  - rewrite take_app_length. unfold opening.
    intros [H|[H|[H|H]%elem_of_app]%elem_of_app]%elem_of_app; try done.
    + apply elem_of_cons in H as [?|H]; [done|]. by apply not_elem_of_nil in H.
    + apply elem_of_cons in H as [?|H]; [done|]. by apply not_elem_of_nil in H.
  - rewrite length_app. lia.
Qed.

(** A comment or literal opener. *)
Lemma scan_open st op s p pv start : op ≠ [] → nl ∉ op →
  (∀ b rest, op ++ s = b :: rest → scan_code b rest (at_ p pv start) = (None, st, length op, false)) →
  scan_from Code (at_ p pv start) (op ++ s) = scan_from st (at_ (move op p) (last op) false) s.
Proof.
  intros Hne Hn Hs. destruct op as [|b op]; [done|]. cbn [app].
  assert (b ≠ nl) as Hb by (intros ->; apply Hn, list_elem_of_here).
  rewrite (scan_from_byte Code _ _ _ _ _ _ _ Hb (Hs b (op ++ s) eq_refl)). cbn [app].
  change (b :: op ++ s) with ((b :: op) ++ s).
  rewrite advance_at, take_app_length, drop_app_length; [done|by rewrite take_app_length|].
  rewrite length_app. lia.
Qed.

Lemma scan_quote_open q st p pv start s : (q = dquote ∧ st = StringLit) ∨ (q = squote ∧ st = CharLit) →
  scan_from Code (at_ p pv start) (q :: s) = scan_from st (at_ (move [q] p) (Some q) false) s.
Proof.
  intros Hq. apply (scan_open st [q] s p pv start); [done| |].
  - intros H. apply elem_of_cons in H as [?|H]; [by destruct Hq as [[-> _]|[-> _]]|].
    by apply not_elem_of_nil in H.
  - cbn [app]. intros b rest [= <- <-]. unfold scan_code.
    by destruct Hq as [[-> ->]|[-> ->]].
Qed.

(** What the next token's rendering can begin with. *)
Lemma render_head ts start blank : wf_toks true start blank ts →
  match render ts with
  | [] => True
  | a :: _ => is_ident a = false ∧ (a = dquote → ∃ l ts', ts = TString l :: ts')
  end.
Proof.
  destruct ts as [|t ts]; [done|]. intros (Hw & Ha & _). unfold render. cbn [mbind list_bind].
  destruct t; cbn [render_tok wf_tok app] in *; try done.
  - split; [|intros ->; by vm_compute in Hw]. destruct (is_ident c) eqn:E; [|done].
    by destruct (ident_not_special c E) as [? _]; congruence.
  - by destruct Ha.
  - destruct Hw as (H1 & H2 & _). split; [done|]. intros ->. set_solver.
  - split; [done|]. intros _. eauto.
Qed.

Lemma scan_slash p pv start s : match s with c :: _ => c ≠ slash ∧ c ≠ star | [] => True end →
  scan_from Code (at_ p pv start) (slash :: s) = scan_from Code (at_ (move [slash] p) (Some slash) false) s.
Proof.
  intros Hs. assert (slash ≠ nl) as Hn by done.
  assert (scan_byte Code slash s (at_ p pv start) = (None, Code, 1, false)) as Hb.
  { cbn [scan_byte]. unfold scan_code. assert (∀ x, (∀ c r, s = c :: r → c ≠ x) → starts_with [slash; x] (slash :: s) = false) as Hx.
    { intros x Hx. apply not_true_iff_false. rewrite starts_with_iff. intros [r Hr]. destruct s as [|c s]; [done|].
      injection Hr as -> _. by apply (Hx x s). }
    rewrite !Hx by (intros c r ->; by destruct Hs). cbn. by rewrite andb_false_r. }
  rewrite (scan_from_byte Code _ _ _ _ _ _ _ Hn Hb). cbn [app drop]. rewrite drop_0, advance_at; [done| |cbn; lia].
  cbn. intros E. apply elem_of_cons in E as [?|E]; [done|]. by apply not_elem_of_nil in E.
Qed.

Lemma scan_hash p pv start s : (start = true → ∀ l c, try_parse_include s l c = None) →
  scan_from Code (at_ p pv start) (hash :: s) = scan_from Code (at_ (move [hash] p) (Some hash) false) s.
Proof.
  intros Hs. assert (hash ≠ nl) as Hn by done.
  assert (scan_byte Code hash s (at_ p pv start) = (None, Code, 1, false)) as Hb.
  { cbn [scan_byte]. unfold scan_code. rewrite !starts_with_head by done. change (starts_raw hash) with false. cbn [andb].
    rewrite !decide_False by done. rewrite bool_decide_eq_true_2 by done. cbn [andb c_start at_].
    destruct start; [|done]. by rewrite Hs. }
  rewrite (scan_from_byte Code _ _ _ _ _ _ _ Hn Hb). cbn [app drop]. rewrite drop_0, advance_at; [done| |cbn; lia].
  cbn. intros E. apply elem_of_cons in E as [?|E]; [done|]. by apply not_elem_of_nil in E.
Qed.

(** What follows the number sign of another directive is no include. *)
Lemma include_word w s s2 : Forall (λ c, is_ident c = true) w → w ≠ &"include" →
  match s with [] => True | a :: _ => is_ident a = false end → w ++ s = &"include" ++ s2 → ∃ a s3, s2 = a :: s3 ∧ is_ident a = true.
Proof.
  intros Hw Hne Hs. change (&"include") with ["i"; "n"; "c"; "l"; "u"; "d"; "e"]%char in *.
  assert (Forall (λ c, is_ident c = true) ["i"; "n"; "c"; "l"; "u"; "d"; "e"]%char) as Hi by (repeat constructor).
  revert Hne. generalize dependent ["i"; "n"; "c"; "l"; "u"; "d"; "e"]%char. intros pre Hi. revert w Hw.
  induction Hi as [|a pre Ha Hi IH]; intros w Hw Hne E.
  - destruct Hw as [|b w Hb Hw]; [done|]. exists b, (w ++ s). by cbn in E.
  - destruct Hw as [|b w Hb Hw]; cbn [app] in E.
    + subst s. congruence.
    + injection E as -> E. apply (IH w); [done|congruence|done].
Qed.
Lemma try_other s n r l c : skip_ws s = (n, r) → (∀ s2, r = &"include" ++ s2 → ∃ a s3, s2 = a :: s3 ∧ is_ident a = true) →
  try_parse_include s l c = None.
Proof.
  intros Hs Hr. unfold try_parse_include. rewrite Hs. destruct (strip_prefix (&"include") r) as [s2|] eqn:E; [|done].
  apply strip_prefix_Some in E. destruct (Hr s2 E) as (a & s3 & -> & Ha). cbn [mbind option_bind].
  destruct (ident_not_special a Ha) as [Hw Hsp]. cbn [skip_ws]. rewrite Hw.
  rewrite (decide_False (P := a = "<"%char)) by (intros ->; by vm_compute in Ha).
  by rewrite (decide_False (P := a = dquote)) by (intros ->; by vm_compute in Ha).
Qed.
Lemma other_directive_none ts aw start blank l c : wf_toks aw start blank ts → other_directive ts → try_parse_include (render ts) l c = None.
Proof.
  intros Hw Ho. assert (∃ n r, skip_ws (render ts) = (n, r) ∧ ∀ s2, r = &"include" ++ s2 → ∃ a s3, s2 = a :: s3 ∧ is_ident a = true)
    as (n & r & Hs & Hr); [|by eapply try_other].
  revert aw start blank Hw Ho. induction ts as [|t ts IH]; intros aw start blank Hw Ho; [by exists 0, []|].
  destruct Hw as (Hwt & Ha & Hts). unfold render. cbn [mbind list_bind]. fold (render ts).
  destruct t; cbn [render_tok app wf_tok other_directive] in *; try (eexists 0, _; split; [reflexivity|intros s2 Es; discriminate Es]).
  - destruct (IH _ _ _ Hts Ho) as (n & r & Hs & Hr). exists (S n), r. cbn [skip_ws]. by rewrite Hwt, Hs.
  - destruct Hwt as [Hne Hwt]. exists 0, (w ++ render ts). split.
    + destruct Hwt as [|a w Hi Hwt]; [done|]. cbn [app skip_ws]. by rewrite (proj1 (ident_not_special a Hi)).
    + intros s2. apply (include_word w); [done|done|]. pose proof (render_head ts _ _ Hts) as Hh. by destruct (render ts); [|destruct Hh].
  - destruct Hwt as (H1 & H2 & H3). eexists 0, _. cbn [skip_ws]. rewrite H3. split; [done|]. by intros s2 [= -> _].
  - destruct Hwt as (Hp & _). destruct (raw_prefix_head prefix0 Hp) as (b & pre' & -> & Hb & _). cbn [app skip_ws].
    assert (is_horizontal_ws b = false ∧ b ≠ "i"%char) as [-> Hi].
    { unfold starts_raw in Hb. repeat (apply orb_prop in Hb as [Hb|Hb]); by apply bool_decide_eq_true in Hb as ->. }
    eexists 0, _. split; [reflexivity|]. by intros s2 [= -> _].
Qed.

Lemma scan_tok t ts p pv aw start blank :
  wf_toks aw start blank (t :: ts) → (start = true → blank = true) → (ident_before (at_ p pv start) = true → aw = true) →
  scan_from Code (at_ p pv start) (render_tok t ++ render ts) =
  include_of t p ++
  scan_from Code (at_ (move (render_tok t) p) (last (render_tok t)) (start_after t start)) (render ts).
Proof.
  intros (Hw & Ha & Hts) Hsb Hid.
  destruct t; cbn [include_of start_after] in *; try (cbn [app]; fold (render ts)).
  - cbn [render_tok app]. rewrite scan_from_nl, new_line_at. done.
  - cbn [render_tok app wf_tok] in *. rewrite scan_code_skip.
    + rewrite Hw, andb_true_r. done.
    + intros H. repeat (apply elem_of_cons in H as [->|H]; [by vm_compute in Hw|]).
      by apply not_elem_of_nil in H.
    + destruct (starts_raw c) eqn:E; [|done]. exfalso.
      unfold starts_raw in E. repeat (apply orb_prop in E as [E|E]);
        apply bool_decide_eq_true in E; subst; by vm_compute in Hw.
  - cbn [render_tok wf_tok is_word] in *. destruct Hw as [Hne Hw]. destruct Ha as [_ Ha].
    apply scan_word; [done|done|]. pose proof (render_head ts _ _ Hts) as Hh.
    destruct (render ts) as [|a r]; [done|]. destruct Hh as [? Hh]. split; [done|].
    intros E. destruct (Hh E) as (l & ts' & ->). done.
  - cbn [render_tok app wf_tok] in *. destruct Hw as (H1 & H2 & H3). rewrite scan_code_skip; [|done|].
    + by rewrite H3, andb_false_r.
    + destruct (starts_raw c) eqn:E; [|done]. exfalso.
      unfold starts_raw in E. repeat (apply orb_prop in E as [E|E]);
        apply bool_decide_eq_true in E; subst; by vm_compute in H2.
  - cbn [render_tok wf_tok] in *.
    assert (last (&"//" ++ text ++ [nl]) = Some nl) as -> by (by rewrite app_assoc, last_snoc).
    rewrite <- app_assoc, <- app_assoc. rewrite (scan_open LineComment).
    + cbn [app]. rewrite scan_line by apply Hw. by rewrite <- move_app.
    + done.
    + intros H. by repeat (apply elem_of_cons in H as [?|H]; [done|]); apply not_elem_of_nil in H.
    + intros b rest [= <- <-]. done.
  - cbn [render_tok wf_tok] in *. rewrite <- app_assoc, <- app_assoc.
    rewrite (scan_open BlockComment).
    + rewrite (scan_until BlockComment [star; slash]); try done.
      * rewrite <- move_app. rewrite !last_app. done.
      * intros H. by repeat (apply elem_of_cons in H as [?|H]; [done|]); apply not_elem_of_nil in H.
      * intros c r cur _ Hst. cbn [scan_byte]. by rewrite Hst.
      * intros c r cur Hst. cbn [scan_byte]. by rewrite Hst.
    + done.
    + intros H. by repeat (apply elem_of_cons in H as [?|H]; [done|]); apply not_elem_of_nil in H.
    + intros b rest [= <- <-]. done.
  - cbn [render_tok wf_tok app] in *. rewrite (scan_quote_open dquote StringLit) by by left.
    assert (last (dquote :: mbind render_lit l ++ [dquote]) = Some dquote) as ->
      by (by rewrite app_comm_cons, last_snoc).
    rewrite <- app_assoc. cbn [app]. rewrite (scan_literal dquote StringLit) by done.
    by rewrite <- move_app.
  - cbn [render_tok wf_tok app] in *. rewrite (scan_quote_open squote CharLit) by by right.
    assert (last (squote :: mbind render_lit l ++ [squote]) = Some squote) as ->
      by (by rewrite app_comm_cons, last_snoc).
    rewrite <- app_assoc. cbn [app]. rewrite (scan_literal squote CharLit) by done.
    by rewrite <- move_app.
  - rewrite scan_raw; [|done|].
    + f_equal. f_equal. cbn [render_tok]. unfold raw_terminator. rewrite !app_assoc, app_comm_cons, app_assoc.
      by rewrite last_snoc.
    + destruct (ident_before _); [|done]. rewrite Ha in Hid. by discriminate Hid.
  - subst start. rewrite scan_include by done. cbn [include_of]. f_equal. f_equal. f_equal.
    cbn [render_tok]. rewrite !app_assoc. by rewrite last_snoc.
  - cbn [render_tok app]. by apply scan_slash.
  - cbn [render_tok app]. apply scan_hash. intros Hst l c. eapply other_directive_none; [exact Hts|]. by apply Ha, Hsb.
Qed.

Lemma last_not_ident t p start : wf_tok t → is_word t = false →
  ident_before (at_ p (last (render_tok t)) start) = false.
Proof.
  unfold ident_before. cbn [c_prev at_]. intros Hw Ht. destruct t; cbn [render_tok wf_tok] in *.
  - done.
  - cbn [last]. destruct (is_ident c) eqn:E; [|done].
    destruct (ident_not_special c E) as [? _]. congruence.
  - done.
  - cbn [last]. by destruct Hw as (_ & -> & _).
  - by rewrite app_assoc, last_snoc.
  - by rewrite !last_app.
  - by rewrite app_assoc, last_snoc.
  - by rewrite app_assoc, last_snoc.
  - unfold raw_terminator. rewrite !app_assoc, app_comm_cons, app_assoc. by rewrite last_snoc.
  - rewrite !app_assoc, last_snoc. by destruct k.
  - done.
  - done.
Qed.

Lemma scan_toks ts p pv aw start blank :
  wf_toks aw start blank ts → (start = true → blank = true) → (ident_before (at_ p pv start) = true → aw = true) →
  scan_from Code (at_ p pv start) (render ts) = includes ts p.
Proof.
  revert p pv aw start blank. induction ts as [|t ts IH]; intros p pv aw start blank Hw Hsb Hid; [done|].
  pose proof (scan_tok t ts p pv aw start blank Hw Hsb Hid) as E. unfold render in E |- *.
  cbn [mbind list_bind includes] in E |- *. rewrite E. f_equal.
  destruct Hw as (Hwt & _ & Hts). eapply IH; [exact Hts|by destruct t|].
  destruct (is_word t) eqn:Ht; [done|]. by rewrite last_not_ident.
Qed.

(** C34: the scanner is exact on source made of these tokens: words, spaces,
    newlines, punctuation, slashes, comments (none continued by a backslash),
    string and character literals on one line, raw string literals, number
    signs of directives other than an include, or within a line, and includes
    with nothing but white space before them on their line.  It reports the
    includes of the sequence with their line and column, and nothing that
    stands inside a comment or a literal.  Digit separators, includes behind a
    comment and literals continued on the next line are not among these; the
    findings below are about them. *)
Theorem scan_exact ts : wf_toks false true true ts → scan (render ts) = includes ts (1%Z, 0).
Proof. intros Hw. by apply (scan_toks ts (1%Z, 0) None false true true Hw). Qed.

Definition sample_tokens : list tok :=
  [THash; TWord (&"pragma"); TSpace sp; TWord (&"once"); TNewline; TLine (&" #include <no.h>"); TSpace sp; TInclude [sp] [sp] Angled (&"a.h"); TNewline;
   TBlock (&" " ++ [nl] ++ &"#include <no.h> "); TNewline;
   TWord (&"auto"); TSpace sp; TWord (&"s"); TPunct "="%char;
   TRaw (&"R") (&"x") (&"a)" ++ [nl] ++ &"#include <no.h>" ++ [nl]); TPunct ";"%char; TNewline;
   THash; TSpace sp; TWord (&"define"); TSpace sp; TWord (&"HALF"); TPunct "("%char; TWord (&"x"); TPunct ")"%char;
   TSpace sp; THash; TWord (&"x"); TSlash; TWord (&"2"); TNewline; TWord (&"f"); TPunct "("%char; TString [Plain "a"%char; Esc dquote; Plain "b"%char]; TPunct ")"%char; TNewline;
   TInclude [] [] Quoted (&"b.h")].

Lemma scan_exact_witness :
  scan (render sample_tokens) =
    [{| path := &"a.h"; kind := Angled; span := {| line := 3; col := 2 |} |};
     {| path := &"b.h"; kind := Quoted; span := {| line := 11; col := 1 |} |}].
Proof.
  rewrite (scan_exact sample_tokens); [by vm_compute|].
  assert (∀ pat text, forallb (λ k, negb (starts_with pat (drop k (text ++ pat)))) (seq 0 (length text)) = true →
    unclosed pat text) as Hu.
  { intros pat text H k Hk. rewrite forallb_forall in H. specialize (H k).
    apply negb_true_iff, H. apply in_seq. lia. }
  cbn [wf_toks sample_tokens wf_tok is_word start_after blank_after other_directive].
  split_and!; try done; try (apply (bool_decide_unpack _); by vm_compute); try (apply Hu; by vm_compute).
Defined.

(** ** Soundness on any input *)

(** Text of an include directive with this path. *)
Definition include_text (k : IncludeKind) (p d : str) : Prop :=
  ∃ ws1 ws2, d = hash :: ws1 ++ &"include" ++ ws2 ++ [open_of k] ++ p ++ [close_of k] ∧
    Forall (λ c, is_horizontal_ws c = true) ws1 ∧ Forall (λ c, is_horizontal_ws c = true) ws2 ∧
    nl ∉ p ∧ close_of k ∉ p.

Lemma include_text_line k p d : include_text k p d → d ≠ [] ∧ nl ∉ d.
Proof.
  intros (ws1 & ws2 & -> & H1 & H2 & Hp & _). split; [done|].
  assert (∀ ws, Forall (λ c, is_horizontal_ws c = true) ws → nl ∉ ws) as Hws.
  { intros ws Hws Hin. by apply (proj1 (Forall_forall _ _) Hws) in Hin. }
  rewrite not_elem_of_cons, !not_elem_of_app. split_and!; [done|by apply Hws| |by apply Hws| |done|].
  - apply (bool_decide_unpack _). by vm_compute.
  - destruct k; apply (bool_decide_unpack _); by vm_compute.
  - destruct k; apply (bool_decide_unpack _); by vm_compute.
Qed.

Lemma until_close_Some close s p r : until_close close s = Some (p, r) →
  s = p ++ close :: r ∧ close ∉ p ∧ (close ≠ nl → nl ∉ p).
Proof.
  revert p. induction s as [|c s IH]; intros p; cbn [until_close]; [done|].
  case_decide as Hc.
  - intros [= <- <-]. subst. split; [done|]. split; [apply not_elem_of_nil|intros _; apply not_elem_of_nil].
  - case_decide as Hn; [done|]. intros ([p' r'] & E & [= <- <-])%bind_Some.
    destruct (IH p' E) as (-> & H1 & H2). split; [done|]. split; [by apply not_elem_of_cons|].
    intros Hcl. apply not_elem_of_cons. auto.
Qed.

Lemma try_parse_include_sound s ln c r n : try_parse_include s ln c = Some (r, n) →
  ∃ d post, hash :: s = d ++ post ∧ include_text (kind r) (path r) d ∧ line (span r) = ln.
Proof.
  unfold try_parse_include. destruct (skip_ws s) as [n1 s1] eqn:E1.
  intros (s2 & E2%strip_prefix_Some & H)%bind_Some. destruct (skip_ws s2) as [n2 [|d s3]] eqn:E3; [done|].
  apply bind_Some in H as ([cl k] & Ek & H). apply bind_Some in H as ([p rest] & Ep & H).
  apply bind_Some in H as (p' & Ep' & [= <- <-]). cbn [kind path span line].
  apply skip_ws_app in E1 as (Es & _ & F1). apply skip_ws_app in E3 as (Es2 & _ & F2).
  unfold from_utf8 in Ep'. case_decide; [|done]. injection Ep' as <-.
  assert (d = open_of k ∧ cl = close_of k) as [-> ->].
  { case_decide; [by simplify_eq|]. case_decide; [by simplify_eq|done]. }
  apply until_close_Some in Ep as (-> & Hc & Hn).
  exists (hash :: take n1 s ++ &"include" ++ take n2 s2 ++ [open_of k] ++ p ++ [close_of k]), rest.
  split_and!; [|exists (take n1 s), (take n2 s2); split_and!; try done; by destruct k; apply Hn|done].
  rewrite Es at 1. rewrite E2. rewrite Es2 at 1. cbn [app]. rewrite <- !app_assoc. cbn [app].
  by rewrite <- !app_assoc.
Qed.

Lemma scan_sources src r : r ∈ scan src →
  ∃ pre d post, src = pre ++ d ++ post ∧ include_text (kind r) (path r) d.
Proof.
  unfold scan. generalize (length src) as n. generalize Code as st. generalize begin_cursor as c.
  intros c st n. revert c st src. induction n as [|n IH]; intros c st [|b s]; cbn [scan_loop];
    try by intros ?%not_elem_of_nil.
  case_decide.
  - intros (pre & d & post & -> & Hd)%IH. by exists (b :: pre), d, post.
  - destruct (scan_byte st b s c) as [[[inc st'] k] start] eqn:E.
    intros [Hr|(pre & d & post & Es & Hd)%IH]%elem_of_app.
    + destruct inc as [r'|]; [|by apply not_elem_of_nil in Hr].
      apply elem_of_cons in Hr as [->|Hr]; [|by apply not_elem_of_nil in Hr].
      assert (∃ m, b = hash ∧ try_parse_include s (c_line c) (Z.of_nat (c_col c) + 1) = Some (r', m)) as (m & -> & Ht).
      { destruct st; cbn [scan_byte] in E; try done.
        - unfold scan_code in E. do 2 (destruct (starts_with _ _); [done|]).
          destruct (if _ && _ && _ then _ else _) as [[delim m]|]; [done|].
          do 2 (destruct (decide _); [done|]).
          destruct (bool_decide (b = hash)) eqn:Hb; cbn [andb] in E; [|done].
          apply bool_decide_eq_true in Hb as ->.
          destruct (c_start c); [|done].
          destruct (try_parse_include s (c_line c) (Z.of_nat (c_col c) + 1)) as [[r2 m]|]; [|done].
          injection E as -> _ _ _. by exists m.
        - by destruct (starts_with _ _).
        - by destruct (scan_quoted _ _ _ _).
        - by destruct (scan_quoted _ _ _ _).
        - by destruct (raw_close _ _). }
      apply try_parse_include_sound in Ht as (d & post & -> & Hd & _). exists [], d, post. done.
    + exists (take k (b :: s) ++ pre), d, post. split; [|done].
      by rewrite <- app_assoc, <- Es, take_drop.
Qed.

(** nothing is made up. On any input whatever, each reported include is
    spelled out in the source as a directive with that path and quoting. *)
Theorem scan_sound src r : r ∈ scan src →
  ∃ pre d post, src = pre ++ d ++ post ∧ include_text (kind r) (path r) d.
Proof. apply scan_sources. Qed.

Lemma scan_sound_witness : ∃ pre d post,
  &"  # include <a.h>" = pre ++ d ++ post ∧ include_text Angled (&"a.h") d.
Proof.
  apply (scan_sound (&"  # include <a.h>")
    {| path := &"a.h"; kind := Angled; span := {| line := 1; col := 3 |} |}).
  assert (scan (&"  # include <a.h>") =
    [{| path := &"a.h"; kind := Angled; span := {| line := 1; col := 3 |} |}]) as -> by by vm_compute.
  apply list_elem_of_here.
Defined.

(** ** Findings: includes that are missed *)

(** An apostrophe that opens no literal — in an [#error] text, or as a digit
    separator — hides every include up to the next apostrophe. *)
Lemma apostrophe_hides_include :
  scan (&"#error don't" ++ [nl] ++ &"#include <a.h>" ++ [nl]) = [] ∧
  scan (&"int n = 1'000;" ++ [nl] ++ &"#include <a.h>" ++ [nl]) = [].
Proof. split; by vm_compute. Qed.

(** A comment before the directive, which C replaces by a space. *)
Lemma comment_hides_include : scan (&"/* x */ #include <a.h>" ++ [nl]) = [].
Proof. by vm_compute. Qed.

(** A line continued inside a string literal is not counted, so later
    includes are reported one line too early. *)
Lemma continued_string_shifts_lines :
  line ∘ span <$> scan ([dquote] ++ &"a\" ++ [nl] ++ &"b" ++ [dquote; nl] ++ &"#include <a.h>") = [2%Z].
Proof. by vm_compute. Qed.
