(* ===== verification/HeaderActive.v ===== *)
(** * [fbuild-header-scan/src/scanner.rs]: active preprocessor branches

    [active_source] blanks the lines of inactive branches and directives,
    keeping the macros the active ones define; [eval_condition] is the
    recursive-descent parser of [#if] conditions over the text that is left. *)
From S2P Require Import Prelude RustStr HeaderScan.

Abbreviation macros := (gmap str str).

(** ** Numbers *)

Definition digit_value (radix : Z) (c : ascii) : option Z :=
  let n := Z.of_N (N_of_ascii c) in
  let v := (if in_range "0" "9" c then n - 48
            else if in_range "a" "z" c then n - 87
            else if in_range "A" "Z" c then n - 55 else 99)%Z in
  if (v <? radix)%Z then Some v else None.

(** [i64::from_str_radix]: an optional sign, at least one digit, no
    overflow. *)
Fixpoint digits (radix acc : Z) (s : str) : option Z :=
  match s with
  | [] => Some acc
  | c :: s => d ← digit_value radix c; digits radix (acc * radix + d) s
  end.

Definition from_str_radix (radix : Z) (s : str) : option Z :=
  let '(sign, body) :=
    match s with
    | c :: s' => if decide (c = "-"%char) then ((-1)%Z, s')
                 else if decide (c = "+"%char) then (1%Z, s') else (1%Z, s)
    | [] => (1%Z, [])
    end in
  match body with
  | [] => None
  | _ =>
      n ← digits radix 0 body;
      let v := (sign * n)%Z in
      if decide (i64_min ≤ v ≤ i64_max)%Z then Some v else None
  end.

Definition is_suffix_letter (c : ascii) : bool :=
  bool_decide (c ∈ [("u"%char); ("U"%char); ("l"%char); ("L"%char)]).

(** [trim_end_matches(['u', 'U', 'l', 'L'])] *)
Definition trim_suffix_letters (s : str) : str :=
  reverse ((fix go (s : str) := match s with
    | c :: s' => if is_suffix_letter c then go s' else s
    | [] => [] end) (reverse s)).

Definition parse_number (value : str) : option Z :=
  let value := trim_suffix_letters value in
  match strip_prefix (&"0x") value with
  | Some hex => from_str_radix 16 hex
  | None =>
      match strip_prefix (&"0X") value with
      | Some hex => from_str_radix 16 hex
      | None => from_str_radix 10 value
      end
  end.

(** ** The condition parser *)

Definition b2z (b : bool) : Z := if b then 1%Z else 0%Z.

Fixpoint skip_ascii_ws (s : str) : str :=
  match s with
  | c :: s' => if is_ascii_whitespace c then skip_ascii_ws s' else s
  | [] => []
  end.

(** [consume]: the input after [expected], if it comes next; the white space
    is skipped in either case. *)
Definition consume (expected : str) (s : str) : option str := strip_prefix expected (skip_ascii_ws s).

Fixpoint take_ident (s : str) : str * str :=
  match s with
  | c :: s' => if is_ident c then let '(t, r) := take_ident s' in (c :: t, r) else ([], s)
  | [] => ([], [])
  end.

Definition token (s : str) : str * str := take_ident (skip_ascii_ws s).

(** [self.consume(..);] with the result dropped. *)
Definition consume_opt (expected : str) (s : str) : str :=
  match consume expected s with Some r => r | None => skip_ascii_ws s end.

Section Parser.
Context (m : macros).

(** The operand that is neither a negation nor parenthesized. *)
Definition parse_operand (s : str) : Z * str :=
  let '(t, s) := token s in
  if decide (t = &"defined") then
    let s := consume_opt (&"(") s in
    let '(name, s) := token s in
    (b2z (bool_decide (is_Some (m !! name))), consume_opt (&")") s)
  else
    match parse_number t with
    | Some v => (v, s)
    | None => (default 0%Z (m !! t ≫= parse_number), s)
    end.

Fixpoint parse_or (fuel : nat) (s : str) : option (Z * str) :=
  match fuel with
  | O => None
  | S n => '(v, s) ← parse_and n s; or_loop n v s
  end
with or_loop (fuel : nat) (v : Z) (s : str) : option (Z * str) :=
  match fuel with
  | O => None
  | S n =>
      match consume (&"||") s with
      | Some s => '(rhs, s) ← parse_and n s; or_loop n (b2z (negb (v =? 0)%Z || negb (rhs =? 0)%Z)) s
      | None => Some (v, skip_ascii_ws s)
      end
  end
with parse_and (fuel : nat) (s : str) : option (Z * str) :=
  match fuel with
  | O => None
  | S n => '(v, s) ← parse_equality n s; and_loop n v s
  end
with and_loop (fuel : nat) (v : Z) (s : str) : option (Z * str) :=
  match fuel with
  | O => None
  | S n =>
      match consume (&"&&") s with
      | Some s => '(rhs, s) ← parse_equality n s; and_loop n (b2z (negb (v =? 0)%Z && negb (rhs =? 0)%Z)) s
      | None => Some (v, skip_ascii_ws s)
      end
  end
with parse_equality (fuel : nat) (s : str) : option (Z * str) :=
  match fuel with
  | O => None
  | S n => '(v, s) ← parse_comparison n s; equality_loop n v s
  end
with equality_loop (fuel : nat) (v : Z) (s : str) : option (Z * str) :=
  match fuel with
  | O => None
  | S n =>
      match consume (&"==") s with
      | Some s => '(rhs, s) ← parse_comparison n s; equality_loop n (b2z (v =? rhs)%Z) s
      | None =>
          match consume (&"!=") s with
          | Some s => '(rhs, s) ← parse_comparison n s; equality_loop n (b2z (negb (v =? rhs)%Z)) s
          | None => Some (v, skip_ascii_ws s)
          end
      end
  end
with parse_comparison (fuel : nat) (s : str) : option (Z * str) :=
  match fuel with
  | O => None
  | S n => '(v, s) ← parse_unary n s; comparison_loop n v s
  end
with comparison_loop (fuel : nat) (v : Z) (s : str) : option (Z * str) :=
  match fuel with
  | O => None
  | S n =>
      match consume (&">=") s with
      | Some s => '(rhs, s) ← parse_unary n s; comparison_loop n (b2z (rhs <=? v)%Z) s
      | None =>
          match consume (&"<=") s with
          | Some s => '(rhs, s) ← parse_unary n s; comparison_loop n (b2z (v <=? rhs)%Z) s
          | None =>
              match consume (&">") s with
              | Some s => '(rhs, s) ← parse_unary n s; comparison_loop n (b2z (rhs <? v)%Z) s
              | None =>
                  match consume (&"<") s with
                  | Some s => '(rhs, s) ← parse_unary n s; comparison_loop n (b2z (v <? rhs)%Z) s
                  | None => Some (v, skip_ascii_ws s)
                  end
              end
          end
      end
  end
with parse_unary (fuel : nat) (s : str) : option (Z * str) :=
  match fuel with
  | O => None
  | S n =>
      match consume (&"!") s with
      | Some s => '(v, s) ← parse_unary n s; Some (b2z (v =? 0)%Z, s)
      | None =>
          match consume (&"(") s with
          | Some s => '(v, s) ← parse_or n s; Some (v, consume_opt (&")") s)
          | None => Some (parse_operand s)
          end
      end
  end.

Definition parse_fuel (s : str) : nat := 6 * length s + 6.

(** The default is the parser running out of fuel, which it does not. *)
Definition eval_condition (input : str) : bool :=
  match parse_or (parse_fuel input) input with
  | Some (v, _) => negb (v =? 0)%Z
  | None => false
  end.
End Parser.

(** ** Lines and directives *)

(** Before and from the first white space character. *)
Fixpoint split_ws (s : str) : str * str :=
  match s with
  | [] => ([], [])
  | c :: s' => if starts_ws s then ([], s) else let '(w, r) := split_ws s' in (c :: w, r)
  end.

Definition split_directive (input : str) : str * str :=
  let '(w, r) := split_ws (trim_start input) in (w, trim_start r).

(** The first piece of a split at white space, [/] and [*]. *)
Fixpoint first_piece (s : str) : str :=
  match s with
  | [] => []
  | c :: s' =>
      if starts_ws s || bool_decide (c = slash) || bool_decide (c = star) then []
      else c :: first_piece s'
  end.

Definition first_token (input : str) : str := first_piece (trim_start input).

Record Conditional := { parent_active : bool; branch_taken : bool }.

(** The variables of [active_source]'s loop but the output. *)
Record active_state := { stack : list Conditional; active : bool; defs : macros }.

Inductive directive :=
  | DIf (rest : str)
  | DIfdef (rest : str)
  | DIfndef (rest : str)
  | DElif (rest : str)
  | DElse
  | DEndif
  | DDefine (rest : str)
  | DUndef (rest : str)
  | DOther.

(** The line's directive, and [DOther] for any other line. *)
Definition classify (ln : str) : directive :=
  match strip_prefix [hash] (trim_start ln) with
  | None => DOther
  | Some d =>
      let '(name, rest) := split_directive (trim_start d) in
      if decide (name = &"if") then DIf rest
      else if decide (name = &"ifdef") then DIfdef rest
      else if decide (name = &"ifndef") then DIfndef rest
      else if decide (name = &"elif") then DElif rest
      else if decide (name = &"else") then DElse
      else if decide (name = &"endif") then DEndif
      else if decide (name = &"define") then DDefine rest
      else if decide (name = &"undef") then DUndef rest
      else DOther
  end.

Definition has_macro (m : macros) (name : str) : bool := bool_decide (is_Some (m !! name)).

Definition define (rest : str) (m : macros) : macros :=
  let '(name, value) := split_directive rest in
  if decide (name ≠ [] ∧ "("%char ∉ name) then <[name := first_token value]> m else m.

(** [#if], [#ifdef] and [#ifndef]: push, and activate if it holds. *)
Definition open_branch (holds : bool) (st : active_state) : active_state :=
  let current := active st && holds in
  {| stack := {| parent_active := active st; branch_taken := current |} :: stack st;
     active := current; defs := defs st |}.

(** One line: the new state and [keep]. The stack's top is its head. *)
Definition active_line (d : directive) (st : active_state) : active_state * bool :=
  match d with
  | DIf rest => (open_branch (eval_condition (defs st) rest) st, false)
  | DIfdef rest => (open_branch (has_macro (defs st) (first_token rest)) st, false)
  | DIfndef rest => (open_branch (negb (has_macro (defs st) (first_token rest))) st, false)
  | DElif rest =>
      (match stack st with
       | c :: up =>
           let a := parent_active c && negb (branch_taken c) && eval_condition (defs st) rest in
           {| stack := {| parent_active := parent_active c; branch_taken := branch_taken c || a |} :: up;
              active := a; defs := defs st |}
       | [] => st
       end, false)
  | DElse =>
      (match stack st with
       | c :: up =>
           {| stack := {| parent_active := parent_active c; branch_taken := true |} :: up;
              active := parent_active c && negb (branch_taken c); defs := defs st |}
       | [] => st
       end, false)
  | DEndif =>
      (match stack st with
       | c :: up => {| stack := up; active := parent_active c; defs := defs st |}
       | [] => st
       end, false)
  | DDefine rest =>
      if active st then ({| stack := stack st; active := active st; defs := define rest (defs st) |}, false)
      else (st, active st)
  | DUndef rest =>
      if active st
      then ({| stack := stack st; active := active st; defs := delete (first_token rest) (defs st) |}, false)
      else (st, active st)
  | DOther => (st, active st)
  end.

(** What is left of a line that is not kept. *)
Definition blank (ln : str) : str := if ends_with [nl] ln then [nl] else [].

Fixpoint active_lines (ls : list str) (st : active_state) : list str * active_state :=
  match ls with
  | [] => ([], st)
  | ln :: ls =>
      let '(st, keep) := active_line (classify ln) st in
      let '(out, st) := active_lines ls st in
      ((if keep : bool then ln else blank ln) :: out, st)
  end.

(** The output text and the final macros. *)
Definition active_source (src : str) (m : macros) : str * macros :=
  let '(out, st) := active_lines (split_inclusive nl src) {| stack := []; active := true; defs := m |} in
  (mjoin out, defs st).

Definition scan_active (src : str) (m : macros) : list IncludeRef := scan (active_source src m).1.

Definition active_defines (src : str) (m : macros) : macros := (active_source src m).2.

Example scan_active_demo :
  path <$> scan_active (&"#define HAS_NET 1" ++ [nl] ++ &"#if defined(HAS_NET) && VER >= 0x10" ++ [nl] ++
    &"#include <net.h>" ++ [nl] ++ &"#else" ++ [nl] ++ &"#include <stub.h>" ++ [nl] ++ &"#endif" ++ [nl])
    {[ &"VER" := &"16UL" ]} = [&"net.h"].
Proof. by vm_compute. Qed.
