(* ===== verification/HeaderCond.v ===== *)
(** * Conditions of [#if]

    The parser always ends, and it implements the C grammar: on the text of
    an expression tree, printed with as few parentheses as precedence and
    left associativity allow, it computes the value of the tree. *)
From S2P Require Import Prelude RustStr HeaderScan HeaderActive.

(** ** The parser ends *)

Lemma skip_ascii_ws_le s : length (skip_ascii_ws s) ≤ length s.
Proof. induction s as [|c s IH]; cbn; [done|]. destruct (is_ascii_whitespace c); cbn; lia. Qed.

Lemma consume_length e s s' : consume e s = Some s' → length e + length s' ≤ length s.
Proof.
  unfold consume. intros H%strip_prefix_Some. pose proof (skip_ascii_ws_le s) as Hl.
  rewrite H, length_app in Hl. done.
Qed.

Lemma consume_opt_le e s : length (consume_opt e s) ≤ length s.
Proof.
  unfold consume_opt. destruct (consume e s) eqn:E; [|apply skip_ascii_ws_le].
  apply consume_length in E. lia.
Qed.

Lemma token_le s : length (token s).2 ≤ length s.
Proof.
  unfold token. etrans; [|apply (skip_ascii_ws_le s)]. generalize (skip_ascii_ws s) as t.
  induction t as [|c t IH]; cbn; [done|]. destruct (is_ident c); [|done].
  destruct (take_ident t); cbn in *. lia.
Qed.

Section Parser.
Context (m : macros).

Lemma parse_operand_le s : length (parse_operand m s).2 ≤ length s.
Proof.
  unfold parse_operand. pose proof (token_le s) as H. destruct (token s) as [t s1]. cbn [snd] in H.
  case_decide.
  - pose proof (consume_opt_le (&"(") s1). pose proof (token_le (consume_opt (&"(") s1)) as H2.
    destruct (token (consume_opt (&"(") s1)) as [name s2]. cbn [snd] in *.
    pose proof (consume_opt_le (&")") s2). lia.
  - by destruct (parse_number t).
Qed.

(** A run that ends with no more input than it began with. *)
Definition ends (r : option (Z * str)) (s : str) : Prop :=
  ∃ v s', r = Some (v, s') ∧ length s' ≤ length s.

Lemma ends_bind (r : option (Z * str)) (k : Z * str → option (Z * str)) s :
  ends r s → (∀ v s', length s' ≤ length s → ends (k (v, s')) s') → ends (r ≫= k) s.
Proof.
  intros (v & s' & -> & Hl) Hk. destruct (Hk v s' Hl) as (v2 & s2 & E & ?).
  exists v2, s2. split; [done|lia].
Qed.

Lemma ends_le r s t : ends r s → length s ≤ length t → ends r t.
Proof. intros (v & s' & -> & ?) ?. exists v, s'. split; [done|lia]. Qed.

Lemma ends_stop v s : ends (Some (v, skip_ascii_ws s)) s.
Proof. exists v, (skip_ascii_ws s). split; [done|apply skip_ascii_ws_le]. Qed.

Ltac bind_ends := apply ends_bind; [|intros ?v ?s' ?Hl].

(** After an operator, parse a right operand and go on. *)
Lemma ends_op e s s1 (p : str → option (Z * str)) (k : Z → str → option (Z * str)) :
  consume e s = Some s1 → e ≠ [] →
  (∀ t, length t < length s → ends (p t) t) → (∀ v t, length t < length s → ends (k v t) t) →
  ends ('(rhs, t) ← p s1; k rhs t) s.
Proof.
  intros Hc He Hp Hk. apply consume_length in Hc. assert (0 < length e) by (destruct e; [done|cbn; lia]).
  apply (ends_le _ s1); [|lia]. apply ends_bind; [apply Hp; lia|]. intros v t Ht. apply Hk. lia.
Qed.

Lemma parser_ends n :
  (∀ s, 6 * length s + 1 ≤ n → ends (parse_unary m n s) s) ∧
  (∀ v s, 6 * length s + 1 ≤ n → ends (comparison_loop m n v s) s) ∧
  (∀ s, 6 * length s + 2 ≤ n → ends (parse_comparison m n s) s) ∧
  (∀ v s, 6 * length s + 1 ≤ n → ends (equality_loop m n v s) s) ∧
  (∀ s, 6 * length s + 3 ≤ n → ends (parse_equality m n s) s) ∧
  (∀ v s, 6 * length s + 1 ≤ n → ends (and_loop m n v s) s) ∧
  (∀ s, 6 * length s + 4 ≤ n → ends (parse_and m n s) s) ∧
  (∀ v s, 6 * length s + 1 ≤ n → ends (or_loop m n v s) s) ∧
  (∀ s, 6 * length s + 5 ≤ n → ends (parse_or m n s) s).
Proof.
  induction n as [|n (Hu & Hcl & Hc & Hel & He & Hal & Ha & Hol & Ho)]; [split_and!; intros; lia|].
  assert (∀ e s s1 (p : str → option (Z * str)) (k : Z → str → option (Z * str)),
    consume e s = Some s1 → e ≠ [] → 6 * length s + 1 ≤ S n →
    (∀ t, 6 * length t + 5 ≤ n → ends (p t) t) → (∀ v t, 6 * length t + 1 ≤ n → ends (k v t) t) →
    ends ('(rhs, t) ← p s1; k rhs t) s) as Hop.
  { intros e s s1 p k E Hne Hn Hp Hk. eapply ends_op; [exact E|done| |].
    - intros t Ht. apply Hp. lia.
    - intros v t Ht. apply Hk. lia. }
  split_and!.
  - intros s Hs. cbn [parse_unary]. destruct (consume (&"!") s) as [s1|] eqn:E1.
    { apply (Hop (&"!") s); try done.
      - intros t Ht. apply Hu. lia.
      - intros v t _. by exists (b2z (v =? 0)%Z), t. }
    destruct (consume (&"(") s) as [s1|] eqn:E2.
    { apply (Hop (&"(") s); try done. intros v t _. exists v, (consume_opt (&")") t).
      split; [done|apply consume_opt_le]. }
    exists (parse_operand m s).1, (parse_operand m s).2. split; [by destruct (parse_operand m s)|].
    apply parse_operand_le.
  - intros v s Hs. cbn [comparison_loop].
    assert (∀ e s1 f, consume e s = Some s1 → e ≠ [] →
      ends ('(rhs, t) ← parse_unary m n s1; comparison_loop m n (f rhs) t) s) as H.
    { intros e s1 f E Hne. eapply Hop; [exact E|done|done| |]; intros; [apply Hu|apply Hcl]; lia. }
    destruct (consume (&">=") s) eqn:E1; [by apply (H (&">=") _ (λ rhs, b2z (rhs <=? v)%Z))|].
    destruct (consume (&"<=") s) eqn:E2; [by apply (H (&"<=") _ (λ rhs, b2z (v <=? rhs)%Z))|].
    destruct (consume (&">") s) eqn:E3; [by apply (H (&">") _ (λ rhs, b2z (rhs <? v)%Z))|].
    destruct (consume (&"<") s) eqn:E4; [by apply (H (&"<") _ (λ rhs, b2z (v <? rhs)%Z))|].
    apply ends_stop.
  - intros s Hs. cbn [parse_comparison]. bind_ends; [apply Hu; lia|apply Hcl; lia].
  - intros v s Hs. cbn [equality_loop].
    assert (∀ e s1 f, consume e s = Some s1 → e ≠ [] →
      ends ('(rhs, t) ← parse_comparison m n s1; equality_loop m n (f rhs) t) s) as H.
    { intros e s1 f E Hne. eapply Hop; [exact E|done|done| |]; intros; [apply Hc|apply Hel]; lia. }
    destruct (consume (&"==") s) eqn:E1; [by apply (H (&"==") _ (λ rhs, b2z (v =? rhs)%Z))|].
    destruct (consume (&"!=") s) eqn:E2; [by apply (H (&"!=") _ (λ rhs, b2z (negb (v =? rhs)%Z)))|].
    apply ends_stop.
  - intros s Hs. cbn [parse_equality]. bind_ends; [apply Hc; lia|apply Hel; lia].
  - intros v s Hs. cbn [and_loop]. destruct (consume _ s) eqn:E; [|apply ends_stop].
    eapply Hop; [exact E|done|done| |]; intros; [apply He|apply Hal]; lia.
  - intros s Hs. cbn [parse_and]. bind_ends; [apply He; lia|apply Hal; lia].
  - intros v s Hs. cbn [or_loop]. destruct (consume _ s) eqn:E; [|apply ends_stop].
    eapply Hop; [exact E|done|done| |]; intros; [apply Ha|apply Hol]; lia.
  - intros s Hs. cbn [parse_or]. bind_ends; [apply Ha; lia|apply Hol; lia].
Qed.

Lemma parse_or_total s : ∃ v s', parse_or m (parse_fuel s) s = Some (v, s').
Proof.
  destruct (parser_ends (parse_fuel s)) as (_ & _ & _ & _ & _ & _ & _ & _ & H).
  destruct (H s) as (v & s' & E & _); [unfold parse_fuel; lia|]. by exists v, s'.
Qed.
End Parser.

(** ** The grammar *)

Inductive binop := OOr | OAnd | OEq | ONe | OGe | OLe | OGt | OLt.

#[global] Instance binop_eq_dec : EqDecision binop.
Proof. solve_decision. Defined.

Definition level (o : binop) : nat :=
  match o with OOr => 0 | OAnd => 1 | OEq | ONe => 2 | _ => 3 end.

Definition sym (o : binop) : str :=
  match o with
  | OOr => &"||" | OAnd => &"&&" | OEq => &"==" | ONe => &"!="
  | OGe => &">=" | OLe => &"<=" | OGt => &">" | OLt => &"<"
  end.

Definition sem (o : binop) (v w : Z) : Z :=
  match o with
  | OOr => b2z (negb (v =? 0)%Z || negb (w =? 0)%Z)
  | OAnd => b2z (negb (v =? 0)%Z && negb (w =? 0)%Z)
  | OEq => b2z (v =? w)%Z
  | ONe => b2z (negb (v =? w)%Z)
  | OGe => b2z (w <=? v)%Z
  | OLe => b2z (v <=? w)%Z
  | OGt => b2z (w <? v)%Z
  | OLt => b2z (v <? w)%Z
  end.

(** A number or a macro, a [defined] test, a negation, a binary operation. *)
Inductive expr :=
  | EWord (t : str)
  | EDefined (t : str)
  | ENot (e : expr)
  | EBin (o : binop) (a b : expr).

Definition word (t : str) : Prop := t ≠ [] ∧ Forall (λ c, is_ident c = true) t.

Fixpoint wf_expr (e : expr) : Prop :=
  match e with
  | EWord t => word t ∧ t ≠ &"defined"
  | EDefined t => word t
  | ENot e => wf_expr e
  | EBin _ a b => wf_expr a ∧ wf_expr b
  end.

Fixpoint eval (m : macros) (e : expr) : Z :=
  match e with
  | EWord t => match parse_number t with Some v => v | None => default 0%Z (m !! t ≫= parse_number) end
  | EDefined t => b2z (has_macro m t)
  | ENot e => b2z (eval m e =? 0)%Z
  | EBin o a b => sem o (eval m a) (eval m b)
  end.

(** Printed where an operand of precedence [l] is expected. *)
Fixpoint print (l : nat) (e : expr) : str :=
  match e with
  | EWord t => t
  | EDefined t => &"defined(" ++ t ++ &")"
  | ENot e => &"!" ++ print 4 e
  | EBin o a b =>
      let s := print (level o) a ++ &" " ++ sym o ++ &" " ++ print (S (level o)) b in
      if level o <? l then &"(" ++ s ++ &")" else s
  end.

Example print_demo :
  print 0 (EBin OAnd (EBin OOr (EWord (&"A")) (ENot (EDefined (&"B")))) (EBin OGe (EWord (&"V")) (EWord (&"10"))))
  = &"(A || !defined(B)) && V >= 10".
Proof. by vm_compute. Qed.

(** ** White space does not matter *)

Lemma skip_ascii_ws_idemp s : skip_ascii_ws (skip_ascii_ws s) = skip_ascii_ws s.
Proof.
  induction s as [|c s IH]; cbn; [done|]. destruct (is_ascii_whitespace c) eqn:E; [done|]. cbn. by rewrite E.
Qed.

Lemma consume_skip e s : consume e (skip_ascii_ws s) = consume e s.
Proof. unfold consume. by rewrite skip_ascii_ws_idemp. Qed.

Section Grammar.
Context (m : macros).

Definition parse_at (l n : nat) (s : str) : option (Z * str) :=
  match l with
  | 0 => parse_or m n s
  | 1 => parse_and m n s
  | 2 => parse_equality m n s
  | 3 => parse_comparison m n s
  | _ => parse_unary m n s
  end.

Definition loop_at (l n : nat) (v : Z) (s : str) : option (Z * str) :=
  match l with
  | 0 => or_loop m n v s
  | 1 => and_loop m n v s
  | 2 => equality_loop m n v s
  | _ => comparison_loop m n v s
  end.

(** One level of the grammar: an operand, then the operators. *)
Lemma parse_at_S l n s : l < 4 →
  parse_at l (S n) s = ('(v, s) ← parse_at (S l) n s; loop_at l n v s).
Proof. intros H. do 4 (destruct l as [|l]; [done|]). lia. Qed.

Ltac no_op Hn o :=
  let E := fresh in pose proof (Hn o) as E; cbn [sym level] in E; rewrite E by done; clear E.

(** The loop at level [l], by operator. *)
Lemma loop_at_op l n v s o s1 : level o = l → consume (sym o) s = Some s1 →
  (∀ o', o' ≠ o → level o' = l → consume (sym o') s = None) →
  loop_at l (S n) v s = ('(w, t) ← parse_at (S l) n s1; loop_at l n (sem o v w) t).
Proof.
  intros Hl Hc Hn. subst l. destruct o; cbn [level loop_at parse_at sem sym] in Hc |- *;
    cbn [or_loop and_loop equality_loop comparison_loop].
  - by rewrite Hc.
  - by rewrite Hc.
  - by rewrite Hc.
  - no_op Hn OEq. by rewrite Hc.
  - by rewrite Hc.
  - no_op Hn OGe. by rewrite Hc.
  - no_op Hn OGe. no_op Hn OLe. by rewrite Hc.
  - no_op Hn OGe. no_op Hn OLe. no_op Hn OGt. by rewrite Hc.
Qed.

Lemma loop_at_stop l n v s : l < 4 → (∀ o, level o = l → consume (sym o) s = None) →
  loop_at l (S n) v s = Some (v, skip_ascii_ws s).
Proof.
  intros Hl Hn. destruct l as [|[|[|[|l]]]]; [..|lia];
    cbn [loop_at or_loop and_loop equality_loop comparison_loop].
  - by no_op Hn OOr.
  - by no_op Hn OAnd.
  - no_op Hn OEq. by no_op Hn ONe.
  - no_op Hn OGe. no_op Hn OLe. no_op Hn OGt. by no_op Hn OLt.
Qed.

Lemma loop_at_skip l n v s : loop_at l n v (skip_ascii_ws s) = loop_at l n v s.
Proof.
  destruct n as [|n]; [by destruct l as [|[|[|l]]]|].
  destruct l as [|[|[|l]]]; cbn [loop_at or_loop and_loop equality_loop comparison_loop];
    by rewrite !consume_skip, skip_ascii_ws_idemp.
Qed.

Lemma parse_unary_skip n s : parse_unary m n (skip_ascii_ws s) = parse_unary m n s.
Proof.
  destruct n as [|n]; [done|]. cbn [parse_unary]. rewrite !consume_skip.
  unfold parse_operand, token. by rewrite skip_ascii_ws_idemp.
Qed.

Lemma parse_at_skip l n s : parse_at l n (skip_ascii_ws s) = parse_at l n s.
Proof.
  assert (∀ k l n, l + k = 4 → parse_at l n (skip_ascii_ws s) = parse_at l n s) as H.
  { induction k as [|k IH]; intros l' n' Hk.
    - assert (l' = 4) as -> by lia. apply parse_unary_skip.
    - destruct n' as [|n']; [by do 4 (destruct l' as [|l']; [done|])|].
      rewrite !parse_at_S by lia. by rewrite IH by lia. }
  destruct (decide (l < 4)); [by apply (H (4 - l)); lia|].
  do 4 (destruct l as [|l]; [lia|]). apply parse_unary_skip.
Qed.

(** ** Runs with enough fuel *)

Definition runs (f : nat → option (Z * str)) (r : Z * str) : Prop := ∃ n0, ∀ n, n0 ≤ n → f n = Some r.

Lemma runs_bind f g v s r : runs f (v, s) → runs (λ n, g n v s) r →
  runs (λ n, '(v, s) ← f n; g n v s) r.
Proof.
  intros [n1 H1] [n2 H2]. exists (n1 + n2). intros n Hn. rewrite H1 by lia. apply H2. lia.
Qed.

Lemma runs_S f g r : (∀ n, f (S n) = g n) → runs g r → runs f r.
Proof. intros E [n0 H]. exists (S n0). intros [|n] Hn; [lia|]. rewrite E. apply H. lia. Qed.

Lemma runs_ext f g r : (∀ n, f n = g n) → runs g r → runs f r.
Proof. intros E [n0 H]. exists n0. intros n Hn. rewrite E. by apply H. Qed.

(** What may follow an operand: no identifier byte, and no operator that
    binds tighter than level [l]. *)
Definition word_end (s : str) : Prop := match s with [] => True | c :: _ => is_ident c = false end.
Definition no_tighter (l : nat) (s : str) : Prop := ∀ o, l < level o → consume (sym o) s = None.

Lemma loop_stops l v s : l < 4 → no_tighter l s → l ≠ 3 →
  runs (λ n, loop_at (S l) n v s) (v, skip_ascii_ws s).
Proof.
  intros Hl Hn H3. exists 1. intros [|n] Hle; [lia|]. apply loop_at_stop; [lia|].
  intros o Ho. apply Hn. lia.
Qed.

(** [p] reads as the value [v], as an operand or as a whole at level [l]. *)
Definition operand (p : str) (v : Z) : Prop :=
  ∀ rest, word_end rest → runs (λ n, parse_unary m n (p ++ rest)) (v, rest).

Definition reads (l : nat) (p : str) (v : Z) : Prop :=
  ∀ rest r, word_end rest → no_tighter l rest →
    runs (λ n, loop_at l n v rest) r → runs (λ n, parse_at l n (p ++ rest)) r.

Lemma operand_reads p v : operand p v → reads 3 p v.
Proof.
  intros H rest r Hw Hn Hr. eapply runs_S; [intros n; by apply parse_at_S; lia|].
  eapply runs_bind; [by apply H|exact Hr].
Qed.

Lemma reads_down l p v : l < 3 → reads (S l) p v → reads l p v.
Proof.
  intros Hl H rest r Hw Hn Hr. eapply runs_S; [intros n; by apply parse_at_S; lia|].
  eapply (runs_bind _ (λ n v s, loop_at l n v s) v (skip_ascii_ws rest)).
  - apply H; [done|intros o Ho; apply Hn; lia|]. apply loop_stops; [lia|done|lia].
  - eapply runs_ext; [intros n; apply loop_at_skip|exact Hr].
Qed.

Lemma reads_le k l p v : l ≤ k → k ≤ 3 → reads k p v → reads l p v.
Proof.
  intros Hlk. revert l Hlk. induction k as [|k IH]; intros l Hlk Hk H.
  - by assert (l = 0) as -> by lia.
  - destruct (decide (l = S k)) as [->|]; [done|]. apply IH; [lia|lia|]. apply reads_down; [lia|done].
Qed.

Lemma operand_reads_at l p v : l ≤ 3 → operand p v → reads l p v.
Proof. intros Hl H. apply (reads_le 3); [done|done|by apply operand_reads]. Qed.

Lemma consume_sym o o' s : consume (sym o') (&" " ++ sym o ++ &" " ++ s) =
  if decide (o' = o) then Some (&" " ++ s) else
  match o', o with
  | OGt, OGe => Some (&"= " ++ s)
  | OLt, OLe => Some (&"= " ++ s)
  | _, _ => None
  end.
Proof. destruct o, o'; reflexivity. Qed.

Lemma reads_op l o pa pb va vb : level o = l → reads l pa va →
  (if decide (l = 3) then operand pb vb else reads (S l) pb vb) →
  reads l (pa ++ &" " ++ sym o ++ &" " ++ pb) (sem o va vb).
Proof.
  intros Hl Ha Hb rest r Hw Hn Hr. assert (l < 4) as Hl4 by (destruct o; cbn in Hl; lia).
  rewrite <- !app_assoc. apply Ha; [done| |].
  - intros o' Ho'. rewrite consume_sym. rewrite decide_False by (intros ->; lia).
    destruct o, o'; cbn in Hl, Ho'; try done; lia.
  - assert (runs (λ n, parse_at (S l) n (pb ++ rest)) (vb, rest) ∨
            runs (λ n, parse_at (S l) n (pb ++ rest)) (vb, skip_ascii_ws rest)) as Hop.
    { destruct (decide (l = 3)) as [->|H3].
      - left. by apply Hb.
      - right. apply Hb; [done|intros o' Ho'; apply Hn; lia|]. by apply loop_stops. }
    assert (∀ n, loop_at l (S n) va (&" " ++ sym o ++ &" " ++ pb ++ rest) =
      ('(w, t) ← parse_at (S l) n (pb ++ rest); loop_at l n (sem o va w) t)) as E.
    { intros n. rewrite <- (parse_at_skip (S l) n (pb ++ rest)).
      change (skip_ascii_ws (pb ++ rest)) with (skip_ascii_ws (&" " ++ pb ++ rest)).
      rewrite parse_at_skip. destruct o; cbn in Hl; subst l; reflexivity. }
    eapply runs_S; [exact E|]. destruct Hop as [Hop|Hop].
    + eapply (runs_bind _ (λ n w t, loop_at l n (sem o va w) t)); [exact Hop|exact Hr].
    + eapply (runs_bind _ (λ n w t, loop_at l n (sem o va w) t)); [exact Hop|].
      eapply runs_ext; [intros n; apply loop_at_skip|exact Hr].
Qed.

Lemma operand_paren p v : reads 0 p v → operand (&"(" ++ p ++ &")") v.
Proof.
  intros H rest Hw. rewrite <- !app_assoc.
  assert (∀ n, parse_unary m (S n) (&"(" ++ p ++ &")" ++ rest) =
    ('(v, s) ← parse_or m n (p ++ &")" ++ rest); Some (v, consume_opt (&")") s))) as E by done.
  eapply runs_S; [exact E|].
  apply (runs_bind _ (λ n v s, Some (v, consume_opt (&")") s)) v (&")" ++ rest)).
  - apply (H (&")" ++ rest)); [done| |].
    + intros o _. by destruct o.
    + exists 1. intros [|n] Hn; [lia|]. apply (loop_at_stop 0); [lia|]. intros o _. by destruct o.
  - exists 0. intros n _. reflexivity.
Qed.

Lemma operand_not p v : operand p v → operand (&"!" ++ p) (b2z (v =? 0)%Z).
Proof.
  intros H rest Hw. rewrite <- app_assoc.
  assert (∀ n, parse_unary m (S n) (&"!" ++ p ++ rest) =
    ('(v, s) ← parse_unary m n (p ++ rest); Some (b2z (v =? 0)%Z, s))) as E by done.
  eapply runs_S; [exact E|].
  apply (runs_bind _ (λ n v s, Some (b2z (v =? 0)%Z, s)) v rest); [by apply H|].
  by exists 0.
Qed.

Lemma ident_ws c : is_ident c = true → is_ascii_whitespace c = false ∧ c ∉ ["!"%char; "("%char].
Proof.
  intros H. destruct c as [[] [] [] [] [] [] [] []]; try (by vm_compute in H);
    (split; [by vm_compute|]; apply (bool_decide_unpack _); by vm_compute).
Qed.

Lemma take_ident_word t rest : Forall (λ c, is_ident c = true) t → word_end rest →
  take_ident (t ++ rest) = (t, rest).
Proof.
  intros Ht Hr. induction Ht as [|c t Hc Ht IH]; cbn [app take_ident].
  - destruct rest as [|c rest]; [done|]. cbn [take_ident]. by rewrite (Hr : is_ident c = false).
  - by rewrite Hc, IH.
Qed.

Lemma token_word t rest : word t → word_end rest → token (t ++ rest) = (t, rest).
Proof.
  intros [Hne Ht] Hr. unfold token.
  assert (skip_ascii_ws (t ++ rest) = t ++ rest) as ->; [|by apply take_ident_word].
  destruct Ht as [|c t Hc Ht]; [done|]. cbn. by rewrite (proj1 (ident_ws c Hc)).
Qed.

(** A word is neither [!] nor [(]. *)
Lemma unary_word n t rest : word t → parse_unary m (S n) (t ++ rest) = Some (parse_operand m (t ++ rest)).
Proof.
  intros [Hne Ht]. destruct Ht as [|c t Hc Ht]; [done|]. cbn [app parse_unary].
  destruct (ident_ws c Hc) as [Hws Hc'].
  assert (∀ a, a ∈ ["!"%char; "("%char] → consume [a] (c :: t ++ rest) = None) as Hno.
  { intros a Ha. unfold consume. cbn [skip_ascii_ws]. rewrite Hws. cbn [strip_prefix].
    rewrite decide_False; [done|]. intros <-. done. }
  change (&"!") with ["!"%char]. change (&"(") with ["("%char].
  rewrite !Hno by set_solver. done.
Qed.

Lemma operand_word t : word t → t ≠ &"defined" → operand t (eval m (EWord t)).
Proof.
  intros Ht Hd rest Hw. exists 1. intros [|n] Hn; [lia|]. rewrite unary_word by done. f_equal.
  unfold parse_operand. rewrite token_word by done. rewrite decide_False by done.
  cbn [eval]. by destruct (parse_number t).
Qed.

Lemma operand_defined t : word t → operand (&"defined(" ++ t ++ &")") (b2z (has_macro m t)).
Proof.
  intros Ht rest Hw. exists 1. intros [|n] Hn; [lia|].
  assert (word (&"defined")) as Hd by (split; [done|repeat constructor]).
  replace ((&"defined(" ++ t ++ &")") ++ rest) with (&"defined" ++ &"(" ++ t ++ &")" ++ rest)
    by (rewrite <- !app_assoc; reflexivity).
  rewrite unary_word by done. f_equal. unfold parse_operand. rewrite token_word by done.
  rewrite decide_True by done.
  change (consume_opt (&"(") (&"(" ++ t ++ &")" ++ rest)) with (t ++ &")" ++ rest).
  rewrite token_word by done. reflexivity.
Qed.

Lemma print_reads e : wf_expr e →
  (∀ l, l ≤ 3 → reads l (print l e) (eval m e)) ∧ operand (print 4 e) (eval m e).
Proof.
  induction e as [t|t|e IH|o a IHa b IHb]; cbn [wf_expr]; intros Hw.
  - assert (operand t (eval m (EWord t))) as H by (destruct Hw; by apply operand_word).
    split; [|exact H]. intros l Hl. by apply operand_reads_at.
  - assert (operand (print 4 (EDefined t)) (eval m (EDefined t))) as H by (by apply operand_defined).
    split; [|exact H]. intros l Hl. by apply operand_reads_at.
  - destruct (IH Hw) as [_ H]. apply operand_not in H. split; [|exact H].
    intros l Hl. by apply operand_reads_at.
  - destruct Hw as [Hwa Hwb]. destruct (IHa Hwa) as [Ha _]. destruct (IHb Hwb) as [Hb Hb4].
    assert (level o ≤ 3) as Hlo by (destruct o; cbn; lia).
    assert (reads (level o) (print (level o) a ++ &" " ++ sym o ++ &" " ++ print (S (level o)) b)
      (eval m (EBin o a b))) as H.
    { apply reads_op; [done|by apply Ha|]. case_decide as H3; [by rewrite H3|]. apply Hb. lia. }
    assert (∀ l, l ≤ 4 → level o < l → operand (print l (EBin o a b)) (eval m (EBin o a b))) as Hp.
    { intros l Hl Hlt. cbn [print]. rewrite (proj2 (Nat.ltb_lt _ _) Hlt). apply operand_paren.
      apply (reads_le (level o)); [lia|done|done]. }
    split; [|apply Hp; lia]. intros l Hl. destruct (decide (level o < l)).
    + apply operand_reads_at; [done|]. apply Hp; lia.
    + cbn [print]. rewrite (proj2 (Nat.ltb_ge _ _)) by lia. apply (reads_le (level o)); [lia|done|done].
Qed.

(** More fuel changes nothing. *)
Definition grows (r r' : option (Z * str)) : Prop := ∀ x, r = Some x → r' = Some x.

Lemma grows_refl r : grows r r.
Proof. by intros x. Qed.

Lemma bind_grows r r' (k k' : Z * str → option (Z * str)) :
  grows r r' → (∀ x, grows (k x) (k' x)) → grows (r ≫= k) (r' ≫= k').
Proof. intros Hr Hk x (y & Hy & Hx)%bind_Some. rewrite (Hr y Hy). by apply (Hk y). Qed.

Ltac grow := cbn [parse_unary comparison_loop parse_comparison equality_loop parse_equality
    and_loop parse_and or_loop parse_or];
  repeat case_match; first [by apply grows_refl | apply bind_grows; [done|intros []; first [done|by apply grows_refl]]].

Lemma parse_grows n : ∀ n', n ≤ n' →
  (∀ s, grows (parse_unary m n s) (parse_unary m n' s)) ∧
  (∀ v s, grows (comparison_loop m n v s) (comparison_loop m n' v s)) ∧
  (∀ s, grows (parse_comparison m n s) (parse_comparison m n' s)) ∧
  (∀ v s, grows (equality_loop m n v s) (equality_loop m n' v s)) ∧
  (∀ s, grows (parse_equality m n s) (parse_equality m n' s)) ∧
  (∀ v s, grows (and_loop m n v s) (and_loop m n' v s)) ∧
  (∀ s, grows (parse_and m n s) (parse_and m n' s)) ∧
  (∀ v s, grows (or_loop m n v s) (or_loop m n' v s)) ∧
  (∀ s, grows (parse_or m n s) (parse_or m n' s)).
Proof.
  induction n as [|n IH]; intros [|n'] Hn; [by split_and!; intros|by split_and!; intros|lia|].
  destruct (IH n') as (Hu & Hcl & Hc & Hel & He & Hal & Ha & Hol & Ho); [lia|].
  split_and!; intros. all: grow.
Qed.

Lemma parse_or_more s n k r : parse_or m n s = Some r → parse_or m (n + k) s = Some r.
Proof.
  destruct (parse_grows n (n + k)) as (_ & _ & _ & _ & _ & _ & _ & _ & Ho); [lia|]. apply Ho.
Qed.

Lemma no_tighter_nil l : no_tighter l [].
Proof. intros o _. by destruct o. Qed.

Lemma eval_of_runs s v s' : runs (λ n, parse_or m n s) (v, s') → eval_condition m s = negb (v =? 0)%Z.
Proof.
  intros [n0 H]. unfold eval_condition. destruct (parse_or_total m s) as (w & t & E).
  pose proof (parse_or_more _ _ n0 _ E) as E2. rewrite (H (parse_fuel s + n0)) in E2 by lia.
  rewrite E. by simplify_eq.
Qed.

(** every condition has a value: the parser ends, and no further fuel
    changes what it returns. *)
Theorem condition_total s : ∃ v s', eval_condition m s = negb (v =? 0)%Z ∧
  ∀ k, parse_or m (parse_fuel s + k) s = Some (v, s').
Proof.
  destruct (parse_or_total m s) as (v & s' & E). exists v, s'. split.
  - unfold eval_condition. by rewrite E.
  - intros k. by apply parse_or_more.
Qed.

(** [eval_condition] implements the grammar of conditions: on an
    expression over numbers, macros, [defined], [!] and the binary operators,
    printed with only the parentheses precedence and left associativity
    require, it decides whether the value of the expression is not zero. *)
Theorem eval_condition_print e : wf_expr e →
  eval_condition m (print 0 e) = negb (eval m e =? 0)%Z.
Proof.
  intros He. destruct (print_reads e He) as [H _]. apply (eval_of_runs _ _ []).
  rewrite <- (app_nil_r (print 0 e)). 
  refine (H 0 _ [] _ _ (no_tighter_nil 0) _); [lia|done|].
  exists 1. intros [|n] Hn; [lia|]. apply (loop_at_stop 0); [lia|]. intros o _. by destruct o.
Qed.
End Grammar.

Lemma eval_condition_print_witness :
  let m := {[ &"VER" := &"0x10UL"; &"NET" := &"1" ]} in
  let e := EBin OAnd (EBin OOr (EWord (&"A")) (ENot (EBin OEq (EDefined (&"NET")) (EWord (&"0")))))
                     (EBin OGe (EWord (&"VER")) (EWord (&"16"))) in
  print 0 e = &"(A || !(defined(NET) == 0)) && VER >= 16" ∧ eval_condition m (print 0 e) = true.
Proof.
  split; [by vm_compute|].
  refine (eq_trans (eval_condition_print _ _ _) _); [|by vm_compute].
  repeat split; try done; repeat constructor.
Defined.
