(* ===== verification/HeaderBranches.v ===== *)
(** * Which branches [scan_active] sees

    Conditional groups as trees: of a well-nested text the state machine keeps
    the lines of the branch it selects in every group, under the macros defined
    up to there.  On any text the include references come from kept lines. *)
From S2P Require Import Prelude RustStr HeaderScan HeaderTokens HeaderActive.

(** ** Conditional groups *)

Inductive items :=
  | INil
  | ILine (ln : str) (rest : items)
  | IGroup (ln : str) (body : items) (bs : branches) (rest : items)
with branches :=
  | BEnd (ln : str)
  | BElif (ln : str) (body : items) (bs : branches)
  | BElse (ln : str) (body : items) (close : str).

Scheme items_mind := Induction for items Sort Prop
with branches_mind := Induction for branches Sort Prop.
Combined Scheme items_branches_ind from items_mind, branches_mind.

Fixpoint text (t : items) : list str :=
  match t with
  | INil => []
  | ILine ln rest => ln :: text rest
  | IGroup ln body bs rest => ln :: text body ++ branches_text bs ++ text rest
  end
with branches_text (bs : branches) : list str :=
  match bs with
  | BEnd ln => [ln]
  | BElif ln body bs => ln :: text body ++ branches_text bs
  | BElse ln body close => ln :: text body ++ [close]
  end.

(** The condition of a line that opens a group. *)
Definition condition (m : macros) (ln : str) : option bool :=
  match classify ln with
  | DIf rest => Some (eval_condition m rest)
  | DIfdef rest => Some (has_macro m (first_token rest))
  | DIfndef rest => Some (negb (has_macro m (first_token rest)))
  | _ => None
  end.

Definition plain_line (ln : str) : bool :=
  match classify ln with DDefine _ | DUndef _ | DOther => true | _ => false end.

Definition is_elif (ln : str) : bool := match classify ln with DElif _ => true | _ => false end.
Definition is_else (ln : str) : bool := match classify ln with DElse => true | _ => false end.
Definition is_endif (ln : str) : bool := match classify ln with DEndif => true | _ => false end.
Definition is_opener (ln : str) : bool := bool_decide (is_Some (condition ∅ ln)).

Fixpoint wf (t : items) : bool :=
  match t with
  | INil => true
  | ILine ln rest => plain_line ln && wf rest
  | IGroup ln body bs rest => is_opener ln && wf body && wf_branches bs && wf rest
  end
with wf_branches (bs : branches) : bool :=
  match bs with
  | BEnd ln => is_endif ln
  | BElif ln body bs => is_elif ln && wf body && wf_branches bs
  | BElse ln body close => is_else ln && wf body && is_endif close
  end.

(** ** What is selected *)

Definition elif_holds (m : macros) (ln : str) : bool :=
  match classify ln with DElif rest => eval_condition m rest | _ => false end.

(** A line in an active branch: its output and the macros after it. *)
Definition active_text (ln : str) (m : macros) : str * macros :=
  match classify ln with
  | DDefine rest => (blank ln, define rest m)
  | DUndef rest => (blank ln, delete (first_token rest) m)
  | _ => (ln, m)
  end.

Fixpoint expand (t : items) (m : macros) : list str * macros :=
  match t with
  | INil => ([], m)
  | ILine ln rest =>
      let '(o, m) := active_text ln m in
      let '(out, m) := expand rest m in (o :: out, m)
  | IGroup ln body bs rest =>
      let '(out, m) :=
        if default false (condition m ln)
        then let '(out, m) := expand body m in (out ++ (blank <$> branches_text bs), m)
        else let '(out, m) := select bs m in ((blank <$> text body) ++ out, m) in
      let '(more, m) := expand rest m in (blank ln :: out ++ more, m)
  end
with select (bs : branches) (m : macros) : list str * macros :=
  match bs with
  | BEnd ln => ([blank ln], m)
  | BElif ln body bs =>
      let '(out, m) :=
        if elif_holds m ln
        then let '(out, m) := expand body m in (out ++ (blank <$> branches_text bs), m)
        else let '(out, m) := select bs m in ((blank <$> text body) ++ out, m) in
      (blank ln :: out, m)
  | BElse ln body close => let '(out, m) := expand body m in (blank ln :: out ++ [blank close], m)
  end.

(** ** The state machine follows the tree *)

Lemma active_lines_app a b st :
  active_lines (a ++ b) st =
    ((active_lines a st).1 ++ (active_lines b (active_lines a st).2).1, (active_lines b (active_lines a st).2).2).
Proof.
  revert st. induction a as [|ln a IH]; intros st; cbn [app active_lines].
  - cbn [fst snd app]. by destruct (active_lines b st).
  - destruct (active_line (classify ln) st) as [st' keep]. rewrite IH.
    by destruct (active_lines a st') as [o st''].
Qed.

Definition at_state (up : list Conditional) (a : bool) (m : macros) : active_state :=
  {| stack := up; active := a; defs := m |}.

Definition in_group (pa taken : bool) : Conditional := {| parent_active := pa; branch_taken := taken |}.

Lemma opener_state ln up a m : is_opener ln = true →
  active_line (classify ln) (at_state up a m) =
    (let c := a && default false (condition m ln) in at_state (in_group a c :: up) c m, false).
Proof.
  unfold is_opener, condition. intros H%bool_decide_eq_true.
  destruct (classify ln); cbn in H |- *; try (by destruct H); reflexivity.
Qed.

Lemma plain_state ln up m : plain_line ln = true →
  active_lines [ln] (at_state up true m) = ([(active_text ln m).1], at_state up true (active_text ln m).2).
Proof. unfold plain_line, active_text. cbn [active_lines]. by destruct (classify ln). Qed.

Lemma plain_skipped ln up m : plain_line ln = true →
  active_line (classify ln) (at_state up false m) = (at_state up false m, false).
Proof. unfold plain_line. by destruct (classify ln). Qed.

(** The three lines that continue a group. *)
Lemma elif_state ln up pa tk a m : is_elif ln = true →
  active_line (classify ln) (at_state (in_group pa tk :: up) a m) =
    (let c := pa && negb tk && elif_holds m ln in at_state (in_group pa (tk || c) :: up) c m, false).
Proof. unfold is_elif, elif_holds. by destruct (classify ln). Qed.

Lemma else_state ln up pa tk a m : is_else ln = true →
  active_line (classify ln) (at_state (in_group pa tk :: up) a m) =
    (at_state (in_group pa true :: up) (pa && negb tk) m, false).
Proof. unfold is_else. by destruct (classify ln). Qed.

Lemma endif_state ln up pa tk a m : is_endif ln = true →
  active_line (classify ln) (at_state (in_group pa tk :: up) a m) = (at_state up pa m, false).
Proof. unfold is_endif. by destruct (classify ln). Qed.

Lemma active_lines_cons ln ls st :
  active_lines (ln :: ls) st =
    let r := active_line (classify ln) st in
    ((if r.2 then ln else blank ln) :: (active_lines ls r.1).1, (active_lines ls r.1).2).
Proof. cbn [active_lines]. destruct (active_line (classify ln) st) as [st' k]. cbn [fst snd]. by destruct (active_lines ls st'). Qed.

Ltac bools := repeat match goal with H : _ && _ = true |- _ => apply andb_true_iff in H as [? ?] end.

(** Code that is not reached is blanked and changes nothing; so are the
    branches of a group that has taken one already. *)
Lemma skipped :
  (∀ t, wf t = true → ∀ up m, active_lines (text t) (at_state up false m) = (blank <$> text t, at_state up false m)) ∧
  (∀ bs, wf_branches bs = true → ∀ up pa tk a m, pa && negb tk = false →
    active_lines (branches_text bs) (at_state (in_group pa tk :: up) a m) =
      (blank <$> branches_text bs, at_state up pa m)).
Proof.
  apply items_branches_ind; cbn [wf wf_branches text branches_text].
  - done.
  - intros ln rest IH Hw up m. bools. rewrite active_lines_cons, plain_skipped by done. cbn [fst snd].
    by rewrite IH by done.
  - intros ln body IHb bs IHbs rest IHr Hw up m. bools. rewrite active_lines_cons, opener_state by done.
    cbn [fst snd andb]. rewrite active_lines_app, IHb by done. cbn [fst snd].
    rewrite active_lines_app, IHbs by done. cbn [fst snd]. rewrite IHr by done. cbn [fst snd fmap list_fmap].
    by rewrite !fmap_app.
  - intros ln Hw up pa tk a m _. rewrite active_lines_cons, endif_state by done. done.
  - intros ln body IHb bs IHbs Hw up pa tk a m Hpt. bools. rewrite active_lines_cons, elif_state by done.
    cbn [fst snd]. rewrite Hpt. cbn [andb]. rewrite active_lines_app, IHb by done. cbn [fst snd].
    rewrite IHbs by (done || by rewrite orb_false_r). cbn [fst snd fmap list_fmap]. by rewrite fmap_app.
  - intros ln body IHb close Hw up pa tk a m Hpt. bools. rewrite active_lines_cons, else_state by done.
    cbn [fst snd]. rewrite Hpt. rewrite active_lines_app, IHb by done. cbn [fst snd].
    rewrite active_lines_cons, endif_state by done. cbn [fst snd fmap list_fmap]. by rewrite fmap_app.
Qed.

(** An active group is expanded. *)
Lemma expanded :
  (∀ t, wf t = true → ∀ up m,
    active_lines (text t) (at_state up true m) = ((expand t m).1, at_state up true (expand t m).2)) ∧
  (∀ bs, wf_branches bs = true → ∀ up a m,
    active_lines (branches_text bs) (at_state (in_group true false :: up) a m) =
      ((select bs m).1, at_state up true (select bs m).2)).
Proof.
  destruct skipped as [Hskip Hskipb].
  apply items_branches_ind; cbn [wf wf_branches text branches_text expand select].
  - done.
  - intros ln rest IH Hw up m. bools. change (ln :: text rest) with ([ln] ++ text rest).
    rewrite active_lines_app, plain_state by done. cbn [fst snd]. rewrite IH by done.
    destruct (active_text ln m) as [o m']. cbn [fst snd]. by destruct (expand rest m').
  - intros ln body IHb bs IHbs rest IHr Hw up m. bools. rewrite active_lines_cons, opener_state by done.
    cbn [fst snd andb]. destruct (default false (condition m ln)).
    + rewrite active_lines_app, IHb by done. cbn [fst snd]. destruct (expand body m) as [o1 m1]. cbn [fst snd].
      rewrite active_lines_app, Hskipb by done. cbn [fst snd]. rewrite IHr by done.
      destruct (expand rest m1). cbn [fst snd]. by rewrite app_assoc.
    + rewrite active_lines_app, Hskip by done. cbn [fst snd]. rewrite active_lines_app, IHbs by done.
      cbn [fst snd]. destruct (select bs m) as [o1 m1]. cbn [fst snd]. rewrite IHr by done.
      destruct (expand rest m1). cbn [fst snd]. by rewrite app_assoc.
  - intros ln Hw up a m. rewrite active_lines_cons, endif_state by done. done.
  - intros ln body IHb bs IHbs Hw up a m. bools. rewrite active_lines_cons, elif_state by done.
    cbn [fst snd andb negb orb]. destruct (elif_holds m ln).
    + rewrite active_lines_app, IHb by done. cbn [fst snd]. destruct (expand body m) as [o1 m1]. cbn [fst snd].
      by rewrite Hskipb by done.
    + rewrite active_lines_app, Hskip by done. cbn [fst snd]. rewrite IHbs by done.
      by destruct (select bs m) as [o1 m1].
  - intros ln body IHb close Hw up a m. bools. rewrite active_lines_cons, else_state by done.
    cbn [fst snd andb negb]. rewrite active_lines_app, IHb by done. cbn [fst snd].
    destruct (expand body m) as [o1 m1]. cbn [fst snd]. by rewrite active_lines_cons, endif_state by done.
Qed.

(** On a text whose conditional directives are well nested, [active_source]
    keeps of every group the first branch whose condition the code finds to
    hold, or the [#else] branch; see [HeaderC] for what the conditions mean. *)
Lemma active_source_tree src t m : wf t = true → split_inclusive nl src = text t →
  active_source src m = (mjoin (expand t m).1, (expand t m).2).
Proof.
  intros Hw Hs. unfold active_source. rewrite Hs.
  change {| stack := []; active := true; defs := m |} with (at_state [] true m).
  by rewrite (proj1 expanded t Hw [] m).
Qed.

(** ** Any text: where the references come from *)

(** Every line but the last is terminated. *)
Definition terminated (ls : list str) : Prop :=
  ∀ i o o', ls !! i = Some o → ls !! S i = Some o' → ∃ w, o = w ++ [nl].

Lemma terminated_tail o ls : terminated (o :: ls) → terminated ls.
Proof. intros H i. apply (H (S i)). Qed.

(** [d] has no newline and stands somewhere in the joined lines: it stands in
    one of them. *)
Lemma infix_of_line outs pre d post :
  terminated outs → mjoin outs = pre ++ d ++ post → d ≠ [] → nl ∉ d →
  ∃ i o a b, outs !! i = Some o ∧ o = a ++ d ++ b.
Proof.
  revert pre. induction outs as [|o outs IH]; intros pre Hends E Hd Hnl; cbn in E.
  { symmetry in E. apply app_nil in E as [_ [-> _]%app_nil]. done. }
  assert (∀ k, mjoin outs = k ++ d ++ post → ∃ i o' a b, (o :: outs) !! i = Some o' ∧ o' = a ++ d ++ b) as Hlater.
  { intros k Ek. destruct (IH k (terminated_tail _ _ Hends) Ek Hd Hnl) as (i & o' & a & b & ? & ?).
    by exists (S i), o', a, b. }
  apply app_eq_inv in E as [(k & -> & E)|(k & -> & E)]; [|by apply (Hlater k)].
  apply app_eq_inv in E as [(j & -> & E)|(j & -> & E)]; [|by exists 0, (pre ++ d ++ j), pre, j].
  destruct k as [|c k]; [by apply (Hlater [])|].
  destruct j as [|c' j]; [exists 0, (pre ++ c :: k), pre, []; by rewrite !app_nil_r|].
  destruct outs as [|o' outs]; [done|]. destruct (Hends 0 _ _ eq_refl eq_refl) as [w Ew].
  destruct Hnl. apply elem_of_app. left. apply (last_Some_elem_of _ nl).
  apply (f_equal last) in Ew. by rewrite last_snoc, last_app_cons in Ew.
Qed.

Lemma split_inclusive_terminated c s i o o' :
  split_inclusive c s !! i = Some o → split_inclusive c s !! S i = Some o' → ∃ w, o = w ++ [c].
Proof.
  revert i o. induction s as [|a s IH]; intros i o; cbn [split_inclusive]; [done|]. case_decide as Ha.
  - subst. destruct i as [|i]; [intros [= <-] _; by exists []|]. apply IH.
  - destruct (split_inclusive c s) as [|w ws] eqn:Es; [by destruct i|].
    destruct i as [|i]; [|apply (IH (S i))].
    intros [= <-] H. destruct (IH 0 w eq_refl H) as [v Ev]. exists (a :: v). by rewrite Ev.
Qed.

Lemma active_lines_lookup ls st i o : (active_lines ls st).1 !! i = Some o →
  ∃ ln, ls !! i = Some ln ∧ let r := active_line (classify ln) (active_lines (take i ls) st).2 in
  o = if r.2 then ln else blank ln.
Proof.
  revert st i. induction ls as [|ln ls IH]; intros st i; [done|]. rewrite active_lines_cons. cbn [fst].
  destruct i as [|i]; [intros [= <-]; by exists ln|]. intros (ln' & Hln & E)%IH. exists ln'. split; [done|].
  cbn [take]. by rewrite active_lines_cons.
Qed.

Lemma active_lines_length ls st : length (active_lines ls st).1 = length ls.
Proof. revert st. induction ls as [|ln ls IH]; intros st; [done|]. rewrite active_lines_cons. cbn. by rewrite IH. Qed.

Lemma blank_cases ln : blank ln = [] ∨ blank ln = [nl].
Proof. unfold blank. case_match; auto. Qed.

Lemma active_lines_terminated src st : terminated (active_lines (split_inclusive nl src) st).1.
Proof.
  intros i o o' (ln & Hln & ->)%active_lines_lookup (ln' & Hln' & _)%active_lines_lookup. cbv zeta.
  destruct (split_inclusive_terminated _ _ _ _ _ Hln Hln') as [w ->]. case_match; [by exists w|].
  exists []. unfold blank. by rewrite ends_with_snoc.
Qed.

Definition starting (m : macros) : active_state := at_state [] true m.

(** The state before the line [i] of [src]. *)
Definition state_at (src : str) (m : macros) (i : nat) : active_state :=
  (active_lines (take i (split_inclusive nl src)) (starting m)).2.

Lemma kept_line ln st : (active_line (classify ln) st).2 = true → active st = true ∧ classify ln = DOther.
Proof. destruct (classify ln); cbn; try done; destruct (active st) eqn:E; cbn; by rewrite ?E. Qed.

(** on any text whatever, each reference [scan_active] reports is spelled
    out on a line of an active branch that is no preprocessor conditional. *)
Theorem scan_active_sound src m r : r ∈ scan_active src m →
  ∃ i ln, split_inclusive nl src !! i = Some ln ∧ active (state_at src m i) = true ∧ classify ln = DOther ∧
  ∃ a d b, ln = a ++ d ++ b ∧ include_text (kind r) (path r) d.
Proof.
  unfold scan_active, active_source. change {| stack := []; active := true; defs := m |} with (starting m).
  pose proof (active_lines_terminated src (starting m)) as Ht.
  destruct (active_lines (split_inclusive nl src) (starting m)) as [out st] eqn:Eo. cbn [fst] in Ht |- *.
  intros (pre & d & post & E & Hd)%scan_sources. destruct (include_text_line _ _ _ Hd) as [Hne Hnl].
  destruct (infix_of_line _ _ _ _ Ht E Hne Hnl) as (i & o & a & b & Hi & Ho).
  assert ((active_lines (split_inclusive nl src) (starting m)).1 !! i = Some o) as (ln & Hln & E')%active_lines_lookup
    by by rewrite Eo.
  exists i, ln. cbv zeta in E'. fold (state_at src m i) in E'.
  destruct (active_line (classify ln) (state_at src m i)).2 eqn:Ek; [|exfalso].
  - apply kept_line in Ek as [? ?]. split_and!; [done..|]. exists a, d, b. by rewrite <- E'.
  - subst o. destruct d as [|c d]; [done|]. apply not_elem_of_cons in Hnl as [Hc _].
    destruct (blank_cases ln) as [Eb|Eb]; rewrite Eb in E'.
    + by destruct a.
    + destruct a as [|? [|]]; by simplify_eq/=.
Qed.

Definition guarded : str :=
  &"#ifdef A" ++ [nl] ++ &"#include <a.h>" ++ [nl] ++ &"#endif" ++ [nl] ++ &"#include <b.h>" ++ [nl].

Lemma scan_active_sound_witness : ∃ i ln, split_inclusive nl guarded !! i = Some ln ∧
  active (state_at guarded ∅ i) = true ∧ classify ln = DOther ∧
  ∃ a d b, ln = a ++ d ++ b ∧ include_text Angled (&"b.h") d.
Proof.
  refine (scan_active_sound guarded ∅ {| path := &"b.h"; kind := Angled; span := {| line := 4; col := 1 |} |} _).
  assert (scan_active guarded ∅ = [{| path := &"b.h"; kind := Angled; span := {| line := 4; col := 1 |} |}]) as ->
    by by vm_compute.
  apply list_elem_of_here.
Defined.

(** ** Findings *)

(** [#if(..)] without a space is no directive to [split_directive], but its
    [#endif] is: it ends the enclosing group, so that inactive code becomes
    active. *)
Lemma unspaced_if_ends_group :
  path <$> scan_active (&"#ifdef A" ++ [nl] ++ &"#if(1)" ++ [nl] ++ &"#endif" ++ [nl] ++ &"#include <x.h>" ++ [nl] ++
    &"#endif" ++ [nl]) ∅ = [&"x.h"].
Proof. by vm_compute. Qed.

(** A macro whose value is parenthesized, or another macro, counts as 0: the
    include it guards is missed. *)
Lemma macro_value_not_expanded :
  scan_active (&"#define NET (1)" ++ [nl] ++ &"#if NET" ++ [nl] ++ &"#include <net.h>" ++ [nl] ++ &"#endif") ∅ = [] ∧
  scan_active (&"#define NET ON" ++ [nl] ++ &"#if NET" ++ [nl] ++ &"#include <net.h>" ++ [nl] ++ &"#endif")
    {[ &"ON" := &"1" ]} = [].
Proof. split; by vm_compute. Qed.

(** A leading zero does not make a number octal. *)
Lemma octal_read_as_decimal : eval_condition ∅ (&"010 == 8") = false.
Proof. by vm_compute. Qed.
