(* ===== verification/HeaderC.v ===== *)
(** * Which branches of a header count, by the rules of C

    The text of a header as a tree of lines and conditional groups, with its
    own reading: what the words of a condition stand for, which branch of a
    group is taken and what the macros are afterwards.  On such text
    [active_source] keeps the lines that this reading keeps. *)
From S2P Require Import Prelude RustStr HeaderScan HeaderTokens HeaderActive HeaderCond HeaderBranches.

(** ** Words *)

Definition letter (c : ascii) : Prop := c ∈ &"_abcdefghijklmnopqrstuvwxyzABCDEFGHIJKLMNOPQRSTUVWXYZ".
Definition decimals : str := &"0123456789".
Definition reserved : list str :=
  [&"defined"; &"true"; &"false"; &"and"; &"or"; &"not"; &"xor"; &"bitand"; &"bitor"; &"compl"; &"not_eq"].
Definition identifier (t : str) : Prop :=
  t ∉ reserved ∧ ∃ c r, t = c :: r ∧ letter c ∧ Forall (λ c, letter c ∨ c ∈ decimals) r.

(** An integer literal with its value: decimal without a leading zero, or
    hexadecimal, with a suffix, and in the range of 64 bits with sign. *)
Definition positional (base : Z) (ds : list nat) : Z := foldl (λ a d, a * base + Z.of_nat d)%Z 0%Z ds.
Definition decimal_digit (c : ascii) (d : nat) : Prop := decimals !! d = Some c.
Definition hex_digit (c : ascii) (d : nat) : Prop := &"0123456789abcdef" !! d = Some c ∨ &"0123456789ABCDEF" !! d = Some c.
Definition suffix (s : str) : Prop := Forall (λ c, c ∈ &"uUlL") s.
Inductive literal : str → Z → Prop :=
  | lit_decimal t ds s : Forall2 decimal_digit t ds → t ≠ [] → (head t = Some "0"%char → t = &"0") → suffix s →
      (positional 10 ds < 2 ^ 63)%Z → literal (t ++ s) (positional 10 ds)
  | lit_hex x t ds s : x ∈ [&"0x"; &"0X"] → Forall2 hex_digit t ds → t ≠ [] → suffix s →
      (positional 16 ds < 2 ^ 63)%Z → literal (x ++ t ++ s) (positional 16 ds).

(** ** What a condition means

    A word is a literal; or the name of a macro that stands for one; or a name
    that is no macro, which counts as 0.  A macro that stands for anything else
    has no meaning here. *)
Inductive means (m : macros) : expr → Z → Prop :=
  | m_literal t v : literal t v → means m (EWord t) v
  | m_macro t w v : identifier t → m !! t = Some w → literal w v → means m (EWord t) v
  | m_other t : identifier t → m !! t = None → means m (EWord t) 0
  | m_defined t w : identifier t → m !! t = Some w → means m (EDefined t) 1
  | m_undefined t : identifier t → m !! t = None → means m (EDefined t) 0
  | m_not e v : means m e v → means m (ENot e) (if decide (v = 0%Z) then 1 else 0)
  | m_bin o a b v w : means m a v → means m b w → means m (EBin o a b) (sem o v w).

(** ** Lines *)

Definition graphic (c : ascii) : Prop := (33 ≤ N_of_ascii c ≤ 126)%N.
Definition blanks (s : str) : Prop := Forall (λ c, c = sp ∨ c = tab) s.
Definition printable (s : str) : Prop := Forall (λ c, graphic c ∨ c = sp ∨ c = tab) s.
Definition infix (a s : str) : Prop := ∃ x y, s = x ++ a ++ y.
(** Nothing on the line reaches into the next one. *)
Definition one_line (s : str) : Prop :=
  printable s ∧ ¬ infix (&"/*") s ∧ ¬ infix (&"\") s ∧ ¬ infix [("R"%char); ("034"%char)] s.

(** How a directive is laid out: blanks before and after the number sign,
    before its argument, and what follows it: nothing, or blanks and perhaps a
    comment to the end of the line. *)
Record layout := { lead : str; gap : str; space : str; trail : str }.
Definition wf_layout (y : layout) : Prop :=
  blanks (lead y) ∧ blanks (gap y) ∧ blanks (space y) ∧ space y ≠ [] ∧
  (trail y = [] ∨ ∃ b c, trail y = b ++ c ∧ b ≠ [] ∧ blanks b ∧ (c = [] ∨ ∃ x, c = &"//" ++ x ∧ one_line c)).
Definition directive_line (y : layout) (name arg : str) : str := lead y ++ [hash] ++ gap y ++ name ++ arg ++ trail y ++ [nl].
Definition with_arg (y : layout) (name arg : str) : str := directive_line y name (space y ++ arg).

(** Text, a macro without parameters defined as one word or as nothing, a
    macro removed. *)
Inductive cline :=
  | CText (s : str)
  | CDefine (y : layout) (name : str) (value : option (str * str))
  | CUndef (y : layout) (name : str).
Inductive copener :=
  | CIf (y : layout) (e : expr)
  | CIfdef (y : layout) (name : str)
  | CIfndef (y : layout) (name : str).
Inductive citems :=
  | CNil
  | CLine (l : cline) (rest : citems)
  | CGroup (o : copener) (body : citems) (bs : cbranches) (rest : citems)
with cbranches :=
  | CEndif (y : layout)
  | CElif (y : layout) (e : expr) (body : citems) (bs : cbranches)
  | CElse (y : layout) (body : citems) (close : layout).

Definition cline_text (l : cline) : str :=
  match l with
  | CText s => s ++ [nl]
  | CDefine y name None => with_arg y (&"define") name
  | CDefine y name (Some (b, w)) => with_arg y (&"define") (name ++ b ++ w)
  | CUndef y name => with_arg y (&"undef") name
  end.
Definition copener_text (o : copener) : str :=
  match o with
  | CIf y e => with_arg y (&"if") (print 0 e)
  | CIfdef y name => with_arg y (&"ifdef") name
  | CIfndef y name => with_arg y (&"ifndef") name
  end.

Fixpoint tree (t : citems) : items :=
  match t with
  | CNil => INil
  | CLine l rest => ILine (cline_text l) (tree rest)
  | CGroup o body bs rest => IGroup (copener_text o) (tree body) (branch_tree bs) (tree rest)
  end
with branch_tree (bs : cbranches) : branches :=
  match bs with
  | CEndif y => BEnd (directive_line y (&"endif") [])
  | CElif y e body bs => BElif (with_arg y (&"elif") (print 0 e)) (tree body) (branch_tree bs)
  | CElse y body close => BElse (directive_line y (&"else") []) (tree body) (directive_line close (&"endif") [])
  end.
Definition source (t : citems) : str := mjoin (text (tree t)).

(** The words of a condition are names and literals. *)
Fixpoint c_expr (e : expr) : Prop :=
  match e with
  | EWord t => identifier t ∨ ∃ v, literal t v
  | EDefined t => identifier t
  | ENot e => c_expr e
  | EBin _ a b => c_expr a ∧ c_expr b
  end.

Definition conditionals : list str :=
  [&"if"; &"ifdef"; &"ifndef"; &"elif"; &"elifdef"; &"elifndef"; &"else"; &"endif"; &"define"; &"undef"].
(** A line of text, or another directive, such as an include. *)
Definition other_line (s : str) : Prop :=
  one_line s ∧ ∃ b r, s = b ++ r ∧ blanks b ∧
    (r = [] ∨ (∃ c x, r = c :: x ∧ graphic c ∧ c ≠ hash) ∨
     ∃ g name x, r = hash :: g ++ name ++ x ∧ blanks g ∧ word name ∧ word_end x ∧ name ∉ conditionals).

Definition wf_cline (l : cline) : Prop :=
  match l with
  | CText s => other_line s
  | CDefine y name value => wf_layout y ∧ identifier name ∧
      match value with Some (b, w) => blanks b ∧ b ≠ [] ∧ word w | None => True end
  | CUndef y name => wf_layout y ∧ identifier name
  end.
Definition wf_copener (o : copener) : Prop :=
  match o with CIf y e => wf_layout y ∧ c_expr e | CIfdef y name | CIfndef y name => wf_layout y ∧ identifier name end.
Fixpoint wf_c (t : citems) : Prop :=
  match t with
  | CNil => True
  | CLine l rest => wf_cline l ∧ wf_c rest
  | CGroup o body bs rest => wf_copener o ∧ wf_c body ∧ wf_cbranches bs ∧ wf_c rest
  end
with wf_cbranches (bs : cbranches) : Prop :=
  match bs with
  | CEndif y => wf_layout y
  | CElif y e body bs => wf_layout y ∧ c_expr e ∧ wf_c body ∧ wf_cbranches bs
  | CElse y body close => wf_layout y ∧ wf_c body ∧ wf_layout close
  end.

(** ** What C selects *)

(** The macros after a line. *)
Definition after (l : cline) (m : macros) : macros :=
  match l with
  | CText _ => m
  | CDefine _ name value => <[name := default [] (snd <$> value)]> m
  | CUndef _ name => delete name m
  end.
Definition shown (l : cline) : str := match l with CText s => s | _ => [] end.

Inductive opens (m : macros) : copener → bool → Prop :=
  | o_true y e v : means m e v → v ≠ 0%Z → opens m (CIf y e) true
  | o_false y e : means m e 0 → opens m (CIf y e) false
  | o_ifdef y name : opens m (CIfdef y name) (bool_decide (is_Some (m !! name)))
  | o_ifndef y name : opens m (CIfndef y name) (bool_decide (m !! name = None)).

(** One empty line for each. *)
Definition hidden (ls : list str) : list str := (λ _, []) <$> ls.

(** The lines that are left, empty where a directive or a branch not taken
    was, and the macros at the end.  A condition counts only where it is
    reached. *)
Inductive selects : macros → citems → list str → macros → Prop :=
  | s_nil m : selects m CNil [] m
  | s_line m l rest out m' : selects (after l m) rest out m' → selects m (CLine l rest) (shown l :: out) m'
  | s_taken m o body bs rest out m1 out' m' : opens m o true → selects m body out m1 → selects m1 rest out' m' →
      selects m (CGroup o body bs rest) ([] :: (out ++ hidden (branches_text (branch_tree bs))) ++ out') m'
  | s_passed m o body bs rest out m1 out' m' : opens m o false → selects_in m bs out m1 → selects m1 rest out' m' →
      selects m (CGroup o body bs rest) ([] :: (hidden (text (tree body)) ++ out) ++ out') m'
with selects_in : macros → cbranches → list str → macros → Prop :=
  | s_endif m y : selects_in m (CEndif y) [[]] m
  | s_elif m y e v body bs out m' : means m e v → v ≠ 0%Z → selects m body out m' →
      selects_in m (CElif y e body bs) ([] :: out ++ hidden (branches_text (branch_tree bs))) m'
  | s_next m y e body bs out m' : means m e 0 → selects_in m bs out m' →
      selects_in m (CElif y e body bs) ([] :: hidden (text (tree body)) ++ out) m'
  | s_else m y body close out m' : selects m body out m' → selects_in m (CElse y body close) ([] :: out ++ [[]]) m'.

Scheme selects_mind := Induction for selects Sort Prop
with selects_in_mind := Induction for selects_in Sort Prop.
Combined Scheme selects_both_ind from selects_mind, selects_in_mind.

(** ** Characters *)

Lemma graphic_not_ws c s : graphic c → starts_ws (c :: s) = false.
Proof. unfold graphic. intros H. destruct c as [[] [] [] [] [] [] [] []]; first [by vm_compute|exfalso; clear s; vm_compute in H; by destruct H]. Qed.

Lemma ident_graphic c : is_ident c = true → graphic c.
Proof. unfold graphic. intros H. destruct c as [[] [] [] [] [] [] [] []]; first [by vm_compute|by vm_compute in H]. Qed.

Lemma letter_cases c : letter c → is_ident c = true ∧ digit_value 10 c = None ∧ c ≠ "0"%char ∧ c ≠ "-"%char ∧ c ≠ "+"%char.
Proof.
  unfold letter. intros H. repeat (apply elem_of_cons in H as [->|H]; [by vm_compute|]). by apply not_elem_of_nil in H.
Qed.

Lemma decimal_ident c : c ∈ decimals → is_ident c = true.
Proof. intros H. repeat (apply elem_of_cons in H as [->|H]; [by vm_compute|]). by apply not_elem_of_nil in H. Qed.

Lemma suffix_cases c : c ∈ &"uUlL" → is_ident c = true ∧ is_suffix_letter c = true.
Proof. intros H. repeat (apply elem_of_cons in H as [->|H]; [by vm_compute|]). by apply not_elem_of_nil in H. Qed.

(** What holds of every digit. *)
Definition reads_digit (radix : Z) (c : ascii) (d : nat) : Prop :=
  digit_value radix c = Some (Z.of_nat d) ∧ is_ident c = true ∧ is_suffix_letter c = false ∧ c ≠ "-"%char ∧ c ≠ "+"%char ∧ c ≠ "x"%char ∧ c ≠ "X"%char.

Lemma lookup_all {A} (P : A → nat → Prop) (l : list A) k : (∀ i x, l !! i = Some x → P x (k + i)) ↔
  (fix go l k := match l with [] => True | x :: l => P x k ∧ go l (S k) end) l k.
Proof.
  revert k. induction l as [|a l IH]; intros k; [by split|]. rewrite <- IH. split.
  - intros H. split; [rewrite <- (Nat.add_0_r k); by apply H|]. intros i x Hi. rewrite Nat.add_succ_comm. by apply H.
  - intros [H1 H2] [|i] x Hi; [injection Hi as <-; by rewrite Nat.add_0_r|]. rewrite <- Nat.add_succ_comm. by apply H2.
Qed.

Lemma decimal_reads c d : decimal_digit c d → reads_digit 10 c d.
Proof. revert c d. intros c d. revert d c. apply (lookup_all (reads_digit 10) decimals 0). unfold reads_digit. by vm_compute. Qed.

Lemma hex_reads c d : hex_digit c d → reads_digit 16 c d.
Proof.
  intros [H|H]; revert d c H; [apply (lookup_all (reads_digit 16) (&"0123456789abcdef") 0)|apply (lookup_all (reads_digit 16) (&"0123456789ABCDEF") 0)].
  all: unfold reads_digit; by vm_compute.
Qed.

(** ** Numbers *)

Lemma digits_positional radix t ds acc : Forall2 (reads_digit radix) t ds →
  digits radix acc t = Some (foldl (λ a d, a * radix + Z.of_nat d)%Z acc ds).
Proof.
  intros H. revert acc. induction H as [|c d t ds (Hc & _) _ IH]; intros acc; cbn [digits foldl]; [done|].
  rewrite Hc. cbn. by rewrite IH.
Qed.

Lemma positional_nonneg base acc ds : (0 ≤ base)%Z → (0 ≤ acc)%Z → (0 ≤ foldl (λ a d, a * base + Z.of_nat d) acc ds)%Z.
Proof. intros Hb. revert acc. induction ds as [|d ds IH]; intros acc Ha; cbn [foldl]; [done|]. apply IH. nia. Qed.

Lemma from_str_radix_positional radix t ds : (0 ≤ radix)%Z → Forall2 (reads_digit radix) t ds → t ≠ [] →
  (positional radix ds < 2 ^ 63)%Z → from_str_radix radix t = Some (positional radix ds).
Proof.
  intros Hr H Hne Hb. unfold from_str_radix. destruct H as [|c d t ds Hc H]; [done|]. destruct Hc as (Hd & Hi & Hs & H1 & H2 & H3) eqn:E.
  rewrite !decide_False by done. rewrite (digits_positional radix (c :: t) (d :: ds)) by (by constructor). cbn [mbind option_bind].
  fold (positional radix (d :: ds)). rewrite Z.mul_1_l. rewrite decide_True; [done|].
  pose proof (positional_nonneg radix 0 (d :: ds) Hr ltac:(lia)) as H0. fold (positional radix (d :: ds)) in H0. unfold i64_min, i64_max. lia.
Qed.

Lemma trim_suffix_letters_app t s : suffix s → (∀ c, last t = Some c → is_suffix_letter c = false) → trim_suffix_letters (t ++ s) = t.
Proof.
  intros Hs Ht. unfold trim_suffix_letters. rewrite reverse_app.
  assert (Forall (λ c, is_suffix_letter c = true) (reverse s)) as Hr.
  { apply Forall_reverse. eapply Forall_impl; [exact Hs|]. intros c Hc. by apply suffix_cases. }
  revert Hr. generalize (reverse s). intros r Hr. induction Hr as [|c r Hc Hr IH]; cbn [app]; [|by rewrite Hc].
  destruct (reverse t) as [|c r] eqn:E.
  - apply (f_equal reverse) in E. by rewrite reverse_involutive in E.
  - assert (t = reverse r ++ [c]) as Et by (by rewrite <- reverse_cons, <- E, reverse_involutive).
    rewrite (Ht c) by (by rewrite Et, last_snoc). rewrite Et. by rewrite reverse_cons.
Qed.

Lemma last_digit radix t ds c : Forall2 (reads_digit radix) t ds → last t = Some c → is_suffix_letter c = false.
Proof.
  intros H Hl. apply last_Some_elem_of, list_elem_of_lookup in Hl as [i Hi].
  destruct (Forall2_lookup_l _ _ _ _ _ H Hi) as (d & _ & (_ & _ & Hs & _)). done.
Qed.

Lemma parse_literal t v : literal t v → parse_number t = Some v.
Proof.
  intros [t' ds s H Hne Hz Hs Hb|x t' ds s Hx H Hne Hs Hb]; unfold parse_number.
  - assert (Forall2 (reads_digit 10) t' ds) as Hr by (eapply Forall2_impl; [exact H|apply decimal_reads]). rewrite trim_suffix_letters_app; [|done|by intros c; eapply last_digit].
    assert (∀ y, y = "x"%char ∨ y = "X"%char → strip_prefix ["0"%char; y] t' = None) as Hno.
    { intros y Hy. destruct Hr as [|c d t' ds Hc Hr]; [done|]. cbn [strip_prefix]. case_decide as E; [|done]. subst c.
      specialize (Hz eq_refl). injection Hz as ->. done. }
    change (&"0x") with ["0"%char; "x"%char]. change (&"0X") with ["0"%char; "X"%char].
    rewrite !Hno by auto. by apply from_str_radix_positional.
  - assert (Forall2 (reads_digit 16) t' ds) as Hr by (eapply Forall2_impl; [exact H|apply hex_reads]). rewrite app_assoc, trim_suffix_letters_app; [|done|].
    + apply elem_of_cons in Hx as [->|Hx]; [|apply list_elem_of_singleton in Hx as ->]; cbn [app strip_prefix]; by apply from_str_radix_positional.
    + intros c. rewrite last_app. destruct (last t') eqn:E; [intros [= <-]; by eapply last_digit|by apply last_None in E].
Qed.

Lemma trim_suffix_letters_prefix t : trim_suffix_letters t `prefix_of` t.
Proof.
  unfold trim_suffix_letters. rewrite <- (reverse_involutive t) at 2. generalize (reverse t). intros r.
  induction r as [|c r IH]; [done|]. destruct (is_suffix_letter c); [|done]. rewrite reverse_cons. by apply prefix_app_r.
Qed.

(** The name of a macro is no number. *)
Lemma parse_identifier t : identifier t → parse_number t = None.
Proof.
  intros (_ & c & r & -> & Hc & _). destruct (letter_cases c Hc) as (_ & Hd & H0 & H1 & H2). unfold parse_number.
  destruct (trim_suffix_letters_prefix (c :: r)) as [k Hk]. destruct (trim_suffix_letters (c :: r)) as [|x t]; [done|]. injection Hk as <- _.
  change (&"0x") with ["0"%char; "x"%char]. change (&"0X") with ["0"%char; "X"%char]. cbn [strip_prefix]. rewrite !decide_False by done.
  unfold from_str_radix. rewrite !decide_False by done. cbn [digits]. by rewrite Hd.
Qed.

(** ** The words of the code *)

Lemma identifier_word t : identifier t → word t ∧ t ≠ &"defined".
Proof.
  intros (Hr & c & r & -> & Hc & Hall). split; [split; [done|]|by intros E; apply Hr; rewrite E; left].
  constructor; [by apply letter_cases|]. eapply Forall_impl; [exact Hall|]. intros x [?|?]; [by apply letter_cases|by apply decimal_ident].
Qed.

Lemma digits_word radix t ds : Forall2 (reads_digit radix) t ds → Forall (λ c, is_ident c = true) t.
Proof. intros H. apply (Forall2_Forall_l _ _ _ _ H). apply Forall_true. by intros d c (_ & ? & _). Qed.

Lemma suffix_word s : suffix s → Forall (λ c, is_ident c = true) s.
Proof. intros H. eapply Forall_impl; [exact H|]. intros c Hc. by apply suffix_cases. Qed.

Lemma literal_word t v : literal t v → word t ∧ t ≠ &"defined".
Proof.
  intros Hl. split; [|intros ->; pose proof (parse_literal _ _ Hl) as E; assert (parse_number (&"defined") = None) as E' by (by vm_compute); congruence].
  destruct Hl as [t ds s H Hne _ Hs _|x t ds s Hx H Hne Hs _]; (split; [|apply Forall_app; split]).
  1: by destruct t.
  1: eapply (digits_word 10), Forall2_impl; [exact H|apply decimal_reads]. 1: by apply suffix_word.
  - apply elem_of_cons in Hx as [->|Hx]; [|apply list_elem_of_singleton in Hx as ->]; done.
  - apply elem_of_cons in Hx as [->|Hx]; [|apply list_elem_of_singleton in Hx as ->]; by repeat constructor.
  - apply Forall_app. split; [|by apply suffix_word]. eapply (digits_word 16), Forall2_impl; [exact H|apply hex_reads].
Qed.

Lemma c_expr_wf e : c_expr e → wf_expr e.
Proof.
  induction e as [t|t|e IH|o a IHa b IHb]; cbn [c_expr wf_expr]; [|by intros [? _]%identifier_word|done|tauto].
  intros [H%identifier_word|[v H%literal_word]]; done.
Qed.

(** The code gives a condition the value it means. *)
Lemma means_eval m e v : means m e v → eval m e = v.
Proof.
  induction 1 as [t v Hl|t w v Hi Hm Hl|t Hi Hm|t w Hi Hm|t Hi Hm|e v _ IH|o a b v w _ IHa _ IHb]; cbn [eval].
  - by rewrite (parse_literal t v Hl).
  - rewrite (parse_identifier t Hi), Hm. cbn. by rewrite (parse_literal w v Hl).
  - by rewrite (parse_identifier t Hi), Hm.
  - unfold has_macro. by rewrite Hm.
  - unfold has_macro. by rewrite Hm.
  - rewrite IH. unfold b2z. case_decide as E; [by rewrite E|]. by rewrite (proj2 (Z.eqb_neq v 0) E).
  - by rewrite IHa, IHb.
Qed.

(** ** Directives *)

Lemma trim_start_blanks b s : blanks b → trim_start (b ++ s) = trim_start s.
Proof. induction 1 as [|c b Hc _ IH]; [done|]. cbn [app]. rewrite trim_start_cons; [done|by destruct Hc as [-> | ->]]. Qed.

Lemma trim_start_at b c s : blanks b → graphic c → trim_start (b ++ c :: s) = c :: s.
Proof. intros Hb Hc. rewrite trim_start_blanks by done. by apply trim_start_fix, graphic_not_ws. Qed.

(** White space comes next, or nothing. *)
Definition open_end (s : str) : Prop := match s with [] => True | c :: _ => is_ws1 c = true end.

Lemma open_end_ws c s : open_end (c :: s) → starts_ws (c :: s) = true.
Proof. intros H. unfold starts_ws. by rewrite strip_one_ws1. Qed.

Lemma split_ws_word w s : Forall graphic w → open_end s → split_ws (w ++ s) = (w, s).
Proof.
  intros Hw Hs. induction Hw as [|c w Hc _ IH].
  - cbn [app]. destruct s as [|c s]; [done|]. cbn [split_ws]. by rewrite open_end_ws.
  - cbn [app split_ws]. by rewrite graphic_not_ws, IH.
Qed.

Lemma first_piece_word w s : Forall (λ c, is_ident c = true) w → open_end s → first_piece (w ++ s) = w.
Proof.
  intros Hw Hs. induction Hw as [|c w Hc _ IH].
  - cbn [app]. destruct s as [|c s]; [done|]. cbn [first_piece]. by rewrite open_end_ws.
  - cbn [app first_piece]. rewrite graphic_not_ws by by apply ident_graphic.
    rewrite !bool_decide_false; [by rewrite IH|by intros ->|by intros ->].
Qed.

Lemma first_token_word b w s : blanks b → word w → open_end s → first_token (b ++ w ++ s) = w.
Proof.
  intros Hb [Hne Hw] Hs. unfold first_token. destruct w as [|c w]; [done|].
  assert (graphic c) as Hc by (apply ident_graphic; by apply Forall_cons in Hw as [? _]).
  change ((c :: w) ++ s) with (c :: (w ++ s)). rewrite trim_start_at by done. by apply (first_piece_word (c :: w)).
Qed.

Definition known : list (str * (str → directive)) :=
  [(&"if", DIf); (&"ifdef", DIfdef); (&"ifndef", DIfndef); (&"elif", DElif); (&"else", λ _, DElse); (&"endif", λ _, DEndif);
   (&"define", DDefine); (&"undef", DUndef)].

Lemma classify_line l g name rest d : blanks l → blanks g → (name, d) ∈ known → open_end rest →
  classify (l ++ hash :: g ++ name ++ rest) = d (trim_start rest).
Proof.
  intros Hl Hg Hd Hr. assert (Forall (λ c, is_ident c = true) name ∧ name ≠ []) as [Hn Hne].
  { repeat (apply elem_of_cons in Hd as [[= -> ->]|Hd]; [split; [by repeat constructor|done]|]). by apply not_elem_of_nil in Hd. }
  unfold classify. rewrite trim_start_at by done. cbn [strip_prefix]. rewrite decide_True by done.
  assert (split_directive (trim_start (g ++ name ++ rest)) = (name, trim_start rest)) as ->.
  { destruct name as [|c name]; [done|]. assert (graphic c) as Hc by (apply ident_graphic; by apply Forall_cons in Hn as [? _]).
    change ((c :: name) ++ rest) with (c :: (name ++ rest)). unfold split_directive. rewrite trim_start_at by done.
    rewrite (trim_start_fix (c :: _)) by (by apply graphic_not_ws).
    assert (Forall graphic (c :: name)) as Hg' by (eapply Forall_impl; [exact Hn|apply ident_graphic]).
    change (c :: name ++ rest) with ((c :: name) ++ rest). by rewrite (split_ws_word (c :: name) rest Hg' Hr). }
  repeat (apply elem_of_cons in Hd as [[= -> ->]|Hd]; [reflexivity|]). by apply not_elem_of_nil in Hd.
Qed.

Lemma trail_open y : wf_layout y → open_end (trail y ++ [nl]).
Proof.
  intros (_ & _ & _ & _ & [->|(b & c & -> & Hb & Hbl & _)]); [done|]. destruct Hbl as [|x b Hx Hbl]; [done|]. by destruct Hx as [-> | ->].
Qed.

Lemma blanks_open b s : blanks b → b ≠ [] → open_end (b ++ s).
Proof. intros [|x k Hx Hk]; [done|]. by destruct Hx as [-> | ->]. Qed.

Lemma first_token_trim s : first_token (trim_start s) = first_token s.
Proof. unfold first_token. by rewrite trim_start_idemp. Qed.

Lemma first_token_trail y : wf_layout y → first_token (trail y ++ [nl]) = [].
Proof.
  intros (_ & _ & _ & _ & [->|(b & c & -> & _ & Hb & Hc)]); [by vm_compute|]. unfold first_token. rewrite <- app_assoc, trim_start_blanks by done.
  destruct Hc as [->|(x & -> & _)]; [by vm_compute|]. change ((&"//" ++ x) ++ [nl]) with (slash :: slash :: (x ++ [nl])).
  by rewrite trim_start_fix by (by apply graphic_not_ws).
Qed.

Lemma classify_directive y name arg d : wf_layout y → (name, d) ∈ known → arg = [] ∨ blanks (take 1 arg) ∧ arg ≠ [] →
  classify (directive_line y name arg) = d (trim_start (arg ++ trail y ++ [nl])).
Proof.
  intros Hy Hd Ha. unfold directive_line. cbn [app]. apply classify_line; [apply Hy|apply Hy|done|].
  destruct Ha as [->|[Hb Hne]]; [by apply trail_open|]. destruct arg as [|c arg]; [done|]. by apply (blanks_open [c]).
Qed.

Lemma classify_arg y name arg d : wf_layout y → (name, d) ∈ known →
  classify (with_arg y name arg) = d (trim_start (arg ++ trail y ++ [nl])).
Proof.
  intros Hy Hd. unfold with_arg. pose proof Hy as (_ & _ & Hs & Hne & _). rewrite (classify_directive _ _ _ d); [|done|done|].
  - by rewrite <- app_assoc, trim_start_blanks.
  - right. destruct Hs as [|c s Hc Hs]; [done|]. split; [|done]. constructor; [exact Hc|constructor].
Qed.

Lemma classify_name y name arg d : wf_layout y → (name, d) ∈ known → identifier arg →
  ∃ rest, classify (with_arg y name arg) = d rest ∧ first_token rest = arg.
Proof.
  intros Hy Hd Ha. eexists. split; [by apply classify_arg|]. rewrite first_token_trim.
  apply (first_token_word []); [constructor|by apply identifier_word|by apply trail_open].
Qed.

(** ** Conditions *)

Lemma print_shape e : c_expr e → ∀ l, printable (print l e) ∧ ∃ c r, print l e = c :: r ∧ graphic c.
Proof.
  assert (∀ t, word t → printable t ∧ ∃ c r, t = c :: r ∧ graphic c) as Hw.
  { intros t [Hne Ht]. split; [eapply Forall_impl; [exact Ht|]; intros c Hc; left; by apply ident_graphic|].
    destruct Ht as [|c r Hc Hr]; [done|]. exists c, r. split; [done|by apply ident_graphic]. }
  assert (∀ s, forallb (λ c, (33 <=? N_of_ascii c)%N && (N_of_ascii c <=? 126)%N || bool_decide (c = sp)) s = true → printable s) as Hp.
  { intros s H. apply Forall_forall. intros c Hc. rewrite forallb_forall in H. specialize (H c (proj1 (list_elem_of_In _ _) Hc)).
    apply orb_prop in H as [[H1%N.leb_le H2%N.leb_le]%andb_prop|H%bool_decide_eq_true]; [by left|by right; left]. }
  induction e as [t|t|e IH|o a IHa b IHb]; cbn [c_expr print]; intros He l.
  - apply Hw. destruct He as [H|[v H]]; [by apply identifier_word|by eapply literal_word].
  - destruct (Hw t) as [H _]; [by apply identifier_word|]. split; [|by eexists _, _].
    apply Forall_app. split; [by apply Hp|]. apply Forall_app. split; [done|by apply Hp].
  - destruct (IH He 4) as [H _]. split; [|by eexists _, _]. apply Forall_app. split; [by apply Hp|done].
  - destruct He as [Ha Hb]. destruct (IHa Ha (level o)) as [Hpa (c & r & Hc & Hg)]. destruct (IHb Hb (S (level o))) as [Hpb _].
    assert (printable (print (level o) a ++ &" " ++ sym o ++ &" " ++ print (S (level o)) b)) as Hs.
    { apply Forall_app. split; [done|]. apply Forall_app. split; [by apply Hp|]. apply Forall_app. split; [by apply Hp; destruct o|].
      apply Forall_app. split; [by apply Hp|done]. }
    destruct (level o <? l); [|by rewrite Hc in Hs |- *; split; [|eexists _, _]].
    split; [|by eexists _, _]. apply Forall_app. split; [by apply Hp|]. apply Forall_app. split; [done|by apply Hp].
Qed.

Lemma eval_condition_rest m e rest : wf_expr e → word_end rest → (∀ o, consume (sym o) rest = None) →
  eval_condition m (print 0 e ++ rest) = negb (eval m e =? 0)%Z.
Proof.
  intros He Hw Hn. destruct (print_reads m e He) as [H _]. apply (eval_of_runs _ _ _ (skip_ascii_ws rest)).
  refine (H 0 _ rest _ Hw (λ o _, Hn o) _); [lia|]. exists 1. intros [|n] Hle; [lia|]. apply (loop_at_stop m 0); [lia|]. auto.
Qed.

Lemma skip_blanks b s : blanks b → skip_ascii_ws (b ++ s) = skip_ascii_ws s.
Proof. induction 1 as [|c b Hc _ IH]; [done|]. cbn [app skip_ascii_ws]. by destruct Hc as [-> | ->]. Qed.

Lemma trail_no_operator y o : wf_layout y → consume (sym o) (trail y ++ [nl]) = None.
Proof.
  intros (_ & _ & _ & _ & [->|(b & c & -> & _ & Hb & Hc)]); [by destruct o|]. unfold consume. rewrite <- app_assoc, skip_blanks by done.
  destruct Hc as [->|(x & -> & _)]; by destruct o.
Qed.

Lemma trail_word_end y : wf_layout y → word_end (trail y ++ [nl]).
Proof.
  intros (_ & _ & _ & _ & [->|(b & c & -> & Hb & Hbl & _)]); [done|]. destruct Hbl as [|x b Hx Hbl]; [done|]. by destruct Hx as [-> | ->].
Qed.

Lemma eval_printed m y e v : wf_layout y → c_expr e → means m e v →
  eval_condition m (trim_start (print 0 e ++ trail y ++ [nl])) = negb (v =? 0)%Z.
Proof.
  intros Hy He Hv. destruct (print_shape e He 0) as [_ (c & r & Hc & Hg)]. rewrite trim_start_fix by (rewrite Hc; by apply graphic_not_ws).
  rewrite eval_condition_rest; [by rewrite (means_eval m e v Hv)|by apply c_expr_wf|by apply trail_word_end|].
  intros o. by apply trail_no_operator.
Qed.

Lemma condition_opens m o b : wf_copener o → opens m o b → condition m (copener_text o) = Some b.
Proof.
  intros Hw Ho. unfold condition. destruct Ho as [y e v Hv Hne|y e Hv|y name|y name]; destruct Hw as [Hy Ha]; cbn [copener_text].
  - rewrite (classify_arg _ _ _ DIf) by (done || by left). cbn. f_equal. rewrite (eval_printed m y e v) by done. by rewrite (proj2 (Z.eqb_neq v 0) Hne).
  - rewrite (classify_arg _ _ _ DIf) by (done || by left). cbn. f_equal. by rewrite (eval_printed m y e 0).
  - destruct (classify_name y (&"ifdef") name DIfdef Hy) as (rest & -> & ->); [by right; left|done|done].
  - destruct (classify_name y (&"ifndef") name DIfndef Hy) as (rest & -> & ->); [by do 2 right; left|done|]. unfold has_macro. f_equal.
    destruct (m !! name); by vm_compute.
Qed.

Lemma elif_means m y e v : wf_layout y → c_expr e → means m e v → elif_holds m (with_arg y (&"elif") (print 0 e)) = negb (v =? 0)%Z.
Proof. intros Hy He Hv. unfold elif_holds. rewrite (classify_arg _ _ _ DElif); [by apply eval_printed|done|by do 3 right; left]. Qed.

(** ** Lines *)

Lemma split_ws_shape s : ∃ k, s = k ++ (split_ws s).2 ∧ (split_ws s).1 = k.
Proof.
  induction s as [|c s (k & E & Ek)]; [by exists []|]. cbn [split_ws]. destruct (starts_ws _); [by exists []|].
  destruct (split_ws s) as [w r]. cbn [fst snd] in *. exists (c :: k). cbn [app]. split; congruence.
Qed.

Lemma split_ws_app name x : Forall graphic name → split_ws (name ++ x) = (name ++ (split_ws x).1, (split_ws x).2).
Proof.
  induction 1 as [|c name Hc _ IH]; [cbn [app]; by destruct (split_ws x)|]. cbn [app split_ws]. by rewrite graphic_not_ws, IH.
Qed.

Lemma ident_prefix name k kw : Forall (λ c, is_ident c = true) kw → word_end k → name ++ k = kw → name = kw.
Proof.
  intros Hkw Hk <-. apply Forall_app in Hkw as [_ H]. destruct k as [|c k]; [by rewrite app_nil_r|].
  apply Forall_cons in H as [H _]. cbn in Hk. congruence.
Qed.

Lemma classify_other s : other_line s → classify (s ++ [nl]) = DOther.
Proof.
  intros [_ (b & r & -> & Hb & Hr)]. unfold classify. rewrite <- app_assoc, trim_start_blanks by done.
  destruct Hr as [->|[(c & x & -> & Hc & Hh)|(g & name & x & -> & Hg & [Hne Hw] & Hx & Hn)]]; [by vm_compute| |].
  - cbn [app]. rewrite trim_start_fix by (by apply graphic_not_ws). cbn [strip_prefix]. by rewrite decide_False.
  - cbn [app]. rewrite trim_start_fix by (by apply graphic_not_ws). cbn [strip_prefix]. rewrite decide_True by done.
    assert (Forall graphic name) as Hgr by (eapply Forall_impl; [exact Hw|apply ident_graphic]).
    assert (∀ t, ∃ k, (split_directive (trim_start ((g ++ name ++ x) ++ t))).1 = name ++ k ∧ (word_end (x ++ t) → word_end k)) as Hs.
    { intros t. rewrite <- !app_assoc, trim_start_blanks by done. unfold split_directive. rewrite trim_start_idemp.
      rewrite trim_start_fix by (destruct Hgr; [done|by apply graphic_not_ws]). rewrite split_ws_app by done.
      destruct (split_ws_shape (x ++ t)) as (k & E & Ek). exists k. split; [by rewrite Ek|]. rewrite E at 1. by destruct k. }
    destruct (Hs [nl]) as (k & E & Hk). destruct (split_directive _) as [w rest]. cbn [fst] in E. subst w.
    assert (word_end k) as Hk' by (apply Hk; by destruct x). clear Hs Hk.
    assert (∀ kw, kw ∈ conditionals → name ++ k ≠ kw) as Hno.
    { intros kw Hkw E. assert (Forall (λ c, is_ident c = true) kw) as Hi.
      { clear -Hkw. repeat (apply elem_of_cons in Hkw as [->|Hkw]; [by repeat constructor|]). by apply not_elem_of_nil in Hkw. }
      apply Hn. by rewrite (ident_prefix name k kw Hi Hk' E). }
    rewrite !decide_False; [done|..]; apply Hno; repeat first [left; done|right].
Qed.

Lemma ident_printable t : Forall (λ c, is_ident c = true) t → printable t.
Proof. intros H. eapply Forall_impl; [exact H|]. intros c Hc. left. by apply ident_graphic. Qed.
Lemma blanks_printable t : blanks t → printable t.
Proof. intros H. eapply Forall_impl; [exact H|]. tauto. Qed.

(** A line, and its end. *)
Definition ended (ln : str) : Prop := ∃ s, ln = s ++ [nl] ∧ nl ∉ s.

Lemma printable_ended s : printable s → ended (s ++ [nl]).
Proof.
  intros H. exists s. split; [done|]. intros Hn. destruct (proj1 (Forall_forall _ _) H nl Hn) as [Hg|[?|?]]; [|done..].
  unfold graphic in Hg. vm_compute in Hg. by destruct Hg.
Qed.

Lemma directive_ended y name arg : wf_layout y → Forall (λ c, is_ident c = true) name → printable arg → ended (directive_line y name arg).
Proof.
  intros (Hl & Hg & _ & _ & Ht) Hn Ha. unfold directive_line. rewrite !app_assoc. apply printable_ended. rewrite <- !app_assoc.
  apply Forall_app. split; [by apply blanks_printable|]. apply Forall_cons. split; [by left|].
  apply Forall_app. split; [by apply blanks_printable|]. apply Forall_app. split; [by apply ident_printable|].
  apply Forall_app. split; [done|]. destruct Ht as [->|(b & c & -> & _ & Hb & Hc)]; [constructor|].
  apply Forall_app. split; [by apply blanks_printable|]. destruct Hc as [->|(x & _ & Hc & _)]; [constructor|done].
Qed.

Lemma arg_ended y name arg : wf_layout y → Forall (λ c, is_ident c = true) name → printable arg → ended (with_arg y name arg).
Proof. intros Hy Hn Ha. apply directive_ended; [done..|]. apply Forall_app. split; [by apply blanks_printable, Hy|done]. Qed.

Lemma cline_ended l : wf_cline l → ended (cline_text l).
Proof.
  destruct l as [s|y name [[b w]|]|y name]; cbn [wf_cline cline_text].
  - intros [[H _] _]. by apply printable_ended.
  - intros (Hy & [[_ Hn] _]%identifier_word & Hb & _ & [_ Hw]). apply arg_ended; [done|by repeat constructor|].
    apply Forall_app. split; [by apply ident_printable|]. apply Forall_app. split; [by apply blanks_printable|by apply ident_printable].
  - intros (Hy & [[_ Hn] _]%identifier_word & _). apply arg_ended; [done|by repeat constructor|by apply ident_printable].
  - intros (Hy & [[_ Hn] _]%identifier_word). apply arg_ended; [done|by repeat constructor|by apply ident_printable].
Qed.

Lemma copener_ended o : wf_copener o → ended (copener_text o).
Proof.
  destruct o as [y e|y name|y name]; intros [Hy Ha]; (apply arg_ended; [done|by repeat constructor|]).
  - by apply print_shape.
  - by apply ident_printable, identifier_word.
  - by apply ident_printable, identifier_word.
Qed.

Scheme citems_mind := Induction for citems Sort Prop
with cbranches_mind := Induction for cbranches Sort Prop.
Combined Scheme citems_cbranches_ind from citems_mind, cbranches_mind.

Lemma tree_ended : (∀ t, wf_c t → Forall ended (text (tree t))) ∧ (∀ bs, wf_cbranches bs → Forall ended (branches_text (branch_tree bs))).
Proof.
  apply citems_cbranches_ind; cbn [wf_c wf_cbranches tree branch_tree text branches_text].
  - constructor.
  - intros l rest IH [Hl Hr]. constructor; [by apply cline_ended|by apply IH].
  - intros o body IHb bs IHbs rest IHr (Ho & Hb & Hbs & Hr). constructor; [by apply copener_ended|].
    apply Forall_app. split; [by apply IHb|]. apply Forall_app. split; [by apply IHbs|by apply IHr].
  - intros y Hy. constructor; [|constructor]. apply directive_ended; [done|by repeat constructor|constructor].
  - intros y e body IHb bs IHbs (Hy & He & Hb & Hbs). constructor; [apply arg_ended; [done|by repeat constructor|by apply print_shape]|].
    apply Forall_app. split; [by apply IHb|by apply IHbs].
  - intros y body IHb close (Hy & Hb & Hc). constructor; [apply directive_ended; [done|by repeat constructor|constructor]|].
    apply Forall_app. split; [by apply IHb|]. constructor; [|constructor]. apply directive_ended; [done|by repeat constructor|constructor].
Qed.

Lemma split_ended ls : Forall ended ls → split_inclusive nl (mjoin ls) = ls.
Proof.
  induction 1 as [|ln ls (s & -> & Hs) _ IH]; [done|].
  change (mjoin ((s ++ [nl]) :: ls)) with ((s ++ [nl]) ++ mjoin ls). rewrite <- app_assoc. cbn [app]. by rewrite split_inclusive_sep, IH.
Qed.

(** ** The text is well nested for the code *)

Lemma tree_wf : (∀ t, wf_c t → wf (tree t) = true) ∧ (∀ bs, wf_cbranches bs → wf_branches (branch_tree bs) = true).
Proof.
  apply citems_cbranches_ind; cbn [wf_c wf_cbranches tree branch_tree wf wf_branches].
  - done.
  - intros l rest IH [Hl Hr]. rewrite IH, andb_true_r by done. unfold plain_line.
    destruct l as [s|y name [[b w]|]|y name]; cbn [wf_cline cline_text] in *; [by rewrite classify_other| | |].
    1,2: rewrite (classify_arg _ _ _ DDefine); [done|apply Hl|by do 6 right; left].
    rewrite (classify_arg _ _ _ DUndef); [done|apply Hl|by do 7 right; left].
  - intros o body IHb bs IHbs rest IHr (Ho & Hb & Hbs & Hr). rewrite IHb, IHbs, IHr, !andb_true_r by done. apply bool_decide_eq_true.
    unfold condition. destruct o as [y e|y name|y name]; destruct Ho as [Hy _]; cbn [copener_text].
    + rewrite (classify_arg _ _ _ DIf); [by eexists|done|by left].
    + rewrite (classify_arg _ _ _ DIfdef); [by eexists|done|by right; left].
    + rewrite (classify_arg _ _ _ DIfndef); [by eexists|done|by do 2 right; left].
  - intros y Hy. unfold is_endif. by rewrite (classify_directive _ _ _ (λ _, DEndif)); [|done|do 5 right; left|left].
  - intros y e body IHb bs IHbs (Hy & He & Hb & Hbs). rewrite IHb, IHbs, !andb_true_r by done. unfold is_elif.
    by rewrite (classify_arg _ _ _ DElif); [|done|do 3 right; left].
  - intros y body IHb close (Hy & Hb & Hc). rewrite IHb, andb_true_r by done. unfold is_else, is_endif.
    rewrite (classify_directive y _ _ (λ _, DElse)); [|done|by do 4 right; left|by left].
    by rewrite (classify_directive close _ _ (λ _, DEndif)); [|done|do 5 right; left|left].
Qed.

(** ** The code selects what C selects *)

Definition unlines (ls : list str) : list str := (λ s, s ++ [nl]) <$> ls.

Lemma hidden_blank ls : Forall ended ls → blank <$> ls = unlines (hidden ls).
Proof.
  unfold unlines, hidden. induction 1 as [|ln ls (s & -> & _) _ IH]; [done|]. cbn [fmap list_fmap]. rewrite IH. f_equal.
  unfold blank. by rewrite ends_with_snoc.
Qed.

Lemma blank_ended ln : ended ln → blank ln = [nl].
Proof. intros (s & -> & _). unfold blank. by rewrite ends_with_snoc. Qed.

Lemma define_is y name arg value m : wf_layout y → identifier name → open_end (arg ++ trail y ++ [nl]) → first_token (arg ++ trail y ++ [nl]) = value →
  define (trim_start ((name ++ arg) ++ trail y ++ [nl])) m = <[name := value]> m.
Proof.
  intros Hy Hi Ho <-. destruct (identifier_word name Hi) as [[Hne Hn] _]. rewrite <- app_assoc.
  assert (Forall graphic name) as Hg by (eapply Forall_impl; [exact Hn|apply ident_graphic]).
  unfold define, split_directive. rewrite trim_start_idemp.
  rewrite trim_start_fix by (destruct Hg; [done|by apply graphic_not_ws]). rewrite split_ws_word by done.
  rewrite decide_True; [by rewrite first_token_trim|]. split; [done|]. intros Hp.
  by pose proof (proj1 (Forall_forall _ _) Hn _ Hp) as E.
Qed.

Lemma active_text_after l m : wf_cline l → active_text (cline_text l) m = (shown l ++ [nl], after l m).
Proof.
  intros Hl. pose proof (blank_ended _ (cline_ended l Hl)) as Hb. unfold active_text.
  destruct l as [s|y name [[b w]|]|y name]; cbn [wf_cline cline_text shown after] in *.
  - by rewrite classify_other.
  - destruct Hl as (Hy & Hi & Hbl & Hne & Hw). rewrite (classify_arg _ _ _ DDefine); [|done|by do 6 right; left]. rewrite Hb. cbn [app]. f_equal.
    apply define_is; [done|done|rewrite <- app_assoc; by apply blanks_open|]. rewrite <- app_assoc.
    apply first_token_word; [done..|by apply trail_open].
  - destruct Hl as (Hy & Hi & _). rewrite (classify_arg _ _ _ DDefine); [|done|by do 6 right; left]. rewrite Hb. cbn [app]. f_equal.
    rewrite <- (app_nil_r name) at 1. apply define_is; [done|done|by apply trail_open|by apply first_token_trail].
  - destruct Hl as [Hy Hi]. destruct (classify_name y (&"undef") name DUndef Hy) as (rest & E & Hr); [by do 7 right; left|done|].
    rewrite E, Hb, Hr. done.
Qed.

Lemma selects_expand :
  (∀ m t out m', selects m t out m' → wf_c t → expand (tree t) m = (unlines out, m')) ∧
  (∀ m bs out m', selects_in m bs out m' → wf_cbranches bs → select (branch_tree bs) m = (unlines out, m')).
Proof.
  destruct tree_ended as [Ht Hb]. unfold unlines.
  apply (selects_both_ind (λ m t out m' _, wf_c t → expand (tree t) m = (unlines out, m'))
    (λ m bs out m' _, wf_cbranches bs → select (branch_tree bs) m = (unlines out, m'))); cbn [wf_c wf_cbranches tree branch_tree expand select].
  - done.
  - intros m l rest out m' _ IH [Hl Hr]. rewrite active_text_after by done. by rewrite IH.
  - intros m o body bs rest out m1 out' m' Ho _ IHb _ IHr (Hw & Hbw & Hbs & Hr). rewrite (condition_opens m o true) by done.
    cbn [from_option]. unfold id. cbn [from_option]. rewrite IHb by done. cbv beta iota zeta. rewrite IHr, hidden_blank, blank_ended by (done || by apply Hb || by apply copener_ended).
    unfold unlines. cbn [fmap list_fmap]. by rewrite !fmap_app.
  - intros m o body bs rest out m1 out' m' Ho _ IHb _ IHr (Hw & Hbw & Hbs & Hr). rewrite (condition_opens m o false) by done.
    cbn [from_option]. unfold id. cbn [from_option]. rewrite IHb by done. cbv beta iota zeta. rewrite IHr, hidden_blank, blank_ended by (done || by apply Ht || by apply copener_ended).
    unfold unlines. cbn [fmap list_fmap]. by rewrite !fmap_app.
  - intros m y Hy. pose proof (proj2 tree_ended (CEndif y) Hy) as H. apply Forall_cons in H as [H _]. by rewrite blank_ended.
  - intros m y e v body bs out m' Hv Hne _ IH Hw. pose proof (proj2 tree_ended (CElif y e body bs) Hw) as H. apply Forall_cons in H as [H _].
    destruct Hw as (Hy & He & Hbw & Hbs). rewrite (elif_means m y e v), (proj2 (Z.eqb_neq v 0) Hne) by done. cbn [negb].
    rewrite IH, hidden_blank, blank_ended by (done || by apply Hb). unfold unlines. cbn [fmap list_fmap]. by rewrite fmap_app.
  - intros m y e body bs out m' Hv _ IH Hw. pose proof (proj2 tree_ended (CElif y e body bs) Hw) as H. apply Forall_cons in H as [H _].
    destruct Hw as (Hy & He & Hbw & Hbs). rewrite (elif_means m y e 0) by done. cbn [Z.eqb negb].
    rewrite IH, hidden_blank, blank_ended by (done || by apply Ht). unfold unlines. cbn [fmap list_fmap]. by rewrite fmap_app.
  - intros m y body close out m' _ IH Hw. pose proof (proj2 tree_ended (CElse y body close) Hw) as H. apply Forall_cons in H as [H H'].
    apply Forall_app in H' as [_ H']. apply Forall_cons in H' as [H' _]. rewrite IH by apply Hw. rewrite !blank_ended by done.
    unfold unlines. cbn [fmap list_fmap]. by rewrite fmap_app.
Qed.


(** A layout with one blank before the argument. *)
Definition simple (l t : str) : layout := {| lead := l; gap := []; space := &" "; trail := t |}.
Definition A_above_two : expr := EBin OGt (EWord (&"A")) (EWord (&"2")).
Definition include_two : citems := CLine (CDefine (simple [] []) (&"B") None) (CLine (CText (&"#include <two.h>")) CNil).
Definition include_one : citems := CLine (CText (&"#include <one.h>")) CNil.
Definition guarded_two : citems := CGroup (CIfndef (simple [] []) (&"B")) include_two (CEndif (simple [] [])) CNil.
Definition otherwise : cbranches := CElse (simple [] []) (CLine (CDefine (simple [] []) (&"C") None) CNil) (simple [] (&" // A")).
Definition sample : citems :=
  CLine (CDefine (simple [] []) (&"A") (Some (&" ", &"2")))
    (CGroup (CIf (simple [] []) A_above_two) include_one
      (CElif (simple (&" ") (&" // two")) (EDefined (&"A")) guarded_two otherwise)
      CNil).

Example sample_source : source sample =
  &"#define A 2" ++ [nl] ++ &"#if A > 2" ++ [nl] ++ &"#include <one.h>" ++ [nl] ++ &" #elif defined(A) // two" ++ [nl] ++
  &"#ifndef B" ++ [nl] ++ &"#define B" ++ [nl] ++ &"#include <two.h>" ++ [nl] ++ &"#endif" ++ [nl] ++ &"#else" ++ [nl] ++
  &"#define C" ++ [nl] ++ &"#endif // A" ++ [nl].
Proof. by vm_compute. Qed.

Definition identifier_check (t : str) : bool :=
  bool_decide (t ∉ reserved) && match t with
  | c :: r => bool_decide (c ∈ &"_abcdefghijklmnopqrstuvwxyzABCDEFGHIJKLMNOPQRSTUVWXYZ") &&
      forallb (λ c, bool_decide (c ∈ &"_abcdefghijklmnopqrstuvwxyzABCDEFGHIJKLMNOPQRSTUVWXYZ" ++ decimals)) r
  | [] => false end.
Lemma identifier_checked t : identifier_check t = true → identifier t.
Proof.
  unfold identifier_check. intros [H1%bool_decide_eq_true H2]%andb_prop. split; [done|]. destruct t as [|c r]; [done|].
  apply andb_prop in H2 as [H2%bool_decide_eq_true H3]. exists c, r. split_and!; [done..|]. apply Forall_forall. intros x Hx.
  rewrite forallb_forall in H3. specialize (H3 x (proj1 (list_elem_of_In _ _) Hx)). apply bool_decide_eq_true, elem_of_app in H3. done.
Qed.

Definition one_line_check (s : str) : bool :=
  forallb (λ c, (32 <=? N_of_ascii c)%N && (N_of_ascii c <=? 126)%N) s &&
  negb (RustStr.contains (&"/*") s) && negb (RustStr.contains (&"\") s) && negb (RustStr.contains [("R"%char); ("034"%char)] s).
Lemma one_line_checked s : one_line_check s = true → one_line s.
Proof.
  unfold one_line_check. intros [[[H H1]%andb_prop H2]%andb_prop H3]%andb_prop. unfold one_line, infix. rewrite <- !contains_iff.
  rewrite negb_true_iff in H1, H2, H3. rewrite H1, H2, H3. split_and!; [|done..]. apply Forall_forall. intros c Hc.
  rewrite forallb_forall in H. specialize (H c (proj1 (list_elem_of_In _ _) Hc)). apply andb_prop in H as [Ha%N.leb_le Hb%N.leb_le].
  unfold graphic. destruct (decide (c = sp)) as [->|Hne]; [by right; left|left]. split; [|done].
  assert (N_of_ascii c ≠ 32)%N as Hn; [|lia]. intros E. apply Hne. by rewrite <- (ascii_N_embedding c), E.
Qed.

Lemma simple_wf l t : blanks l → t = [] ∨ (∃ x, t = &" //" ++ x ∧ one_line_check (&"//" ++ x) = true) → wf_layout (simple l t).
Proof.
  intros Hl Ht. split_and!; cbn; [done|constructor|by constructor; [left|constructor]|done|].
  destruct Ht as [->|(x & -> & Hx)]; [by left|]. right. exists (&" "), (&"//" ++ x). split_and!; [done..|by constructor; [left|constructor]|].
  right. exists x. split; [done|by apply one_line_checked].
Qed.

Lemma include_other s : one_line_check (&"#include " ++ s) = true → other_line (&"#include " ++ s).
Proof.
  intros H%one_line_checked. split; [done|]. exists [], (&"#include " ++ s). split_and!; [done|constructor|]. right. right.
  exists [], (&"include"), (&" " ++ s). split_and!; [done|constructor|split; [done|by repeat constructor]|done|].
  apply (bool_decide_unpack _). by vm_compute.
Qed.

Lemma sample_wf : wf_c sample.
Proof.
  assert (wf_layout (simple [] [])) as H by (apply simple_wf; [constructor|by left]).
  assert (∀ t, identifier_check t = true → identifier t) as Hi by apply identifier_checked.
  assert (literal (&"2") 2) as H2.
  { apply (lit_decimal (&"2") [2] []); [by repeat constructor|done|done|constructor|by vm_compute]. }
  unfold sample, guarded_two, otherwise, include_one, include_two, A_above_two. cbn [wf_c wf_cbranches wf_cline wf_copener c_expr]. split_and!; try exact H; try exact I; try (by apply Hi); try done.
  - constructor; [by left|constructor].
  - split; [done|by repeat constructor].
  - left. by apply Hi.
  - right. by exists 2%Z.
  - by apply (include_other (&"<one.h>")).
  - apply simple_wf; [constructor; [by left|constructor]|]. right. by exists (&" two").
  - by apply (include_other (&"<two.h>")).
  - apply simple_wf; [constructor|]. right. by exists (&" A").
Qed.


(** ** Findings *)

(** A word that C++ reads as a value counts as a name that is no macro. *)
Lemma true_is_no_value : eval_condition ∅ (&"true") = false.
Proof. by vm_compute. Qed.
