(* ===== verification/CachePaths.v ===== *)
(** * [fbuild-packages-fetch/src/cache.rs] and [disk_cache/paths.rs]

    Names and paths of the package cache: the readable stem of a URL, the
    sanitized version component, and the directories built from them.  The
    digest is the interface [Sha256]. *)
From S2P Require Import Prelude RustStr.

(** The bytes of the SHA-256 digest of a text, which the [sha2] package
    computes. *)
Class Sha256 := sha256 : str → str.

(** [char::is_alphanumeric] on the characters beyond ASCII, given encoded. *)
Class UnicodeAlnum := unicode_alnum : str → bool.

(** ** Characters *)

(** The first encoded character, and the bytes after it. *)
Definition next_char (c : ascii) (s : str) : str * str :=
  match lead c with
  | Some (_, more) => (c :: take (S more) s, drop (S more) s)
  | None => ([c], s)
  end.

(** [s.chars()], each character as its bytes. *)
Fixpoint chars_fuel (fuel : nat) (s : str) : list str :=
  match fuel, s with
  | O, _ | _, [] => []
  | S n, c :: s => let '(ch, rest) := next_char c s in ch :: chars_fuel n rest
  end.
Definition chars (s : str) : list str := chars_fuel (length s) s.

(** ** Paths *)

Definition slash : ascii := "/"%char.

(** [Path::join] on Unix: an absolute path replaces the base. *)
Definition path_join (base p : str) : str :=
  if starts_with [slash] p then p
  else if bool_decide (base = []) || ends_with [slash] base then base ++ p
  else base ++ [slash] ++ p.

Inductive Component := RootDir | CurDir | ParentDir | Normal (name : str).
#[global] Instance Component_eq_dec : EqDecision Component.
Proof. solve_decision. Defined.

(** [Path::components]: repeated separators and [.] are skipped, but for a
    leading [.]. *)
Definition component_of (w : str) : option Component :=
  if decide (w = [] ∨ w = &".") then None
  else if decide (w = &"..") then Some ParentDir else Some (Normal w).

Definition components (p : str) : list Component :=
  let ws := split_on slash p in
  (if starts_with [slash] p then [RootDir] else []) ++
  (match ws with w :: _ => if decide (w = &".") then [CurDir] else [] | [] => [] end) ++
  omap component_of ws.

(** ** URL stems *)

Section Stems.
Context {HU : UnicodeAlnum}.

Definition stem_char (ch : str) : str :=
  match ch with
  | [c] => if is_ascii_alphanumeric c || bool_decide (c ∈ ["-"%char; "_"%char; "."%char]) then ch else &"-"
  | _ => if unicode_alnum ch then ch else &"-"
  end.

(** [trim_matches('-')] *)
Fixpoint trim_start_char (c : ascii) (s : str) : str :=
  match s with
  | a :: s' => if decide (a = c) then trim_start_char c s' else s
  | [] => []
  end.
Definition trim_end_char (c : ascii) (s : str) : str := reverse (trim_start_char c (reverse s)).
Definition trim_char (c : ascii) (s : str) : str := trim_end_char c (trim_start_char c s).

Definition sanitize_stem (s : str) : str := trim_char "-" (mbind stem_char (chars s)).

(** [trim_end_matches(pat)]: every copy of [pat] at the end. *)
Fixpoint trim_end_matches_fuel (fuel : nat) (pat s : str) : str :=
  match fuel with
  | O => s
  | S n => match strip_suffix pat s with Some r => trim_end_matches_fuel n pat r | None => s end
  end.
Definition trim_end_matches (pat s : str) : str := trim_end_matches_fuel (length s) pat s.

Definition archive_extensions : list str := [&".tar.gz"; &".tar.bz2"; &".tar.xz"; &".zip"; &".tgz"].

Definition without_prefix (p s : str) : str := default s (strip_prefix p s).

(** [s.split(c).next()] *)
Definition before (c : ascii) (s : str) : str := default s (head (split_on c s)).

Definition url_stem (url : str) : str :=
  let without_proto :=
    match strip_prefix (&"https://") url with Some r => r | None => without_prefix (&"http://") url end in
  let without_query := before "?" (before "#" without_proto) in
  let '(host, path) :=
    match find_char slash without_query with
    | Some pos => (take pos without_query, drop (S pos) without_query)
    | None => (without_query, [])
    end in
  match (if decide (host = &"github.com") then split_on slash path else []) with
  | org :: repo :: _ => sanitize_stem (org ++ &"-" ++ repo)
  | _ =>
      let segments := filter (λ s : str, s ≠ []) (split_on slash path) in
      let last := foldl (λ s e, trim_end_matches e s) (default [] (last segments)) archive_extensions in
      (** [unwrap_or(host)] both times *)
      let short_host := default host (strip_prefix (&"downloads.") (default host (strip_prefix (&"www.") host))) in
      let domain := before "." short_host in
      if decide (last = [] ∨ last = domain) then sanitize_stem short_host
      else sanitize_stem (domain ++ &"-" ++ last)
  end.
End Stems.

(** ** The legacy cache directories *)
Section Legacy.
Context {HS : Sha256} {HU : UnicodeAlnum}.

(** [write!(s, "{:02x}", b)] for every byte. *)
Definition hex_byte (b : ascii) : str :=
  let n := Z.of_N (N_of_ascii b) in [hex_digit "a" (Z.shiftr n 4); hex_digit "a" (Z.land n 15)].
Definition hex_encode (bytes : str) : str := mbind hex_byte bytes.

Definition hash_url (url : str) : str := hex_encode (take 8 (sha256 url)).

Definition packages_dir (cache_root : str) : str := path_join cache_root (&"packages").
Definition toolchains_dir (cache_root : str) : str := path_join cache_root (&"toolchains").
Definition platforms_dir (cache_root : str) : str := path_join cache_root (&"platforms").
Definition libraries_dir (cache_root : str) : str := path_join cache_root (&"libraries").

Definition entry_under (dir url version : str) : str :=
  path_join (path_join (path_join dir (url_stem url)) (hash_url url)) version.
Definition get_package_path (cache_root url version : str) : str :=
  entry_under (packages_dir cache_root) url version.
Definition get_toolchain_path (cache_root url version : str) : str :=
  entry_under (toolchains_dir cache_root) url version.
Definition get_platform_path (cache_root url version : str) : str :=
  entry_under (platforms_dir cache_root) url version.

Definition is_safe_name (name : str) : bool :=
  match components name with [Normal _] => true | _ => false end.

Definition toolchain_metadata_dir (cache_root name : str) : str :=
  path_join (toolchains_dir cache_root) (if is_safe_name name then name else &"_unsafe_" ++ hash_url name).
End Legacy.

(** ** The two-phase cache *)

Inductive Kind := Packages | Toolchains | Platforms | Libraries | Frameworks | LnkBlobs.
#[global] Instance Kind_eq_dec : EqDecision Kind.
Proof. solve_decision. Defined.

Definition as_str (k : Kind) : str :=
  match k with
  | Packages => &"packages" | Toolchains => &"toolchains" | Platforms => &"platforms"
  | Libraries => &"libraries" | Frameworks => &"frameworks" | LnkBlobs => &"lnk-blobs"
  end.

Definition all : list Kind := [Packages; Toolchains; Platforms; Libraries; Frameworks; LnkBlobs].

Definition from_str (s : str) : result str Kind :=
  match list_find (λ k, as_str k = s) all with
  | Some (_, k) => Ok k
  | None => Err (&"unknown cache kind: " ++ s)
  end.

Section Sanitize.
Context {HS : Sha256}.

Definition short_hash (s : str) : str := mbind hex_byte (take 4 (sha256 s)).

Definition unsafe_chars : list ascii :=
  [slash; "\"%char; "000"%char; ":"%char; "*"%char; "?"%char; "034"%char; "<"%char; ">"%char; "|"%char].

Definition safe_char (c : ascii) : ascii := if decide (c ∈ unsafe_chars) then "_"%char else c.

(** [replace("..", "_")], left to right and without overlap. *)
Fixpoint replace_dots (s : str) : str :=
  match s with
  | [] => []
  | c :: s' =>
      match s' with
      | d :: s'' =>
          if decide (c = "."%char ∧ d = "."%char) then "_"%char :: replace_dots s'' else c :: replace_dots s'
      | [] => [c]
      end
  end.

(** [trim_end_matches([' ', '.'])] *)
Fixpoint trim_start_of (cs : list ascii) (s : str) : str :=
  match s with
  | c :: s' => if decide (c ∈ cs) then trim_start_of cs s' else s
  | [] => []
  end.
Definition trim_end_of (cs : list ascii) (s : str) : str := reverse (trim_start_of cs (reverse s)).

Definition cleaned (s : str) : str :=
  let t := trim_end_of [sp; "."%char] (replace_dots (safe_char <$> s)) in
  if decide (t = [] ∨ t = &".") then &"_" else t.

Definition sanitize_component (s : str) : str :=
  let t := cleaned s in
  if negb (bool_decide (t = s)) || ends_with (&".partial") t then t ++ &"_" ++ short_hash s else t.
End Sanitize.

Section Layout.
Context {HS : Sha256} {HU : UnicodeAlnum}.

Definition archives_root (cache_root : str) : str := path_join cache_root (&"archives").
Definition installed_root (cache_root : str) : str := path_join cache_root (&"installed").
Definition index_path (cache_root : str) : str := path_join cache_root (&"index.sqlite").

Definition stem_and_hash (url : str) : str * str := (url_stem url, hash_url url).

Definition entry_parent (phase_root : str) (kind : Kind) (url : str) : str :=
  let '(stem, hash) := stem_and_hash url in
  path_join (path_join (path_join phase_root (as_str kind)) stem) hash.

Definition archive_entry_dir (cache_root : str) (kind : Kind) (url version : str) : str :=
  path_join (entry_parent (archives_root cache_root) kind url) (sanitize_component version).
Definition archive_staging_dir (cache_root : str) (kind : Kind) (url version : str) : str :=
  path_join (entry_parent (archives_root cache_root) kind url) (sanitize_component version ++ &".partial").
Definition installed_entry_dir (cache_root : str) (kind : Kind) (url version : str) : str :=
  path_join (entry_parent (installed_root cache_root) kind url) (sanitize_component version).
Definition install_staging_dir (cache_root : str) (kind : Kind) (url version : str) : str :=
  path_join (entry_parent (installed_root cache_root) kind url) (sanitize_component version ++ &".partial").
Definition install_complete_sentinel (installed_dir : str) : str := path_join installed_dir (&".install_complete").
End Layout.

(** ** Kinds *)

Lemma from_str_as_str k : from_str (as_str k) = Ok k.
Proof. destruct k; by vm_compute. Qed.
