(* ===== verification/CachePathFacts.v ===== *)
(** * Cache paths stay apart

    A sanitized version is one harmless path component that no staging
    directory is named after; what the stems of [url_stem] look like. *)
From S2P Require Import Prelude RustStr CachePaths.

(** What the digest's text is made of. *)
Definition is_hex (c : ascii) : bool := in_range "0" "9" c || in_range "a" "f" c.

Class Sha256Ok (H : Sha256) := {
  sha256_length s : length (sha256 s) = 32;
}.

Lemma hex_byte_hex b : Forall (λ c, is_hex c = true) (hex_byte b).
Proof. destruct b as [[] [] [] [] [] [] [] []]; repeat constructor. Qed.

Lemma hex_bytes_hex bs : Forall (λ c, is_hex c = true) (mbind hex_byte bs).
Proof. induction bs as [|b bs IH]; [constructor|]. apply Forall_app. split; [apply hex_byte_hex|done]. Qed.

(** ** No two dots in a row *)

Fixpoint no_dotdot (s : str) : bool :=
  match s with
  | [] => true
  | c :: s' => negb (bool_decide (c = "."%char) && starts_with (&".") s') && no_dotdot s'
  end.

Lemma starts_with_dot c s : starts_with (&".") (c :: s) = bool_decide (c = "."%char).
Proof.
  apply Bool.eq_iff_eq_true. rewrite starts_with_iff, bool_decide_eq_true. split.
  - by intros [k [= ->]].
  - intros ->. by exists s.
Qed.

Lemma no_dotdot_app s t : no_dotdot (s ++ t) = true ↔
  no_dotdot s = true ∧ no_dotdot t = true ∧ ¬ (last s = Some "."%char ∧ starts_with (&".") t = true).
Proof.
  induction s as [|c s IH]; [cbn; naive_solver|]. cbn [app no_dotdot]. rewrite !andb_true_iff, IH.
  destruct s as [|d s].
  - cbn [app no_dotdot last]. assert (starts_with (&".") [] = false) as -> by done. rewrite andb_false_r.
    destruct (starts_with (&".") t) eqn:Et; [|rewrite andb_false_r; cbn; naive_solver].
    rewrite andb_true_r. destruct (decide (c = "."%char)) as [->|Hc].
    + rewrite bool_decide_true by done. cbn. naive_solver.
    + rewrite bool_decide_false by done. cbn. naive_solver.
  - cbn [app]. rewrite !starts_with_dot. cbn [last]. tauto.
Qed.

Lemma no_dotdot_prefix s t : no_dotdot (s ++ t) = true → no_dotdot s = true.
Proof. rewrite no_dotdot_app. tauto. Qed.

(** [".."] does not occur. *)
Lemma no_dotdot_infix s a b : no_dotdot s = true → s ≠ a ++ &".." ++ b.
Proof. intros H ->. apply no_dotdot_app in H as (_ & H & _). done. Qed.

Lemma replace_dots_cons c d s : replace_dots (c :: d :: s) =
  if decide (c = "."%char ∧ d = "."%char) then "_"%char :: replace_dots s else c :: replace_dots (d :: s).
Proof. done. Qed.

Lemma replace_dots_spec s : no_dotdot (replace_dots s) = true ∧
  (starts_with (&".") (replace_dots s) = true → starts_with (&".") s = true).
Proof.
  remember (length s) as n eqn:Hn. revert s Hn. induction (lt_wf n) as [n _ IH]. intros s ->.
  destruct s as [|c [|d s]]; [done|by cbn; rewrite andb_false_r|].
  rewrite replace_dots_cons. destruct (decide (c = "."%char ∧ d = "."%char)) as [H|H].
  - destruct (IH (length s) ltac:(cbn; lia) s eq_refl) as [H1 _]. split; [done|done].
  - destruct (IH (length (d :: s)) ltac:(cbn; lia) (d :: s) eq_refl) as [H1 H2].
    split; [|by rewrite !starts_with_dot]. cbn [no_dotdot]. rewrite H1, andb_true_r. apply negb_true_iff.
    apply andb_false_iff. destruct (decide (c = "."%char)) as [->|Hc]; [right|left; by apply bool_decide_eq_false].
    apply not_true_iff_false. intros Hd%H2. rewrite starts_with_dot in Hd. apply bool_decide_eq_true in Hd. tauto.
Qed.

Lemma replace_dots_id s : no_dotdot s = true → replace_dots s = s.
Proof.
  induction s as [|c s IH]; [done|]. cbn [no_dotdot]. intros [H Hs]%andb_true_iff.
  destruct s as [|d s]; [done|]. rewrite replace_dots_cons. rewrite starts_with_dot in H.
  destruct (decide (c = "."%char ∧ d = "."%char)) as [Hcd|]; [|by rewrite IH].
  exfalso. destruct Hcd as [-> ->]. done.
Qed.

Lemma replace_dots_Forall (P : ascii → Prop) s : P "_"%char → Forall P s → Forall P (replace_dots s).
Proof.
  intros Hu. remember (length s) as n eqn:Hn. revert s Hn. induction (lt_wf n) as [n _ IH]. intros s -> Hs.
  destruct s as [|c [|d s]]; [done|done|]. rewrite replace_dots_cons.
  pose proof Hs as [Hc [Hd Hs']%Forall_cons]%Forall_cons.
  case_decide; constructor; try done.
  - apply (IH (length s)); [cbn; lia|done|done].
  - apply (IH (length (d :: s))); [cbn; lia|done|by constructor].
Qed.

(** ** Trimming *)

Lemma trim_start_of_suffix cs s : ∃ t, s = t ++ trim_start_of cs s.
Proof.
  induction s as [|c s [t IH]]; [by exists []|]. cbn. case_decide; [|by exists []].
  exists (c :: t). cbn. by rewrite <- IH.
Qed.

Lemma trim_end_of_prefix cs s : ∃ t, s = trim_end_of cs s ++ t.
Proof.
  destruct (trim_start_of_suffix cs (reverse s)) as [t E]. exists (reverse t).
  unfold trim_end_of. rewrite <- reverse_app, <- E. by rewrite reverse_involutive.
Qed.

Lemma trim_start_of_head cs s c : head (trim_start_of cs s) = Some c → c ∉ cs.
Proof. induction s as [|a s IH]; cbn; [done|]. case_decide; [done|]. by intros [= ->]. Qed.

Lemma last_reverse {A} (s : list A) : last (reverse s) = head s.
Proof. destruct s as [|a s]; [done|]. by rewrite reverse_cons, last_snoc. Qed.

Lemma trim_end_of_last cs s c : last (trim_end_of cs s) = Some c → c ∉ cs.
Proof. unfold trim_end_of. rewrite last_reverse. apply trim_start_of_head. Qed.

Lemma trim_end_of_id cs s : (∀ c, last s = Some c → c ∉ cs) → trim_end_of cs s = s.
Proof.
  intros H. unfold trim_end_of. rewrite <- (reverse_involutive s) at 2. f_equal.
  destruct (reverse s) as [|c t] eqn:E; [done|]. cbn. rewrite decide_False; [done|].
  apply H. rewrite <- (reverse_involutive s), E. by rewrite reverse_cons, last_snoc.
Qed.

Lemma safe_char_safe c : safe_char c ∉ unsafe_chars.
Proof. unfold safe_char. case_decide; [|done]. apply (bool_decide_unpack _). by vm_compute. Qed.

Lemma safe_chars_id s : Forall (λ c, c ∉ unsafe_chars) s → safe_char <$> s = s.
Proof.
  induction 1 as [|c s Hc _ IH]; [done|]. cbn. rewrite IH. unfold safe_char. by rewrite decide_False.
Qed.

(** ** Components *)

(** A name that is exactly one path component, and no staging name. *)
Record clean_name (c : str) : Prop := {
  cn_nonempty : c ≠ [];
  cn_safe : Forall (λ a, a ∉ unsafe_chars) c;
  cn_dots : no_dotdot c = true;
  cn_last a : last c = Some a → a ∉ [sp; "."%char];
}.

Lemma cleaned_clean s : clean_name (cleaned s).
Proof.
  unfold cleaned. set (r := replace_dots (safe_char <$> s)). case_decide as H.
  - split; [done| |done|].
    + constructor; [|done]. apply (bool_decide_unpack _). by vm_compute.
    + intros a [= <-]. apply (bool_decide_unpack _). by vm_compute.
  - destruct (trim_end_of_prefix [sp; "."%char] r) as [t Et].
    assert (Forall (λ a, a ∉ unsafe_chars) r) as Hr.
    { apply replace_dots_Forall; [apply (bool_decide_unpack _); by vm_compute|].
      apply Forall_fmap, Forall_true. intros a. apply safe_char_safe. }
    split; [tauto| | |apply trim_end_of_last].
    + rewrite Et in Hr. by apply Forall_app in Hr as [? _].
    + apply (no_dotdot_prefix _ t). rewrite <- Et. apply replace_dots_spec.
Qed.

Lemma clean_not_dot c : clean_name c → c ≠ &".".
Proof. intros [_ _ _ H] ->. specialize (H "."%char eq_refl). set_solver. Qed.

Lemma cleaned_id c : clean_name c → cleaned c = c.
Proof.
  intros Hc. unfold cleaned. rewrite safe_chars_id by apply Hc. rewrite replace_dots_id by apply Hc.
  rewrite trim_end_of_id by apply Hc. rewrite decide_False; [done|].
  intros [E|E]; [by apply (cn_nonempty _ Hc)|by apply clean_not_dot in Hc].
Qed.

Lemma clean_component c : clean_name c → components c = [Normal c].
Proof.
  intros Hc. assert (slash ∉ c) as Hs.
  { intros Hin. pose proof (proj1 (Forall_forall _ _) (cn_safe _ Hc) _ Hin) as H. cbn in H.
    apply H. by apply list_elem_of_here. }
  assert (split_on slash c = [c]) as Ews.
  { apply split_by_clean, Forall_forall. intros a Ha. apply bool_decide_eq_false. by intros ->. }
  unfold components. rewrite Ews. cbn [omap list_omap]. pose proof (clean_not_dot c Hc).
  rewrite decide_False by done.
  assert (c ≠ &"..") by (intros ->; by destruct (no_dotdot_infix (&"..") [] [] (cn_dots _ Hc))).
  assert (component_of c = Some (Normal c)) as ->.
  { unfold component_of. rewrite decide_False by (pose proof (cn_nonempty _ Hc); tauto). by rewrite decide_False. }
  destruct (starts_with [slash] c) eqn:E; [|done]. apply starts_with_iff in E as [k ->]. set_solver.
Qed.

Section Sanitized.
Context {HS : Sha256} {HOk : Sha256Ok HS}.

Lemma hex_clean a : is_hex a = true → a ∉ unsafe_chars ∧ a ∉ [sp; "."%char] ∧ a ≠ "l"%char.
Proof.
  destruct a as [[] [] [] [] [] [] [] []]; intros H; try (by vm_compute in H);
    (split; [|split]; [apply (bool_decide_unpack _); by vm_compute..|done]).
Qed.

Lemma short_hash_hex s : Forall (λ c, is_hex c = true) (short_hash s).
Proof. apply hex_bytes_hex. Qed.

Lemma short_hash_nonempty s : short_hash s ≠ [].
Proof.
  unfold short_hash. pose proof (sha256_length s) as H. by destruct (sha256 s).
Qed.

Lemma short_hash_last s : ∃ a, last (short_hash s) = Some a ∧ is_hex a = true.
Proof.
  destruct (last (short_hash s)) as [a|] eqn:E.
  - exists a. split; [done|]. apply last_Some_elem_of in E.
    by apply (proj1 (Forall_forall _ _) (short_hash_hex s)).
  - apply last_None in E. by apply short_hash_nonempty in E.
Qed.

Lemma no_dotdot_hex h : Forall (λ c, is_hex c = true) h → no_dotdot h = true.
Proof.
  induction 1 as [|a h Ha _ IH]; [done|]. cbn. rewrite IH. rewrite bool_decide_false; [done|].
  intros ->. done.
Qed.

Lemma suffixed_clean c s : clean_name c → clean_name (c ++ &"_" ++ short_hash s).
Proof.
  intros Hc. destruct (short_hash_last s) as (a & Ea & Ha).
  assert (last (c ++ &"_" ++ short_hash s) = Some a) as El.
  { rewrite !last_app, Ea. done. }
  split.
  - intros E. by rewrite E in El.
  - rewrite !Forall_app. split_and!; [apply Hc|constructor; [|done]; apply (bool_decide_unpack _); by vm_compute|].
    eapply Forall_impl; [apply short_hash_hex|]. intros b Hb. apply (hex_clean b Hb).
  - rewrite no_dotdot_app. split_and!; [apply Hc| |].
    + cbn. by apply no_dotdot_hex, short_hash_hex.
    + intros [_ H]. done.
  - intros b. rewrite El. intros [= <-]. apply (hex_clean a Ha).
Qed.

Lemma sanitize_clean s : clean_name (sanitize_component s).
Proof.
  unfold sanitize_component. case_match; [apply suffixed_clean|]; apply cleaned_clean.
Qed.

Lemma ends_with_last p s a : ends_with p s = true → last p = Some a → last s = Some a.
Proof.
  unfold ends_with, strip_suffix. destruct (strip_prefix (reverse p) (reverse s)) as [r|] eqn:E; [|done].
  intros _ Hp. apply strip_prefix_Some in E. apply (f_equal reverse) in E.
  rewrite reverse_involutive, reverse_app, reverse_involutive in E. by rewrite E, last_app, Hp.
Qed.

Lemma sanitize_not_partial s : ends_with (&".partial") (sanitize_component s) = false.
Proof.
  unfold sanitize_component.
  destruct (negb (bool_decide (cleaned s = s)) || ends_with (&".partial") (cleaned s)) eqn:E.
  - apply not_true_iff_false. intros H. apply (ends_with_last _ _ "l"%char) in H; [|done].
    destruct (short_hash_last s) as (a & Ea & Ha). rewrite !last_app, Ea in H. injection H as ->.
    by apply hex_clean in Ha as (_ & _ & ?).
  - by apply orb_false_iff in E as [_ E].
Qed.

(** C36: whatever a version is called, its directory name is one ordinary path
    component: it has no separator or reserved character, no [..], does not
    traverse, and is never the name of a staging directory.  Sanitizing it
    again changes nothing. *)
Theorem sanitize_component_safe s : let c := sanitize_component s in
  components c = [Normal c] ∧ Forall (λ a, a ∉ unsafe_chars) c ∧ (∀ a b, c ≠ a ++ &".." ++ b) ∧
  ends_with (&".partial") c = false ∧ sanitize_component c = c.
Proof.
  cbv zeta. pose proof (sanitize_clean s) as Hc. pose proof (sanitize_not_partial s) as Hp.
  split_and!; [by apply clean_component|apply Hc|intros a b; apply no_dotdot_infix, Hc|done|].
  unfold sanitize_component at 1. rewrite cleaned_id by done. rewrite Hp.
  by rewrite bool_decide_true.
Qed.
End Sanitized.

(** A digest to evaluate on. *)
Definition sample_digest : Sha256 := λ s, replicate 32 (byte_of (if decide (s = []) then 0 else 238)).

#[global] Instance sample_digest_ok : Sha256Ok sample_digest.
Proof.
  split. intros s. apply length_replicate.
Qed.

Lemma sanitize_component_safe_witness :
  let c := sanitize_component (HS := sample_digest) (&"../1.0.partial") in
  c = &"__1.0.partial_eeeeeeee" ∧
  components c = [Normal c] ∧ Forall (λ a, a ∉ unsafe_chars) c ∧ (∀ a b, c ≠ a ++ &".." ++ b) ∧
  ends_with (&".partial") c = false ∧ sanitize_component (HS := sample_digest) c = c.
Proof.
  split; [by vm_compute|].
  exact (sanitize_component_safe (HS := sample_digest) (HOk := sample_digest_ok) (&"../1.0.partial")).
Defined.

(** ** Committed and staging directories *)
Section Staging.
Context {HS : Sha256} {HOk : Sha256Ok HS} {HU : UnicodeAlnum}.

Lemma path_join_shape base p : starts_with [slash] p = false →
  ∃ b, path_join base p = b ++ p ∧ (b = [] ∨ last b = Some slash).
Proof.
  intros Hp. unfold path_join. rewrite Hp.
  destruct (bool_decide (base = []) || ends_with [slash] base) eqn:E.
  - exists base. split; [done|]. apply orb_true_iff in E as [E%bool_decide_eq_true|E]; [by left|right].
    by apply (ends_with_last [slash]).
  - exists (base ++ [slash]). split; [by rewrite <- app_assoc|]. right. by rewrite last_app.
Qed.

Lemma app_suffix_cases {A} (a b c d : list A) : a ++ b = c ++ d → length b ≤ length d →
  ∃ k, d = k ++ b ∧ a = c ++ k.
Proof.
  intros E Hl. destruct (app_eq_inv _ _ _ _ E) as [(k & -> & ->)|(k & -> & ->)].
  - by exists k.
  - rewrite length_app in Hl. destruct k; [|cbn in Hl; lia]. exists []. by rewrite !app_nil_r.
Qed.

Lemma ends_with_iff p s : ends_with p s = true ↔ p `suffix_of` s.
Proof.
  unfold ends_with, strip_suffix. split.
  - destruct (strip_prefix (reverse p) (reverse s)) as [r|] eqn:E; [|done]. intros _.
    apply strip_prefix_Some in E. exists (reverse r).
    rewrite <- (reverse_involutive s), E, reverse_app. by rewrite reverse_involutive.
  - intros [k ->]. by rewrite reverse_app, strip_prefix_app.
Qed.

(** No name ending in [.partial] collides with a sanitized one. *)
Lemma join_not_partial base base' s n :
  path_join base (sanitize_component s) ≠ path_join base' (sanitize_component n ++ &".partial").
Proof.
  pose proof (sanitize_clean s) as Hs. pose proof (sanitize_clean n) as Hn.
  assert (∀ c, clean_name c → slash ∉ c) as Hslash.
  { intros c Hc Hin. pose proof (proj1 (Forall_forall _ _) (cn_safe _ Hc) _ Hin) as H.
    apply H. by apply list_elem_of_here. }
  assert (∀ c, slash ∉ c → starts_with [slash] c = false) as Hrel.
  { intros c Hc. apply not_true_iff_false. intros [k ->]%starts_with_iff. set_solver. }
  assert (slash ∉ sanitize_component n ++ &".partial") as Hns.
  { rewrite not_elem_of_app. split; [by apply Hslash|]. apply (bool_decide_unpack _). by vm_compute. }
  destruct (path_join_shape base _ (Hrel _ (Hslash _ Hs))) as (b & -> & Hb).
  destruct (path_join_shape base' _ (Hrel _ Hns)) as (b' & -> & Hb').
  intros E. rewrite app_assoc in E.
  destruct (decide (length (&".partial") ≤ length (sanitize_component s))) as [Hl|Hl].
  - symmetry in E. destruct (app_suffix_cases _ _ _ _ E Hl) as (k & Ek & _).
    pose proof (sanitize_not_partial s) as Hp. apply not_true_iff_false in Hp. apply Hp, ends_with_iff.
    by exists k.
  - destruct (app_suffix_cases _ _ _ _ E) as (k & Ek & Eb); [lia|]. destruct Hb as [->|Hb].
    + symmetry in Eb. apply app_nil in Eb as [Eb _]. apply app_nil in Eb as [_ Eb].
      by apply (cn_nonempty _ Hn).
    + assert (slash ∈ k) as Hin.
      { destruct (decide (k = [])) as [->|Hk].
        - cbn [app] in Ek. apply (f_equal length) in Ek. lia.
        - rewrite Eb, last_app in Hb. destruct (last k) eqn:El; [|by apply last_None in El].
          injection Hb as ->. by apply last_Some_elem_of. }
      assert (slash ∉ &".partial") as Hno by (apply (bool_decide_unpack _); by vm_compute).
      apply Hno. rewrite Ek. apply elem_of_app. by left.
Qed.

(** a committed cache directory is never a staging directory, of any
    package and any phase, so that removing the leavings of an interrupted
    download cannot hit a committed entry by name. *)
Theorem entry_dir_not_staging root kind url version root' kind' url' version' :
  archive_entry_dir root kind url version ≠ archive_staging_dir root' kind' url' version' ∧
  installed_entry_dir root kind url version ≠ install_staging_dir root' kind' url' version' ∧
  archive_entry_dir root kind url version ≠ install_staging_dir root' kind' url' version' ∧
  installed_entry_dir root kind url version ≠ archive_staging_dir root' kind' url' version'.
Proof. split_and!; apply join_not_partial. Qed.
End Staging.

Lemma entry_dir_not_staging_witness :
  let HS := sample_digest in let HU : UnicodeAlnum := λ _, true in
  archive_entry_dir (&"/c") Toolchains (&"https://x.org/gcc.zip") (&"1.partial") =
    &"/c/archives/toolchains/x-gcc/eeeeeeeeeeeeeeee/1.partial_eeeeeeee" ∧
  archive_entry_dir (&"/c") Toolchains (&"https://x.org/gcc.zip") (&"1.partial") ≠
    archive_staging_dir (&"/c") Toolchains (&"https://x.org/gcc.zip") (&"1").
Proof.
  intros HS HU. split; [by vm_compute|].
  exact (proj1 (entry_dir_not_staging (HS := HS) (HOk := sample_digest_ok) (HU := HU) (&"/c") Toolchains
    (&"https://x.org/gcc.zip") (&"1.partial") (&"/c") Toolchains (&"https://x.org/gcc.zip") (&"1"))).
Defined.

(** ** Findings *)

(** The comment promises a collision-free mapping, but the sanitized form of
    an unsafe version is itself a version, and maps to itself. *)
Lemma versions_collide {HS : Sha256} {HOk : Sha256Ok HS} :
  ∃ v v', v ≠ v' ∧ sanitize_component v = sanitize_component v'.
Proof.
  exists (&"a/b"), (sanitize_component (&"a/b")). split.
  - intros E. pose proof (cn_safe _ (sanitize_clean (&"a/b"))) as H. rewrite <- E in H.
    apply (bool_decide_pack _) in H. by vm_compute in H.
  - symmetry. by apply sanitize_component_safe.
Qed.

Section Stems.
#[local] Instance all_alnum : UnicodeAlnum := λ _, true.

(** The leading [www.] is only dropped in front of [downloads.]: the second
    [unwrap_or(host)] falls back to the whole host. *)
Lemma www_is_kept :
  url_stem (&"https://www.example.com/tool.zip") = &"www-tool" ∧
  url_stem (&"https://downloads.arduino.cc/tools") = &"arduino-tools".
Proof. split; by vm_compute. Qed.

(** The documentation of [url_stem] gives [example.com-package] for this. *)
Lemma stem_without_tld :
  url_stem (&"https://example.com/some/deep/path/package.tar.gz") = &"example-package".
Proof. by vm_compute. Qed.

(** A host of dots is taken as it is, so the entry leaves its kind's
    directory. *)
Lemma stem_traverses : url_stem (&"https://..") = &"..".
Proof. by vm_compute. Qed.
End Stems.
