(* ===== verification/CacheIndex.v ===== *)
(** * [fbuild-packages-fetch/src/disk_cache/index] and [lease.rs]

    The SQLite index as its two tables; each method is the effect of its SQL
    statements.  [entries] is keyed by the row id and [leases] by its primary
    key.  What SQL leaves open, the order of rows that compare equal, comes
    from [HashIter].  Failures of the database itself are not modelled;
    constraint violations and the overflow of [SUM] are. *)
From S2P Require Import Prelude RustStr CachePaths.
From stdpp Require Import sorting.

Record CacheEntry := MkEntry {
  id : Z;
  kind : Kind;
  url : str;
  stem : str;
  hash : str;
  version : str;
  archive_path : option str;
  archive_bytes : option Z;
  archive_sha256 : option str;
  installed_path : option str;
  installed_bytes : option Z;
  installed_at : option Z;
  archived_at : option Z;
  last_used_at : Z;
  use_count : Z;
  pinned : Z;
}.

Record LeaseRow := { refcount : Z; acquired_at : Z }.

(** [(entry_id, holder_pid, holder_nonce)] *)
Abbreviation lease_key := (Z * Z * Z)%type.

Record CacheIndex := { entries : gmap Z CacheEntry; leases : gmap lease_key LeaseRow }.

Definition empty_index : CacheIndex := {| entries := ∅; leases := ∅ |}.

Inductive sql_error :=
  | ForeignKey      (** a lease for a row that is not there *)
  | IntegerOverflow (** in [SUM] *)
  | RowidsExhausted (** the largest row id is taken *).
#[global] Instance sql_error_eq_dec : EqDecision sql_error.
Proof. solve_decision. Defined.

(** ** Updates of a row *)

Definition set_archive (p : option str) (b : option Z) (sha : option str) (at_ : option Z) (e : CacheEntry) : CacheEntry :=
  MkEntry (id e) (kind e) (url e) (stem e) (hash e) (version e) p b sha (installed_path e)
    (installed_bytes e) (installed_at e) at_ (last_used_at e) (use_count e) (pinned e).

Definition set_installed (p : option str) (b at_ : option Z) (e : CacheEntry) : CacheEntry :=
  MkEntry (id e) (kind e) (url e) (stem e) (hash e) (version e) (archive_path e) (archive_bytes e)
    (archive_sha256 e) p b at_ (archived_at e) (last_used_at e) (use_count e) (pinned e).

Definition set_used (at_ count : Z) (e : CacheEntry) : CacheEntry :=
  MkEntry (id e) (kind e) (url e) (stem e) (hash e) (version e) (archive_path e) (archive_bytes e)
    (archive_sha256 e) (installed_path e) (installed_bytes e) (installed_at e) (archived_at e) at_ count (pinned e).

Definition set_pinned (n : Z) (e : CacheEntry) : CacheEntry :=
  MkEntry (id e) (kind e) (url e) (stem e) (hash e) (version e) (archive_path e) (archive_bytes e)
    (archive_sha256 e) (installed_path e) (installed_bytes e) (installed_at e) (archived_at e)
    (last_used_at e) (use_count e) n.

(** [UPDATE entries SET .. WHERE id = ?] *)
Definition update_entry (i : Z) (f : CacheEntry → CacheEntry) (db : CacheIndex) : CacheIndex :=
  {| entries := alter f i (entries db); leases := leases db |}.

(** ** Queries *)

Section Index.
Context {HS : Sha256} {HU : UnicodeAlnum} `{HI : HashIter}.

Definition rows (db : CacheIndex) : list CacheEntry := (hm_iter (entries db)).*2.

(** The row [UNIQUE(kind, hash, version)] identifies. *)
Definition same_key (k : Kind) (h v : str) (e : CacheEntry) : Prop := kind e = k ∧ hash e = h ∧ version e = v.
#[global] Instance same_key_dec k h v e : Decision (same_key k h v e).
Proof. unfold same_key. apply _. Defined.

Definition lookup_key (k : Kind) (h v : str) (db : CacheIndex) : option CacheEntry :=
  snd <$> list_find (same_key k h v) (rows db).

Definition lookup (k : Kind) (u v : str) (db : CacheIndex) : option CacheEntry :=
  let '(_, h) := stem_and_hash u in lookup_key k h v db.

(** SQLite's choice for an [INTEGER PRIMARY KEY]: one more than the largest.
    At the end of the range it tries random ids; here it gives up. *)
Definition max_id (db : CacheIndex) : Z := foldr Z.max 0%Z (fst <$> map_to_list (entries db)).
Definition next_id (db : CacheIndex) : result sql_error Z :=
  if decide (max_id db = i64_max) then Err RowidsExhausted else Ok (max_id db + 1)%Z.

(** [INSERT .. ON CONFLICT(kind, hash, version) DO UPDATE SET ..]: [fill]
    sets the given columns, in the new row as in the old one. *)
Definition upsert (k : Kind) (u v : str) (now : Z) (fill : CacheEntry → CacheEntry) (db : CacheIndex) :
    result sql_error CacheEntry * CacheIndex :=
  let '(s, h) := stem_and_hash u in
  match lookup_key k h v db with
  | Some old =>
      let e := fill (set_used now (use_count old) old) in
      (Ok e, {| entries := <[id old := e]> (entries db); leases := leases db |})
  | None =>
      match next_id db with
      | Err err => (Err err, db)
      | Ok i =>
          let e := fill (MkEntry i k u s h v None None None None None None None now 0 0) in
          (Ok e, {| entries := <[i := e]> (entries db); leases := leases db |})
      end
  end.

Definition record_archive (k : Kind) (u v path : str) (bytes : Z) (sha : str) (now : Z) (db : CacheIndex) :=
  upsert k u v now (set_archive (Some path) (Some bytes) (Some sha) (Some now)) db.

Definition record_install (k : Kind) (u v path : str) (bytes : Z) (now : Z) (db : CacheIndex) :=
  upsert k u v now (set_installed (Some path) (Some bytes) (Some now)) db.

Definition touch (i now : Z) (db : CacheIndex) : CacheIndex :=
  update_entry i (λ e, set_used now (use_count e + 1) e) db.

(** ** Leases *)

(** [SELECT COALESCE(SUM(refcount), 0) FROM leases WHERE entry_id = i] *)
Definition refs_of (i : Z) (ls : gmap lease_key LeaseRow) : Z :=
  map_sum (λ (k : lease_key) l, if decide (k.1.1 = i) then refcount l else 0%Z) ls.

Definition refresh_pinned (i : Z) (db : CacheIndex) : CacheIndex :=
  update_entry i (set_pinned (refs_of i (leases db))) db.

Definition pin (i pid nonce now : Z) (db : CacheIndex) : result sql_error unit * CacheIndex :=
  match leases db !! (i, pid, nonce) with
  | Some l =>
      let ls := <[(i, pid, nonce) := {| refcount := refcount l + 1; acquired_at := acquired_at l |}]> (leases db) in
      (Ok tt, refresh_pinned i {| entries := entries db; leases := ls |})
  | None =>
      if decide (is_Some (entries db !! i)) then
        let ls := <[(i, pid, nonce) := {| refcount := 1; acquired_at := now |}]> (leases db) in
        (Ok tt, refresh_pinned i {| entries := entries db; leases := ls |})
      else (Err ForeignKey, db)
  end.

(** The update, then the deletion of a row whose count is used up. *)
Definition unpin (i pid nonce : Z) (db : CacheIndex) : CacheIndex :=
  let ls :=
    match leases db !! (i, pid, nonce) with
    | Some l =>
        if decide (refcount l - 1 ≤ 0)%Z then delete (i, pid, nonce) (leases db)
        else <[(i, pid, nonce) := {| refcount := refcount l - 1; acquired_at := acquired_at l |}]> (leases db)
    | None => leases db
    end in
  refresh_pinned i {| entries := entries db; leases := ls |}.

(** [Lease]: the guard, its [acquire] and its [Drop]. A process has one id
    and one nonce. *)
Record Lease := { l_entry_id : Z; l_holder_pid : Z; l_holder_nonce : Z }.

Definition lease_acquire (i pid nonce now : Z) (db : CacheIndex) : result sql_error Lease * CacheIndex :=
  let '(r, db) := pin i pid nonce now db in
  (result_bind r (λ _, Ok {| l_entry_id := i; l_holder_pid := pid; l_holder_nonce := nonce |}), db).
Definition lease_drop (l : Lease) (db : CacheIndex) : CacheIndex :=
  unpin (l_entry_id l) (l_holder_pid l) (l_holder_nonce l) db.

(** [ON DELETE CASCADE] takes the leases along. *)
Definition delete_entry (i : Z) (db : CacheIndex) : CacheIndex :=
  {| entries := delete i (entries db); leases := filter (λ l : lease_key * LeaseRow, l.1.1.1 ≠ i) (leases db) |}.

(** [alive] is the platform's answer for a process id, given as [u32]. *)
Definition holder_dead (alive : Z → bool) (k : lease_key) : bool := negb (alive (k.1.2 mod 2 ^ 32)%Z).

Definition dead_pids (alive : Z → bool) (db : CacheIndex) : list Z :=
  filter (λ p, alive (p mod 2 ^ 32)%Z = false) (remove_dups ((λ l : lease_key * LeaseRow, l.1.1.2) <$> map_to_list (leases db))).

Definition reap_dead_leases (alive : Z → bool) (db : CacheIndex) : nat * CacheIndex :=
  let pids := dead_pids alive db in
  let ls := filter (λ l : lease_key * LeaseRow, l.1.1.2 ∉ pids) (leases db) in
  (length pids,
   if decide (0 < length pids)
   then {| entries := map_imap (λ i e, Some (set_pinned (refs_of i ls) e)) (entries db); leases := ls |}
   else {| entries := entries db; leases := ls |}).

(** ** Sizes and eviction candidates *)

(** [SUM(bytes) .. WHERE path IS NOT NULL], of which [NULL]s are no part. *)
Definition sum_bytes (path : CacheEntry → option str) (bytes : CacheEntry → option Z) (db : CacheIndex) : Z :=
  map_sum (λ _ e, match path e with Some _ => default 0%Z (bytes e) | None => 0%Z end) (entries db).

Definition sql_sum (n : Z) : result sql_error Z :=
  if decide (i64_min ≤ n ≤ i64_max)%Z then Ok n else Err IntegerOverflow.

Definition total_archive_bytes (db : CacheIndex) : result sql_error Z := sql_sum (sum_bytes archive_path archive_bytes db).
Definition total_installed_bytes (db : CacheIndex) : result sql_error Z := sql_sum (sum_bytes installed_path installed_bytes db).

Definition older (a b : CacheEntry) : Prop := (last_used_at a ≤ last_used_at b)%Z.
#[global] Instance older_dec a b : Decision (older a b).
Proof. unfold older. apply _. Defined.

Definition lru (path : CacheEntry → option str) (limit : nat) (db : CacheIndex) : list CacheEntry :=
  take limit (merge_sort older (filter (λ e, is_Some (path e) ∧ pinned e = 0%Z) (rows db))).
Definition lru_installed_entries := lru installed_path.
Definition lru_archive_entries := lru archive_path.

Definition clear_installed (i : Z) (db : CacheIndex) : CacheIndex := update_entry i (set_installed None None None) db.
Definition clear_archive (i : Z) (db : CacheIndex) : CacheIndex := update_entry i (set_archive None None None None) db.

Definition all_entries (db : CacheIndex) : list CacheEntry := rows db.

Definition newer (a b : CacheEntry) : Prop := (last_used_at b ≤ last_used_at a)%Z.
#[global] Instance newer_dec a b : Decision (newer a b).
Proof. unfold newer. apply _. Defined.

Definition lookup_latest (k : Kind) (u : str) (db : CacheIndex) : option CacheEntry :=
  let '(_, h) := stem_and_hash u in
  head (merge_sort newer (filter (λ e, kind e = k ∧ hash e = h ∧ is_Some (installed_path e)) (rows db))).

Definition entry_count (db : CacheIndex) : nat := size (entries db).
End Index.
