(* ===== verification/CacheFacts.v ===== *)
(** * The cache index is consistent

    The invariant of the two tables, that every operation preserves it, and
    what leases mean: a lease that is dropped leaves no trace, and the
    candidates for eviction are the entries nobody holds. *)
From S2P Require Import Prelude RustStr CachePaths CachePathFacts CacheIndex.
From stdpp Require Import sorting.

Implicit Types (i j p n : Z) (db : CacheIndex) (ls : gmap lease_key LeaseRow).

(** The count of an entry is the sum of its leases', which are of entries
    that exist; ids and the unique key identify a row. *)
Record index_ok (db : CacheIndex) : Prop := {
  ok_id i e : entries db !! i = Some e → id e = i ∧ (1 ≤ i ≤ i64_max)%Z;
  ok_unique i j a b : entries db !! i = Some a → entries db !! j = Some b →
    kind a = kind b → hash a = hash b → version a = version b → i = j;
  ok_lease i p n l : leases db !! (i, p, n) = Some l → is_Some (entries db !! i) ∧ (1 ≤ refcount l)%Z;
  ok_pinned i e : entries db !! i = Some e → pinned e = refs_of i (leases db);
}.

(** An update that leaves a row's identity alone. *)
Definition keeps_key (f : CacheEntry → CacheEntry) : Prop :=
  ∀ e, id (f e) = id e ∧ kind (f e) = kind e ∧ hash (f e) = hash e ∧ version (f e) = version e.
Definition keeps_pinned (f : CacheEntry → CacheEntry) : Prop := ∀ e, pinned (f e) = pinned e.

Lemma index_ok_empty : index_ok empty_index.
Proof. split; intros *; cbn; by rewrite lookup_empty. Qed.

Lemma update_entry_lookup i f db j e : entries (update_entry i f db) !! j = Some e ↔
  ∃ e0, entries db !! j = Some e0 ∧ e = if decide (i = j) then f e0 else e0.
Proof.
  cbn. destruct (decide (i = j)) as [->|Hij].
  - rewrite lookup_alter_eq. destruct (entries db !! j); naive_solver.
  - rewrite lookup_alter_ne by done. naive_solver.
Qed.

Lemma update_entry_dom i f db j : is_Some (entries (update_entry i f db) !! j) ↔ is_Some (entries db !! j).
Proof.
  split; intros [e He].
  - apply update_entry_lookup in He as (e0 & ? & _). by exists e0.
  - eexists. apply update_entry_lookup. by exists e.
Qed.

(** ** Sums of references *)

Lemma refs_of_insert i j p n l ls :
  refs_of j (<[(i, p, n) := l]> ls) =
    ((if decide (i = j) then refcount l - from_option refcount 0 (ls !! (i, p, n)) else 0) + refs_of j ls)%Z.
Proof.
  unfold refs_of. rewrite map_sum_update. cbn. destruct (ls !! (i, p, n)); cbn; destruct (decide (i = j)); lia.
Qed.

Lemma refs_of_delete i j p n ls :
  refs_of j (delete (i, p, n) ls) =
    (refs_of j ls - if decide (i = j) then from_option refcount 0 (ls !! (i, p, n)) else 0)%Z.
Proof.
  unfold refs_of. rewrite map_sum_remove. destruct (ls !! (i, p, n)); cbn; destruct (decide (i = j)); lia.
Qed.

Lemma refs_of_filter_other i j (ls : gmap lease_key LeaseRow) : i ≠ j →
  refs_of j (filter (λ l : lease_key * LeaseRow, l.1.1.1 ≠ i) ls) = refs_of j ls.
Proof.
  intros Hij. unfold refs_of. rewrite map_sum_filter. apply map_sum_ext. intros [[i' p] n] l _. cbn.
  destruct (decide (i' = j)); destruct (decide (i' ≠ i)); try done. by subst.
Qed.

Lemma refs_of_zero i ls : (∀ p n, ls !! (i, p, n) = None) → refs_of i ls = 0%Z.
Proof.
  intros H. apply map_sum_zero. intros [[j p] n] l Hl. cbn. case_decide; [|done]. subst. by rewrite H in Hl.
Qed.

Definition positive (ls : gmap lease_key LeaseRow) : Prop := ∀ k l, ls !! k = Some l → (1 ≤ refcount l)%Z.

Lemma ok_positive db : index_ok db → positive (leases db).
Proof. intros Hok [[i p] n] l Hl. by apply (ok_lease db Hok) in Hl as [_ ?]. Qed.

Lemma refs_of_nonneg i ls : positive ls → (0 ≤ refs_of i ls)%Z.
Proof. intros H. apply map_sum_nonneg. intros k l Hl%H. case_decide; lia. Qed.

(** No references: no lease. *)
Lemma refs_of_none i ls : positive ls → refs_of i ls = 0%Z ↔ ∀ p n, ls !! (i, p, n) = None.
Proof.
  intros Hpos. split; [|apply refs_of_zero]. intros H0 p n. destruct (ls !! (i, p, n)) as [l|] eqn:E; [exfalso|done].
  pose proof (Hpos _ _ E).
  unfold refs_of in H0. rewrite (map_sum_delete _ _ _ _ E) in H0. cbn in H0. rewrite decide_True in H0 by done.
  match type of H0 with (_ + ?s)%Z = _ => assert (0 ≤ s)%Z end; [|lia].
  apply map_sum_nonneg. intros k' l' [_ H'%Hpos]%lookup_delete_Some. case_decide; lia.
Qed.

(** ** Preservation *)

Lemma ok_update i f db : keeps_key f → keeps_pinned f → index_ok db → index_ok (update_entry i f db).
Proof.
  intros Hk Hp Hok. split.
  - intros j e (e0 & He & ->)%update_entry_lookup. apply (ok_id db Hok) in He.
    case_decide; [|done]. by rewrite (proj1 (Hk e0)).
  - intros j k a b (a0 & Ha & ->)%update_entry_lookup (b0 & Hb & ->)%update_entry_lookup.
    destruct (Hk a0) as (_ & K1 & K2 & K3), (Hk b0) as (_ & K4 & K5 & K6).
    intros. apply (ok_unique db Hok j k a0 b0); try done; repeat case_decide; congruence.
  - intros j p n l Hl. rewrite update_entry_dom. by apply (ok_lease db Hok _ p n).
  - intros j e (e0 & He & ->)%update_entry_lookup. cbn. apply (ok_pinned db Hok) in He.
    case_decide; [by rewrite Hp|done].
Qed.

(** New leases for the entry [i], and its count made to agree. *)
Lemma ok_leases i ls db : index_ok db →
  (∀ j p n l, ls !! (j, p, n) = Some l → is_Some (entries db !! j) ∧ (1 ≤ refcount l)%Z) →
  (∀ j, j ≠ i → refs_of j ls = refs_of j (leases db)) →
  index_ok (refresh_pinned i {| entries := entries db; leases := ls |}).
Proof.
  intros Hok Hls Hrefs. split.
  - intros j e (e0 & He & ->)%update_entry_lookup. apply (ok_id db Hok) in He. by case_decide.
  - intros j k a b (a0 & Ha & ->)%update_entry_lookup (b0 & Hb & ->)%update_entry_lookup H1 H2 H3.
    apply (ok_unique db Hok j k a0 b0); try done; by repeat case_decide.
  - intros j p n l Hl. unfold refresh_pinned. rewrite update_entry_dom. by apply (Hls j p n).
  - intros j e (e0 & He & ->)%update_entry_lookup. cbn in He |- *.
    destruct (decide (i = j)) as [->|Hij]; [done|]. rewrite Hrefs by done. by apply (ok_pinned db Hok).
Qed.

Section Steps.
Context {HS : Sha256} {HU : UnicodeAlnum} `{HIOk : !HashIterOk HI}.

Lemma elem_of_rows db e : index_ok db → e ∈ rows db ↔ entries db !! id e = Some e.
Proof.
  intros Hok. unfold rows. rewrite (hm_iter_perm (entries db)). rewrite list_elem_of_fmap. split.
  - intros ([i e'] & -> & Hin%elem_of_map_to_list). cbn. destruct (ok_id db Hok _ _ Hin) as [-> _]. done.
  - intros He. exists (id e, e). split; [done|]. by apply elem_of_map_to_list.
Qed.

Lemma lookup_key_Some k h v db e : index_ok db → lookup_key k h v db = Some e →
  entries db !! id e = Some e ∧ same_key k h v e.
Proof.
  intros Hok ([n e'] & H & ->)%fmap_Some. apply list_find_Some in H as (H & Hk & _). cbn. split; [|done].
  apply elem_of_rows; [done|]. by eapply list_elem_of_lookup_2.
Qed.

Lemma lookup_key_None k h v db : index_ok db → lookup_key k h v db = None →
  ∀ i e, entries db !! i = Some e → ¬ same_key k h v e.
Proof.
  intros Hok H i e He. apply fmap_None, list_find_None in H. apply (proj1 (Forall_forall _ _) H).
  apply elem_of_rows; [done|]. by destruct (ok_id db Hok i e He) as [-> _].
Qed.

Lemma lookup_key_found k h v db i e : index_ok db → entries db !! i = Some e → same_key k h v e →
  lookup_key k h v db = Some e.
Proof.
  intros Hok He (H1 & H2 & H3). destruct (lookup_key k h v db) as [e'|] eqn:E.
  - apply lookup_key_Some in E as (He' & H1' & H2' & H3'); [|done]. f_equal.
    assert (i = id e') as ->; [|by simplify_eq]. apply (ok_unique db Hok i (id e') e e'); congruence.
  - by destruct (lookup_key_None k h v db Hok E i e He).
Qed.

Lemma le_max_id db i e : entries db !! i = Some e → (i ≤ max_id db)%Z.
Proof.
  intros He. assert (i ∈ (map_to_list (entries db)).*1) as Hin.
  { apply list_elem_of_fmap. exists (i, e). split; [done|]. by apply elem_of_map_to_list. }
  unfold max_id. induction (map_to_list (entries db)).*1 as [|j js IH]; [by apply not_elem_of_nil in Hin|].
  cbn. apply elem_of_cons in Hin as [->|Hin%IH]; lia.
Qed.

Lemma max_id_range db : index_ok db → (0 ≤ max_id db ≤ i64_max)%Z.
Proof.
  intros Hok. assert (Forall (λ i, 1 ≤ i ≤ i64_max)%Z (map_to_list (entries db)).*1) as H.
  { apply Forall_fmap, Forall_forall. intros [i e] Hin%elem_of_map_to_list. by destruct (ok_id db Hok _ _ Hin). }
  unfold max_id. induction H as [|j js Hj _ IH]; cbn; unfold i64_max in *; lia.
Qed.

Lemma ok_insert i e db : index_ok db → entries db !! i = None → id e = i → (1 ≤ i ≤ i64_max)%Z →
  pinned e = 0%Z → (∀ j e', entries db !! j = Some e' → ¬ same_key (kind e) (hash e) (version e) e') →
  index_ok {| entries := <[i := e]> (entries db); leases := leases db |}.
Proof.
  intros Hok Hi Hid Hr Hp Hk. split; cbn.
  - intros j e' [(-> & <-)|(? & H)]%lookup_insert_Some; [done|]. by apply (ok_id db Hok).
  - intros j k a b [(<- & <-)|(? & Ha)]%lookup_insert_Some [(<- & <-)|(? & Hb)]%lookup_insert_Some H1 H2 H3.
    + done.
    + by destruct (Hk _ _ Hb).
    + by destruct (Hk _ _ Ha).
    + by apply (ok_unique db Hok j k a b).
  - intros j p n l Hl. destruct (ok_lease db Hok _ _ _ _ Hl) as [Hs ?]. split; [|done].
    apply lookup_insert_is_Some. destruct (decide (i = j)); [by left|by right].
  - intros j e' [(-> & <-)|(? & H)]%lookup_insert_Some; [|by apply (ok_pinned db Hok)].
    rewrite Hp. symmetry. apply refs_of_zero. intros p n.
    destruct (leases db !! (j, p, n)) eqn:E; [exfalso|done].
    apply (ok_lease db Hok) in E as [[? E] _]. by simplify_eq.
Qed.

Lemma ok_upsert k u v now fill db : keeps_key fill → keeps_pinned fill → index_ok db →
  index_ok (upsert k u v now fill db).2.
Proof.
  intros Hf Hp Hok. unfold upsert. destruct (stem_and_hash u) as [s h].
  destruct (lookup_key k h v db) as [old|] eqn:E.
  - apply lookup_key_Some in E as [Ho Hk]; [|done]. cbn [snd].
    assert ({| entries := <[id old := fill (set_used now (use_count old) old)]> (entries db); leases := leases db |}
      = update_entry (id old) (λ e, fill (set_used now (use_count e) e)) db) as ->.
    { unfold update_entry. f_equal. apply map_eq. intros j. destruct (decide (id old = j)) as [<-|Hj].
      - by rewrite lookup_insert_eq, lookup_alter_eq, Ho.
      - by rewrite lookup_insert_ne, lookup_alter_ne. }
    apply ok_update; [|by intros e; rewrite Hp|done].
    intros e. by destruct (Hf (set_used now (use_count e) e)) as (-> & -> & -> & ->).
  - unfold next_id. case_decide as Hm; [done|]. cbn [snd]. pose proof (max_id_range db Hok).
    set (e0 := MkEntry _ _ _ _ _ _ _ _ _ _ _ _ _ _ _ _). destruct (Hf e0) as (Hid & Hk1 & Hk2 & Hk3).
    apply ok_insert; [done| |by rewrite Hid|lia|by rewrite Hp|].
    + destruct (entries db !! (max_id db + 1)%Z) as [e|] eqn:Ee; [|done].
      apply le_max_id in Ee. lia.
    + rewrite Hk1, Hk2, Hk3. apply lookup_key_None; [done|exact E].
Qed.

Lemma ok_pin i p n now db : index_ok db → index_ok (pin i p n now db).2.
Proof.
  intros Hok. unfold pin. destruct (leases db !! (i, p, n)) as [l|] eqn:El; [|case_decide as Hi; [|done]]; cbn [snd].
  - destruct (ok_lease db Hok _ _ _ _ El) as [Hi Hl]. apply ok_leases; [done| |].
    + intros j q k l' [([= <- <- <-] & <-)|(_ & H)]%lookup_insert_Some; [|by apply (ok_lease db Hok) in H].
      split; [done|cbn; lia].
    + intros j Hj. rewrite refs_of_insert. by rewrite decide_False by done.
  - apply ok_leases; [done| |].
    + intros j q k l' [([= <- <- <-] & <-)|(_ & H)]%lookup_insert_Some; [|by apply (ok_lease db Hok) in H].
      split; [done|cbn; lia].
    + intros j Hj. rewrite refs_of_insert. by rewrite decide_False by done.
Qed.

Lemma ok_unpin i p n db : index_ok db → index_ok (unpin i p n db).
Proof.
  intros Hok. unfold unpin. destruct (leases db !! (i, p, n)) as [l|] eqn:El.
  - destruct (ok_lease db Hok _ _ _ _ El) as [Hi Hl]. case_decide as Hr; apply ok_leases; try done.
    + intros j q k l' [_ H]%lookup_delete_Some. by apply (ok_lease db Hok) in H.
    + intros j Hj. rewrite refs_of_delete. rewrite decide_False by done. lia.
    + intros j q k l' [([= <- <- <-] & <-)|(_ & H)]%lookup_insert_Some; [|by apply (ok_lease db Hok) in H].
      split; [done|cbn; lia].
    + intros j Hj. rewrite refs_of_insert. by rewrite decide_False by done.
  - apply ok_leases; [done| |done]. intros j q k l' H. by apply (ok_lease db Hok) in H.
Qed.

Lemma ok_delete_entry i db : index_ok db → index_ok (delete_entry i db).
Proof.
  intros Hok. split; cbn.
  - intros j e [_ H]%lookup_delete_Some. by apply (ok_id db Hok).
  - intros j k a b [_ Ha]%lookup_delete_Some [_ Hb]%lookup_delete_Some. by apply (ok_unique db Hok).
  - intros j p n l [H Hj]%map_lookup_filter_Some. cbn in Hj. destruct (ok_lease db Hok _ _ _ _ H). split; [|done].
    by rewrite lookup_delete_ne.
  - intros j e [Hj He]%lookup_delete_Some. rewrite refs_of_filter_other by done. by apply (ok_pinned db Hok).
Qed.

Lemma dead_pids_spec alive db p : p ∈ dead_pids alive db ↔
  alive (p mod 2 ^ 32)%Z = false ∧ ∃ i n l, leases db !! (i, p, n) = Some l.
Proof.
  unfold dead_pids. rewrite list_elem_of_filter, elem_of_remove_dups, list_elem_of_fmap. apply and_iff_compat_l.
  split.
  - intros ([[[i p'] n] l] & -> & H%elem_of_map_to_list). by exists i, n, l.
  - intros (i & n & l & H). exists (i, p, n, l). split; [done|]. by apply elem_of_map_to_list.
Qed.

Lemma ok_reap alive db : index_ok db → index_ok (reap_dead_leases alive db).2.
Proof.
  intros Hok. unfold reap_dead_leases. cbn [snd]. case_decide as Hd.
  - split; cbn.
    + intros i e. rewrite map_lookup_imap. intros (e0 & He & [= <-])%bind_Some. by apply (ok_id db Hok) in He.
    + intros i j a b. rewrite !map_lookup_imap. intros (a0 & Ha & [= <-])%bind_Some (b0 & Hb & [= <-])%bind_Some.
      intros H1 H2 H3. by apply (ok_unique db Hok i j a0 b0).
    + intros i p n l [H _]%map_lookup_filter_Some. destruct (ok_lease db Hok _ _ _ _ H) as [[e He] ?]. split; [|done].
      rewrite map_lookup_imap, He. by eexists.
    + intros i e. rewrite map_lookup_imap. by intros (e0 & He & [= <-])%bind_Some.
  - destruct (dead_pids alive db); [|cbn in Hd; lia].
    assert (filter (λ l : lease_key * LeaseRow, l.1.1.2 ∉ []) (leases db) = leases db) as ->.
    { apply map_filter_id. intros k l _. apply not_elem_of_nil. }
    by destruct db.
Qed.

(** ** Runs *)

Inductive index_op :=
  | ORecordArchive (k : Kind) (u v path : str) (bytes : Z) (sha : str) (now : Z)
  | ORecordInstall (k : Kind) (u v path : str) (bytes now : Z)
  | OTouch (i now : Z)
  | OAcquire (i pid nonce now : Z)
  | ODrop (l : Lease)
  | OClearInstalled (i : Z)
  | OClearArchive (i : Z)
  | ODelete (i : Z)
  | OReap (alive : Z → bool).

Definition index_step (o : index_op) (db : CacheIndex) : CacheIndex :=
  match o with
  | ORecordArchive k u v p b sha now => (record_archive k u v p b sha now db).2
  | ORecordInstall k u v p b now => (record_install k u v p b now db).2
  | OTouch i now => touch i now db
  | OAcquire i pid nonce now => (lease_acquire i pid nonce now db).2
  | ODrop l => lease_drop l db
  | OClearInstalled i => clear_installed i db
  | OClearArchive i => clear_archive i db
  | ODelete i => delete_entry i db
  | OReap alive => (reap_dead_leases alive db).2
  end.

Lemma ok_step o db : index_ok db → index_ok (index_step o db).
Proof.
  intros Hok. destruct o; cbn [index_step].
  - by apply ok_upsert.
  - by apply ok_upsert.
  - by apply ok_update.
  - unfold lease_acquire. pose proof (ok_pin i pid nonce now db Hok) as H. by destruct (pin i pid nonce now db).
  - by apply ok_unpin.
  - by apply ok_update.
  - by apply ok_update.
  - by apply ok_delete_entry.
  - by apply ok_reap.
Qed.

Lemma index_ok_run ops db : index_ok db → index_ok (foldl (λ db o, index_step o db) db ops).
Proof. revert db. induction ops as [|o ops IH]; intros db Hok; [done|]. cbn. by apply IH, ok_step. Qed.

(** the index stays consistent.  Whatever operations are run on a fresh
    index, by however many processes, ids and unique keys identify rows, no
    lease outlives its entry, and the pin count the collector looks at is the
    number of references held. *)
Theorem index_run_ok ops : index_ok (foldl (λ db o, index_step o db) empty_index ops).
Proof. apply index_ok_run, index_ok_empty. Qed.

(** ** Leases *)

Lemma refresh_pinned_id i db : (∀ e, entries db !! i = Some e → pinned e = refs_of i (leases db)) →
  refresh_pinned i db = db.
Proof.
  intros H. unfold refresh_pinned, update_entry. destruct db as [es ls]. cbn in *. f_equal.
  apply map_eq. intros j. destruct (decide (i = j)) as [<-|Hj]; [|by rewrite lookup_alter_ne].
  rewrite lookup_alter_eq. destruct (es !! i) as [e|]; [|done]. cbn. f_equal.
  destruct e. unfold set_pinned. cbn. by rewrite <- (H _ eq_refl).
Qed.

Lemma refresh_pinned_twice i ls db :
  refresh_pinned i {| entries := entries (refresh_pinned i db); leases := ls |} =
  refresh_pinned i {| entries := entries db; leases := ls |}.
Proof.
  unfold refresh_pinned, update_entry. cbn. f_equal. apply map_eq. intros j.
  destruct (decide (i = j)) as [<-|Hj]; [|by rewrite !lookup_alter_ne].
  rewrite !lookup_alter_eq. by destruct (entries db !! i).
Qed.

(** a lease leaves no trace: dropping what [acquire] returned gives back
    the very same index, whatever other references the process, or another,
    holds on the entry. *)
Theorem lease_roundtrip i pid nonce now db l db' : index_ok db →
  lease_acquire i pid nonce now db = (Ok l, db') → lease_drop l db' = db.
Proof.
  intros Hok. unfold lease_acquire, pin.
  destruct (leases db !! (i, pid, nonce)) as [l0|] eqn:E; [|case_decide; [|done]];
    intros [= <- <-]; unfold lease_drop, unpin; cbn [l_entry_id l_holder_pid l_holder_nonce];
    cbn [leases refresh_pinned update_entry]; rewrite lookup_insert_eq; cbn [refcount acquired_at].
  - destruct (ok_lease db Hok _ _ _ _ E) as [_ Hl]. rewrite decide_False by lia. rewrite insert_insert_eq.
    rewrite (refresh_pinned_twice i _ {| entries := entries db; leases := _ |}). cbn [entries].
    assert ({| refcount := refcount l0 + 1 - 1; acquired_at := acquired_at l0 |} = l0) as ->.
    { destruct l0. cbn. f_equal. lia. }
    rewrite insert_id by done. destruct db. apply refresh_pinned_id, (ok_pinned _ Hok).
  - rewrite decide_True by lia. rewrite delete_insert_id by done.
    rewrite (refresh_pinned_twice i _ {| entries := entries db; leases := _ |}). cbn [entries].
    destruct db. apply refresh_pinned_id, (ok_pinned _ Hok).
Qed.

Lemma unpinned_iff db e : index_ok db → entries db !! id e = Some e →
  pinned e = 0%Z ↔ ∀ p n, leases db !! (id e, p, n) = None.
Proof. intros Hok He. rewrite (ok_pinned db Hok _ _ He). by apply refs_of_none, ok_positive. Qed.

(** ** Eviction candidates *)

#[global] Instance older_total : Total older.
Proof. intros a b. unfold older. lia. Qed.
#[global] Instance older_trans : Transitive older.
Proof. intros a b c. unfold older. lia. Qed.

Definition evictable (path : CacheEntry → option str) (db : CacheIndex) (e : CacheEntry) : Prop :=
  entries db !! id e = Some e ∧ is_Some (path e) ∧ ∀ p n, leases db !! (id e, p, n) = None.

Lemma elem_of_candidates path db e : index_ok db →
  e ∈ merge_sort older (filter (λ e, is_Some (path e) ∧ pinned e = 0%Z) (rows db)) ↔ evictable path db e.
Proof.
  intros Hok. rewrite (merge_sort_Permutation older). rewrite list_elem_of_filter, elem_of_rows by done.
  unfold evictable. split.
  - intros ((H1 & H2) & H3). by rewrite <- (unpinned_iff db e Hok H3).
  - intros (H1 & H2 & H3). rewrite (unpinned_iff db e Hok H1). done.
Qed.

Lemma rows_NoDup db : index_ok db → NoDup (rows db).
Proof.
  intros Hok. apply (NoDup_fmap_1 id). unfold rows.
  assert (id <$> (hm_iter (entries db)).*2 = (hm_iter (entries db)).*1) as ->.
  { assert (Forall (λ ie : Z * CacheEntry, id ie.2 = ie.1) (hm_iter (entries db))) as H.
    { apply Forall_forall. intros [i e]. rewrite (hm_iter_perm (entries db)), elem_of_map_to_list.
      by intros [? _]%(ok_id db Hok). }
    induction H as [|[i e] l Hi _ IH]; [done|]. cbn in *. by rewrite Hi, IH. }
  rewrite (hm_iter_perm (entries db)). apply NoDup_fst_map_to_list.
Qed.

(** Rows that are in the index are told apart by their ids. *)
Lemma current_ids db es : NoDup es → Forall (λ e, entries db !! id e = Some e) es → NoDup (id <$> es).
Proof.
  intros Hn Hf. apply NoDup_fmap_2_strong; [|done].
  intros a b Ha%(proj1 (Forall_forall _ _) Hf) Hb%(proj1 (Forall_forall _ _) Hf) E. rewrite E in Ha. by simplify_eq.
Qed.

Lemma rows_current db : index_ok db → Forall (λ e, entries db !! id e = Some e) (rows db).
Proof. intros Hok. apply Forall_forall. intros e He. by apply elem_of_rows. Qed.

(** the LRU query is exact.  It lists, without repetition and least
    recently used first, entries that have the path and that nobody holds;
    and one it leaves out, having a path and no holder, was used no earlier
    than everything listed, the list being full. *)
Theorem lru_spec path limit db : index_ok db →
  let es := lru path limit db in
  NoDup es ∧ Sorted older es ∧ Forall (evictable path db) es ∧
  ∀ e, evictable path db e → e ∉ es → length es = limit ∧ Forall (λ e', older e' e) es.
Proof.
  intros Hok es. set (all := merge_sort older (filter (λ e, is_Some (path e) ∧ pinned e = 0%Z) (rows db))) in *.
  assert (NoDup all) as Hnd.
  { subst all. rewrite (merge_sort_Permutation older). apply NoDup_filter, rows_NoDup. done. }
  pose proof (StronglySorted_merge_sort older (filter (λ e, is_Some (path e) ∧ pinned e = 0%Z) (rows db))) as Hs.
  fold all in Hs. assert (es = take limit all) as Ees by done. clearbody es. subst es.
  rewrite <- (take_drop limit all) in Hnd, Hs. apply NoDup_app in Hnd as (Hnd & _ & _).
  split_and!; [done| | |].
  - apply StronglySorted_Sorted. by apply StronglySorted_app_1_l in Hs.
  - apply Forall_take, Forall_forall. intros e. by apply elem_of_candidates.
  - intros e He Hout. apply elem_of_candidates in He; [|done]. fold all in He.
    rewrite <- (take_drop limit all) in He. apply elem_of_app in He as [?|He]; [done|].
    split.
    + rewrite length_take. apply list_elem_of_lookup in He as [n Hn]. rewrite lookup_drop in Hn.
      apply lookup_lt_Some in Hn. lia.
    + apply Forall_forall. intros e' He'. by apply (StronglySorted_app_1_elem_of older _ _ _ _ Hs).
Qed.
End Steps.

(** ** An example *)

#[local] Existing Instance sample_digest.
#[local] Instance all_alnum : UnicodeAlnum := λ _, true.

Definition sample_ops : list index_op :=
  [ORecordInstall Packages (&"https://x.org/a.zip") (&"1") (&"installed/a") 100 1;
   ORecordInstall Packages (&"https://x.org/a.zip") (&"2") (&"installed/b") 200 2;
   ORecordArchive Packages (&"https://x.org/a.zip") (&"2") (&"archives/b") 50 (&"00") 3;
   ORecordInstall Packages (&"https://x.org/a.zip") (&"3") (&"installed/c") 400 4;
   OAcquire 2 7 1 5; OAcquire 2 7 1 6; OAcquire 2 9 1 6].

Definition sample_index : CacheIndex := foldl (λ db o, index_step o db) empty_index sample_ops.

Lemma sample_index_ok : index_ok sample_index.
Proof. apply index_ok_run, index_ok_empty. Qed.

Lemma index_run_ok_witness : pinned <$> (entries sample_index !! 2%Z) = Some 3%Z ∧ index_ok sample_index.
Proof. split; [by vm_compute|]. exact (index_run_ok sample_ops). Defined.

Lemma lease_roundtrip_witness : ∃ l db', lease_acquire 2 7 1 9 sample_index = (Ok l, db') ∧
  pinned <$> (entries db' !! 2%Z) = Some 4%Z ∧ lease_drop l db' = sample_index.
Proof.
  destruct (lease_acquire 2 7 1 9 sample_index) as [r db'] eqn:E.
  assert ((lease_acquire 2 7 1 9 sample_index).1 = Ok {| l_entry_id := 2; l_holder_pid := 7; l_holder_nonce := 1 |}) as Hr
    by by vm_compute.
  assert (pinned <$> (entries (lease_acquire 2 7 1 9 sample_index).2 !! 2%Z) = Some 4%Z) as Hp by by vm_compute.
  rewrite E in Hr, Hp. cbn in Hr, Hp. subst r. eexists _, db'. split; [done|]. split; [done|].
  exact (lease_roundtrip 2 7 1 9 sample_index _ db' sample_index_ok E).
Defined.

Lemma lru_spec_witness : id <$> lru_installed_entries 1 sample_index = [1%Z] ∧
  Sorted older (lru_installed_entries 1 sample_index).
Proof.
  split; [by vm_compute|].
  exact (proj1 (proj2 (lru_spec installed_path 1 sample_index sample_index_ok))).
Defined.
