(* ===== verification/CacheGc.v ===== *)
(** * [fbuild-packages-fetch/src/disk_cache/budget.rs] and [gc.rs]: collection

    The size budgets and [run_gc], which evicts unpinned entries, least
    recently used first: installed directories, then archives. *)
From S2P Require Import Prelude RustStr CachePaths CacheIndex.
From Stdlib Require Import Floats.SpecFloat.
(** ** The directory tree the cache works on

    The part of [std::fs] the cache uses: a finite map from absolute paths to
    nodes.  Which removals the operating system refuses is an argument. *)

(** A symbolic link, with what it leads to: nothing, or a directory or not. *)
Inductive Node := File | Dir | Symlink (target : option bool).
#[global] Instance Node_eq_dec : EqDecision Node.
Proof. solve_decision. Defined.

Abbreviation Fs := (gmap str Node).

(** [path.exists()] and [path.is_dir()] follow links. *)
Definition exists_ (p : str) (fs : Fs) : bool :=
  match fs !! p with Some (Symlink None) | None => false | Some _ => true end.
Definition is_dir (p : str) (fs : Fs) : bool :=
  match fs !! p with Some Dir | Some (Symlink (Some true)) => true | _ => false end.

(** [q] is [p] or inside it. *)
Definition within (p q : str) : bool := bool_decide (q = p) || starts_with (p ++ [slash]) q.

Inductive Removal := Removed | NotFound | Refused.
#[global] Instance Removal_eq_dec : EqDecision Removal.
Proof. solve_decision. Defined.

Definition cut (p : str) (fs : Fs) : Fs := filter (λ n : str * Node, within p n.1 = false) fs.

Section Removals.
Context (denied : str → bool).

(** A link is removed itself; a file is not a directory. *)
Definition remove_dir_all (p : str) (fs : Fs) : Removal * Fs :=
  match fs !! p with
  | None => (NotFound, fs)
  | Some File => (Refused, fs)
  | Some (Symlink _) => if denied p then (Refused, fs) else (Removed, delete p fs)
  | Some Dir => if denied p then (Refused, fs) else (Removed, cut p fs)
  end.

Definition remove_file (p : str) (fs : Fs) : Removal * Fs :=
  match fs !! p with
  | None => (NotFound, fs)
  | Some Dir => (Refused, fs)
  | Some _ => if denied p then (Refused, fs) else (Removed, delete p fs)
  end.
End Removals.

Lemma cut_lookup p q fs n : cut p fs !! q = Some n ↔ fs !! q = Some n ∧ within p q = false.
Proof. unfold cut. rewrite map_lookup_filter_Some. done. Qed.

(** Removals only remove, and only below the path they are given. *)
Lemma remove_dir_all_keeps denied p q fs : within p q = false → (remove_dir_all denied p fs).2 !! q = fs !! q.
Proof.
  intros Hq. assert (q ≠ p) by (intros ->; unfold within in Hq; by rewrite bool_decide_true in Hq).
  unfold remove_dir_all. destruct (fs !! p) as [[| |t]|]; try done; case_match; try done; cbn [snd].
  - apply option_eq. intros n. rewrite cut_lookup. naive_solver.
  - by rewrite lookup_delete_ne.
Qed.

Lemma remove_dir_all_sub denied p fs : (remove_dir_all denied p fs).2 ⊆ fs.
Proof.
  unfold remove_dir_all. destruct (fs !! p) as [[| |t]|]; try done; case_match; try done; cbn [snd].
  - apply map_filter_subseteq.
  - apply delete_subseteq.
Qed.

(** ** Budgets *)

Definition DEFAULT_ARCHIVE_BUDGET : Z := 15 * 1024 * 1024 * 1024.
Definition DEFAULT_INSTALLED_BUDGET : Z := 15 * 1024 * 1024 * 1024.
Definition DEFAULT_HIGH_WATERMARK : Z := 30 * 1024 * 1024 * 1024.

(** The quotient [n / d] rounded to binary64: what a decimal literal or
    [str::parse::<f64>] denotes. *)
Definition f64_ratio (n d : Z) : f64 :=
  match n, d with
  | Z.pos n, Z.pos d =>
      let '(mz, ez, lz) := SFdiv_core_binary 53 1024 (Z.pos n) 0 (Z.pos d) 0 in
      binary_round_aux 53 1024 false mz ez lz
  | _, _ => S754_zero false
  end.

Definition PHASE_DISK_PERCENT : f64 := f64_ratio 5 100.
Definition COMBINED_DISK_PERCENT : f64 := f64_ratio 10 100.
Definition LOW_WATERMARK_RATIO : f64 := f64_ratio 80 100.

Record CacheBudget := { archive_budget : Z; installed_budget : Z; high_watermark : Z; low_watermark : Z }.

(** [num_part.parse::<f64>()] on digits and dots: one digit at least, one dot
    at most. *)
Definition decimal_value (ds : str) : Z :=
  foldl (λ n c, 10 * n + (Z.of_N (N_of_ascii c) - 48))%Z 0%Z ds.

Definition parse_f64 (s : str) : option f64 :=
  match split_on "." s with
  | [i] => if decide (i = []) then None else Some (f64_ratio (decimal_value i) 1)
  | [i; f] => if decide (i ++ f = []) then None
              else Some (f64_ratio (decimal_value (i ++ f)) (10 ^ Z.of_nat (length f)))
  | _ => None
  end.

(** [str::to_uppercase], as far as the suffixes below can tell: besides the
    ASCII letters only the dotless [i] (C4 B1) has an ASCII capital. *)
Definition upper_char (c : ascii) : ascii :=
  if in_range "a" "z" c then ascii_of_N (N_of_ascii c - 32) else c.
Fixpoint to_uppercase (s : str) : str :=
  match s with
  | [] => []
  | c :: s' =>
      match s' with
      | d :: s'' =>
          if decide (c = byte_of 196 ∧ d = byte_of 177) then "I"%char :: to_uppercase s''
          else upper_char c :: to_uppercase s'
      | [] => [upper_char c]
      end
  end.

Definition multiplier (suffix : str) : option Z :=
  if decide (suffix ∈ [[]; &"B"]) then Some 1%Z
  else if decide (suffix ∈ [&"K"; &"KB"; &"KIB"]) then Some (2 ^ 10)%Z
  else if decide (suffix ∈ [&"M"; &"MB"; &"MIB"]) then Some (2 ^ 20)%Z
  else if decide (suffix ∈ [&"G"; &"GB"; &"GIB"]) then Some (2 ^ 30)%Z
  else if decide (suffix ∈ [&"T"; &"TB"; &"TIB"]) then Some (2 ^ 40)%Z
  else None.

Fixpoint number_part (s : str) : str * str :=
  match s with
  | c :: s' => if is_ascii_digit c || bool_decide (c = "."%char)
               then let '(n, r) := number_part s' in (c :: n, r) else ([], s)
  | [] => ([], [])
  end.

Definition parse_human_size (s : str) : option Z :=
  let s := trim s in
  if decide (s = []) then None
  else
    let '(num_part, rest) := number_part s in
    num ← parse_f64 num_part;
    match num with
    | S754_infinity _ | S754_nan => None
    | _ => m ← multiplier (to_uppercase (trim rest)); Some (f64_as_u64 (f64_mul num (f64_of_Z m)))
    end.

(** [env] is the process environment. *)
Definition parse_env_size (env : str → option str) (var : str) : option Z := env var ≫= parse_human_size.

Definition compute_with_disk_size (env : str → option str) (total_disk : Z) : CacheBudget :=
  let phase_by_disk := f64_as_u64 (f64_mul (f64_of_Z total_disk) PHASE_DISK_PERCENT) in
  let combined_by_disk := f64_as_u64 (f64_mul (f64_of_Z total_disk) COMBINED_DISK_PERCENT) in
  let high := default (DEFAULT_HIGH_WATERMARK `min` combined_by_disk)%Z
    (parse_env_size env (&"FBUILD_CACHE_HIGH_WATERMARK")) in
  {| archive_budget := default (DEFAULT_ARCHIVE_BUDGET `min` phase_by_disk)%Z
       (parse_env_size env (&"FBUILD_CACHE_ARCHIVE_BUDGET"));
     installed_budget := default (DEFAULT_INSTALLED_BUDGET `min` phase_by_disk)%Z
       (parse_env_size env (&"FBUILD_CACHE_INSTALLED_BUDGET"));
     high_watermark := high;
     low_watermark := f64_as_u64 (f64_mul (f64_of_Z high) LOW_WATERMARK_RATIO) |}.

(** [total_space] is the platform's answer, if it has one. *)
Definition get_total_disk_space (total_space : option Z) : Z := default (500 * 1024 * 1024 * 1024)%Z total_space.
Definition compute (env : str → option str) (total_space : option Z) : CacheBudget :=
  compute_with_disk_size env (get_total_disk_space total_space).

Example parse_human_size_demo :
  parse_human_size <$> [&" 15G"; &"1.5 kib"; &"0.1M"; &"1024"; &"."; &"3X"; &"99999999TB"]
  = [Some 16106127360; Some 1536; Some 104857; Some 1024; None; None; Some u64_max]%Z.
Proof. by vm_compute. Qed.

Example compute_demo :
  compute_with_disk_size (λ v, if decide (v = &"FBUILD_CACHE_ARCHIVE_BUDGET") then Some (&"1G") else None) (100 * 2 ^ 30) =
  {| archive_budget := 2 ^ 30; installed_budget := 5 * 2 ^ 30; high_watermark := 10 * 2 ^ 30; low_watermark := 8 * 2 ^ 30 |}%Z.
Proof. by vm_compute. Qed.

(** ** Collection *)

Definition u64 (n : Z) : Z := n mod 2 ^ 64.

Record GcReport := MkReport {
  installed_evicted : Z;
  installed_bytes_freed : Z;
  archives_evicted : Z;
  archive_bytes_freed : Z;
  leases_reaped : Z;
  orphan_files_removed : Z;
  orphan_rows_cleaned : Z;
}.

Definition total_bytes_freed (r : GcReport) : Z := u64 (installed_bytes_freed r + archive_bytes_freed r).

Definition count_installed (bytes : Z) (r : GcReport) : GcReport :=
  MkReport (u64 (installed_evicted r + 1)) (u64 (installed_bytes_freed r + bytes)) (archives_evicted r)
    (archive_bytes_freed r) (leases_reaped r) (orphan_files_removed r) (orphan_rows_cleaned r).
Definition count_archive (bytes : Z) (r : GcReport) : GcReport :=
  MkReport (installed_evicted r) (installed_bytes_freed r) (u64 (archives_evicted r + 1))
    (u64 (archive_bytes_freed r + bytes)) (leases_reaped r) (orphan_files_removed r) (orphan_rows_cleaned r).

Section Gc.
Context {HS : Sha256} {HU : UnicodeAlnum} `{HI : HashIter}.
Context (root : str) (denied : str → bool).

(** The index, the disk, and the report. *)
Record World := { db : CacheIndex; fs : Fs; report : GcReport }.

Definition full_path (p : str) : str := path_join root p.

Definition remove_path (p : str) (f : Fs) : Removal * Fs :=
  if is_dir p f then remove_dir_all denied p f else remove_file denied p f.

(** The body of the first loop for one entry: [None] is [continue]. *)
Definition evict_installed (e : CacheEntry) (w : World) : option World :=
  let bytes := u64 (default 0%Z (installed_bytes e)) in
  let '(r, f) := match installed_path e with
                 | Some p => remove_dir_all denied (full_path p) (fs w)
                 | None => (Removed, fs w)
                 end in
  if decide (r = Refused) then None
  else
    let d := clear_installed (id e) (db w) in
    let d := match archive_path e with None => delete_entry (id e) d | Some _ => d end in
    Some {| db := d; fs := f; report := count_installed bytes (report w) |}.

Definition evict_archive (e : CacheEntry) (w : World) : option World :=
  let bytes := u64 (default 0%Z (archive_bytes e)) in
  let '(r, f) := match archive_path e with
                 | Some p => remove_path (full_path p) (fs w)
                 | None => (Removed, fs w)
                 end in
  if decide (r = Refused) then None
  else
    let d := clear_archive (id e) (db w) in
    let d := match installed_path e with None => delete_entry (id e) d | Some _ => d end in
    Some {| db := d; fs := f; report := count_archive bytes (report w) |}.

(** The first loop, with the running total [installed_bytes]. *)
Fixpoint evict_installed_loop (target : Z) (es : list CacheEntry) (total : Z) (w : World) : Z * World :=
  match es with
  | [] => (total, w)
  | e :: es =>
      if decide (total ≤ target)%Z then (total, w)
      else match evict_installed e w with
           | None => evict_installed_loop target es total w
           | Some w =>
               evict_installed_loop target es
                 (saturating_sub total (u64 (default 0%Z (installed_bytes e)))) w
           end
  end.

(** The second loop, with [archive_bytes] and [total_bytes]. *)
Fixpoint evict_archive_loop (b : CacheBudget) (es : list CacheEntry) (archive total : Z) (w : World) : World :=
  match es with
  | [] => w
  | e :: es =>
      if decide (archive ≤ archive_budget b ∧ total ≤ high_watermark b)%Z then w
      else match evict_archive e w with
           | None => evict_archive_loop b es archive total w
           | Some w =>
               let bytes := u64 (default 0%Z (archive_bytes e)) in
               evict_archive_loop b es (saturating_sub archive bytes) (saturating_sub total bytes) w
           end
  end.

Definition gc_limit : nat := 1000.

Definition gc_installed (b : CacheBudget) (installed total : Z) (w : World) : Z * World :=
  if decide (installed_budget b < installed ∨ high_watermark b < total)%Z then
    let target := (low_watermark b `min` installed_budget b)%Z in
    evict_installed_loop target (lru_installed_entries gc_limit (db w)) installed w
  else (installed, w).

Definition gc_archives (b : CacheBudget) (archive total : Z) (w : World) : World :=
  if decide (archive_budget b < archive ∨ high_watermark b < total)%Z then
    evict_archive_loop b (lru_archive_entries gc_limit (db w)) archive total w
  else w.

Definition new_report (reaped : nat) : GcReport := MkReport 0 0 0 0 (Z.of_nat reaped) 0 0.

(** What has been done when a query fails stays done. *)
Definition run_gc (alive : Z → bool) (b : CacheBudget) (d : CacheIndex) (f : Fs) : result sql_error GcReport * (CacheIndex * Fs) :=
  let '(reaped, d) := reap_dead_leases alive d in
  match total_installed_bytes d with
  | Err e => (Err e, (d, f))
  | Ok i =>
      match total_archive_bytes d with
      | Err e => (Err e, (d, f))
      | Ok a =>
          let installed := (i `max` 0)%Z in
          let total := u64 (a `max` 0 + installed) in
          let '(installed, w) := gc_installed b installed total {| db := d; fs := f; report := new_report reaped |} in
          match total_archive_bytes (db w) with
          | Err e => (Err e, (db w, fs w))
          | Ok a =>
              let archive := (a `max` 0)%Z in
              let w := gc_archives b archive (u64 (archive + installed)) w in
              (Ok (report w), (db w, fs w))
          end
      end
  end.
End Gc.
