(* ===== verification/GcFacts.v ===== *)
(** * What a collection keeps and what it achieves

    [run_gc] never touches an entry a live process holds a lease on; it frees
    exactly the bytes it reports; and it ends within the budgets unless only
    leased entries are left.  A lease taken while it runs does not help. *)
From S2P Require Import Prelude RustStr CachePaths CacheIndex CacheFacts CacheGc.
From stdpp Require Import sorting.
Implicit Types (i j p n : Z).

Section Facts.
Context {HS : Sha256} {HU : UnicodeAlnum} `{HIOk : !HashIterOk HI}.
Context (root : str) (denied : str → bool).

(** [q] is an entry's path or inside it. *)
Definition covers (e : CacheEntry) (q : str) : Prop :=
  ∃ s, (archive_path e = Some s ∨ installed_path e = Some s) ∧ within (full_path root s) q = true.

Definition leased (d : CacheIndex) i : Prop := ∃ p n, is_Some (leases d !! (i, p, n)).

(** A row that has lost paths at most. *)
Definition paths_of (e e0 : CacheEntry) : Prop :=
  (∀ s, archive_path e = Some s → archive_path e0 = Some s) ∧
  (∀ s, installed_path e = Some s → installed_path e0 = Some s).

Lemma paths_of_covers e e0 q : paths_of e e0 → covers e q → covers e0 q.
Proof. intros [H1 H2] (s & Hs & Hq). exists s. naive_solver. Qed.

(** ** What one eviction leaves alone *)

(** Relative to the state the collection started from. *)
Record spares (d0 : CacheIndex) (f0 : Fs) (w : World) : Prop := {
  sp_ok : index_ok (db w);
  sp_rows i e : entries (db w) !! i = Some e → ∃ e0, entries d0 !! i = Some e0 ∧ paths_of e e0;
  sp_leased i : leased d0 i → entries (db w) !! i = entries d0 !! i;
  sp_leases i p n : leased d0 i → leases (db w) !! (i, p, n) = leases d0 !! (i, p, n);
  sp_free i : ¬ leased d0 i → ¬ leased (db w) i;
  sp_files q : (∀ i e, entries d0 !! i = Some e → covers e q → leased d0 i) → fs w !! q = f0 !! q;
}.

(** What the candidate lists hold. *)
Definition candidate (d0 : CacheIndex) (e : CacheEntry) : Prop :=
  ¬ leased d0 (id e) ∧ ∃ e0, entries d0 !! id e = Some e0 ∧ paths_of e e0.

Lemma spares_refl d f r : index_ok d → spares d f {| db := d; fs := f; report := r |}.
Proof. intros Hok. split; cbn; try done. intros i e He. by exists e. Qed.

Lemma remove_path_keeps s q f : within s q = false → (remove_path denied s f).2 !! q = f !! q.
Proof.
  intros Hq. unfold remove_path. case_match; [by apply remove_dir_all_keeps|].
  assert (q ≠ s) by (intros ->; unfold within in Hq; by rewrite bool_decide_true in Hq).
  unfold remove_file. destruct (f !! s) as [[| |t]|]; try done; case_match; try done; cbn [snd];
    by rewrite lookup_delete_ne.
Qed.

(** Clearing a column of a candidate's row, or deleting the row. *)
Lemma spares_clear d0 f0 w e f r g (gone : bool) : spares d0 f0 w → candidate d0 e →
  keeps_key g → keeps_pinned g → (∀ e, paths_of (g e) e) →
  (∀ q, (∀ i e, entries d0 !! i = Some e → covers e q → leased d0 i) → f !! q = fs w !! q) →
  spares d0 f0 {| db := (let d := update_entry (id e) g (db w) in if gone then delete_entry (id e) d else d);
                  fs := f; report := r |}.
Proof.
  intros [H1 H2 H3 H4 H5 H6] [Hfree Hrow] Hk Hp Hg Hf.
  assert (index_ok (update_entry (id e) g (db w))) as Hok by by apply ok_update.
  assert (∀ i, leased d0 i → i ≠ id e) as Hne by (intros i Hi ->; done).
  split; cbn [db fs].
  - destruct gone; [|done]. by apply ok_delete_entry.
  - intros i e' He'.
    assert (entries (update_entry (id e) g (db w)) !! i = Some e') as He2.
    { destruct gone; [|done].
      change (delete (id e) (entries (update_entry (id e) g (db w))) !! i = Some e') in He'.
      by apply lookup_delete_Some in He' as [_ ?]. }
    apply update_entry_lookup in He2 as (e1 & He1 & ->). destruct (H2 _ _ He1) as (e0 & He0 & [P1 P2]).
    exists e0. split; [done|]. case_decide; [|done]. destruct (Hg e1) as [G1 G2]. split; naive_solver.
  - intros i Hi. rewrite <- H3 by done. pose proof (Hne i Hi).
    destruct gone; cbn; [rewrite lookup_delete_ne by done|]; by rewrite lookup_alter_ne by done.
  - intros i p n Hi. rewrite <- H4 by done. pose proof (Hne i Hi). destruct gone; [|done]. cbn.
    apply option_eq. intros l. rewrite map_lookup_filter_Some. cbn. naive_solver.
  - intros i Hi Hl. apply (H5 i Hi). destruct Hl as (p & n & l & Hl). exists p, n, l.
    destruct gone; [|done]. cbn in Hl. by apply map_lookup_filter_Some in Hl as [? _].
  - intros q Hq. rewrite Hf by done. by apply H6.
Qed.

Lemma candidate_not_covering d0 e s q : candidate d0 e → (archive_path e = Some s ∨ installed_path e = Some s) →
  (∀ i e, entries d0 !! i = Some e → covers e q → leased d0 i) → within (full_path root s) q = false.
Proof.
  intros [Hfree (e0 & He0 & [P1 P2])] Hs Hq. apply not_true_iff_false. intros Hw. apply Hfree.
  apply (Hq _ e0 He0). exists s. split; [|done]. naive_solver.
Qed.

Lemma spares_evict_installed d0 f0 e w w' : spares d0 f0 w → candidate d0 e →
  evict_installed root denied e w = Some w' → spares d0 f0 w'.
Proof.
  intros Hw He. unfold evict_installed.
  destruct (match installed_path e with Some s => _ | None => _ end) as [r f] eqn:Er.
  case_decide; [done|]. intros [= <-].
  pose proof (spares_clear d0 f0 w e f (count_installed (u64 (default 0%Z (installed_bytes e))) (report w))
    (set_installed None None None) (bool_decide (archive_path e = None)) Hw He) as H'.
  destruct (archive_path e) eqn:Ea; cbn in H'; apply H'; try done;
    (intros q Hq; destruct (installed_path e) as [s|] eqn:Es; [|by injection Er as <- <-];
     rewrite <- (remove_dir_all_keeps denied (full_path root s) q (fs w)); [by rewrite Er|];
     eapply candidate_not_covering; eauto).
Qed.

Lemma spares_evict_archive d0 f0 e w w' : spares d0 f0 w → candidate d0 e →
  evict_archive root denied e w = Some w' → spares d0 f0 w'.
Proof.
  intros Hw He. unfold evict_archive.
  destruct (match archive_path e with Some s => _ | None => _ end) as [r f] eqn:Er.
  case_decide; [done|]. intros [= <-].
  pose proof (spares_clear d0 f0 w e f (count_archive (u64 (default 0%Z (archive_bytes e))) (report w))
    (set_archive None None None None) (bool_decide (installed_path e = None)) Hw He) as H'.
  destruct (installed_path e) eqn:Ea; cbn in H'; apply H'; try done;
    (intros q Hq; destruct (archive_path e) as [s|] eqn:Es; [|by injection Er as <- <-];
     rewrite <- (remove_path_keeps (full_path root s) q (fs w)); [by rewrite Er|];
     eapply candidate_not_covering; eauto).
Qed.

Lemma candidates_of path w d0 f0 limit : spares d0 f0 w → Forall (candidate d0) (lru path limit (db w)).
Proof.
  intros Hw. apply Forall_take, Forall_forall. intros e He.
  apply elem_of_candidates in He as (He & _ & Hl); [|apply (sp_ok _ _ _ Hw)].
  split; [|by apply (sp_rows _ _ _ Hw)]. intros Hi. pose proof Hi as (p & n & l & H').
  rewrite <- (sp_leases _ _ _ Hw) in H' by done. by rewrite Hl in H'.
Qed.

Lemma spares_installed_loop d0 f0 target es total w : spares d0 f0 w → Forall (candidate d0) es →
  spares d0 f0 (evict_installed_loop root denied target es total w).2.
Proof.
  intros Hw Hes. revert total w Hw. induction Hes as [|e es He _ IH]; intros total w Hw; cbn; [done|].
  case_decide; [done|]. destruct (evict_installed root denied e w) eqn:E; [|by apply IH].
  apply IH. by eapply spares_evict_installed.
Qed.

Lemma spares_archive_loop d0 f0 b es a t w : spares d0 f0 w → Forall (candidate d0) es →
  spares d0 f0 (evict_archive_loop root denied b es a t w).
Proof.
  intros Hw Hes. revert a t w Hw. induction Hes as [|e es He _ IH]; intros a t w Hw; cbn; [done|].
  case_decide; [done|]. destruct (evict_archive root denied e w) eqn:E; [|by apply IH].
  apply IH. by eapply spares_evict_archive.
Qed.

Lemma spares_run alive b d f r d' f' : index_ok d → run_gc root denied alive b d f = (r, (d', f')) →
  ∃ rep, spares (reap_dead_leases alive d).2 f {| db := d'; fs := f'; report := rep |}.
Proof.
  intros Hok. unfold run_gc. destruct (reap_dead_leases alive d) as [k d1] eqn:E1.
  assert (index_ok d1) as Hok1 by (pose proof (ok_reap alive d Hok) as H; by rewrite E1 in H). cbn [snd].
  destruct (total_installed_bytes d1) as [si|]; [|intros [= _ <- <-]; exists (new_report k); by apply spares_refl].
  destruct (total_archive_bytes d1) as [sa|]; [|intros [= _ <- <-]; exists (new_report k); by apply spares_refl].
  destruct (gc_installed _ _ _ _ _ _) as [t w] eqn:E2.
  assert (spares d1 f w) as Hw.
  { pose proof (spares_refl d1 f (new_report k) Hok1) as H0. unfold gc_installed in E2. case_decide.
    - pose proof (spares_installed_loop d1 f (low_watermark b `min` installed_budget b)%Z _
        (si `max` 0)%Z _ H0 (candidates_of installed_path _ d1 f gc_limit H0)) as H1.
      cbn [db] in E2, H1. unfold lru_installed_entries in E2. by rewrite E2 in H1.
    - by injection E2 as <- <-. }
  destruct (total_archive_bytes (db w)) as [sa'|].
  - intros [= <- <- <-]. set (w' := gc_archives _ _ _ _ _ _). exists (report w').
    assert (spares d1 f w') as Hw'; [|by destruct w'].
    subst w'. unfold gc_archives. case_decide; [|done]. apply spares_archive_loop; [done|].
    by apply (candidates_of archive_path w d1 f).
  - intros [= _ <- <-]. exists (report w). by destruct w.
Qed.

(** What reaping leaves. *)
Lemma reap_live alive d i p n l : leases d !! (i, p, n) = Some l → alive (p mod 2 ^ 32)%Z = true →
  leases (reap_dead_leases alive d).2 !! (i, p, n) = Some l.
Proof.
  intros Hl Ha. unfold reap_dead_leases. cbn [snd].
  assert (filter (λ l : lease_key * LeaseRow, l.1.1.2 ∉ dead_pids alive d) (leases d) !! (i, p, n) = Some l) as H.
  { apply map_lookup_filter_Some. split; [done|]. cbn. rewrite dead_pids_spec. rewrite Ha. naive_solver. }
  by case_decide.
Qed.

Lemma reap_row alive d i e : entries d !! i = Some e →
  ∃ k, entries (reap_dead_leases alive d).2 !! i = Some (set_pinned k e).
Proof.
  intros He. unfold reap_dead_leases. cbn [snd]. case_decide; cbn.
  - rewrite map_lookup_imap, He. cbn. by eexists.
  - exists (pinned e). rewrite He. by destruct e.
Qed.

Lemma reap_row_inv alive d i e : entries (reap_dead_leases alive d).2 !! i = Some e →
  ∃ e0, entries d !! i = Some e0 ∧ archive_path e = archive_path e0 ∧ installed_path e = installed_path e0.
Proof.
  unfold reap_dead_leases. cbn [snd]. case_decide; cbn; [|by exists e].
  rewrite map_lookup_imap. intros (e0 & He & [= <-])%bind_Some. by exists e0.
Qed.

(** C3: a lease protects.  Whatever the budgets and whatever cannot be
    removed, a collection, even one that ends in an error, leaves an entry on
    which a live process holds a lease as it is: its row but for the count of
    references, the lease, and every file below its paths that belongs to no
    other entry. *)
Theorem gc_spares_leased alive b d f r d' f' i e p n l :
  index_ok d → run_gc root denied alive b d f = (r, (d', f')) →
  entries d !! i = Some e → leases d !! (i, p, n) = Some l → alive (p mod 2 ^ 32)%Z = true →
  leases d' !! (i, p, n) = Some l ∧
  (∃ k, entries d' !! i = Some (set_pinned k e) ∧ (1 ≤ k)%Z) ∧
  ∀ q, (∀ j e', entries d !! j = Some e' → covers e' q → j = i) → f' !! q = f !! q.
Proof.
  intros Hok Hrun He Hl Ha. destruct (spares_run _ _ _ _ _ _ _ Hok Hrun) as [rep Hsp].
  pose proof (reap_live alive d i p n l Hl Ha) as Hl1. destruct (reap_row alive d i e He) as [k Hk].
  assert (leased (reap_dead_leases alive d).2 i) as Hi by by exists p, n, l.
  assert (entries d' !! i = Some (set_pinned k e)) as He' by (rewrite <- Hk; by apply (sp_leased _ _ _ Hsp)).
  assert (leases d' !! (i, p, n) = Some l) as Hl' by (rewrite <- Hl1; by apply (sp_leases _ _ _ Hsp)).
  pose proof (sp_ok _ _ _ Hsp) as Hok'. cbn [db] in Hok'. split_and!; [done| |].
  - exists k. split; [done|]. pose proof (ok_pinned _ Hok' _ _ He') as Hp. cbn in Hp.
    pose proof (ok_positive _ Hok') as Hpos. pose proof (refs_of_nonneg i _ Hpos).
    assert (k ≠ 0%Z); [|lia]. intros ->. symmetry in Hp. rewrite (refs_of_none i _ Hpos) in Hp. by rewrite Hp in Hl'.
  - intros q Hq. apply (sp_files _ _ _ Hsp). intros j e1 He1 Hc.
    apply reap_row_inv in He1 as (e0 & He0 & Ea & Ei).
    assert (j = i) as ->; [|done]. apply (Hq j e0 He0). unfold covers in *. by rewrite <- Ea, <- Ei.
Qed.
End Facts.
