(* ===== verification/GcEffect.v ===== *)
(** * What a collection achieves

    Each phase evicts the shortest prefix of the LRU list that brings the
    total under its limit.  Together they end within the budgets or with
    nothing but leased entries, and report the bytes they freed. *)
From S2P Require Import Prelude RustStr CachePaths CachePathFacts CacheIndex CacheFacts CacheGc GcFacts.
From stdpp Require Import sorting.
Implicit Types (i j p n x : Z).

Lemma u64_small n : (0 ≤ n ≤ 2 * i64_max)%Z → u64 n = n.
Proof. unfold u64, i64_max. intros H. apply Z.mod_small. lia. Qed.

Lemma u64_add_l a b : u64 (u64 a + b) = u64 (a + b).
Proof. unfold u64. by rewrite Zplus_mod_idemp_l. Qed.

Lemma u64_id n : u64 (u64 n) = u64 n.
Proof. unfold u64. by rewrite Zmod_mod. Qed.

Lemma saturating_sub_exact a b : (b ≤ a)%Z → saturating_sub a b = (a - b)%Z.
Proof. unfold saturating_sub. lia. Qed.

Definition sizes (bytes : CacheEntry → option Z) (es : list CacheEntry) : Z :=
  foldr (λ e s, default 0%Z (bytes e) + s)%Z 0%Z es.

Lemma sizes_cons bytes e es : sizes bytes (e :: es) = (default 0 (bytes e) + sizes bytes es)%Z.
Proof. done. Qed.

Lemma sizes_app bytes a b : sizes bytes (a ++ b) = (sizes bytes a + sizes bytes b)%Z.
Proof. unfold sizes. induction a as [|e a IH]; cbn; [done|]. rewrite IH. lia. Qed.

Definition nonneg (bytes : CacheEntry → option Z) (d : CacheIndex) : Prop :=
  ∀ i e, entries d !! i = Some e → (0 ≤ default 0 (bytes e))%Z.

Lemma sizes_nonneg bytes d es : nonneg bytes d → Forall (λ e, entries d !! id e = Some e) es → (0 ≤ sizes bytes es)%Z.
Proof. intros Hd. induction 1 as [|e es He _ IH]; [done|]. rewrite sizes_cons. pose proof (Hd _ _ He). lia. Qed.

Lemma sum_bytes_nonneg path bytes d : nonneg bytes d → (0 ≤ sum_bytes path bytes d)%Z.
Proof. intros H. apply map_sum_nonneg. intros i e He%H. by destruct (path e). Qed.

Section Effect.
Context {HS : Sha256} {HU : UnicodeAlnum} `{HIOk : !HashIterOk HI}.
Context (root : str) (denied : str → bool).

(** ** The candidate lists *)

Lemma lru_ids path limit d : index_ok d → NoDup (id <$> lru path limit d).
Proof.
  intros Hok. apply (current_ids d).
  - eapply sublist_NoDup; [|apply sublist_take]. rewrite (merge_sort_Permutation older).
    by apply NoDup_filter, rows_NoDup.
  - apply Forall_take, Forall_forall. intros e He. by apply elem_of_candidates in He as [? _].
Qed.

(** With few enough entries the list is complete. *)
Lemma lru_complete path limit d e : index_ok d → size (entries d) ≤ limit →
  e ∈ lru path limit d ↔ evictable path d e.
Proof.
  intros Hok Hn. unfold lru. rewrite take_ge; [by apply elem_of_candidates|].
  rewrite (merge_sort_Permutation older). etrans; [apply length_filter|]. unfold rows.
  rewrite length_fmap, (hm_iter_perm (entries d)). by rewrite length_map_to_list.
Qed.

Lemma map_choose_ref i (ls : gmap lease_key LeaseRow) : refs_of i ls ≠ 0%Z → ∃ p n l, ls !! (i, p, n) = Some l.
Proof.
  intros H. destruct (decide (map_Exists (λ (k : lease_key) _, k.1.1 = i) ls)) as [([[j p] n] & l & Hl & Hj)|Hno].
  - cbn in Hj. subst j. by exists p, n, l.
  - destruct H. apply refs_of_zero. intros p n. apply eq_None_not_Some. intros [l Hl]. apply Hno.
    by exists (i, p, n), l.
Qed.

(** ** One phase, abstractly *)
Section Phase.
Context (path other : CacheEntry → option str) (bytes obytes : CacheEntry → option Z).
Context (freed ofreed : GcReport → Z) (clr : CacheEntry → CacheEntry).
Context (ev : CacheEntry → World → option World) (removable : Fs → str → Prop).

Definition evicted (e : CacheEntry) (es : gmap Z CacheEntry) : gmap Z CacheEntry :=
  match other e with None => delete (id e) es | Some _ => <[id e := clr e]> es end.

Class PhaseOk : Prop := {
  ph_path e : path (clr e) = None;
  ph_bytes e : bytes (clr e) = None;
  ph_other e : other (clr e) = other e;
  ph_obytes e : obytes (clr e) = obytes e;
  ph_anti f f' s : f' ⊆ f → removable f s → removable f' s;
  ph_ev e w s : entries (db w) !! id e = Some e → path e = Some s → removable (fs w) s →
    ∃ w', ev e w = Some w' ∧ entries (db w') = evicted e (entries (db w)) ∧ fs w' ⊆ fs w ∧
      freed (report w') = u64 (freed (report w) + u64 (default 0%Z (bytes e))) ∧
      ofreed (report w') = ofreed (report w);
}.
Context {HP : PhaseOk}.

(** The loop with its two running totals, the phase's and the overall one;
    [enough] says when to stop. *)
Fixpoint phase_loop (enough : Z → Z → bool) (es : list CacheEntry) x y (w : World) : Z * World :=
  match es with
  | [] => (x, w)
  | e :: es =>
      if enough x y then (x, w)
      else match ev e w with
           | None => phase_loop enough es x y w
           | Some w =>
               let b := u64 (default 0%Z (bytes e)) in
               phase_loop enough es (saturating_sub x b) (saturating_sub y b) w
           end
  end.

Abbreviation total d := (sum_bytes path bytes d).

Lemma total_evicted e d d' : entries d !! id e = Some e → is_Some (path e) →
  entries d' = evicted e (entries d) → total d' = (total d - default 0 (bytes e))%Z.
Proof.
  intros He [s Hs] E. unfold sum_bytes. rewrite E. unfold evicted. destruct (other e).
  - rewrite map_sum_update. rewrite He. cbn. rewrite ph_path, Hs. lia.
  - rewrite map_sum_remove. rewrite He. cbn. rewrite Hs. done.
Qed.

Lemma other_evicted e d d' : entries d !! id e = Some e →
  entries d' = evicted e (entries d) → sum_bytes other obytes d' = sum_bytes other obytes d.
Proof.
  intros He E. unfold sum_bytes. rewrite E. unfold evicted. destruct (other e) as [s|] eqn:Eo.
  - rewrite map_sum_update. rewrite He. cbn. rewrite ph_other, ph_obytes. lia.
  - rewrite map_sum_remove. rewrite He. cbn. rewrite Eo. lia.
Qed.

Definition current (w : World) (e : CacheEntry) : Prop :=
  entries (db w) !! id e = Some e ∧ ∃ s, path e = Some s ∧ removable (fs w) s.

(** [w'] is [w] after the first [k] of the candidates were evicted. *)
Record prefix_evicted (es : list CacheEntry) (k : nat) (w w' : World) : Prop := {
  pe_total : total (db w') = (total (db w) - sizes bytes (take k es))%Z;
  pe_other : sum_bytes other obytes (db w') = sum_bytes other obytes (db w);
  pe_kept i : i ∉ id <$> take k es → entries (db w') !! i = entries (db w) !! i;
  pe_gone e : e ∈ take k es → ∀ e', entries (db w') !! id e = Some e' → e' = clr e;
  pe_dom i : is_Some (entries (db w') !! i) → is_Some (entries (db w) !! i);
  pe_fs : fs w' ⊆ fs w;
  pe_freed : freed (report w) = u64 (freed (report w)) →
    freed (report w') = u64 (freed (report w) + sizes bytes (take k es));
  pe_ofreed : ofreed (report w') = ofreed (report w);
}.

Lemma phase_loop_spec enough c es x y w : NoDup (id <$> es) → Forall (current w) es →
  nonneg bytes (db w) → (total (db w) ≤ i64_max)%Z → (0 ≤ c)%Z → x = total (db w) → y = (total (db w) + c)%Z →
  let ok t := enough t (t + c)%Z in
  ∃ k w', phase_loop enough es x y w = (total (db w'), w') ∧ k ≤ length es ∧ prefix_evicted es k w w' ∧
    (k = length es ∨ ok (total (db w')) = true) ∧
    (∀ j : nat, j < k → ok (total (db w) - sizes bytes (take j es))%Z = false).
Proof.
  intros Hnd Hes Hnn Hmax Hc. revert x y w Hnd Hes Hnn Hmax.
  induction es as [|e es IH]; intros x y w Hnd Hes Hnn Hmax -> ->; cbn [phase_loop]; cbv zeta.
  { exists 0, w. split_and!; [done|done| |by left|intros j Hj; lia].
    split; cbn; try done; [lia|intros e He; by apply not_elem_of_nil in He|]. intros ->. by rewrite Z.add_0_r, u64_id. }
  destruct (enough (total (db w)) (total (db w) + c)%Z) eqn:Een.
  { exists 0, w. split_and!; [done|cbn; lia| |by right|intros j Hj; lia].
    split; cbn; try done; [lia|intros e' He; by apply not_elem_of_nil in He|]. intros ->. by rewrite Z.add_0_r, u64_id. }
  apply Forall_cons in Hes as [[He (s & Hs & Hr)] Hes]. cbn in Hnd. apply NoDup_cons in Hnd as [Hnotin Hnd].
  destruct (ph_ev e w s He Hs Hr) as (w1 & Eev & E1 & Hfs & Hfreed & Hofreed). rewrite Eev.
  assert (total (db w1) = total (db w) - default 0 (bytes e))%Z as Et by (eapply total_evicted; eauto).
  pose proof (Hnn _ _ He) as Hb.
  assert (∀ i, i ≠ id e → entries (db w1) !! i = entries (db w) !! i) as Hother.
  { intros i Hi. rewrite E1. unfold evicted. destruct (other e); [by rewrite lookup_insert_ne|by rewrite lookup_delete_ne]. }
  assert (default 0 (bytes e) ≤ total (db w))%Z as Hle.
  { unfold sum_bytes. rewrite (map_sum_delete _ _ _ _ He). rewrite Hs.
    match goal with |- (_ ≤ _ + ?r)%Z => assert (0 ≤ r)%Z end; [|lia].
    apply map_sum_nonneg. intros i e' [_ He'%Hnn]%lookup_delete_Some. by destruct (path e'). }
  rewrite (u64_small (default 0%Z (bytes e))) by lia. rewrite !saturating_sub_exact by lia.
  destruct (IH (total (db w) - default 0 (bytes e))%Z (total (db w) + c - default 0 (bytes e))%Z w1)
    as (k & w' & Eloop & Hk & [Q1 Q2 Q3 Q4 Q4' Q5 Q6 Q7] & Hstop & Hmin); try done.
  - apply Forall_forall. intros e' He'. destruct (proj1 (Forall_forall _ _) Hes e' He') as [H1 (s' & H2 & H3)].
    split; [|exists s'; split; [done|by eapply ph_anti]]. rewrite Hother; [done|].
    intros Heq. apply Hnotin. rewrite <- Heq. by apply list_elem_of_fmap_2.
  - intros i e'. destruct (decide (i = id e)) as [->|Hi]; [|rewrite Hother by done; apply Hnn].
    rewrite E1. unfold evicted. destruct (other e); [|by rewrite lookup_delete_eq].
    rewrite lookup_insert_eq. intros [= <-].
    by rewrite ph_bytes.
  - lia.
  - lia.
  - exists (S k), w'. rewrite Eloop. cbn [take fmap list_fmap length]. split_and!; [done|lia| | |].
    + split.
      * cbn [take]. rewrite Q1, Et, sizes_cons. lia.
      * rewrite Q2. eapply other_evicted; eauto.
      * intros i [Hi1 Hi2]%not_elem_of_cons. rewrite Q3 by done. by apply Hother.
      * intros e1 [->|He1]%elem_of_cons; [|by apply Q4].
        rewrite Q3, E1. 2:{ intros Hin. apply Hnotin. rewrite fmap_take in Hin.
          apply elem_of_take in Hin as (m & Hm & _). by eapply list_elem_of_lookup_2. }
        unfold evicted. destruct (other e) eqn:Eo; [|by rewrite lookup_delete_eq].
        by rewrite lookup_insert_eq; intros e' [= <-].
      * intros i Hi%Q4'. destruct (decide (i = id e)) as [->|Hne]; [by eexists|by rewrite <- Hother].
      * by etrans.
      * intros Hu. rewrite Q6 by (by rewrite Hfreed, u64_id). rewrite Hfreed, u64_add_l.
        rewrite (u64_small (default 0%Z (bytes e))) by lia. f_equal. cbn [take]. rewrite sizes_cons. lia.
      * by rewrite Q7.
    + destruct Hstop as [->|]; [left; lia|by right].
    + intros [|j] Hj; cbn [take]; [by rewrite Z.sub_0_r|].
      rewrite <- (Hmin j) by lia. rewrite sizes_cons, Et. f_equal; lia.
Qed.

(** The list used up: what still has the path is leased. *)
Lemma exhausted_leased limit w w' k : index_ok (db w) → size (entries (db w)) ≤ limit →
  let es := lru path limit (db w) in
  k = length es → prefix_evicted es k w w' → spares root (db w) (fs w) w' →
  ∀ i e, entries (db w') !! i = Some e → is_Some (path e) → leased (db w') i.
Proof.
  intros Hok Hn es -> Hpe Hsp i e He Hp. destruct Hpe as [_ _ P3 P4 _ _ _ _].
  rewrite firstn_all in P3, P4.
  destruct (decide (i ∈ id <$> es)) as [Hin|Hin].
  - apply list_elem_of_fmap in Hin as (e0 & -> & Hin). rewrite (P4 e0 Hin e He) in Hp.
    rewrite ph_path in Hp. by destruct Hp.
  - rewrite P3 in He by done. destruct (ok_id _ Hok _ _ He) as [Hid _]. subst i.
    assert (¬ (∀ p n, leases (db w) !! (id e, p, n) = None)) as Hl.
    { intros Hl. apply Hin, list_elem_of_fmap_2. apply lru_complete; [done|done|]. by split. }
    assert (leased (db w) (id e)) as Hlw.
    { destruct (decide (refs_of (id e) (leases (db w)) = 0%Z)) as [H0|H0].
      - rewrite refs_of_none in H0; [done|by apply ok_positive].
      - destruct (map_choose_ref (id e) (leases (db w)) H0) as (p & n & l & H1). by exists p, n, l. }
    destruct Hlw as (p & n & l & H1). exists p, n, l. rewrite <- H1.
    apply (sp_leases _ _ _ _ Hsp). by exists p, n, l.
Qed.
End Phase.

(** ** The two phases *)

Definition removable_dir (f : Fs) (s : str) : Prop :=
  denied (full_path root s) = false ∧ f !! full_path root s ≠ Some File.
Definition removable_path (f : Fs) (s : str) : Prop := denied (full_path root s) = false.

Lemma update_current i g d e : entries d !! i = Some e → entries (update_entry i g d) = <[i := g e]> (entries d).
Proof.
  intros He. cbn. apply map_eq. intros j. destruct (decide (i = j)) as [<-|Hj].
  - by rewrite lookup_alter_eq, lookup_insert_eq, He.
  - by rewrite lookup_alter_ne, lookup_insert_ne.
Qed.

Lemma delete_current i g d e : entries d !! i = Some e →
  entries (delete_entry i (update_entry i g d)) = delete i (entries d).
Proof.
  intros He. change (delete i (entries (update_entry i g d)) = delete i (entries d)).
  rewrite (update_current _ _ _ _ He). apply delete_insert_eq.
Qed.

Lemma remove_dir_all_ok f s : removable_dir f s → (remove_dir_all denied (full_path root s) f).1 ≠ Refused.
Proof.
  intros [Hd Hf]. unfold remove_dir_all. destruct (f !! full_path root s) as [[| |t]|]; rewrite ?Hd; done.
Qed.

Lemma remove_path_ok f s : removable_path f s → (remove_path denied (full_path root s) f).1 ≠ Refused.
Proof.
  unfold removable_path, remove_path, is_dir, remove_dir_all, remove_file. intros Hd.
  destruct (f !! full_path root s) as [[| |[[]|]]|]; rewrite ?Hd; done.
Qed.

Lemma remove_path_sub s f : (remove_path denied s f).2 ⊆ f.
Proof.
  unfold remove_path. case_match; [apply remove_dir_all_sub|]. unfold remove_file.
  destruct (f !! s) as [[| |t]|]; try done; case_match; try done; apply delete_subseteq.
Qed.

Abbreviation inst := installed_path.
Abbreviation arch := archive_path.

#[local] Instance installed_phase : PhaseOk inst arch installed_bytes archive_bytes installed_bytes_freed
  archive_bytes_freed (set_installed None None None) (evict_installed root denied) removable_dir.
Proof.
  split; [done|done|done|done| |].
  - intros f f' s Hsub [H1 H2]. split; [done|]. intros H. apply H2. by eapply lookup_weaken.
  - intros e w s He Hs Hr. unfold evict_installed. rewrite Hs.
    destruct (remove_dir_all denied (full_path root s) (fs w)) as [r f] eqn:Er.
    pose proof (remove_dir_all_ok _ _ Hr) as Hok. pose proof (remove_dir_all_sub denied (full_path root s) (fs w)) as Hsub.
    rewrite Er in Hok, Hsub. cbn in Hok, Hsub. rewrite decide_False by done. eexists. split; [done|]. cbn [db fs report].
    split_and!; [|done|done|done]. unfold evicted, clear_installed.
    destruct (archive_path e); [by apply update_current|by eapply delete_current].
Qed.

#[local] Instance archive_phase : PhaseOk arch inst archive_bytes installed_bytes archive_bytes_freed
  installed_bytes_freed (set_archive None None None None) (evict_archive root denied) removable_path.
Proof.
  split; [done|done|done|done|done|].
  intros e w s He Hs Hr. unfold evict_archive. rewrite Hs.
  destruct (remove_path denied (full_path root s) (fs w)) as [r f] eqn:Er.
  pose proof (remove_path_ok _ _ Hr) as Hok. pose proof (remove_path_sub (full_path root s) (fs w)) as Hsub.
  rewrite Er in Hok, Hsub. cbn in Hok, Hsub. rewrite decide_False by done. eexists. split; [done|]. cbn [db fs report].
  split_and!; [|done|done|done]. unfold evicted, clear_archive.
  destruct (installed_path e); [by apply update_current|by eapply delete_current].
Qed.

Lemma installed_loop_phase target es x y w :
  evict_installed_loop root denied target es x w =
  phase_loop installed_bytes (evict_installed root denied) (λ x _, bool_decide (x ≤ target)%Z) es x y w.
Proof.
  revert x y w. induction es as [|e es IH]; intros x y w; cbn; [done|].
  destruct (decide (x ≤ target)%Z); [by rewrite bool_decide_true|rewrite bool_decide_false by done].
  destruct (evict_installed root denied e w); apply IH.
Qed.

Lemma archive_loop_phase b es x y w :
  evict_archive_loop root denied b es x y w =
  (phase_loop archive_bytes (evict_archive root denied)
    (λ x y, bool_decide (x ≤ archive_budget b ∧ y ≤ high_watermark b)%Z) es x y w).2.
Proof.
  revert x y w. induction es as [|e es IH]; intros x y w; cbn; [done|].
  destruct (decide (x ≤ archive_budget b ∧ y ≤ high_watermark b)%Z);
    [by rewrite bool_decide_true|rewrite bool_decide_false by done].
  destruct (evict_archive root denied e w); apply IH.
Qed.

Abbreviation total_installed d := (sum_bytes inst installed_bytes d).
Abbreviation total_archived d := (sum_bytes arch archive_bytes d).

(** Nothing stands in the way of a collection. *)
Record collectable (d : CacheIndex) (f : Fs) : Prop := {
  co_ok : index_ok d;
  co_installed : nonneg installed_bytes d;
  co_archived : nonneg archive_bytes d;
  co_dirs i e s : entries d !! i = Some e → inst e = Some s → removable_dir f s;
  co_paths i e s : entries d !! i = Some e → arch e = Some s → removable_path f s;
  co_few : size (entries d) ≤ gc_limit;
}.


Lemma phase_current (path : CacheEntry → option str) (removable : Fs → str → Prop) limit d f r :
  index_ok d → (∀ i e s, entries d !! i = Some e → path e = Some s → removable f s) →
  Forall (current path removable {| db := d; fs := f; report := r |}) (lru path limit d).
Proof.
  intros Hok Hr. apply Forall_take, Forall_forall. intros e He.
  apply elem_of_candidates in He as (He & [s Hs] & _); [|done]. split; [done|]. exists s. split; [done|].
  by apply (Hr (id e) e).
Qed.

Lemma installed_phase_spec b d f r tot : collectable d f → (total_installed d ≤ i64_max)%Z →
  (installed_budget b < total_installed d ∨ high_watermark b < tot)%Z →
  let es := lru_installed_entries gc_limit d in
  let target := (low_watermark b `min` installed_budget b)%Z in
  let w := {| db := d; fs := f; report := r |} in
  ∃ k w', gc_installed root denied b (total_installed d) tot w = (total_installed (db w'), w') ∧ k ≤ length es ∧
    prefix_evicted inst arch installed_bytes archive_bytes installed_bytes_freed archive_bytes_freed
      (set_installed None None None) es k w w' ∧ spares root d f w' ∧
    (k = length es ∨ (total_installed (db w') ≤ target)%Z) ∧
    (∀ j : nat, j < k → (target < total_installed d - sizes installed_bytes (take j es))%Z).
Proof.
  intros Hc Hmax Htrig es target w. unfold gc_installed. rewrite decide_True by done. cbn [db w].
  pose proof (co_ok _ _ Hc) as Hok. pose proof (sum_bytes_nonneg inst installed_bytes d (co_installed _ _ Hc)) as H0.
  destruct (phase_loop_spec inst arch installed_bytes archive_bytes installed_bytes_freed archive_bytes_freed
    (set_installed None None None) (evict_installed root denied) removable_dir
    (λ x _, bool_decide (x ≤ target)%Z) 0 es (total_installed d) (total_installed d + 0) w)
    as (k & w' & E & Hk & Hpe & Hstop & Hmin); [by apply lru_ids|by apply phase_current; [|apply Hc]|apply Hc|done|done|done|done|].
  exists k, w'. fold target. fold (lru_installed_entries gc_limit d). fold es.
  rewrite (installed_loop_phase target es _ (total_installed d + 0)%Z). split_and!; [done|done|done| | |].
  - pose proof (spares_installed_loop root denied d f target es (total_installed d) w (spares_refl root d f r Hok)
      (candidates_of root inst w d f gc_limit (spares_refl root d f r Hok))) as Hs.
    rewrite (installed_loop_phase target es _ (total_installed d + 0)%Z) in Hs. by rewrite E in Hs.
  - destruct Hstop as [?|Hs]; [by left|right]. by apply bool_decide_eq_true in Hs.
  - intros j Hj. specialize (Hmin j Hj). apply bool_decide_eq_false in Hmin. subst w. cbn [db] in Hmin. lia.
Qed.

Lemma archive_phase_spec b d f r c : collectable d f → (total_archived d ≤ i64_max)%Z → (0 ≤ c)%Z →
  let es := lru_archive_entries gc_limit d in
  let w := {| db := d; fs := f; report := r |} in
  let met a := (a ≤ archive_budget b ∧ a + c ≤ high_watermark b)%Z in
  ∃ k w', gc_archives root denied b (total_archived d) (total_archived d + c) w = w' ∧
    prefix_evicted arch inst archive_bytes installed_bytes archive_bytes_freed installed_bytes_freed
      (set_archive None None None None) es k w w' ∧ spares root d f w' ∧
    (k = length es ∨ met (total_archived (db w'))).
Proof.
  intros Hc Hmax Hc0 es w met. pose proof (co_ok _ _ Hc) as Hok.
  destruct (phase_loop_spec arch inst archive_bytes installed_bytes archive_bytes_freed installed_bytes_freed
    (set_archive None None None None) (evict_archive root denied) removable_path
    (λ x y, bool_decide (x ≤ archive_budget b ∧ y ≤ high_watermark b)%Z) c es (total_archived d)
    (total_archived d + c) w)
    as (k & w' & E & Hk & Hpe & Hstop & _); [by apply lru_ids|by apply phase_current; [|apply Hc]|apply Hc|done..|].
  unfold gc_archives.
  destruct (decide (archive_budget b < total_archived d ∨ high_watermark b < total_archived d + c)%Z) as [Htrig|Htrig].
  - exists k, w'. cbn [db w]. fold es. rewrite archive_loop_phase, E. split_and!; [reflexivity|exact Hpe| |].
    + pose proof (spares_archive_loop root denied d f b es (total_archived d) (total_archived d + c)%Z w
        (spares_refl root d f r Hok) (candidates_of root arch w d f gc_limit (spares_refl root d f r Hok))) as Hs.
      by rewrite archive_loop_phase, E in Hs.
    + destruct Hstop as [?|Hs]; [by left|right]. by apply bool_decide_eq_true in Hs.
  - exists 0, w. split_and!; [done| |by apply spares_refl|right; unfold met; subst w; cbn [db]; lia].
    split; rewrite ?take_0; try done.
    + change (sizes archive_bytes []) with 0%Z. lia.
    + intros e He. by apply not_elem_of_nil in He.
    + intros ->. unfold sizes. cbn. by rewrite Z.add_0_r, u64_id.
Qed.

(** After the first phase the second can work. *)
Lemma collectable_after es k w w' : collectable (db w) (fs w) → spares root (db w) (fs w) w' →
  prefix_evicted inst arch installed_bytes archive_bytes installed_bytes_freed archive_bytes_freed
    (set_installed None None None) es k w w' → Forall (λ e, entries (db w) !! id e = Some e) es →
  collectable (db w') (fs w').
Proof.
  intros [C1 C2 C3 C4 C5 C6] Hsp [_ _ P3 P4 P5 P6 _ _] Hes.
  assert (∀ i e, entries (db w') !! i = Some e → ∃ e0, entries (db w) !! i = Some e0 ∧
    (e = e0 ∨ e = set_installed None None None e0)) as Hrow.
  { intros i e He. destruct (decide (i ∈ id <$> take k es)) as [Hin|Hin].
    - apply list_elem_of_fmap in Hin as (e0 & -> & Hin). exists e0. split; [|right; by apply P4].
      apply (proj1 (Forall_forall _ _) Hes). by eapply elem_of_take in Hin as (? & ?%list_elem_of_lookup_2 & _).
    - rewrite P3 in He by done. exists e. auto. }
  split.
  - apply (sp_ok _ _ _ _ Hsp).
  - intros i e (e0 & He & [->| ->])%Hrow; [by eapply C2|done].
  - intros i e (e0 & He & [->| ->])%Hrow; exact (C3 i e0 He).
  - intros i e s (e0 & He & [->| ->])%Hrow Hs; [|done]. destruct (C4 i e0 s He Hs) as [H1 H2]. split; [done|].
    intros H. apply H2. by eapply lookup_weaken.
  - intros i e s (e0 & He & [->| ->])%Hrow Hs; by eapply (C5 i e0 s).
  - etrans; [|exact C6]. rewrite <- !size_dom. apply subseteq_size. intros i. rewrite !elem_of_dom. apply P5.
Qed.

Lemma reap_same alive d : index_ok d → let d1 := (reap_dead_leases alive d).2 in
  total_installed d1 = total_installed d ∧ total_archived d1 = total_archived d ∧
  ∀ f, collectable d f → collectable d1 f.
Proof.
  intros Hok d1. subst d1. pose proof (ok_reap alive d Hok) as Hok1. revert Hok1.
  unfold reap_dead_leases. cbn [snd]. case_decide; intros Hok1.
  - unfold sum_bytes. cbn [entries]. rewrite !map_sum_imap. split_and!; [done|done|].
    intros f [C1 C2 C3 C4 C5 C6]. split; [done| | | | |].
    + intros i e He. cbn in He. rewrite map_lookup_imap in He. apply bind_Some in He as (e0 & He & [= <-]). exact (C2 i e0 He).
    + intros i e He. cbn in He. rewrite map_lookup_imap in He. apply bind_Some in He as (e0 & He & [= <-]). exact (C3 i e0 He).
    + intros i e s He. cbn in He. rewrite map_lookup_imap in He. apply bind_Some in He as (e0 & He & [= <-]). exact (C4 i e0 s He).
    + intros i e s He. cbn in He. rewrite map_lookup_imap in He. apply bind_Some in He as (e0 & He & [= <-]). exact (C5 i e0 s He).
    + cbn. etrans; [|exact C6]. rewrite <- !size_dom. apply subseteq_size. intros i. rewrite !elem_of_dom.
      rewrite map_lookup_imap. intros [e He]. apply bind_Some in He as (e0 & He & _). by exists e0.
  - split_and!; [done|done|]. intros f [C1 C2 C3 C4 C5 C6]. by split.
Qed.

Lemma sql_sum_Ok n m : sql_sum n = Ok m → m = n ∧ (n ≤ i64_max)%Z.
Proof. unfold sql_sum. case_decide; [|done]. intros [= <-]. lia. Qed.

(** [w1] is what the first phase makes of [d]. *)
Record first_phase (b : CacheBudget) (d : CacheIndex) (f : Fs) (w1 : World) : Prop := {
  fp_spares : spares root d f w1;
  fp_collectable : collectable (db w1) (fs w1);
  fp_archived : total_archived (db w1) = total_archived d;
  fp_freed : installed_bytes_freed (report w1) = (total_installed d - total_installed (db w1))%Z;
  fp_none : archive_bytes_freed (report w1) = 0%Z;
  fp_less : (total_installed (db w1) ≤ total_installed d)%Z;
  fp_met : (total_installed (db w1) ≤ installed_budget b)%Z ∨
    ∀ i e, entries (db w1) !! i = Some e → is_Some (installed_path e) → leased (db w1) i;
}.

Lemma first_phase_ok b d f (n : nat) tot : collectable d f → (total_installed d ≤ i64_max)%Z →
  let w := {| db := d; fs := f; report := new_report n |} in
  ∃ w1, gc_installed root denied b (total_installed d) tot w = (total_installed (db w1), w1) ∧ first_phase b d f w1.
Proof.
  intros Hc HImax w. pose proof (co_ok _ _ Hc) as Hok.
  destruct (decide (installed_budget b < total_installed d ∨ high_watermark b < tot)%Z) as [Ht|Ht].
  - destruct (installed_phase_spec b d f (new_report n) tot Hc HImax Ht) as (k & w1 & E & Hk & Hpe & Hsp & Hstop & _).
    assert (collectable (db w1) (fs w1)) as Hc1.
    { apply (collectable_after _ k w w1 Hc Hsp Hpe). apply Forall_take, Forall_forall.
      intros e He. by apply elem_of_candidates in He as [? _]. }
    pose proof (sum_bytes_nonneg inst installed_bytes (db w1) (co_installed _ _ Hc1)).
    pose proof (pe_total _ _ _ _ _ _ _ _ _ _ _ Hpe) as Htot. subst w. cbn [db] in Htot.
    assert (0 ≤ sizes installed_bytes (take k (lru_installed_entries gc_limit d)))%Z as Hsz.
    { apply (sizes_nonneg _ d); [apply Hc|]. apply Forall_take, Forall_take, Forall_forall.
      intros e He. by apply elem_of_candidates in He as [? _]. }
    exists w1. split; [done|]. split; [done|done|apply (pe_other _ _ _ _ _ _ _ _ _ _ _ Hpe)| | |lia|].
    + rewrite (pe_freed _ _ _ _ _ _ _ _ _ _ _ Hpe) by done. cbn [report new_report installed_bytes_freed].
      rewrite u64_small; lia.
    + by rewrite (pe_ofreed _ _ _ _ _ _ _ _ _ _ _ Hpe).
    + destruct Hstop as [->|Hs]; [right|left; lia].
      exact (exhausted_leased inst arch _ _ _ _ _ _ _ gc_limit {| db := d; fs := f; report := new_report n |} w1 _
        Hok (co_few _ _ Hc) eq_refl Hpe Hsp).
  - exists w. unfold gc_installed. rewrite decide_False by done. split; [done|]. subst w.
    split; cbn; try done; try lia. by apply spares_refl.
Qed.

(** What was leased before the second phase is so after it. *)
Lemma leased_later d f w i : spares root d f w → leased d i → leased (db w) i.
Proof.
  intros Hsp Hl. pose proof Hl as (p & n & l & H). exists p, n, l. rewrite <- H. by apply (sp_leases _ _ _ _ Hsp).
Qed.

Lemma second_phase_done b d f w1 w2 k : first_phase b d f w1 → (total_installed d ≤ i64_max)%Z →
  (total_archived d ≤ i64_max)%Z → spares root (db w1) (fs w1) w2 →
  let es := lru_archive_entries gc_limit (db w1) in
  prefix_evicted arch inst archive_bytes installed_bytes archive_bytes_freed installed_bytes_freed
    (set_archive None None None None) es k w1 w2 →
  k = length es ∨ (total_archived (db w2) ≤ archive_budget b ∧
    total_archived (db w2) + total_installed (db w1) ≤ high_watermark b)%Z →
  ((total_installed (db w2) ≤ installed_budget b)%Z ∨
     ∀ i e, entries (db w2) !! i = Some e → is_Some (installed_path e) → leased (db w2) i) ∧
  ((total_archived (db w2) ≤ archive_budget b ∧ total_archived (db w2) + total_installed (db w2) ≤ high_watermark b)%Z ∨
     ∀ i e, entries (db w2) !! i = Some e → is_Some (archive_path e) → leased (db w2) i) ∧
  installed_bytes_freed (report w2) = (total_installed d - total_installed (db w2))%Z ∧
  archive_bytes_freed (report w2) = (total_archived d - total_archived (db w2))%Z ∧
  (0 ≤ total_bytes_freed (report w2) ≤ total_installed d + total_archived d)%Z.
Proof.
  intros [Hsp1 Hc1 HA1 HF1 HG1 Hle1 Hmet] HImax HAmax Hsp2 es Hpe Hstop.
  pose proof Hpe as [P1 P2 P3 P4 P5 P6 P7 P8]. specialize (P7 ltac:(by rewrite HG1)). rewrite HG1 in P7.
  assert (Forall (λ e, entries (db w1) !! id e = Some e) (take k es)) as Hes.
  { apply Forall_take, Forall_take, Forall_forall. intros e He. by apply elem_of_candidates in He as [? _]; [|apply Hc1]. }
  pose proof (sizes_nonneg archive_bytes (db w1) _ (co_archived _ _ Hc1) Hes) as Hsz.
  assert (0 ≤ total_archived (db w2))%Z as HA2.
  { apply sum_bytes_nonneg. intros i e He. destruct (decide (i ∈ id <$> take k es)) as [Hin|Hin].
    - apply list_elem_of_fmap in Hin as (e0 & -> & Hin). by rewrite (P4 e0 Hin e He).
    - rewrite P3 in He by done. by apply (co_archived _ _ Hc1) in He. }
  pose proof (sum_bytes_nonneg inst installed_bytes (db w1) (co_installed _ _ Hc1)) as HI1.
  rewrite u64_small in P7 by lia. rewrite P2. split_and!; [| |lia|lia| |].
  - destruct Hmet as [?|Hl]; [by left|right]. intros i e He Hp.
    apply (leased_later (db w1) (fs w1)); [done|].
    destruct (decide (i ∈ id <$> take k es)) as [Hin|Hin]; [|rewrite P3 in He by done; by eapply Hl].
    apply list_elem_of_fmap in Hin as (e0 & -> & Hin). rewrite (P4 e0 Hin e He) in Hp.
    apply (Hl (id e0) e0); [|done]. by apply (proj1 (Forall_forall _ _) Hes).
  - destruct Hstop as [->|?]; [right|by left].
    exact (exhausted_leased arch inst _ _ _ _ _ _ _ gc_limit w1 w2 _ (co_ok _ _ Hc1) (co_few _ _ Hc1) eq_refl Hpe Hsp2).
  - unfold total_bytes_freed. rewrite u64_small; lia.
  - unfold total_bytes_freed. rewrite u64_small; lia.
Qed.

(** C15: a collection does its job.  When the index has no more entries than a
    collection looks at, a thousand, of non-negative sizes, and the files they
    name can be removed, a collection ends with the installed packages within
    their budget or only leased entries installed; with the archives within
    their budget and the total within the high watermark, or only leased
    entries with archives; and it reports exactly the bytes by which the two
    totals went down. *)
Theorem gc_meets_budget alive b d f r d' f' : collectable d f →
  run_gc root denied alive b d f = (Ok r, (d', f')) →
  ((total_installed d' ≤ installed_budget b)%Z ∨
     ∀ i e, entries d' !! i = Some e → is_Some (installed_path e) → leased d' i) ∧
  ((total_archived d' ≤ archive_budget b ∧ total_archived d' + total_installed d' ≤ high_watermark b)%Z ∨
     ∀ i e, entries d' !! i = Some e → is_Some (archive_path e) → leased d' i) ∧
  installed_bytes_freed r = (total_installed d - total_installed d')%Z ∧
  archive_bytes_freed r = (total_archived d - total_archived d')%Z ∧
  (0 ≤ total_bytes_freed r ≤ total_installed d + total_archived d)%Z.
Proof.
  intros Hc. pose proof (co_ok _ _ Hc) as Hok. destruct (reap_same alive d Hok) as (EI & EA & Hreap).
  unfold run_gc. destruct (reap_dead_leases alive d) as [n d1]. cbn [snd] in *. apply Hreap in Hc. rewrite <- EI, <- EA.
  clear Hok EI EA Hreap d. pose proof (co_ok _ _ Hc) as Hok.
  destruct (total_installed_bytes d1) as [i0|] eqn:Ei; [|done]. apply sql_sum_Ok in Ei as [-> HImax].
  destruct (total_archive_bytes d1) as [a0|] eqn:Ea; [|done]. apply sql_sum_Ok in Ea as [-> HAmax].
  pose proof (sum_bytes_nonneg inst installed_bytes d1 (co_installed _ _ Hc)) as HI0.
  pose proof (sum_bytes_nonneg arch archive_bytes d1 (co_archived _ _ Hc)) as HA0.
  rewrite !Z.max_l by lia.
  destruct (first_phase_ok b d1 f n (u64 (total_archived d1 + total_installed d1)) Hc HImax) as (w1 & E1 & Hf).
  rewrite E1. destruct Hf as [Hsp1 Hc1 HA1 HF1 HG1 Hle1 Hgoal1].
  destruct (total_archive_bytes (db w1)) as [a1|] eqn:Ea1; [|done]. apply sql_sum_Ok in Ea1 as [-> HAmax'].
  pose proof (sum_bytes_nonneg inst installed_bytes (db w1) (co_installed _ _ Hc1)) as HI1.
  rewrite Z.max_l by lia. rewrite u64_small by lia.
  destruct (archive_phase_spec b (db w1) (fs w1) (report w1) (total_installed (db w1)) Hc1 HAmax' HI1)
    as (k & w2 & E2 & Hpe & Hsp2 & Hstop).
  assert ({| db := db w1; fs := fs w1; report := report w1 |} = w1) as Ew by by destruct w1.
  rewrite Ew in *. rewrite E2. intros [= <- <- <-].
  by apply (second_phase_done b d1 f w1 w2 k).
Qed.
End Effect.

(** ** Examples *)

#[local] Existing Instance sample_digest.
#[local] Instance all_alnum : UnicodeAlnum := λ _, true.

Definition sample_disk : Fs := {[ &"/c/installed/a" := Dir; &"/c/installed/a/bin" := Dir; &"/c/installed/b" := Dir;
  &"/c/installed/b/bin" := Dir; &"/c/installed/c" := Dir; &"/c/archives/b" := Dir ]}.

Definition allow : str → bool := λ _, false.
Definition only_7 : Z → bool := λ p, bool_decide (p = 7%Z).

(** Room for 450 bytes of installed packages, and to be left at 400. *)
Definition sample_budget : CacheBudget :=
  {| archive_budget := 1000; installed_budget := 450; high_watermark := 1000; low_watermark := 400 |}.

#[local] Instance covers_dec e q : Decision (covers (&"/c") e q).
Proof.
  refine (cast_if (decide (Exists (λ s, within (full_path (&"/c") s) q = true)
    (option_list (archive_path e) ++ option_list (installed_path e))))).
  - abstract (apply Exists_exists in e0 as (s & Hs & Hq); exists s; split; [|done]; apply elem_of_app in Hs;
      destruct (archive_path e), (installed_path e); set_solver).
  - abstract (intros (s & Hs & Hq); apply n, Exists_exists; exists s; split; [|done]; apply elem_of_app;
      destruct Hs as [-> | ->]; [left|right]; by apply list_elem_of_here).
Defined.

Lemma gc_spares_leased_witness :
  let out := run_gc (&"/c") allow only_7 sample_budget sample_index sample_disk in
  (leases out.2.1 !! (2, 7, 1) = Some {| refcount := 2; acquired_at := 5 |})%Z ∧
  out.2.2 !! (&"/c/installed/b/bin") = Some Dir ∧ out.2.2 !! (&"/c/installed/a/bin") = None.
Proof.
  intros out. destruct (entries sample_index !! 2%Z) as [e|] eqn:Ee; [|by vm_compute in Ee].
  assert (leases sample_index !! (2, 7, 1)%Z = Some {| refcount := 2; acquired_at := 5 |}) as El by by vm_compute.
  assert (run_gc (&"/c") allow only_7 sample_budget sample_index sample_disk = (out.1, (out.2.1, out.2.2))) as Hrun
    by (subst out; by destruct (run_gc _ _ _ _ _ _) as [? []]).
  destruct (gc_spares_leased (&"/c") allow only_7 sample_budget sample_index sample_disk out.1 out.2.1 out.2.2
    2 e 7 1 _ sample_index_ok Hrun Ee El) as (H1 & _ & H3); [by vm_compute|].
  split; [exact H1|]. split; [|by vm_compute].
  rewrite (H3 (&"/c/installed/b/bin")); [by vm_compute|].
  assert (map_Forall (λ j e', covers (&"/c") e' (&"/c/installed/b/bin") → j = 2%Z) (entries sample_index)) as H
    by (apply (bool_decide_unpack _); by vm_compute).
  exact H.
Defined.

Lemma sample_collectable : collectable (&"/c") allow sample_index sample_disk.
Proof.
  split.
  - apply sample_index_ok.
  - assert (map_Forall (λ _ e, 0 ≤ default 0 (installed_bytes e))%Z (entries sample_index)) as H
      by (apply (bool_decide_unpack _); by vm_compute). exact H.
  - assert (map_Forall (λ _ e, 0 ≤ default 0 (archive_bytes e))%Z (entries sample_index)) as H
      by (apply (bool_decide_unpack _); by vm_compute). exact H.
  - intros i e s _ _. split; [done|]. intros H.
    assert (map_Forall (λ _ nd, nd ≠ File) sample_disk) as Hd by (apply (bool_decide_unpack _); by vm_compute).
    by apply Hd in H.
  - done.
  - apply (bool_decide_unpack _). by vm_compute.
Qed.

(** Entries 1 and 3 are evicted, 2 is leased. *)
Lemma gc_meets_budget_witness : ∃ r d' f',
  run_gc (&"/c") allow only_7 sample_budget sample_index sample_disk = (Ok r, (d', f')) ∧
  (installed_bytes_freed r = 500)%Z ∧
  installed_bytes_freed r = (sum_bytes installed_path installed_bytes sample_index - sum_bytes installed_path installed_bytes d')%Z ∧
  (0 ≤ total_bytes_freed r ≤ sum_bytes installed_path installed_bytes sample_index + sum_bytes archive_path archive_bytes sample_index)%Z.
Proof.
  destruct (run_gc (&"/c") allow only_7 sample_budget sample_index sample_disk) as [[r|err] [d' f']] eqn:E.
  - exists r, d', f'. split; [done|].
    destruct (gc_meets_budget (&"/c") allow only_7 sample_budget sample_index sample_disk r d' f' sample_collectable E)
      as (_ & _ & H1 & _ & H2).
    split; [|split; [exact H1|exact H2]].
    assert (installed_bytes_freed <$> (match (run_gc (&"/c") allow only_7 sample_budget sample_index sample_disk).1 with
      Ok r => Some r | Err _ => None end) = Some 500%Z) as H by by vm_compute.
    rewrite E in H. by injection H.
  - assert (is_ok (run_gc (&"/c") allow only_7 sample_budget sample_index sample_disk).1 = true) as H by by vm_compute.
    by rewrite E in H.
Defined.

(** ** Finding: a lease taken during a collection *)

(** The candidates are listed before the first is removed, and the list is
    not consulted again: a build that leases an entry in between loses it,
    and its lease with it. *)
Lemma late_lease_is_lost :
  (let es := lru_installed_entries gc_limit sample_index in
   let '(r, d) := lease_acquire 1 7 1 9 sample_index in
   is_ok r && bool_decide (pinned <$> (entries d !! 1%Z) = Some 1%Z) &&
   match es with
   | e :: _ =>
       match evict_installed (&"/c") allow e {| db := d; fs := sample_disk; report := new_report 0 |} with
       | Some w => bool_decide (entries (db w) !! 1%Z = None) && bool_decide (leases (db w) !! (1, 7, 1)%Z = None) &&
                   negb (exists_ (&"/c/installed/a/bin") (fs w))
       | None => false
       end
   | [] => false
   end) = true.
Proof. by vm_compute. Qed.
