(* ===== verification/CacheReconcile.v ===== *)
(** * [fbuild-packages-fetch/src/disk_cache/gc.rs]: reconciliation

    At start-up the daemon makes the index and the disk agree: rows whose
    files are gone are cleared, interrupted installations and directories no
    row knows are removed. *)
From S2P Require Import Prelude RustStr CachePaths CachePathFacts CacheIndex CacheFacts CacheGc.

Section Reconcile.
Context {HS : Sha256} {HU : UnicodeAlnum} `{HI : HashIter}.
Context (root : str) (denied : str → bool).
(** Whether what a link to a directory leads to has subdirectories. *)
Context (link_subdirs : str → bool).

(** ** Walking *)

(** [q] is an entry of the directory [p]. *)
Definition child_of (p q : str) : bool :=
  match strip_prefix (p ++ [slash]) q with
  | Some name => negb (bool_decide (name = [])) && bool_decide (slash ∉ name)
  | None => false
  end.

(** [read_dir], in whatever order the system lists the entries. *)
Definition read_dir (p : str) (fs : Fs) : list str :=
  filter (λ q, child_of p q = true) (hm_iter fs).*1.

(** Links are listed and not followed. Fuel bounds the depth. *)
Fixpoint walkdir_sync (fuel : nat) (p : str) (fs : Fs) : list str :=
  match fuel with
  | O => []
  | S n =>
      if is_dir p fs then
        mbind (λ c, c :: match fs !! c with Some Dir => walkdir_sync n c fs | _ => [] end) (read_dir p fs)
      else []
  end.

Definition walk (p : str) (fs : Fs) : list str := walkdir_sync (S (size fs)) p fs.

Definition file_name (p : str) : str := default [] (last (split_on slash p)).
Definition is_partial (p : str) : bool := ends_with (&".partial") (file_name p).

Definition has_subdirs (p : str) (fs : Fs) : bool :=
  match fs !! p with
  | Some (Symlink (Some true)) => link_subdirs p
  | Some Dir => existsb (λ q, is_dir q fs) (read_dir p fs)
  | _ => true
  end.

(** ** Removing *)

(** [let _ = remove_dir_all(&path); report.orphan_files_removed += 1] *)
Definition count_files (r : GcReport) : GcReport :=
  MkReport (installed_evicted r) (installed_bytes_freed r) (archives_evicted r) (archive_bytes_freed r)
    (leases_reaped r) (orphan_files_removed r + 1) (orphan_rows_cleaned r).
Definition count_rows (r : GcReport) : GcReport :=
  MkReport (installed_evicted r) (installed_bytes_freed r) (archives_evicted r) (archive_bytes_freed r)
    (leases_reaped r) (orphan_files_removed r) (orphan_rows_cleaned r + 1).

Definition discard (p : str) (fr : Fs * GcReport) : Fs * GcReport :=
  ((remove_dir_all denied p fr.1).2, count_files fr.2).

Definition remove_partial_dirs (top : str) (fr : Fs * GcReport) : Fs * GcReport :=
  foldl (λ fr p, if is_dir p fr.1 && is_partial p then discard p fr else fr) fr (walk top fr.1).

(** [HashSet<PathBuf>]: paths are compared by their components. *)
Definition known (ps : list (list Component)) (p : str) : Prop := components p ∈ ps.

Definition orphan (ps : list (list Component)) (p : str) (fs : Fs) : bool :=
  is_dir p fs && negb (is_partial p) && negb (has_subdirs p fs) && bool_decide (components p ∉ ps).

Definition remove_orphan_entries (top : str) (ps : list (list Component)) (fr : Fs * GcReport) : Fs * GcReport :=
  foldl (λ fr p, if orphan ps p fr.1 then discard p fr else fr) fr (walk top fr.1).

(** ** Rows *)

Definition full (s : str) : str := path_join root s.

Definition check_archive (e : CacheEntry) (w : World) : World :=
  match archive_path e with
  | Some s =>
      if exists_ (full s) (fs w) then w
      else {| db := clear_archive (id e) (db w); fs := fs w; report := count_rows (report w) |}
  | None => w
  end.

Definition check_installed (e : CacheEntry) (w : World) : World :=
  match installed_path e with
  | Some s =>
      if exists_ (full s) (fs w) then
        if exists_ (install_complete_sentinel (full s)) (fs w) then w
        else
          let '(f, r) := discard (full s) (fs w, report w) in
          {| db := clear_installed (id e) (db w); fs := f; report := r |}
      else {| db := clear_installed (id e) (db w); fs := fs w; report := count_rows (report w) |}
  | None => w
  end.

Definition check_entry (w : World) (e : CacheEntry) : World := check_installed e (check_archive e w).

Definition known_paths (d : CacheIndex) : list (list Component) :=
  mbind (λ e, (λ s, components (full s)) <$> (option_list (archive_path e) ++ option_list (installed_path e)))
    (all_entries d).

Definition reconcile (d : CacheIndex) (f : Fs) : GcReport * (CacheIndex * Fs) :=
  let w := foldl check_entry {| db := d; fs := f; report := new_report 0 |} (all_entries d) in
  let ps := known_paths (db w) in
  let '(f, r) :=
    foldl (λ fr top, if exists_ top fr.1 then remove_orphan_entries top ps (remove_partial_dirs top fr) else fr)
      (fs w, report w) [archives_root root; installed_root root] in
  (r, (db w, f)).
End Reconcile.

(** ** Rows are accurate after the first phase *)

Section Facts.
Context {HS : Sha256} {HU : UnicodeAlnum} `{HIOk : !HashIterOk HI}.
Context (root : str) (denied : str → bool) (link_subdirs : str → bool).

Lemma discard_sub p fr : (discard denied p fr).1 ⊆ fr.1.
Proof. apply remove_dir_all_sub. Qed.

Lemma foldl_discard_sub {A} (P : A → Fs * GcReport → bool) (g : A → str) l fr :
  (foldl (λ fr a, if P a fr then discard denied (g a) fr else fr) fr l).1 ⊆ fr.1.
Proof.
  revert fr. induction l as [|a l IH]; intros fr; cbn; [done|]. etrans; [apply IH|].
  case_match; [apply discard_sub|done].
Qed.

(** ** Rows are accurate *)

Lemma check_archive_cases e w : let w' := check_archive root e w in
  fs w' = fs w ∧ (w' = w ∧ (∀ s, archive_path e = Some s → exists_ (full root s) (fs w) = true) ∨
    db w' = clear_archive (id e) (db w)).
Proof.
  unfold check_archive. destruct (archive_path e) as [s|]; [|naive_solver].
  destruct (exists_ (full root s) (fs w)) eqn:E; [|by split; [|right]].
  split; [done|left; split; [done|]]. by intros s' [= <-].
Qed.

Definition complete (f : Fs) (s : str) : Prop :=
  exists_ (full root s) f = true ∧ exists_ (install_complete_sentinel (full root s)) f = true.

Lemma check_installed_cases e w : let w' := check_installed root denied e w in
  fs w' ⊆ fs w ∧ (w' = w ∧ (∀ s, installed_path e = Some s → complete (fs w) s) ∨
    db w' = clear_installed (id e) (db w)).
Proof.
  unfold check_installed. destruct (installed_path e) as [s|]; [|naive_solver].
  destruct (exists_ (full root s) (fs w)) eqn:E; [|by split; [|right]].
  destruct (exists_ (install_complete_sentinel (full root s)) (fs w)) eqn:E2.
  - split; [done|left; split; [done|]]. by intros s' [= <-].
  - destruct (discard denied (full root s) (fs w, report w)) as [f r] eqn:Ed. split; [|by right].
    cbn [fs]. pose proof (discard_sub (full root s) (fs w, report w)) as H. by rewrite Ed in H.
Qed.

(** [e'] is what is left of the row [e], and what it claims holds on [f]. *)
Definition accurate (f : Fs) (e e' : CacheEntry) : Prop :=
  (id e' = id e ∧ kind e' = kind e ∧ hash e' = hash e ∧ version e' = version e ∧ pinned e' = pinned e) ∧
  (∀ s, archive_path e' = Some s → archive_path e = Some s ∧ exists_ (full root s) f = true) ∧
  (∀ s, installed_path e' = Some s → installed_path e = Some s ∧ complete f s).

Lemma exists_sub p f f' : f' ⊆ f → exists_ p f' = true → exists_ p f = true.
Proof.
  unfold exists_. intros Hs. destruct (f' !! p) as [nd|] eqn:E; [|done]. by rewrite (lookup_weaken _ _ _ _ E Hs).
Qed.

Lemma complete_sub s f f' : f' ⊆ f → complete f' s → complete f s.
Proof. intros Hs [? ?]. split; by eapply exists_sub. Qed.

(** Checking a row settles it and leaves the others alone. *)
Lemma check_entry_spec w e : entries (db w) !! id e = Some e → let w' := check_entry root denied w e in
  fs w' ⊆ fs w ∧ (∀ i, i ≠ id e → entries (db w') !! i = entries (db w) !! i) ∧
  (∃ e', entries (db w') !! id e = Some e' ∧ accurate (fs w) e e') ∧ (index_ok (db w) → index_ok (db w')).
Proof.
  intros He w'. subst w'. unfold check_entry. set (w1 := check_archive root e w).
  destruct (check_archive_cases e w) as [Ef H1]. fold w1 in Ef, H1.
  destruct (check_installed_cases e w1) as [Hf H2]. split; [by rewrite <- Ef|]. rewrite Ef in H2.
  assert ((∀ i, i ≠ id e → entries (db w1) !! i = entries (db w) !! i) ∧ (index_ok (db w) → index_ok (db w1)) ∧
    ∃ e1, entries (db w1) !! id e = Some e1 ∧ (∀ s, archive_path e1 = Some s → archive_path e = Some s ∧ exists_ (full root s) (fs w) = true) ∧
      installed_path e1 = installed_path e ∧ id e1 = id e ∧ kind e1 = kind e ∧ hash e1 = hash e ∧ version e1 = version e ∧
      pinned e1 = pinned e) as (Ho1 & Hok1 & e1 & He1 & Ha1 & Hi1 & K1).
  { destruct H1 as [[-> Hs]| ->].
    - split_and!; [done|done|]. exists e. naive_solver.
    - split_and!; [intros i Hi; unfold clear_archive, update_entry; cbn; by rewrite lookup_alter_ne|by apply ok_update|].
      exists (set_archive None None None None e). split; [|done].
      apply update_entry_lookup. exists e. by rewrite decide_True. }
  destruct H2 as [[-> Hs]| ->].
  - split_and!; [done| |done]. exists e1. split; [done|]. split_and!; try apply K1; [done|].
    rewrite Hi1. intros s Hs'. split; [done|]. by apply Hs.
  - split_and!; [| |intros Hok; by apply ok_update, Hok1].
    + intros i Hi. rewrite <- Ho1 by done. unfold clear_installed, update_entry. cbn. by rewrite lookup_alter_ne.
    + exists (set_installed None None None e1). split; [apply update_entry_lookup; exists e1; by rewrite decide_True|].
      split_and!; try apply K1; done.
Qed.

Lemma check_all_spec es w f : NoDup (id <$> es) → Forall (λ e, entries (db w) !! id e = Some e) es →
  fs w ⊆ f → let w' := foldl (check_entry root denied) w es in
  fs w' ⊆ fs w ∧ (index_ok (db w) → index_ok (db w')) ∧
  (∀ i, i ∉ id <$> es → entries (db w') !! i = entries (db w) !! i) ∧
  ∀ e, e ∈ es → ∃ e', entries (db w') !! id e = Some e' ∧ accurate f e e'.
Proof.
  revert w. induction es as [|e es IH]; intros w Hnd Hes Hf; cbn [foldl].
  { split_and!; try done. intros e He. by apply not_elem_of_nil in He. }
  cbn in Hnd. apply NoDup_cons in Hnd as [Hnotin Hnd]. apply Forall_cons in Hes as [He Hes].
  destruct (check_entry_spec w e He) as (H1 & H2 & (e' & He' & H3) & H4).
  destruct (IH (check_entry root denied w e)) as (G1 & G2 & G3 & G4); [done| |by etrans|].
  { apply Forall_forall. intros e0 He0. rewrite H2; [by apply (proj1 (Forall_forall _ _) Hes)|].
    intros E. apply Hnotin. rewrite <- E. by apply list_elem_of_fmap_2. }
  split_and!.
  - by etrans.
  - auto.
  - intros i [Hi1 Hi2]%not_elem_of_cons. rewrite G3 by done. by apply H2.
  - intros e0 [->|He0]%elem_of_cons; [|by apply G4]. exists e'. rewrite G3 by done. split; [done|].
    destruct H3 as (A1 & A2 & A3). split_and!; [apply A1..| |].
    + intros s Hs. destruct (A2 s Hs). split; [done|]. by eapply exists_sub.
    + intros s Hs. destruct (A3 s Hs). split; [done|]. by eapply complete_sub.
Qed.

Lemma check_all_leases es w : leases (db (foldl (check_entry root denied) w es)) = leases (db w).
Proof.
  revert w. induction es as [|e es IH]; intros w; cbn [foldl]; [done|]. rewrite IH. unfold check_entry.
  destruct (check_installed_cases e (check_archive root e w)) as [_ [[-> _]| ->]];
    destruct (check_archive_cases e w) as [_ [[E _]|E]]; rewrite ?E; try done; cbn; by rewrite E.
Qed.

(** ** No staging directory is left *)

Lemma is_dir_sub p f f' : f' ⊆ f → is_dir p f' = true → is_dir p f = true.
Proof.
  unfold is_dir. intros Hs. destruct (f' !! p) as [nd|] eqn:E; [|done]. by rewrite (lookup_weaken _ _ _ _ E Hs).
Qed.

Lemma elem_of_read_dir p q (f : Fs) : q ∈ read_dir p f ↔ child_of p q = true ∧ is_Some (f !! q).
Proof.
  unfold read_dir. rewrite list_elem_of_filter. apply and_iff_compat_l. rewrite (hm_iter_perm f).
  rewrite list_elem_of_fmap. split.
  - intros ([q' nd] & -> & H%elem_of_map_to_list). by exists nd.
  - intros [nd H]. exists (q, nd). split; [done|]. by apply elem_of_map_to_list.
Qed.

Lemma walk_mono n n' p q (f f' : Fs) : f' ⊆ f → n ≤ n' → q ∈ walkdir_sync n p f' → q ∈ walkdir_sync n' p f.
Proof.
  intros Hs. revert n' p. induction n as [|n IH]; intros [|n'] p Hn; cbn [walkdir_sync]; try lia;
    try by intros ?%not_elem_of_nil.
  destruct (is_dir p f') eqn:Ed; [|by intros ?%not_elem_of_nil]. rewrite (is_dir_sub _ _ _ Hs Ed).
  rewrite !list_elem_of_bind. intros (c & Hq & Hc%elem_of_read_dir). exists c.
  destruct Hc as [Hc [nd Hnd]]. split; [|apply elem_of_read_dir; split; [done|exists nd; by eapply lookup_weaken]].
  rewrite (lookup_weaken _ _ _ _ Hnd Hs). rewrite Hnd in Hq. apply elem_of_cons in Hq as [->|Hq]; [by left|right].
  destruct nd; try by apply not_elem_of_nil in Hq. apply IH; [lia|done].
Qed.

Lemma walk_sub top q (f f' : Fs) : f' ⊆ f → q ∈ walk top f' → q ∈ walk top f.
Proof. intros Hs. apply walk_mono; [done|]. pose proof (map_subseteq_size _ _ Hs). lia. Qed.

Lemma discard_gone p fr : denied p = false → is_dir p (discard denied p fr).1 = false.
Proof.
  intros Hd. unfold discard, remove_dir_all, is_dir. cbn [fst]. destruct (fr.1 !! p) as [[| |t]|] eqn:E; cbn [snd];
    rewrite ?Hd; cbn [snd]; [by rewrite E| | |by rewrite E].
  - destruct (cut p fr.1 !! p) eqn:Ec; [|done]. apply cut_lookup in Ec as [_ H].
    unfold within in H. by rewrite bool_decide_true in H.
  - by rewrite lookup_delete_eq.
Qed.

Lemma partials_removed l fr q : q ∈ l → is_partial q = true → denied q = false →
  is_dir q (foldl (λ fr p, if is_dir p fr.1 && is_partial p then discard denied p fr else fr) fr l).1 = false.
Proof.
  intros Hq Hp Hd. revert fr. induction l as [|p l IH]; intros fr; [by apply not_elem_of_nil in Hq|]. cbn [foldl].
  apply elem_of_cons in Hq as [->|Hq]; [|by apply IH].
  apply not_true_iff_false. intros H.
  apply (is_dir_sub _ _ _ (foldl_discard_sub (λ p fr, is_dir p fr.1 && is_partial p) (λ p, p) l _)) in H.
  rewrite Hp, andb_true_r in H. destruct (is_dir p fr.1) eqn:E; [by rewrite discard_gone in H|by rewrite E in H].
Qed.

Lemma remove_orphans_sub top ps fr : (remove_orphan_entries denied link_subdirs top ps fr).1 ⊆ fr.1.
Proof. apply (foldl_discard_sub (λ p fr, orphan link_subdirs ps p fr.1) (λ p, p)). Qed.

Lemma remove_partials_sub top fr : (remove_partial_dirs denied top fr).1 ⊆ fr.1.
Proof. apply (foldl_discard_sub (λ p fr, is_dir p fr.1 && is_partial p) (λ p, p)). Qed.

Definition clean_top (ps : list (list Component)) (fr : Fs * GcReport) (top : str) : Fs * GcReport :=
  if exists_ top fr.1 then remove_orphan_entries denied link_subdirs top ps (remove_partial_dirs denied top fr) else fr.

Lemma clean_top_sub ps fr top : (clean_top ps fr top).1 ⊆ fr.1.
Proof. unfold clean_top. case_match; [|done]. etrans; [apply remove_orphans_sub|apply remove_partials_sub]. Qed.

Lemma clean_top_partial ps fr top (f : Fs) q : f ⊆ (clean_top ps fr top).1 →
  q ∈ walk top f → is_partial q = true → is_dir q f = true → denied q = true.
Proof.
  intros Hf Hq Hp Hdir. destruct (denied q) eqn:Ed; [done|exfalso]. unfold clean_top in Hf.
  destruct (exists_ top fr.1) eqn:Et.
  - assert (f ⊆ (remove_partial_dirs denied top fr).1) as Hf1 by (etrans; [exact Hf|apply remove_orphans_sub]).
    assert (q ∈ walk top fr.1) as Hq1 by (eapply walk_sub; [|exact Hq]; etrans; [exact Hf1|apply remove_partials_sub]).
    apply (is_dir_sub _ _ _ Hf1) in Hdir. unfold remove_partial_dirs in Hdir.
    by rewrite partials_removed in Hdir.
  - apply (walk_sub top q _ _ Hf) in Hq. unfold walk in Hq. cbn [walkdir_sync] in Hq.
    assert (is_dir top fr.1 = false) as E.
    { unfold exists_, is_dir in *. by destruct (fr.1 !! top) as [[| |[]]|]. }
    rewrite E in Hq. by apply not_elem_of_nil in Hq.
Qed.

(** C35: reconciliation makes the index truthful.  It only removes; the index
    stays consistent and keeps every row; an archive or installation a row
    still claims was there, an installation completely; and no staging
    directory is left where the cache keeps its entries, unless the system
    refuses to remove it. *)
Theorem reconcile_truthful d f r d' f' : index_ok d →
  reconcile root denied link_subdirs d f = (r, (d', f')) →
  f' ⊆ f ∧ index_ok d' ∧ leases d' = leases d ∧
  (∀ i e, entries d !! i = Some e → ∃ e', entries d' !! i = Some e' ∧ accurate f e e') ∧
  (∀ top q, top = archives_root root ∨ top = installed_root root →
     q ∈ walk top f' → is_partial q = true → is_dir q f' = true → denied q = true).
Proof.
  intros Hok. unfold reconcile. set (w0 := {| db := d; fs := f; report := new_report 0 |}).
  destruct (check_all_spec (all_entries d) w0 f) as (H1 & H2 & H3 & H4).
  { apply (current_ids d); [by apply rows_NoDup|by apply rows_current]. }
  { by apply rows_current. }
  { done. }
  set (w := foldl (check_entry root denied) w0 (all_entries d)) in *.
  change (foldl (λ fr top, if exists_ top fr.1 then _ else fr) (fs w, report w) _)
    with (clean_top (known_paths root (db w)) (clean_top (known_paths root (db w)) (fs w, report w) (archives_root root)) (installed_root root)).
  set (fr1 := clean_top _ _ (archives_root root)). destruct (clean_top _ fr1 _) as [f2 r2] eqn:E2.
  intros [= <- <- <-].
  assert (f2 ⊆ fr1.1) as Hs2.
  { pose proof (clean_top_sub (known_paths root (db w)) fr1 (installed_root root)) as H. by rewrite E2 in H. }
  split_and!.
  - etrans; [exact Hs2|]. etrans; [apply clean_top_sub|exact H1].
  - by apply H2.
  - apply check_all_leases.
  - intros i e He. destruct (ok_id d Hok _ _ He) as [Hid _]. subst i. apply H4, elem_of_rows; done.
  - intros top q [->| ->] Hq Hp Hd; eapply clean_top_partial; [|exact Hq|done|done| |exact Hq|done|done].
    + exact Hs2.
    + by rewrite E2.
Qed.
End Facts.

(** ** Findings *)

#[local] Existing Instance sample_digest.
#[local] Instance all_alnum : UnicodeAlnum := λ _, true.

Definition toolchain_index : CacheIndex :=
  (record_install Toolchains (&"https://x.org/gcc.zip") (&"1") (&"installed/gcc") 100 1 empty_index).2.

(** A complete installation with a [bin] directory. *)
Definition toolchain_disk : Fs := {[ &"/c/installed" := Dir; &"/c/installed/gcc" := Dir;
  &"/c/installed/gcc/.install_complete" := File; &"/c/installed/gcc/bin" := Dir; &"/c/installed/gcc/bin/gcc" := File ]}.

(** The walk goes on into the packages: their innermost directories are
    known to no row, and are removed with all their files, though the package
    is indexed and complete. *)
Lemma reconcile_guts_packages :
  let '(r, (d, f)) := reconcile (&"/c") (λ _, false) (λ _, false) toolchain_index toolchain_disk in
  orphan_files_removed r = 1%Z ∧ f !! (&"/c/installed/gcc/bin/gcc") = None ∧
  f !! (&"/c/installed/gcc/.install_complete") = Some File ∧
  installed_path <$> (entries d !! 1%Z) = Some (Some (&"installed/gcc")).
Proof. by vm_compute. Qed.

(** An archive that is recorded as a file, as the [.lnk] resolver does, lies
    in a directory that no row names, and goes with it. *)
Definition blob_index : CacheIndex :=
  (record_archive LnkBlobs (&"https://x.org/blob") (&"1") (&"/c/archives/v/blob") 10 (&"00") 1 empty_index).2.
Definition blob_disk : Fs := {[ &"/c/archives" := Dir; &"/c/archives/v" := Dir; &"/c/archives/v/blob" := File ]}.

Lemma reconcile_removes_blobs :
  let '(_, (d, f)) := reconcile (&"/c") (λ _, false) (λ _, false) blob_index blob_disk in
  f !! (&"/c/archives/v/blob") = None ∧
  archive_path <$> (entries d !! 1%Z) = Some (Some (&"/c/archives/v/blob")).
Proof. by vm_compute. Qed.

(** Indexed, but the installation was interrupted; a staging directory is left. *)
Definition stale_disk : Fs := {[ &"/c/installed" := Dir; &"/c/installed/gcc" := Dir;
  &"/c/installed/gcc/README" := File; &"/c/installed/tmp.partial" := Dir; &"/c/installed/tmp.partial/x" := File ]}.

Lemma toolchain_index_ok : index_ok toolchain_index.
Proof. apply (ok_upsert (HIOk := _)); [done..|]. apply index_ok_empty. Qed.

Lemma reconcile_truthful_witness :
  let out := reconcile (&"/c") (λ _, false) (λ _, false) toolchain_index stale_disk in
  index_ok out.2.1 ∧ installed_path <$> (entries out.2.1 !! 1%Z) = Some None ∧
  out.2.2 !! (&"/c/installed/tmp.partial/x") = None ∧
  (&"/c/installed/tmp.partial") ∈ walk (&"/c/installed") stale_disk.
Proof.
  intros out.
  assert (reconcile (&"/c") (λ _, false) (λ _, false) toolchain_index stale_disk = (out.1, (out.2.1, out.2.2))) as Hrun
    by (subst out; by destruct (reconcile _ _ _ _ _) as [? []]).
  destruct (reconcile_truthful (&"/c") (λ _, false) (λ _, false) _ _ _ _ _ toolchain_index_ok Hrun) as (_ & H & _).
  split; [exact H|]. split; [by vm_compute|]. split; [by vm_compute|]. apply (bool_decide_unpack _). by vm_compute.
Defined.
