(* ===== verification/InstallLock.v ===== *)
(** * [fbuild-packages-fetch/src/install_lock.rs]: the installation lock

    Processes that install the same package exclude each other with a
    directory: whoever creates it holds the lock, and the others poll until it
    is gone or looks abandoned.  Every access to the file system is a step of
    its own here, so that the steps of any number of tasks interleave. *)
From S2P Require Import Prelude RustStr CachePaths.

(** ** The environment, and what is on disk *)

(** The lock directory: which one it is (a new directory is another one), when
    it was last modified, in nanoseconds, and its [owner.txt]. *)
Record LockDir := { serial : Z; modified : Z; owner_txt : option str }.

(** The living processes with the path of their executable, if the system
    tells it. *)
Record Os := { clock : Z; procs : gmap Z (option str); lock_dir : option LockDir; serials : Z }.

Definition set_lock (l : option LockDir) (os : Os) : Os :=
  {| clock := clock os; procs := procs os; lock_dir := l; serials := serials os |}.

Definition pid_is_alive (pid : Z) (os : Os) : bool :=
  negb (bool_decide (pid = 0%Z)) && bool_decide (is_Some (procs os !! pid)).

Definition pid_executable_path (pid : Z) (os : Os) : option str :=
  if decide (pid = 0%Z) then None else mjoin (procs os !! pid).

(** [Path::file_name], and [Path::file_stem]: what is in front of the last
    dot, if anything is. *)
Definition path_file_name (p : str) : option str :=
  match last (components p) with Some (Normal n) => Some n | _ => None end.
Definition stem_of (name : str) : str :=
  match find_char "." (reverse name) with
  | Some k => match take (length name - S k) name with [] => name | b => b end
  | None => name
  end.
Definition path_file_stem (p : str) : option str := stem_of <$> path_file_name p.

(** [current_image] is the path of the own executable; the texts of the model
    are UTF-8, so [to_str] succeeds. *)
Definition current_exe_stem (self : Z) (os : Os) : option str := pid_executable_path self os ≫= path_file_stem.

(** ** Durations, in nanoseconds *)

Definition secs (n : Z) : Z := n * 1000000000.
Definition INSTALL_LOCK_STALE_AFTER : Z := secs (2 * 60 * 60).
Definition INSTALL_LOCK_POLL : Z := 250 * 1000000.
Definition MISSING_OWNER_GRACE : Z := secs 30.

Definition install_lock_stale_after (env : str → option str) : Z :=
  match env (&"FBUILD_INSTALL_LOCK_STALE_SECS") ≫= parse_uint u64_max with
  | Some n => if decide (0 < n)%Z then secs n else INSTALL_LOCK_STALE_AFTER
  | None => INSTALL_LOCK_STALE_AFTER
  end.

(** ** Where the lock is *)

(** [Path::parent]: the last component is cut off, with the separators and
    dots around it. *)
Fixpoint drop_ignored (ws : list str) : list str :=
  match ws with
  | w :: rest =>
      if decide (component_of w = None ∧ ¬ (rest = [] ∧ w = &".")) then drop_ignored rest else ws
  | [] => []
  end.
Definition path_parent (p : str) : option str :=
  match drop_ignored (reverse (split_on slash p)) with
  | [] => None
  | _ :: ws =>
      match drop_ignored ws with
      | [] => Some (if starts_with [slash] p then [slash] else [])
      | ws => Some (join [slash] (reverse ws))
      end
  end.

Example path_parent_demo : path_parent <$> [&"/a/b"; &"a//b/."; &"/a"; &"a"; &"/"; &""; &"./a"; &"a/.."]
  = [Some (&"/a"); Some (&"a"); Some (&"/"); Some []; None; None; Some (&"."); Some (&"a")].
Proof. by vm_compute. Qed.

Definition install_lock_dir (install_path : str) : result str str :=
  match path_parent install_path with
  | None => Err (&"install path has no parent: " ++ install_path)
  | Some parent =>
      match path_file_name install_path with
      | None => Err (&"install path has no final component: " ++ install_path)
      | Some name => Ok (path_join parent (&"." ++ name ++ &".install.lock"))
      end
  end.

(** ** The owner's record *)

Record LockOwner := { o_pid : option Z; o_exe_stem : option str }.

Definition owner_text (pid : Z) (stem : option str) (package version : str) (nanos : Z) : str :=
  &"pid=" ++ decimal pid ++ [nl] ++ &"exe_stem=" ++ default [] stem ++ [nl] ++
  &"package=" ++ package ++ [nl] ++ &"version=" ++ version ++ [nl] ++
  &"started_unix_nanos=" ++ decimal nanos ++ [nl].

Definition owner_line (o : LockOwner) (line : str) : LockOwner :=
  match strip_prefix (&"pid=") line with
  | Some v => {| o_pid := parse_uint u32_max (trim v); o_exe_stem := o_exe_stem o |}
  | None =>
      match strip_prefix (&"exe_stem=") line with
      | Some v =>
          let v := trim v in
          if decide (v = []) then o else {| o_pid := o_pid o; o_exe_stem := Some v |}
      | None => o
      end
  end.

(** [raw] is what [read_to_string] gives, if it does. *)
Definition read_lock_owner (raw : option str) : option LockOwner :=
  raw ← raw; Some (foldl owner_line {| o_pid := None; o_exe_stem := None |} (lines raw)).

(** ** Staleness *)

Section Lock.
Context (windows : bool).

Definition stem_eq (left right : str) : bool :=
  if windows then bool_decide (to_ascii_lowercase left = to_ascii_lowercase right) else bool_decide (left = right).

Definition owner_is_dead (owner : LockOwner) (os : Os) : bool :=
  match o_pid owner with
  | None => false
  | Some pid =>
      if negb (pid_is_alive pid os) then true
      else match o_exe_stem owner with
           | Some stem =>
               match pid_executable_path pid os with
               | Some path => match path_file_stem path with Some actual => negb (stem_eq actual stem) | None => false end
               | None => false
               end
           | None => false
           end
  end.

(** [SystemTime::elapsed] fails for a time in the future. *)
Definition lock_age (d : LockDir) (os : Os) : option Z :=
  if decide (modified d ≤ clock os)%Z then Some (clock os - modified d)%Z else None.

(** The verdict on a lock whose [metadata] gave [age], and whose record is
    read afterwards. *)
Definition lock_is_stale_with_grace (age : option Z) (raw : option str) (stale_after missing_owner_grace : Z) (os : Os) : bool :=
  match read_lock_owner raw with
  | Some owner =>
      if owner_is_dead owner os then true
      else match age with Some a => bool_decide (stale_after < a)%Z | None => false end
  | None => match age with Some a => bool_decide (missing_owner_grace ≤ a)%Z | None => false end
  end.

Definition lock_is_stale (age : option Z) (raw : option str) (stale_after : Z) : Os → bool :=
  lock_is_stale_with_grace age raw stale_after MISSING_OWNER_GRACE.

(** ** Acquiring and releasing *)

(** Where a task is in [acquire_install_lock_at], or in the life of the guard
    it returns. *)
Inductive phase :=
  | Trying                       (* about to [create_dir] *)
  | Opening                      (* created; about to open [owner.txt] *)
  | Writing (dir : Z)            (* [owner.txt] of that directory is open *)
  | Cleanup (error : str)        (* [write_lock_owner] failed *)
  | Stating                      (* the directory exists; about to read its [metadata] *)
  | Reading (age : option Z)     (* about to read [owner.txt] *)
  | Reclaiming                   (* stale; about to remove it *)
  | Sleeping (until : Z)
  | Holding (dir : Z)            (* the guard is alive *)
  | Released
  | Failed (error : str).

Record Task := { self : Z; package : str; version : str; logged_wait : bool; statuses : list str; at_ : phase }.

Definition goto (ph : phase) (t : Task) : Task :=
  {| self := self t; package := package t; version := version t; logged_wait := logged_wait t; statuses := statuses t; at_ := ph |}.

Definition publish_wait (t : Task) : Task :=
  if logged_wait t then t
  else {| self := self t; package := package t; version := version t; logged_wait := true;
          statuses := statuses t ++ [&"waiting for another process to install " ++ package t ++ &" " ++ version t];
          at_ := at_ t |}.
Definition forget_wait (t : Task) : Task :=
  {| self := self t; package := package t; version := version t; logged_wait := false; statuses := statuses t; at_ := at_ t |}.

Context (lock_path : str) (stale_after poll : Z).

(** What a write through a handle opened earlier does to the directory. *)
Definition write_text (dir : Z) (text : str) (os : Os) : Os :=
  match lock_dir os with
  | Some d =>
      if decide (serial d = dir) then
        set_lock (Some {| serial := serial d; modified := modified d;
                          owner_txt := (λ old, text ++ drop (length text) old) <$> owner_txt d |}) os
      else os
  | None => os
  end.

Definition open_owner (d : LockDir) (os : Os) : LockDir :=
  {| serial := serial d; owner_txt := Some [];
     modified := match owner_txt d with None => clock os | Some _ => modified d end |}.

(** One step of a task; [io] tells whether the system call it makes succeeds,
    as far as nothing else decides that.  The lines of the record are written
    at once; errors are given without the system's own message. *)
Definition task_step (io : bool) (t : Task) (os : Os) : Task * Os :=
  match at_ t with
  | Trying =>
      if negb io then (goto (Failed (&"failed to acquire install lock " ++ lock_path)) t, os)
      else match lock_dir os with
           | None =>
               (goto Opening t,
                {| clock := clock os; procs := procs os; serials := serials os + 1;
                   lock_dir := Some {| serial := serials os; modified := clock os; owner_txt := None |} |})
           | Some _ => (goto Stating t, os)
           end
  | Opening =>
      match lock_dir os with
      | Some d => if io then (goto (Writing (serial d)) t, set_lock (Some (open_owner d os)) os)
                  else (goto (Cleanup (&"open")) t, os)
      | None => (goto (Cleanup (&"open")) t, os)
      end
  | Writing dir =>
      if io then
        (goto (Holding dir) t,
         write_text dir (owner_text (self t) (current_exe_stem (self t) os) (package t) (version t) (clock os)) os)
      else (goto (Cleanup (&"write")) t, os)
  | Cleanup e => (goto (Failed e) t, if io then set_lock None os else os)
  | Stating =>
      match lock_dir os with
      | Some d => if io then (goto (Reading (lock_age d os)) t, os) else (goto Reclaiming t, os)
      | None => (goto Reclaiming t, os)
      end
  | Reading age =>
      let raw := if io then lock_dir os ≫= owner_txt else None in
      if lock_is_stale age raw stale_after os then (goto Reclaiming t, os)
      else (goto (Sleeping (clock os + poll)) (publish_wait t), os)
  | Reclaiming =>
      if io && bool_decide (is_Some (lock_dir os)) then (goto Trying (forget_wait t), set_lock None os)
      else (goto (Failed (&"failed to remove stale install lock " ++ lock_path)) t, os)
  | Sleeping until => if decide (until ≤ clock os)%Z then (goto Trying t, os) else (t, os)
  | Holding _ => (goto Released t, if io then set_lock None os else os)
  | Released | Failed _ => (t, os)
  end.

(** ** All tasks *)

Record World := { os : Os; tasks : gmap nat Task }.

Inductive event :=
  | Step (i : nat) (io : bool)
  | Tick (d : Z)
  | Spawn (pid : Z) (image : option str)
  | Exit (pid : Z)
  | Acquire (i : nat) (pid : Z) (package version : str).

Definition new_task (pid : Z) (package version : str) : Task :=
  {| self := pid; package := package; version := version; logged_wait := false; statuses := []; at_ := Trying |}.

(** An event that cannot happen has no effect.  The tasks of a process end
    with it. *)
Definition world_step (w : World) (e : event) : World :=
  match e with
  | Step i io =>
      match tasks w !! i with
      | Some t => let '(t, o) := task_step io t (os w) in {| os := o; tasks := <[i := t]> (tasks w) |}
      | None => w
      end
  | Tick d =>
      {| os := {| clock := clock (os w) + (0 `max` d); procs := procs (os w); lock_dir := lock_dir (os w); serials := serials (os w) |};
         tasks := tasks w |}
  | Spawn pid image =>
      if decide (procs (os w) !! pid = None ∧ 0 < pid ≤ u32_max)%Z then
        {| os := {| clock := clock (os w); procs := <[pid := image]> (procs (os w)); lock_dir := lock_dir (os w); serials := serials (os w) |};
           tasks := tasks w |}
      else w
  | Exit pid =>
      {| os := {| clock := clock (os w); procs := delete pid (procs (os w)); lock_dir := lock_dir (os w); serials := serials (os w) |};
         tasks := filter (λ it : nat * Task, self it.2 ≠ pid) (tasks w) |}
  | Acquire i pid package version =>
      if decide (tasks w !! i = None ∧ is_Some (procs (os w) !! pid)) then
        {| os := os w; tasks := <[i := new_task pid package version]> (tasks w) |}
      else w
  end.

Definition start (now : Z) : World :=
  {| os := {| clock := now; procs := ∅; lock_dir := None; serials := 0 |}; tasks := ∅ |}.

Definition run (w : World) (es : list event) : World := foldl world_step w es.
End Lock.
