(* ===== verification/LockFacts.v ===== *)
(** * The installation lock excludes, and is not lost

    Who holds the lock is alone with it, as long as nobody creates it anew
    while another task judges the old one and nobody keeps it too long; a lock whose owner is gone is taken over at once, and any
    other within bounded time. *)
From S2P Require Import Prelude RustStr CachePaths InstallLock.
(** ** The owner's record *)

(** A text that is one line, as it is. *)
Definition one_line (s : str) : Prop := nl ∉ s ∧ cr ∉ s.

Lemma one_line_app a b : one_line a → one_line b → one_line (a ++ b).
Proof. unfold one_line. rewrite !elem_of_app. tauto. Qed.

Lemma lines_key k v s : one_line k → one_line v → lines (k ++ v ++ [nl] ++ s) = (k ++ v) :: lines s.
Proof. intros Hk Hv. rewrite (app_assoc k v). apply lines_cons; by apply one_line_app. Qed.

Lemma decimal_one_line n : (0 ≤ n)%Z → one_line (decimal n).
Proof. intros Hn. by apply digits_clean, decimal_digits. Qed.

Lemma key_one_line k : bool_decide (nl ∉ k ∧ cr ∉ k) = true → one_line k.
Proof. by intros H%bool_decide_eq_true. Qed.

Lemma owner_line_pid o v : owner_line o (&"pid=" ++ v) = {| o_pid := parse_uint u32_max (trim v); o_exe_stem := o_exe_stem o |}.
Proof. unfold owner_line. by rewrite strip_prefix_app. Qed.

Lemma owner_line_stem o v : owner_line o (&"exe_stem=" ++ v) =
  if decide (trim v = []) then o else {| o_pid := o_pid o; o_exe_stem := Some (trim v) |}.
Proof. unfold owner_line. rewrite strip_prefix_app. reflexivity. Qed.

Lemma owner_line_other o k v : k ∈ [&"package="; &"version="; &"started_unix_nanos="] → owner_line o (k ++ v) = o.
Proof. rewrite !elem_of_cons, elem_of_nil. by intros [->|[->|[->|[]]]]. Qed.

(** What an executable may be called for its name to survive. *)
Definition plain_stem (s : str) : Prop := s ≠ [] ∧ trim s = s ∧ one_line s.

Lemma read_owner_text pid stem pkg ver nanos : (0 ≤ pid ≤ u32_max)%Z → (0 ≤ nanos)%Z →
  (∀ s, stem = Some s → plain_stem s) → one_line pkg → one_line ver →
  read_lock_owner (Some (owner_text pid stem pkg ver nanos)) = Some {| o_pid := Some pid; o_exe_stem := stem |}.
Proof.
  intros Hp Hn Hs Hpkg Hver.
  assert (one_line (default [] stem)) as Hst by (destruct stem as [s|]; [by apply (Hs s)|by apply key_one_line]).
  unfold read_lock_owner, owner_text. cbn [mbind option_bind].
  assert (∀ n, (0 ≤ n)%Z → one_line (decimal n)) as Hd by apply decimal_one_line.
  rewrite !lines_key by (done || (by apply key_one_line) || (apply Hd; lia)).
  rewrite <- (app_nil_r [nl]), lines_key by ((by apply key_one_line) || (apply Hd; lia)).
  cbn [foldl]. rewrite owner_line_pid, owner_line_stem. rewrite !owner_line_other by (apply (bool_decide_unpack _); by vm_compute).
  rewrite (digits_trim (decimal pid)), parse_uint_decimal by (done || (apply decimal_digits; lia)). cbn [o_pid o_exe_stem].
  destruct stem as [s|]; cbn [from_option id]; [|by rewrite trim_nil].
  destruct (Hs s) as (H1 & H2 & _); [done|]. unfold id. by rewrite H2, decide_False.
Qed.

(** the record a holder leaves is read back: its process id and the name
    of its executable, when that name neither is empty nor starts or ends with
    white space, and no text in the record spans lines. *)
Theorem owner_roundtrip pid stem pkg ver nanos : (0 ≤ pid ≤ u32_max)%Z → (0 ≤ nanos)%Z →
  (∀ s, stem = Some s → plain_stem s) → one_line pkg → one_line ver →
  read_lock_owner (Some (owner_text pid stem pkg ver nanos)) = Some {| o_pid := Some pid; o_exe_stem := stem |}.
Proof. apply read_owner_text. Qed.

Lemma owner_roundtrip_witness :
  read_lock_owner (Some (owner_text 4711 (Some (&"fbuild-daemon")) (&"gcc") (&"12.2") 99)) =
  Some {| o_pid := Some 4711%Z; o_exe_stem := Some (&"fbuild-daemon") |}.
Proof.
  apply (owner_roundtrip 4711 (Some (&"fbuild-daemon")) (&"gcc") (&"12.2") 99); try done.
  - intros s [= <-]. split; [done|]. split; [by vm_compute|]. by apply key_one_line.
  - by apply key_one_line.
  - by apply key_one_line.
Defined.

(** ** Exclusion *)

Section Exclusion.
Context (windows : bool) (lock_path : str) (stale_after poll : Z).
#[local] Abbreviation step := (world_step windows lock_path stale_after poll).
#[local] Abbreviation runs := (run windows lock_path stale_after poll).
#[local] Abbreviation tstep := (task_step windows lock_path stale_after poll).

(** The lock directory is the task's own. *)
Definition occupies (ph : phase) : bool :=
  match ph with Opening | Writing _ | Cleanup _ | Holding _ => true | _ => false end.

(** Between the failed attempt to create the directory and the verdict on it,
    or its removal. *)
Definition looks (ph : phase) : bool := match ph with Stating | Reading _ | Reclaiming => true | _ => false end.
Definition reads (ph : phase) : bool := match ph with Stating | Reading _ => true | _ => false end.

(** What [owner.txt] says as the task proceeds. *)
Definition marks (o : Os) (t : Task) (d : LockDir) : Prop :=
  match at_ t with
  | Opening => owner_txt d = None
  | Writing k => serial d = k ∧ owner_txt d = Some []
  | Cleanup _ => owner_txt d = None ∨ owner_txt d = Some []
  | Holding k => serial d = k ∧ ∃ nanos, (0 ≤ nanos)%Z ∧
      owner_txt d = Some (owner_text (self t) (current_exe_stem (self t) o) (package t) (version t) nanos)
  | _ => True
  end.

Record exclusive (w : World) : Prop := {
  ex_lock i t : tasks w !! i = Some t → occupies (at_ t) = true → ∃ d, lock_dir (os w) = Some d ∧ marks (os w) t d;
  ex_one i j t u : tasks w !! i = Some t → tasks w !! j = Some u →
    occupies (at_ t) = true → occupies (at_ u) = true → i = j;
  ex_alive i t : tasks w !! i = Some t → is_Some (procs (os w) !! self t);
  ex_clock : (0 ≤ clock (os w))%Z;
}.

(** A waiter that removes the lock does so while nobody has it. *)
Definition sound_event (w : World) (e : event) : Prop :=
  match e with
  | Step i true =>
      ∀ t, tasks w !! i = Some t → at_ t = Reclaiming → ∀ j u, tasks w !! j = Some u → occupies (at_ u) = false
  | _ => True
  end.

Lemma marks_procs o o' t d : procs o' !! self t = procs o !! self t → marks o t d → marks o' t d.
Proof. intros E. unfold marks, current_exe_stem, pid_executable_path. by rewrite E. Qed.

Lemma task_step_procs io t o : procs (tstep io t o).2 = procs o ∧ clock (tstep io t o).2 = clock o ∧ self (tstep io t o).1 = self t ∧
  package (tstep io t o).1 = package t ∧ version (tstep io t o).1 = version t.
Proof.
  unfold task_step, write_text, publish_wait, forget_wait. destruct (at_ t), io; repeat (case_match; try done); cbn; by repeat case_match.
Qed.

(** A step of a task without the lock leaves it alone, or creates or reclaims
    it; the task that has it keeps its mark up to date, or gives it up. *)
Lemma task_step_free io t o : occupies (at_ t) = false → let '(t', o') := tstep io t o in
  (lock_dir o' = lock_dir o ∧ occupies (at_ t') = false) ∨
  (lock_dir o = None ∧ at_ t' = Opening ∧ ∃ d, lock_dir o' = Some d ∧ owner_txt d = None) ∨
  (at_ t = Reclaiming ∧ io = true ∧ occupies (at_ t') = false).
Proof.
  unfold task_step. intros Ho. destruct (at_ t) eqn:Ea; try done.
  - destruct io; cbn; [|by left]. destruct (lock_dir o) eqn:El; cbn; [left; by rewrite El|right; left]. eauto.
  - destruct (lock_dir o) eqn:El; [destruct io|]; left; by rewrite El.
  - destruct (lock_is_stale _ _ _ _ _); left; [done|]. unfold publish_wait. by destruct (logged_wait t).
  - destruct io; cbn; [|by left]. destruct (bool_decide _); [|by left]. by right; right.
  - case_decide; left; [done|]. by rewrite Ea.
  - left. by rewrite Ea.
  - left. by rewrite Ea.
Qed.

Lemma task_step_occupant io t o d : (0 ≤ clock o)%Z → occupies (at_ t) = true → lock_dir o = Some d → marks o t d →
  let '(t', o') := tstep io t o in
  occupies (at_ t') = false ∨ ∃ d', lock_dir o' = Some d' ∧ marks o' t' d'.
Proof.
  unfold task_step, marks. intros Hck Ho Hd Hm. destruct (at_ t) eqn:Ea; try done.
  - rewrite Hd. destruct io; right; [|exists d; cbn; auto]. by exists (open_owner d o).
  - destruct Hm as [Hk Ht]. destruct io; right; [|exists d; cbn; auto]. unfold write_text. rewrite Hd, decide_True by done.
    eexists. split; [done|]. cbn [at_ goto self package version]. split; [done|]. exists (clock o). split; [done|]. cbn [owner_txt].
    rewrite Ht. cbn [fmap option_fmap option_map]. by rewrite drop_nil, app_nil_r.
  - destruct io; by left.
  - by left.
Qed.

(** A record that is there stays. *)
Lemma task_step_record io t o d d' : lock_dir o = Some d → lock_dir (tstep io t o).2 = Some d' → owner_txt d' = None → owner_txt d = None.
Proof.
  unfold task_step, write_text. intros Hd. destruct (at_ t), io; repeat (case_match; simplify_eq/=; try congruence).
  all: try (intros; simplify_eq/=; congruence). intros [= <-]. cbn. by destruct (owner_txt d).
Qed.

Lemma exclusive_task i io w t : exclusive w → sound_event w (Step i io) → tasks w !! i = Some t →
  exclusive {| os := (tstep io t (os w)).2; tasks := <[i := (tstep io t (os w)).1]> (tasks w) |}.
Proof.
  intros [H1 H2 H3 H4] Hs Et. destruct (task_step_procs io t (os w)) as (Ep & Ec & Ese & _).
  assert (∀ j u, <[i := (tstep io t (os w)).1]> (tasks w) !! j = Some u → is_Some (procs (tstep io t (os w)).2 !! self u)) as H3'.
  { intros j u [[-> <-]|[_ Hu]]%lookup_insert_Some; rewrite Ep, ?Ese; eauto. }
  assert (0 ≤ clock (tstep io t (os w)).2)%Z as H4' by by rewrite Ec.
  assert (∀ u d, marks (os w) u d → marks (tstep io t (os w)).2 u d) as Hmk by (intros u d; apply marks_procs; by rewrite Ep).
  destruct (occupies (at_ t)) eqn:Eo.
  - destruct (H1 i t Et Eo) as (d & Hd & Hm). pose proof (task_step_occupant io t (os w) d H4 Eo Hd Hm) as Hc.
    destruct (tstep io t (os w)) as [t' o']. cbn [fst snd] in *.
    assert (∀ j u, <[i:=t']> (tasks w) !! j = Some u → occupies (at_ u) = true → j = i ∧ u = t') as Hu.
    { intros j u [[-> ->]|[Hne Hu]]%lookup_insert_Some Hou; [done|]. by destruct Hne; apply (H2 i j t u). }
    split; cbn; [| |done|done].
    + intros j u Hj Hou. destruct (Hu j u Hj Hou) as [-> ->]. destruct Hc as [Hc|Hc]; [congruence|done].
    + intros j k u v Hj Hk Hou Hov. destruct (Hu j u Hj Hou) as [-> _]. by destruct (Hu k v Hk Hov) as [-> _].
  - pose proof (task_step_free io t (os w) Eo) as Hc. destruct (tstep io t (os w)) as [t' o']. cbn [fst snd] in *.
    destruct Hc as [[Hl Hf]|[(Hl & Ha & d & Hd & Hm)|(Ha & -> & Hf)]]; (split; cbn; [| |done|done]).
    + intros j u [[-> ->]|[Hne Hu]]%lookup_insert_Some Hou; [congruence|]. rewrite Hl. destruct (H1 j u Hu Hou) as (d & ? & ?). eauto.
    + intros j k u v [[-> ->]|[Hne Hu]]%lookup_insert_Some [[-> ->]|[Hne' Hv]]%lookup_insert_Some Hou Hov;
        try congruence. by apply (H2 j k u v).
    + intros j u [[-> ->]|[Hne Hu]]%lookup_insert_Some Hou.
      * exists d. split; [done|]. unfold marks. by rewrite Ha.
      * destruct (H1 j u Hu Hou) as (d' & Hd' & _). congruence.
    + intros j k u v [[-> ->]|[Hne Hu]]%lookup_insert_Some [[-> ->]|[Hne' Hv]]%lookup_insert_Some Hou Hov; [done|..].
      * destruct (H1 k v Hv Hov) as (d' & Hd' & _). congruence.
      * destruct (H1 j u Hu Hou) as (d' & Hd' & _). congruence.
      * by apply (H2 j k u v).
    + intros j u [[-> ->]|[Hne Hu]]%lookup_insert_Some Hou; [congruence|].
      rewrite (Hs t Et Ha j u Hu) in Hou. done.
    + intros j k u v [[-> ->]|[Hne Hu]]%lookup_insert_Some [[-> ->]|[Hne' Hv]]%lookup_insert_Some Hou Hov;
        try congruence. by apply (H2 j k u v).
Qed.

Lemma step_task w i io t : tasks w !! i = Some t →
  step w (Step i io) = {| os := (tstep io t (os w)).2; tasks := <[i := (tstep io t (os w)).1]> (tasks w) |}.
Proof. intros Et. cbn [world_step]. rewrite Et. by destruct (tstep io t (os w)). Qed.

Lemma exclusive_step w e : exclusive w → sound_event w e → exclusive (step w e).
Proof.
  intros Hw Hs. destruct e as [i io|d|pid img|pid|i pid pkg ver].
  - destruct (tasks w !! i) as [t|] eqn:Et; [|cbn [world_step]; by rewrite Et].
    rewrite (step_task w i io t Et). by apply exclusive_task.
  - destruct Hw as [H1 H2 H3 H4]. split; cbn; [done..|lia].
  - cbn [world_step]. case_decide as Hp; [|done]. destruct Hw as [H1 H2 H3 H4]. split; cbn; [|done| |done].
    + intros i t Ht Ho. destruct (H1 i t Ht Ho) as (d & Hd & Hm). exists d. split; [done|]. eapply marks_procs; [|exact Hm]. cbn.
      apply lookup_insert_ne. intros E. destruct (H3 i t Ht) as [x Hx]. rewrite <- E in Hx. destruct Hp. congruence.
    + intros i t Ht. rewrite lookup_insert_is_Some'. right. by eapply H3.
  - destruct Hw as [H1 H2 H3 H4]. split; cbn; [| | |done].
    + intros i t [Ht Hne]%map_lookup_filter_Some Ho. destruct (H1 i t Ht Ho) as (d & Hd & Hm). exists d. split; [done|].
      eapply marks_procs; [|exact Hm]. cbn. by apply lookup_delete_ne.
    + intros i j t u [Ht _]%map_lookup_filter_Some [Hu _]%map_lookup_filter_Some. by apply (H2 i j).
    + intros i t [Ht Hne]%map_lookup_filter_Some. cbn in Hne. rewrite lookup_delete_ne by done. by eapply H3.
  - cbn [world_step]. case_decide as Hp; [|done]. destruct Hw as [H1 H2 H3 H4]. split; cbn; [| | |done].
    + intros j u [[-> <-]|[Hne Hu]]%lookup_insert_Some Hou; [done|]. by apply (H1 j).
    + intros j k u v [[-> <-]|[Hne Hu]]%lookup_insert_Some [[-> <-]|[Hne' Hv]]%lookup_insert_Some Hou Hov; try done.
      by apply (H2 j k u v).
    + intros j u [[-> <-]|[Hne Hu]]%lookup_insert_Some; [apply Hp|by eapply H3].
Qed.

(** *** What the environment grants *)

Definition step_of (e : event) : option nat := match e with Step i _ => Some i | _ => None end.
Definition fails_for (i : nat) (e : event) : Prop := e = Step i false.
(** Names that survive in a record. *)
Definition plain_event (e : event) : Prop :=
  match e with
  | Spawn _ (Some image) => from_option plain_stem True (path_file_stem image)
  | Acquire _ _ pkg ver => one_line pkg ∧ one_line ver
  | _ => True
  end.

(** Nobody creates the directory anew while a task is between its failed
    attempt and its verdict or removal; a directory and a record that are
    there can be looked at; who is at work with the lock is done before it is
    [stale_after] old, and opens its record within thirty seconds. *)
Record benign (w : World) (e : event) : Prop := {
  be_still : map_Forall (λ j u, looks (at_ u) = true → step_of e ≠ Some j →
    is_Some (lock_dir (os (step w e))) → is_Some (lock_dir (os w))) (tasks w);
  be_readable : map_Forall (λ j u, reads (at_ u) = true → e ≠ Step j false) (tasks w);
  be_prompt : map_Forall (λ _ u, occupies (at_ u) = true → from_option (λ d,
      (clock (os w) ≤ modified d + stale_after)%Z ∧ (owner_txt d = None → (clock (os w) < modified d + 30 * 10 ^ 9)%Z)) True (lock_dir (os w)))
    (tasks w);
  be_plain : plain_event e;
}.
Definition benign_run (w : World) (es : list event) : Prop := ∀ pre e post, es = pre ++ e :: post → benign (runs w pre) e.

(** What stands in the system is plain. *)
Record plain_world (w : World) : Prop := {
  pl_procs pid image : procs (os w) !! pid = Some image →
    (0 < pid ≤ u32_max)%Z ∧ ∀ p s, image = Some p → path_file_stem p = Some s → plain_stem s;
  pl_tasks i t : tasks w !! i = Some t → one_line (package t) ∧ one_line (version t);
}.
(** A verdict is about the lock that is there: what was read fits, and a task
    that is about to remove the lock finds nobody in it. *)
Record sound (w : World) : Prop := {
  so_exclusive : exclusive w;
  so_plain : plain_world w;
  so_reads i t a : tasks w !! i = Some t → at_ t = Reading (Some a) → ∀ j u d, tasks w !! j = Some u →
    occupies (at_ u) = true → lock_dir (os w) = Some d → (a ≤ stale_after)%Z ∧ (owner_txt d = None → (a < 30 * 10 ^ 9)%Z);
  so_reclaims i t : tasks w !! i = Some t → at_ t = Reclaiming → ∀ j u, tasks w !! j = Some u → occupies (at_ u) = false;
}.

Lemma stem_self w i t s : plain_world w → tasks w !! i = Some t → current_exe_stem (self t) (os w) = Some s → plain_stem s.
Proof.
  unfold current_exe_stem, pid_executable_path. intros [H _] Ht. case_decide; [done|].
  destruct (procs (os w) !! self t) as [image|] eqn:E; [|done]. destruct (H _ _ E) as [_ Hp]. destruct image as [p|]; [|done].
  cbn. intros Hs. by apply (Hp p).
Qed.
Lemma owner_alive w i t : exclusive w → plain_world w → tasks w !! i = Some t →
  owner_is_dead windows {| o_pid := Some (self t); o_exe_stem := current_exe_stem (self t) (os w) |} (os w) = false.
Proof.
  intros Hw Hp Ht. destruct (ex_alive w Hw i t Ht) as [image Hi]. destruct (pl_procs w Hp _ _ Hi) as [Hr _].
  unfold owner_is_dead, pid_is_alive, current_exe_stem, pid_executable_path. cbn [o_pid o_exe_stem].
  rewrite Hi, (bool_decide_false (self t = 0%Z)), (bool_decide_true (is_Some (Some image))), decide_False by (eauto || lia). cbn.
  destruct image as [p|]; [|done]. cbn. destruct (path_file_stem p); [|done]. unfold stem_eq. destruct windows; by rewrite bool_decide_true.
Qed.

(** A lock in use is not stale. *)
Lemma in_use_fresh w j u d age : sound w → tasks w !! j = Some u → occupies (at_ u) = true → lock_dir (os w) = Some d →
  (∀ a, age = Some a → (a ≤ stale_after)%Z ∧ (owner_txt d = None → (a < 30 * 10 ^ 9)%Z)) →
  lock_is_stale windows age (owner_txt d) stale_after (os w) = false.
Proof.
  intros [Hx Hp _ _] Hu Ho Hd Ha. destruct (ex_lock w Hx j u Hu Ho) as (d' & Hd' & Hm). rewrite Hd in Hd'. injection Hd' as <-.
  assert (∀ owner, owner_is_dead windows owner (os w) = false → (if owner_is_dead windows owner (os w) then true else
    match age with Some a => bool_decide (stale_after < a)%Z | None => false end) = false) as Hold.
  { intros owner ->. destruct age as [a|]; [|done]. apply bool_decide_eq_false. destruct (Ha a eq_refl). lia. }
  assert (owner_txt d = None → match age with Some a => bool_decide (MISSING_OWNER_GRACE ≤ a)%Z | None => false end = false) as Hnone.
  { intros En. destruct age as [a|]; [|done]. apply bool_decide_eq_false. destruct (Ha a eq_refl) as [_ Hb]. specialize (Hb En).
    unfold MISSING_OWNER_GRACE, secs. lia. }
  unfold lock_is_stale, lock_is_stale_with_grace. unfold marks in Hm. destruct (at_ u); try done.
  - rewrite Hm. by apply Hnone.
  - destruct Hm as [_ ->]. by apply (Hold {| o_pid := None; o_exe_stem := None |}).
  - destruct Hm as [Hm|Hm]; rewrite Hm; [by apply Hnone|by apply (Hold {| o_pid := None; o_exe_stem := None |})].
  - destruct Hm as (_ & nanos & Hn & ->). destruct (ex_alive w Hx j u Hu) as [image Hi]. destruct (pl_procs w Hp _ _ Hi) as [Hr _].
    destruct (pl_tasks w Hp j u Hu) as [Hpk Hv]. rewrite read_owner_text; [|lia|done|intros s; by eapply stem_self|done..].
    by apply Hold, (owner_alive w j).
Qed.

(** Who has the lock afterwards had it before, or created it. *)
Lemma occupant_before w e k u' : tasks (step w e) !! k = Some u' → occupies (at_ u') = true →
  (∃ u, tasks w !! k = Some u ∧ occupies (at_ u) = true ∧ (step_of e = Some k ∨ u' = u)) ∨
  (lock_dir (os w) = None ∧ is_Some (lock_dir (os (step w e))) ∧ step_of e = Some k).
Proof.
  destruct e as [i io|d|pid img|pid|i pid pkg ver].
  - destruct (tasks w !! i) as [t|] eqn:Et; [|cbn [world_step]; rewrite Et; left; eauto]. rewrite (step_task w i io t Et). cbn [tasks os].
    intros [[<- <-]|[Hne Hu]]%lookup_insert_Some Ho; [|left; eauto].
    destruct (occupies (at_ t)) eqn:Eo; [left; eexists; split_and!; [exact Et|done|by left]|].
    pose proof (task_step_free io t (os w) Eo) as H. destruct (tstep io t (os w)) as [t' o']. cbn [fst snd] in *.
    destruct H as [[_ H]|[(Hl & _ & d & Hd & _)|(_ & _ & H)]]; [congruence|right|congruence]. split_and!; [done|by eexists|done].
  - left; eauto.
  - cbn [world_step]. case_decide; left; eauto.
  - intros [Hu _]%map_lookup_filter_Some. left; eauto.
  - cbn [world_step]. case_decide; [|left; eauto]. cbn [tasks os]. intros [[<- <-]|[_ Hu]]%lookup_insert_Some Ho; [done|left; eauto].
Qed.

(** Who looks at the lock afterwards did so before, or began to. *)
Lemma looker_before w e j u' : tasks (step w e) !! j = Some u' → looks (at_ u') = true →
  (tasks w !! j = Some u' ∧ step_of e ≠ Some j) ∨
  (∃ t io, e = Step j io ∧ tasks w !! j = Some t ∧ u' = (tstep io t (os w)).1).
Proof.
  destruct e as [i io|d|pid img|pid|i pid pkg ver]; try (by left).
  - destruct (tasks w !! i) as [t|] eqn:Et.
    + rewrite (step_task w i io t Et). cbn [tasks]. intros [[<- <-]|[Hne Hu]]%lookup_insert_Some _; [right; eauto|left]. split; [done|]. cbn. congruence.
    + cbn [world_step]. rewrite Et. intros Hu _. left. split; [done|]. cbn. congruence.
  - cbn [world_step]. case_decide; by left.
  - intros [Hu _]%map_lookup_filter_Some _. by left.
  - cbn [world_step]. case_decide; [|by left]. cbn [tasks os]. intros [[<- <-]|[_ Hu]]%lookup_insert_Some Ho; [done|by left].
Qed.

(** A record that is there stays. *)
Lemma record_kept w e d d' : lock_dir (os w) = Some d → lock_dir (os (step w e)) = Some d' → owner_txt d' = None → owner_txt d = None.
Proof.
  intros Hd. destruct e as [i io|x|pid img|pid|i pid pkg ver]; [|cbn; congruence|cbn [world_step]; case_decide; cbn; congruence|cbn; congruence|
    cbn [world_step]; case_decide; cbn; congruence].
  destruct (tasks w !! i) as [t|] eqn:Et; [|cbn [world_step]; rewrite Et; congruence].
  rewrite (step_task w i io t Et). cbn [os]. by apply task_step_record.
Qed.

Lemma plain_step w e : plain_world w → plain_event e → plain_world (step w e).
Proof.
  intros [H1 H2] He. destruct e as [i io|x|pid img|pid|i pid pkg ver]; cbn [world_step].
  - destruct (tasks w !! i) as [t|] eqn:Et; [|by split]. pose proof (task_step_procs io t (os w)) as (Ep & _ & _ & Ek & Ev).
    destruct (tstep io t (os w)) as [t' o']. cbn [fst snd] in *. split; cbn; [by rewrite Ep|].
    intros j u [[<- <-]|[_ Hu]]%lookup_insert_Some; [rewrite Ek, Ev; by eapply H2|by eapply H2].
  - by split.
  - case_decide as Hp; [|by split]. split; cbn; [|done]. intros q image [[<- <-]|[_ Hq]]%lookup_insert_Some; [|by apply H1].
    split; [apply Hp|]. intros p s -> Hs. cbn in He. by rewrite Hs in He.
  - split; cbn; [intros q image [_ Hq]%lookup_delete_Some; by apply H1|]. intros j u [Hu _]%map_lookup_filter_Some. by eapply H2.
  - case_decide as Hp; [|by split]. split; cbn; [done|]. intros j u [[<- <-]|[_ Hu]]%lookup_insert_Some; [done|by eapply H2].
Qed.

(** A task that comes to look, or to a verdict. *)
Lemma comes_to_read io t o a : at_ (tstep io t o).1 = Reading (Some a) → at_ t = Stating ∧ io = true ∧
  ∃ d, lock_dir o = Some d ∧ (a = clock o - modified d)%Z.
Proof.
  unfold task_step. destruct (at_ t) eqn:Ea; try (repeat case_match; cbn; intros E; congruence).
  destruct (lock_dir o) as [d|]; [|done]. destruct io; [|done]. cbn. unfold lock_age. case_decide; [|done].
  intros [= <-]. split_and!; [done..|by exists d].
Qed.
Lemma comes_to_reclaim io t o : at_ (tstep io t o).1 = Reclaiming →
  (at_ t = Stating ∧ (io = false ∨ lock_dir o = None)) ∨
  ∃ age, at_ t = Reading age ∧ (io = false ∨ lock_is_stale windows age (lock_dir o ≫= owner_txt) stale_after o = true).
Proof.
  unfold task_step. destruct (at_ t) eqn:Ea; try (repeat case_match; cbn; intros E; congruence).
  - destruct (lock_dir o) as [d|]; [destruct io; [done|]|]; left; auto.
  - destruct (lock_is_stale _ _ _ _ _) eqn:Es; [|done]. intros _. right. exists age. split; [done|].
    destruct io; [by right|by left].
Qed.

Lemma reads_step w e : sound w → benign w e → ∀ i t a, tasks (step w e) !! i = Some t → at_ t = Reading (Some a) →
  ∀ j u d, tasks (step w e) !! j = Some u → occupies (at_ u) = true → lock_dir (os (step w e)) = Some d →
  (a ≤ stale_after)%Z ∧ (owner_txt d = None → (a < 30 * 10 ^ 9)%Z).
Proof.
  intros [Hx Hp Hr Hc] [B1 B2 B3 B4] i t a Ht Ha j u' d' Hu Ho Hd.
  destruct (looker_before w e i t Ht ltac:(by rewrite Ha)) as [[Hti Hne]|(t0 & io & -> & Ht0 & ->)].
  - destruct (occupant_before w e j u' Hu Ho) as [(u & Hju & Hou & _)|(Hn & Hs & _)].
    + destruct (ex_lock w Hx j u Hju Hou) as (d & Hl & _). destruct (Hr i t a Hti Ha j u d Hju Hou Hl) as [H1 H2].
      split; [done|]. intros E. by apply H2, (record_kept w e d d').
    + pose proof (B1 i t Hti ltac:(by rewrite Ha) Hne Hs) as Hl. rewrite Hn in Hl. by apply is_Some_None in Hl.
  - apply comes_to_read in Ha as (Ha & -> & d & Hl & ->).
    destruct (occupant_before w _ j u' Hu Ho) as [(u & Hju & Hou & _)|(Hn & _)]; [|congruence].
    pose proof (B3 j u Hju Hou) as Hb. rewrite Hl in Hb. destruct Hb as [Hb1 Hb2]. split; [lia|].
    intros E. assert (owner_txt d = None) as E' by by apply (record_kept w _ d d' Hl Hd). specialize (Hb2 E'). lia.
Qed.

Lemma reclaims_step w e : sound w → benign w e → ∀ i t, tasks (step w e) !! i = Some t → at_ t = Reclaiming →
  ∀ j u, tasks (step w e) !! j = Some u → occupies (at_ u) = false.
Proof.
  intros Hsound [B1 B2 B3 B4] i t Ht Ha j u' Hu. pose proof Hsound as [Hx Hp Hr Hc].
  destruct (occupies (at_ u')) eqn:Ho; [exfalso|done].
  destruct (looker_before w e i t Ht ltac:(by rewrite Ha)) as [[Hti Hne]|(t0 & io & -> & Ht0 & ->)].
  - destruct (occupant_before w e j u' Hu Ho) as [(u & Hju & Hou & _)|(Hn & Hs & _)].
    + by rewrite (Hc i t Hti Ha j u Hju) in Hou.
    + pose proof (B1 i t Hti ltac:(by rewrite Ha) Hne Hs) as Hl. rewrite Hn in Hl. by apply is_Some_None in Hl.
  - assert (∃ u d, tasks w !! j = Some u ∧ occupies (at_ u) = true ∧ lock_dir (os w) = Some d) as (u & d & Hju & Hou & Hl).
    { destruct (occupant_before w _ j u' Hu Ho) as [(u & Hju & Hou & _)|(_ & _ & [= <-])].
      - destruct (ex_lock w Hx j u Hju Hou) as (d & Hl & _). eauto.
      - rewrite (step_task w i io t0 Ht0) in Hu. cbn [tasks] in Hu. rewrite lookup_insert_eq in Hu. injection Hu as <-. by rewrite Ha in Ho. }
    assert (io = true) as ->.
    { destruct io; [done|]. exfalso. apply comes_to_reclaim in Ha.
      apply (B2 i t0 Ht0); [|done]. by destruct Ha as [[-> _]|(age & -> & _)]. }
    apply comes_to_reclaim in Ha as [[_ [?|?]]|(age & Ha & [?|Hst])]; [done|congruence|done|].
    rewrite Hl in Hst. cbn in Hst. rewrite (in_use_fresh w j u d age Hsound Hju Hou Hl) in Hst; [done|].
    intros a ->. by apply (Hr i t0 a Ht0 Ha j u d).
Qed.

Lemma sound_step w e : sound w → benign w e → sound (step w e).
Proof.
  intros Hs Hb. split.
  - apply exclusive_step; [apply Hs|]. destruct e as [i [|]|d|pid img|pid|i pid pkg ver]; try done.
    intros t Ht Ha. by apply (so_reclaims w Hs i t).
  - apply plain_step; [apply Hs|apply Hb].
  - by apply reads_step.
  - by apply reclaims_step.
Qed.

Lemma run_snoc w es e : runs w (es ++ [e]) = step (runs w es) e.
Proof. apply foldl_snoc. Qed.

Lemma sound_run w es : sound w → benign_run w es → sound (runs w es).
Proof.
  intros Hw. induction es as [|e es IH] using rev_ind; intros Hs; [done|]. rewrite run_snoc. apply sound_step.
  - apply IH. intros pre e' post ->. apply (Hs pre e' (post ++ [e])). by rewrite <- app_assoc.
  - by apply (Hs es e []).
Qed.

Lemma sound_start now : (0 ≤ now)%Z → sound (start now).
Proof. intros Hn. split; [split|split| |]; try (intros *; cbn; by rewrite lookup_empty). done. Qed.

(** The lines of a record. *)
Definition record_lines (pid : Z) (stem package version : str) (nanos : Z) : list str :=
  [&"pid=" ++ decimal pid; &"exe_stem=" ++ stem; &"package=" ++ package; &"version=" ++ version; &"started_unix_nanos=" ++ decimal nanos].
Lemma owner_text_lines pid stem pkg ver nanos : (0 ≤ pid)%Z → (0 ≤ nanos)%Z → (∀ s, stem = Some s → plain_stem s) → one_line pkg → one_line ver →
  lines (owner_text pid stem pkg ver nanos) = record_lines pid (default [] stem) pkg ver nanos.
Proof.
  intros Hp Hn Hs Hpkg Hver.
  assert (one_line (default [] stem)) as Hst by (destruct stem as [s|]; [by apply (Hs s)|by apply key_one_line]).
  unfold owner_text. assert (∀ n, (0 ≤ n)%Z → one_line (decimal n)) as Hd by apply decimal_one_line.
  rewrite !lines_key by (done || (by apply key_one_line) || (apply Hd; lia)).
  rewrite <- (app_nil_r [nl]), lines_key by ((by apply key_one_line) || (apply Hd; lia)). reflexivity.
Qed.

(** C5: the lock excludes.  However the steps of the tasks interleave with
    crashes, new processes and the passing of time: two tasks that hold the
    lock are one, and the lock directory is that task's and its record names
    the task's process, package and version, line by line.  The interleavings
    are those in which nobody creates the directory while another task is
    between its failed attempt and its verdict on the lock or its removal, a
    lock and a record that are there can be read, whoever has the lock is done
    before it is [stale_after] old and opens the record within thirty seconds,
    and the names of executables, packages and versions fit on a line. *)
Theorem lock_excludes now es : (0 ≤ now)%Z → benign_run (start now) es → let w := runs (start now) es in
  (∀ i j t u k l, tasks w !! i = Some t → tasks w !! j = Some u → at_ t = Holding k → at_ u = Holding l → i = j) ∧
  (∀ i t k, tasks w !! i = Some t → at_ t = Holding k → ∃ d text stem nanos, lock_dir (os w) = Some d ∧ serial d = k ∧
     owner_txt d = Some text ∧ lines text = record_lines (self t) stem (package t) (version t) nanos).
Proof.
  intros Hn Hs w. pose proof (sound_run _ es (sound_start now Hn) Hs) as [Hx Hp _ _]. fold w in Hx, Hp. split.
  - intros i j t u k l Ht Hu Ek El. apply (ex_one w Hx i j t u); [done|done|by rewrite Ek|by rewrite El].
  - intros i t k Ht Ek. destruct (ex_lock w Hx i t Ht) as (d & Hd & Hm); [by rewrite Ek|].
    unfold marks in Hm. rewrite Ek in Hm. destruct Hm as (Hk & nanos & Hnn & Hm).
    eexists d, _, _, nanos. split_and!; [done..|]. destruct (ex_alive w Hx i t Ht) as [image Hi].
    destruct (pl_procs w Hp _ _ Hi) as [Hr _]. destruct (pl_tasks w Hp i t Ht) as [Hpk Hv].
    apply owner_text_lines; [lia|done|intros s; by eapply stem_self|done..].
Qed.
End Exclusion.

(** ** A waiter gets the installation lock

    A task that is not interfered with acquires the lock, whatever was left on
    disk: at once when the recorded owner is gone, and otherwise when the lock
    is too old.  The scenarios at the end show what goes wrong when tasks do
    interfere. *)

Section Live.
Context (windows : bool) (lock_path : str) (stale_after poll : Z).
#[local] Abbreviation step := (world_step windows lock_path stale_after poll).
#[local] Abbreviation tstep := (task_step windows lock_path stale_after poll).

(** The next event when only the task [i] acts: it sleeps as long as it asked
    for. *)
Definition solo_event (i : nat) (w : World) : event :=
  match tasks w !! i with
  | Some t =>
      match at_ t with
      | Sleeping until => if decide (until ≤ clock (os w))%Z then Step i true else Tick (until - clock (os w))
      | _ => Step i true
      end
  | None => Tick 0
  end.
Definition solo (n i : nat) (w : World) : World := Nat.iter n (λ w, step w (solo_event i w)) w.

(** The same for the task and the system alone. *)
Definition set_clock (c : Z) (o : Os) : Os :=
  {| clock := c; procs := procs o; lock_dir := lock_dir o; serials := serials o |}.
Definition solo_step (to : Task * Os) : Task * Os :=
  let '(t, o) := to in
  match at_ t with
  | Sleeping until => if decide (until ≤ clock o)%Z then tstep true t o else (t, set_clock until o)
  | _ => tstep true t o
  end.

Lemma solo_is_step w i t : tasks w !! i = Some t →
  let w' := step w (solo_event i w) in
  tasks w' !! i = Some (solo_step (t, os w)).1 ∧ os w' = (solo_step (t, os w)).2.
Proof.
  intros Ht. unfold solo_event, solo_step. rewrite Ht.
  assert (∀ io, let w' := step w (Step i io) in tasks w' !! i = Some (tstep io t (os w)).1 ∧ os w' = (tstep io t (os w)).2) as H.
  { intros io. cbn [world_step]. rewrite Ht. destruct (tstep io t (os w)). cbn. by rewrite lookup_insert_eq. }
  destruct (at_ t); try apply H. destruct (decide (until ≤ clock (os w))%Z); [apply H|]. cbn [world_step tasks os fst snd].
  split; [done|]. unfold set_clock. by replace (clock (os w) + 0 `max` (until - clock (os w)))%Z with until by lia.
Qed.

Lemma solo_is_steps n w i t : tasks w !! i = Some t →
  tasks (solo n i w) !! i = Some (Nat.iter n solo_step (t, os w)).1 ∧ os (solo n i w) = (Nat.iter n solo_step (t, os w)).2.
Proof.
  intros Ht. induction n as [|n [IH1 IH2]]; [done|]. unfold solo in *. rewrite !Nat.iter_succ.
  destruct (solo_is_step _ i _ IH1) as [E1 E2]. rewrite E1, E2, IH2. by destruct (Nat.iter n solo_step (t, os w)).
Qed.

Definition verdict (d : LockDir) (o : Os) : bool :=
  lock_is_stale windows (lock_age d o) (owner_txt d) stale_after o.

(** The age from which any lock is stale. *)
Definition limit (d : LockDir) : Z := match owner_txt d with Some _ => stale_after + 1 | None => MISSING_OWNER_GRACE end.

Lemma verdict_old d o : (0 ≤ stale_after)%Z → (modified d + limit d ≤ clock o)%Z → verdict d o = true.
Proof.
  intros Hs Ho. unfold verdict, lock_is_stale, lock_is_stale_with_grace, lock_age, limit in *.
  assert (0 ≤ MISSING_OWNER_GRACE)%Z by done.
  destruct (owner_txt d) as [raw|]; cbn [read_lock_owner mbind option_bind];
    (destruct (decide (modified d ≤ clock o)%Z); [|lia]); [destruct (owner_is_dead _ _ _); [done|]|]; apply bool_decide_eq_true; lia.
Qed.

Lemma verdict_dead d o owner : read_lock_owner (owner_txt d) = Some owner → owner_is_dead windows owner o = true →
  verdict d o = true.
Proof. intros Hr Hd. unfold verdict, lock_is_stale, lock_is_stale_with_grace. by rewrite Hr, Hd. Qed.

(** The task holds the lock and is recorded in it. *)
Definition acquired (t t' : Task) (o : Os) : Prop :=
  ∃ d stem, lock_dir o = Some d ∧ at_ t' = Holding (serial d) ∧
    owner_txt d = Some (owner_text (self t) stem (package t) (version t) (clock o)).

Lemma acquire_free t o : at_ t = Trying → lock_dir o = None →
  let '(t', o') := Nat.iter 3 solo_step (t, o) in acquired t t' o' ∧ clock o' = clock o.
Proof.
  intros Ha Hl. unfold solo_step, task_step. cbn [Nat.iter nat_rect]. rewrite Ha, Hl.
  cbn [negb goto at_ lock_dir set_lock open_owner owner_txt serial].
  unfold write_text. cbn [lock_dir set_lock open_owner owner_txt serial]. rewrite decide_True by done.
  split; [|done]. eexists _, _. split; [done|]. split; [done|]. cbn [owner_txt fmap option_fmap option_map].
  by rewrite drop_nil, app_nil_r.
Qed.

Lemma acquire_stale t o d : at_ t = Trying → lock_dir o = Some d → verdict d o = true →
  let '(t', o') := Nat.iter 7 solo_step (t, o) in acquired t t' o' ∧ clock o' = clock o.
Proof.
  intros Ha Hl Hv. change 7 with (3 + 4). rewrite Nat.iter_add.
  assert (Nat.iter 4 solo_step (t, o) = (goto Trying (forget_wait t), set_lock None o)) as ->.
  { unfold solo_step, task_step. cbn [Nat.iter nat_rect]. rewrite Ha, Hl. cbn [negb goto at_].
    rewrite Hl. cbn [goto at_ mbind option_bind]. unfold verdict in Hv. rewrite Hl. cbn [mbind option_bind]. rewrite Hv. cbn [goto at_ andb]. rewrite Hl, bool_decide_true by done. done. }
  pose proof (acquire_free (goto Trying (forget_wait t)) (set_lock None o) eq_refl eq_refl) as H.
  destruct (Nat.iter 3 solo_step _) as [t' o']. exact H.
Qed.

(** A round of polling. *)
Lemma acquire_poll t o d : at_ t = Trying → lock_dir o = Some d → verdict d o = false → (0 < poll)%Z →
  ∃ t', Nat.iter 5 solo_step (t, o) = (t', set_clock (clock o + poll) o) ∧
    at_ t' = Trying ∧ self t' = self t ∧ package t' = package t ∧ version t' = version t.
Proof.
  intros Ha Hl Hv Hp. exists (goto Trying (publish_wait t)). split.
  - unfold solo_step, task_step. cbn [Nat.iter nat_rect]. rewrite Ha, Hl. cbn [negb goto at_].
    rewrite Hl. cbn [goto at_ mbind option_bind]. unfold verdict in Hv. rewrite Hl. cbn [mbind option_bind]. rewrite Hv. cbn [goto at_]. rewrite decide_False by lia. cbn [goto at_].
    rewrite !decide_True by (cbn; lia). unfold publish_wait, goto. cbn. destruct (logged_wait t) eqn:E; cbn; rewrite ?E; reflexivity.
  - unfold publish_wait. by destruct (logged_wait t).
Qed.

Lemma acquire_eventually m t o d : (0 < poll)%Z → (0 ≤ stale_after)%Z → at_ t = Trying → lock_dir o = Some d →
  (modified d + limit d - clock o ≤ Z.of_nat m)%Z →
  ∃ n, let '(t', o') := Nat.iter n solo_step (t, o) in
    acquired t t' o' ∧ (clock o' ≤ clock o `max` (modified d + limit d + poll))%Z ∧ (verdict d o = true → clock o' = clock o).
Proof.
  intros Hp Hs. revert t o. induction m as [|m IH]; intros t o Ha Hl Hm; destruct (verdict d o) eqn:Hv.
  - exists 7. pose proof (acquire_stale t o d Ha Hl Hv) as H. destruct (Nat.iter 7 solo_step _). split_and!; [apply H| |by intros; apply H]. lia.
  - rewrite verdict_old in Hv by lia. done.
  - exists 7. pose proof (acquire_stale t o d Ha Hl Hv) as H. destruct (Nat.iter 7 solo_step _). split_and!; [apply H| |by intros; apply H]. lia.
  - assert (clock o < modified d + limit d)%Z as Hc.
    { destruct (decide (clock o < modified d + limit d)%Z); [done|]. rewrite verdict_old in Hv by lia. done. }
    destruct (acquire_poll t o d Ha Hl Hv Hp) as (t1 & E & Ha1 & E1 & E2 & E3).
    destruct (IH t1 (set_clock (clock o + poll) o)) as [n Hn]; [done|done|cbn; lia|].
    exists (n + 5). rewrite Nat.iter_add, E. destruct (Nat.iter n solo_step _) as [t' o'].
    destruct Hn as ((d' & stem & H1 & H2 & H3) & Hb & _). split_and!; [|cbn in Hb; lia|done].
    exists d', stem. rewrite E1, E2, E3 in H3. done.
Qed.

(** C20: a waiter is served.  From any state in which the lock exists, a task
    that starts an attempt and is not interfered with ends up holding the lock
    and recorded as its owner, at the latest one poll after the lock, by its
    age, counts as stale; and without waiting at all when the recorded owner
    is gone. *)
Theorem waiter_acquires w i t d : tasks w !! i = Some t → at_ t = Trying → lock_dir (os w) = Some d →
  (0 < poll)%Z → (0 ≤ stale_after)%Z →
  ∃ n t', let w' := solo n i w in
    tasks w' !! i = Some t' ∧ acquired t t' (os w') ∧
    (clock (os w') ≤ clock (os w) `max` (modified d + limit d + poll))%Z ∧
    ∀ owner, read_lock_owner (owner_txt d) = Some owner → owner_is_dead windows owner (os w) = true →
      clock (os w') = clock (os w).
Proof.
  intros Ht Ha Hd Hp Hs.
  destruct (acquire_eventually (Z.to_nat (modified d + limit d - clock (os w))) t (os w) d) as [n Hn]; try done; [lia|].
  destruct (solo_is_steps n w i t Ht) as [E1 E2]. exists n, (Nat.iter n solo_step (t, os w)).1. cbv zeta. rewrite E1, E2.
  destruct (Nat.iter n solo_step (t, os w)) as [t' o']. destruct Hn as (H1 & H2 & H3). split_and!; [done..|].
  intros owner Hr Hdead. by apply H3, (verdict_dead d _ owner).
Qed.
End Live.

(** ** Scenarios *)

Section Scenarios.
#[local] Open Scope Z_scope.
Definition the_lock : str := &"/c/.gcc.install.lock".
#[local] Abbreviation go := (run false the_lock INSTALL_LOCK_STALE_AFTER INSTALL_LOCK_POLL).
#[local] Abbreviation from_start := (go (start 0)).

(** Three processes of [fbuild], with a task each. *)
Definition three : list event :=
  [Spawn 11 (Some (&"/usr/bin/fbuild")); Spawn 12 (Some (&"/usr/bin/fbuild")); Spawn 13 (Some (&"/usr/bin/fbuild"));
   Acquire 1 11 (&"gcc") (&"12"); Acquire 2 12 (&"gcc") (&"12"); Acquire 3 13 (&"gcc") (&"12")].
Definition steps (i : nat) (n : nat) : list event := replicate n (Step i true).
(** Create the directory, open the record, write it. *)
Definition takes (i : nat) : list event := steps i 3.

Definition phase_of (i : nat) (w : World) : option phase := at_ <$> tasks w !! i.
Definition holds (i : nat) (w : World) : bool :=
  match phase_of i w with Some (Holding _) => true | _ => false end.
Definition failed (i : nat) (w : World) : bool :=
  match phase_of i w with Some (Failed _) => true | _ => false end.

(** The holder crashes, a waiter takes the lock over. *)
Definition crash_recovery : list event := three ++ takes 1 ++ steps 2 3 ++ [Exit 11] ++ [Tick INSTALL_LOCK_POLL] ++ steps 2 8.

(** Every prefix is checked. *)
#[local] Instance plain_event_dec e : Decision (plain_event e).
Proof. destruct e as [| |pid [p|]| |]; cbn; unfold plain_stem, one_line; try destruct (path_file_stem p); cbn; apply _. Defined.
Definition benign_at (w : World) (e : event) : Prop :=
  map_Forall (λ j u, looks (at_ u) = true → step_of e ≠ Some j → is_Some (lock_dir (os (go w [e]))) → is_Some (lock_dir (os w))) (tasks w) ∧
  map_Forall (λ j u, reads (at_ u) = true → match e with Step i false => i ≠ j | _ => True end) (tasks w) ∧
  map_Forall (λ _ u, occupies (at_ u) = true → from_option (λ d,
      (clock (os w) ≤ modified d + INSTALL_LOCK_STALE_AFTER) ∧ (owner_txt d = None → (clock (os w) < modified d + 30 * 10 ^ 9)))
    True (lock_dir (os w))) (tasks w) ∧ plain_event e.
#[local] Instance benign_at_dec w e : Decision (benign_at w e).
Proof.
  unfold benign_at. apply and_dec; [|apply and_dec; [|apply and_dec; [|apply _]]]; apply map_Forall_dec; intros j u; apply impl_dec; try apply _.
  - destruct e as [i [|]| | | |]; apply _.
  - destruct (lock_dir (os w)); apply _.
Defined.
Lemma benign_at_ok w e : benign_at w e → benign false the_lock INSTALL_LOCK_STALE_AFTER INSTALL_LOCK_POLL w e.
Proof. intros (H1 & H2 & H3 & H4). split; try done. intros j u Hu Hr ->. by apply (H2 j u Hu Hr). Qed.

Fixpoint benign_runb (w : World) (es : list event) : bool :=
  match es with [] => true | e :: es => bool_decide (benign_at w e) && benign_runb (go w [e]) es end.
Lemma benign_runb_ok w es : benign_runb w es = true → benign_run false the_lock INSTALL_LOCK_STALE_AFTER INSTALL_LOCK_POLL w es.
Proof.
  revert w. induction es as [|e es IH]; intros w H pre e' post E; [by destruct pre|].
  cbn in H. apply andb_true_iff in H as [H1%bool_decide_eq_true H2]. destruct pre as [|e0 pre]; injection E as <- E.
  - by apply benign_at_ok.
  - exact (IH _ H2 pre e' post E).
Qed.

Lemma lock_excludes_witness : let w := from_start crash_recovery in
  holds 2 w = true ∧ ∃ d text stem nanos, lock_dir (os w) = Some d ∧
    owner_txt d = Some text ∧ lines text = record_lines 12 stem (&"gcc") (&"12") nanos.
Proof.
  intros w. split; [by vm_compute|].
  assert (benign_run false the_lock INSTALL_LOCK_STALE_AFTER INSTALL_LOCK_POLL (start 0) crash_recovery) as Hs
    by (apply benign_runb_ok; by vm_compute).
  destruct (lock_excludes false the_lock INSTALL_LOCK_STALE_AFTER INSTALL_LOCK_POLL 0 crash_recovery (Z.le_refl 0) Hs) as [_ H].
  destruct (tasks w !! 2%nat) as [t|] eqn:Et; [|by vm_compute in Et].
  assert (self t = 12 ∧ package t = &"gcc" ∧ version t = &"12" ∧ ∃ k, at_ t = Holding k) as (E1 & E2 & E3 & k & E4).
  { vm_compute in Et. injection Et as <-. by eauto. }
  destruct (H 2%nat t k Et E4) as (d & text & stem & nanos & Hd & _ & Ho & Hl). exists d, text, stem, nanos.
  split; [exact Hd|]. split; [exact Ho|]. by rewrite Hl, E1, E2, E3.
Defined.

(** The waiter has just woken after its peer crashed. *)
Definition after_crash : World := from_start (three ++ takes 1 ++ [Exit 11]).

Lemma waiter_acquires_witness : ∃ n t' o t0, let w' := solo false the_lock INSTALL_LOCK_STALE_AFTER INSTALL_LOCK_POLL n 2 after_crash in
  tasks w' !! 2%nat = Some t' ∧ acquired t0 t' (os w') ∧ self t0 = 12 ∧ o_pid o = Some 11 ∧
  clock (os w') = clock (os after_crash).
Proof.
  destruct (tasks after_crash !! 2%nat) as [t|] eqn:Et; [|by vm_compute in Et].
  destruct (lock_dir (os after_crash)) as [d|] eqn:Ed; [|by vm_compute in Ed].
  assert (at_ t = Trying ∧ self t = 12) as [Ha E1] by (vm_compute in Et; by injection Et as <-).
  destruct (read_lock_owner (owner_txt d)) as [o|] eqn:Eo; [|vm_compute in Ed; injection Ed as <-; by vm_compute in Eo].
  destruct (waiter_acquires false the_lock INSTALL_LOCK_STALE_AFTER INSTALL_LOCK_POLL after_crash 2 t d Et Ha Ed)
    as (n & t' & H1 & H2 & _ & H3); [done|done|].
  exists n, t', o, t. split; [exact H1|]. split; [exact H2|]. split; [done|].
  assert (o_pid o = Some 11 ∧ owner_is_dead false o (os after_crash) = true) as [Ep Hd].
  { vm_compute in Ed. injection Ed as <-. vm_compute in Eo. injection Eo as <-. split; by vm_compute. }
  split; [done|]. exact (H3 o Eo Hd).
Defined.

(** Two waiters judge the lock of a crashed process; the first takes it over,
    then the second removes what it takes for the crashed one's. *)
Lemma two_waiters_both_hold :
  let w := from_start (three ++ takes 1 ++ [Exit 11] ++ steps 2 3 ++ steps 3 3 ++ steps 2 1 ++ takes 2 ++ steps 3 1 ++ takes 3) in
  holds 2 w = true ∧ holds 3 w = true.
Proof. by vm_compute. Qed.

(** Nobody crashes: the waiter looks at the directory just before the holder,
    busy for more than the grace period, removes it, and finds no record
    afterwards; meanwhile another task has created the directory anew. *)
Lemma slow_install_both_hold :
  let w := from_start (three ++ takes 1 ++ [Tick (secs 40)] ++ steps 2 2 ++ steps 1 1 ++ steps 3 1 ++ steps 2 1 ++
                       steps 2 1 ++ takes 2 ++ steps 3 2) in
  holds 2 w = true ∧ holds 3 w = true.
Proof. by vm_compute. Qed.

(** The lock is released between the failed creation and the look at it: the
    waiter tries to remove what is not there, and fails. *)
Lemma released_lock_fails_waiter :
  let w := from_start (three ++ takes 1 ++ steps 2 1 ++ steps 1 1 ++ steps 2 2) in
  failed 2 w = true ∧ lock_dir (os w) = None.
Proof. by vm_compute. Qed.

(** A holder that took longer than the ceiling frees the lock of the task that
    replaced it. *)
Lemma late_holder_frees_other_lock :
  let w := from_start (three ++ takes 1 ++ [Tick (INSTALL_LOCK_STALE_AFTER + 1)] ++ steps 2 4 ++ takes 2 ++ steps 1 1 ++ takes 3) in
  holds 2 w = true ∧ holds 3 w = true.
Proof. by vm_compute. Qed.

(** Linux marks the path of an executable that was replaced on disk; the
    owner's name then differs from the recorded one and the living holder
    counts as gone. *)
Lemma replaced_executable_looks_dead :
  let image := &"/usr/bin/fbuild (deleted)" in
  let o := {| clock := 0; procs := {[ 11 := Some image ]}; lock_dir := None; serials := 0 |} in
  pid_is_alive 11 o = true ∧
  owner_is_dead false {| o_pid := Some 11; o_exe_stem := path_file_stem (&"/usr/bin/fbuild") |} o = true.
Proof. by vm_compute. Qed.
End Scenarios.
