(* ===== verification/PathBuf.v ===== *)
(** * Paths as [Path] compares them

    Equality, order and hash of a [PathBuf] are those of its components, so
    where only these matter a path is the list of its components. *)
From S2P Require Import Prelude RustStr CachePaths.
From stdpp Require Import sorting.

Abbreviation PathBuf := (list Component).

#[global] Instance Component_countable : Countable Component.
Proof.
  refine (inj_countable'
    (λ c, match c with RootDir => inl 0 | CurDir => inl 1 | ParentDir => inl 2 | Normal n => inr n end)
    (λ x, match x with inl 0 => RootDir | inl 1 => CurDir | inl _ => ParentDir | inr n => Normal n end) _).
  by intros [].
Defined.

(** [base.join(p)]: an absolute path replaces the base, and a leading dot is
    no component of the result. *)
Definition buf_join (base : PathBuf) (p : str) : PathBuf :=
  let cs := components p in
  if starts_with [slash] p then cs
  else match base with [] => cs | _ => base ++ filter (λ c, c ≠ CurDir) cs end.

Definition parent (p : PathBuf) : option PathBuf :=
  match last p with None | Some RootDir => None | Some _ => Some (take (pred (length p)) p) end.

(** [p.starts_with(d)], by components. *)
Definition path_starts_with (p d : PathBuf) : bool := bool_decide (d `prefix_of` p).

Example buf_join_demo :
  buf_join (components (&"/a/b")) (&"./c/../d.h") = components (&"/a/b/c/../d.h") ∧
  buf_join (components (&"/a")) (&"/x") = components (&"/x") ∧ buf_join [] (&"x") = components (&"x") ∧
  parent (components (&"/a/b")) = Some (components (&"/a")) ∧ parent (components (&"/")) = None ∧
  path_starts_with (components (&"/lib/SPI2/x.h")) (components (&"/lib/SPI")) = false.
Proof. by vm_compute. Qed.

(** ** Lexicographic order *)

Section Lex.
Context {A : Type} (R : relation A) `{!RelDecision R}.

Fixpoint lex_leb (l k : list A) : bool :=
  match l, k with
  | [], _ => true
  | _ :: _, [] => false
  | a :: l, b :: k =>
      if bool_decide (R a b) then if bool_decide (R b a) then lex_leb l k else true else false
  end.
Definition lex_le (l k : list A) : Prop := lex_leb l k.
#[export] Instance lex_le_dec : RelDecision lex_le := λ l k, decide (lex_leb l k).

#[export] Instance lex_total `{!Total R} : Total lex_le.
Proof.
  intros l. unfold lex_le. induction l as [|a l IH]; intros [|b k]; simpl; auto.
  destruct (bool_decide_reflect (R a b)), (bool_decide_reflect (R b a)); auto.
  by destruct (total R a b).
Qed.

#[export] Instance lex_trans `{!Transitive R} : Transitive lex_le.
Proof.
  intros l k m. unfold lex_le. revert k m. induction l as [|a l IH]; intros [|b k] [|c m]; simpl; try done.
  destruct (bool_decide_reflect (R a b)) as [Hab|]; [|done].
  destruct (bool_decide_reflect (R b c)) as [Hbc|]; [|done].
  rewrite (bool_decide_true (R a c)) by (by etrans). intros H1 H2.
  destruct (bool_decide_reflect (R c a)) as [Hca|]; [|done].
  rewrite bool_decide_true in H1 by (by etrans). rewrite bool_decide_true in H2 by (by etrans). by eapply IH.
Qed.

#[export] Instance lex_antisymm `{!AntiSymm (=) R} : AntiSymm (=) lex_le.
Proof.
  intros l. unfold lex_le. induction l as [|a l IH]; intros [|b k]; simpl; try done.
  destruct (bool_decide_reflect (R a b)), (bool_decide_reflect (R b a)); try done.
  intros H1 H2. f_equal; [by apply (anti_symm R)|by apply IH].
Qed.
End Lex.

(** [Ord for Path]: components in the order of the type, names by bytes. *)
Definition component_key (c : Component) : str :=
  match c with RootDir => &"0" | CurDir => &"1" | ParentDir => &"2" | Normal n => &"3" ++ n end.
Definition path_le (p q : PathBuf) : Prop := lex_le str_le (component_key <$> p) (component_key <$> q).
#[global] Instance path_le_dec : RelDecision path_le := λ p q, decide (lex_le str_le _ _).
#[global] Instance path_le_total : Total path_le.
Proof. intros p q. apply (total (lex_le str_le)). Qed.
#[global] Instance path_le_trans : Transitive path_le.
Proof. intros p q r. unfold path_le. by etrans. Qed.

(** ** Sorted sets: what iterating a [BTreeSet] yields *)

Section BTree.
Context {A : Type} `{Countable A} (R : relation A) `{!RelDecision R}.

Definition btree_iter (X : gset A) : list A := merge_sort R (elements X).

Lemma elem_of_btree_iter X x : x ∈ btree_iter X ↔ x ∈ X.
Proof. unfold btree_iter. by rewrite (merge_sort_Permutation R), elem_of_elements. Qed.

Lemma btree_iter_NoDup X : NoDup (btree_iter X).
Proof. unfold btree_iter. rewrite (merge_sort_Permutation R). apply NoDup_elements. Qed.

Lemma btree_iter_sorted X `{!Total R, !Transitive R} : StronglySorted R (btree_iter X).
Proof. apply (StronglySorted_merge_sort R). Qed.
End BTree.
