(* ===== verification/IncludeWalk.v ===== *)
(** * [fbuild-header-scan/src/walker.rs]

    The walk over the include graph: breadth first, in waves, with the scans
    of a file kept from one walk to the next.  The disk is the interface
    [FileTree]. *)
From S2P Require Import Prelude RustStr CachePaths PathBuf HeaderScan HeaderActive.
From stdpp Require Import sorting relations.
(** The disk, which does not change while it is walked: [std::fs::canonicalize],
    [Path::is_file], [std::fs::read], and the canonical paths of all files. *)
Class FileTree := {
  canonicalize : PathBuf → option PathBuf;
  is_file : PathBuf → bool;
  read_bytes : PathBuf → option str;
  files : gset PathBuf;
}.

Definition canon `{FileTree} (p : PathBuf) : PathBuf := default p (canonicalize p).
Definition read_to_string `{FileTree} (p : PathBuf) : option str := read_bytes p ≫= from_utf8.

(** A file has a canonical path. *)
Class FileTreeOk (F : FileTree) := {
  is_file_canon p : is_file p = true → canon p ∈ files;
}.

Record WalkResult := { reached : list PathBuf; unresolved : list str }.

Record WalkState := {
  visited : gset PathBuf;
  scan_cache : gmap PathBuf (list IncludeRef);
  files_read : nat;
}.

Definition new_walk_state : WalkState := {| visited := ∅; scan_cache := ∅; files_read := 0 |}.

Section Walk.
Context {FT : FileTree}.
Context (search_paths : list PathBuf) (scanner : str → list IncludeRef).

Definition first_file (cs : list PathBuf) : option PathBuf :=
  snd <$> list_find (λ c, is_file c = true) cs.

Definition resolve_include (inc : IncludeRef) (from : PathBuf) : option PathBuf :=
  let local := match kind inc, parent from with
               | Quoted, Some dir => [buf_join dir (path inc)]
               | _, _ => []
               end in
  first_file (local ++ ((λ sp, buf_join sp (path inc)) <$> search_paths)).

(** What a walk builds up: the set of visited paths, and the next wave. *)
Record Wave := {
  w_visited : gset PathBuf;
  w_reached : gset PathBuf;
  w_unresolved : gset str;
  w_frontier : list PathBuf;
}.

(** [if visited.insert(canon.clone())], with what is done then. *)
Definition discover (p : PathBuf) (w : Wave) : Wave :=
  if decide (p ∈ w_visited w) then w
  else {| w_visited := {[p]} ∪ w_visited w; w_reached := {[p]} ∪ w_reached w;
          w_unresolved := w_unresolved w; w_frontier := w_frontier w ++ [p] |}.

(** Reading the files of the wave that have not been scanned. *)
Definition scan_file (p : PathBuf) : option (PathBuf * list IncludeRef) :=
  text ← read_to_string p; Some (p, scanner text).

Definition to_read (frontier : list PathBuf) (cache : gmap PathBuf (list IncludeRef)) : list PathBuf :=
  filter (λ p, cache !! p = None) frontier.

Definition read_wave (frontier : list PathBuf) (cache : gmap PathBuf (list IncludeRef)) (read : nat) :
    gmap PathBuf (list IncludeRef) * nat :=
  foldl (λ cn pi, (<[pi.1 := pi.2]> cn.1, S cn.2)) (cache, read)
    (omap scan_file (to_read frontier cache)).

Definition resolve_one (file : PathBuf) (w : Wave) (inc : IncludeRef) : Wave :=
  match resolve_include inc file with
  | Some resolved => discover (canon resolved) w
  | None => {| w_visited := w_visited w; w_reached := w_reached w;
               w_unresolved := {[path inc]} ∪ w_unresolved w; w_frontier := w_frontier w |}
  end.

Definition resolve_file (cache : gmap PathBuf (list IncludeRef)) (w : Wave) (file : PathBuf) : Wave :=
  match cache !! file with
  | None => w
  | Some includes => foldl (resolve_one file) w includes
  end.

(** [while !frontier.is_empty()]: [None] when the fuel is used up. *)
Fixpoint waves (fuel : nat) (w : Wave) (cache : gmap PathBuf (list IncludeRef)) (read : nat) :
    option (Wave * (gmap PathBuf (list IncludeRef) * nat)) :=
  match w_frontier w with
  | [] => Some (w, (cache, read))
  | current =>
      match fuel with
      | O => None
      | S n =>
          let '(cache, read) := read_wave current cache read in
          let w := {| w_visited := w_visited w; w_reached := w_reached w;
                      w_unresolved := w_unresolved w; w_frontier := [] |} in
          waves n (foldl (resolve_file cache) w current) cache read
      end
  end.

(** Every wave but the last visits something new. *)
Definition enough_waves (seeds : list PathBuf) : nat := S (length seeds + size files).

Definition walk_with_state_scanner (seeds : list PathBuf) (st : WalkState) : option (WalkResult * WalkState) :=
  let w := foldl (λ w s, discover (canon s) w)
             {| w_visited := visited st; w_reached := ∅; w_unresolved := ∅; w_frontier := [] |} seeds in
  '(w, (cache, read)) ← waves (enough_waves seeds) w (scan_cache st) (files_read st);
  Some ({| reached := btree_iter path_le (w_reached w); unresolved := btree_iter str_le (w_unresolved w) |},
        {| visited := w_visited w; scan_cache := cache; files_read := read |}).
End Walk.

Section Entry.
Context {FT : FileTree}.

Definition walk_with_state (seeds search_paths : list PathBuf) (st : WalkState) :=
  walk_with_state_scanner search_paths scan seeds st.

Definition walk_with_state_active (seeds search_paths : list PathBuf) (defines : macros) (st : WalkState) :=
  walk_with_state_scanner search_paths (λ src, scan_active src defines) seeds st.

Definition walk (seeds search_paths : list PathBuf) : option WalkResult :=
  fst <$> walk_with_state seeds search_paths new_walk_state.

Definition walk_active (seeds search_paths : list PathBuf) (defines : macros) : option WalkResult :=
  fst <$> walk_with_state_active seeds search_paths defines new_walk_state.
End Entry.

(** ** The walk computes the include closure

    A walk ends, reports exactly what the include relation reaches from its
    seeds and was not visited before, and reads every file once; walks that
    share their state add up. *)

Implicit Types (p q : PathBuf) (w : Wave) (s : str) (cache : gmap PathBuf (list IncludeRef)) (n : nat).

(** ** Growth of a walk *)

(** [w'] is [w] after the paths of [T] were offered to it and the texts of [U]
    were not resolved. *)
Record grow (T : PathBuf → Prop) (U : str → Prop) (w w' : Wave) : Prop := {
  g_visited q : q ∈ w_visited w' ↔ q ∈ w_visited w ∨ T q;
  g_reached q : q ∈ w_reached w' ↔ q ∈ w_reached w ∨ (T q ∧ q ∉ w_visited w);
  g_unresolved s : s ∈ w_unresolved w' ↔ s ∈ w_unresolved w ∨ U s;
  g_frontier : ∃ new, w_frontier w' = w_frontier w ++ new ∧ NoDup new ∧ ∀ q, q ∈ new ↔ T q ∧ q ∉ w_visited w;
}.

Definition none {A} : A → Prop := λ _, False.

#[global] Instance grow_proper : Proper (pointwise_relation _ iff ==> pointwise_relation _ iff ==> (=) ==> (=) ==> iff) grow.
Proof.
  assert (∀ T T' U U' w w', pointwise_relation _ iff T T' → pointwise_relation _ iff U U' → grow T U w w' → grow T' U' w w') as H.
  { intros T T' U U' w w' HT HU [H1 H2 H3 (new & H4 & H5 & H6)]. split; intros *; rewrite <- ?(HT _), <- ?(HU _); auto.
    exists new. split_and!; [done..|]. intros q. by rewrite <- (HT q). }
  intros T T' HT U U' HU w ? <- w' ? <-. split; apply H; done.
Qed.

Lemma grow_refl w : grow none none w w.
Proof.
  unfold none. split; [naive_solver..|]. exists []. rewrite app_nil_r. split_and!; [done|constructor|].
  intros q. rewrite elem_of_nil. naive_solver.
Qed.

Lemma grow_trans T1 T2 U1 U2 w1 w2 w3 : grow T1 U1 w1 w2 → grow T2 U2 w2 w3 →
  grow (λ q, T1 q ∨ T2 q) (λ s, U1 s ∨ U2 s) w1 w3.
Proof.
  intros [V1 R1 N1 (new1 & F1 & D1 & E1)] [V2 R2 N2 (new2 & F2 & D2 & E2)]. split.
  - intros q. rewrite V2, V1. tauto.
  - intros q. rewrite R2, R1, V1. destruct (decide (q ∈ w_visited w1)); [tauto|]. 
    split; [tauto|]. intros [?|[[?|?] ?]]; [tauto..|]. 
    destruct (decide (q ∈ w_visited w2)) as [Hv|]; [|rewrite <- V1; tauto]. apply V1 in Hv. tauto.
  - intros s. rewrite N2, N1. tauto.
  - exists (new1 ++ new2). split; [by rewrite F2, F1, <- app_assoc|]. split.
    + apply NoDup_app. split_and!; [done| |done]. intros q Hq1 Hq2. apply E1 in Hq1. apply E2 in Hq2. rewrite V1 in Hq2. tauto.
    + intros q. rewrite elem_of_app, E1, E2, V1.
      destruct (decide (q ∈ w_visited w2)) as [Hv|Hv]; rewrite V1 in Hv; tauto.
Qed.

Lemma grow_foldl {A} (f : Wave → A → Wave) (T : A → PathBuf → Prop) (U : A → str → Prop) l w :
  (∀ a w, a ∈ l → grow (T a) (U a) w (f w a)) →
  grow (λ q, ∃ a, a ∈ l ∧ T a q) (λ s, ∃ a, a ∈ l ∧ U a s) w (foldl f w l).
Proof.
  revert w. induction l as [|a l IH]; intros w Hf; cbn [foldl].
  - eapply grow_proper; [..|apply grow_refl]; try done; intros x; unfold none; split; try done;
      by intros (a & []%not_elem_of_nil & _).
  - eapply grow_proper; [..|eapply grow_trans; [apply Hf; left|apply IH; intros; apply Hf; by right]]; try done;
      intros x; rewrite ?ex_cons; (split; [intros (b & [->|Hb]%elem_of_cons & Hx); eauto|]);
      intros [Hx|(b & Hb & Hx)]; eexists; (split; [|exact Hx]); by constructor.
Qed.

Section Facts.
Context {FT : FileTree} {FTok : FileTreeOk FT} (sps : list PathBuf) (scanner : str → list IncludeRef).

Lemma grow_discover p w : grow (λ q, q = p) none w (discover p w).
Proof.
  unfold discover, none. case_decide as Hp.
  - split; [set_solver..|]. exists []. rewrite app_nil_r. split_and!; [done|constructor|set_solver].
  - split; cbn; [set_solver..|]. exists [p]. split_and!; [done|apply NoDup_singleton|set_solver].
Qed.

(** ** The include relation *)

Definition includes_of p : list IncludeRef :=
  match read_to_string p with Some text => scanner text | None => [] end.

(** [p] includes the file [q]; [p] includes what is nowhere to be found. *)
Definition edge p q : Prop :=
  ∃ inc r, inc ∈ includes_of p ∧ resolve_include sps inc p = Some r ∧ q = canon r.
Definition dangling p s : Prop :=
  ∃ inc, inc ∈ includes_of p ∧ resolve_include sps inc p = None ∧ s = path inc.

Definition reach (seeds : list PathBuf) q : Prop := ∃ seed, seed ∈ seeds ∧ rtc edge (canon seed) q.

Lemma resolve_include_file inc from r : resolve_include sps inc from = Some r → canon r ∈ files.
Proof.
  unfold resolve_include, first_file. intros ([i c] & H & ->)%fmap_Some. apply list_find_Some in H as (_ & H & _).
  by apply is_file_canon.
Qed.

Lemma edge_file p q : edge p q → q ∈ files.
Proof. intros (inc & r & _ & Hr & ->). by eapply resolve_include_file. Qed.

Lemma grow_resolve_one f w inc :
  grow (λ q, ∃ r, resolve_include sps inc f = Some r ∧ q = canon r)
       (λ s, resolve_include sps inc f = None ∧ s = path inc) w (resolve_one sps f w inc).
Proof.
  unfold resolve_one. destruct (resolve_include sps inc f) as [r|].
  - eapply grow_proper; [..|apply (grow_discover (canon r))]; try done; intros x; unfold none; naive_solver.
  - split; cbn; [set_solver..|]. exists []. rewrite app_nil_r. split_and!; [done|constructor|].
    intros q. rewrite elem_of_nil. naive_solver.
Qed.

(** The scans of all files of a set. *)
Definition scans (V : PathBuf → Prop) (cache : gmap PathBuf (list IncludeRef)) : Prop :=
  ∀ p l, cache !! p = Some l ↔ V p ∧ ∃ text, read_to_string p = Some text ∧ l = scanner text.

Lemma grow_resolve_file cache f w : (∀ p, p = f → cache !! p = scanner <$> read_to_string p) →
  grow (edge f) (dangling f) w (resolve_file sps cache w f).
Proof.
  intros Hc. unfold resolve_file. rewrite Hc by done. unfold edge, dangling, includes_of.
  destruct (read_to_string f) as [text|]; cbn.
  - eapply grow_proper; [..|apply (grow_foldl (resolve_one sps f)
      (λ inc q, ∃ r, resolve_include sps inc f = Some r ∧ q = canon r)
      (λ inc s, resolve_include sps inc f = None ∧ s = path inc)); intros; apply grow_resolve_one];
      try done; intros x; naive_solver.
  - eapply grow_proper; [..|apply grow_refl]; try done; intros x; unfold none; split; try done.
    + by intros (? & ? & []%not_elem_of_nil & _).
    + by intros (? & []%not_elem_of_nil & _).
Qed.

Lemma scans_lookup V cache p : scans V cache → V p → cache !! p = scanner <$> read_to_string p.
Proof.
  intros Hs Hp. destruct (cache !! p) as [l|] eqn:E.
  - apply Hs in E as (_ & text & -> & ->). done.
  - destruct (read_to_string p) as [text|] eqn:Er; [|done]. cbn.
    assert (cache !! p = Some (scanner text)) by (apply Hs; eauto). congruence.
Qed.

(** ** Reading *)

Lemma foldl_insert_spec (l : list (PathBuf * list IncludeRef)) cache n : NoDup l.*1 → (∀ p, p ∈ l.*1 → cache !! p = None) →
  let '(cache', n') := foldl (λ cn pi, (<[pi.1 := pi.2]> cn.1, S cn.2)) (cache, n) l in
  (∀ p i, cache' !! p = Some i ↔ cache !! p = Some i ∨ (p, i) ∈ l) ∧ n' + size cache = n + size cache'.
Proof.
  revert cache n. induction l as [|[p0 i0] l IH]; intros cache n Hnd Hfresh; cbn [foldl fst snd].
  { split; [|lia]. intros p i. rewrite elem_of_nil. tauto. }
  cbn in Hnd. apply NoDup_cons in Hnd as [Hp0 Hnd].
  specialize (IH (<[p0 := i0]> cache) (S n) Hnd). destruct (foldl _ _ l) as [cache' n']. destruct IH as [H1 H2].
  { intros p Hp. rewrite lookup_insert_ne; [apply Hfresh; by right|]. intros ->. done. }
  assert (cache !! p0 = None) as Hn by (apply Hfresh; left). split.
  - intros p i. rewrite H1, elem_of_cons. rewrite lookup_insert_Some. split; [naive_solver|].
    intros [Hc|[[= -> ->]|Hi]]; [|naive_solver..]. left. right. split; [|done]. intros ->. congruence.
  - rewrite map_size_insert_None in H2 by done. lia.
Qed.

Lemma read_wave_spec V frontier cache n : scans V cache → (∀ p, p ∈ frontier → ¬ V p) → NoDup frontier → n = size cache →
  let '(cache', n') := read_wave scanner frontier cache n in
  scans (λ p, V p ∨ p ∈ frontier) cache' ∧ n' = size cache'.
Proof.
  intros Hs Hf Hnd Hn. unfold read_wave.
  assert (∀ p, p ∈ frontier → cache !! p = None) as Hnone.
  { intros p Hp. destruct (cache !! p) eqn:E; [|done]. apply Hs in E as [Hv _]. by apply Hf in Hv. }
  assert (to_read frontier cache = frontier) as ->.
  { unfold to_read. clear Hf Hnd Hs. induction frontier as [|p l IH]; [done|]. rewrite filter_cons_True; [|apply Hnone; left].
    f_equal. apply IH. intros q Hq. apply Hnone. by right. }
  assert (∀ p i, (p, i) ∈ omap (scan_file scanner) frontier ↔
    p ∈ frontier ∧ ∃ text, read_to_string p = Some text ∧ i = scanner text) as Hin.
  { intros p i. rewrite list_elem_of_omap. unfold scan_file. split.
    - intros (q & Hq & H). apply bind_Some in H as (text & Ht & [= -> <-]). eauto.
    - intros (Hp & text & Ht & ->). exists p. split; [done|]. by rewrite Ht. }
  pose proof (foldl_insert_spec (omap (scan_file scanner) frontier) cache n) as H.
  destruct (foldl _ _ _) as [cache' n']. destruct H as [H1 H2].
  - clear -Hnd. induction frontier as [|p l IH]; [constructor|]. apply NoDup_cons in Hnd as [Hp Hnd]. cbn. unfold scan_file at 1.
    destruct (read_to_string p); cbn; [|auto]. constructor; [|auto].
    intros ([q i] & -> & (q' & Hq' & E)%list_elem_of_omap)%list_elem_of_fmap. unfold scan_file in E.
    apply bind_Some in E as (text & _ & [= -> _]). done.
  - intros p ([q i] & -> & [Hq _]%Hin)%list_elem_of_fmap. by apply Hnone.
  - split; [|lia]. intros p l. rewrite H1, (Hs p l), Hin. tauto.
Qed.
(** ** Waves *)

(** Between waves: what is visited was so before ([V0]) or is reached, all of
    it but the next wave has been scanned and resolved. *)
Record wave_inv (V0 : gset PathBuf) (seeds : list PathBuf) w cache n : Prop := {
  iv_visited q : q ∈ w_visited w ↔ q ∈ V0 ∨ q ∈ w_reached w;
  iv_new q : q ∈ w_reached w → q ∉ V0;
  iv_nodup : NoDup (w_frontier w);
  iv_front p : p ∈ w_frontier w → p ∈ w_reached w;
  iv_closed p q : p ∈ w_visited w → p ∉ w_frontier w → edge p q → q ∈ w_visited w;
  iv_reach p : p ∈ w_reached w → reach seeds p;
  iv_seed seed : seed ∈ seeds → canon seed ∈ w_visited w;
  iv_scans : scans (λ p, p ∈ w_visited w ∧ p ∉ w_frontier w) cache;
  iv_read : n = size cache;
  iv_dangling s : s ∈ w_unresolved w ↔ ∃ p, p ∈ w_reached w ∧ p ∉ w_frontier w ∧ dangling p s;
}.

Definition drained w : Wave :=
  {| w_visited := w_visited w; w_reached := w_reached w; w_unresolved := w_unresolved w; w_frontier := [] |}.

Lemma reach_edge seeds p q : reach seeds p → edge p q → reach seeds q.
Proof. intros (seed & Hs & H) He. exists seed. split; [done|]. by eapply rtc_r. Qed.

Lemma wave_step V0 seeds w cache n : wave_inv V0 seeds w cache n →
  let '(cache', n') := read_wave scanner (w_frontier w) cache n in
  let w' := foldl (resolve_file sps cache') (drained w) (w_frontier w) in
  wave_inv V0 seeds w' cache' n' ∧ (∀ p, p ∈ w_frontier w' ↔ p ∈ w_visited w' ∧ p ∉ w_visited w) ∧
  (∀ p, p ∈ w_frontier w' → p ∈ files) ∧ w_visited w ⊆ w_visited w'.
Proof.
  intros [I1 I2 I3 I4 I5 I6 I7 I8 I9 I10].
  pose proof (read_wave_spec _ (w_frontier w) cache n I8) as Hr.
  destruct (read_wave scanner (w_frontier w) cache n) as [cache' n'].
  destruct Hr as [Hs Hn]; [naive_solver|done|done|].
  assert (∀ p, p ∈ w_frontier w → p ∈ w_visited w) as Hfv by (intros p Hp; apply I1; right; auto).
  assert (grow (λ q, ∃ f, f ∈ w_frontier w ∧ edge f q) (λ s, ∃ f, f ∈ w_frontier w ∧ dangling f s)
    (drained w) (foldl (resolve_file sps cache') (drained w) (w_frontier w))) as [G1 G2 G3 (new & G4 & G5 & G6)].
  { apply grow_foldl. intros f w' Hf. apply grow_resolve_file. intros p ->.
    eapply scans_lookup; [exact Hs|by right]. }
  cbn in *. set (w' := foldl _ _ _) in *. rewrite G4.
  assert (∀ p, p ∈ new ↔ p ∈ w_visited w' ∧ p ∉ w_visited w) as Hnew by (intros p; rewrite G6, G1; tauto).
  split; [|split_and!; [done| |intros p; rewrite G1; tauto]].
  2: { intros p ((f & _ & He) & _)%G6. by eapply edge_file. }
  split; rewrite ?G4; cbn.
  - intros q. rewrite G1, G2, I1. destruct (decide (q ∈ w_visited w)) as [Hv|Hv]; rewrite I1 in Hv; tauto.
  - intros q [Hq|[_ Hq]]%G2; [auto|]. rewrite I1 in Hq. tauto.
  - done.
  - intros p Hp. apply G2. right. by apply G6.
  - intros p q Hp Hpn He. apply G1. destruct (decide (p ∈ w_frontier w)) as [Hf|Hf]; [right; eauto|left].
    apply (I5 p q); [|done..]. destruct (decide (p ∈ w_visited w)); [done|]. rewrite Hnew in Hpn. tauto.
  - intros q [Hq|[(f & Hf & He) _]]%G2; [auto|]. eapply reach_edge; [|exact He]. auto.
  - intros seed Hseed. apply G1. left. auto.
  - intros p l. rewrite (Hs p l). apply and_iff_compat_r. rewrite Hnew.
    destruct (decide (p ∈ w_frontier w)) as [Hf|Hf]; destruct (decide (p ∈ w_visited w)) as [Hv|Hv]; rewrite ?G1; try tauto.
    by apply Hfv in Hf.
  - done.
  - intros s. rewrite G3, I10. split.
    + intros [(p & Hp & Hpf & Hd)|(f & Hf & Hd)]; [exists p|exists f]; rewrite G2, Hnew.
      * split_and!; [by left| |done]. intros [_ []]. apply I1. by right.
      * split_and!; [left; auto| |done]. intros [_ []]. auto.
    + intros (p & Hp & Hpn & Hd). rewrite Hnew in Hpn. destruct (decide (p ∈ w_frontier w)); [right; by exists p|left].
      exists p. split_and!; [|done..]. apply G2 in Hp as [Hp|[Ht Hv]]; [done|]. rewrite G1 in Hpn. tauto.
Qed.

Lemma waves_total fuel V0 seeds : ∀ w cache n, wave_inv V0 seeds w cache n →
  size (files ∖ w_visited w) < fuel →
  ∃ w' cache' n', waves sps scanner fuel w cache n = Some (w', (cache', n')) ∧
    wave_inv V0 seeds w' cache' n' ∧ w_frontier w' = [].
Proof.
  induction fuel as [|fuel IH]; intros w cache n Hinv Hf; [lia|].
  destruct (w_frontier w) as [|c current] eqn:Ew.
  { exists w, cache, n. cbn [waves]. rewrite Ew. done. }
  cbn [waves]. rewrite Ew, <- Ew. pose proof (wave_step V0 seeds w cache n Hinv) as Hstep.
  destruct (read_wave scanner (w_frontier w) cache n) as [cache' n']. change {| w_visited := _ |} with (drained w).
  cbv zeta in Hstep. set (w' := foldl _ _ _) in *. destruct Hstep as (Hinv' & Hfront & Hfile & Hsub).
  destruct (w_frontier w') as [|q new] eqn:Ew'.
  - exists w', cache', n'. split; [|done]. destruct fuel; cbn [waves]; by rewrite Ew'.
  - apply IH; [done|]. assert (q ∈ files ∧ q ∈ w_visited w' ∧ q ∉ w_visited w) as (Hq1 & Hq2 & Hq3).
    { split; [apply Hfile|apply Hfront]; left. }
    apply Nat.lt_le_trans with (size (files ∖ w_visited w)); [|lia]. apply subset_size. split.
    + clear -Hsub. set_solver.
    + intros H. assert (q ∈ files ∖ w_visited w') as Hin; [apply H; set_solver|]. set_solver.
Qed.

(** ** The state between walks *)

Record walk_state_ok (st : WalkState) : Prop := {
  ws_closed p q : p ∈ visited st → edge p q → q ∈ visited st;
  ws_scans : scans (λ p, p ∈ visited st) (scan_cache st);
  ws_read : files_read st = size (scan_cache st);
}.

Lemma new_walk_state_ok : walk_state_ok new_walk_state.
Proof. split; [set_solver| |done]. intros p l. cbn. rewrite lookup_empty. set_solver. Qed.

Definition seeded (st : WalkState) (seeds : list PathBuf) : Wave :=
  foldl (λ w seed, discover (canon seed) w)
    {| w_visited := visited st; w_reached := ∅; w_unresolved := ∅; w_frontier := [] |} seeds.

Lemma seeded_inv st seeds : walk_state_ok st →
  wave_inv (visited st) seeds (seeded st seeds) (scan_cache st) (files_read st).
Proof.
  intros [H1 H2 H3].
  assert (grow (λ q, ∃ seed, seed ∈ seeds ∧ q = canon seed) (λ s, ∃ a : PathBuf, a ∈ seeds ∧ none s)
    {| w_visited := visited st; w_reached := ∅; w_unresolved := ∅; w_frontier := [] |} (seeded st seeds))
    as [G1 G2 G3 (new & G4 & G5 & G6)].
  { apply (grow_foldl (λ w seed, discover (canon seed) w) (λ seed q, q = canon seed) (λ _, none)). intros. apply grow_discover. }
  cbn in *. set (w := seeded st seeds) in *.
  assert (∀ q, q ∈ w_reached w ↔ q ∈ new) as Hr by (intros q; rewrite G2, G6; set_solver).
  split; rewrite ?G4; cbn.
  - intros q. rewrite Hr, G1, G6. destruct (decide (q ∈ visited st)); tauto.
  - intros q. rewrite Hr, G6. tauto.
  - done.
  - intros p. by rewrite Hr.
  - intros p q Hp Hpn He. apply G1. left. apply (H1 p q); [|done]. rewrite G6 in Hpn. rewrite G1 in Hp.
    destruct (decide (p ∈ visited st)); tauto.
  - intros p. rewrite Hr, G6. intros [(seed & Hs & ->) _]. exists seed. split; [done|constructor].
  - intros seed Hs. apply G1. right. eauto.
  - intros p l. rewrite (H2 p l). apply and_iff_compat_r. rewrite G1, G6.
    destruct (decide (p ∈ visited st)); tauto.
  - done.
  - intros s. rewrite G3. unfold none. split; [set_solver|]. intros (p & Hp & Hpn & _). rewrite Hr in Hp. done.
Qed.

Lemma closed_reach (V : gset PathBuf) seeds : (∀ p q, p ∈ V → edge p q → q ∈ V) →
  (∀ seed, seed ∈ seeds → canon seed ∈ V) → ∀ q, reach seeds q → q ∈ V.
Proof.
  intros Hc Hs q (seed & Hin & Hr). apply Hs in Hin. induction Hr as [|x y z Hxy _ IH]; [done|]. eauto.
Qed.

Lemma walk_scanner_spec seeds st : walk_state_ok st → ∃ r st',
  walk_with_state_scanner sps scanner seeds st = Some (r, st') ∧ walk_state_ok st' ∧
  (∀ q, q ∈ reached r ↔ reach seeds q ∧ q ∉ visited st) ∧
  (∀ q, q ∈ visited st' ↔ q ∈ visited st ∨ reach seeds q) ∧
  (∀ s, s ∈ unresolved r ↔ ∃ p, p ∈ reached r ∧ dangling p s) ∧
  StronglySorted path_le (reached r) ∧ NoDup (reached r) ∧ StronglySorted str_le (unresolved r) ∧ NoDup (unresolved r).
Proof.
  intros Hok. pose proof (seeded_inv st seeds Hok) as Hinv.
  destruct (waves_total (enough_waves seeds) (visited st) seeds (seeded st seeds) (scan_cache st) (files_read st) Hinv)
    as (w & cache & n & E & [I1 I2 I3 I4 I5 I6 I7 I8 I9 I10] & Ef).
  { unfold enough_waves.
    assert (size (files ∖ w_visited (seeded st seeds)) ≤ size files) by (apply subseteq_size; set_solver). lia. }
  unfold walk_with_state_scanner. fold (seeded st seeds). rewrite E. cbn [mbind option_bind].
  eexists _, _. split; [done|]. rewrite Ef in *. cbn [reached unresolved].
  assert (∀ q, reach seeds q → q ∈ w_visited w) as Hreach.
  { apply closed_reach; [|done]. intros p q Hp. apply I5; [done|]. apply not_elem_of_nil. }
  assert (∀ q, q ∈ w_visited w ↔ q ∈ visited st ∨ reach seeds q) as Hv.
  { intros q. split; [|intros [Hq|Hq]; [apply I1; by left|by apply Hreach]]. intros [Hq|Hq]%I1; auto. }
  split_and!.
  - split; cbn [visited scan_cache files_read].
    + intros p q Hp. apply I5; [done|apply not_elem_of_nil].
    + intros p l. rewrite (I8 p l). split; (intros [Hp Ht]; split; [|exact Ht]); [by destruct Hp|by split; [|apply not_elem_of_nil]].
    + done.
  - intros q. rewrite elem_of_btree_iter. split; [auto|]. intros [Hq Hn]. apply Hreach, I1 in Hq. tauto.
  - exact Hv.
  - intros s. rewrite elem_of_btree_iter, I10. split; intros (p & Hp & Hd); exists p; revert Hp; rewrite elem_of_btree_iter.
    + by destruct Hd.
    + intros Hp. split_and!; [done|apply not_elem_of_nil|done].
  - apply (btree_iter_sorted path_le); apply _.
  - apply btree_iter_NoDup.
  - apply (btree_iter_sorted str_le); apply _.
  - apply btree_iter_NoDup.
Qed.

(** C23: a walk ends and computes the include closure.  Started in a state that
    earlier walks left, it reports, sorted and without repetition, exactly the
    files the include relation reaches from its seeds and that were not
    visited before, and the includes of these files that lead nowhere; every
    file that was visited has been read once. *)
Theorem walk_closure seeds st : walk_state_ok st → ∃ r st',
  walk_with_state_scanner sps scanner seeds st = Some (r, st') ∧ walk_state_ok st' ∧
  (∀ q, q ∈ reached r ↔ reach seeds q ∧ q ∉ visited st) ∧
  (∀ q, q ∈ visited st' ↔ q ∈ visited st ∨ reach seeds q) ∧
  (∀ s, s ∈ unresolved r ↔ ∃ p, p ∈ reached r ∧ dangling p s) ∧
  StronglySorted path_le (reached r) ∧ NoDup (reached r) ∧ StronglySorted str_le (unresolved r) ∧ NoDup (unresolved r).
Proof. apply walk_scanner_spec. Qed.
End Facts.
