(* ===== verification/LibSelect.v ===== *)
(** * [fbuild-library-select/src/lib.rs]: the library resolver

    Which framework libraries a project needs: walk the includes from the
    project's sources, attribute every reached header to the library whose
    include directories contain it, walk on from the sources of the selected
    libraries, until nothing new is selected. *)
From S2P Require Import Prelude RustStr CachePaths PathBuf HeaderScan HeaderActive IncludeWalk.
From stdpp Require Import sorting.
Record FrameworkLibrary := {
  name : str;
  dir : PathBuf;
  include_dirs : list PathBuf;
  source_files : list PathBuf;
}.

Record ResolveStats := { stat_files_read : nat; stat_passes : nat }.

Record Selection := {
  included_files : list PathBuf;
  required_libraries : list str;
  sel_source_files : list PathBuf;
  sel_include_dirs : list PathBuf;
  sel_unresolved : list str;
}.

(** ** Declared dependencies *)

Fixpoint contains (pat s : str) : bool :=
  starts_with pat s || match s with [] => false | _ :: s' => contains pat s' end.

Definition declared_dep_name (entry : str) : option str :=
  let entry := trim entry in
  if decide (entry = []) then None
  else if contains (&"://") entry || starts_with (&".") entry || starts_with (&"/") entry then None
  else
    let without_version := default entry (head (split_on "@" entry)) in
    let bare := trim (default without_version (last (split_on "/" without_version))) in
    if decide (bare = []) then None else Some (to_ascii_lowercase bare).

Example declared_dep_name_demo :
  declared_dep_name <$> [&"SPI"; &"Wire@^1.0"; &"adafruit/Adafruit GFX"; &"https://x/y"; &"./v"; &"@x"; &" "]
  = [Some (&"spi"); Some (&"wire"); Some (&"adafruit gfx"); None; None; None; None].
Proof. by vm_compute. Qed.

Definition external_declared_deps (declared : list str) (libraries : list FrameworkLibrary) : list str :=
  let bundled : gset str := list_to_set ((λ l, to_ascii_lowercase (name l)) <$> libraries) in
  filter (λ entry, match declared_dep_name entry with Some n => bool_decide (n ∉ bundled) | None => true end = true) declared.

(** ** The resolver *)

Section Resolve.
Context {FT : FileTree}.

Definition seed_defines (seeds : list PathBuf) (compiler_defines : macros) : macros :=
  foldl (λ defines seed,
    match read_to_string seed with Some source => active_defines source defines | None => defines end)
    compiler_defines (merge_sort path_le seeds).

Definition path_in_any (p : PathBuf) (dirs : list PathBuf) : bool := existsb (path_starts_with p) dirs.

Definition full_search_paths (project : list PathBuf) (libraries : list FrameworkLibrary) : list PathBuf :=
  foldl (λ acc d, if decide (d ∈ acc) then acc else acc ++ [d]) project (libraries ≫= include_dirs).

(** What the passes accumulate. *)
Record Ldf := {
  selected : gset nat;
  all_included : gset PathBuf;
  all_unresolved : gset str;
  walk_state : WalkState;
  pass_count : nat;
}.

Section Impl.
Context (seeds project_search_paths : list PathBuf) (libraries : list FrameworkLibrary)
        (defines : option macros) (declared : list str).

Definition wanted : gset str := list_to_set (omap declared_dep_name declared).

(** Indices of the libraries that satisfy a test. *)
Definition libs_where (P : FrameworkLibrary → bool) : gset nat :=
  list_to_set (filter (λ i, from_option P false (libraries !! i) = true) (seq 0 (length libraries))).

Definition pass_0 : Ldf :=
  {| selected := if decide (declared = []) then ∅
                 else libs_where (λ l, bool_decide (to_ascii_lowercase (name l) ∈ wanted));
     all_included := ∅; all_unresolved := ∅; walk_state := new_walk_state; pass_count := 0 |}.

Definition search_paths_ : list PathBuf := full_search_paths project_search_paths libraries.

Definition walk_pass (from : list PathBuf) (st : WalkState) : option (WalkResult * WalkState) :=
  match defines with
  | Some d => walk_with_state_active from search_paths_ d st
  | None => walk_with_state from search_paths_ st
  end.

(** The library whose canonical include directories contain a reached path. *)
Definition touched (paths : list PathBuf) (l : FrameworkLibrary) : bool :=
  existsb (λ p, path_in_any p (canon <$> include_dirs l)) paths.

Definition ldf_pass (from : list PathBuf) (l : Ldf) : option Ldf :=
  '(res, st) ← walk_pass from (walk_state l);
  Some {| selected := selected l ∪ libs_where (touched (reached res));
          all_included := all_included l ∪ list_to_set (reached res);
          all_unresolved := all_unresolved l ∪ list_to_set (unresolved res);
          walk_state := st; pass_count := pass_count l + 1 |}.

Definition sources_of (sel : gset nat) : list PathBuf :=
  btree_iter le sel ≫= λ i, match libraries !! i with Some l => source_files l | None => [] end.

(** The reconciliation loop; every round but the last selects a library. *)
Fixpoint reconcile_loop (fuel : nat) (l : Ldf) : option Ldf :=
  match fuel with
  | O => None
  | S n =>
      l' ← ldf_pass (seeds ++ sources_of (selected l)) l;
      if decide (size (selected l') = size (selected l)) then Some l' else reconcile_loop n l'
  end.

Fixpoint dedup_adjacent (ws : list str) : list str :=
  match ws with
  | w :: ((w' :: _) as rest) => if decide (w = w') then dedup_adjacent rest else w :: dedup_adjacent rest
  | ws => ws
  end.

Definition chosen (sel : gset nat) : list FrameworkLibrary := omap (λ i, libraries !! i) (btree_iter le sel).

Definition selection (l : Ldf) : Selection * ResolveStats :=
  let ls := chosen (selected l) in
  ({| included_files := btree_iter path_le (all_included l);
      required_libraries := dedup_adjacent (merge_sort str_le (name <$> ls));
      sel_source_files := btree_iter path_le (list_to_set (ls ≫= source_files));
      sel_include_dirs := btree_iter path_le (list_to_set (ls ≫= include_dirs));
      sel_unresolved := btree_iter str_le (all_unresolved l) |},
   {| stat_files_read := files_read (walk_state l); stat_passes := pass_count l |}).

Definition resolve_with_stats_impl_declared : option (Selection * ResolveStats) :=
  l ← ldf_pass seeds pass_0;
  selection <$> reconcile_loop (S (length libraries)) l.
End Impl.

Definition resolve_with_stats_impl seeds paths libraries defines :=
  resolve_with_stats_impl_declared seeds paths libraries defines [].

Definition resolve_with_stats_active_declared seeds paths libraries defines declared :=
  resolve_with_stats_impl_declared seeds paths libraries (Some (seed_defines seeds defines)) declared.

Definition resolve_with_stats_active seeds paths libraries defines :=
  resolve_with_stats_active_declared seeds paths libraries defines [].

Definition resolve_with_stats seeds paths libraries := resolve_with_stats_impl seeds paths libraries None.

Definition resolve_active seeds paths libraries defines : option Selection :=
  fst <$> resolve_with_stats_active seeds paths libraries defines.

Definition resolve seeds paths libraries : option Selection := fst <$> resolve_with_stats seeds paths libraries.
End Resolve.

(** ** The resolver selects the least closed set of libraries

    What [resolve] selects is the smallest set of libraries that holds the
    declared ones and every library a header of which is reached from the
    project or from the sources of a selected library. *)

Implicit Types (p q : PathBuf) (l : Ldf) (i : nat).

Section Facts.
Context {FT : FileTree} {FTok : FileTreeOk FT}.
Context (seeds project_search_paths : list PathBuf) (libraries : list FrameworkLibrary)
        (defines : option macros) (declared : list str).

#[local] Abbreviation sps := (search_paths_ project_search_paths libraries).
Definition scanner : str → list IncludeRef :=
  match defines with Some d => λ src, scan_active src d | None => scan end.
#[local] Abbreviation reaches := (reach sps scanner).
#[local] Abbreviation pass := (ldf_pass project_search_paths libraries defines).
#[local] Abbreviation sources := (sources_of libraries).

(** A library is declared; a path lies in one of its include directories. *)
Definition is_declared i : Prop :=
  ∃ lib d, libraries !! i = Some lib ∧ d ∈ declared ∧ declared_dep_name d = Some (to_ascii_lowercase (name lib)).
Definition owns i p : Prop :=
  ∃ lib d, libraries !! i = Some lib ∧ d ∈ include_dirs lib ∧ path_starts_with p (canon d) = true.

Lemma elem_of_libs_where P i : i ∈ libs_where libraries P ↔ ∃ lib, libraries !! i = Some lib ∧ P lib = true.
Proof.
  unfold libs_where. rewrite elem_of_list_to_set, list_elem_of_filter, elem_of_seq.
  destruct (libraries !! i) as [lib|] eqn:E; cbn; [|naive_solver].
  pose proof (lookup_lt_Some _ _ _ E). split; [intros [? _]; eauto|intros (? & [= ->] & ?); split; [done|lia]].
Qed.

Lemma elem_of_pass_0 i : i ∈ selected (pass_0 libraries declared) ↔ is_declared i.
Proof.
  unfold pass_0, is_declared. cbn [selected]. case_decide as Hd.
  - subst. split; [set_solver|]. by intros (? & ? & _ & []%not_elem_of_nil & _).
  - rewrite elem_of_libs_where. unfold wanted. split.
    + intros (lib & E & H%bool_decide_eq_true). apply elem_of_list_to_set, list_elem_of_omap in H as (d & ? & ?). eauto.
    + intros (lib & d & E & Hin & H). exists lib. split; [done|]. apply bool_decide_eq_true, elem_of_list_to_set, list_elem_of_omap. eauto.
Qed.

Lemma touched_owns paths i : i ∈ libs_where libraries (touched paths) ↔ ∃ p, p ∈ paths ∧ owns i p.
Proof.
  rewrite elem_of_libs_where. unfold touched, path_in_any, owns. split.
  - intros (lib & E & (p & Hp & (d & Hd & H)%existsb_exists)%existsb_exists).
    apply list_elem_of_In, list_elem_of_fmap in Hd as (d' & -> & Hd). exists p. split; [by apply list_elem_of_In|].
    by exists lib, d'.
  - intros (p & Hp & lib & d & E & Hd & H). exists lib. split; [done|]. apply existsb_exists. exists p.
    split; [by apply list_elem_of_In|]. apply existsb_exists. exists (canon d). split; [|done].
    apply list_elem_of_In, list_elem_of_fmap. eauto.
Qed.

Lemma elem_of_sources (S : gset nat) p : p ∈ sources S ↔ ∃ i lib, i ∈ S ∧ libraries !! i = Some lib ∧ p ∈ source_files lib.
Proof.
  unfold sources_of. rewrite list_elem_of_bind. split.
  - intros (i & Hp & Hi%elem_of_btree_iter). destruct (libraries !! i) as [lib|] eqn:E; [|by apply not_elem_of_nil in Hp].
    eauto.
  - intros (i & lib & Hi & E & Hp). exists i. rewrite E. split; [done|]. by apply elem_of_btree_iter.
Qed.

Lemma reach_mono xs ys q : (∀ x, x ∈ xs → x ∈ ys) → reaches xs q → reaches ys q.
Proof. intros H (s & Hs & Hr). exists s. auto. Qed.

Lemma sources_mono (S T : gset nat) : S ⊆ T → ∀ x, x ∈ seeds ++ sources S → x ∈ seeds ++ sources T.
Proof.
  intros H x. rewrite !elem_of_app, !elem_of_sources. intros [?|(i & lib & Hi & ?)]; [by left|right]. exists i, lib. set_solver.
Qed.

(** ** One pass *)

(** A selection that the rules of the resolver do not extend. *)
Definition closed_selection (S : gset nat) : Prop :=
  (∀ i, is_declared i → i ∈ S) ∧ ∀ i p, reaches (seeds ++ sources S) p → owns i p → i ∈ S.

Record ldf_inv l : Prop := {
  li_state : walk_state_ok sps scanner (walk_state l);
  li_included : all_included l = visited (walk_state l);
  li_sound p : p ∈ all_included l → reaches (seeds ++ sources (selected l)) p;
  li_selected i : i ∈ selected l ↔ is_declared i ∨ ∃ p, p ∈ all_included l ∧ owns i p;
  li_unresolved s : s ∈ all_unresolved l ↔ ∃ p, p ∈ all_included l ∧ dangling sps scanner p s;
  li_least S : closed_selection S → selected l ⊆ S;
}.

Lemma pass_0_inv : ldf_inv (pass_0 libraries declared).
Proof.
  split; try (cbn; set_solver).
  - apply new_walk_state_ok.
  - intros i. rewrite elem_of_pass_0. cbn. set_solver.
  - intros S [HS _] i Hi. apply HS. by apply elem_of_pass_0.
Qed.

Lemma walk_pass_spec from st : walk_state_ok sps scanner st → ∃ r st',
  walk_pass project_search_paths libraries defines from st = Some (r, st') ∧ walk_state_ok sps scanner st' ∧
  (∀ q, q ∈ reached r ↔ reaches from q ∧ q ∉ visited st) ∧
  (∀ q, q ∈ visited st' ↔ q ∈ visited st ∨ reaches from q) ∧
  (∀ s, s ∈ unresolved r ↔ ∃ p, p ∈ reached r ∧ dangling sps scanner p s).
Proof.
  intros Hok. destruct (walk_scanner_spec sps scanner from st Hok) as (r & st' & E & H1 & H2 & H3 & H4 & _).
  exists r, st'. split; [|done]. revert E. unfold walk_pass, walk_with_state_active, walk_with_state, scanner. by destruct defines.
Qed.

(** A pass from seeds that belong to the selection. *)
Lemma ldf_pass_spec from l : ldf_inv l → (∀ x, x ∈ from → x ∈ seeds ++ sources (selected l)) →
  ∃ l', pass from l = Some l' ∧ ldf_inv l' ∧ selected l ⊆ selected l' ∧ pass_count l' = pass_count l + 1 ∧
    ∀ q, q ∈ all_included l' ↔ q ∈ all_included l ∨ reaches from q.
Proof.
  intros [I1 I2 I3 I4 I5 I6] Hfrom. destruct (walk_pass_spec from (walk_state l) I1) as (r & st' & E & H1 & H2 & H3 & H4).
  unfold ldf_pass. rewrite E. cbn [mbind option_bind]. eexists. split; [done|].
  assert (∀ q, q ∈ all_included l ∪ list_to_set (reached r) ↔ q ∈ all_included l ∨ reaches from q) as Hincl.
  { intros q. rewrite elem_of_union, elem_of_list_to_set, H2, I2. destruct (decide (q ∈ visited (walk_state l))); tauto. }
  assert (∀ i, i ∈ selected l ∪ libs_where libraries (touched (reached r)) ↔
    is_declared i ∨ ∃ p, p ∈ all_included l ∪ list_to_set (reached r) ∧ owns i p) as Hsel.
  { intros i. rewrite elem_of_union, touched_owns, I4. setoid_rewrite elem_of_union. setoid_rewrite elem_of_list_to_set. naive_solver. }
  split_and!; [split; cbn [selected all_included all_unresolved walk_state]|cbn; set_solver|done|exact Hincl].
  - done.
  - apply set_eq. intros q. rewrite Hincl, H3, I2. done.
  - intros p Hp%Hincl. apply (reach_mono (seeds ++ sources (selected l))); [apply sources_mono; set_solver|].
    destruct Hp as [Hp|Hp]; [by apply I3|by apply (reach_mono from)].
  - exact Hsel.
  - intros s. rewrite elem_of_union, elem_of_list_to_set, I5, H4. setoid_rewrite elem_of_union.
    setoid_rewrite elem_of_list_to_set. naive_solver.
  - intros S HS i [Hi|Hi]%elem_of_union; [by apply (I6 S)|]. apply touched_owns in Hi as (p & [Hp _]%H2 & Ho).
    destruct HS as [HS1 HS2]. apply (HS2 i p); [|done]. eapply reach_mono; [|exact Hp]. intros x Hx%Hfrom.
    eapply sources_mono; [|exact Hx]. by apply I6.
Qed.

(** ** The loop *)

Lemma selected_bound l : ldf_inv l → size (selected l) ≤ length libraries.
Proof.
  intros Hl. transitivity (size (list_to_set (seq 0 (length libraries)) : gset nat)).
  2: { rewrite size_list_to_set by apply NoDup_seq. by rewrite length_seq. }
  apply subseteq_size. intros i Hi%(li_selected l Hl). rewrite elem_of_list_to_set, elem_of_seq.
  assert (∃ lib, libraries !! i = Some lib) as [lib E].
  { destruct Hi as [(lib & ? & E & _)|(p & _ & lib & ? & E & _)]; eauto. }
  apply lookup_lt_Some in E. lia.
Qed.

(** The passes saturate: the selection is closed and everything it reaches is
    included. *)
Definition saturated l : Prop :=
  ∀ q, reaches (seeds ++ sources (selected l)) q → q ∈ all_included l.

Lemma reconcile_loop_spec fuel : ∀ l, ldf_inv l → length libraries < fuel + size (selected l) →
  ∃ l', reconcile_loop seeds project_search_paths libraries defines fuel l = Some l' ∧ ldf_inv l' ∧ saturated l' ∧
    pass_count l' + size (selected l) ≤ pass_count l + size (selected l') + 1.
Proof.
  induction fuel as [|fuel IH]; intros l Hl Hf; [pose proof (selected_bound l Hl); lia|]. cbn [reconcile_loop].
  destruct (ldf_pass_spec (seeds ++ sources (selected l)) l Hl) as (l1 & E & Hl1 & Hsub & Hc & Hin); [done|].
  rewrite E. cbn [mbind option_bind]. destruct (decide (size (selected l1) = size (selected l))) as [Hs|Hs].
  - exists l1. split_and!; [done|done| |lia].
    assert (selected l1 = selected l) as Heq.
    { apply set_eq. intros i. split; [|apply Hsub]. intros Hi. destruct (decide (i ∈ selected l)) as [|Hn]; [done|].
      exfalso. assert (size ({[i]} ∪ selected l) ≤ size (selected l1)) as Hle by (apply subseteq_size; set_solver).
      rewrite size_union, size_singleton in Hle by set_solver. lia. }
    intros q. rewrite Heq. intros Hq. apply Hin. by right.
  - pose proof (subseteq_size _ _ Hsub). destruct (IH l1 Hl1) as (l' & E' & Hl' & Hs' & Hp'); [lia|].
    exists l'. split_and!; [done..|]. lia.
Qed.
(** ** The result *)

Lemma elem_of_chosen (S : gset nat) lib : lib ∈ chosen libraries S ↔ ∃ i, i ∈ S ∧ libraries !! i = Some lib.
Proof.
  unfold chosen. rewrite list_elem_of_omap. setoid_rewrite elem_of_btree_iter. done.
Qed.

Lemma elem_of_dedup w ws : w ∈ dedup_adjacent ws ↔ w ∈ ws.
Proof.
  induction ws as [|a ws IH]; [done|]. destruct ws as [|b ws]; [done|]. change (dedup_adjacent (a :: b :: ws)) with
    (if decide (a = b) then dedup_adjacent (b :: ws) else a :: dedup_adjacent (b :: ws)).
  destruct (decide (a = b)) as [->|]; rewrite ?elem_of_cons, IH, ?elem_of_cons; tauto.
Qed.

(** Sorted names without neighbours that are equal are sorted without repetition. *)
Lemma dedup_sorted ws : StronglySorted str_le ws →
  StronglySorted str_le (dedup_adjacent ws) ∧ NoDup (dedup_adjacent ws).
Proof.
  induction ws as [|a ws IH]; intros H; [by split; constructor|]. apply StronglySorted_inv in H as [Hs Ha].
  destruct (IH Hs) as [IH1 IH2]. destruct ws as [|b ws]; [split; [by repeat constructor|apply NoDup_singleton]|].
  change (dedup_adjacent (a :: b :: ws)) with (if decide (a = b) then dedup_adjacent (b :: ws) else a :: dedup_adjacent (b :: ws)).
  destruct (decide (a = b)) as [|Hab]; [done|]. split; constructor; try done.
  - apply Forall_forall. intros x Hx. rewrite elem_of_dedup in Hx. exact (proj1 (Forall_forall _ _) Ha x Hx).
  - rewrite elem_of_dedup. intros Hin. apply Hab. apply elem_of_cons in Hin as [|Hin]; [done|].
    apply StronglySorted_inv in Hs as [_ Hb]. apply (anti_symm str_le).
    + apply (proj1 (Forall_forall _ _) Ha). by left.
    + by apply (proj1 (Forall_forall _ _) Hb).
Qed.

Lemma files_read_spec st : walk_state_ok sps scanner st →
  files_read st = length (filter (λ p, is_Some (read_to_string p)) (btree_iter path_le (visited st))).
Proof.
  intros [_ Hs ->]. rewrite <- size_dom.
  rewrite <- (size_list_to_set (C := gset PathBuf)) by (apply NoDup_filter, btree_iter_NoDup). f_equal.
  apply set_eq. intros p. rewrite elem_of_dom, elem_of_list_to_set, list_elem_of_filter, elem_of_btree_iter. split.
  - intros [i Hi]. apply Hs in Hi as (Hp & text & -> & _). split; [by eexists|done].
  - intros [[text Ht] Hp]. exists (scanner text). apply Hs. split; [done|]. by exists text.
Qed.

(** C2: the resolver ends and selects the least closed set of libraries.  The
    selected indices are those of the declared libraries and of the libraries
    that own a reached file, where the reached files are the include closure
    of the project's seeds and of the sources of the selected libraries; no
    smaller set is closed in that way.  Names come sorted and without
    repetition; there are at most two passes more than libraries, and each
    reached file is read once. *)
Theorem resolve_least : ∃ sel stats (S : gset nat),
  resolve_with_stats_impl_declared seeds project_search_paths libraries defines declared = Some (sel, stats) ∧
  (∀ p, p ∈ included_files sel ↔ reaches (seeds ++ sources S) p) ∧
  (∀ i, i ∈ S ↔ is_declared i ∨ ∃ p, p ∈ included_files sel ∧ owns i p) ∧
  (∀ S', closed_selection S' → S ⊆ S') ∧
  (∀ n, n ∈ required_libraries sel ↔ ∃ i lib, i ∈ S ∧ libraries !! i = Some lib ∧ name lib = n) ∧
  StronglySorted str_le (required_libraries sel) ∧ NoDup (required_libraries sel) ∧
  (∀ p, p ∈ sel_source_files sel ↔ p ∈ sources S) ∧
  (∀ s, s ∈ sel_unresolved sel ↔ ∃ p, p ∈ included_files sel ∧ dangling sps scanner p s) ∧
  stat_passes stats ≤ length libraries + 2 ∧
  stat_files_read stats = length (filter (λ p, is_Some (read_to_string p)) (included_files sel)).
Proof.
  destruct (ldf_pass_spec seeds (pass_0 libraries declared) pass_0_inv) as (l1 & E1 & Hl1 & _ & Hc1 & _).
  { intros x. rewrite elem_of_app. by left. }
  destruct (reconcile_loop_spec (S (length libraries)) l1 Hl1) as (l & E & Hl & Hsat & Hc); [lia|].
  pose proof (selected_bound l Hl) as Hb. destruct Hl as [I1 I2 I3 I4 I5 I6].
  unfold resolve_with_stats_impl_declared. rewrite E1. cbn [mbind option_bind]. rewrite E. cbn [fmap option_fmap option_map].
  eexists _, _, (selected l). split; [done|].
  cbn [selection included_files required_libraries sel_source_files sel_unresolved stat_passes stat_files_read].
  assert (∀ p, p ∈ btree_iter path_le (all_included l) ↔ p ∈ all_included l) as Hi by (intros p; apply elem_of_btree_iter).
  setoid_rewrite Hi. destruct (dedup_sorted (merge_sort str_le (name <$> chosen libraries (selected l)))) as [Hs Hn].
  { apply (StronglySorted_merge_sort str_le). }
  split_and!; [|done|done| |done|done| |..].
  - intros p. split; [apply I3|apply Hsat].
  - intros n. rewrite elem_of_dedup, (merge_sort_Permutation str_le), list_elem_of_fmap.
    setoid_rewrite elem_of_chosen. naive_solver.
  - intros p. rewrite elem_of_btree_iter, elem_of_list_to_set, list_elem_of_bind, elem_of_sources.
    setoid_rewrite elem_of_chosen. naive_solver.
  - intros s. by rewrite elem_of_btree_iter.
  - cbn [pass_0 pass_count] in Hc1. lia.
  - rewrite I2. by apply files_read_spec.
Qed.
End Facts.
