(* ===== verification/LibCache.v ===== *)
(** * [fbuild-library-select/src/cache.rs]: remembered selections

    The key of a selection, the store of encoded selections, and
    [resolve_cached].  The hash function, the envelope's protobuf and the
    selection's bincode are interfaces. *)
From S2P Require Import Prelude RustStr CachePaths PathBuf HeaderScan HeaderActive IncludeWalk LibSelect.
From stdpp Require Import sorting.

(** The 32 bytes of a BLAKE3 digest. *)
Class Blake3 := blake3 : str → str.

(** The encodings of the third-party crates. *)
Class Encodings := {
  envelope_encode : Z * str → str;
  envelope_decode : str → option (Z * str);
  serialize : Selection → option str;
  deserialize : str → option Selection;
}.
Class EncodingsOk (E : Encodings) := {
  envelope_roundtrip v payload : (0 ≤ v < 2 ^ 32)%Z → envelope_decode (envelope_encode (v, payload)) = Some (v, payload);
  bincode_roundtrip s b : serialize s = Some b → deserialize b = Some s;
}.

Definition SCANNER_VERSION : Z := 2.
Definition LDF_MODE_VERSION : Z := 4.
Definition CACHE_ENVELOPE_VERSION : Z := 1.
Definition NAMESPACE : str := &"library-selection".

(** [to_le_bytes] of an integer of [n] bytes. *)
Fixpoint to_le_bytes (n : nat) (v : Z) : str :=
  match n with O => [] | S n => byte_of (Z.to_N (v mod 256)) :: to_le_bytes n (v / 256) end.
Definition len_bytes {A} (l : list A) : str := to_le_bytes 8 (Z.of_nat (length l)).

(** [to_string_lossy] of a path. *)
Definition component_text (c : Component) : str :=
  match c with RootDir => [] | CurDir => &"." | ParentDir => &".." | Normal n => n end.
Definition path_text (p : PathBuf) : str :=
  match p with [RootDir] => [slash] | _ => RustStr.join [slash] (component_text <$> p) end.

Record CacheKeyInputs := {
  toolchain_triple : str;
  framework_install_path : PathBuf;
  framework_version : str;
  preprocessor_defines : macros;
  declared_deps : list str;
}.

Definition by_name {A} (a b : str * A) : Prop := str_le a.1 b.1.
#[global] Instance by_name_dec {A} : RelDecision (by_name (A := A)) := λ a b, decide (str_le a.1 b.1).

Section Cache.
Context {FT : FileTree} {B3 : Blake3} {EN : Encodings}.

Definition canonical_header_hash (lib : FrameworkLibrary) : str :=
  blake3 (default [] (head (omap (λ d, read_bytes (buf_join d (name lib ++ &".h"))) (include_dirs lib)))).

(** What is fed to the hasher. *)
Definition key_text (seeds search_paths : list PathBuf) (libraries : list FrameworkLibrary) (inputs : CacheKeyInputs) : str :=
  let declared := dedup_adjacent (merge_sort str_le (declared_deps inputs)) in
  let defines := merge_sort by_name (map_to_list (preprocessor_defines inputs)) in
  let seed_pairs := merge_sort by_name
    ((λ p, let c := canon p in (path_text c, blake3 (default [] (read_bytes c)))) <$> seeds) in
  let lib_pairs := merge_sort by_name ((λ l, (name l, canonical_header_hash l)) <$> libraries) in
  &"fbuild.library-select.v1" ++ [nl] ++ to_le_bytes 4 SCANNER_VERSION ++ to_le_bytes 4 LDF_MODE_VERSION ++
  &"toolchain:" ++ toolchain_triple inputs ++ [nl] ++
  &"framework_path:" ++ path_text (framework_install_path inputs) ++ [nl] ++
  &"framework_version:" ++ framework_version inputs ++ [nl] ++
  &"declared_deps:" ++ len_bytes declared ++ (declared ≫= λ d, len_bytes d ++ d) ++
  &"defines:" ++ (defines ≫= λ nv, nv.1 ++ &"=" ++ nv.2 ++ [nl]) ++
  &"seeds:" ++ len_bytes seed_pairs ++ (seed_pairs ≫= λ pc, len_bytes pc.1 ++ pc.1 ++ pc.2) ++
  &"search_paths:" ++ len_bytes search_paths ++ (search_paths ≫= λ p, len_bytes (path_text p) ++ path_text p) ++
  &"libraries:" ++ len_bytes lib_pairs ++ (lib_pairs ≫= λ nc, len_bytes nc.1 ++ nc.1 ++ nc.2).

Definition cache_key seeds search_paths libraries inputs : str :=
  blake3 (key_text seeds search_paths libraries inputs).

(** ** The store *)

Inductive CacheError := Io | BadNamespace.

(** The files below the root; some may not be accessible. *)
Record FileKvStore := { root : PathBuf; blobs : gmap PathBuf str; inaccessible : PathBuf → bool }.

Definition validate_namespace (namespace : str) : result CacheError unit :=
  if negb (bool_decide (namespace = [])) &&
     forallb (λ b, in_range "a" "z" b || is_ascii_digit b || bool_decide (b = "-"%char)) namespace
  then Ok tt else Err BadNamespace.

Definition entry_path (st : FileKvStore) (namespace key : str) : PathBuf :=
  buf_join (buf_join (root st) namespace) (hex_encode key ++ &".pb").

Definition kv_get (st : FileKvStore) (namespace key : str) : result CacheError (option str) :=
  _ <-? validate_namespace namespace;
  let p := entry_path st namespace key in
  if inaccessible st p then Err Io
  else match blobs st !! p with
       | None => Ok None
       | Some bytes =>
           match envelope_decode bytes with
           | None => Ok None
           | Some (schema_version, payload) =>
               if decide (schema_version = CACHE_ENVELOPE_VERSION) then Ok (Some payload) else Ok None
           end
       end.

(** Written to a temporary file that then replaces the entry. *)
Definition kv_put (st : FileKvStore) (namespace key value : str) : result CacheError FileKvStore :=
  _ <-? validate_namespace namespace;
  let p := entry_path st namespace key in
  if inaccessible st p then Err Io
  else Ok {| root := root st; inaccessible := inaccessible st;
             blobs := <[p := envelope_encode (CACHE_ENVELOPE_VERSION, value)]> (blobs st) |}.

Record CachedSelection := { selection_ : Selection; key : str; from_cache : bool }.

Definition store_selection (st : FileKvStore) (k : str) (s : Selection) : result CacheError FileKvStore :=
  match serialize s with Some bytes => kv_put st NAMESPACE k bytes | None => Ok st end.

(** [None] when the resolver runs out of fuel, which it does not. *)
Definition resolve_cached seeds search_paths libraries inputs (st : FileKvStore) :
    option (result CacheError (CachedSelection * FileKvStore)) :=
  let k := cache_key seeds search_paths libraries inputs in
  match kv_get st NAMESPACE k with
  | Err e => Some (Err e)
  | Ok found =>
      match found ≫= deserialize with
      | Some s => Some (Ok ({| selection_ := s; key := k; from_cache := true |}, st))
      | None =>
          '(s, _) ← resolve_with_stats_active_declared seeds search_paths libraries (preprocessor_defines inputs) (declared_deps inputs);
          Some (st <-? store_selection st k s; Ok ({| selection_ := s; key := k; from_cache := false |}, st))
      end
  end.
End Cache.

(** ** What a miss stores is what later calls get *)

Section Hits.
Context {B3 : Blake3} {EN : Encodings} {EO : EncodingsOk EN}.

Lemma kv_put_get st st' k v : kv_put st NAMESPACE k v = Ok st' → kv_get st' NAMESPACE k = Ok (Some v).
Proof.
  unfold kv_put, kv_get. replace (validate_namespace NAMESPACE) with (Ok (E := CacheError) tt) by by vm_compute.
  cbn [result_bind]. destruct (inaccessible st _) eqn:E; [done|]. intros [= <-]. cbn [inaccessible blobs].
  change (entry_path {| root := root st; blobs := _; inaccessible := _ |} NAMESPACE k) with (entry_path st NAMESPACE k).
  by rewrite E, lookup_insert_eq, envelope_roundtrip.
Qed.

(** A selection that was computed and could be encoded. *)
Lemma resolve_cached_miss {FT : FileTree} seeds paths libs inputs st out st' :
  resolve_cached seeds paths libs inputs st = Some (Ok (out, st')) → from_cache out = false →
  key out = cache_key seeds paths libs inputs ∧
  resolve_with_stats_active_declared seeds paths libs (preprocessor_defines inputs) (declared_deps inputs) ≫= (λ r, Some r.1)
    = Some (selection_ out) ∧
  store_selection st (key out) (selection_ out) = Ok st'.
Proof.
  unfold resolve_cached. intros H Hf. cbv zeta in H. destruct (kv_get _ _ _) as [found|e]; [|discriminate H].
  destruct (found ≫= deserialize); [injection H as <- <-; discriminate Hf|].
  apply bind_Some in H as ([s stats] & E & H). rewrite E. injection H as H.
  destruct (store_selection st _ s) as [st1|e] eqn:Es; [|discriminate H]. by injection H as <- <-.
Qed.

(** what a miss computes is what the next calls get.  When a call has
    computed its selection and stored it, that selection is the resolver's
    answer, and every later call with the same key, whatever the disk then
    holds, returns it from the store and leaves the store alone. *)
Theorem cached_repeats {FT FT' : FileTree} seeds paths libs inputs seeds' paths' libs' inputs' st out st' :
  resolve_cached (FT := FT) seeds paths libs inputs st = Some (Ok (out, st')) → from_cache out = false →
  is_Some (serialize (selection_ out)) →
  cache_key (FT := FT') seeds' paths' libs' inputs' = cache_key (FT := FT) seeds paths libs inputs →
  resolve_with_stats_active_declared (FT := FT) seeds paths libs (preprocessor_defines inputs) (declared_deps inputs)
    ≫= (λ r, Some r.1) = Some (selection_ out) ∧
  resolve_cached (FT := FT') seeds' paths' libs' inputs' st' =
    Some (Ok ({| selection_ := selection_ out; key := key out; from_cache := true |}, st')).
Proof.
  intros H Hf [bytes Hb] Hk. destruct (resolve_cached_miss _ _ _ _ _ _ _ H Hf) as (Ek & Er & Es). split; [done|].
  unfold store_selection in Es. rewrite Hb in Es. apply kv_put_get in Es.
  unfold resolve_cached. rewrite Hk, <- Ek, Es. cbn [mbind option_bind]. by rewrite (bincode_roundtrip _ _ Hb).
Qed.
End Hits.
