(* ===== verification/LibSamples.v ===== *)
(** * The resolver on concrete trees

    Witnesses of the theorems about the walk, the resolver and its cache, and
    an edit that the cache does not notice. *)
From S2P Require Import Prelude RustStr CachePaths PathBuf HeaderScan HeaderActive IncludeWalk LibSelect LibCache.
From stdpp Require Import sorting.

(** A tree whose paths are canonical. *)
Definition tree (m : gmap PathBuf str) : FileTree := {|
  canonicalize p := if decide (is_Some (m !! p)) then Some p else None;
  is_file p := bool_decide (is_Some (m !! p));
  read_bytes p := m !! p;
  files := dom m;
|}.

#[global] Instance tree_ok m : FileTreeOk (tree m).
Proof.
  split. intros p H%bool_decide_eq_true. unfold canon, canonicalize, files, tree.
  rewrite decide_True by done. by apply elem_of_dom.
Qed.

Definition include (s : str) : str := &"#include <" ++ s ++ &">" ++ [nl].

Definition main_cpp : PathBuf := components (&"/p/main.cpp").
Definition local_h : PathBuf := components (&"/p/local.h").
Definition spi_h : PathBuf := components (&"/fw/SPI/SPI.h").
Definition spi_cpp : PathBuf := components (&"/fw/SPI/SPI.cpp").
Definition wire_h : PathBuf := components (&"/fw/Wire/Wire.h").

Definition spi : FrameworkLibrary :=
  {| name := &"SPI"; dir := components (&"/fw/SPI"); include_dirs := [components (&"/fw/SPI")]; source_files := [spi_cpp] |}.
Definition wire : FrameworkLibrary :=
  {| name := &"Wire"; dir := components (&"/fw/Wire"); include_dirs := [components (&"/fw/Wire")]; source_files := [] |}.

(** [local.h] includes [text]; only the source of SPI includes Wire. *)
Definition project (text : str) : gmap PathBuf str :=
  {[ main_cpp := include (&"local.h"); local_h := text; spi_h := []; spi_cpp := include (&"Wire.h");
     wire_h := include (&"main.h") ]}.
Definition roots : list PathBuf := [components (&"/p")].
Definition libs : list FrameworkLibrary := [wire; spi].

Example resolve_demo :
  (required_libraries <$> resolve (FT := tree (project (include (&"SPI.h")))) [main_cpp] roots libs,
   sel_unresolved <$> resolve (FT := tree (project (include (&"SPI.h")))) [main_cpp] roots libs,
   required_libraries <$> resolve (FT := tree (project [])) [main_cpp] roots libs) =
  (Some [&"SPI"; &"Wire"], Some [&"main.h"], Some []).
Proof. by vm_compute. Qed.

Definition with_spi : FileTree := tree (project (include (&"SPI.h"))).
Definition without_spi : FileTree := tree (project []).

Lemma walk_closure_witness : ∃ r st',
  walk_with_state_scanner (FT := with_spi) (roots ++ [components (&"/fw/SPI")]) scan [main_cpp] new_walk_state = Some (r, st') ∧
  reached r = [spi_h; local_h; main_cpp] ∧ files_read st' = 3 ∧
  ∀ q, q ∈ reached r ↔ reach (FT := with_spi) (roots ++ [components (&"/fw/SPI")]) scan [main_cpp] q ∧ q ∉ visited new_walk_state.
Proof.
  destruct (walk_closure (FT := with_spi) (FTok := tree_ok _) (roots ++ [components (&"/fw/SPI")]) scan [main_cpp] new_walk_state)
    as (r & st' & E & _ & H & _); [apply new_walk_state_ok|].
  exists r, st'. split; [exact E|].
  assert ((λ rs, (reached rs.1, files_read rs.2)) <$>
    walk_with_state_scanner (FT := with_spi) (roots ++ [components (&"/fw/SPI")]) scan [main_cpp] new_walk_state
    = Some ([spi_h; local_h; main_cpp], 3)) as Hc by by vm_compute.
  rewrite E in Hc. injection Hc as Hr Hn. split; [exact Hr|]. split; [exact Hn|exact H].
Defined.

(** Wire is found through the source of SPI only. *)
Lemma resolve_least_witness : ∃ sel stats (S : gset nat),
  resolve_with_stats_impl_declared (FT := with_spi) [main_cpp] roots libs None [] = Some (sel, stats) ∧
  required_libraries sel = [&"SPI"; &"Wire"] ∧ stat_passes stats = 3 ∧
  ∀ S', closed_selection (FT := with_spi) [main_cpp] roots libs None [] S' → S ⊆ S'.
Proof.
  destruct (resolve_least (FT := with_spi) (FTok := tree_ok _) [main_cpp] roots libs None [])
    as (sel & stats & S & E & _ & _ & H & _).
  exists sel, stats, S. split; [exact E|].
  assert ((λ r, (required_libraries r.1, stat_passes r.2)) <$>
    resolve_with_stats_impl_declared (FT := with_spi) [main_cpp] roots libs None [] = Some ([&"SPI"; &"Wire"], 3)) as Hc
    by by vm_compute.
  rewrite E in Hc. injection Hc as Hn Hp. split; [exact Hn|]. split; [exact Hp|exact H].
Defined.

(** ** An edit the cache does not notice *)

Definition inputs : CacheKeyInputs :=
  {| toolchain_triple := &"avr"; framework_install_path := components (&"/fw"); framework_version := &"1";
     preprocessor_defines := ∅; declared_deps := [] |}.

(** The key hashes the seeds and one header per library.  [local.h] is neither,
    so a selection made before [local.h] included SPI is returned afterwards. *)
Lemma edited_header_keeps_key (B : Blake3) :
  cache_key (FT := with_spi) [main_cpp] roots libs inputs = cache_key (FT := without_spi) [main_cpp] roots libs inputs.
Proof. by vm_compute. Qed.

Lemma edited_header_changes_selection :
  (λ r, required_libraries r.1) <$>
    resolve_with_stats_active_declared (FT := without_spi) [main_cpp] roots libs ∅ [] = Some [] ∧
  (λ r, required_libraries r.1) <$>
    resolve_with_stats_active_declared (FT := with_spi) [main_cpp] roots libs ∅ [] = Some [&"SPI"; &"Wire"].
Proof. by vm_compute. Qed.

(** Encodings to evaluate with: a number as so many ones, and a selection as
    the binary digits of its number. *)
Definition selection_tuple (s : Selection) :=
  (included_files s, required_libraries s, sel_source_files s, sel_include_dirs s, sel_unresolved s).
Definition tuple_selection (x : list PathBuf * list str * list PathBuf * list PathBuf * list str) : Selection :=
  let '(f, l, s, d, u) := x in
  {| included_files := f; required_libraries := l; sel_source_files := s; sel_include_dirs := d; sel_unresolved := u |}.

Fixpoint bits (p : positive) : str :=
  match p with xH => [] | xO p => "0"%char :: bits p | xI p => "1"%char :: bits p end.
Fixpoint unbits (s : str) : positive :=
  match s with [] => xH | c :: s => if decide (c = "1"%char) then xI (unbits s) else xO (unbits s) end.
Lemma unbits_bits p : unbits (bits p) = p.
Proof. induction p as [p IH|p IH|]; cbn; by rewrite ?IH. Qed.

Fixpoint read_ones (s : str) : option (Z * str) :=
  match s with
  | [] => None
  | c :: s => if decide (c = "1"%char) then '(n, r) ← read_ones s; Some (n + 1, r)%Z else Some (0%Z, s)
  end.
Lemma read_ones_spec n r : read_ones (replicate n "1"%char ++ "0"%char :: r) = Some (Z.of_nat n, r).
Proof. induction n as [|n IH]; cbn; [done|]. rewrite IH. cbn. do 2 f_equal. lia. Qed.

Definition plain : Encodings := {|
  envelope_encode e := replicate (Z.to_nat e.1) "1"%char ++ "0"%char :: e.2;
  envelope_decode := read_ones;
  serialize s := Some (bits (encode (selection_tuple s)));
  deserialize s := tuple_selection <$> decode (unbits s);
|}.

#[global] Instance plain_ok : EncodingsOk plain.
Proof.
  split.
  - intros v payload Hv. cbn. rewrite read_ones_spec. by rewrite Z2Nat.id by lia.
  - intros s b [= <-]. cbn. rewrite unbits_bits, decode_encode. by destruct s.
Qed.

Definition empty_store : FileKvStore :=
  {| root := components (&"/cache"); blobs := ∅; inaccessible := λ _, false |}.
Definition first_byte : Blake3 := λ s, take 1 (reverse s).

(** The selection without SPI is what the edited project gets. *)
Lemma cached_repeats_witness : ∃ out st',
  resolve_cached (FT := without_spi) (B3 := first_byte) (EN := plain) [main_cpp] roots libs inputs empty_store = Some (Ok (out, st')) ∧
  required_libraries (selection_ out) = [] ∧
  resolve_cached (FT := with_spi) (B3 := first_byte) (EN := plain) [main_cpp] roots libs inputs st' =
    Some (Ok ({| selection_ := selection_ out; key := key out; from_cache := true |}, st')).
Proof.
  assert ((λ r, match r with Ok (o, _) => (required_libraries (selection_ o), from_cache o) | Err _ => ([], true) end) <$>
    resolve_cached (FT := without_spi) (B3 := first_byte) (EN := plain) [main_cpp] roots libs inputs empty_store
    = Some ([], false)) as Hc by by vm_compute.
  destruct (resolve_cached (FT := without_spi) (B3 := first_byte) (EN := plain) [main_cpp] roots libs inputs empty_store)
    as [[[out st']|e]|] eqn:E; [|discriminate Hc..].
  injection Hc as Hr Hf. exists out, st'. split; [done|]. split; [exact Hr|].
  exact (proj2 (cached_repeats (B3 := first_byte) (EO := plain_ok) (FT := without_spi) (FT' := with_spi)
    [main_cpp] roots libs inputs [main_cpp] roots libs inputs empty_store out st' E Hf ltac:(by eexists)
    ltac:(by vm_compute))).
Defined.
