(* ===== verification/NormPath.v ===== *)
(** * [fbuild-core/src/path.rs], on Unix

    Lexical normalization of paths, the key that identifies a path, and the
    rewriting of compiler flags relative to the directory of a compilation.
    The operating system's [canonicalize] is an argument. *)
From S2P Require Import Prelude RustStr CachePaths PathBuf.

(** ** Normal form and key *)

Definition push_component (acc : PathBuf) (c : Component) : PathBuf :=
  match c with
  | CurDir => acc
  | ParentDir =>
      match last acc with
      | Some (Normal _) => take (pred (length acc)) acc
      | _ => acc ++ [c]
      end
  | _ => acc ++ [c]
  end.

Definition normalize (p : PathBuf) : PathBuf := foldl push_component [] p.

(** [Component::as_os_str], and the text of collected components. *)
Definition component_text (c : Component) : str :=
  match c with RootDir => [slash] | CurDir => &"." | ParentDir => &".." | Normal n => n end.
Definition path_text (p : PathBuf) : str := foldl (λ b c, path_join b (component_text c)) [] p.

(** The comparison key of Linux is the text itself. *)
Definition normalize_for_key (p : str) : str := path_text (normalize (components p)).

(** [NormalizedPath::new]: the path and the key. *)
Record NormalizedPath := { np_path : str; np_key : str }.
Definition new_normalized (p : str) : NormalizedPath :=
  let q := path_text (normalize (components p)) in
  {| np_path := q; np_key := normalize_for_key q |}.

Definition display_slash (p : NormalizedPath) : str := np_path p.

Example key_demo :
  normalize_for_key (&"/w/./a//b/../c/") = &"/w/a/c" ∧ normalize_for_key (&"../x/..") = &".." ∧
  normalize_for_key (&"/../a") = &"/../a" ∧ normalize_for_key (&"a/..") = [].
Proof. by vm_compute. Qed.

(** ** Relative to the directory of a compilation *)

Definition is_absolute (p : str) : bool := starts_with [slash] p.

Definition file_name (p : PathBuf) : option str :=
  match last p with Some (Normal n) => Some n | _ => None end.

Section CompileCwd.
Context (canonicalize : PathBuf → option PathBuf).

Definition canonicalize_lexical (p : PathBuf) : option PathBuf :=
  match canonicalize p with
  | Some q => Some q
  | None =>
      d ← parent p; d ← canonicalize d;
      Some (match file_name p with Some n => d ++ [Normal n] | None => d end)
  end.

Definition is_fbuild_dir (p : PathBuf) : bool :=
  match file_name p with
  | Some n => bool_decide (to_ascii_lowercase n = &".fbuild") | None => false end.

(** The loop of [compile_cwd_from_output]; [fuel] bounds the ancestors. *)
Fixpoint workspace_above (fuel : nat) (dir : PathBuf) : option PathBuf :=
  if is_fbuild_dir dir then
    (λ w, default w (canonicalize_lexical w)) <$> parent dir
  else match fuel with O => None | S n => parent dir ≫= workspace_above n end.

Definition compile_cwd_from_output (output : PathBuf) : option PathBuf :=
  parent output ≫= workspace_above (length output).

(** [Path::strip_prefix] *)
Definition strip_path (base p : PathBuf) : option PathBuf :=
  if decide (base `prefix_of` p) then Some (drop (length base) p) else None.

Definition path_arg_for_compile_cwd (path cwd : str) : str :=
  let p := components path in
  let relative :=
    if is_absolute path then
      let stable_path := default p (canonicalize_lexical p) in
      let stable_cwd := default (components cwd) (canonicalize_lexical (components cwd)) in
      default stable_path (strip_path stable_cwd stable_path)
    else p in
  let arg := path_text (normalize relative) in
  if decide (arg = []) then &"." else arg.

Definition path_flags : list str :=
  [&"-I"; &"-isystem"; &"-iquote"; &"-idirafter"; &"-include"; &"-imacros"; &"-isysroot"; &"--sysroot"].
Definition flag_takes_path_argument (flag : str) : bool := bool_decide (flag ∈ path_flags).

Definition joined_prefixes : list str :=
  [&"-I"; &"-isystem"; &"-iquote"; &"-idirafter"; &"-include"; &"-imacros"; &"-isysroot"].

Fixpoint first_split (prefixes : list str) (flag : str) : option (str * str) :=
  match prefixes with
  | [] => None
  | p :: ps =>
      match strip_prefix p flag with
      | Some (c :: v) => Some (p, c :: v)
      | _ => first_split ps flag
      end
  end.
Definition split_joined_path_flag : str → option (str * str) := first_split joined_prefixes.

(** The loop of [normalize_flags_for_compile_cwd]; [next_is_path] is its
    local variable. *)
Fixpoint normalize_flags (cwd : str) (next_is_path : bool) (flags : list str) : list str :=
  match flags with
  | [] => []
  | flag :: flags =>
      if next_is_path then path_arg_for_compile_cwd flag cwd :: normalize_flags cwd false flags
      else if flag_takes_path_argument flag then flag :: normalize_flags cwd true flags
      else
        match strip_prefix (&"--sysroot=") flag with
        | Some v => (&"--sysroot=" ++ path_arg_for_compile_cwd v cwd) :: normalize_flags cwd false flags
        | None =>
            match split_joined_path_flag flag with
            | Some (p, v) => (p ++ path_arg_for_compile_cwd v cwd) :: normalize_flags cwd false flags
            | None => flag :: normalize_flags cwd false flags
            end
        end
  end.
Definition normalize_flags_for_compile_cwd (flags : list str) (cwd : str) : list str :=
  normalize_flags cwd false flags.
End CompileCwd.

Example flags_demo :
  normalize_flags_for_compile_cwd Some
    [&"-I/w/inc"; &"-isystem"; &"/opt/x"; &"-DI=/w"; &"--sysroot=/w"; &"-include"; &"src/../a.h"] (&"/w") =
    [&"-Iinc"; &"-isystem"; &"/opt/x"; &"-DI=/w"; &"--sysroot=."; &"-include"; &"a.h"].
Proof. by vm_compute. Qed.

(** ** The text of a path determines its components *)

(** Names that are one component. *)
Definition name_ok (n : str) : Prop := n ≠ [] ∧ slash ∉ n ∧ n ≠ &"." ∧ n ≠ &"..".

Definition tail_ok (c : Component) : Prop :=
  match c with Normal n => name_ok n | ParentDir => True | _ => False end.

(** At most one root, in front; the other components are names and [..]. *)
Definition path_ok (p : PathBuf) : Prop :=
  match p with RootDir :: q | q => Forall tail_ok q end.

Lemma path_ok_cases p : path_ok p → Forall tail_ok p ∨ ∃ q, p = RootDir :: q ∧ Forall tail_ok q.
Proof. destruct p as [|[] q]; cbn; eauto. Qed.

Lemma path_ok_tail p : Forall tail_ok p → path_ok p.
Proof. destruct p as [|[] q]; cbn; try done. by intros [? _]%Forall_cons. Qed.

Lemma component_of_ok w c : slash ∉ w → component_of w = Some c → tail_ok c.
Proof.
  intros Hs. unfold component_of. case_decide as H1; [done|]. case_decide; intros [= <-]; [done|].
  cbn. unfold name_ok. tauto.
Qed.

Lemma tail_ok_component c : tail_ok c → component_of (component_text c) = Some c.
Proof.
  destruct c as [| | |n]; try done. intros (H1 & H2 & H3 & H4). cbn.
  unfold component_of. rewrite !decide_False; tauto.
Qed.

Lemma tail_ok_text c : tail_ok c → slash ∉ component_text c ∧ component_text c ≠ [] ∧ component_text c ≠ &".".
Proof.
  destruct c as [| | |n]; try done; cbn [tail_ok component_text].
  - intros _. split_and!; [|done|done]. apply (bool_decide_unpack _). by vm_compute.
  - unfold name_ok. tauto.
Qed.

Lemma split_slash_clean c s : Forall (λ w, c ∉ w) (split_on c s).
Proof.
  apply Forall_forall. intros w Hw%split_by_pieces Hc.
  rewrite Forall_forall in Hw. apply Hw in Hc. by apply bool_decide_eq_false in Hc.
Qed.

(** What [components] yields after the root. *)
Definition step_ok (c : Component) : Prop := c = CurDir ∨ tail_ok c.

Lemma components_shape s : ∃ q, Forall step_ok q ∧
  components s = (if starts_with [slash] s then [RootDir] else []) ++ q.
Proof.
  eexists. split; [|by unfold components]. apply Forall_app. split.
  - destruct (split_on slash s) as [|w ws]; [done|]. case_decide; [|done]. constructor; [by left|done].
  - apply Forall_forall. intros c (w & Hw & Hc)%list_elem_of_omap. right.
    eapply component_of_ok; [|done]. pose proof (split_slash_clean slash s) as H. rewrite Forall_forall in H. auto.
Qed.

Lemma path_ok_take n p : path_ok p → path_ok (take n p).
Proof.
  intros [H|(q & -> & H)]%path_ok_cases; [by apply path_ok_tail, Forall_take|].
  destruct n; [constructor|]. exact (Forall_take _ n q H).
Qed.

Lemma path_ok_snoc p c : path_ok p → tail_ok c → path_ok (p ++ [c]).
Proof.
  intros [H|(q & -> & H)]%path_ok_cases Hc; [apply path_ok_tail|change (Forall tail_ok (q ++ [c]))];
    apply Forall_app; auto.
Qed.

Lemma push_component_ok p c : path_ok p → step_ok c → path_ok (push_component p c).
Proof.
  intros Hp [->|Hc]; [done|]. destruct c as [| | |n]; cbn; [done..| |by apply path_ok_snoc].
  destruct (last p) as [[]|]; try (by apply path_ok_snoc). by apply path_ok_take.
Qed.

Lemma normalize_ok s : path_ok (normalize (components s)).
Proof.
  destruct (components_shape s) as (q & Hq & ->). unfold normalize. rewrite foldl_app.
  assert (path_ok (foldl push_component [] (if starts_with [slash] s then [RootDir] else []))) as H0
    by (destruct (starts_with _ _); constructor).
  revert H0. generalize (foldl push_component [] (if starts_with [slash] s then [RootDir] else [])).
  induction Hq as [|c q Hc Hq IH]; intros acc H0; cbn; [done|]. by apply IH, push_component_ok.
Qed.

Lemma join_snoc sep l w : l ≠ [] → join sep (l ++ [w]) = join sep l ++ sep ++ w.
Proof.
  induction l as [|v l IH]; [done|]. intros _. destruct l as [|u l]; [done|].
  change (join sep ((v :: u :: l) ++ [w])) with (v ++ sep ++ join sep ((u :: l) ++ [w])).
  rewrite IH by done. change (join sep (v :: u :: l)) with (v ++ sep ++ join sep (u :: l)).
  by rewrite <- !app_assoc.
Qed.

(** Pushing a name onto a path that does not end in a slash. *)
Lemma path_join_name b n : b ≠ [] → last b ≠ Some slash → starts_with [slash] n = false →
  path_join b n = b ++ [slash] ++ n.
Proof.
  intros Hb Hl Hn. unfold path_join. rewrite Hn, bool_decide_false by done. cbn [orb].
  destruct (ends_with [slash] b) eqn:E; [|done]. destruct Hl.
  unfold ends_with, strip_suffix in E. destruct (strip_prefix (reverse [slash]) (reverse b)) as [k|] eqn:E'; [|done].
  apply strip_prefix_Some in E'. apply (f_equal reverse) in E'. rewrite reverse_involutive, reverse_app in E'.
  by rewrite E', last_app.
Qed.

Lemma text_no_end_slash q : Forall tail_ok q → q ≠ [] →
  join [slash] (component_text <$> q) ≠ [] ∧ last (join [slash] (component_text <$> q)) ≠ Some slash.
Proof.
  intros Hq Hne. destruct (exists_last Hne) as (q' & c & ->). apply Forall_app in Hq as [_ Hc].
  apply Forall_singleton, tail_ok_text in Hc as (Hs & Hn & _).
  assert (∀ pre, pre ++ component_text c ≠ [] ∧ last (pre ++ component_text c) ≠ Some slash) as H.
  { intros pre. split; [by intros [_ ?]%app_eq_nil|]. rewrite last_app.
    destruct (last (component_text c)) as [a|] eqn:E.
    - intros [= ->]. apply Hs. by apply last_Some_elem_of.
    - by apply last_None in E. }
  rewrite fmap_app. cbn [fmap list_fmap]. destruct q' as [|d q']; [apply (H [])|].
  rewrite join_snoc by done. rewrite app_assoc. apply H.
Qed.

Lemma no_leading_slash n : slash ∉ n → starts_with [slash] n = false.
Proof.
  intros H. destruct (starts_with [slash] n) eqn:E; [|done]. apply starts_with_iff in E as [k ->]. set_solver.
Qed.

Lemma path_text_tail q : Forall tail_ok q → path_text q = join [slash] (component_text <$> q).
Proof.
  induction q as [|c q IH] using rev_ind; [done|]. intros [Hq Hc]%Forall_app.
  apply Forall_singleton, tail_ok_text in Hc as (Hs & Hn & _). apply no_leading_slash in Hs.
  unfold path_text in IH |- *. rewrite foldl_snoc, IH, fmap_app by done.
  change (component_text <$> [c]) with [component_text c].
  destruct q as [|d q]; [cbn; unfold path_join; by rewrite Hs|].
  destruct (text_no_end_slash (d :: q)) as [H1 H2]; [done..|].
  rewrite path_join_name by done. by rewrite join_snoc.
Qed.

Lemma path_text_root q : Forall tail_ok q → path_text (RootDir :: q) = slash :: join [slash] (component_text <$> q).
Proof.
  induction q as [|c q IH] using rev_ind; [done|]. intros [Hq Hc]%Forall_app.
  apply Forall_singleton, tail_ok_text in Hc as (Hs & Hn & _). apply no_leading_slash in Hs.
  unfold path_text in IH |- *. rewrite app_comm_cons, foldl_snoc, IH, fmap_app by done.
  change (component_text <$> [c]) with [component_text c].
  destruct q as [|d q]; [cbn; unfold path_join; by rewrite Hs|].
  destruct (text_no_end_slash (d :: q)) as [H1 H2]; [done..|].
  rewrite path_join_name, join_snoc; [done|done|done| |done].
  rewrite last_cons. destruct (last (join _ _)) eqn:E; [done|by apply last_None in E].
Qed.

Lemma components_tail q : Forall tail_ok q → omap component_of (component_text <$> q) = q.
Proof. induction 1 as [|c q Hc _ IH]; [done|]. cbn. by rewrite tail_ok_component, IH. Qed.

Lemma tail_texts_clean q : Forall tail_ok q → Forall (λ w, slash ∉ w) (component_text <$> q).
Proof. intros H. apply Forall_fmap. eapply Forall_impl; [done|]. by intros c (? & _)%tail_ok_text. Qed.

Lemma join_no_leading_slash q : Forall tail_ok q → starts_with [slash] (join [slash] (component_text <$> q)) = false.
Proof.
  intros [|c q' Hc Hq]; [done|]. apply tail_ok_text in Hc as (Hs & Hn & _).
  cbn. destruct (component_text c) as [|a w]; [done|].
  assert (slash ≠ a) as Ha by set_solver. destruct (component_text <$> q'); by apply starts_with_ne.
Qed.

(** Printing and splitting again gives the components back. *)
Lemma components_path_text p : path_ok p → components (path_text p) = p.
Proof.
  intros [H|(q & -> & H)]%path_ok_cases; unfold components.
  - rewrite path_text_tail, join_no_leading_slash by done. destruct H as [|c q Hc Hq]; [done|].
    rewrite split_join, components_tail by first [done|by apply tail_texts_clean; constructor|by constructor].
    cbn. apply tail_ok_text in Hc as (_ & _ & Hd). by rewrite decide_False.
  - rewrite path_text_root by done. destruct H as [|c q Hc Hq]; [done|].
    assert (split_on slash (slash :: join [slash] (component_text <$> c :: q)) = [] :: (component_text <$> c :: q)) as ->.
    { rewrite <- (split_join slash (component_text <$> c :: q)) at 2
        by first [done|by apply tail_texts_clean; constructor]. done. }
    change (omap component_of ([] :: (component_text <$> c :: q)))
      with (omap component_of (component_text <$> c :: q)).
    rewrite components_tail by (by constructor). done.
Qed.

(** ** Normal forms *)

Lemma normalize_snoc p c : normalize (p ++ [c]) = push_component (normalize p) c.
Proof. apply foldl_snoc. Qed.

Definition nf (p : PathBuf) : Prop := normalize p = p.

Lemma push_component_nf p c : nf p → nf (push_component p c).
Proof.
  intros Hp. assert (push_component p c = p ++ [c] → nf (push_component p c)) as Hsnoc.
  { intros E. unfold nf. by rewrite E, normalize_snoc, Hp, E. }
  destruct c as [| | |n]; [by apply Hsnoc|done| |by apply Hsnoc].
  cbn in Hsnoc |- *. destruct (last p) as [[| | |n]|] eqn:El; [by apply Hsnoc..| |by apply Hsnoc].
  apply last_Some in El as [q ->]. rewrite length_app, Nat.add_1_r, Nat.pred_succ, take_app_length.
  unfold nf in Hp |- *. rewrite normalize_snoc in Hp. cbn in Hp. by apply app_inj_tail in Hp as [-> _].
Qed.

Lemma normalize_nf p : nf (normalize p).
Proof.
  induction p as [|c p IH] using rev_ind; [done|]. rewrite normalize_snoc. by apply push_component_nf.
Qed.

Lemma key_components p : components (normalize_for_key p) = normalize (components p).
Proof. apply components_path_text, normalize_ok. Qed.

(** the key of a path is a canonical form: it is a fixed point of the
    normalization, it names the normalized components, and two paths have
    the same key exactly when these agree. *)
Theorem key_canonical p q :
  normalize_for_key (normalize_for_key p) = normalize_for_key p ∧
  np_key (new_normalized p) = normalize_for_key p ∧
  (normalize_for_key p = normalize_for_key q ↔ normalize (components p) = normalize (components q)).
Proof.
  assert (normalize_for_key (normalize_for_key p) = normalize_for_key p) as H.
  { unfold normalize_for_key at 1. rewrite key_components, normalize_nf. done. }
  split_and!; [done..|]. split; [|by unfold normalize_for_key; intros ->].
  intros E. by rewrite <- !key_components, E.
Qed.
