(* ===== verification/FlagPaths.v ===== *)
(** * Compiler flags are independent of where the workspace is

    A compilation runs in the workspace that holds its [.fbuild] directory,
    and the paths among its flags are rewritten relative to that directory.
    Here: the rewritten flags of a project do not mention the workspace, so
    two checkouts of the project share their compiler cache entries. *)
From S2P Require Import Prelude RustStr CachePaths PathBuf NormPath.

(** A compiler flag of a project; its path is below the workspace. *)
Inductive Flag :=
  | Plain (f : str)
  | Joined (prefix : str) (tail : PathBuf)
  | Separate (f : str) (tail : PathBuf)
  | Sysroot (tail : PathBuf).

Definition names (t : PathBuf) : Prop := Forall (λ c, ∃ n, c = Normal n ∧ name_ok n) t.

(** The options of the compiler that take a path, in the next argument or in
    the same word; a root directory is joined with an equals sign. *)
Definition include_options : list str :=
  [&"-I"; &"-isystem"; &"-iquote"; &"-idirafter"; &"-include"; &"-imacros"; &"-isysroot"].
Definition sysroot_option : str := &"--sysroot".

Definition flag_ok (f : Flag) : Prop :=
  match f with
  | Plain f => Forall (λ p, ¬ p `prefix_of` f) (sysroot_option :: include_options)
  | Joined p t => p ∈ include_options ∧ names t
  | Separate p t => p ∈ sysroot_option :: include_options ∧ names t
  | Sysroot t => names t
  end.

(** The arguments of the flag, the path rendered by [arg]. *)
Definition flag_texts (arg : PathBuf → str) (f : Flag) : list str :=
  match f with
  | Plain f => [f]
  | Joined p t => [p ++ arg t]
  | Separate p t => [p; arg t]
  | Sysroot t => [sysroot_option ++ &"=" ++ arg t]
  end.

Definition absolute_arg (w t : PathBuf) : str := path_text (w ++ t).
Definition relative_arg (t : PathBuf) : str := if decide (t = []) then &"." else path_text t.

(** [w] is an absolute directory in canonical form, and no path below it
    leads through a symbolic link. *)
Record workspace (canonicalize : PathBuf → option PathBuf) (w : PathBuf) : Prop := {
  ws_root : ∃ q, w = RootDir :: q ∧ names q;
  ws_canonical : canonicalize w = Some w;
  ws_below t : names t → canonicalize (w ++ t) = Some (w ++ t) ∨ canonicalize (w ++ t) = None;
}.

Lemma names_tail t : names t → Forall tail_ok t.
Proof. intros H. eapply Forall_impl; [exact H|]. by intros c (n & -> & ?). Qed.

Lemma names_nf t : names t → ∀ p, foldl push_component p t = p ++ t.
Proof.
  induction 1 as [|c t (n & -> & _) _ IH]; intros p; cbn; [by rewrite app_nil_r|].
  by rewrite IH, <- app_assoc.
Qed.

Section Relocation.
Context (canonicalize : PathBuf → option PathBuf).
Notation canonicalize_lexical := (canonicalize_lexical canonicalize).
Implicit Types w t : PathBuf.

Lemma workspace_path_ok w t : workspace canonicalize w → names t → path_ok (w ++ t).
Proof.
  intros [(q & -> & Hq) _ _] Ht. change (Forall tail_ok (q ++ t)). apply Forall_app.
  split; by apply names_tail.
Qed.

Lemma parent_snoc t c : c ≠ RootDir → parent (t ++ [c]) = Some t.
Proof.
  intros Hc. unfold parent. rewrite last_snoc, length_app, Nat.add_1_r, Nat.pred_succ, take_app_length.
  by destruct c.
Qed.

Lemma canonical_below w t : workspace canonicalize w → names t →
  default (w ++ t) (canonicalize_lexical (w ++ t)) = w ++ t.
Proof.
  intros [_ Hw Hb] Ht. unfold NormPath.canonicalize_lexical.
  destruct (Hb t Ht) as [->|E]; [done|]. rewrite E. destruct t as [|c t _] using rev_ind.
  { rewrite app_nil_r in E. congruence. }
  apply Forall_app in Ht as [Ht (n & -> & _)%Forall_singleton].
  rewrite app_assoc, parent_snoc by done. cbn [mbind option_bind].
  destruct (Hb t Ht) as [E2|E2]; rewrite E2; cbn [mbind option_bind default]; [|done].
  unfold file_name. by rewrite last_snoc.
Qed.

Lemma canonical_workspace w : workspace canonicalize w → default w (canonicalize_lexical w) = w.
Proof. intros Hw. pose proof (canonical_below w [] Hw (Forall_nil_2 _)) as E. by rewrite app_nil_r in E. Qed.

(** An argument below the workspace becomes relative to it. *)
Lemma path_arg_below w t : workspace canonicalize w → names t →
  path_arg_for_compile_cwd canonicalize (absolute_arg w t) (path_text w) = relative_arg t.
Proof.
  intros Hw Ht. pose proof (workspace_path_ok w t Hw Ht) as Hok.
  pose proof (workspace_path_ok w [] Hw) as Hok0. rewrite app_nil_r in Hok0.
  unfold path_arg_for_compile_cwd, absolute_arg. rewrite (components_path_text (w ++ t)), (components_path_text w) by (done || by apply Hok0; constructor).
  assert (is_absolute (path_text (w ++ t)) = true) as ->.
  { destruct (ws_root _ _ Hw) as (q & -> & Hq). unfold is_absolute. rewrite <- app_comm_cons, path_text_root; [done|].
    apply Forall_app. split; by apply names_tail. }
  rewrite canonical_below by done.
  rewrite (canonical_workspace w Hw).
  unfold strip_path. rewrite (decide_True (P := w `prefix_of` w ++ t)) by (by exists t).
  rewrite drop_app_length; cbn [default from_option id].
  assert (normalize t = t) as -> by exact (names_nf t Ht []).
  unfold relative_arg. destruct Ht as [|c t (n & -> & Hn) Ht]; [done|].
  rewrite (decide_False (P := Normal n :: t = [])) by done.
  rewrite decide_False; [done|]. assert (names (Normal n :: t)) as Hnt by (constructor; [by exists n|done]).
  rewrite path_text_tail by (by apply names_tail). apply text_no_end_slash; [by apply names_tail|done].
Qed.

(** ** Which flags are split *)

Lemma no_slash_path_flags f : f ∈ path_flags → slash ∉ f.
Proof.
  assert (Forall (λ f : str, slash ∉ f) path_flags) as H by (apply (bool_decide_unpack _); by vm_compute).
  rewrite Forall_forall in H. apply H.
Qed.

Lemma absolute_arg_cons w t : workspace canonicalize w → names t → ∃ v, absolute_arg w t = slash :: v.
Proof.
  intros [(q & -> & Hq) _ _] Ht. unfold absolute_arg. rewrite <- app_comm_cons, path_text_root; [by eexists|].
  apply Forall_app. split; by apply names_tail.
Qed.

Lemma not_separate p v : flag_takes_path_argument (p ++ slash :: v) = false.
Proof. apply bool_decide_eq_false. intros H%no_slash_path_flags. set_solver. Qed.

Lemma first_split_none ps f : Forall (λ p, ¬ p `prefix_of` f) ps → first_split ps f = None.
Proof. induction 1 as [|p ps Hp Hps IH]; [done|]. cbn [first_split]. by apply strip_prefix_None in Hp as ->. Qed.
Lemma other_flag_kept f : Forall (λ p, ¬ p `prefix_of` f) (sysroot_option :: include_options) →
  flag_takes_path_argument f = false ∧ strip_prefix (&"--sysroot=") f = None ∧ split_joined_path_flag f = None.
Proof.
  intros H. rewrite Forall_forall in H. split_and!.
  - apply bool_decide_eq_false. intros Hin. apply (H f); [|done]. unfold path_flags in Hin. unfold include_options. set_solver.
  - apply strip_prefix_None. intros Hp. apply (H sysroot_option); [by left|]. by etrans; [exists (&"=")|exact Hp].
  - apply first_split_none, Forall_forall. intros p Hp. apply H. by right.
Qed.

Lemma split_joined p v : p ∈ include_options →
  strip_prefix (&"--sysroot=") (p ++ slash :: v) = None ∧
  split_joined_path_flag (p ++ slash :: v) = Some (p, slash :: v).
Proof.
  intros Hp. unfold include_options in Hp. rewrite !elem_of_cons, elem_of_nil in Hp.
  destruct Hp as [->|[->|[->|[->|[->|[->|[->|[]]]]]]]]; done.
Qed.

Lemma normalize_flag w f rest : workspace canonicalize w → flag_ok f →
  normalize_flags canonicalize (path_text w) false (flag_texts (absolute_arg w) f ++ rest) =
  flag_texts relative_arg f ++ normalize_flags canonicalize (path_text w) false rest.
Proof.
  intros Hw. destruct f as [f|p t|p t|t]; cbn [flag_ok flag_texts app normalize_flags].
  - intros (-> & -> & ->)%other_flag_kept. done.
  - intros [Hp Ht]. rewrite <- (path_arg_below w t) by done.
    destruct (absolute_arg_cons w t Hw Ht) as [v ->]. rewrite not_separate.
    by destruct (split_joined p v Hp) as [-> ->].
  - intros [Hp Ht]. unfold flag_takes_path_argument. rewrite bool_decide_true by (unfold include_options in Hp; unfold path_flags; set_solver).
    by rewrite path_arg_below.
  - intros Ht. rewrite <- (path_arg_below w t) by done.
    destruct (absolute_arg_cons w t Hw Ht) as [v ->].
    change (sysroot_option ++ &"=" ++ slash :: v) with (&"--sysroot=" ++ slash :: v). by rewrite not_separate, strip_prefix_app.
Qed.

(** ** The directory of the compilation *)

Lemma workspace_above_found w t fuel : workspace canonicalize w → length t ≤ fuel →
  Forall (λ c, ∃ n, c = Normal n ∧ to_ascii_lowercase n ≠ &".fbuild") t →
  workspace_above canonicalize fuel (w ++ [Normal (&".fbuild")] ++ t) = Some w.
Proof.
  intros Hw. revert fuel. induction t as [|c t IH] using rev_ind; intros fuel Hl Ht.
  - assert (is_fbuild_dir (w ++ [Normal (&".fbuild")] ++ []) = true) as E
      by (unfold is_fbuild_dir, file_name; rewrite app_nil_r, last_snoc; by vm_compute).
    destruct fuel; cbn [workspace_above]; rewrite E, app_nil_r, parent_snoc by done; cbn;
      f_equal; by apply canonical_workspace.
  - apply Forall_app in Ht as [Ht (n & -> & Hn)%Forall_singleton].
    rewrite length_app, Nat.add_1_r in Hl. destruct fuel as [|fuel]; [lia|]. cbn [workspace_above].
    assert (is_fbuild_dir (w ++ [Normal (&".fbuild")] ++ t ++ [Normal n]) = false) as ->.
    { unfold is_fbuild_dir, file_name. rewrite !app_assoc, last_snoc. by apply bool_decide_eq_false. }
    rewrite !app_assoc, parent_snoc by done. cbn [mbind option_bind]. rewrite <- app_assoc. apply IH; [lia|done].
Qed.

(** C31: builds are relocatable.  Let the workspace be an absolute path in
    canonical form below which no path leads through a symbolic link.  For an
    output below its [.fbuild] directory the compilation runs in that
    workspace, and every flag that gives an absolute path below the workspace,
    without detours, to one of the path options, in the next argument, joined,
    or after --sysroot=, is rewritten to a text that does not mention where
    the workspace is; flags that begin with none of these options are
    unchanged. *)
Theorem flags_relocatable w t file fs : workspace canonicalize w →
  Forall (λ c, ∃ n, c = Normal n ∧ to_ascii_lowercase n ≠ &".fbuild") t → Forall flag_ok fs →
  compile_cwd_from_output canonicalize (w ++ [Normal (&".fbuild")] ++ t ++ [Normal file]) = Some w ∧
  normalize_flags_for_compile_cwd canonicalize (fs ≫= flag_texts (absolute_arg w)) (path_text w) =
    fs ≫= flag_texts relative_arg.
Proof.
  intros Hw Ht Hfs. split.
  - unfold compile_cwd_from_output. rewrite !app_assoc, parent_snoc by done. cbn [mbind option_bind].
    rewrite <- !app_assoc. apply workspace_above_found; [done| |done]. rewrite !length_app. lia.
  - unfold normalize_flags_for_compile_cwd. induction Hfs as [|f fs Hf _ IH]; [done|].
    cbn [mbind list_bind]. by rewrite normalize_flag, IH.
Qed.
End Relocation.

Lemma flags_relocatable_witness :
  normalize_flags_for_compile_cwd Some [&"-DX=1"; &"-I/home/ann/blink/inc"; &"-include"; &"/home/ann/blink/a.h"]
    (&"/home/ann/blink") = [&"-DX=1"; &"-Iinc"; &"-include"; &"a.h"].
Proof.
  pose (w := components (&"/home/ann/blink")).
  refine (proj2 (flags_relocatable Some w [Normal (&"build")] (&"a.o")
    [Plain (&"-DX=1"); Joined (&"-I") [Normal (&"inc")]; Separate (&"-include") [Normal (&"a.h")]] _ _ _)).
  - split; [|done|by left]. exists [Normal (&"home"); Normal (&"ann"); Normal (&"blink")].
    split; [by vm_compute|]. repeat constructor; eexists; (split; [done|]);
      apply (bool_decide_unpack _); by vm_compute.
  - constructor; [|done]. eexists. split; [done|]. by vm_compute.
  - repeat constructor; try (eexists; split; [done|]); try done; apply (bool_decide_unpack _); by vm_compute.
Defined.
