(* ===== verification/DaemonContext.v ===== *)
(** * [fbuild-daemon/src/context.rs]

    The state the daemon's handlers share, and its operations: pending serial
    attaches, what keeps the daemon alive, project locks, and the rebinding of
    serial sessions after a device refresh.  The mutexes behind [Arc]s live in
    a store; tokio's mutex is the interface [AsyncMutex]. *)
From S2P Require Import DeviceManager.
From S2P Require Import Prelude RustStr CachePaths PathBuf NormPath SerialReader SerialManager SerialWorld.
From stdpp Require Import sorting.

(** ** Data *)

Inductive DaemonState := Idle | Building | Deploying | Monitoring | Completed | Failed | Cancelled | Unknown.

Inductive InstallPhase := WaitingForLock | Downloading | Verifying | Extracting | Installed | InstallFailed.
Inductive InstallRole := Installer | Waiter.
Record InstallStatus := {
  is_name : str; is_version : option str; is_phase : InstallPhase; is_role : InstallRole;
  is_message : str; is_lock : option str }.

Record PendingSerialAttachInfo := {
  pa_id : Z; pa_started_at : f64; pa_client_id : option str; pa_port : option str }.

(** [tokio::sync::Mutex], by the calls that use it: [mutex_poll o] is the first
    poll of [lock()] by call [o], true when it takes the lock; [mutex_cancel o]
    drops a waiting [lock()]; [mutex_release] drops the guard, and gives the
    call that has the lock next. *)
Class AsyncMutex := {
  Mutex : Type;
  mutex_new : Mutex;
  mutex_try_lock : Mutex → bool;
  mutex_poll : nat → Mutex → bool * Mutex;
  mutex_cancel : nat → Mutex → Mutex;
  mutex_release : Mutex → option nat * Mutex;
  holder : Mutex → option nat;
  waiters : Mutex → list nat;
}.

(** What its documentation promises: exclusion, and a queue in the order of
    the calls, which a cancelled call leaves. *)
Class AsyncMutexOk (AM : AsyncMutex) := {
  holder_new : holder mutex_new = None;
  waiters_new : waiters mutex_new = [];
  try_lock_free k : mutex_try_lock k = bool_decide (holder k = None);
  poll_got o k : (mutex_poll o k).1 = bool_decide (holder k = None);
  poll_holder o k : holder (mutex_poll o k).2 = Some (default o (holder k));
  poll_waiters o k : waiters (mutex_poll o k).2 =
    waiters k ++ (if decide (holder k = None) then [] else [o]);
  cancel_holder o k : holder (mutex_cancel o k) = holder k;
  cancel_waiters o k : waiters (mutex_cancel o k) = filter (λ x, x ≠ o) (waiters k);
  release_next k : (mutex_release k).1 = head (waiters k);
  release_holder k : holder (mutex_release k).2 = head (waiters k);
  release_waiters k : waiters (mutex_release k).2 = tail (waiters k);
}.

Record DaemonContext {AM : AsyncMutex} {D : Type} := MkContext {
  serial_manager : World D;
  is_shutting_down : bool;
  operation_in_progress : bool;
  pending_serial_attaches : Z;
  pending_serial_attach_details : gmap Z PendingSerialAttachInfo;
  pending_serial_attach_next_id : Z;
  daemon_state : DaemonState;
  current_operation : option str;
  dependency_install : option InstallStatus;
  project_locks : gmap str nat;
  device_manager : DeviceManager.DeviceManager;
  shutdown_tx : bool;
  last_activity : Z;
  locks : gmap nat Mutex;
  next_lock : nat;
}.
Arguments DaemonContext {AM} D.
Arguments MkContext {AM D}.

Definition pa_le (a b : PendingSerialAttachInfo) : Prop := (pa_id a ≤ pa_id b)%Z.
#[global] Instance pa_le_dec : RelDecision pa_le := λ a b, decide (_ ≤ _)%Z.

Section Context.
Context {AM : AsyncMutex} {D : Type}.
Implicit Types ctx : DaemonContext D.

(** [DaemonContext::new] at the instant [now]. *)
Definition new_context (now : Z) : DaemonContext D :=
  MkContext start false false 0 ∅ 1 Idle None None ∅ DeviceManager.new_manager false now ∅ 0.

(** ** Field updates *)

Definition set_serial v ctx : DaemonContext D := MkContext v (is_shutting_down ctx) (operation_in_progress ctx)
  (pending_serial_attaches ctx) (pending_serial_attach_details ctx) (pending_serial_attach_next_id ctx)
  (daemon_state ctx) (current_operation ctx) (dependency_install ctx) (project_locks ctx)
  (device_manager ctx) (shutdown_tx ctx) (last_activity ctx) (locks ctx) (next_lock ctx).
Definition set_shutdown down tx ctx : DaemonContext D := MkContext (serial_manager ctx) down (operation_in_progress ctx)
  (pending_serial_attaches ctx) (pending_serial_attach_details ctx) (pending_serial_attach_next_id ctx)
  (daemon_state ctx) (current_operation ctx) (dependency_install ctx) (project_locks ctx)
  (device_manager ctx) tx (last_activity ctx) (locks ctx) (next_lock ctx).
Definition set_operation (b : bool) st op dep ctx : DaemonContext D := MkContext (serial_manager ctx) (is_shutting_down ctx) b
  (pending_serial_attaches ctx) (pending_serial_attach_details ctx) (pending_serial_attach_next_id ctx)
  st op dep (project_locks ctx)
  (device_manager ctx) (shutdown_tx ctx) (last_activity ctx) (locks ctx) (next_lock ctx).
Definition set_attaches n details next ctx : DaemonContext D := MkContext (serial_manager ctx) (is_shutting_down ctx)
  (operation_in_progress ctx) n details next
  (daemon_state ctx) (current_operation ctx) (dependency_install ctx) (project_locks ctx)
  (device_manager ctx) (shutdown_tx ctx) (last_activity ctx) (locks ctx) (next_lock ctx).
Definition set_locks pl ls next ctx : DaemonContext D := MkContext (serial_manager ctx) (is_shutting_down ctx)
  (operation_in_progress ctx)
  (pending_serial_attaches ctx) (pending_serial_attach_details ctx) (pending_serial_attach_next_id ctx)
  (daemon_state ctx) (current_operation ctx) (dependency_install ctx) pl
  (device_manager ctx) (shutdown_tx ctx) (last_activity ctx) ls next.
Definition set_devices v ctx : DaemonContext D := MkContext (serial_manager ctx) (is_shutting_down ctx)
  (operation_in_progress ctx)
  (pending_serial_attaches ctx) (pending_serial_attach_details ctx) (pending_serial_attach_next_id ctx)
  (daemon_state ctx) (current_operation ctx) (dependency_install ctx) (project_locks ctx)
  v (shutdown_tx ctx) (last_activity ctx) (locks ctx) (next_lock ctx).

Definition touch_activity (now : Z) ctx : DaemonContext D := MkContext (serial_manager ctx) (is_shutting_down ctx)
  (operation_in_progress ctx)
  (pending_serial_attaches ctx) (pending_serial_attach_details ctx) (pending_serial_attach_next_id ctx)
  (daemon_state ctx) (current_operation ctx) (dependency_install ctx) (project_locks ctx)
  (device_manager ctx) (shutdown_tx ctx) now (locks ctx) (next_lock ctx).

(** ** Pending serial attaches *)

Definition u64_add (a b : Z) : Z := ((a + b) mod 2 ^ 64)%Z.
Definition u64_sub (a b : Z) : Z := ((a - b) mod 2 ^ 64)%Z.

Definition begin_pending_serial_attach (started_at : f64) ctx : Z * DaemonContext D :=
  let id := pending_serial_attach_next_id ctx in
  (id, set_attaches (u64_add (pending_serial_attaches ctx) 1)
         (<[id := {| pa_id := id; pa_started_at := started_at; pa_client_id := None; pa_port := None |}]>
            (pending_serial_attach_details ctx))
         (u64_add id 1) ctx).

Definition update_pending_serial_attach (id : Z) (client p : str) ctx : DaemonContext D :=
  set_attaches (pending_serial_attaches ctx)
    (alter (λ e, {| pa_id := pa_id e; pa_started_at := pa_started_at e; pa_client_id := Some client;
       pa_port := Some p |}) id (pending_serial_attach_details ctx))
    (pending_serial_attach_next_id ctx) ctx.

Definition end_pending_serial_attach (id : Z) ctx : DaemonContext D :=
  match pending_serial_attach_details ctx !! id with
  | Some _ => set_attaches (u64_sub (pending_serial_attaches ctx) 1)
      (delete id (pending_serial_attach_details ctx)) (pending_serial_attach_next_id ctx) ctx
  | None => ctx
  end.

Definition pending_serial_attach_infos `{HashIter} ctx : list PendingSerialAttachInfo :=
  merge_sort pa_le (hm_iter (pending_serial_attach_details ctx)).*2.

(** ** What keeps the daemon alive *)

Definition plural (n : Z) (one many : str) : str := if (n =? 1)%Z then one else many.

Definition busy_reason `{HashIter} ctx : option str :=
  let sessions := Z.of_nat (length (get_port_sessions (mgr (serial_manager ctx)))) in
  let attaches := pending_serial_attaches ctx in
  let reasons :=
    (if operation_in_progress ctx then [&"build/deploy operation in progress"] else []) ++
    (if (0 <? sessions)%Z then [decimal sessions ++ &" open serial session" ++ plural sessions [] (&"s")] else []) ++
    (if (0 <? attaches)%Z then [decimal attaches ++ &" pending serial attach" ++ plural attaches [] (&"es")] else [])
  in
  match reasons with [] => None | _ => Some (RustStr.join (&", ") reasons) end.

Definition is_empty `{HashIter} ctx : bool := bool_decide (busy_reason ctx = None).

(** [t.elapsed()] at [now]. *)
Definition elapsed (now t : Z) : Z := saturating_sub now t.
Definition idle_duration (now : Z) ctx : Z := elapsed now (last_activity ctx).

(** Seconds as nanoseconds. *)
Definition secs (n : Z) : Z := (n * 1000000000)%Z.

(** [env] is the value of [FBUILD_SELF_EVICTION_SECS]. *)
Definition self_eviction_timeout (env : option str) : Z :=
  default (secs 30) (secs <$> (env ≫= parse_uint u64_max)).
Definition IDLE_TIMEOUT : Z := secs 43200.
Definition STALE_LOCK_CHECK_INTERVAL : Z := secs 60.

(** ** Operations in progress: [OperationGuard] of handlers/operations/common.rs *)

Definition clear_dependency_install ctx : DaemonContext D :=
  set_operation (operation_in_progress ctx) (daemon_state ctx) (current_operation ctx) None ctx.
Definition set_dependency_install (s : InstallStatus) ctx : DaemonContext D :=
  set_operation (operation_in_progress ctx) (daemon_state ctx) (current_operation ctx) (Some s) ctx.

Definition guard_new (st : DaemonState) (description : option str) (now : Z) ctx : DaemonContext D :=
  let ctx := touch_activity now ctx in
  set_operation true st description (dependency_install ctx) ctx.
Definition guard_drop ctx : DaemonContext D :=
  clear_dependency_install (set_operation false Idle None (dependency_install ctx) ctx).

(** ** Project locks *)

Definition project_key (dir : str) : str := np_key (new_normalized dir).

(** The lock for [dir], created if there is none. *)
Definition project_lock (dir : str) ctx : nat * DaemonContext D :=
  match project_locks ctx !! project_key dir with
  | Some l => (l, ctx)
  | None =>
      let l := next_lock ctx in
      (l, set_locks (<[project_key dir := l]> (project_locks ctx))
            (<[l := mutex_new]> (locks ctx)) (S l) ctx)
  end.

(** [try_lock().is_ok()]: the guard is dropped at once. *)
Definition try_lock (l : nat) ctx : bool :=
  match locks ctx !! l with Some k => mutex_try_lock k | None => true end.

(** One key of the cleanup loop of main.rs and of [clear_locks]. *)
Definition clear_project_lock (key : str) ctx : bool * DaemonContext D :=
  match project_locks ctx !! key with
  | Some l => if try_lock l ctx then
                (true, set_locks (delete key (project_locks ctx)) (locks ctx) (next_lock ctx) ctx)
              else (false, ctx)
  | None => (false, ctx)
  end.

Definition clear_project_locks `{HashIter} ctx : nat * DaemonContext D :=
  foldl (λ acc key, let '(b, ctx) := clear_project_lock key acc.2 in
           (if b : bool then S acc.1 else acc.1, ctx))
    (0, ctx) (hm_iter (project_locks ctx)).*1.

(** Call [o] polls [lock()] for the first time: it takes the lock, or
    queues. *)
Definition poll_lock (o l : nat) ctx : bool * DaemonContext D :=
  match locks ctx !! l with
  | None => (false, ctx)
  | Some k =>
      let '(got, k) := mutex_poll o k in
      (got, set_locks (project_locks ctx) (<[l := k]> (locks ctx)) (next_lock ctx) ctx)
  end.

(** A waiting call gives up: its place in the queue is dropped. *)
Definition cancel_lock (o l : nat) ctx : DaemonContext D :=
  set_locks (project_locks ctx) (alter (mutex_cancel o) l (locks ctx)) (next_lock ctx) ctx.

(** The guard is dropped: the lock passes to the first waiting call. *)
Definition release_lock (l : nat) ctx : option nat * DaemonContext D :=
  match locks ctx !! l with
  | None => (None, ctx)
  | Some k =>
      let '(next, k) := mutex_release k in
      (next, set_locks (project_locks ctx) (<[l := k]> (locks ctx)) (next_lock ctx) ctx)
  end.

(** ** Rebinding sessions after a refresh *)

Section Rebind.
Context (is_windows : bool) (outcomes : str → nat → open_result).

(** [rebind_port_session] when nothing else runs while it waits for the
    open and for the old reader. *)
Definition rebind_port_session (old_port new_port reason : str) (serial : option str)
    (m : SharedSerialManager D) : result str bool * SharedSerialManager D :=
  match rebind_check old_port m with
  | None => (Ok false, m)
  | Some (key, baud) =>
      match (open_physical_serial is_windows new_port (outcomes new_port)).1 with
      | Err e => (Err e, m)
      | Ok h =>
          match rebind_begin key m with
          | (None, m) => (Ok false, m)
          | (Some (tx, buf), m) =>
              (Ok true, rebind_end key new_port reason serial
                 {| h_id := h; h_port := new_port; h_baud := baud |} tx buf m)
          end
      end
  end.

Definition rebind_move (m : SharedSerialManager D) (mv : DeviceManager.DevicePortMove) : SharedSerialManager D :=
  let old_port := DeviceManager.pm_previous_port mv in
  let new_port := DeviceManager.pm_port mv in
  let serial := DeviceManager.pm_serial_number mv in
  match rebind_port_session old_port new_port (&"tracked_serial_move") serial m with
  | (Ok true, m) => m
  | (Ok false, m) => (notify_port_renumbered old_port new_port (&"tracked_serial_move") serial m).2
  | (Err e, m) => (notify_port_rebind_failed old_port new_port (&"open_failed") e m).2
  end.

Definition rebind_recent_device_port_moves ctx : DaemonContext D :=
  let '(moves, dm) := DeviceManager.take_recent_port_moves (device_manager ctx) in
  let w := serial_manager ctx in
  set_serial (MkWorld (foldl rebind_move (mgr w) moves) (tasks w) (next_task w)) (set_devices dm ctx).

(** The refresh that [refresh_devices_and_broadcast_serial_moves] runs in a
    blocking task, and the rebinding that follows.  A refresh that takes
    longer than five seconds ends later, on its own. *)
Definition refresh_and_rebind (refresh : DeviceManager.DeviceManager → DeviceManager.DeviceManager) ctx :
    DaemonContext D :=
  rebind_recent_device_port_moves (set_devices (refresh (device_manager ctx)) ctx).

(** [None]: the refresh took too long or panicked; its result counts as
    "not refreshed". *)
Definition refresh_if_stale_and_rebind
    (refresh : DeviceManager.DeviceManager → option bool * DeviceManager.DeviceManager) ctx :
    bool * DaemonContext D :=
  let '(r, dm) := refresh (device_manager ctx) in
  let ctx := set_devices dm ctx in
  let refreshed := default false r in
  (refreshed, if refreshed : bool then rebind_recent_device_port_moves ctx else ctx).
End Rebind.
End Context.

(** ** A mutex as promised *)

Definition fifo_mutex : AsyncMutex := {|
  Mutex := option nat * list nat;
  mutex_new := (None, []);
  mutex_try_lock k := bool_decide (k.1 = None);
  mutex_poll o k := match k.1 with None => (true, (Some o, k.2)) | Some h => (false, (Some h, k.2 ++ [o])) end;
  mutex_cancel o k := (k.1, filter (λ x, x ≠ o) k.2);
  mutex_release k := (head k.2, (head k.2, tail k.2));
  holder := fst; waiters := snd |}.

Lemma fifo_mutex_ok : AsyncMutexOk fifo_mutex.
Proof. split; try done; intros o [[h|] w]; cbn; by rewrite ?app_nil_r. Qed.
