(* ===== verification/DaemonRun.v ===== *)
(** * The life of the daemon

    The maintenance loop of fbuild-daemon/src/main.rs, the shutdown request,
    and the operations of build, deploy and install requests, which hold an
    operation guard and take the lock of their project.  Any sequence of
    [DEvent]s is a possible history; a step is taken to be atomic, and the
    clock readings of one turn of the loop to be one instant. *)
From S2P Require Import DeviceManager.
From S2P Require Import Prelude RustStr CachePaths PathBuf NormPath SerialReader SerialManager SerialWorld DaemonContext.

(** How far an operation is: its guard exists; it has looked its project's
    lock up; it waits for the lock; it runs, holding the lock. *)
Inductive Phase := Started | Looked (l : nat) | Waiting (l : nat) | Running (l : nat).
Record Operation := { op_dir : str; op_phase : Phase }.

Record Daemon {AM : AsyncMutex} (D : Type) := MkDaemon {
  ctx : DaemonContext D;
  ops : gmap nat Operation;
  next_op : nat;
  daemon_empty_since : option Z;
  last_lock_cleanup : Z;
  loop_ended : bool;
}.
Arguments MkDaemon {AM D}.
Arguments ctx {AM D}.
Arguments ops {AM D}.
Arguments next_op {AM D}.
Arguments daemon_empty_since {AM D}.
Arguments last_lock_cleanup {AM D}.
Arguments loop_ended {AM D}.

Inductive DEvent (D : Type) :=
  | DTick (now : Z)
  | DStart (dir : str) (st : DaemonState) (description : option str) (now : Z)
  | DLookup (o : nat)
  | DPoll (o : nat)
  | DDeadline (o : nat)
  | DFinish (o : nat)
  | DAttach (started_at : f64)
  | DTarget (id : Z) (client p : str)
  | DAttached (id : Z)
  | DShutdown (force : bool)
  | DClearProjects
  | DTouch (now : Z)
  | DInstall (s : InstallStatus)
  | DDevices (dm : DeviceManager.DeviceManager)
  | DSerial (e : Event D).
Arguments DTick {D}. Arguments DStart {D}. Arguments DLookup {D}. Arguments DPoll {D}.
Arguments DDeadline {D}. Arguments DFinish {D}. Arguments DAttach {D}. Arguments DTarget {D}.
Arguments DAttached {D}. Arguments DShutdown {D}. Arguments DClearProjects {D}. Arguments DTouch {D}.
Arguments DInstall {D}. Arguments DDevices {D}. Arguments DSerial {D}.

(** Whether the loop goes on, or why it ended. *)
Inductive tick_result := Continue | SelfEvicted | IdleTimedOut.

Section Run.
Context {AM : AsyncMutex} {D : Type} (is_windows : bool) (process_line : str → D → option (list str) * D).
Context (timeout_env : option str) {HI : HashIter}.
Implicit Types d : Daemon D.

Definition new_daemon (now : Z) : Daemon D :=
  MkDaemon (new_context now) ∅ 0 None now false.

Definition with_ctx (c : DaemonContext D) d : Daemon D :=
  MkDaemon c (ops d) (next_op d) (daemon_empty_since d) (last_lock_cleanup d) (loop_ended d).
Definition with_ops (c : DaemonContext D) (os : gmap nat Operation) d : Daemon D :=
  MkDaemon c os (next_op d) (daemon_empty_since d) (last_lock_cleanup d) (loop_ended d).

(** ** The maintenance loop *)

Definition self_eviction_due (now : Z) d : bool :=
  match busy_reason (ctx d), daemon_empty_since d with
  | None, Some since => bool_decide (self_eviction_timeout timeout_env ≤ elapsed now since)%Z
  | _, _ => false
  end.

Definition empty_since_after (now : Z) d : option Z :=
  match busy_reason (ctx d) with
  | None => Some (default now (daemon_empty_since d))
  | Some _ => None
  end.

Definition end_loop (c : DaemonContext D) (since : option Z) d : Daemon D :=
  MkDaemon (set_shutdown (is_shutting_down c) true c) (ops d) (next_op d) since (last_lock_cleanup d) true.

(** One turn of the loop, after its sleep. *)
Definition tick (now : Z) d : tick_result * Daemon D :=
  if loop_ended d then (Continue, d)
  else
    let since := empty_since_after now d in
    if self_eviction_due now d then (SelfEvicted, end_loop (ctx d) since d)
    else if bool_decide (IDLE_TIMEOUT ≤ idle_duration now (ctx d))%Z then (IdleTimedOut, end_loop (ctx d) since d)
    else if bool_decide (STALE_LOCK_CHECK_INTERVAL ≤ elapsed now (last_lock_cleanup d))%Z then
      (Continue, MkDaemon (clear_project_locks (ctx d)).2 (ops d) (next_op d) since now false)
    else (Continue, MkDaemon (ctx d) (ops d) (next_op d) since (last_lock_cleanup d) false).

(** handlers/health.rs: [true] when the shutdown is accepted. *)
Definition shutdown (force : bool) (c : DaemonContext D) : bool * DaemonContext D :=
  if negb force && operation_in_progress c then (false, c) else (true, set_shutdown true true c).

(** ** Operations: build.rs, deploy.rs, install_deps.rs of handlers/operations/ *)

Definition start_operation (dir : str) (st : DaemonState) (description : option str) (now : Z) d : Daemon D :=
  MkDaemon (guard_new st description now (ctx d))
    (<[next_op d := {| op_dir := dir; op_phase := Started |}]> (ops d)) (S (next_op d))
    (daemon_empty_since d) (last_lock_cleanup d) (loop_ended d).

Definition set_phase (o : nat) (ph : Phase) (os : gmap nat Operation) : gmap nat Operation :=
  alter (λ x, {| op_dir := op_dir x; op_phase := ph |}) o os.

(** [let lock = ctx.project_lock(&project_dir);] *)
Definition lookup_lock (o : nat) d : Daemon D :=
  match ops d !! o with
  | Some {| op_dir := dir; op_phase := Started |} =>
      let '(l, c) := project_lock dir (ctx d) in with_ops c (set_phase o (Looked l) (ops d)) d
  | _ => d
  end.

(** The first poll of [lock.lock()]. *)
Definition poll (o : nat) d : Daemon D :=
  match op_phase <$> ops d !! o with
  | Some (Looked l) =>
      let '(got, c) := poll_lock o l (ctx d) in
      with_ops c (set_phase o (if got : bool then Running l else Waiting l) (ops d)) d
  | _ => d
  end.

(** The deadline of a waiting operation: its guard is dropped. *)
Definition deadline (o : nat) d : Daemon D :=
  match op_phase <$> ops d !! o with
  | Some (Waiting l) => with_ops (guard_drop (cancel_lock o l (ctx d))) (delete o (ops d)) d
  | _ => d
  end.

(** The end of a running operation: the lock's guard, then the operation's. *)
Definition finish_operation (o : nat) d : Daemon D :=
  match op_phase <$> ops d !! o with
  | Some (Running l) =>
      let '(next, c) := release_lock l (ctx d) in
      let os := delete o (ops d) in
      with_ops (guard_drop c) (match next with Some o' => set_phase o' (Running l) os | None => os end) d
  | _ => d
  end.

(** ** Histories *)

Definition exec (e : DEvent D) d : Daemon D :=
  match e with
  | DTick now => (tick now d).2
  | DStart dir st description now => start_operation dir st description now d
  | DLookup o => lookup_lock o d
  | DPoll o => poll o d
  | DDeadline o => deadline o d
  | DFinish o => finish_operation o d
  | DAttach started_at => with_ctx (begin_pending_serial_attach started_at (ctx d)).2 d
  | DTarget id client p => with_ctx (update_pending_serial_attach id client p (ctx d)) d
  | DAttached id => with_ctx (end_pending_serial_attach id (ctx d)) d
  | DShutdown force => with_ctx (shutdown force (ctx d)).2 d
  | DClearProjects => with_ctx (clear_project_locks (ctx d)).2 d
  | DTouch now => with_ctx (touch_activity now (ctx d)) d
  | DInstall s => with_ctx (set_dependency_install s (ctx d)) d
  | DDevices dm => with_ctx (set_devices dm (ctx d)) d
  | DSerial e => with_ctx (set_serial (SerialWorld.exec is_windows process_line e (serial_manager (ctx d))) (ctx d)) d
  end.

Definition run (es : list (DEvent D)) d : Daemon D := foldl (λ d e, exec e d) d es.

Lemma daemon_run_snoc es e d : run (es ++ [e]) d = exec e (run es d).
Proof. unfold run. by rewrite foldl_snoc. Qed.

(** ** Pending attaches are counted *)

(** Nothing keeps the daemon alive. *)
Definition idle (c : DaemonContext D) : Prop :=
  operation_in_progress c = false ∧ sessions (mgr (serial_manager c)) = ∅ ∧ pending_serial_attach_details c = ∅.

(** After at most [n] attaches: the counter is the number of entries, whose
    ids were all handed out. *)
Record attach_inv (n : Z) (c : DaemonContext D) : Prop := {
  ai_count : pending_serial_attaches c = Z.of_nat (size (pending_serial_attach_details c));
  ai_size : (Z.of_nat (size (pending_serial_attach_details c)) ≤ n)%Z;
  ai_next : (1 ≤ pending_serial_attach_next_id c ≤ n + 1)%Z;
  ai_ids id : is_Some (pending_serial_attach_details c !! id) → (id < pending_serial_attach_next_id c)%Z;
}.

Definition attach_fields (c : DaemonContext D) :=
  (pending_serial_attaches c, pending_serial_attach_details c, pending_serial_attach_next_id c).

Lemma attach_inv_same n c c' : attach_fields c' = attach_fields c → attach_inv n c → attach_inv (n + 1) c'.
Proof.
  intros [= E1 E2 E3] [H1 H2 H3 H4]. split; rewrite ?E1, ?E2, ?E3; [done|lia|lia|apply H4].
Qed.

Lemma attach_inv_begin n c started_at : attach_inv n c → (n + 2 < 2 ^ 64)%Z →
  attach_inv (n + 1) (begin_pending_serial_attach started_at c).2.
Proof.
  intros [H1 H2 H3 H4] Hn. unfold begin_pending_serial_attach, u64_add. cbn [snd].
  set (id := pending_serial_attach_next_id c) in *.
  assert (pending_serial_attach_details c !! id = None) as Hf.
  { apply eq_None_not_Some. intros Hs%H4. lia. }
  split; cbn [pending_serial_attaches pending_serial_attach_details pending_serial_attach_next_id set_attaches].
  - rewrite map_size_insert_None, H1, Z.mod_small by first [done|lia]. lia.
  - rewrite map_size_insert_None by done. lia.
  - rewrite Z.mod_small; lia.
  - intros i. rewrite (Z.mod_small (id + 1)) by lia. intros [v [[<- _]|[_ Hi]]%lookup_insert_Some]; [lia|].
    specialize (H4 i (mk_is_Some _ _ Hi)). lia.
Qed.

Lemma attach_inv_end n c id : attach_inv n c → (n + 2 < 2 ^ 64)%Z →
  attach_inv (n + 1) (end_pending_serial_attach id c).
Proof.
  intros Hc Hn. unfold end_pending_serial_attach.
  destruct (pending_serial_attach_details c !! id) as [v|] eqn:E; [|by apply attach_inv_same with c].
  destruct Hc as [H1 H2 H3 H4]. assert (size (pending_serial_attach_details c) ≠ 0) as Hz.
  { intros Hz%map_size_empty_inv. by rewrite Hz, lookup_empty in E. }
  split; cbn [pending_serial_attaches pending_serial_attach_details pending_serial_attach_next_id set_attaches].
  - unfold u64_sub. rewrite map_size_delete_Some, H1, Z.mod_small by (by eexists) || lia. lia.
  - rewrite map_size_delete_Some by (by eexists). lia.
  - lia.
  - intros i [w [_ Hi]%lookup_delete_Some]. apply H4. by eexists.
Qed.

Lemma size_alter {A} (f : A → A) i (m : gmap Z A) : size (alter f i m) = size m.
Proof. by rewrite <- !(size_dom (D := gset Z)), dom_alter_L. Qed.

Lemma attach_inv_update n c id client p : attach_inv n c → attach_inv (n + 1) (update_pending_serial_attach id client p c).
Proof.
  intros [H1 H2 H3 H4]. unfold update_pending_serial_attach.
  split; cbn [pending_serial_attaches pending_serial_attach_details pending_serial_attach_next_id set_attaches].
  - by rewrite size_alter.
  - rewrite size_alter. lia.
  - lia.
  - intros i. rewrite lookup_alter_is_Some. apply H4.
Qed.

(** Lock operations change nothing else. *)
Definition locks_only (c c' : DaemonContext D) : Prop := ∃ pl ls n, c' = set_locks pl ls n c.

Lemma locks_only_refl c : locks_only c c.
Proof. exists (project_locks c), (locks c), (next_lock c). by destruct c. Qed.

Lemma locks_only_trans c1 c2 c3 : locks_only c1 c2 → locks_only c2 c3 → locks_only c1 c3.
Proof. intros (? & ? & ? & ->) (pl & ls & n & ->). by exists pl, ls, n. Qed.

Lemma clear_project_locks_only c : locks_only c (clear_project_locks c).2.
Proof.
  unfold clear_project_locks. change c with (0, c).2 at 1. generalize (0, c).
  induction (hm_iter (project_locks c)).*1 as [|key l IH]; intros acc; cbn [foldl]; [apply locks_only_refl|].
  eapply locks_only_trans; [|apply IH]. unfold clear_project_lock.
  destruct (project_locks acc.2 !! key); [|apply locks_only_refl].
  destruct (try_lock _ _); [by do 3 eexists|apply locks_only_refl].
Qed.

Lemma locks_only_attach c c' : locks_only c c' → attach_fields c' = attach_fields c.
Proof. by intros (? & ? & ? & ->). Qed.

Lemma attach_step n e d : attach_inv n (ctx d) → (n + 2 < 2 ^ 64)%Z → attach_inv (n + 1) (ctx (exec e d)).
Proof.
  intros H Hn. destruct e; cbn [exec]; try (by apply attach_inv_same with (ctx d)).
  - unfold tick. destruct (loop_ended d); [by apply attach_inv_same with (ctx d)|].
    destruct (self_eviction_due now d); [by apply attach_inv_same with (ctx d)|].
    repeat case_bool_decide; try (by apply attach_inv_same with (ctx d)). cbn [ctx snd].
    apply attach_inv_same with (ctx d); [|done]. apply locks_only_attach, clear_project_locks_only.
  - unfold lookup_lock. destruct (ops d !! o) as [[dir []]|]; try (by apply attach_inv_same with (ctx d)).
    unfold project_lock. destruct (project_locks (ctx d) !! _); by apply attach_inv_same with (ctx d).
  - unfold poll. destruct (op_phase <$> ops d !! o) as [[]|]; try (by apply attach_inv_same with (ctx d)).
    unfold poll_lock. repeat case_match; simplify_eq; by apply attach_inv_same with (ctx d).
  - unfold deadline. destruct (op_phase <$> ops d !! o) as [[]|]; by apply attach_inv_same with (ctx d).
  - unfold finish_operation. destruct (op_phase <$> ops d !! o) as [[]|]; try (by apply attach_inv_same with (ctx d)).
    unfold release_lock. repeat case_match; simplify_eq; by apply attach_inv_same with (ctx d).
  - by apply attach_inv_begin.
  - by apply attach_inv_update.
  - by apply attach_inv_end.
  - unfold shutdown. destruct (_ && _); by apply attach_inv_same with (ctx d).
  - apply attach_inv_same with (ctx d); [|done]. apply locks_only_attach, clear_project_locks_only.
Qed.

Lemma attach_run es now : (Z.of_nat (length es) + 2 < 2 ^ 64)%Z →
  attach_inv (Z.of_nat (length es)) (ctx (run es (new_daemon now))).
Proof.
  induction es as [|e es IH] using rev_ind; intros Hl.
  - split; cbn; try done; try lia. intros id [? ?]. by rewrite lookup_empty in *.
  - rewrite length_app, Nat.add_1_r, Nat2Z.inj_succ in Hl |- *. rewrite daemon_run_snoc.
    rewrite <- Z.add_1_r. apply attach_step; [apply IH; lia|lia].
Qed.
(** ** The daemon evicts itself only after it was idle for long enough *)

Context {HIok : HashIterOk HI}.

Lemma busy_reason_None (c : DaemonContext D) : busy_reason c = None → operation_in_progress c = false ∧
  sessions (mgr (serial_manager c)) = ∅ ∧ (pending_serial_attaches c ≤ 0)%Z.
Proof.
  unfold busy_reason. set (n := length (get_port_sessions _)).
  destruct (operation_in_progress c); [done|].
  destruct (0 <? Z.of_nat n)%Z eqn:E1; [done|]. destruct (0 <? pending_serial_attaches c)%Z eqn:E2; [done|].
  intros _. apply Z.ltb_ge in E1, E2. split; [done|]. split; [|done].
  assert (n = 0) as E by lia. unfold n, get_port_sessions in E. rewrite length_fmap in E.
  apply length_zero_iff_nil in E. pose proof (hm_iter_perm (sessions (mgr (serial_manager c)))) as Hp.
  rewrite E in Hp. apply Permutation_nil_l in Hp. by apply map_to_list_empty_iff.
Qed.

Lemma busy_idle n (c : DaemonContext D) : attach_inv n c → busy_reason c = None → idle c.
Proof.
  intros [Hc _ _ _] (H1 & H2 & H3)%busy_reason_None. split; [done|]. split; [done|].
  apply map_size_empty_inv. lia.
Qed.

(** Every turn of the loop among [es] found the daemon idle. *)
Definition idle_throughout (pre es : list (DEvent D)) d0 : Prop :=
  ∀ a u b, es = a ++ DTick u :: b → busy_reason (ctx (run (pre ++ a) d0)) = None.

Lemma idle_throughout_snoc pre es e d0 : idle_throughout pre es d0 →
  (∀ u, e = DTick u → busy_reason (ctx (run (pre ++ es) d0)) = None) → idle_throughout pre (es ++ [e]) d0.
Proof.
  intros H He a u b. destruct b as [|e' b _] using rev_ind.
  - intros [-> ->]%app_inj_tail. by eapply He.
  - rewrite app_comm_cons, app_assoc. intros [-> _]%app_inj_tail. by eapply H.
Qed.

Lemma exec_other e d : (∀ u, e ≠ DTick u) →
  loop_ended (exec e d) = loop_ended d ∧ daemon_empty_since (exec e d) = daemon_empty_since d.
Proof.
  intros He. destruct e; cbn [exec]; try done; [by destruct (He now)|..].
  - unfold lookup_lock. by repeat case_match.
  - unfold poll. by repeat case_match.
  - unfold deadline. by repeat case_match.
  - unfold finish_operation. by repeat case_match.
Qed.

Lemma tick_continues u d : loop_ended (exec (DTick u) d) = false →
  loop_ended d = false ∧ daemon_empty_since (exec (DTick u) d) = empty_since_after u d.
Proof.
  cbn [exec]. unfold tick. destruct (loop_ended d) eqn:E; cbn [snd]; [by rewrite E|].
  destruct (self_eviction_due u d); [done|]. repeat case_bool_decide; done.
Qed.

Lemma empty_since_spec es d0 t : daemon_empty_since d0 = None →
  loop_ended (run es d0) = false → daemon_empty_since (run es d0) = Some t →
  ∃ pre post, es = pre ++ DTick t :: post ∧ idle_throughout pre (DTick t :: post) d0.
Proof.
  intros H0. revert t. induction es as [|e es IH] using rev_ind; intros t; [cbn; congruence|].
  rewrite daemon_run_snoc.
  assert ((∀ u, e ≠ DTick u) ∨ ∃ u, e = DTick u) as [He|[u ->]] by (destruct e; eauto).
  - destruct (exec_other e (run es d0) He) as [-> ->]. intros Hl Ht.
    destruct (IH t Hl Ht) as (pre & post & -> & Hq). exists pre, (post ++ [e]).
    split; [by rewrite <- app_assoc|]. apply (idle_throughout_snoc _ (DTick t :: post)); [done|].
    by intros u ->; destruct (He u).
  - intros [Hl ->]%tick_continues. unfold empty_since_after.
    destruct (busy_reason (ctx (run es d0))) eqn:Eb; [done|]. intros [= Et].
    destruct (daemon_empty_since (run es d0)) as [t'|] eqn:Es; cbn in Et; subst.
    + destruct (IH t Hl eq_refl) as (pre & post & -> & Hq). exists pre, (post ++ [DTick u]).
      split; [by rewrite <- app_assoc|]. by apply (idle_throughout_snoc _ (DTick t :: post)).
    + exists es, []. split; [done|]. apply (idle_throughout_snoc es []); [|by rewrite app_nil_r].
      intros a v b. by destruct a.
Qed.

(** C29: the daemon evicts itself only when it is idle and has been for the
    whole timeout: no operation is marked as running, no serial session is
    open and no serial attach is pending, neither now nor at any turn of the
    maintenance loop since one at least the timeout ago. *)
Theorem eviction_sound es start now : (Z.of_nat (length es) + 2 < 2 ^ 64)%Z →
  (tick now (run es (new_daemon start))).1 = SelfEvicted →
  idle (ctx (run es (new_daemon start))) ∧
  ∃ pre t post, es = pre ++ DTick t :: post ∧ (self_eviction_timeout timeout_env ≤ elapsed now t)%Z ∧
    ∀ a u b, DTick t :: post = a ++ DTick u :: b → idle (ctx (run (pre ++ a) (new_daemon start))).
Proof.
  intros Hn. set (d := run es (new_daemon start)). unfold tick, self_eviction_due.
  destruct (loop_ended d) eqn:El; [done|].
  destruct (busy_reason (ctx d)) eqn:Eb; [by repeat case_bool_decide|].
  destruct (daemon_empty_since d) as [t|] eqn:Es; [|by repeat case_bool_decide].
  case_bool_decide as Ht; [|by repeat case_bool_decide]. intros _.
  split; [eapply busy_idle; [by apply attach_run|done]|].
  destruct (empty_since_spec es (new_daemon start) t) as (pre & post & -> & Hq); [done..|].
  exists pre, t, post. split; [done|]. split; [done|]. intros a u b Ha.
  eapply busy_idle; [apply attach_run|by eapply Hq]. apply (f_equal length) in Ha.
  rewrite length_app in Ha, Hn |- *. cbn in Ha, Hn. lia.
Qed.
End Run.
