(* ===== verification/ProjectLocks.v ===== *)
(** * One build per project

    The lock of a project serializes its operations, and a waiting operation
    waits for a running one.  Both need that no cleanup of the locks runs
    while an operation has looked a lock up and not yet polled it; the last
    section shows what happens otherwise. *)
From S2P Require Import Prelude RustStr CachePaths PathBuf NormPath SerialReader SerialManager SerialWorld DaemonContext DaemonRun.

(** ** Spellings of a directory *)

(** A dot, or a name and the way back up, can be left out of a path; the
    separators are not among its components. *)
Inductive shorter : PathBuf → PathBuf → Prop :=
  | shorter_dot a b : shorter (a ++ CurDir :: b) (a ++ b)
  | shorter_up a n b : shorter (a ++ Normal n :: ParentDir :: b) (a ++ b).
Definition respelled (p q : str) : Prop := rtsc shorter (components p) (components q).

Lemma shorter_normalize p q : shorter p q → normalize p = normalize q.
Proof.
  unfold normalize. intros [a b|a n b]; rewrite !foldl_app; cbn [foldl]; f_equal.
  unfold push_component at 1. cbn [push_component]. rewrite last_snoc, length_app, Nat.add_1_r. cbn [pred]. by rewrite take_app_length.
Qed.
Lemma rtsc_normalize p q : rtsc shorter p q → normalize p = normalize q.
Proof. induction 1 as [|x y z [H|H] _ <-]; [done|..]; apply shorter_normalize in H; congruence. Qed.

Lemma shorter_app p q c : shorter p q → shorter (p ++ [c]) (q ++ [c]).
Proof. intros [a b|a n b]; rewrite <- !app_assoc; constructor. Qed.
Lemma normalize_shorter p : rtc shorter p (normalize p).
Proof.
  induction p as [|c p IH] using rev_ind; [done|]. rewrite normalize_snoc. etrans.
  { eapply (rtc_congruence (R := shorter) (λ p, p ++ [c])); [intros x y; apply shorter_app|exact IH]. }
  unfold push_component. destruct c; [done| | |done].
  - apply rtc_once. pose proof (shorter_dot (normalize p) []) as H. by rewrite app_nil_r in H.
  - destruct (last (normalize p)) as [[| | |n]|] eqn:El; try done. apply last_Some in El as [q ->].
    rewrite length_app, Nat.add_1_r. cbn [pred]. rewrite take_app_length, <- app_assoc. apply rtc_once.
    pose proof (shorter_up q n []) as H. by rewrite app_nil_r in H.
Qed.

(** The key of a project tells directories up to their spelling. *)
Lemma project_key_respelled p q : project_key p = project_key q ↔ respelled p q.
Proof.
  destruct (key_canonical p q) as (_ & Ep & Hk). destruct (key_canonical q p) as (_ & Eq & _).
  unfold respelled, project_key. rewrite Ep, Eq, Hk. split; [|apply rtsc_normalize]. intros E.
  assert (∀ x, rtsc shorter x (normalize x)) as Hn by (intros x; eapply rtc_subrel; [|apply normalize_shorter]; by left).
  etrans; [apply Hn|]. rewrite E. symmetry. apply Hn.
Qed.

Definition lock_of (ph : Phase) : option nat :=
  match ph with Started => None | Looked l | Waiting l | Running l => Some l end.

Section Locks.
Context {AM : AsyncMutex} {AMok : AsyncMutexOk AM} {D : Type} (is_windows : bool) (process_line : str → D → option (list str) * D).
Context (timeout_env : option str) {HI : HashIter}.
Implicit Types d : Daemon D.
Implicit Types o l : nat.

Definition phase_of d o : option Phase := op_phase <$> ops d !! o.

(** The locks and the phases of the operations agree. *)
Record lock_inv d : Prop := {
  li_key o op l : ops d !! o = Some op → lock_of (op_phase op) = Some l →
    project_locks (ctx d) !! project_key (op_dir op) = Some l;
  li_inj k1 k2 l : project_locks (ctx d) !! k1 = Some l → project_locks (ctx d) !! k2 = Some l → k1 = k2;
  li_known key l : project_locks (ctx d) !! key = Some l → is_Some (locks (ctx d) !! l);
  li_next l : is_Some (locks (ctx d) !! l) → l < next_lock (ctx d);
  li_holder l k o : locks (ctx d) !! l = Some k → (holder k = Some o ↔ phase_of d o = Some (Running l));
  li_waiters l k o : locks (ctx d) !! l = Some k → (o ∈ waiters k ↔ phase_of d o = Some (Waiting l));
  li_free l k : locks (ctx d) !! l = Some k → holder k = None → waiters k = [];
  li_nodup l k : locks (ctx d) !! l = Some k → NoDup (waiters k);
  li_ops o : is_Some (ops d !! o) → o < next_op d;
}.

Definition lock_fields d :=
  (ops d, next_op d, project_locks (ctx d), locks (ctx d), next_lock (ctx d)).

Lemma lock_inv_same d d' : lock_fields d' = lock_fields d → lock_inv d → lock_inv d'.
Proof.
  intros [= E1 E2 E3 E4 E5] [H1 H2 H3 H4 H5 H6 H7 H8 H9].
  split; unfold phase_of in *; rewrite ?E1, ?E2, ?E3, ?E4, ?E5; done.
Qed.

Lemma phase_set os o o' ph : op_phase <$> set_phase o ph os !! o' =
  if decide (o = o') then (λ _, ph) <$> os !! o' else op_phase <$> os !! o'.
Proof.
  unfold set_phase. case_decide as E; [subst|by rewrite lookup_alter_ne].
  rewrite lookup_alter_eq. by destruct (os !! o').
Qed.

Lemma lookup_set_phase os o o' ph op' : set_phase o ph os !! o' = Some op' →
  ∃ op, os !! o' = Some op ∧ op_dir op' = op_dir op ∧ op_phase op' = if decide (o = o') then ph else op_phase op.
Proof.
  unfold set_phase. case_decide as E; [subst|rewrite lookup_alter_ne by done; eauto].
  rewrite lookup_alter_eq. intros (op & Ho & ->)%fmap_Some. by exists op.
Qed.

(** A step that updates one lock, and the phases of operations on it. *)
Lemma lock_inv_step d d' l k' : lock_inv d → is_Some (locks (ctx d) !! l) →
  next_op d' = next_op d → project_locks (ctx d') = project_locks (ctx d) →
  next_lock (ctx d') = next_lock (ctx d) → locks (ctx d') = <[l := k']> (locks (ctx d)) →
  (∀ o op', ops d' !! o = Some op' → ∃ op, ops d !! o = Some op ∧ op_dir op' = op_dir op ∧
     lock_of (op_phase op') = lock_of (op_phase op)) →
  (∀ o ph, lock_of ph = Some l ∨ phase_of d' o = Some ph ↔ lock_of ph = Some l ∨ phase_of d o = Some ph) →
  (∀ o, holder k' = Some o ↔ phase_of d' o = Some (Running l)) →
  (∀ o, o ∈ waiters k' ↔ phase_of d' o = Some (Waiting l)) →
  (holder k' = None → waiters k' = []) → NoDup (waiters k') → lock_inv d'.
Proof.
  intros [H1 H2 H3 H4 H5 H6 H7 H8 H9] Hl En Ep Enl El Hops Hph Hh Hw Hf Hn.
  assert (∀ o l' (ph : nat → Phase), (∀ l, lock_of (ph l) = Some l) → l ≠ l' →
    phase_of d' o = Some (ph l') ↔ phase_of d o = Some (ph l')) as Hother.
  { intros o l' ph Hp Hne. specialize (Hph o (ph l')). rewrite Hp in Hph. naive_solver. }
  split; rewrite ?En, ?Ep, ?Enl, ?El.
  - intros o op' l' (op & Ho & -> & ->)%Hops. by apply H1 with o.
  - done.
  - intros key l' Hk. destruct (decide (l = l')) as [->|]; [rewrite lookup_insert_eq; eauto|].
    rewrite lookup_insert_ne by done. eauto.
  - intros l'. destruct (decide (l = l')) as [->|]; [auto|]. rewrite lookup_insert_ne by done. auto.
  - intros l' k o [[<- <-]|[Hne Hk]]%lookup_insert_Some; [done|].
    rewrite (Hother o l' Running) by done. by apply H5.
  - intros l' k o [[<- <-]|[Hne Hk]]%lookup_insert_Some; [done|].
    rewrite (Hother o l' Waiting) by done. by apply H6.
  - intros l' k [[<- <-]|[Hne Hk]]%lookup_insert_Some; eauto.
  - intros l' k [[<- <-]|[Hne Hk]]%lookup_insert_Some; eauto.
  - intros o [op' (op & Ho & _)%Hops]. by apply H9.
Qed.

(** ** The steps *)

Lemma start_inv dir st desc now d : lock_inv d → lock_inv (start_operation dir st desc now d).
Proof.
  intros [H1 H2 H3 H4 H5 H6 H7 H8 H9].
  assert (ops d !! next_op d = None) as Hf by (apply eq_None_not_Some; intros Hs%H9; lia).
  assert (∀ o ph, ph ≠ Started → phase_of (start_operation dir st desc now d) o = Some ph ↔ phase_of d o = Some ph) as Hp.
  { intros o ph Hne. unfold phase_of, start_operation. cbn [ops].
    destruct (decide (next_op d = o)) as [<-|]; [rewrite lookup_insert_eq, Hf|by rewrite lookup_insert_ne].
    cbn. naive_solver. }
  split; unfold start_operation, guard_new in *;
    cbn [ops ctx next_op touch_activity set_operation project_locks locks next_lock] in *; try done.
  - intros o op l [[<- <-]|[_ Ho]]%lookup_insert_Some; [done|by apply (H1 o)].
  - intros l k o Hk. rewrite Hp by done. by apply H5.
  - intros l k o Hk. rewrite Hp by done. by apply H6.
  - intros o [op [[<- _]|[_ Ho]]%lookup_insert_Some]; [lia|]. specialize (H9 o (mk_is_Some _ _ Ho)). lia.
Qed.

Lemma lookup_inv o d : lock_inv d → lock_inv (lookup_lock o d).
Proof.
  intros Hd. unfold lookup_lock. destruct (ops d !! o) as [[dir []]|] eqn:Ho; try done.
  assert (∀ c l o' ph, (∀ l, ph ≠ Looked l) → ph ≠ Started →
    phase_of (with_ops c (set_phase o (Looked l) (ops d)) d) o' = Some ph ↔ phase_of d o' = Some ph) as Hp.
  { intros c l o' ph Hne Hs. unfold phase_of, with_ops. cbn [ops]. rewrite phase_set.
    case_decide as E; [subst; rewrite Ho; cbn|done]. naive_solver. }
  destruct Hd as [H1 H2 H3 H4 H5 H6 H7 H8 H9]. unfold project_lock.
  destruct (project_locks (ctx d) !! project_key dir) as [l|] eqn:El.
  - split; unfold with_ops in *; cbn [ops ctx next_op] in *; try done.
    + intros o' op' l' (op & Ho' & E1 & E2)%lookup_set_phase E3. rewrite E1. rewrite E2 in E3.
      case_decide as Eo; [subst|by apply (H1 o')]. rewrite Ho in Ho'. injection Ho' as <-. by injection E3 as <-.
    + intros l' k o' Hk. rewrite Hp by done. by apply H5.
    + intros l' k o' Hk. rewrite Hp by done. by apply H6.
    + intros o' [op' (op & Ho' & _)%lookup_set_phase]. by apply H9.
  - assert (∀ key l, project_locks (ctx d) !! key = Some l → l < next_lock (ctx d)) as Hlt by eauto.
    assert (locks (ctx d) !! next_lock (ctx d) = None) as Hfresh
      by (apply eq_None_not_Some; intros Hs%H4; lia).
    split; unfold with_ops in *; cbn [ops ctx next_op set_locks project_locks locks next_lock] in *; try done.
    + intros o' op' l' (op & Ho' & E1 & E2)%lookup_set_phase E3. rewrite E1. rewrite E2 in E3.
      case_decide as Eo; [subst; rewrite Ho in Ho'; injection Ho' as <-; injection E3 as <-; by rewrite lookup_insert_eq|].
      pose proof (H1 o' op l' Ho' E3) as Hk. rewrite lookup_insert_ne; [done|congruence].
    + intros k1 k2 l [[<- <-]|[_ A]]%lookup_insert_Some [[<- B]|[_ B]]%lookup_insert_Some; [done|..|by eauto].
      * apply Hlt in B. lia.
      * apply Hlt in A. lia.
    + intros key l [[_ <-]|[_ A]]%lookup_insert_Some; [rewrite lookup_insert_eq; eauto|].
      rewrite lookup_insert_ne by (apply Hlt in A; lia). eauto.
    + intros l [k [[<- _]|[_ A]]%lookup_insert_Some]; [lia|]. specialize (H4 l (mk_is_Some _ _ A)). lia.
    + intros l k o' [[<- <-]|[_ Hk]]%lookup_insert_Some; rewrite Hp by done; [|by apply H5].
      rewrite holder_new. split; [done|]. intros Hr. exfalso. unfold phase_of in Hr. apply fmap_Some in Hr as (op & Hop & Eq).
      pose proof (H1 o' op (next_lock (ctx d)) Hop) as Hk. rewrite <- Eq in Hk. specialize (Hk eq_refl). apply Hlt in Hk. lia.
    + intros l k o' [[<- <-]|[_ Hk]]%lookup_insert_Some; rewrite Hp by done; [|by apply H6].
      rewrite waiters_new. split; [by intros ?%elem_of_nil|]. intros Hr. exfalso. unfold phase_of in Hr. apply fmap_Some in Hr as (op & Hop & Eq).
      pose proof (H1 o' op (next_lock (ctx d)) Hop) as Hk. rewrite <- Eq in Hk. specialize (Hk eq_refl). apply Hlt in Hk. lia.
    + intros l k [[<- <-]|[_ Hk]]%lookup_insert_Some; [by rewrite waiters_new|by eauto].
    + intros l k [[<- <-]|[_ Hk]]%lookup_insert_Some; [rewrite waiters_new; constructor|by eauto].
    + intros o' [op' (op & Ho' & _)%lookup_set_phase]. by apply H9.
Qed.
Lemma phase_op d o ph : phase_of d o = Some ph → ∃ op, ops d !! o = Some op ∧ op_phase op = ph.
Proof. unfold phase_of. intros (op & Ho & ->)%fmap_Some. by exists op. Qed.

Lemma lock_exists d o l ph : lock_inv d → phase_of d o = Some ph → lock_of ph = Some l →
  ∃ k, locks (ctx d) !! l = Some k.
Proof. intros I (op & Ho & <-)%phase_op Hl. eapply (li_known d I), (li_key d I); done. Qed.

(** The operation moves between phases of one lock. *)
Lemma set_phase_ops d o ph ph0 l : phase_of d o = Some ph0 → lock_of ph0 = Some l → lock_of ph = Some l →
  ∀ o' op', set_phase o ph (ops d) !! o' = Some op' → ∃ op, ops d !! o' = Some op ∧ op_dir op' = op_dir op ∧
    lock_of (op_phase op') = lock_of (op_phase op).
Proof.
  intros (op0 & Ho & <-)%phase_op Hl0 Hl o' op' (op & Ho' & E1 & E2)%lookup_set_phase.
  exists op. split; [done|]. split; [done|]. rewrite E2. case_decide; [subst|done]. congruence.
Qed.

Lemma poll_inv o d : lock_inv d → lock_inv (poll o d).
Proof.
  intros Hd. unfold poll. destruct (op_phase <$> ops d !! o) as [[| l | |]|] eqn:Hp; try done.
  destruct (lock_exists d o l (Looked l) Hd Hp eq_refl) as [k Hk]. unfold poll_lock. rewrite Hk.
  assert (∀ c ph o', phase_of (with_ops c (set_phase o ph (ops d)) d) o' =
    if decide (o = o') then Some ph else phase_of d o') as Hph.
  { intros c ph o'. unfold phase_of, with_ops. cbn [ops]. rewrite phase_set. case_decide; [subst|done].
    apply phase_op in Hp as (op & -> & _). done. }
  assert (o ∉ waiters k) as Hnw.
  { intros Hw%(li_waiters d Hd l k o Hk). unfold phase_of in Hw. congruence. }
  pose proof (poll_got o k) as Pg. pose proof (poll_holder o k) as Ph. pose proof (poll_waiters o k) as Pw.
  destruct (mutex_poll o k) as [got k']. cbn [fst snd] in *.
  assert (∀ o' ph, lock_of (if got then Running l else Waiting l) = Some l →
    lock_of ph = Some l ∨ (if decide (o = o') then Some (if got then Running l else Waiting l) else phase_of d o') = Some ph
    ↔ lock_of ph = Some l ∨ phase_of d o' = Some ph) as Hin.
  { intros o' ph Hl. destruct (decide (o = o')) as [<-|]; [|done]. unfold phase_of. rewrite Hp. naive_solver. }
  apply (lock_inv_step d _ l k'); try done.
  - apply (set_phase_ops d o _ (Looked l) l Hp); [done|by destruct got].
  - intros o' ph. rewrite Hph. apply Hin. by destruct got.
  - clear Pw Hin. intros o'. rewrite Hph, Ph. destruct (holder k) as [h|] eqn:Eh; rewrite Pg; cbn.
    + rewrite <- Eh, (li_holder d Hd l k o' Hk). case_decide as E; [subst|done]. unfold phase_of. rewrite Hp. naive_solver.
    + case_decide as E; [subst; naive_solver|]. rewrite <- (li_holder d Hd l k o' Hk), Eh. naive_solver.
  - clear Hin. intros o'. rewrite Hph, Pw, elem_of_app, (li_waiters d Hd l k o' Hk).
    clear Pw. unfold phase_of in *.
    destruct (decide (holder k = None)) as [Eh|Eh]; rewrite ?list_elem_of_singleton, ?elem_of_nil;
      [rewrite bool_decide_true in Pg by done|rewrite bool_decide_false in Pg by done]; subst got;
      (destruct (decide (o = o')) as [<-|]; [rewrite Hp|]; intuition congruence).
  - by rewrite Ph.
  - rewrite Pw. apply NoDup_app. split; [by eapply li_nodup|]. destruct (decide _); (split; [|repeat constructor; set_solver]).
    + by intros x _ ?%elem_of_nil.
    + by intros x Hx ->%list_elem_of_singleton.
Qed.

Lemma delete_ops d o o' op' : delete o (ops d) !! o' = Some op' → ∃ op, ops d !! o' = Some op ∧
  op_dir op' = op_dir op ∧ lock_of (op_phase op') = lock_of (op_phase op).
Proof. intros [_ H]%lookup_delete_Some. by exists op'. Qed.

Lemma deadline_inv o d : lock_inv d → lock_inv (deadline o d).
Proof.
  intros Hd. unfold deadline. destruct (op_phase <$> ops d !! o) as [[| | l |]|] eqn:Hp; try done.
  destruct (lock_exists d o l (Waiting l) Hd Hp eq_refl) as [k Hk].
  set (d' := with_ops _ _ d).
  assert (∀ o', phase_of d' o' = if decide (o = o') then None else phase_of d o') as Hph.
  { intros o'. unfold phase_of, d', with_ops. cbn [ops]. case_decide; [subst; by rewrite lookup_delete_eq|].
    by rewrite lookup_delete_ne. }
  apply (lock_inv_step d _ l (mutex_cancel o k)); try done.
  - unfold d', cancel_lock. cbn. apply map_eq. intros i. destruct (decide (l = i)) as [<-|].
    + by rewrite lookup_alter_eq, Hk, lookup_insert_eq.
    + by rewrite lookup_alter_ne, lookup_insert_ne.
  - apply delete_ops.
  - intros o' ph. rewrite Hph. case_decide as E; [subst|done]. unfold phase_of. rewrite Hp. naive_solver.
  - intros o'. rewrite cancel_holder. rewrite Hph, (li_holder d Hd l k o' Hk). case_decide as E; [subst|done].
    unfold phase_of. rewrite Hp. naive_solver.
  - intros o'. rewrite cancel_waiters. rewrite Hph, list_elem_of_filter, (li_waiters d Hd l k o' Hk).
    case_decide as E; [subst; naive_solver|]. naive_solver.
  - rewrite cancel_holder, cancel_waiters. intros Eh. by rewrite (li_free d Hd l k Hk Eh).
  - rewrite cancel_waiters. apply NoDup_filter. by eapply li_nodup.
Qed.

Lemma finish_inv o d : lock_inv d → lock_inv (finish_operation o d).
Proof.
  intros Hd. unfold finish_operation. destruct (op_phase <$> ops d !! o) as [[| | |l]|] eqn:Hp; try done.
  destruct (lock_exists d o l (Running l) Hd Hp eq_refl) as [k Hk]. unfold release_lock. rewrite Hk.
  pose proof (proj2 (li_holder d Hd l k o Hk) Hp) as Eh. pose proof (li_nodup d Hd l k Hk) as Hn.
  assert (∀ x, x ∈ waiters k ↔ phase_of d x = Some (Waiting l)) as Hw by (intros; by apply li_waiters).
  pose proof (release_next k) as Rn. pose proof (release_holder k) as Rh. pose proof (release_waiters k) as Rw.
  destruct (mutex_release k) as [next k']. cbn [fst snd] in *. subst next.
  destruct (waiters k) as [|o2 rest] eqn:Ew; cbn [head tail] in *.
  - apply (lock_inv_step d _ l k'); try done.
    + apply delete_ops.
    + intros o' ph. unfold phase_of, with_ops. cbn [ops]. destruct (decide (o = o')) as [<-|].
      * rewrite lookup_delete_eq, Hp. cbn. naive_solver.
      * by rewrite lookup_delete_ne.
    + intros o'. unfold phase_of, with_ops. cbn [ops]. rewrite Rh. destruct (decide (o = o')) as [<-|].
      * by rewrite lookup_delete_eq.
      * rewrite lookup_delete_ne by done. fold (phase_of d o'). rewrite <- (li_holder d Hd l k o' Hk), Eh. naive_solver.
    + intros o'. unfold phase_of, with_ops. cbn [ops]. rewrite Rw. destruct (decide (o = o')) as [<-|].
      * rewrite lookup_delete_eq. cbn. split; [by intros ?%elem_of_nil|done].
      * rewrite lookup_delete_ne by done. apply Hw.
    + rewrite Rw. constructor.
  - apply NoDup_cons in Hn as [Ho2 Hn].
    assert (phase_of d o2 = Some (Waiting l)) as Hp2 by (apply Hw, list_elem_of_here).
    assert (o ≠ o2) as Hne by (intros ->; unfold phase_of in Hp2; congruence).
    set (d' := with_ops _ _ d).
    assert (∀ o', phase_of d' o' = if decide (o2 = o') then Some (Running l)
      else if decide (o = o') then None else phase_of d o') as Hph.
    { intros o'. unfold phase_of, d', with_ops. cbn [ops]. rewrite phase_set. case_decide; [subst|].
      - rewrite lookup_delete_ne by done. apply phase_op in Hp2 as (op & -> & _). done.
      - case_decide; [subst; by rewrite lookup_delete_eq|]. by rewrite lookup_delete_ne. }
    apply (lock_inv_step d _ l k'); try done.
    + intros o' op' (op & [_ Ho']%lookup_delete_Some & E1 & E2)%lookup_set_phase. exists op.
      split; [done|]. split; [done|]. rewrite E2. case_decide; [subst|done].
      apply phase_op in Hp2 as (op2 & Hop2 & E). rewrite Ho' in Hop2. injection Hop2 as ->. by rewrite E.
    + intros o' ph. rewrite Hph. unfold phase_of in Hp2 |- *. repeat case_decide; subst; try done.
      * rewrite Hp2. naive_solver.
      * rewrite Hp. naive_solver.
    + intros o'. rewrite Rh, Hph. case_decide as E2; [by subst|]. case_decide as E1.
      * split; [congruence|done].
      * rewrite <- (li_holder d Hd l k o' Hk), Eh. split; congruence.
    + intros o'. rewrite Rw, Hph. specialize (Hw o'). rewrite elem_of_cons in Hw.
      case_decide as E2; [subst; split; done|]. case_decide as E1.
      * subst. unfold phase_of in Hw. rewrite Hp in Hw. split; [|done]. intros Hin.
        destruct Hw as [Hw _]. specialize (Hw (or_intror Hin)). done.
      * rewrite <- Hw. split; [auto|]. intros [?|?]; congruence.
    + by rewrite Rh.
    + by rewrite Rw.
Qed.

(** ** Cleanups *)

Definition settled (os : gmap nat Operation) : Prop := ∀ o op l, os !! o = Some op → op_phase op ≠ Looked l.

Lemma clear_lock_inv key d c : settled (ops d) → lock_inv (with_ctx c d) →
  lock_inv (with_ctx (clear_project_lock key c).2 d).
Proof.
  intros Hs Hd. unfold clear_project_lock. destruct (project_locks c !! key) as [l|] eqn:El; [|done].
  destruct (try_lock l c) eqn:Et; [|done]. unfold try_lock in Et.
  destruct (li_known _ Hd key l El) as [k Hk]. cbn [ctx with_ctx] in Hk. rewrite Hk in Et.
  rewrite try_lock_free in Et. apply bool_decide_eq_true in Et. pose proof (li_free _ Hd l k Hk Et) as Ew.
  pose proof Hd as [H1 H2 H3 H4 H5 H6 H7 H8 H9].
  split; cbn [ctx ops next_op with_ctx set_locks snd project_locks locks next_lock] in *; try done.
  - intros o op l' Ho Hl. pose proof (H1 o op l' Ho Hl) as Hkey. rewrite lookup_delete_ne; [done|].
    intros ->. rewrite El in Hkey. injection Hkey as <-.
    assert (phase_of (with_ctx c d) o = Some (op_phase op)) as Hph by (unfold phase_of; cbn; by rewrite Ho).
    destruct (op_phase op) as [|x|x|x] eqn:Eo; [done|by apply (Hs o op x)| |]; injection Hl as ->.
    + apply (H6 l k o Hk) in Hph. rewrite Ew in Hph. by apply elem_of_nil in Hph.
    + apply (H5 l k o Hk) in Hph. congruence.
  - intros k1 k2 l' [_ A]%lookup_delete_Some [_ B]%lookup_delete_Some. by eapply H2.
  - intros key' l' [_ A]%lookup_delete_Some. by eapply H3.
Qed.

Lemma clear_locks_inv d c : settled (ops d) → lock_inv (with_ctx c d) →
  lock_inv (with_ctx (clear_project_locks c).2 d).
Proof.
  intros Hs. unfold clear_project_locks. change c with (0, c).2 at 1. generalize (0, c).
  induction (hm_iter (project_locks c)).*1 as [|key ks IH]; intros acc Hd; cbn [foldl]; [done|].
  apply IH. generalize (clear_lock_inv key d acc.2 Hs Hd). by destruct (clear_project_lock key acc.2).
Qed.

(** No operation is between looking its lock up and polling it when a
    cleanup may run. *)
Definition undisturbed (e : DEvent D) d : Prop :=
  match e with DTick _ | DClearProjects => settled (ops d) | _ => True end.

Notation exec := (exec is_windows process_line timeout_env).

Fixpoint gentle (es : list (DEvent D)) d : Prop :=
  match es with [] => True | e :: es => undisturbed e d ∧ gentle es (exec e d) end.

Lemma exec_lock_inv e d : lock_inv d → undisturbed e d → lock_inv (exec e d).
Proof.
  intros Hd Hu. destruct e; cbn [DaemonRun.exec undisturbed] in *; try (by apply (lock_inv_same d)).
  - unfold tick. destruct (loop_ended d); [done|]. destruct (self_eviction_due _ now d); [by apply (lock_inv_same d)|].
    repeat case_bool_decide; cbn [snd]; try (by apply (lock_inv_same d)).
    apply (lock_inv_same (with_ctx (clear_project_locks (ctx d)).2 d)); [done|].
    apply clear_locks_inv; [done|]. by apply (lock_inv_same d).
  - by apply start_inv.
  - by apply lookup_inv.
  - by apply poll_inv.
  - by apply deadline_inv.
  - by apply finish_inv.
  - apply (lock_inv_same d); [|done]. unfold end_pending_serial_attach, lock_fields. cbn. by destruct (_ !! id).
  - apply (lock_inv_same d); [|done]. unfold shutdown, lock_fields. cbn. by destruct (_ && _).
  - apply clear_locks_inv; [done|]. by apply (lock_inv_same d).
Qed.

Lemma run_lock_inv es d : lock_inv d → gentle es d → lock_inv (run is_windows process_line timeout_env es d).
Proof.
  revert d. induction es as [|e es IH]; intros d Hd; cbn; [done|]. intros [Hu Hg].
  apply IH; [by apply exec_lock_inv|done].
Qed.

Lemma new_lock_inv now : lock_inv (new_daemon (D := D) now).
Proof.
  split; unfold phase_of; cbn; try (by intros *; rewrite lookup_empty); try (by intros * [? H]; rewrite lookup_empty in H).
Qed.

(** C6: in a history whose cleanups disturb no lookup, at most one operation
    runs in a project at a time, even if the requests spell its directory
    differently (with other separators, dots, or detours through a
    subdirectory); and an operation that waits for its project's lock waits
    for one that runs in this project. *)
Theorem project_exclusion es now : gentle es (new_daemon now) →
  let d := run is_windows process_line timeout_env es (new_daemon now) in
  (∀ o1 op1 l1 o2 op2 l2, ops d !! o1 = Some op1 → ops d !! o2 = Some op2 →
     op_phase op1 = Running l1 → op_phase op2 = Running l2 →
     respelled (op_dir op1) (op_dir op2) → o1 = o2) ∧
  (∀ o1 op1 l1, ops d !! o1 = Some op1 → op_phase op1 = Waiting l1 →
     ∃ o2 op2 l2, ops d !! o2 = Some op2 ∧ op_phase op2 = Running l2 ∧ respelled (op_dir op2) (op_dir op1)).
Proof.
  intros Hg d. pose proof (run_lock_inv es _ (new_lock_inv now) Hg) as I. fold d in I.
  assert (∀ o op ph, ops d !! o = Some op → op_phase op = ph → phase_of d o = Some ph) as Hph.
  { intros o op ph Ho <-. unfold phase_of. by rewrite Ho. }
  split.
  - intros o1 op1 l1 o2 op2 l2 Ho1 Ho2 E1 E2 Ek%project_key_respelled.
    pose proof (li_key d I o1 op1 l1 Ho1) as K1. rewrite E1 in K1. specialize (K1 eq_refl).
    pose proof (li_key d I o2 op2 l2 Ho2) as K2. rewrite E2 in K2. specialize (K2 eq_refl).
    rewrite Ek, K2 in K1. injection K1 as ->.
    destruct (li_known d I _ _ K2) as [k Hk].
    pose proof (proj2 (li_holder d I l1 k o1 Hk) (Hph o1 op1 _ Ho1 E1)) as A.
    pose proof (proj2 (li_holder d I l1 k o2 Hk) (Hph o2 op2 _ Ho2 E2)) as B. congruence.
  - intros o1 op1 l1 Ho1 E1. pose proof (li_key d I o1 op1 l1 Ho1) as K1. rewrite E1 in K1. specialize (K1 eq_refl).
    destruct (li_known d I _ _ K1) as [k Hk].
    pose proof (proj2 (li_waiters d I l1 k o1 Hk) (Hph o1 op1 _ Ho1 E1)) as Hw.
    destruct (holder k) as [o2|] eqn:Eh.
    + apply (li_holder d I l1 k o2 Hk) in Eh. apply phase_op in Eh as (op2 & Ho2 & E2).
      exists o2, op2, l1. split; [done|]. split; [done|]. apply project_key_respelled.
      pose proof (li_key d I o2 op2 l1 Ho2) as K2. rewrite E2 in K2. specialize (K2 eq_refl). by eapply li_inj.
    + rewrite (li_free d I l1 k Hk Eh) in Hw. by apply elem_of_nil in Hw.
Qed.
End Locks.

(** ** Concrete histories *)

#[local] Existing Instances fifo_mutex fifo_mutex_ok.

Definition no_line (line : str) (x : unit) : option (list str) * unit := (None, x).
Notation run1 := (run (D := unit) false no_line None).
Notation day0 := (new_daemon (D := unit) 0).

Definition build (o : nat) (dir : str) : list (DEvent unit) :=
  [DStart dir Building (Some (&"Building " ++ dir)) 0; DLookup o; DPoll o].

(** Two requests that spell one directory differently. *)
Definition two_builds : list (DEvent unit) := build 0 (&"/w/blink") ++ build 1 (&"/w/./blink/").

Lemma project_exclusion_witness :
  (∃ op1, ops (run1 two_builds day0) !! 1 = Some op1 ∧ op_phase op1 = Waiting 0) ∧
  ∃ o2 op2 l2, ops (run1 two_builds day0) !! o2 = Some op2 ∧ op_phase op2 = Running l2 ∧
    respelled (op_dir op2) (&"/w/./blink/").
Proof.
  assert (ops (run1 two_builds day0) !! 1 = Some {| op_dir := &"/w/./blink/"; op_phase := Waiting 0 |}) as H
    by by vm_compute.
  split; [by eexists|].
  refine (proj2 (project_exclusion false no_line None two_builds 0 _) 1 _ 0 H eq_refl).
  repeat split.
Defined.

(** Finding: a cleanup that runs between the lookup of a lock and its first
    poll forgets the lock; the next request makes another one, and two
    operations run in the project. *)
Definition split_history : list (DEvent unit) :=
  [DStart (&"/w/blink") Building None 0; DLookup 0; DClearProjects; DPoll 0] ++ build 1 (&"/w/blink").

Lemma cleanup_splits_project :
  ops (run1 split_history day0) !! 0 = Some {| op_dir := &"/w/blink"; op_phase := Running 0 |} ∧
  ops (run1 split_history day0) !! 1 = Some {| op_dir := &"/w/blink"; op_phase := Running 1 |}.
Proof. split; by vm_compute. Qed.

(** Finding: the operation guards of different projects share one flag, which
    the first of them to end clears.  Here the build of [blink] is still
    running: the daemon calls itself idle, evicts itself when the timeout is
    over, and accepts a shutdown that is not forced. *)
Definition overlapping : list (DEvent unit) :=
  build 0 (&"/w/blink") ++ build 1 (&"/w/fade") ++ [DFinish 1; DTick (secs 1)].

Lemma running_build_forgotten :
  (op_phase <$> ops (run1 overlapping day0) !! 0) = Some (Running 0) ∧
  daemon_state (ctx (run1 overlapping day0)) = Idle ∧ is_empty (ctx (run1 overlapping day0)) = true ∧
  (shutdown false (ctx (run1 overlapping day0))).1 = true ∧
  (tick None (secs 31) (run1 overlapping day0)).1 = SelfEvicted.
Proof. split_and!; by vm_compute. Qed.

(** The timeout counts from a turn that found the daemon idle. *)
Lemma eviction_sound_witness :
  let es := build 0 (&"/w/blink") ++ [DFinish 0; DTick (secs 5); DTick (secs 6)] in
  (tick None (secs 35) (run1 es day0)).1 = SelfEvicted ∧ idle (ctx (run1 es day0)).
Proof.
  intros es. assert ((tick None (secs 35) (run1 es day0)).1 = SelfEvicted) as H by by vm_compute.
  split; [exact H|]. exact (proj1 (eviction_sound false no_line None es 0 (secs 35) ltac:(by vm_compute) H)).
Defined.
