(* ===== verification/SessionMoves.v ===== *)
(** * Sessions follow their devices

    The device manager and the serial manager together: after a refresh the
    daemon rebinds the sessions of the devices that moved.  A device that
    moves takes its leases along (DeviceTrust) and, here, its serial session,
    provided that no other device's port is resolved to the same session. *)
From S2P Require Import Prelude RustStr SerialReader SerialManager SerialWorld DaemonContext.
From S2P Require Import DeviceManager DeviceFacts DeviceLedger DeviceTrust.
From S2P Require Import SerialFacts.

Abbreviation resolve_port_key := SerialManager.resolve_port_key.
Abbreviation session_port := SerialManager.port.

(** ** Each device moves at most once in a refresh *)

(** [S] holds the ports of devices that may still move, [T] the ports that
    devices moved to. *)
Fixpoint single_moves (S T : gset str) (moves : list DevicePortMove) : Prop :=
  match moves with
  | [] => True
  | mv :: moves =>
      pm_previous_port mv ∈ S ∧ pm_port mv ∉ S ∪ T ∧
      single_moves (S ∖ {[pm_previous_port mv]}) ({[pm_port mv]} ∪ T) moves
  end.

Lemma single_moves_source S T moves mv : single_moves S T moves → mv ∈ moves → pm_previous_port mv ∈ S.
Proof.
  revert S T. induction moves as [|mv0 moves IH]; intros S T; [by intros _ ?%elem_of_nil|].
  intros (H1 & _ & H2) [->|Hin]%elem_of_cons; [done|]. apply (IH _ _ H2) in Hin. set_solver.
Qed.

Lemma follow_stays S T moves c : single_moves S T moves → c ∉ S → follow moves c = c.
Proof.
  revert S T. induction moves as [|mv moves IH]; intros S T; [done|]. intros (H1 & _ & H2) Hc.
  unfold follow. cbn [foldl]. rewrite decide_False by (by intros ->). apply (IH _ _ H2). set_solver.
Qed.

(** The destination of a move is where its device stays. *)
Lemma follow_move S T moves mv : single_moves S T moves → mv ∈ moves →
  follow moves (pm_previous_port mv) = pm_port mv ∧ pm_port mv ≠ pm_previous_port mv.
Proof.
  revert S T. induction moves as [|mv0 moves IH]; intros S T; [by intros _ ?%elem_of_nil|].
  intros (H1 & H2 & H3) [->|Hin]%elem_of_cons; unfold follow; cbn [foldl].
  - rewrite decide_True by done. split; [|intros E; rewrite E in H2; set_solver]. eapply follow_stays; [done|]. set_solver.
  - pose proof (single_moves_source _ _ _ _ H3 Hin) as Hs. rewrite decide_False by (intros E; rewrite E in Hs; set_solver). by apply (IH _ _ H3).
Qed.

Section Refresh.
Context {HI : HashIter} {HIok : HashIterOk HI}.

Abbreviation acc_t := (gmap str DeviceState * list DevicePortMove)%type.

(** What the refresh loop keeps: devices that may move are in [S]. *)
Definition movable (S T : gset str) (m : gmap str DeviceState) : Prop :=
  (∀ k s, m !! k = Some s → is_connected s = false → k ∈ S) ∧ S ∪ T ⊆ dom m ∧ S ## T.

Lemma refresh_entry_movable S T now d (acc : acc_t) : movable S T acc.1 → movable S T (refresh_entry now d acc).1.
Proof.
  intros (H1 & H2 & H3). unfold refresh_entry. split_and!; cbn [fst].
  - intros k s [[<- <-]|[_ Hk]]%lookup_insert_Some Hc; [done|by eapply H1].
  - rewrite dom_insert_L. set_solver.
  - done.
Qed.

Lemma refresh_device_single S T now d (acc : acc_t) : movable S T acc.1 →
  ((refresh_device now acc d).2 = acc.2 ∧ movable S T (refresh_device now acc d).1) ∨
  ∃ mv, (refresh_device now acc d).2 = acc.2 ++ [mv] ∧ pm_previous_port mv ∈ S ∧ pm_port mv ∉ S ∪ T ∧
    movable (S ∖ {[pm_previous_port mv]}) ({[pm_port mv]} ∪ T) (refresh_device now acc d).1.
Proof.
  intros Hm. assert ((refresh_entry now d acc).2 = acc.2 ∧ movable S T (refresh_entry now d acc).1) as He
    by (split; [done|by apply refresh_entry_movable]).
  unfold refresh_device. case_decide as Hc; [by left|].
  destruct (dd_serial_number d) as [serial|]; [|by left].
  destruct (moved_from acc.1 serial) as [old|] eqn:Hf; [|by left].
  apply moved_from_Some in Hf as (s & Hs & _ & Hdis & _). rewrite Hs. right.
  destruct Hm as (H1 & H2 & H3). apply (H1 old s Hs) in Hdis as Hold.
  assert (dd_port d ∉ dom acc.1) as Hn by (by intros ?%elem_of_dom).
  eexists. split; [done|]. cbn [pm_previous_port pm_port fst]. split; [done|]. split; [by intros Hin; apply Hn, H2|]. split_and!.
  - intros k s' [[<- <-]|[_ [Hne Hk]%lookup_delete_Some]]%lookup_insert_Some Hd; [done|].
    apply (H1 k s' Hk) in Hd. set_solver.
  - rewrite dom_insert_L, dom_delete_L. set_solver.
  - set_solver.
Qed.

Lemma refresh_loop_single S T now ds (acc : acc_t) : movable S T acc.1 →
  ∃ new, (foldl (refresh_device now) acc ds).2 = acc.2 ++ new ∧ single_moves S T new.
Proof.
  revert S T acc. induction ds as [|d ds IH]; intros S T acc Hm; cbn [foldl].
  - exists []. by rewrite app_nil_r.
  - destruct (refresh_device_single S T now d acc Hm) as [[E H]|(mv & E & H1 & H2 & H)].
    + destruct (IH _ _ _ H) as (new & E' & Hn). exists new. by rewrite E', E.
    + destruct (IH _ _ _ H) as (new & E' & Hn). exists (mv :: new). rewrite E', E, <- app_assoc. done.
Qed.

Lemma refresh_single now stamp ds dm : recent_port_moves dm = [] →
  single_moves (dom (devices dm)) ∅ (recent_port_moves (refresh_from_discovered now stamp ds dm)).
Proof.
  intros E. unfold refresh_from_discovered. cbn [recent_port_moves]. rewrite E.
  destruct (refresh_loop_single (dom (devices dm)) ∅ now ds (mark_disconnected <$> devices dm, [])) as (new & -> & H);
    [|done].
  split_and!; cbn [fst].
  - intros k s. rewrite lookup_fmap. intros (s0 & Hs0 & _)%fmap_Some _. by apply elem_of_dom.
  - rewrite dom_fmap_L. set_solver.
  - set_solver.
Qed.
End Refresh.

(** ** One move *)

Section Rebind.
Context {AM : AsyncMutex} {D : Type} (is_windows : bool) (outcomes : str → nat → open_result).
Implicit Types m : SharedSerialManager D.

Definition opens_ok (p : str) : Prop := ∃ h, (open_physical_serial is_windows p (outcomes p)).1 = Ok h.

(** What a client sees of a session. *)
Definition logical (s : SerialSession) :=
  (writer_client_id s, reader_client_ids s, client_metadata s, owner_client_id s, baud_rate s,
   total_bytes_written s).

(** The handle of the session was had by opening [p]. *)
Definition opened_at (s : SerialSession) (p : str) : Prop := is_open s = true ∧
  ∃ h, serial_handle s = Some h ∧ h_port h = p ∧ (open_physical_serial is_windows p (outcomes p)).1 = Ok (h_id h).

Notation rebind_move := (rebind_move is_windows outcomes).

(** The session of the previous port is moved, or no session and alias
    changes. *)
Definition moves_session m (mv : DevicePortMove) m' : Prop :=
  ∃ f, port_aliases m' = <[pm_port mv := resolve_port_key (pm_previous_port mv) m]> (port_aliases m) ∧
    sessions m' = alter f (resolve_port_key (pm_previous_port mv) m) (sessions m) ∧
    ∀ s, logical (f s) = logical s ∧ session_port (f s) = pm_port mv ∧ opened_at (f s) (pm_port mv).

Lemma rebind_begin_maps key m r m' : rebind_begin key m = (r, m') →
  port_aliases m' = port_aliases m ∧ broadcasters m' = broadcasters m ∧
  match r with
  | None => sessions m' = sessions m ∧ (sessions m !! key = None ∨ broadcasters m !! key = None)
  | Some _ => ∃ f, sessions m' = alter f key (sessions m) ∧ ∀ s, logical (f s) = logical s
  end.
Proof.
  unfold rebind_begin. destruct (broadcasters m !! key) eqn:Eb; [|intros [= <- <-]; auto].
  destruct (output_buffers m !! key); mgr_simpl; destruct (sessions m !! key) eqn:Es; intros [= <- <-]; mgr_simpl;
    (split; [done|]); (split; [done|]); try (by auto); eexists; by split.
Qed.

Lemma rebind_end_maps key new_port reason ser h tx buf m :
  let m' := rebind_end key new_port reason ser h tx buf m in
  port_aliases m' = <[new_port := key]> (port_aliases m) ∧ broadcasters m' = broadcasters m ∧
  ∃ f, sessions m' = alter f key (sessions m) ∧
    ∀ s, logical (f s) = logical s ∧ session_port (f s) = new_port ∧ is_open (f s) = true ∧ serial_handle (f s) = Some h.
Proof.
  unfold rebind_end, send_. set (m0 := bump key _). set (e1 := PortRenumbered _ _ _ _). set (e2 := PortReattached _ _).
  destruct (send_maps tx e2 (send tx e1 m0).2) as (-> & -> & -> & _).
  destruct (send_maps tx e1 m0) as (-> & -> & -> & _). unfold m0. mgr_simpl.
  split; [done|]. split; [done|]. eexists. by split.
Qed.

Definition maps_same m m' : Prop :=
  port_aliases m' = port_aliases m ∧ sessions m' = sessions m ∧ broadcasters m' = broadcasters m.

Lemma maps_same_send ch e m : maps_same m (send ch e m).2.
Proof. destruct (send_maps ch e m) as (E1 & E2 & E3 & _). by split_and!. Qed.

Lemma maps_same_notify o n r ser m : maps_same m (notify_port_renumbered o n r ser m).2.
Proof.
  unfold notify_port_renumbered. destruct (broadcasters m !! _) as [tx|]; [|done].
  destruct (maps_same_send tx (PortRenumbered (SerialManager.resolve_port_key o m) n r ser) m) as (E1 & E2 & E3).
  destruct (send tx (PortRenumbered _ _ _ _) m) as [a m1]. cbn [snd] in *.
  destruct (maps_same_send tx (PortReattached n o) m1) as (F1 & F2 & F3).
  destruct (send tx (PortReattached n o) m1) as [b m2]. cbn [snd] in *. split_and!; congruence.
Qed.

Lemma maps_same_failed o n r e m : maps_same m (notify_port_rebind_failed o n r e m).2.
Proof. unfold notify_port_rebind_failed. destruct (broadcasters m !! _); [apply maps_same_send|done]. Qed.

Lemma alter_twice {A} (f g : A → A) (k : str) (x : gmap str A) : alter f k (alter g k x) = alter (f ∘ g) k x.
Proof.
  apply map_eq. intros i. destruct (decide (k = i)) as [<-|].
  - rewrite !lookup_alter_eq. by destruct (x !! k).
  - by rewrite !lookup_alter_ne.
Qed.

(** The effect of one move on the maps of the manager. *)
Lemma rebind_move_spec m mv : let key := resolve_port_key (pm_previous_port mv) m in
  broadcasters (rebind_move m mv) = broadcasters m ∧
  (moves_session m mv (rebind_move m mv) ∨
   port_aliases (rebind_move m mv) = port_aliases m ∧ sessions (rebind_move m mv) = sessions m ∧
   (sessions m !! key = None ∨ broadcasters m !! key = None ∨ ¬ opens_ok (pm_port mv))).
Proof.
  unfold DaemonContext.rebind_move, rebind_port_session, moves_session.
  set (key := SerialManager.resolve_port_key (pm_previous_port mv) m). cbn zeta.
  set (notify := notify_port_renumbered _ _ _ _).
  assert (∀ m1, maps_same m1 (notify m1).2) as Hnotify by (intros; apply maps_same_notify).
  destruct (rebind_check _ m) as [[k baud]|] eqn:Ec; unfold rebind_check in Ec; fold key in Ec.
  2:{ destruct (Hnotify m) as (-> & -> & ->). split; [done|]. right. repeat case_match; naive_solver. }
  assert (k = key) as -> by (by repeat case_match; simplify_eq).
  destruct (open_physical_serial _ _ _).1 as [h|e] eqn:Eo.
  2:{ destruct (maps_same_failed (pm_previous_port mv) (pm_port mv) (&"open_failed") e m) as (-> & -> & ->).
      split; [done|]. right. split_and!; [done..|]. right; right. intros [h Hh]. congruence. }
  destruct (rebind_begin key m) as [[[tx buf]|] m1] eqn:Eb; apply rebind_begin_maps in Eb as (E1 & E2 & E3).
  - destruct (rebind_end_maps key (pm_port mv) (&"tracked_serial_move") (pm_serial_number mv)
      {| h_id := h; h_port := pm_port mv; h_baud := baud |} tx buf m1) as (-> & -> & f & -> & Hf).
    rewrite E1. split; [done|]. left. destruct E3 as (g & -> & Hg). exists (f ∘ g). split; [done|]. split.
    + apply alter_twice.
    + intros s. cbn. destruct (Hf (g s)) as (-> & -> & Ho & Hh). rewrite Hg. split; [done|]. split; [done|].
      split; [done|]. eexists. split; [exact Hh|]. by split.
  - destruct (Hnotify m1) as (-> & -> & ->). destruct E3 as [-> E3]. rewrite E1, E2. split; [done|]. right. tauto.
Qed.

Lemma rebind_move_moves m mv s tx : let key := resolve_port_key (pm_previous_port mv) m in
  sessions m !! key = Some s → broadcasters m !! key = Some tx → opens_ok (pm_port mv) →
  moves_session m mv (rebind_move m mv).
Proof.
  cbn zeta. intros Hs Ht Ho. destruct (rebind_move_spec m mv) as [_ [?|(_ & _ & [E|[E|E]])]]; [done|..];
    cbn zeta in *; congruence || tauto.
Qed.

(** ** All moves of a refresh *)

(** The device at port [c] is served by the session [s], kept under [key]. *)
Record serves m (c key : str) (s : SerialSession) : Prop := {
  sv_key : resolve_port_key c m = key;
  sv_session : sessions m !! key = Some s;
  sv_channel : is_Some (broadcasters m !! key);
  sv_port : session_port s = c;
  sv_open : is_open s = true;
  sv_handle : ∃ h, serial_handle s = Some h ∧ h_port h = c;
}.

Lemma resolve_insert m m' n key q : port_aliases m' = <[n := key]> (port_aliases m) →
  resolve_port_key q m' = if decide (n = q) then key else resolve_port_key q m.
Proof.
  unfold SerialManager.resolve_port_key. intros ->. case_decide as E; [subst|by rewrite lookup_insert_ne].
  by rewrite lookup_insert_eq.
Qed.

Lemma resolve_same m m' q : port_aliases m' = port_aliases m → resolve_port_key q m' = resolve_port_key q m.
Proof. unfold SerialManager.resolve_port_key. by intros ->. Qed.

Lemma rebind_all S T moves m c key s : single_moves S T moves → c ∈ S ∪ T → (c ∈ T → c ∉ S) →
  serves m c key s → (∀ o, o ∈ S → o ≠ c → resolve_port_key o m ≠ key) →
  (∀ mv, mv ∈ moves → pm_previous_port mv = c → opens_ok (pm_port mv)) →
  ∃ s', serves (foldl rebind_move m moves) (follow moves c) key s' ∧ logical s' = logical s ∧
    (follow moves c = c ∧ s' = s ∨ opened_at s' (follow moves c)).
Proof.
  revert S T m c s. induction moves as [|mv moves IH]; intros S T m c s; [intros; exists s; auto|].
  intros (H1 & H2 & H3) Hc HcT Hs Ha Ho. unfold follow. cbn [foldl]. fold (follow moves).
  pose proof (proj1 (rebind_move_spec m mv)) as Eb. case_decide as Hcp.
  - (* the device itself moves *)
    subst c. destruct Hs as [Hk Hse [tx Ht] Hp _ _].
    assert (moves_session m mv (rebind_move m mv)) as (f & Ea & Es & Hf).
    { eapply rebind_move_moves; [by rewrite Hk..|]. apply Ho; [by apply list_elem_of_here|done]. }
    rewrite Hk in Ea, Es. destruct (Hf s) as (El & Ep & Eo).
    destruct (IH (S ∖ {[pm_previous_port mv]}) ({[pm_port mv]} ∪ T) (rebind_move m mv) (pm_port mv) (f s))
      as (s' & Hs' & E' & Hw); [done|set_solver|set_solver| | | |].
    + split; [by rewrite (resolve_insert m _ (pm_port mv) key), decide_True| |by rewrite Eb; eexists|done|apply Eo|destruct Eo as (_ & h & ? & ? & _); eauto].
      by rewrite Es, lookup_alter_eq, Hse.
    + intros o Hoin Hne. rewrite (resolve_insert m _ (pm_port mv) key) by done. rewrite decide_False by done.
      apply Ha; set_solver.
    + intros mv' Hin E. apply (single_moves_source _ _ _ _ H3) in Hin. rewrite E in Hin. set_solver.
    + exists s'. split; [done|]. split; [by rewrite E'|]. right. destruct Hw as [[Ew ->]|Hw]; [|exact Hw].
      change (opened_at (f s) (follow moves (pm_port mv))). by rewrite Ew.
  - (* another device moves *)
    assert (resolve_port_key (pm_previous_port mv) m ≠ key) as Hne by (by apply Ha).
    assert (pm_port mv ≠ c) as Hnc by (intros <-; done).
    destruct Hs as [Hk Hse Ht Hp Hop Hha].
    assert (∀ q, q ≠ pm_port mv → resolve_port_key q (rebind_move m mv) = resolve_port_key q m) as Hq.
    { intros q Hq. destruct (rebind_move_spec m mv) as [_ [(f & Ea & _)|(Ea & _)]]; [|by apply resolve_same].
      rewrite (resolve_insert m _ _ _ q Ea). by rewrite decide_False. }
    destruct (IH (S ∖ {[pm_previous_port mv]}) ({[pm_port mv]} ∪ T) (rebind_move m mv) c s)
      as (s' & Hs' & E'); [done|set_solver|set_solver| | | |by exists s'].
    + split; [by rewrite Hq| |by rewrite Eb|done..].
      destruct (rebind_move_spec m mv) as [_ [(f & _ & Es & _)|(_ & Es & _)]]; rewrite Es; [|done].
      by rewrite lookup_alter_ne.
    + intros o Hoin Hoc. rewrite Hq; [apply Ha; set_solver|]. intros ->. set_solver.
    + intros mv' Hin E. apply Ho; [by apply list_elem_of_further|done].
Qed.

Context {HI : HashIter} {HIok : HashIterOk HI}.

(** C12: a refresh keeps a device's leases and its serial session together.
    Let the session [s] serve the device at port [c], let no other known
    port be resolved to it, let no moves be pending from before, and let the
    port to which the device moves, if it does, open.  After the refresh and
    the rebinding, the device has its leases at the port where the recorded
    moves lead, and the session serves it there, open, with the same clients,
    writer, owner and counters; when the device moved, its handle is the one
    got by opening that port. *)
Theorem session_follows_device now stamp ds (ctx : DaemonContext D) c d key s :
  let dm := device_manager ctx in
  let refresh := refresh_from_discovered now stamp ds in
  let after := refresh_and_rebind is_windows outcomes refresh ctx in
  let p := follow (recent_port_moves (refresh dm)) c in
  lease_inv (devices dm) → recent_port_moves dm = [] → devices dm !! c = Some d →
  serves (mgr (serial_manager ctx)) c key s →
  (∀ o, o ∈ dom (devices dm) → o ≠ c → resolve_port_key o (mgr (serial_manager ctx)) ≠ key) →
  (p ≠ c → opens_ok p) →
  (∃ d', devices (device_manager after) !! p = Some d' ∧ exclusive_lease d' = exclusive_lease d ∧
     monitor_leases d' = monitor_leases d) ∧
  ∃ s', serves (mgr (serial_manager after)) p key s' ∧ logical s' = logical s ∧ (p ≠ c → opened_at s' p).
Proof.
  intros dm refresh after p I E Hd Hs Ha Ho. split.
  - destruct (refresh_keeps_leases now stamp ds dm I) as (new & Er & H).
    rewrite E in Er. cbn [app] in Er. unfold p, refresh. rewrite Er.
    destruct (H c d Hd) as (d' & Hd' & H1 & H2). by exists d'.
  - pose proof (refresh_single now stamp ds dm E) as Hm. fold refresh in Hm.
    destruct (rebind_all (dom (devices dm)) ∅ (recent_port_moves (refresh dm)) (mgr (serial_manager ctx)) c key s)
      as (s' & Hs' & El & Hw); [done| |set_solver|done|done| |exists s'; split; [done|]; split; [done|]; intros Hpc; fold p in Hw; destruct Hw as [[Ew _]|]; done].
    + apply elem_of_union_l, elem_of_dom. by exists d.
    + intros mv Hin Hprev. pose proof (follow_move _ _ _ _ Hm Hin) as [Ef Hne]. rewrite Hprev in Ef, Hne.
      fold p in Ef. rewrite <- Ef. apply Ho. by rewrite Ef.
Qed.
End Rebind.

(** ** Concrete histories *)

#[local] Existing Instance fifo_mutex.

Definition handle7 (p : str) : nat → open_result := λ _, Opened 7.

(** Board A at COM1 is leased and monitored. *)
Definition monitored : DaemonContext unit :=
  set_serial (run0 [EvOpen (&"COM1") 115200 (&"ide") None t0; EvOpened 0 (opens 1) t0;
      EvAttach (&"COM1") (&"ide") None t0] start)
    (set_devices demo_before (new_context 0)).

Lemma session_follows_device_witness :
  ∃ s', sessions (mgr (serial_manager (refresh_and_rebind false handle7
    (refresh_from_discovered (f64_of_Z 3) (λ _, 3%Z) demo_scan) monitored))) !! &"COM1" = Some s' ∧
    session_port s' = &"COM3" ∧ opened_at false handle7 s' (&"COM3").
Proof.
  destruct (sessions (mgr (serial_manager monitored)) !! &"COM1") as [s|] eqn:Hs; [|by vm_compute in Hs].
  destruct (devices demo_before !! &"COM1") as [d|] eqn:Hd; [|by vm_compute in Hd].
  assert (is_open s = true ∧ ∃ h, serial_handle s = Some h ∧ h_port h = &"COM1") as [Hop Hha].
  { assert (match sessions (mgr (serial_manager monitored)) !! &"COM1" with
            | Some s => is_open s = true ∧ match serial_handle s with Some h => h_port h = &"COM1" | None => False end
            | None => False end) as Hp by (vm_compute; by split).
    rewrite Hs in Hp. clear Hs. destruct Hp as [Ho Hp]. split; [exact Ho|]. destruct (serial_handle s) as [h|]; [exists h; split; [reflexivity|exact Hp]|destruct Hp]. }
  assert (follow (recent_port_moves (refresh_from_discovered (f64_of_Z 3) (λ _, 3%Z) demo_scan demo_before)) (&"COM1")
    = &"COM3") as Ef by by vm_compute.
  destruct (session_follows_device false handle7 (f64_of_Z 3) (λ _, 3%Z) demo_scan monitored (&"COM1") d (&"COM1") s)
    as (_ & s' & Hs' & _ & Hw).
  - exact demo_before_inv.
  - by vm_compute.
  - exact Hd.
  - split; [by vm_compute|exact Hs|apply (bool_decide_unpack _); by vm_compute|..].
    2: exact Hop.
    2: exact Hha.
    assert (session_port <$> sessions (mgr (serial_manager monitored)) !! &"COM1" = Some (&"COM1")) as Hp by by vm_compute.
    rewrite Hs in Hp. by injection Hp.
  - assert (set_Forall (λ o, o ≠ &"COM1" → resolve_port_key o (mgr (serial_manager monitored)) ≠ &"COM1")
      (dom (devices demo_before))) as HF by (apply (bool_decide_unpack _); by vm_compute).
    exact HF.
  - intros _. exists 7. by vm_compute.
  - change (device_manager monitored) with demo_before in Hs', Hw. rewrite Ef in Hs', Hw. exists s'.
    split; [exact (sv_session _ _ _ _ Hs')|]. split; [exact (sv_port _ _ _ _ Hs')|]. by apply Hw.
Defined.

(** Finding: after A moved from COM1 to COM3 its session is still kept under
    the name COM1.  When another leased board, plugged in at COM1, moves on
    to COM4, the daemon rebinds A's session to it: A's clients now read and
    write the other board, while A's device and leases stay at COM3. *)
Definition captured : DaemonContext unit :=
  let scan n l := refresh_and_rebind false handle7
    (refresh_from_discovered (f64_of_Z n) (λ _, n) (discover no_names no_driver <$> l)) in
  let c := scan 3%Z [usb_entry (&"COM3") (&"A"); usb_entry (&"COM1") (&"C")] monitored in
  let c := set_devices (acquire_exclusive (&"COM1") (&"cli") (&"watch") true (&"u2") (f64_of_Z 4) (device_manager c)).2 c in
  scan 5%Z [usb_entry (&"COM3") (&"A"); usb_entry (&"COM4") (&"C")] c.

Lemma session_captured :
  (exclusive_lease <$> devices (device_manager captured) !! &"COM3") = Some (Some lease1) ∧
  (session_port <$> sessions (mgr (serial_manager captured)) !! &"COM1") = Some (&"COM4").
Proof. split; by vm_compute. Qed.
