(* ===== verification/DaemonLocks.v ===== *)
(** * [fbuild-daemon/src/handlers/locks.rs]

    Which serial sessions count as stale, and the request that clears locks.
    Whether a process is alive is the argument [pid_alive]; what other calls
    do while a close waits for its reader is the argument [between]. *)
From S2P Require Import Prelude RustStr CachePaths SerialReader SerialManager SerialWorld DaemonContext.
From stdpp Require Import sorting.

(** ** Requests and responses: lock_models.rs *)

Record ClearLocksRequest := {
  rq_serial : bool; rq_stale : bool; rq_port : option str; rq_client_id : option str; rq_force : bool }.

Record ClearLocksResponse := {
  rs_success : bool; rs_cleared_count : nat; rs_cleared_project_count : nat; rs_cleared_serial_count : nat;
  rs_cleared_serial_sessions : list str; rs_refused : list str; rs_message : str }.

Record ProjectLockInfo := { pl_project_dir : str; pl_is_held : bool }.

Section Locks.
Context (is_windows : bool) (pid_alive : Z → bool).

Definition port_matches (actual requested : str) : bool :=
  if is_windows then bool_decide (to_ascii_lowercase actual = to_ascii_lowercase requested)
  else bool_decide (actual = requested).

Definition session_matches_request (session : PortSessionInfo) (request : ClearLocksRequest) : bool :=
  let port_matches_request :=
    match rq_port request with Some p => port_matches (ps_port session) p | None => false end in
  let client_matches_request :=
    match rq_client_id request with
    | Some c =>
        bool_decide (ps_owner_client_id session = Some c) || bool_decide (ps_writer_client_id session = Some c)
        || bool_decide (c ∈ ps_reader_client_ids session)
        || bool_decide (c ∈ ci_client_id <$> ps_clients session)
    | None => false
    end in
  match rq_port request, rq_client_id request with
  | None, None => rq_serial request && rq_stale request
  | _, _ => port_matches_request || client_matches_request
  end.

(** The pid the client [c] reported, [clients.iter().find(..)]. *)
Definition client_pid (session : PortSessionInfo) (c : str) : option Z :=
  info ← find (λ i, bool_decide (ci_client_id i = c)) (ps_clients session);
  md_pid (ci_metadata info).

Definition known_pids (session : PortSessionInfo) : list Z :=
  omap (λ i, md_pid (ci_metadata i)) (ps_clients session).

Definition owner_pid (session : PortSessionInfo) : option Z :=
  ps_owner_client_id session ≫= client_pid session.

Definition session_stale_reason (session : PortSessionInfo) : option str :=
  if decide (ps_writer_client_id session = None ∧ ps_reader_count session = 0) then
    Some (&"no active reader or writer clients")
  else
    match owner_pid session with
    | Some pid => if pid_alive pid then None else Some (&"owner pid " ++ decimal pid ++ &" is no longer running")
    | None =>
        let pids := known_pids session in
        if bool_decide (pids ≠ []) && forallb (λ pid, negb (pid_alive pid)) pids then
          Some (&"all known client pid(s) are gone: " ++ RustStr.join (&", ") (decimal <$> pids))
        else None
    end.

Definition live_refusal_reason (session : PortSessionInfo) : str :=
  match ps_owner_client_id session, owner_pid session with
  | Some owner, Some pid =>
      if pid_alive pid then &"owner client " ++ owner ++ &" pid " ++ decimal pid ++ &" is still running"
      else &"at least one attached client pid is still running"
  | _, _ =>
      if bool_decide (known_pids session = []) then &"no stale evidence available for active session"
      else &"at least one attached client pid is still running"
  end.

(** The part of [lock_status] that judges: held project locks, and the
    sorted list of stale sessions. *)
Definition stale_locks (sessions : list PortSessionInfo) : list str :=
  merge_sort str_le (omap (λ s, r ← session_stale_reason s; Some (&"serial " ++ ps_port s ++ &": " ++ r)) sessions).

Context {AM : AsyncMutex} {D : Type} {HI : HashIter}.
Implicit Types m : SharedSerialManager D.

Definition project_lock_infos (ctx : DaemonContext D) : list ProjectLockInfo :=
  (λ kl : str * nat, {| pl_project_dir := kl.1; pl_is_held := negb (try_lock kl.2 ctx) |}) <$> hm_iter (project_locks ctx).

(** ** Closing the matching sessions *)

(** Whether the session is closed, on the evidence of its snapshot. *)
Definition doomed (request : ClearLocksRequest) (session : PortSessionInfo) : bool :=
  session_matches_request session request &&
  (bool_decide (is_Some (session_stale_reason session)) || rq_force request).

Definition refusal (session : PortSessionInfo) : str :=
  &"refused to close serial " ++ ps_port session ++ &": " ++ live_refusal_reason session
  ++ &"; pass --force with --port/--client-id to close it".

Context (between : str → SharedSerialManager D → SharedSerialManager D).

(** [close_port], with what runs while it waits. *)
Definition close_port_between (p : str) m : SharedSerialManager D :=
  let '(key, taken, m) := close_begin p m in
  close_end key (if close_waits taken then between p m else m).

(** The loop over the snapshot: the sessions cleared, the refusals, and
    whether any session matched.  [close_port] never fails. *)
Fixpoint clear_sessions (request : ClearLocksRequest) (snapshot : list PortSessionInfo) m :
    list str * list str * bool * SharedSerialManager D :=
  match snapshot with
  | [] => ([], [], false, m)
  | session :: snapshot =>
      if negb (session_matches_request session request) then clear_sessions request snapshot m
      else if negb (bool_decide (is_Some (session_stale_reason session))) && negb (rq_force request) then
        let '(cleared, refused, _, m) := clear_sessions request snapshot m in
        (cleared, refusal session :: refused, true, m)
      else
        let '(cleared, refused, _, m) := clear_sessions request snapshot (close_port_between (ps_port session) m) in
        (ps_port session :: cleared, refused, true, m)
  end.

(** The serial part of [clear_locks]. *)
Definition clear_serial (request : ClearLocksRequest) m : list str * list str * SharedSerialManager D :=
  let targeted := bool_decide (is_Some (rq_port request)) || bool_decide (is_Some (rq_client_id request)) in
  let serial_requested := rq_serial request || rq_stale request || rq_force request || targeted in
  if rq_force request && negb targeted then ([], [&"--force requires --port or --client-id"], m)
  else if serial_requested && negb (rq_stale request) && negb targeted then
    ([], [&"serial cleanup requires --stale, --port, or --client-id"], m)
  else if serial_requested then
    let '(cleared, refused, matched_any, m) := clear_sessions request (get_port_sessions m) m in
    (cleared, if matched_any : bool then refused else refused ++ [&"no matching serial sessions found"], m)
  else ([], [], m).

Definition clear_message (cleared : nat) (refused : list str) : str :=
  match refused, cleared with
  | _ :: _, O => &"No locks cleared; " ++ RustStr.join (&"; ") refused
  | _ :: _, _ => &"Cleared " ++ show_nat cleared ++ &" lock(s); " ++ RustStr.join (&"; ") refused
  | [], S _ => &"Cleared " ++ show_nat cleared ++ &" stale lock(s)"
  | [], O => &"No stale locks found"
  end.

Definition clear_locks (request : ClearLocksRequest) (ctx : DaemonContext D) : ClearLocksResponse * DaemonContext D :=
  let '(projects, ctx) := clear_project_locks ctx in
  let w := serial_manager ctx in
  let '(cleared, refused, m) := clear_serial request (mgr w) in
  let count := projects + length cleared in
  ({| rs_success := true; rs_cleared_count := count; rs_cleared_project_count := projects;
      rs_cleared_serial_count := length cleared; rs_cleared_serial_sessions := cleared; rs_refused := refused;
      rs_message := clear_message count refused |},
   set_serial (MkWorld m (tasks w) (next_task w)) ctx).
End Locks.
