(* ===== verification/DaemonStale.v ===== *)
(** * Clearing locks closes the stale sessions and no others

    The effect of the request on the serial manager, session by session, and
    that without force it never closes a session whose owner is alive. *)
From S2P Require Import Prelude RustStr CachePaths SerialReader SerialManager SerialWorld SerialFacts DaemonContext DaemonRun DaemonLocks.
From stdpp Require Import sorting.

(** ** The owner's pid *)

Lemma find_Some_iff {A} (f : A → bool) l x : find f l = Some x → x ∈ l ∧ f x = true.
Proof.
  induction l as [|a l IH]; cbn; [done|]. destruct (f a) eqn:E.
  - intros [= ->]. split; [by apply list_elem_of_here|done].
  - intros [? ?]%IH. split; [by apply list_elem_of_further|done].
Qed.

Lemma find_elem {A} (f : A → bool) l x : x ∈ l → f x = true → is_Some (find f l).
Proof.
  induction l as [|a l IH]; [by intros ?%elem_of_nil|]. cbn. destruct (f a) eqn:E; [by eexists|].
  intros [->|Hin]%elem_of_cons Hf; [congruence|auto].
Qed.

Lemma elem_of_clients {D} (m : SharedSerialManager D) k s i : i ∈ ps_clients (session_info m k s) ↔
  client_metadata s !! ci_client_id i = Some (ci_metadata i).
Proof.
  unfold session_info. cbn [ps_clients]. rewrite list_elem_of_fmap. setoid_rewrite (merge_sort_Permutation _ _).
  split.
  - by intros ([c md] & -> & Hin%elem_of_map_to_list).
  - intros Hi. exists (ci_client_id i, ci_metadata i). split; [by destruct i|by apply elem_of_map_to_list].
Qed.

Lemma owner_pid_info {D} (m : SharedSerialManager D) k s o md : owner_client_id s = Some o →
  client_metadata s !! o = Some md → owner_pid (session_info m k s) = md_pid md.
Proof.
  intros Ho Hm. unfold owner_pid. cbn [session_info ps_owner_client_id]. rewrite Ho. cbn [mbind option_bind].
  unfold client_pid.
  destruct (find _ _) as [i|] eqn:E.
  - cbn [mbind option_bind]. apply find_Some_iff in E as [Hi Hc]. apply bool_decide_eq_true in Hc.
    apply elem_of_clients in Hi. congruence.
  - exfalso. assert (is_Some (find (λ i, bool_decide (ci_client_id i = o)) (ps_clients (session_info m k s)))) as [x Hx].
    { apply find_elem with {| ci_client_id := o; ci_metadata := md |};
        [by apply elem_of_clients|by apply bool_decide_eq_true]. }
    congruence.
Qed.

Section Stale.
Context (is_windows : bool) (pid_alive : Z → bool) {AM : AsyncMutex} {D : Type} {HI : HashIter} {HIok : HashIterOk HI}.
Context (between : str → SharedSerialManager D → SharedSerialManager D).
Implicit Types m : SharedSerialManager D.
Implicit Types k : str.
Implicit Types s : SerialSession.

Notation doomed := (doomed is_windows pid_alive).
Notation close_port_between := (close_port_between between).
Notation clear_sessions := (clear_sessions is_windows pid_alive between).

(** A client is attached, and the process that opened the port runs. *)
Definition owner_alive s : Prop :=
  (writer_client_id s ≠ None ∨ reader_client_ids s ≠ ∅) ∧
  ∃ o md pid, owner_client_id s = Some o ∧ client_metadata s !! o = Some md ∧ md_pid md = Some pid ∧ pid_alive pid = true.

Lemma owner_alive_not_stale m k s : owner_alive s → session_stale_reason pid_alive (session_info m k s) = None.
Proof.
  intros [Hc (o & md & pid & Ho & Hm & Hp & Ha)]. unfold session_stale_reason. rewrite decide_False.
  - by rewrite (owner_pid_info m k s o md), Hp, Ha.
  - cbn [session_info ps_writer_client_id ps_reader_count]. intros [Hw Hr]. apply size_empty_inv in Hr.
    destruct Hc; [done|]. set_solver.
Qed.

(** ** Closing sessions by their port names *)

(** The port name of every session leads to the session. *)
Definition ports_resolve m : Prop := ∀ k s, sessions m !! k = Some s → resolve_port_key (port s) m = k.

(** What runs during a wait leaves sessions and their names alone. *)
Definition quiet : Prop := ∀ p m, sessions (between p m) = sessions m ∧
  ∀ k s, sessions m !! k = Some s → resolve_port_key (port s) (between p m) = resolve_port_key (port s) m.

Lemma resolve_close_end p key m : resolve_port_key p m ≠ key → resolve_port_key p (close_end key m) = resolve_port_key p m.
Proof.
  unfold close_end, resolve_port_key. mgr_simpl. destruct (port_aliases m !! p) as [a|] eqn:E; cbn [default from_option id].
  - intros Hne. rewrite (proj2 (map_lookup_filter_Some _ _ _ a)); [done|]. by split.
  - intros _. destruct (filter _ (port_aliases m) !! p) as [a|] eqn:E'; [|done].
    apply map_lookup_filter_Some in E' as [? _]. congruence.
Qed.

Lemma close_port_between_spec m k s : quiet → ports_resolve m → sessions m !! k = Some s →
  sessions (close_port_between (port s) m) = delete k (sessions m) ∧ ports_resolve (close_port_between (port s) m).
Proof.
  intros Hq Hr Hs. unfold DaemonLocks.close_port_between, close_begin. rewrite (Hr k s Hs). mgr_simpl. rewrite Hs.
  set (m1 := set_flags _ _). set (m2 := if close_waits (Some s) then _ else _).
  assert (sessions m1 = delete k (sessions m)) as E1 by done.
  assert (ports_resolve m1) as R1.
  { intros k' s' Hk. rewrite E1 in Hk. apply lookup_delete_Some in Hk as [_ Hk]. exact (Hr k' s' Hk). }
  assert (sessions m2 = sessions m1 ∧ ∀ k s, sessions m1 !! k = Some s →
    resolve_port_key (port s) m2 = resolve_port_key (port s) m1) as [E2 R2] by (unfold m2; by destruct (close_waits _)).
  split; [exact (eq_trans E2 E1)|].
  intros k' s' Hk. change (sessions (close_end k m2)) with (sessions m2) in Hk. rewrite E2 in Hk.
  rewrite resolve_close_end; rewrite (R2 k' s' Hk); [exact (R1 k' s' Hk)|].
  rewrite (R1 k' s' Hk). intros ->. rewrite E1, lookup_delete_eq in Hk. done.
Qed.

(** The loop on the snapshot of the sessions [l]. *)
Lemma clear_sessions_spec request m0 l : ∀ m, quiet → ports_resolve m → NoDup l.*1 →
  (∀ k s, (k, s) ∈ l → sessions m !! k = Some s) →
  ∀ k, sessions (clear_sessions request ((λ ks : str * SerialSession, session_info m0 ks.1 ks.2) <$> l) m).2 !! k =
    s ← sessions m !! k;
    if bool_decide (k ∈ l.*1) && doomed request (session_info m0 k s) then None else Some s.
Proof.
  induction l as [|[k0 s0] l IH]; intros m Hq Hr Hn Hl k; cbn [fmap list_fmap DaemonLocks.clear_sessions].
  - cbn [fst snd]. rewrite (bool_decide_false (k ∈ []) (not_elem_of_nil k)). by destruct (sessions m !! k).
  - apply NoDup_cons in Hn as [Hk0 Hn]. cbn [fst snd] in *. set (info := session_info m0 k0 s0).
    assert (sessions m !! k0 = Some s0) as Hs0 by (apply Hl, list_elem_of_here).
    assert (∀ k s, (k, s) ∈ l → sessions m !! k = Some s) as Hl' by (intros; by apply Hl, list_elem_of_further).
    destruct (doomed request info) eqn:Ed.
    + (* closed *)
      assert (negb (session_matches_request is_windows info request) = false ∧
        negb (bool_decide (is_Some (session_stale_reason pid_alive info))) && negb (rq_force request) = false) as [-> ->].
      { unfold DaemonLocks.doomed in Ed. apply andb_true_iff in Ed as [-> Ed]. split; [done|].
        by destruct (bool_decide _), (rq_force request). }
      change (ps_port info) with (port s0).
      destruct (close_port_between_spec m k0 s0 Hq Hr Hs0) as [Es Hr'].
      specialize (IH (close_port_between (port s0) m) Hq Hr' Hn).
      destruct (clear_sessions request _ (close_port_between (port s0) m)) as [[[? ?] ?] m'] eqn:Em.
      cbn [snd] in IH |- *. rewrite IH.
      * rewrite Es. destruct (decide (k = k0)) as [->|Hne].
        -- rewrite lookup_delete_eq, Hs0. cbn [mbind option_bind]. fold info. rewrite Ed.
           rewrite bool_decide_true by (by apply list_elem_of_here). done.
        -- rewrite lookup_delete_ne by done. destruct (sessions m !! k) as [s|]; [|done]. cbn [mbind option_bind].
           by rewrite (bool_decide_ext (k ∈ k0 :: l.*1) (k ∈ l.*1)) by (rewrite elem_of_cons; tauto).
      * intros k' s' Hin. rewrite Es, lookup_delete_ne; [by apply Hl'|]. intros ->. apply Hk0.
        by apply (list_elem_of_fmap_2 fst) in Hin.
    + (* kept *)
      assert (sessions (clear_sessions request ((λ ks : str * SerialSession, session_info m0 ks.1 ks.2) <$> l) m).2 !! k =
        s ← sessions m !! k;
        if bool_decide (k ∈ k0 :: l.*1) && doomed request (session_info m0 k s) then None else Some s) as E.
      { rewrite IH by done. destruct (decide (k = k0)) as [->|Hne].
        - rewrite Hs0. cbn [mbind option_bind]. fold info. by rewrite Ed, !andb_false_r.
        - by rewrite (bool_decide_ext (k ∈ k0 :: l.*1) (k ∈ l.*1)) by (rewrite elem_of_cons; tauto). }
      destruct (session_matches_request is_windows info request) eqn:Em; cbn [negb]; [|exact E].
      assert (negb (bool_decide (is_Some (session_stale_reason pid_alive info))) && negb (rq_force request) = true) as ->.
      { unfold DaemonLocks.doomed in Ed. rewrite Em in Ed. cbn [andb] in Ed. apply orb_false_iff in Ed as [-> ->]. done. }
      destruct (clear_sessions request _ m) as [[[? ?] ?] m']. exact E.
Qed.
(** A request names a port or client, or asks for stale sessions without
    force. *)
Definition accepted (request : ClearLocksRequest) : bool :=
  bool_decide (is_Some (rq_port request)) || bool_decide (is_Some (rq_client_id request))
  || (rq_stale request && negb (rq_force request)).

Lemma get_port_sessions_elem m k s : (k, s) ∈ hm_iter (sessions m) ↔ sessions m !! k = Some s.
Proof. by rewrite (hm_iter_perm (sessions m)), elem_of_map_to_list. Qed.

Lemma clear_serial_spec request m : quiet → ports_resolve m → ∀ k,
  sessions (clear_serial is_windows pid_alive between request m).2 !! k =
    s ← sessions m !! k;
    if accepted request && doomed request (session_info m k s) then None else Some s.
Proof.
  intros Hq Hr k. unfold clear_serial, accepted. set (targeted := _ || _).
  assert (∀ m', m' = m → sessions m' !! k = s ← sessions m !! k; Some s) as Hsame by (intros m' ->; by destruct (sessions m !! k)).
  pose proof (clear_sessions_spec request m (hm_iter (sessions m)) m Hq Hr) as H.
  assert (NoDup (hm_iter (sessions m)).*1) as Hn by (rewrite (hm_iter_perm (sessions m)); apply NoDup_fst_map_to_list).
  specialize (H Hn (λ k s, proj1 (get_port_sessions_elem m k s)) k). unfold get_port_sessions.
  assert (∀ s, sessions m !! k = Some s → bool_decide (k ∈ (hm_iter (sessions m)).*1) = true) as Hk.
  { intros s Hs. apply bool_decide_eq_true. apply (list_elem_of_fmap_2 fst _ (k, s)). by apply get_port_sessions_elem. }
  assert (sessions (let '(cleared, refused, matched_any, m) := clear_sessions request
      ((λ kv : str * SerialSession, session_info m kv.1 kv.2) <$> hm_iter (sessions m)) m in
    (cleared, if matched_any : bool then refused else refused ++ [&"no matching serial sessions found"], m)).2 !! k =
    s ← sessions m !! k; if doomed request (session_info m k s) then None else Some s) as Hmain.
  { destruct (clear_sessions request _ m) as [[[? ?] ?] m']. cbn [snd] in H |- *. rewrite H.
    destruct (sessions m !! k) as [s|] eqn:Es; [|done]. cbn [mbind option_bind]. by rewrite (Hk s). }
  clear H. destruct targeted eqn:Et, (rq_force request), (rq_stale request), (rq_serial request);
    cbn [negb andb orb]; first [exact Hmain|by apply Hsame].
Qed.

Lemma clear_project_lock_spec key (ctx : DaemonContext D) : let c := (clear_project_lock key ctx).2 in locks c = locks ctx ∧
  ∀ key', project_locks c !! key' = l ← project_locks ctx !! key';
    if bool_decide (key = key') && try_lock l ctx then None else Some l.
Proof.
  unfold clear_project_lock. destruct (project_locks ctx !! key) as [l|] eqn:E; [destruct (try_lock l ctx) eqn:Et|];
    (split; [done|]); intros key'; cbn [project_locks set_locks snd];
    (destruct (decide (key = key')) as [<-|Hk]; [rewrite bool_decide_true by done|rewrite bool_decide_false by done]);
    rewrite ?lookup_delete_eq, ?lookup_delete_ne by done; rewrite ?E; cbn; rewrite ?Et; try done; by destruct (_ !! key').
Qed.

(** The loop keeps the locks that are taken. *)
Lemma clear_project_locks_spec (ctx : DaemonContext D) key : project_locks (clear_project_locks ctx).2 !! key =
  l ← project_locks ctx !! key; if try_lock l ctx then None else Some l.
Proof.
  unfold clear_project_locks. set (f := λ acc k, _).
  assert (∀ ks acc, project_locks (foldl f acc ks).2 !! key =
    l ← project_locks acc.2 !! key; if bool_decide (key ∈ ks) && try_lock l acc.2 then None else Some l) as Hf.
  { induction ks as [|k ks IH]; intros acc; cbn [foldl]; [by destruct (project_locks acc.2 !! key)|].
    rewrite IH. destruct (clear_project_lock_spec k acc.2) as [El Ep].
    assert ((f acc k).2 = (clear_project_lock k acc.2).2) as -> by (unfold f; by destruct (clear_project_lock k acc.2)).
    rewrite Ep. destruct (project_locks acc.2 !! key) as [l|]; [|done]. cbn [mbind option_bind]. unfold try_lock. rewrite El.
    destruct (decide (k = key)) as [->|Hne].
    - rewrite (bool_decide_true (key = key)), (bool_decide_true (key ∈ key :: ks)) by set_solver. cbn [andb].
      destruct (locks acc.2 !! l) as [k|] eqn:Ek; [destruct (mutex_try_lock k) eqn:Et|];
        cbn [mbind option_bind]; rewrite ?Ek, ?Et; by rewrite ?andb_false_r.
    - rewrite (bool_decide_false (k = key)) by done. cbn [andb mbind option_bind].
      rewrite (bool_decide_ext (key ∈ k :: ks) (key ∈ ks)); [done|]. rewrite elem_of_cons. intuition congruence. }
  rewrite Hf. cbn [snd]. destruct (project_locks ctx !! key) as [l|] eqn:E; [|done]. cbn [mbind option_bind].
  rewrite bool_decide_true; [done|]. apply (list_elem_of_fmap_2 fst _ (key, l)).
  by rewrite (hm_iter_perm (project_locks ctx)), elem_of_map_to_list.
Qed.

(** ** What the request says, read on the sessions themselves *)

(** The client [c] of the session reported the process [pid]. *)
Definition reported s c pid : Prop := ∃ md, client_metadata s !! c = Some md ∧ md_pid md = Some pid.
Definition owned_by s pid : Prop := ∃ o, owner_client_id s = Some o ∧ reported s o pid.
(** Nobody is attached; or the process of the owner is known and gone; or that
    is not known, but those of some clients are, and all of these are gone. *)
Definition stale s : Prop :=
  (writer_client_id s = None ∧ reader_client_ids s = ∅) ∨
  (∃ pid, owned_by s pid ∧ pid_alive pid = false) ∨
  ((¬ ∃ pid, owned_by s pid) ∧ (∃ c pid, reported s c pid) ∧ ∀ c pid, reported s c pid → pid_alive pid = false).

Definition has_client s c : Prop :=
  owner_client_id s = Some c ∨ writer_client_id s = Some c ∨ c ∈ reader_client_ids s ∨ is_Some (client_metadata s !! c).
Definition same_port (p q : str) : Prop := if is_windows then to_ascii_lowercase p = to_ascii_lowercase q else p = q.
(** The request is about the session: by its port or a client of it, or, when
    it names neither, as one about stale serial sessions. *)
Definition is_about (request : ClearLocksRequest) s : Prop :=
  (∃ p, rq_port request = Some p ∧ same_port (port s) p) ∨
  (∃ c, rq_client_id request = Some c ∧ has_client s c) ∨
  (rq_port request = None ∧ rq_client_id request = None ∧ rq_serial request = true ∧ rq_stale request = true).
(** Force needs a port or a client. *)
Definition to_close (request : ClearLocksRequest) s : Prop :=
  is_about request s ∧ (stale s ∨ rq_force request = true) ∧
  ¬ (rq_force request = true ∧ rq_port request = None ∧ rq_client_id request = None).

Lemma owner_pid_owned m k s pid : owner_pid (session_info m k s) = Some pid ↔ owned_by s pid.
Proof.
  split.
  - unfold owner_pid. cbn [session_info ps_owner_client_id]. destruct (owner_client_id s) as [o|] eqn:Eo; [|done].
    cbn [mbind option_bind]. unfold client_pid. destruct (find _ _) as [i|] eqn:E; [|done]. cbn [mbind option_bind].
    apply find_Some_iff in E as [Hi%elem_of_clients Hc%bool_decide_eq_true]. intros Hp. exists o. split; [done|].
    exists (ci_metadata i). by rewrite <- Hc.
  - intros (o & Ho & md & Hm & Hp). by rewrite (owner_pid_info m k s o md).
Qed.
Lemma known_pids_reported m k s pid : pid ∈ known_pids (session_info m k s) ↔ ∃ c, reported s c pid.
Proof.
  unfold known_pids. rewrite list_elem_of_omap. split.
  - intros (i & Hi%elem_of_clients & Hp). by exists (ci_client_id i), (ci_metadata i).
  - intros (c & md & Hm & Hp). exists {| ci_client_id := c; ci_metadata := md |}. split; [by apply elem_of_clients|done].
Qed.

Lemma stale_reason_iff m k s : is_Some (session_stale_reason pid_alive (session_info m k s)) ↔ stale s.
Proof.
  unfold session_stale_reason, stale. cbn [session_info ps_writer_client_id ps_reader_count]. case_decide as Hn.
  { split; [intros _; left|by eexists]. destruct Hn as [Hw Hr]. split; [done|]. by apply leibniz_equiv, size_empty_inv. }
  assert (¬ (writer_client_id s = None ∧ reader_client_ids s = ∅)) as Hne.
  { intros [Hw Hr]. apply Hn. split; [done|]. by rewrite Hr, size_empty. }
  destruct (owner_pid _) as [pid|] eqn:Eo.
  - apply owner_pid_owned in Eo. destruct (pid_alive pid) eqn:Ea.
    + split; [by intros [? ?]|]. intros [?|[(pid' & Ho & Hd)|[Hno _]]]; [done| |by destruct Hno; exists pid]. apply (owner_pid_owned m k) in Ho, Eo. congruence.
    + split; [intros _; right; left; by exists pid|by eexists].
  - assert (¬ ∃ pid, owned_by s pid) as Hno by (intros [pid Hp%(owner_pid_owned m k)]; congruence). cbv zeta.
    pose proof (known_pids_reported m k s) as Hk. destruct (bool_decide_reflect (known_pids (session_info m k s) ≠ [])) as [Hp|Hp]; cbn [andb].
    + destruct (forallb _ _) eqn:Ef.
      * split; [|by eexists]. intros _. right; right. split; [done|]. split.
        { destruct (known_pids (session_info m k s)) as [|pid l]; [done|]. destruct (proj1 (Hk pid)) as [c Hc]; [left|]. by exists c, pid. }
        intros c pid Hc. rewrite forallb_forall in Ef. apply negb_true_iff, Ef, list_elem_of_In, Hk. by exists c.
      * split; [by intros [? ?]|]. intros [?|[(pid & Ho & _)|(_ & _ & Hd)]]; [done|by destruct Hno; exists pid|]. exfalso. apply not_true_iff_false in Ef. apply Ef.
        apply forallb_forall. intros pid Hin%list_elem_of_In%Hk. destruct Hin as [c Hc]. apply negb_true_iff. by apply (Hd c).
    + split; [by intros [? ?]|]. apply dec_stable in Hp.
      intros [?|[(pid & Ho & _)|(_ & (c & pid & Hc) & _)]]; [done|by destruct Hno; exists pid|]. exfalso.
      assert (pid ∈ known_pids (session_info m k s)) as Hin by (apply Hk; by exists c). rewrite Hp in Hin. by apply not_elem_of_nil in Hin.
Qed.

Lemma ex_Some {A} (x : A) (P : A → Prop) : (∃ y, Some x = Some y ∧ P y) ↔ P x.
Proof. split; [by intros (? & [= <-] & ?)|by exists x]. Qed.
Lemma ex_None {A} (P : A → Prop) : (∃ y, None = Some y ∧ P y) ↔ False.
Proof. by split; [intros (? & ? & _)|]. Qed.

Lemma matches_iff m k s request : session_matches_request is_windows (session_info m k s) request = true ↔ is_about request s.
Proof.
  unfold session_matches_request, is_about. cbv zeta.
  assert (∀ p, port_matches is_windows (ps_port (session_info m k s)) p = true ↔ same_port (port s) p) as Hp.
  { intros p. unfold port_matches, same_port. cbn [session_info ps_port]. destruct is_windows; apply bool_decide_eq_true. }
  assert (∀ c, bool_decide (ps_owner_client_id (session_info m k s) = Some c) || bool_decide (ps_writer_client_id (session_info m k s) = Some c)
      || bool_decide (c ∈ ps_reader_client_ids (session_info m k s)) || bool_decide (c ∈ ci_client_id <$> ps_clients (session_info m k s)) = true
      ↔ has_client s c) as Hc.
  { intros c. rewrite !orb_true_iff, !bool_decide_eq_true. unfold has_client.
    assert (c ∈ ps_reader_client_ids (session_info m k s) ↔ c ∈ reader_client_ids s) as ->
      by (cbn [session_info ps_reader_client_ids]; by rewrite (merge_sort_Permutation _ _), elem_of_elements).
    assert (c ∈ ci_client_id <$> ps_clients (session_info m k s) ↔ is_Some (client_metadata s !! c)) as ->; [|cbn [session_info ps_owner_client_id ps_writer_client_id]; tauto].
    rewrite list_elem_of_fmap. split; [intros (i & -> & Hi%elem_of_clients); by eexists|].
    intros [md Hm]. exists {| ci_client_id := c; ci_metadata := md |}. split; [done|]. by apply elem_of_clients. }
  destruct (rq_port request) as [p|], (rq_client_id request) as [c|]; rewrite ?ex_Some, ?ex_None.
  - rewrite orb_true_iff, Hp, Hc. intuition congruence.
  - rewrite orb_false_r, Hp. intuition congruence.
  - rewrite orb_false_l, Hc. intuition congruence.
  - rewrite andb_true_iff. tauto.
Qed.

Lemma closing_iff m k s request : accepted request && doomed request (session_info m k s) = true ↔ to_close request s.
Proof.
  unfold DaemonLocks.doomed, to_close, accepted.
  rewrite !andb_true_iff, !orb_true_iff, andb_true_iff, negb_true_iff, !bool_decide_eq_true, matches_iff, stale_reason_iff, <- !not_eq_None_Some.
  unfold is_about. destruct (rq_port request) as [p|], (rq_client_id request) as [c|]; rewrite ?ex_Some, ?ex_None;
    generalize (stale s); intros S; try generalize (same_port (port s) p); try generalize (has_client s c); intros;
    destruct (rq_force request); intuition congruence.
Qed.

(** C26: clearing locks is exact.  If the names of the sessions are resolved
    to them and nothing else closes or renames sessions meanwhile, the
    request removes the sessions that it is about and that are stale, or it
    forces, and leaves every other session as it was.  A session is stale if
    nobody is attached to it, if its owner's process is known and gone, or if
    that is not known, but those of some of its clients are and all of these
    are gone; force needs a port or a client.  In particular, without force
    every session with a client whose owning process runs is spared.  Of the
    project locks it removes those that are free. *)
Theorem clear_locks_exact request (ctx : DaemonContext D) :
  let m := mgr (serial_manager ctx) in
  let ctx' := (clear_locks is_windows pid_alive between request ctx).2 in
  let m' := mgr (serial_manager ctx') in
  quiet → ports_resolve m →
  (∀ k, sessions m !! k = None → sessions m' !! k = None) ∧
  (∀ k s, sessions m !! k = Some s →
     (to_close request s → sessions m' !! k = None) ∧ (¬ to_close request s → sessions m' !! k = Some s)) ∧
  (rq_force request = false → ∀ k s, sessions m !! k = Some s → owner_alive s → sessions m' !! k = Some s) ∧
  (∀ key, project_locks ctx' !! key = l ← project_locks ctx !! key; if try_lock l ctx then None else Some l).
Proof.
  intros m ctx' m' Hq Hr.
  assert (sessions m' = sessions (clear_serial is_windows pid_alive between request m).2 ∧
    project_locks ctx' = project_locks (clear_project_locks ctx).2) as [E1 E2].
  { subst m ctx' m'. unfold clear_locks.
    destruct (clear_project_locks_only ctx) as (pl & ls & n & E).
    destruct (clear_project_locks ctx) as [projects c]. cbn [snd] in E. subst c.
    cbn [serial_manager set_locks]. by destruct (clear_serial _ _ _ request _) as [[? ?] ?]. }
  assert (∀ k, sessions m' !! k =
     s ← sessions m !! k; if accepted request && doomed request (session_info m k s) then None else Some s) as H.
  { intros k. rewrite E1. by apply clear_serial_spec. }
  split; [intros k Hk; by rewrite H, Hk|]. split.
  { intros k s Hs. rewrite H, Hs. cbn [mbind option_bind]. rewrite <- (closing_iff m k). by destruct (_ && _). }
  split; [|intros key; rewrite E2; apply clear_project_locks_spec]. intros Hf k s Hs Ha.
  rewrite H, Hs. cbn [mbind option_bind]. unfold DaemonLocks.doomed. rewrite (owner_alive_not_stale m k s Ha), Hf.
  by rewrite bool_decide_false, orb_false_r, !andb_false_r by (by intros [? ?]).
Qed.
End Stale.

(** ** Concrete requests *)

#[local] Existing Instance fifo_mutex.

(** COM3 was opened by process 10, COM4 by process 20; both are read. *)
Definition owned (pid : Z) : option SerialClientMetadata :=
  Some {| md_pid := Some pid; md_exe := None; md_cwd := None; md_argv := None |}.
Definition two_ports : DaemonContext unit :=
  set_serial (run0 [EvOpen (&"COM3") 115200 (&"ide") (owned 10) t0; EvOpened 0 (opens 1) t0;
      EvAttach (&"COM3") (&"ide") (owned 10) t0;
      EvOpen (&"COM4") 115200 (&"cli") (owned 20) t0; EvOpened 1 (opens 2) t0;
      EvAttach (&"COM4") (&"cli") (owned 20) t0] start) (new_context 0).
Definition only_20 (pid : Z) : bool := (pid =? 20)%Z.
Definition clear_stale : ClearLocksRequest :=
  {| rq_serial := true; rq_stale := true; rq_port := None; rq_client_id := None; rq_force := false |}.
Definition nothing_between (p : str) (m : SharedSerialManager unit) := m.

Lemma clear_locks_exact_witness :
  let m' := mgr (serial_manager (clear_locks false only_20 nothing_between clear_stale two_ports).2) in
  sessions m' !! &"COM3" = None ∧ is_Some (sessions m' !! &"COM4").
Proof.
  intros m'. set (m := mgr (serial_manager two_ports)).
  assert (∀ k b s, match sessions m !! k with
      Some s => accepted clear_stale && doomed false only_20 clear_stale (session_info m k s) = b | None => False end →
    sessions m !! k = Some s → accepted clear_stale && doomed false only_20 clear_stale (session_info m k s) = b) as Hclose.
  { intros k b s Hb Hs. by rewrite Hs in Hb. }
  destruct (clear_locks_exact false only_20 nothing_between clear_stale two_ports) as (_ & H & _).
  - by intros p m0.
  - assert (map_Forall (λ k s, resolve_port_key (port s) (mgr (serial_manager two_ports)) = k)
      (sessions (mgr (serial_manager two_ports)))) as HF by (apply (bool_decide_unpack _); by vm_compute).
    exact HF.
  - split.
    + assert (is_Some (sessions m !! &"COM3")) as [s Hs] by (apply (bool_decide_unpack _); by vm_compute). apply (H (&"COM3") s Hs).
      apply (closing_iff false only_20 nothing_between m (&"COM3")). apply Hclose; [by vm_compute|exact Hs].
    + assert (is_Some (sessions m !! &"COM4")) as [s Hs] by (apply (bool_decide_unpack _); by vm_compute).
      exists s. apply (proj2 (H (&"COM4") s Hs)). rewrite <- (closing_iff false only_20 nothing_between m (&"COM4")).
      rewrite (Hclose (&"COM4") false s); [done|by vm_compute|exact Hs].
Defined.

(** Finding: staleness is judged on a snapshot taken before the first close.
    Here both sessions are stale; while COM4 is closed a client attaches to
    COM3, which is closed all the same. *)
Definition abandoned : DaemonContext unit :=
  set_serial (run0 [EvDetach (&"COM3") (&"ide") t0; EvDetach (&"COM4") (&"cli") t0] (serial_manager two_ports)) two_ports.
Definition attach_meanwhile (p : str) (m : SharedSerialManager unit) : SharedSerialManager unit :=
  if decide (p = &"COM4") then (attach_reader (&"COM3") (&"ide") (owned 20) t0 m).2 else m.

Lemma late_client_is_closed : ∃ m1,
  attach_meanwhile (&"COM4") (close_begin (&"COM4") (mgr (serial_manager abandoned))).2 = m1 ∧
  has_clients (&"COM3") m1 = true ∧
  rs_cleared_serial_sessions (clear_locks (HI := map_order) false only_20 attach_meanwhile clear_stale abandoned).1 =
    [&"COM4"; &"COM3"] ∧
  sessions (mgr (serial_manager (clear_locks (HI := map_order) false only_20 attach_meanwhile clear_stale abandoned).2))
    !! &"COM3" = None.
Proof. eexists. split; [done|]. split_and!; by vm_compute. Qed.
