(* ===== verification/UsbProfiles.v ===== *)
(** * [fbuild-core/src/usb/profiles.rs]

    The registry of USB identities published by FastLED/boards: validating
    and indexing the decoded artifact, and the lookups.  Download, digest and
    JSON decoding come before; the artifact's B-tree maps are finite maps,
    iterated in the order of their keys. *)
From S2P Require Import Prelude RustStr.
From stdpp Require Import sorting.
Inductive UsbPurpose := Compile | Runtime | Bootloader | Probe.
Inductive UsbDeviceRole :=
  | RuntimeCdc | UsbUartBridge | BootloaderMsc | BootloaderHid | BootloaderDfu | BootloaderUf2
  | DebugProbe | RecoveryTransport.
#[global] Instance UsbPurpose_eq_dec : EqDecision UsbPurpose.
Proof. solve_decision. Defined.
#[global] Instance UsbDeviceRole_eq_dec : EqDecision UsbDeviceRole.
Proof. solve_decision. Defined.

Record UsbIdentityMatch := { im_vid : str; im_pid : option str; im_pid_mask : option str }.
Record UsbProfileProvenance := { source_url : str; source_revision : str; source_class : str }.
Record UsbTransportProfile := {
  identity_match : UsbIdentityMatch; purpose : UsbPurpose; role : UsbDeviceRole;
  transport : str; reset : str; handoff : str; platform : option str; family : option str;
  generation : option str; interface : option str; provenance : UsbProfileProvenance;
  priority : Z; allow_ambiguous : bool }.

Record BoardUsbProfile := {
  board_id : str; identities : gmap str (list str); aliases : list str;
  primary_compile_identity : option (Z * Z) }.

Record PublishedMeta := {
  usb_profiles : str; usb_profiles_schema_version : Z; usb_profiles_sha256 : str }.
Record PublishedBoardProfile := {
  pb_identities : gmap str (list str); pb_aliases : list str; pb_primary : option str }.
Record PublishedArtifact := {
  schema_version : Z; metadata_is_object : bool;
  pa_identities : gmap str (list UsbTransportProfile); pa_boards : gmap str PublishedBoardProfile }.

Record IndexedProfile := { ix_vid : Z; ix_pid : option Z; ix_mask : option Z; ix_profile : UsbTransportProfile }.
Record InstalledProfiles := {
  in_identities : list IndexedProfile; in_boards : gmap str BoardUsbProfile;
  in_aliases : gmap str str; in_ambiguous : gset str }.

(** The refusals, one for each message. *)
Inductive ProfileError :=
  | InvalidKey (value : str)
  | InvalidHex (label value : str)
  | MetaSchema (found : Z)
  | MetaName (found : str)
  | MetaDigest
  | DigestMismatch (expected actual : str)
  | ArtifactSchema (found : Z)
  | MetadataNotObject
  | KeyDisagrees (key : str)
  | ZeroMask (key : str)
  | InvalidProvenance (key : str)
  | EmptyBoardId
  | UnknownIdentity (board key : str)
  | PrimaryNotExact (board : str)
  | NoCompileIdentities (board : str)
  | PrimaryNotCompile (board identity : str).

Definition USB_PROFILES_SCHEMA_VERSION : Z := 1.

(** ** Numbers and keys *)

(** [char::to_digit(16)] *)
Definition hex_value (c : ascii) : option Z :=
  let n := Z.of_N (N_of_ascii c) in
  if in_range "0" "9" c then Some (n - 48)%Z
  else if in_range "a" "f" c then Some (n - 87)%Z
  else if in_range "A" "F" c then Some (n - 55)%Z else None.

Fixpoint hex_loop (bound acc : Z) (s : str) : option Z :=
  match s with
  | [] => Some acc
  | c :: s =>
      d ← hex_value c;
      let acc := (16 * acc + d)%Z in
      if decide (acc ≤ bound)%Z then hex_loop bound acc s else None
  end.

Definition u16_max : Z := 65535.

(** [u16::from_str_radix(s, 16)] *)
Definition u16_from_hex (s : str) : option Z :=
  match s with
  | [] => None
  | c :: s' =>
      if decide (c = "+"%char) then match s' with [] => None | _ => hex_loop u16_max 0 s' end
      else hex_loop u16_max 0 s
  end.

Definition is_lower_hex (s : str) (n : nat) : bool :=
  bool_decide (length s = n) && forallb (λ c, is_ascii_digit c || in_range "a" "f" c) s.

Definition parse_hex (value label : str) : result ProfileError Z :=
  if is_lower_hex value 4 then
    match u16_from_hex value with Some v => Ok v | None => Err (InvalidHex label value) end
  else Err (InvalidHex label value).

(** [s.split_once(c)] *)
Definition split_once (c : ascii) (s : str) : option (str * str) :=
  i ← find_char c s; Some (take i s, drop (S i) s).

Definition parse_identity_key (value : str) : result ProfileError (Z * option Z) :=
  match split_once ":" value with
  | None => Err (InvalidKey value)
  | Some (v, p) =>
      vid <-? parse_hex v (&"identity VID");
      if decide (p = &"*") then Ok (vid, None)
      else pid <-? parse_hex p (&"identity PID"); Ok (vid, Some pid)
  end.

(** [option.map(f).transpose()?] *)
Definition transpose {A B} (f : A → result ProfileError B) (o : option A) : result ProfileError (option B) :=
  match o with None => Ok None | Some a => b <-? f a; Ok (Some b) end.

(** A loop whose body may fail. *)
Fixpoint try_fold {A B} (f : A → B → result ProfileError A) (a : A) (l : list B) : result ProfileError A :=
  match l with [] => Ok a | b :: l => a' <-? f a b; try_fold f a' l end.

Definition key_le {A} (x y : str * A) : Prop := str_le x.1 y.1.
#[global] Instance key_le_dec {A} : RelDecision (@key_le A) := λ x y, decide (str_le _ _).
Definition btree_entries {A} (m : gmap str A) : list (str * A) := merge_sort key_le (map_to_list m).

(** ** Validation *)

Definition validate_meta (meta : PublishedMeta) : result ProfileError unit :=
  if decide (usb_profiles_schema_version meta ≠ USB_PROFILES_SCHEMA_VERSION) then
    Err (MetaSchema (usb_profiles_schema_version meta))
  else if decide (usb_profiles meta ≠ &"usb-profiles.json") then Err (MetaName (usb_profiles meta))
  else if is_lower_hex (usb_profiles_sha256 meta) 64 then Ok tt else Err MetaDigest.

Definition provenance_ok (p : UsbProfileProvenance) : bool :=
  bool_decide (trim (source_url p) ≠ []) && bool_decide (trim (source_class p) ≠ [])
  && bool_decide (length (source_revision p) ∈ [40; 64])
  && forallb (λ c, bool_decide (is_Some (hex_value c))) (source_revision p).

Definition index_profile (key : str) (vp : Z * option Z) (acc : list IndexedProfile) (profile : UsbTransportProfile) :
    result ProfileError (list IndexedProfile) :=
  let im := identity_match profile in
  vid <-? parse_hex (im_vid im) (&"match VID");
  pid <-? transpose (λ v, parse_hex v (&"match PID")) (im_pid im);
  mask <-? transpose (λ v, parse_hex v (&"PID mask")) (im_pid_mask im);
  if decide ((vid, pid) ≠ vp) then Err (KeyDisagrees key)
  else if decide (mask = Some 0%Z) then Err (ZeroMask key)
  else if provenance_ok (provenance profile) then
    Ok (acc ++ [{| ix_vid := vid; ix_pid := pid; ix_mask := mask; ix_profile := profile |}])
  else Err (InvalidProvenance key).

Definition index_identity (acc : list IndexedProfile) (entry : str * list UsbTransportProfile) :
    result ProfileError (list IndexedProfile) :=
  vp <-? parse_identity_key entry.1;
  try_fold (index_profile entry.1 vp) acc entry.2.

Definition index_alias (alias board : str) (acc : gmap str str * gset str) : gmap str str * gset str :=
  let '(al, amb) := acc in
  if decide (alias ∈ amb) then acc
  else
    match al !! alias with
    | Some existing =>
        if decide (existing ≠ board) then (delete alias al, {[alias]} ∪ amb) else (<[alias := board]> al, amb)
    | None => (<[alias := board]> al, amb)
    end.

(** The aliases of a board, its own id first. *)
Definition claims (id : str) (b : PublishedBoardProfile) : list str :=
  to_ascii_lowercase id :: filter (λ a, a ≠ []) ((λ a, to_ascii_lowercase (trim a)) <$> pb_aliases b).

Definition check_primary (id : str) (b : PublishedBoardProfile) (identity : str) : result ProfileError (Z * Z) :=
  vp <-? parse_identity_key identity;
  match vp.2 with
  | None => Err (PrimaryNotExact id)
  | Some pid =>
      match pb_identities b !! &"compile" with
      | None => Err (NoCompileIdentities id)
      | Some l => if decide (identity ∈ l) then Ok (vp.1, pid) else Err (PrimaryNotCompile id identity)
      end
  end.

Definition index_board (known : gmap str (list UsbTransportProfile)) (acc : InstalledProfiles)
    (entry : str * PublishedBoardProfile) : result ProfileError InstalledProfiles :=
  let '(id, b) := entry in
  if decide (trim id = []) then Err EmptyBoardId
  else
    match find (λ key, bool_decide (known !! key = None)) (btree_entries (pb_identities b) ≫= snd) with
    | Some key => Err (UnknownIdentity id key)
    | None =>
        primary <-? transpose (check_primary id b) (pb_primary b);
        let '(al, amb) := foldl (λ acc a, index_alias a id acc) (in_aliases acc, in_ambiguous acc) (claims id b) in
        Ok {| in_identities := in_identities acc;
              in_boards := <[id := {| board_id := id; identities := pb_identities b; aliases := pb_aliases b;
                                     primary_compile_identity := primary |}]> (in_boards acc);
              in_aliases := al; in_ambiguous := amb |}
    end.

Definition validate_and_index (artifact : PublishedArtifact) : result ProfileError InstalledProfiles :=
  if decide (schema_version artifact ≠ USB_PROFILES_SCHEMA_VERSION) then Err (ArtifactSchema (schema_version artifact))
  else if negb (metadata_is_object artifact) then Err MetadataNotObject
  else
    ids <-? try_fold index_identity [] (btree_entries (pa_identities artifact));
    try_fold (index_board (pa_identities artifact))
      {| in_identities := ids; in_boards := ∅; in_aliases := ∅; in_ambiguous := ∅ |}
      (btree_entries (pa_boards artifact)).

(** [decode_verified] on the decoded JSON; [actual_sha] is the digest of its
    canonical form. *)
Definition decode_verified (meta : PublishedMeta) (actual_sha : str) (artifact : PublishedArtifact) :
    result ProfileError InstalledProfiles :=
  _ <-? validate_meta meta;
  if decide (actual_sha ≠ usb_profiles_sha256 meta) then Err (DigestMismatch (usb_profiles_sha256 meta) actual_sha)
  else validate_and_index artifact.

(** ** Lookups *)

Definition identity_pid_matches (entry : IndexedProfile) (candidate : Z) : bool :=
  match ix_pid entry with
  | None => true
  | Some expected =>
      match ix_mask entry with
      | Some mask => bool_decide (Z.land candidate mask = Z.land expected mask)
      | None => bool_decide (candidate = expected)
      end
  end.

Definition priority_ge (a b : UsbTransportProfile) : Prop := (priority b ≤ priority a)%Z.
#[global] Instance priority_ge_dec : RelDecision priority_ge := λ a b, decide (_ ≤ _)%Z.

Definition profiles_for (installed : option InstalledProfiles) (vid pid : Z) : list UsbTransportProfile :=
  match installed with
  | None => []
  | Some inst =>
      merge_sort priority_ge (ix_profile <$>
        filter (λ e, ix_vid e = vid ∧ identity_pid_matches e pid = true) (in_identities inst))
  end.

Definition all_profiles (installed : option InstalledProfiles) : list UsbTransportProfile :=
  match installed with
  | None => []
  | Some inst => merge_sort priority_ge (ix_profile <$> in_identities inst)
  end.

Definition board_profile (installed : option InstalledProfiles) (board_or_alias : str) : option BoardUsbProfile :=
  let exact := trim board_or_alias in
  inst ← installed;
  match in_boards inst !! exact with
  | Some p => Some p
  | None =>
      let key := to_ascii_lowercase exact in
      if decide (key ∈ in_ambiguous inst) then None
      else id ← in_aliases inst !! key; in_boards inst !! id
  end.

(** ** What the registry of USB profiles answers

    A registry is installed only from a consistent artifact, and its lookups
    depend on the artifact alone, not on the order in which it was indexed. *)

Lemma try_fold_ind {A B} (f : A → B → result ProfileError A) (P : list B → A → Prop) a0 l a :
  P [] a0 → (∀ pre x a a', P pre a → f a x = Ok a' → P (pre ++ [x]) a') →
  try_fold f a0 l = Ok a → P l a.
Proof.
  intros H0 Hs. assert (∀ pre a0, P pre a0 → try_fold f a0 l = Ok a → P (pre ++ l) a) as H.
  { clear a0 H0. induction l as [|x l IH]; intros pre a0 Hp; cbn [try_fold].
    - intros [= ->]. by rewrite app_nil_r.
    - rewrite result_bind_Ok. intros (a1 & Hf & Hl). rewrite cons_middle, app_assoc. eapply IH; [by eapply Hs|done]. }
  by apply (H [] a0).
Qed.

Lemma btree_entries_elem {A} (m : gmap str A) k x : (k, x) ∈ btree_entries m ↔ m !! k = Some x.
Proof. unfold btree_entries. by rewrite (merge_sort_Permutation key_le), elem_of_map_to_list. Qed.

(** ** Aliases *)

(** After the claims [L]: an alias leads to the one board that claims it, and
    is ambiguous when two boards do. *)
Record alias_ok (L : list (str * str)) (acc : gmap str str * gset str) : Prop := {
  ao_alias a b : acc.1 !! a = Some b ↔ (a, b) ∈ L ∧ ∀ b', (a, b') ∈ L → b' = b;
  ao_ambiguous a : a ∈ acc.2 ↔ ∃ b1 b2, (a, b1) ∈ L ∧ (a, b2) ∈ L ∧ b1 ≠ b2;
}.

Lemma alias_ok_other L acc alias board a : alias_ok L acc → a ≠ alias →
  (∀ b, (a, b) ∈ L ++ [(alias, board)] ↔ (a, b) ∈ L).
Proof. intros _ Hne b. rewrite elem_of_app, list_elem_of_singleton. naive_solver. Qed.

Lemma index_alias_ok L acc alias board : alias_ok L acc →
  alias_ok (L ++ [(alias, board)]) (index_alias alias board acc).
Proof.
  intros Hok. pose proof (alias_ok_other L acc alias board) as Ho. destruct acc as [al amb].
  pose proof Hok as [HA HB]. cbn [fst snd] in HA, HB.
  assert (∀ b, (alias, b) ∈ L ++ [(alias, board)] ↔ (alias, b) ∈ L ∨ b = board) as Hin.
  { intros b. rewrite elem_of_app, list_elem_of_singleton. naive_solver. }
  unfold index_alias. case_decide as Hamb.
  { (* ambiguous before *)
    pose proof (proj1 (HB alias) Hamb) as (b1 & b2 & H1 & H2 & Hne). split; cbn [fst snd].
    - intros a b. destruct (decide (a = alias)) as [->|Ha].
      + split; [intros [_ Hu]%HA|intros [_ Hu]].
        * exfalso. apply Hne. by rewrite (Hu b1 H1), (Hu b2 H2).
        * exfalso. apply Hne. rewrite (Hu b1), (Hu b2); [done|apply Hin; auto..].
      + rewrite HA. by setoid_rewrite (Ho a Hok Ha).
    - intros a. destruct (decide (a = alias)) as [->|Ha].
      + split; [|done]. intros _. exists b1, b2. rewrite !Hin. auto.
      + rewrite HB. by setoid_rewrite (Ho a Hok Ha). }
  destruct (al !! alias) as [existing|] eqn:El.
  - pose proof (proj1 (HA alias existing) El) as [He Hu]. case_decide as Hne.
    + (* a second board *)
      split; cbn [fst snd].
      * intros a b. destruct (decide (a = alias)) as [->|Ha].
        -- rewrite lookup_delete_eq. split; [done|]. intros [_ Hub]. exfalso. apply Hne.
           rewrite (Hub existing), (Hub board); [done|apply Hin; auto..].
        -- rewrite lookup_delete_ne, HA by done. by setoid_rewrite (Ho a Hok Ha).
      * intros a. rewrite elem_of_union, elem_of_singleton. destruct (decide (a = alias)) as [->|Ha].
        -- split; [|auto]. intros _. exists existing, board. rewrite !Hin. auto.
        -- rewrite HB. setoid_rewrite (Ho a Hok Ha). naive_solver.
    + (* the same board again *)
      destruct (decide (existing = board)) as [->|]; [|tauto]. rewrite insert_id by done. split; cbn [fst snd].
      * intros a b. destruct (decide (a = alias)) as [->|Ha].
        -- rewrite HA. setoid_rewrite Hin. naive_solver.
        -- rewrite HA. by setoid_rewrite (Ho a Hok Ha).
      * intros a. destruct (decide (a = alias)) as [->|Ha].
        -- rewrite HB. setoid_rewrite Hin. naive_solver.
        -- rewrite HB. by setoid_rewrite (Ho a Hok Ha).
  - (* the first board *)
    assert (∀ b, (alias, b) ∉ L) as Hno.
    { intros b Hb. assert (al !! alias = Some b) as Hx; [|congruence]. apply HA. split; [done|]. intros b' Hb'.
      destruct (decide (b' = b)) as [|Hne]; [done|]. exfalso. apply Hamb, HB. by exists b', b. }
    split; cbn [fst snd].
    + intros a b. destruct (decide (a = alias)) as [->|Ha].
      * rewrite lookup_insert_eq. setoid_rewrite Hin. naive_solver.
      * rewrite lookup_insert_ne, HA by done. by setoid_rewrite (Ho a Hok Ha).
    + intros a. destruct (decide (a = alias)) as [->|Ha].
      * split; [done|]. intros (b1 & b2 & [?|E1]%Hin & [?|E2]%Hin & Hne); try (by exfalso; eapply Hno). congruence.
      * rewrite HB. by setoid_rewrite (Ho a Hok Ha).
Qed.

Lemma index_aliases_ok board l L acc : alias_ok L acc →
  alias_ok (L ++ ((λ a, (a, board)) <$> l)) (foldl (λ acc a, index_alias a board acc) acc l).
Proof.
  revert L acc. induction l as [|a l IH]; intros L acc Hok; cbn [fmap list_fmap foldl]; [by rewrite app_nil_r|].
  rewrite cons_middle, app_assoc. by apply IH, index_alias_ok.
Qed.

(** ** Boards *)

(** The claims of the boards [bs]. *)
Definition all_claims (bs : list (str * PublishedBoardProfile)) : list (str * str) :=
  bs ≫= λ e, (λ a, (a, e.1)) <$> claims e.1 e.2.

(** The registry after the boards [bs]. *)
Record boards_ok (bs : list (str * PublishedBoardProfile)) (inst : InstalledProfiles) : Prop := {
  bo_boards id : match in_boards inst !! id with
    | Some p => ∃ b, (id, b) ∈ bs ∧ board_id p = id ∧ identities p = pb_identities b ∧ aliases p = pb_aliases b
    | None => ∀ b, (id, b) ∉ bs
    end;
  bo_aliases : alias_ok (all_claims bs) (in_aliases inst, in_ambiguous inst);
}.

Lemma index_board_ok known bs acc entry acc' : boards_ok bs acc → index_board known acc entry = Ok acc' →
  boards_ok (bs ++ [entry]) acc' ∧ in_identities acc' = in_identities acc.
Proof.
  intros [HB HA]. destruct entry as [id b]. unfold index_board. case_decide; [done|].
  destruct (find _ _); [done|]. rewrite result_bind_Ok. intros (primary & _ & E).
  destruct (foldl _ _ _) as [al amb] eqn:Ef. injection E as <-. split; [|done].
  split; cbn [in_boards in_aliases in_ambiguous].
  - intros id'. destruct (decide (id = id')) as [<-|Hne].
    + rewrite lookup_insert_eq. exists b. split; [|done]. apply elem_of_app. right. by apply list_elem_of_here.
    + rewrite lookup_insert_ne by done. specialize (HB id'). destruct (in_boards acc !! id') as [p|].
      * destruct HB as (b' & Hin & Hp). exists b'. split; [|done]. apply elem_of_app. by left.
      * intros b' [?|[= <- _]%list_elem_of_singleton]%elem_of_app; [by eapply HB|done].
  - rewrite <- Ef. unfold all_claims. rewrite bind_app. cbn [mbind list_bind fst snd]. rewrite app_nil_r.
    by apply index_aliases_ok.
Qed.

(** The board that the key [a] names: there is exactly one that claims it. *)
Definition sole_claimant (boards : gmap str PublishedBoardProfile) (a id : str) : Prop :=
  (∃ b, boards !! id = Some b ∧ a ∈ claims id b) ∧
  ∀ id' b', boards !! id' = Some b' → a ∈ claims id' b' → id' = id.

Lemma all_claims_elem (boards : gmap str PublishedBoardProfile) a id :
  (a, id) ∈ all_claims (btree_entries boards) ↔ ∃ b, boards !! id = Some b ∧ a ∈ claims id b.
Proof.
  unfold all_claims. rewrite list_elem_of_bind. split.
  - intros ([id' b] & (a' & [= -> ->] & Ha)%list_elem_of_fmap & Hin%btree_entries_elem). by exists b.
  - intros (b & Hb & Ha). exists (id, b). split; [|by apply btree_entries_elem]. apply list_elem_of_fmap. by exists a.
Qed.

(** the lookup of a board depends on the published artifact alone.  In a
    registry that was accepted, a board is found under its exact id; any
    other name finds, by its lower-case form, the one board that claims the
    name as its id or as an alias, and nothing when no board or several
    boards claim it.  What is found is the published entry. *)
Theorem board_profile_spec artifact inst q p : validate_and_index artifact = Ok inst →
  board_profile (Some inst) q = Some p ↔
  ∃ id b, pa_boards artifact !! id = Some b ∧ in_boards inst !! id = Some p ∧
    board_id p = id ∧ identities p = pb_identities b ∧ aliases p = pb_aliases b ∧
    (id = trim q ∨
     pa_boards artifact !! trim q = None ∧ sole_claimant (pa_boards artifact) (to_ascii_lowercase (trim q)) id).
Proof.
  unfold validate_and_index. case_decide; [done|]. destruct (negb _); [done|]. rewrite result_bind_Ok.
  intros (ids & _ & Hf).
  assert (boards_ok (btree_entries (pa_boards artifact)) inst) as [HB [HA HM]].
  { eapply (try_fold_ind _ boards_ok); [| |exact Hf].
    - split; cbn; [intros id; rewrite lookup_empty; by intros b ?%elem_of_nil|].
      split; cbn; [intros a b; rewrite lookup_empty|intros a].
      + split; [done|by intros [?%elem_of_nil _]].
      + split; [set_solver|by intros (? & ? & ?%elem_of_nil & _)].
    - intros bs e a a' Hok He. by destruct (index_board_ok _ _ _ _ _ Hok He). }
  cbn [fst snd] in HA, HM. setoid_rewrite all_claims_elem in HA. setoid_rewrite all_claims_elem in HM.
  assert (∀ id p, in_boards inst !! id = Some p → ∃ b, pa_boards artifact !! id = Some b ∧ board_id p = id ∧
    identities p = pb_identities b ∧ aliases p = pb_aliases b) as Hsome.
  { intros id p' Hp. specialize (HB id). rewrite Hp in HB. destruct HB as (b & Hin%btree_entries_elem & Hb). by exists b. }
  assert (∀ id, in_boards inst !! id = None ↔ pa_boards artifact !! id = None) as Hnone.
  { intros id. split; intros Hn.
    - specialize (HB id). rewrite Hn in HB. apply eq_None_not_Some. intros [b Hb]. by apply (HB b), btree_entries_elem.
    - apply eq_None_not_Some. intros [p' (b & Hb & _)%Hsome]. congruence. }
  unfold board_profile. cbn [mbind option_bind]. set (key := to_ascii_lowercase (trim q)).
  destruct (in_boards inst !! trim q) as [p0|] eqn:E0.
  - split.
    + intros [= ->]. destruct (Hsome _ _ E0) as (b & Hb & Hp). exists (trim q), b. tauto.
    + intros (id & b & Hb & Hp & _ & _ & _ & [->|[Hn _]]); [congruence|]. apply Hnone in Hn. congruence.
  - apply Hnone in E0 as Hq. case_decide as Hamb.
    + split; [done|]. intros (id & b & Hb & _ & _ & _ & _ & [->|[_ [_ Hu]]]); [congruence|].
      apply HM in Hamb as (b1 & b2 & (x1 & Hx1 & Hc1) & (x2 & Hx2 & Hc2) & Hne). exfalso. apply Hne.
      by rewrite (Hu b1 x1), (Hu b2 x2).
    + split.
      * intros (id & Hid & Hp)%bind_Some. apply HA in Hid as [Hc Hu].
        destruct (Hsome _ _ Hp) as (b & Hb & E1 & E2 & E3). exists id, b. split_and!; try done. right. split; [done|].
        split; [done|]. intros id' b' Hb' Hc'. apply Hu. by exists b'.
      * intros (id & b & Hb & Hp & _ & _ & _ & [->|[_ [Hc Hu]]]); [congruence|]. apply bind_Some. exists id.
        split; [|done]. apply HA. split; [done|]. intros id' (b' & Hb' & Hc'). by apply (Hu id' b').
Qed.

(** ** A concrete artifact *)

Definition pico_key : str := &"2e8a:000a".
Definition pico_cdc : UsbTransportProfile :=
  {| identity_match := {| im_vid := &"2e8a"; im_pid := Some (&"000a"); im_pid_mask := None |};
     purpose := Runtime; role := RuntimeCdc; transport := &"cdc"; reset := &"1200bps"; handoff := &"none";
     platform := Some (&"raspberrypi"); family := Some (&"rp2040"); generation := None; interface := None;
     provenance := {| source_url := &"https://x"; source_revision := replicate 40 "a"%char; source_class := &"vendor" |};
     priority := 10; allow_ambiguous := false |}.
Definition published (names : list str) : PublishedBoardProfile :=
  {| pb_identities := {[ &"runtime" := [pico_key] ]}; pb_aliases := names; pb_primary := None |}.
Definition demo_artifact : PublishedArtifact :=
  {| schema_version := 1; metadata_is_object := true; pa_identities := {[ pico_key := [pico_cdc] ]};
     pa_boards := {[ &"rpipico" := published [&" Pico "; &"rp"]; &"rpipicow" := published [&"rp"] ]} |}.
Definition demo_registry : InstalledProfiles :=
  match validate_and_index demo_artifact with
  | Ok inst => inst
  | Err _ => {| in_identities := []; in_boards := ∅; in_aliases := ∅; in_ambiguous := ∅ |}
  end.

Lemma board_profile_spec_witness :
  (∃ p, board_profile (Some demo_registry) (&"PICO") = Some p ∧ board_id p = &"rpipico") ∧
  board_profile (Some demo_registry) (&"rp") = None.
Proof.
  split; [|by vm_compute].
  destruct (board_profile (Some demo_registry) (&"PICO")) as [p|] eqn:E; [|by vm_compute in E].
  exists p. split; [done|].
  destruct (proj1 (board_profile_spec demo_artifact demo_registry (&"PICO") p ltac:(by vm_compute)) E)
    as (id & b & Hb & _ & -> & _ & _ & [->|[_ [_ Hu]]]); [by vm_compute in Hb|].
  symmetry. apply (Hu (&"rpipico") (published [&" Pico "; &"rp"])); [by vm_compute|].
  apply (bool_decide_unpack _). by vm_compute.
Defined.
