(* ===== verification/DeployPort.v ===== *)
(** * [fbuild-daemon/src/handlers/operations/deploy_port.rs]

    Which serial port a deployment uses when the request names none.  The
    registry of USB profiles and the table of USB names are arguments. *)
From S2P Require Import DeviceManager.
From S2P Require Import Prelude RustStr UsbProfiles.
From stdpp Require Import sorting.

(** [fbuild_core::Platform] *)
Inductive Platform :=
  | Apollo3 | AtmelAvr | AtmelMegaAvr | AtmelSam | Ch32v | Espressif32 | Espressif8266 | NordicNrf52
  | NxpLpc | RaspberryPi | RenesasRa | SiliconLabs | Ststm32 | Teensy | Wasm.
#[global] Instance Platform_eq_dec : EqDecision Platform.
Proof. solve_decision. Defined.

Definition platform_name (p : Platform) : str :=
  match p with
  | Apollo3 => &"Apollo3" | AtmelAvr => &"AtmelAvr" | AtmelMegaAvr => &"AtmelMegaAvr" | AtmelSam => &"AtmelSam"
  | Ch32v => &"Ch32v" | Espressif32 => &"Espressif32" | Espressif8266 => &"Espressif8266"
  | NordicNrf52 => &"NordicNrf52" | NxpLpc => &"NxpLpc" | RaspberryPi => &"RaspberryPi"
  | RenesasRa => &"RenesasRa" | SiliconLabs => &"SiliconLabs" | Ststm32 => &"Ststm32"
  | Teensy => &"Teensy" | Wasm => &"Wasm"
  end.

(** The fields of a board's configuration that are read here. *)
Record BoardConfig := { bc_board_id : str; bc_mcu : str }.

(** fbuild-config/src/board/db.rs *)
Definition board_aliases : list (str * str) :=
  [(&"mega", &"megaatmega2560"); (&"nano", &"nanoatmega328"); (&"pico", &"rpipico"); (&"picow", &"rpipicow");
   (&"pico2", &"rpipico2"); (&"pico2w", &"rpipico2w"); (&"pico2wh", &"rpipico2w"); (&"rpipico2wh", &"rpipico2w");
   (&"esp32c3", &"esp32-c3-devkitm-1"); (&"esp32c6", &"esp32-c6-devkitm-1"); (&"esp32s3", &"esp32-s3-devkitc-1");
   (&"ch32l103", &"genericCH32L103C8T6"); (&"ch32v003", &"genericCH32V003F4P6");
   (&"ch32v006", &"genericCH32V006K8U6"); (&"ch32v103", &"genericCH32V103C8T6");
   (&"ch32v203", &"genericCH32V203C8T6"); (&"ch32v208", &"genericCH32V208WBU6");
   (&"ch32v303", &"genericCH32V303VCT6"); (&"ch32v307", &"genericCH32V307VCT6");
   (&"ch32x035", &"genericCH32X035C8T6"); (&"adafruit_grand_central_m4", &"adafruit_grandcentral_m4")].
Definition resolve_board_alias (id : str) : str := default id (list_to_map (M := gmap str str) board_aliases !! id).
Definition registry_board_id (b : BoardConfig) : str := resolve_board_alias (bc_board_id b).

Record DeployPortChoice := { dc_port : option str; dc_warning : option str }.

Record PortCandidate := { pc_port : str; pc_vid : option Z; pc_pid : option Z; pc_description : str }.
Definition candidate (d : DeviceState) : PortCandidate :=
  {| pc_port := DeviceManager.port d; pc_vid := DeviceManager.vid d; pc_pid := DeviceManager.pid d;
     pc_description := DeviceManager.description d |}.
Definition port_le (a b : PortCandidate) : Prop := str_le (pc_port a) (pc_port b).
#[global] Instance port_le_dec : RelDecision port_le := λ a b, decide (str_le _ _).

(** ** Health: fbuild-serial/src/ports.rs *)

Definition is_known_unhealthy (h : PortHealth) : bool :=
  match h with DeviceManager.PresentProblem _ _ | DeviceManager.Phantom _ _ => true | _ => false end.
Definition health_label (h : PortHealth) : str :=
  match h with
  | DeviceManager.HealthyPresent => &"healthy" | DeviceManager.PresentProblem _ _ => &"present-problem"
  | DeviceManager.Phantom _ _ => &"phantom" | DeviceManager.UnknownHealth => &"unknown"
  end.
Definition problem_code (h : PortHealth) : option Z :=
  match h with
  | DeviceManager.PresentProblem c _ => Some c | DeviceManager.Phantom c _ => c | _ => None
  end.

Definition describe_unhealthy_device (d : DeviceState) : str :=
  DeviceManager.port d ++ &" (health " ++ health_label (port_health d)
  ++ (match problem_code (port_health d) with Some c => &"; problem code " ++ RustStr.decimal c | None => [] end)
  ++ (match DeviceManager.instance_id d with Some i => &"; instance " ++ i | None => [] end) ++ &")".

(** ** Identities *)

Inductive RpGeneration := Rp2040 | Rp2350.
Definition rp_family (g : RpGeneration) : str := match g with Rp2040 => &"rp2040" | Rp2350 => &"rp2350" end.

Definition rp_generation_for (board : option BoardConfig) : RpGeneration :=
  match board with
  | Some b => if starts_with (&"rp2350") (to_ascii_lowercase (bc_mcu b)) then Rp2350 else Rp2040
  | None => Rp2040
  end.

Definition rp_profiles_match_generation (profiles : list UsbTransportProfile) (g : RpGeneration) : bool :=
  existsb (λ p, bool_decide (purpose p = Runtime ∧ role p = RuntimeCdc ∧ family p = Some (rp_family g))) profiles.
Definition rp_bootloader_profiles_match_generation (profiles : list UsbTransportProfile) (g : RpGeneration) : bool :=
  existsb (λ p, bool_decide (purpose p = Bootloader ∧ role p = BootloaderUf2 ∧ family p = Some (rp_family g))) profiles.

Definition identity_matches (identity : str) (vid pid : Z) : bool :=
  match split_once ":" identity with
  | None => false
  | Some (v, p) => bool_decide (u16_from_hex v = Some vid) && (bool_decide (p = &"*") || bool_decide (u16_from_hex p = Some pid))
  end.

Definition board_runtime_identities (profile : BoardUsbProfile) : option (list str) :=
  match identities profile !! &"runtime" with Some (i :: l) => Some (i :: l) | _ => None end.

Definition rp_runtime_identity_matches (board : option BoardUsbProfile) (vid pid : Z)
    (profiles : list UsbTransportProfile) (g : RpGeneration) : bool :=
  match board ≫= board_runtime_identities with
  | Some ids => existsb (λ i, identity_matches i vid pid) ids
  | None => rp_profiles_match_generation profiles g
  end.

Definition profiles_match_deploy_target (p : Platform) (profiles : list UsbTransportProfile) : bool :=
  existsb (λ pr,
    bool_decide (purpose pr = Runtime) && bool_decide (role pr ∈ [RuntimeCdc; UsbUartBridge]) &&
    match p with
    | Teensy => bool_decide (platform pr = Some (&"teensy")) || bool_decide (family pr = Some (&"teensy"))
    | Espressif32 => bool_decide (platform pr = Some (&"espressif32")) || bool_decide (role pr = UsbUartBridge)
    | AtmelAvr | AtmelMegaAvr => bool_decide (platform pr = Some (&"arduino")) || bool_decide (role pr = UsbUartBridge)
    | NxpLpc => bool_decide (platform pr = Some (&"nxplpc"))
    | _ => false
    end) profiles.

Definition append_warning_to_stderr (stderr warning : option str) : option str :=
  match warning with
  | None => stderr
  | Some w =>
      let w := &"warning: " ++ w in
      match stderr with
      | Some [] | None => Some w
      | Some existing => Some (existing ++ [nl] ++ w)
      end
  end.

Section Choice.
Context (online_lookup : Z → Z → option UsbInfo) (registry : option InstalledProfiles).

Definition board_runtime_identity_matches (id : str) (vid pid : Z) : bool :=
  match board_profile registry id ≫= board_runtime_identities with
  | Some ids => existsb (λ i, identity_matches i vid pid) ids
  | None => false
  end.

Definition device_matches_deploy_target (p : Platform) (board_id : option str) (vid pid : Z) : bool :=
  match board_id with Some id => board_runtime_identity_matches id vid pid | None => false end
  || profiles_match_deploy_target p (profiles_for registry vid pid).

Definition usb_pretty (vid pid : Z) : str :=
  let info := DeviceManager.usb_resolve online_lookup vid pid in
  DeviceManager.vendor info ++ &" " ++ DeviceManager.product info ++ &" (" ++ hex4 "A" vid ++ &":" ++ hex4 "A" pid ++ &")".

Definition format_candidates (l : list PortCandidate) : str :=
  RustStr.join (&", ") ((λ c,
    pc_port c ++ &" (" ++
    (match pc_vid c, pc_pid c with
     | Some v, Some p => usb_pretty v p
     | Some v, None => pc_description c ++ &" (" ++ hex4 "A" v ++ &":????)"
     | None, _ => pc_description c
     end) ++ &")") <$> l).

(** ** Raspberry Pi *)

Definition device_identity (d : DeviceState) : option (Z * Z) :=
  v ← DeviceManager.vid d; p ← DeviceManager.pid d; Some (v, p).

Definition device_matches (f : Z → Z → bool) (d : DeviceState) : bool :=
  match device_identity d with Some (v, p) => f v p | None => false end.

(** The loop, then the sort of the matches. *)
Definition partition_rp_candidates (devices : list DeviceState) (family_match : Z → Z → bool) :
    list PortCandidate * list str :=
  let '(matches, unhealthy) :=
    foldl (λ acc d,
      if negb (device_matches family_match d) then acc
      else if is_known_unhealthy (port_health d) then (acc.1, acc.2 ++ [describe_unhealthy_device d])
      else (acc.1 ++ [candidate d], acc.2))
      ([], []) (filter (λ d, is_connected d = true) devices) in
  (merge_sort port_le matches, unhealthy).

Definition rp_match (board : option BoardUsbProfile) (g : RpGeneration) (vid pid : Z) : bool :=
  rp_runtime_identity_matches board vid pid (profiles_for registry vid pid) g.

Definition rp_deploy_choice (matches : list PortCandidate) (unhealthy : list str) : DeployPortChoice :=
  let note :=
    match unhealthy with
    | [] => None
    | _ => Some (&"excluded known-unhealthy Raspberry Pi CDC record(s) from deploy selection: "
             ++ RustStr.join (&", ") unhealthy
             ++ &"; they stay visible to `fbuild port scan`, and deploy continues via the BOOTSEL volume path")
    end in
  match matches with
  | [] => {| dc_port := None; dc_warning := note |}
  | [c] => {| dc_port := Some (pc_port c); dc_warning := note |}
  | _ =>
      let ambiguity := &"multiple FastLED/boards-identified Raspberry Pi CDC ports are connected: "
        ++ format_candidates matches ++ &"; pass -p/--port to select the deployment target" in
      {| dc_port := None;
         dc_warning := Some (match note with Some n => ambiguity ++ &"; " ++ n | None => ambiguity end) |}
  end.

(** The profile of the board, by its id in the registry. *)
Definition rp_profile (board_id : option str) (board : option BoardConfig) : option BoardUsbProfile :=
  match board with Some b => Some (registry_board_id b) | None => board_id end ≫= board_profile registry.

(** ** The choice *)

Definition target_match (p : Platform) (board_id : option str) (c : PortCandidate) : bool :=
  match pc_vid c, pc_pid c with
  | Some vid, Some pid => device_matches_deploy_target p board_id vid pid
  | _, _ => false
  end.

Definition profile_deploy_choice (p : Platform) (matches candidates : list PortCandidate) : DeployPortChoice :=
  match matches with
  | [c] => {| dc_port := Some (pc_port c); dc_warning := None |}
  | c :: _ =>
      {| dc_port := Some (pc_port c);
         dc_warning := Some (&"multiple serial ports matched FastLED/boards deploy profiles; selected "
           ++ pc_port c ++ &" deterministically from " ++ format_candidates matches
           ++ &"; pass -p/--port to choose explicitly") |}
  | [] =>
      {| dc_port := None;
         dc_warning := Some
           match candidates with
           | [] => &"no serial ports found for " ++ platform_name p
           | _ => &"no serial port matched a FastLED/boards deploy profile for " ++ platform_name p
               ++ &"; connected candidates: " ++ format_candidates candidates
               ++ &"; pass -p/--port to choose explicitly or publish the missing board identity in FastLED/boards"
           end |}
  end.

Definition choose_deploy_port (requested : option str) (p : Platform) (board_id : option str)
    (board : option BoardConfig) (devices : list DeviceState) : DeployPortChoice :=
  match requested with
  | Some _ => {| dc_port := requested; dc_warning := None |}
  | None =>
      if decide (p = RaspberryPi) then
        let '(matches, unhealthy) :=
          partition_rp_candidates devices (rp_match (rp_profile board_id board) (rp_generation_for board)) in
        rp_deploy_choice matches unhealthy
      else
        let candidates := merge_sort port_le (candidate <$> filter (λ d, is_connected d = true) devices) in
        profile_deploy_choice p (filter (λ c, target_match p board_id c = true) candidates) candidates
  end.

Lemma profile_choice_port p matches candidates :
  dc_port (profile_deploy_choice p matches candidates) = pc_port <$> head matches.
Proof. by destruct matches as [|c [|c' ms]]. Qed.

(** ** Which devices are eligible *)

Definition rp_eligible (board_id : option str) (board : option BoardConfig) (d : DeviceState) : bool :=
  is_connected d && device_matches (rp_match (rp_profile board_id board) (rp_generation_for board)) d
  && negb (is_known_unhealthy (port_health d)).
Definition eligible (p : Platform) (board_id : option str) (d : DeviceState) : bool :=
  is_connected d && device_matches (device_matches_deploy_target p board_id) d.

Lemma partition_matches devices f :
  (partition_rp_candidates devices f).1 ≡ₚ
  candidate <$> filter (λ d, is_connected d && device_matches f d && negb (is_known_unhealthy (port_health d)) = true) devices.
Proof.
  unfold partition_rp_candidates. set (step := λ acc d, _).
  assert (∀ l acc, (foldl step acc (filter (λ d, is_connected d = true) l)).1 = acc.1 ++ (candidate <$>
    filter (λ d, is_connected d && device_matches f d && negb (is_known_unhealthy (port_health d)) = true) l)) as H.
  { induction l as [|d l IH]; intros acc; [by rewrite app_nil_r|]. rewrite !filter_cons.
    destruct (is_connected d) eqn:Ec; cbn [andb]; [|by rewrite !decide_False].
    rewrite decide_True by done. cbn [foldl]. rewrite IH. unfold step at 1.
    destruct (device_matches f d); cbn [negb andb]; [|by rewrite decide_False].
    destruct (is_known_unhealthy _); cbn [negb fst]; [by rewrite decide_False|].
    rewrite decide_True by done. cbn. by rewrite <- app_assoc. }
  specialize (H devices ([], [])). destruct (foldl step _ _) as [ms us]. cbn [fst] in H |- *. cbn in H. rewrite H.
  apply merge_sort_Permutation.
Qed.

#[local] Instance port_le_total : Total port_le.
Proof. intros a b. apply (total str_le). Qed.
#[local] Instance port_le_trans : Transitive port_le.
Proof. intros a b c. unfold port_le. by etrans. Qed.

(** The first match of the sorted candidates is the least. *)
Lemma head_filter_sorted (f : PortCandidate → bool) l c : StronglySorted port_le l →
  head (filter (λ x, f x = true) l) = Some c → c ∈ l ∧ f c = true ∧ ∀ x, x ∈ l → f x = true → port_le c x.
Proof.
  induction 1 as [|a l Hl IH Ha]; [done|]. rewrite filter_cons. case_decide as Hf.
  - intros [= ->]. split; [by apply list_elem_of_here|]. split; [done|].
    intros x [->|Hx]%elem_of_cons _; [by destruct (total port_le c c)|]. by apply (proj1 (Forall_forall _ _) Ha).
  - intros (Hc & Hfc & Hm)%IH. split; [by apply list_elem_of_further|]. split; [done|].
    intros x [->|Hx]%elem_of_cons Hfx; [done|auto].
Qed.

Lemma rp_choice board_id board devices port : dc_port (choose_deploy_port None RaspberryPi board_id board devices) = Some port ↔
  ∃ d, filter (λ d, rp_eligible board_id board d = true) devices = [d] ∧ DeviceManager.port d = port.
Proof.
  unfold choose_deploy_port.
  rewrite decide_True by done.
  pose proof (partition_matches devices (rp_match (rp_profile board_id board) (rp_generation_for board))) as H.
  destruct (partition_rp_candidates _ _) as [ms us]. cbn [fst] in H. unfold rp_eligible.
  set (l := filter _ devices) in *. unfold rp_deploy_choice. split.
  + destruct ms as [|c [|c' ms]]; [done| |done]. cbn [dc_port]. intros [= <-].
    apply Permutation_singleton_l in H. destruct l as [|d [|d' l]]; try done. injection H as ->. by exists d.
  + intros (d & E & <-). rewrite E in H. by apply Permutation_singleton_r in H as ->.
Qed.
Lemma profile_choice p board_id board devices port : p ≠ RaspberryPi →
  dc_port (choose_deploy_port None p board_id board devices) = Some port ↔
  ∃ d, d ∈ devices ∧ eligible p board_id d = true ∧ DeviceManager.port d = port ∧
    ∀ d', d' ∈ devices → eligible p board_id d' = true → str_le port (DeviceManager.port d').
Proof.
  intros Hp. unfold choose_deploy_port.
  rewrite decide_False by done. set (cands := merge_sort _ _). rewrite profile_choice_port.
  assert (∀ c, c ∈ cands ↔ ∃ d, d ∈ devices ∧ is_connected d = true ∧ candidate d = c) as Hc.
  { intros c. unfold cands. rewrite (merge_sort_Permutation port_le), list_elem_of_fmap.
    setoid_rewrite list_elem_of_filter. naive_solver. }
  assert (∀ d, is_connected d = true → target_match p board_id (candidate d) = eligible p board_id d) as Hg.
  { intros d Hd. unfold eligible, target_match, device_matches, device_identity. rewrite Hd. cbn.
    by destruct (DeviceManager.vid d), (DeviceManager.pid d). }
  assert (StronglySorted port_le cands) as Hs by (apply (StronglySorted_merge_sort port_le); apply _).
  split.
  + intros (c & Hh & ->)%fmap_Some. apply head_filter_sorted in Hh as (Hin & Hgc & Hm); [|done].
    apply Hc in Hin as (d & Hd & Hcon & <-). exists d. rewrite Hg in Hgc by done. split_and!; try done.
    intros d' Hd' He'. apply (Hm (candidate d')).
    * apply Hc. exists d'. unfold eligible in He'. apply andb_true_iff in He' as [? _]. done.
    * rewrite Hg; [done|]. unfold eligible in He'. by apply andb_true_iff in He' as [? _].
  + intros (d & Hd & He & <- & Hm). assert (is_connected d = true) as Hcon
      by (unfold eligible in He; by apply andb_true_iff in He as [? _]).
    destruct (head (filter (λ x, target_match p board_id x = true) cands)) as [c|] eqn:Eh.
    * apply head_filter_sorted in Eh as (Hin & Hgc & Hm'); [|done]. apply Hc in Hin as (d2 & Hd2 & Hcon2 & <-).
      cbn. f_equal. rewrite Hg in Hgc by done. apply (anti_symm str_le); [|by apply Hm].
      apply (Hm' (candidate d)); [apply Hc; by exists d|by rewrite Hg].
    * exfalso. assert (candidate d ∈ filter (λ x, target_match p board_id x = true) cands) as Hx.
      { apply list_elem_of_filter. split; [by rewrite Hg|]. apply Hc. by exists d. }
      destruct (filter (λ x, target_match p board_id x = true) cands); [by apply elem_of_nil in Hx|done].
Qed.

(** ** Whose port it is, read off the registry *)

(** An identity like 2e8a:000a or 2e8a:* names both ids, or any product of a
    vendor. *)
Definition denotes (identity : str) (vid pid : Z) : Prop :=
  ∃ v w, ":"%char ∉ v ∧ identity = v ++ ":"%char :: w ∧ u16_from_hex v = Some vid ∧ (w = &"*" ∨ u16_from_hex w = Some pid).
Definition runs_as (profile : BoardUsbProfile) (vid pid : Z) : Prop :=
  ∃ ids i, identities profile !! &"runtime" = Some ids ∧ i ∈ ids ∧ denotes i vid pid.
(** A transport the registry knows for the ids; a mask says which bits of the
    product id count. *)
Definition registered (vid pid : Z) (pr : UsbTransportProfile) : Prop :=
  ∃ inst e, registry = Some inst ∧ e ∈ in_identities inst ∧ ix_profile e = pr ∧ ix_vid e = vid ∧
    ∀ expected, ix_pid e = Some expected →
      match ix_mask e with Some mask => Z.land pid mask = Z.land expected mask | None => pid = expected end.
Definition serves_platform (p : Platform) (pr : UsbTransportProfile) : Prop :=
  purpose pr = Runtime ∧ (role pr = RuntimeCdc ∨ role pr = UsbUartBridge) ∧
  match p with
  | Teensy => platform pr = Some (&"teensy") ∨ family pr = Some (&"teensy")
  | Espressif32 => platform pr = Some (&"espressif32") ∨ role pr = UsbUartBridge
  | AtmelAvr | AtmelMegaAvr => platform pr = Some (&"arduino") ∨ role pr = UsbUartBridge
  | NxpLpc => platform pr = Some (&"nxplpc")
  | _ => False
  end.
(** The ids are those of the board while it runs, or of a serial port of the
    platform. *)
Definition is_target (p : Platform) (board_id : option str) (vid pid : Z) : Prop :=
  (∃ id profile, board_id = Some id ∧ board_profile registry id = Some profile ∧ runs_as profile vid pid) ∨
  ∃ pr, registered vid pid pr ∧ serves_platform p pr.
Definition has_chip (board : option BoardConfig) (chip : str) : Prop :=
  (∃ b, board = Some b ∧ &"rp2350" `prefix_of` to_ascii_lowercase (bc_mcu b) ∧ chip = &"rp2350") ∨
  ((∀ b, board = Some b → ¬ &"rp2350" `prefix_of` to_ascii_lowercase (bc_mcu b)) ∧ chip = &"rp2040").
(** For a Raspberry Pi the ids of the board are decisive, if it has any. *)
Definition is_rp_target (board_id : option str) (board : option BoardConfig) (vid pid : Z) : Prop :=
  let profile := match board with Some b => Some (registry_board_id b) | None => board_id end ≫= board_profile registry in
  (∃ pf, profile = Some pf ∧ runs_as pf vid pid) ∨
  ((∀ pf ids, profile = Some pf → identities pf !! &"runtime" = Some ids → ids = []) ∧
   ∃ pr chip, registered vid pid pr ∧ purpose pr = Runtime ∧ role pr = RuntimeCdc ∧ family pr = Some chip ∧ has_chip board chip).
Definition with_ids (P : Z → Z → Prop) (d : DeviceState) : Prop :=
  is_connected d = true ∧ ∃ vid pid, DeviceManager.vid d = Some vid ∧ DeviceManager.pid d = Some pid ∧ P vid pid.
Definition known_unhealthy (d : DeviceState) : Prop :=
  match port_health d with DeviceManager.PresentProblem _ _ | DeviceManager.Phantom _ _ => True | _ => False end.

Lemma identity_matches_iff i vid pid : identity_matches i vid pid = true ↔ denotes i vid pid.
Proof.
  unfold identity_matches, denotes, split_once. split.
  - destruct (find_char ":"%char i) as [n|] eqn:En; [|done]. apply find_char_Some in En as [Ei Hn]. cbn [mbind option_bind].
    rewrite andb_true_iff, orb_true_iff, !bool_decide_eq_true. intros [Hv Hp]. by exists (take n i), (drop (S n) i).
  - intros (v & w & Hv & -> & Ev & Hw). rewrite find_char_app by done. cbn [mbind option_bind]. rewrite drop_past, take_app_length.
    by rewrite andb_true_iff, orb_true_iff, !bool_decide_eq_true.
Qed.
Lemma identities_runs_as profile vid pid : match board_runtime_identities profile with
    Some ids => existsb (λ i, identity_matches i vid pid) ids | None => false end = true ↔ runs_as profile vid pid.
Proof.
  unfold board_runtime_identities, runs_as. split.
  - destruct (identities profile !! &"runtime") as [[|i ids]|] eqn:E; [done| |done]. intros (x & Hx%list_elem_of_In & Hm)%existsb_exists.
    exists (i :: ids), x. split; [done|]. split; [done|]. by apply identity_matches_iff.
  - intros (ids & i & -> & Hi & Hd%identity_matches_iff). destruct ids as [|j ids]; [by apply not_elem_of_nil in Hi|].
    apply existsb_exists. exists i. by rewrite <- list_elem_of_In.
Qed.
Lemma profiles_for_registered vid pid pr : pr ∈ profiles_for registry vid pid ↔ registered vid pid pr.
Proof.
  unfold profiles_for, registered. destruct registry as [inst|]; [|split; [by intros ?%not_elem_of_nil|by intros (? & ? & ? & _)]].
  rewrite (merge_sort_Permutation priority_ge), list_elem_of_fmap. setoid_rewrite list_elem_of_filter.
  assert (∀ e, identity_pid_matches e pid = true ↔ ∀ expected, ix_pid e = Some expected →
      match ix_mask e with Some mask => Z.land pid mask = Z.land expected mask | None => pid = expected end) as Hm.
  { intros e. unfold identity_pid_matches. destruct (ix_pid e) as [x|]; [|by split]. split.
    - intros H ? [= <-]. destruct (ix_mask e); by apply bool_decide_eq_true in H.
    - intros H. specialize (H x eq_refl). destruct (ix_mask e); by apply bool_decide_eq_true. }
  setoid_rewrite Hm. split.
  - intros (e & -> & [Hv Hp] & Hin). by exists inst, e.
  - intros (i & e & [= <-] & Hin & <- & Hv & Hp). by exists e.
Qed.
Lemma serves_platform_iff p profiles : profiles_match_deploy_target p profiles = true ↔ ∃ pr, pr ∈ profiles ∧ serves_platform p pr.
Proof.
  unfold profiles_match_deploy_target, serves_platform. rewrite existsb_exists. setoid_rewrite <- list_elem_of_In.
  split; intros (pr & Hpr & H); exists pr; (split; [done|]).
  - apply andb_true_iff in H as [[H1%bool_decide_eq_true H2%bool_decide_eq_true]%andb_true_iff H3]. split; [done|]. split; [set_solver|].
    destruct p; rewrite ?orb_true_iff, ?bool_decide_eq_true in H3; done.
  - destruct H as (H1 & H2 & H3). rewrite (bool_decide_true (purpose pr = Runtime)), (bool_decide_true (role pr ∈ _)) by (done || set_solver).
    cbn [andb]. destruct p; rewrite ?orb_true_iff, ?bool_decide_eq_true; done.
Qed.
Lemma is_target_iff p board_id vid pid : device_matches_deploy_target p board_id vid pid = true ↔ is_target p board_id vid pid.
Proof.
  unfold device_matches_deploy_target, is_target. rewrite orb_true_iff, serves_platform_iff. setoid_rewrite profiles_for_registered.
  assert (match board_id with Some id => board_runtime_identity_matches id vid pid | None => false end = true ↔
    ∃ id profile, board_id = Some id ∧ board_profile registry id = Some profile ∧ runs_as profile vid pid) as ->; [|done].
  setoid_rewrite <- identities_runs_as. unfold board_runtime_identity_matches. split.
  - destruct board_id as [id|]; [|done]. destruct (board_profile registry id) as [pf|] eqn:E; [|done]. intros H. by exists id, pf.
  - intros (id & pf & -> & -> & H). exact H.
Qed.
Lemma has_chip_iff board chip : chip = rp_family (rp_generation_for board) ↔ has_chip board chip.
Proof.
  unfold rp_generation_for, has_chip. destruct board as [b|]; [|cbn; naive_solver].
  destruct (starts_with _ _) eqn:E; cbn; [apply starts_with_iff in E|apply not_true_iff_false in E; rewrite starts_with_iff in E]; naive_solver.
Qed.
Lemma is_rp_target_iff board_id board vid pid : rp_match (rp_profile board_id board) (rp_generation_for board) vid pid = true ↔
  is_rp_target board_id board vid pid.
Proof.
  unfold rp_match, rp_runtime_identity_matches, is_rp_target, rp_profile. set (profile := _ ≫= board_profile registry).
  assert (rp_profiles_match_generation (profiles_for registry vid pid) (rp_generation_for board) = true ↔
    ∃ pr chip, registered vid pid pr ∧ purpose pr = Runtime ∧ role pr = RuntimeCdc ∧ family pr = Some chip ∧ has_chip board chip) as Hg.
  { unfold rp_profiles_match_generation. rewrite existsb_exists. setoid_rewrite <- list_elem_of_In. setoid_rewrite bool_decide_eq_true.
    setoid_rewrite profiles_for_registered. setoid_rewrite <- has_chip_iff. naive_solver. }
  assert (∀ pf, profile = Some pf → runs_as pf vid pid ↔ ∃ pf', profile = Some pf' ∧ runs_as pf' vid pid) as Hr by naive_solver.
  destruct profile as [pf|]; cbn [mbind option_bind].
  - rewrite <- (Hr pf eq_refl), <- identities_runs_as, <- Hg. unfold board_runtime_identities.
    destruct (identities pf !! &"runtime") as [[|i ids]|] eqn:E.
    + split; [intros H; right; split; [|done]; congruence|by intros [|[_ ?]]].
    + split; [by left|]. intros [|[Hn _]]; [done|]. by specialize (Hn pf (i :: ids) eq_refl E).
    + split; [intros H; right; split; [|done]; congruence|by intros [|[_ ?]]].
  - rewrite Hg. naive_solver.
Qed.
Lemma with_ids_iff f P d : (∀ vid pid, f vid pid = true ↔ P vid pid) → is_connected d && device_matches f d = true ↔ with_ids P d.
Proof.
  intros Hf. unfold with_ids, device_matches, device_identity. rewrite andb_true_iff. setoid_rewrite <- Hf.
  destruct (DeviceManager.vid d), (DeviceManager.pid d); cbn; naive_solver.
Qed.
Lemma eligible_iff p board_id d : eligible p board_id d = true ↔ with_ids (is_target p board_id) d.
Proof. apply with_ids_iff, is_target_iff. Qed.
Lemma rp_eligible_iff board_id board d : rp_eligible board_id board d = true ↔ with_ids (is_rp_target board_id board) d ∧ ¬ known_unhealthy d.
Proof.
  unfold rp_eligible. rewrite andb_true_iff, (with_ids_iff _ (is_rp_target board_id board)) by (apply is_rp_target_iff).
  unfold known_unhealthy, is_known_unhealthy. by destruct (port_health d); cbn; intuition.
Qed.

(** C30: the chosen port is a function of the set of devices.  A requested
    port is used as it is.  For a Raspberry Pi a port is chosen exactly when
    of the connected devices with ids of the target one alone is not known to
    be unhealthy, and then it is this device's.  For the other platforms it is
    the least port of the connected devices with ids of the target; none is
    chosen when there is none.  Whose ids they are is read off the registry:
    those of the board while it runs, or of a serial port of the platform. *)
Theorem choose_deploy_port_spec p board_id board devices port :
  (∀ r, choose_deploy_port (Some r) p board_id board devices = {| dc_port := Some r; dc_warning := None |}) ∧
  (p = RaspberryPi →
     dc_port (choose_deploy_port None p board_id board devices) = Some port ↔
     ∃ d, sole (λ d, with_ids (is_rp_target board_id board) d ∧ ¬ known_unhealthy d) devices d ∧ DeviceManager.port d = port) ∧
  (p ≠ RaspberryPi →
     dc_port (choose_deploy_port None p board_id board devices) = Some port ↔
     ∃ d, d ∈ devices ∧ with_ids (is_target p board_id) d ∧ DeviceManager.port d = port ∧
       ∀ d', d' ∈ devices → with_ids (is_target p board_id) d' → str_le port (DeviceManager.port d')).
Proof.
  split; [done|]. split; intros Hp.
  - setoid_rewrite (sole_filter (λ d, rp_eligible board_id board d = true) _ (rp_eligible_iff board_id board)). subst p. apply rp_choice.
  - setoid_rewrite <- eligible_iff. by apply profile_choice.
Qed.
End Choice.

(** ** Concrete devices *)

Definition board_at (p : str) (h : PortHealth) : DeviceState :=
  DeviceManager.fresh_device (f64_of_Z 1)
    {| DeviceManager.dd_port := p; DeviceManager.dd_device_id := &"2e8a:000a";
       DeviceManager.dd_description := &"USB Serial Device"; DeviceManager.dd_vid := Some 11914%Z;
       DeviceManager.dd_pid := Some 10%Z; DeviceManager.dd_vendor_name := None;
       DeviceManager.dd_product_name := None; DeviceManager.dd_is_cdc := None;
       DeviceManager.dd_serial_number := None; DeviceManager.dd_port_health := h;
       DeviceManager.dd_instance_id := None; DeviceManager.dd_parent_instance_id := None;
       DeviceManager.dd_location_paths := [] |}.
Definition gone_and_live : list DeviceState :=
  [board_at (&"COM3") (DeviceManager.Phantom (Some 45%Z) None); board_at (&"COM5") DeviceManager.HealthyPresent].
Definition no_usb_names (v p : Z) : option UsbInfo := None.

Lemma choose_deploy_port_spec_witness :
  ∃ d, sole (λ d, with_ids (is_rp_target (Some demo_registry) (Some (&"pico")) None) d ∧ ¬ known_unhealthy d) gone_and_live d ∧
    DeviceManager.port d = &"COM5".
Proof.
  apply (proj1 (proj1 (proj2 (choose_deploy_port_spec no_usb_names (Some demo_registry) RaspberryPi (Some (&"pico")) None
    gone_and_live (&"COM5"))) eq_refl)). by vm_compute.
Defined.

(** Finding: only the Raspberry Pi path looks at the health of a port.  A
    record of a board that is no longer plugged in is chosen for the other
    platforms, before the board that is. *)
Definition teensy_profile : UsbTransportProfile :=
  {| identity_match := identity_match pico_cdc; purpose := Runtime; role := RuntimeCdc; transport := &"cdc";
     reset := &"none"; handoff := &"none"; platform := Some (&"teensy"); family := None; generation := None;
     interface := None; provenance := provenance pico_cdc; priority := 10; allow_ambiguous := false |}.
Definition teensy_registry : InstalledProfiles :=
  {| in_identities := [{| ix_vid := 11914; ix_pid := Some 10%Z; ix_mask := None; ix_profile := teensy_profile |}];
     in_boards := ∅; in_aliases := ∅; in_ambiguous := ∅ |}.

Lemma phantom_port_chosen :
  dc_port (choose_deploy_port no_usb_names (Some teensy_registry) None Teensy None None gone_and_live) = Some (&"COM3").
Proof. by vm_compute. Qed.
