(* ===== verification/FileDisk.v ===== *)
(** * Files with their bytes and times

    The part of [std::fs] that fingerprints use: a finite map from paths to
    directories and files with contents and modification times.  There are no
    links.  Which writes the operating system refuses is an argument; what a
    walk of the [walkdir] package yields is the interface [WalkDir]. *)
From S2P Require Import Prelude RustStr CachePaths PathBuf.

Record FileData := { content : str; mtime : Z (* nanoseconds since the epoch *); readable : bool }.
Record DirData := { dir_size : Z; dir_mtime : Z; listable : bool }.
Inductive Entry := Directory (d : DirData) | Regular (f : FileData).

Abbreviation Disk := (gmap PathBuf Entry).

(** The errors of [fbuild_core::FbuildError] that occur here, without texts. *)
Inductive FbuildError := Io | BuildFailed | ConfigError.

(** Fallible operations that change the disk. *)
Definition IO (A : Type) : Type := Disk → result FbuildError A * Disk.
#[global] Instance IO_ret : MRet IO := λ A a D, (Ok a, D).
#[global] Instance IO_bind : MBind IO := λ A B k m D,
  match m D with (Ok a, D) => k a D | (Err e, D) => (Err e, D) end.
(** An operation that only looks. *)
Definition look {A} (f : Disk → result FbuildError A) : IO A := λ D, (f D, D).

Lemma IO_bind_unfold {A B} (m : IO A) (k : A → IO B) D :
  (m ≫= k) D = match m D with (Ok a, D) => k a D | (Err e, D) => (Err e, D) end.
Proof. done. Qed.

Lemma IO_bind_Ok {A B} (m : IO A) (k : A → IO B) D b D2 :
  (m ≫= k) D = (Ok b, D2) ↔ ∃ a D1, m D = (Ok a, D1) ∧ k a D1 = (Ok b, D2).
Proof. unfold mbind, IO_bind. destruct (m D) as [[a|e] D1]; naive_solver. Qed.

Definition exists_ (D : Disk) (p : PathBuf) : bool := bool_decide (is_Some (D !! p)).
Definition is_dir (D : Disk) (p : PathBuf) : bool :=
  match D !! p with Some (Directory _) => true | _ => false end.
Definition is_file (D : Disk) (p : PathBuf) : bool :=
  match D !! p with Some (Regular _) => true | _ => false end.

(** [std::fs::read] *)
Definition read (D : Disk) (p : PathBuf) : result FbuildError str :=
  match D !! p with
  | Some (Regular f) => if readable f then Ok (content f) else Err Io
  | _ => Err Io
  end.

(** [std::fs::metadata]: length and modification time. *)
Definition metadata (D : Disk) (p : PathBuf) : result FbuildError (Z * Z) :=
  match D !! p with
  | Some (Regular f) => Ok (Z.of_nat (length (content f)), mtime f)
  | Some (Directory d) => Ok (dir_size d, dir_mtime d)
  | None => Err Io
  end.

Definition holds (D : Disk) (p : PathBuf) (text : str) : Prop := ∃ f, D !! p = Some (Regular f) ∧ content f = text.

Section Writes.
Context (denied : PathBuf → bool) (now : Z).

(** The path and what is above it, from the top. *)
Definition ancestors_down (p : PathBuf) : list PathBuf := (λ n, take n p) <$> seq 1 (length p).

Definition make_dir (D : Disk) (p : PathBuf) : result FbuildError unit * Disk :=
  match D !! p with
  | Some (Directory _) => (Ok tt, D)
  | Some (Regular _) => (Err Io, D)
  | None =>
      if denied p then (Err Io, D)
      else (Ok tt, <[p := Directory {| dir_size := 0; dir_mtime := now; listable := true |}]> D)
  end.

Fixpoint make_dirs (ps : list PathBuf) : IO unit := λ D,
  match ps with
  | [] => (Ok tt, D)
  | p :: ps => match make_dir D p with (Ok _, D) => make_dirs ps D | (Err e, D) => (Err e, D) end
  end.
Definition create_dir_all (p : PathBuf) : IO unit := make_dirs (ancestors_down p).

(** [std::fs::write]: all of the bytes or none. *)
Definition write (p : PathBuf) (bytes : str) : IO unit := λ D,
  let put (r : bool) := (Ok tt, <[p := Regular {| content := bytes; mtime := now; readable := r |}]> D) in
  if denied p then (Err Io, D)
  else match D !! p with
       | Some (Directory _) => (Err Io, D)
       | Some (Regular f) => put (readable f)
       | None => if is_dir D (default [] (parent p)) then put true else (Err Io, D)
       end.

(** The directories that are made, and nothing else, change. *)
Lemma make_dirs_keeps ps D q : q ∉ ps ∨ is_Some (D !! q) → (make_dirs ps D).2 !! q = D !! q.
Proof.
  revert D. induction ps as [|p ps IH]; intros D Hq; [done|]. cbn [make_dirs].
  assert (∀ r D1, make_dir D p = (r, D1) → D1 !! q = D !! q) as Hone.
  { unfold make_dir. intros r D1. destruct (D !! p) as [[]|] eqn:Ep; [by intros [= <- <-]..|].
    destruct (denied p); intros [= <- <-]; [done|]. rewrite lookup_insert_ne; [done|]. intros ->.
    destruct Hq as [Hq|[? ?]]; [set_solver|congruence]. }
  destruct (make_dir D p) as [[[]|e] D1] eqn:E; specialize (Hone _ _ eq_refl); [|done].
  rewrite IH, Hone; [done|]. destruct Hq as [Hq|Hq]; [set_solver|]. right. by rewrite Hone.
Qed.

Lemma ancestors_down_elem p q : q ∈ ancestors_down p ↔ q `prefix_of` p ∧ q ≠ [].
Proof.
  unfold ancestors_down. rewrite list_elem_of_fmap. setoid_rewrite elem_of_seq. split.
  - intros (n & -> & Hn). split; [apply prefix_take|]. intros E. apply (f_equal length) in E.
    rewrite length_take in E. cbn in E. lia.
  - intros [[k ->] Hq]. exists (length q). rewrite take_app_length. split; [done|].
    rewrite length_app. destruct q; [done|]. cbn. lia.
Qed.

Lemma write_keeps p bytes D q : q ≠ p → (write p bytes D).2 !! q = D !! q.
Proof.
  intros Hq. unfold write. destruct (denied p); [done|]. destruct (D !! p) as [[]|]; [done|..].
  - cbn. by rewrite lookup_insert_ne.
  - destruct (is_dir _ _); cbn; [by rewrite lookup_insert_ne|done].
Qed.

Lemma write_Ok p c D D' : write p c D = (Ok tt, D') →
  holds D' p c ∧ is_dir D p = false ∧ ∀ q, q ≠ p → D' !! q = D !! q.
Proof.
  intros E. split_and!.
  - unfold write in E. cbv zeta in E. destruct (denied p); [done|].
    destruct (D !! p) as [[]|]; [done|..|destruct (is_dir D (default [] (parent p))); [|done]];
      injection E as <-; eexists; (split; [apply lookup_insert_eq|done]).
  - unfold write, is_dir in *. destruct (denied p); [done|]. by destruct (D !! p) as [[]|].
  - intros q Hq. pose proof (write_keeps p c D q Hq) as H. by rewrite E in H.
Qed.

Lemma make_dirs_Ok ps D D' : make_dirs ps D = (Ok tt, D') →
  (∀ q, q ∈ ps → is_dir D' q = true) ∧ ∀ q, D' !! q = D !! q ∨ q ∈ ps ∧ D !! q = None ∧ is_dir D' q = true.
Proof.
  revert D. induction ps as [|p ps IH]; intros D; cbn [make_dirs].
  { intros [= <-]. split; [by intros ? ?%not_elem_of_nil|by left]. }
  destruct (make_dir D p) as [[[]|e] D1] eqn:E; [|done]. intros H. apply IH in H as [Hd Hk].
  assert (is_dir D1 p = true ∧ ∀ q, D1 !! q = D !! q ∨ q = p ∧ D !! q = None) as [Hp Hk1].
  { unfold make_dir in E. unfold is_dir. destruct (D !! p) as [[d|f]|] eqn:Ep; [|done|].
    - injection E as <-. rewrite Ep. split; [done|by left].
    - destruct (denied p); [done|]. injection E as <-. rewrite lookup_insert_eq. split; [done|]. intros q.
      destruct (decide (q = p)) as [->|]; [by right|]. left. by rewrite lookup_insert_ne. }
  assert (is_dir D' p = true) as Hp'.
  { destruct (Hk p) as [H|(_ & _ & H)]; [|done]. unfold is_dir in *. by rewrite H. }
  split; [intros q [->|Hq]%elem_of_cons; [done|by apply Hd]|]. intros q.
  destruct (Hk q) as [H|(Hq & HN & H)], (Hk1 q) as [H1|[-> H1]].
  - left. congruence.
  - right. split; [left|]. done.
  - right. split; [by right|]. split; [congruence|done].
  - right. split; [left|]. done.
Qed.
End Writes.

(** ** Walks

    [WalkDir::new(root).into_iter().filter_entry(keep).flatten()] yields every
    entry at or below the root that can be reached through listable
    directories, as long as [keep] holds of it and of all above it, once and
    in no particular order; entries that cannot be read are dropped. *)
Class WalkDir := walk_dir : Disk → PathBuf → (PathBuf → bool) → list PathBuf.

Definition opens (D : Disk) (p : PathBuf) : bool :=
  match D !! p with Some (Directory d) => listable d | _ => false end.

Class WalkDirOk (W : WalkDir) := {
  walk_dir_elem D root keep p : p ∈ walk_dir D root keep ↔
    root `prefix_of` p ∧ is_Some (D !! p) ∧
    ∀ q, root `prefix_of` q → q `prefix_of` p → keep q = true ∧ (q ≠ p → opens D q = true);
  walk_dir_NoDup D root keep : NoDup (walk_dir D root keep);
}.

(** A walk to evaluate with: the paths of the disk in the order of the map. *)
Definition between_paths (root p : PathBuf) : list PathBuf :=
  (λ n, take n p) <$> seq (length root) (S (length p) - length root).
Definition reaches (D : Disk) (root : PathBuf) (keep : PathBuf → bool) (p : PathBuf) : bool :=
  bool_decide (root `prefix_of` p) &&
  forallb (λ q, keep q && (bool_decide (q = p) || opens D q)) (between_paths root p).
Definition scan_walk : WalkDir := λ D root keep,
  filter (λ p, reaches D root keep p = true) (map_to_list D).*1.

Lemma between_paths_elem root p q : root `prefix_of` p →
  q ∈ between_paths root p ↔ root `prefix_of` q ∧ q `prefix_of` p.
Proof.
  intros [k Hk]. unfold between_paths. rewrite list_elem_of_fmap. setoid_rewrite elem_of_seq. split.
  - intros (n & -> & Hn). split; [|apply prefix_take]. exists (take (n - length root) k).
    by rewrite Hk, take_app_ge by lia.
  - intros [[j ->] [l ->]]. exists (length (root ++ j)). rewrite take_app_length. split; [done|].
    rewrite !length_app. lia.
Qed.

Lemma keys_elem {A} (m : gmap PathBuf A) p : p ∈ (map_to_list m).*1 ↔ is_Some (m !! p).
Proof.
  rewrite list_elem_of_fmap. split.
  - intros ([q a] & -> & H%elem_of_map_to_list). by eexists.
  - intros [a H]. exists (p, a). by rewrite elem_of_map_to_list.
Qed.

#[global] Instance scan_walk_ok : WalkDirOk scan_walk.
Proof.
  split; unfold walk_dir, scan_walk.
  - intros D root keep p. rewrite list_elem_of_filter, keys_elem. unfold reaches.
    rewrite andb_true_iff, bool_decide_eq_true, forallb_forall. setoid_rewrite <- list_elem_of_In. split.
    + intros [[Hr Hall] He]. split_and!; [done|done|]. intros q Hq1 Hq2.
      specialize (Hall q). rewrite between_paths_elem in Hall by done.
      apply andb_true_iff in Hall as [? Hall]; [|done]. split; [done|]. intros Hne.
      apply orb_true_iff in Hall as [Hall|?]; [by apply bool_decide_eq_true in Hall|done].
    + intros (Hr & He & Hall). split; [split; [done|]|done]. intros q Hq%between_paths_elem; [|done].
      destruct (Hall q) as [Hk Ho]; [tauto..|]. apply andb_true_iff. split; [done|].
      destruct (bool_decide_reflect (q = p)); [done|]. by apply Ho.
  - intros D root keep. apply NoDup_filter, NoDup_fst_map_to_list.
Qed.
