(* ===== verification/Fingerprint.v ===== *)
(** * [fbuild-build-engine/src/build_fingerprint/mod.rs]

    Digests of sets of files and of watched trees, with the stamp caches that
    spare reading files again.  The digests, the walk and [serde_json] are
    interfaces; a hasher is the text fed to it so far. *)
From S2P Require Import Prelude RustStr CachePaths PathBuf NormPath LibCache FileDisk.
From stdpp Require Import sorting.
Local Open Scope Z.

(** [serde_json::to_vec], [to_vec_pretty] and [from_slice]. *)
Class Json (A : Type) := {
  to_vec : A → option str;
  to_vec_pretty : A → option str;
  from_slice : str → option A;
}.
(** Values whose integers fit their types are written, and read back. *)
Class JsonOk (A : Type) (J : Json A) (fits : A → Prop) := {
  to_vec_pretty_some a : fits a → is_Some (to_vec_pretty a);
  from_to_vec_pretty a b : fits a → to_vec_pretty a = Some b → from_slice b = Some a;
}.

Definition BUILD_FINGERPRINT_VERSION : Z := 2.
Definition WATCH_STAMP_CACHE_VERSION : Z := 2.

(** [fbuild_core::SizeInfo] *)
Record SizeInfo := {
  text : Z; data : Z; bss : Z; total_flash : Z; total_ram : Z;
  max_flash : option Z; max_ram : option Z;
}.

Record PersistedBuildFingerprint := {
  version : Z;
  metadata_hash : str;
  file_set_hash : option str;
  size_info : option SizeInfo;
}.

Record FileStamp := { len : Z; modified_secs : Z; modified_nanos : Z }.
#[global] Instance FileStamp_eq_dec : EqDecision FileStamp.
Proof. solve_decision. Defined.

Record WatchFileStamp := { relative_path : str; stamp : FileStamp; content_hash : str }.
Record PersistedWatchStampCache := { cache_version : Z; files : list WatchFileStamp }.

Record BinArtifactCache := {
  bin_version : Z; bin_elf_stamp : FileStamp; flash_mode : str; flash_freq : str; flash_size : str;
  esptool_fingerprint : str;
}.
Record SizeArtifactCache := { size_version : Z; size_elf_stamp : FileStamp; size_size_info : SizeInfo }.

Definition default_fingerprint : PersistedBuildFingerprint :=
  {| version := BUILD_FINGERPRINT_VERSION; metadata_hash := []; file_set_hash := None; size_info := None |}.

(** [zccache.rs]: a watched tree. *)
Record FingerprintWatch := {
  cache_file : PathBuf;
  root : PathBuf;
  extensions : list str;
  excludes : list str;
}.

(** [duration_since(UNIX_EPOCH)] fails for a time before the epoch. *)
Definition stamp_of (len mtime : Z) : result FbuildError FileStamp :=
  if mtime <? 0 then Err BuildFailed
  else Ok {| len := len; modified_secs := mtime / 10 ^ 9; modified_nanos := mtime mod 10 ^ 9 |}.

Definition from_path (D : Disk) (path : PathBuf) : result FbuildError FileStamp :=
  m <-? metadata D path; stamp_of m.1 m.2.

Definition normalize_path (path : PathBuf) : str := NormPath.path_text (normalize path).
Definition normalize_paths (paths : list PathBuf) : list str := merge_sort str_le (normalize_path <$> paths).

Definition nul : ascii := "000"%char.
Definition u64_le (n : Z) : str := to_le_bytes 8 n.

(** ** Paths relative to a root *)

Definition relative_path_for_hash (root path : PathBuf) : str :=
  normalize_path (default path (strip_path root path)).

Definition path_for_hash (root : option PathBuf) (path : PathBuf) : str :=
  match root with None => normalize_path path | Some r => relative_path_for_hash r path end.

Fixpoint common_path_prefix (p q : PathBuf) : PathBuf :=
  match p, q with
  | c :: p, d :: q => if decide (c = d) then c :: common_path_prefix p q else []
  | _, _ => []
  end.

Definition common_parent_for_hash (paths : list PathBuf) : option PathBuf :=
  let shared := foldl (λ shared path,
    let up := default [] (parent path) in
    Some (match shared with None => up | Some existing => common_path_prefix existing up end)) None paths in
  match shared with Some [] => None | _ => shared end.

(** ** Names of files *)

(** [rsplit_file_at_dot]: around the last dot, unless only it leads the name. *)
Fixpoint rsplit_dot (s : str) : option (str * str) :=
  match s with
  | [] => None
  | c :: s =>
      match rsplit_dot s with
      | Some (a, b) => Some (c :: a, b)
      | None => if decide (c = "."%char) then Some ([], s) else None
      end
  end.
Definition split_file_name (n : str) : str * option str :=
  match rsplit_dot n with Some (c :: a, b) => (c :: a, Some b) | _ => (n, None) end.
Definition extension (p : PathBuf) : option str := file_name p ≫= λ n, (split_file_name n).2.
Definition with_extension (p : PathBuf) (ext : str) : PathBuf :=
  match file_name p with
  | None => p
  | Some n => removelast p ++ [Normal ((split_file_name n).1 ++ (if decide (ext = []) then [] else &"." ++ ext))]
  end.

Definition watch_identity (watch : FingerprintWatch) : str :=
  match file_name (cache_file watch) with
  | Some name => display_slash (new_normalized name)
  | None => normalize_path (root watch)
  end.

Definition watch_stamp_cache_path (watch : FingerprintWatch) : PathBuf :=
  with_extension (cache_file watch) (&"stamp_cache.json").

Definition matches_extension (path : PathBuf) (extensions : list str) : bool :=
  match extensions with
  | [] => true
  | _ =>
      let ext := to_ascii_lowercase (default [] (extension path)) in
      existsb (λ candidate, bool_decide (to_ascii_lowercase candidate = to_ascii_lowercase ext)) extensions
  end.

Definition should_descend (D : Disk) (path root : PathBuf) (excludes : list str) : bool :=
  if decide (path = root) then true
  else if negb (is_dir D path) then true
  else negb (bool_decide (default [] (file_name path) ∈ excludes)).

(** ** JSON files *)

Section JsonFiles.
Context {A : Type} {J : Json A}.

Definition load_json (D : Disk) (path : PathBuf) : result FbuildError (option A) :=
  if negb (exists_ D path) then Ok None
  else
    bytes <-? read D path;
    match from_slice bytes with Some value => Ok (Some value) | None => Err BuildFailed end.

Context (denied : PathBuf → bool) (now : Z).

Definition write_if_changed (path : PathBuf) (bytes : str) : IO unit := λ D,
  match read D path with
  | Ok existing => if decide (existing = bytes) then (Ok tt, D) else write denied now path bytes D
  | Err _ => write denied now path bytes D
  end.

Definition save_json (path : PathBuf) (value : A) : IO unit :=
  _ ← match parent path with Some up => create_dir_all denied now up | None => mret tt end;
  match to_vec_pretty value with
  | None => λ D, (Err BuildFailed, D)
  | Some bytes => write_if_changed path bytes
  end.
End JsonFiles.

(** ** Digests *)

Section Hashing.
Context {HS : Sha256} {B3 : Blake3} {W : WalkDir}.

Definition sha256_hex (bytes : str) : str := hex_encode (sha256 bytes).

Definition stable_hash_json {A} {J : Json A} (value : A) : result FbuildError str :=
  match to_vec value with Some bytes => Ok (sha256_hex bytes) | None => Err BuildFailed end.

Definition content_hash_hex (D : Disk) (path : PathBuf) : result FbuildError str :=
  bytes <-? read D path; Ok (hex_encode (blake3 bytes)).

Definition by_text_then_path (a b : str * PathBuf) : Prop :=
  if decide (a.1 = b.1) then path_le a.2 b.2 else str_le a.1 b.1.
#[global] Instance by_text_then_path_dec : RelDecision by_text_then_path.
Proof. intros a b. unfold by_text_then_path. case_decide; apply _. Defined.

(** What [hash_files] feeds to the hasher for one file, and for all. *)
Definition file_update (D : Disk) (e : str * PathBuf) : result FbuildError str :=
  if negb (exists_ D e.2) then Ok (&"missing" ++ [nul] ++ e.1 ++ [nul])
  else
    bytes <-? read D e.2;
    Ok (&"path" ++ [nul] ++ e.1 ++ [nul] ++ len_bytes bytes ++ bytes).

Fixpoint updates {A} (f : A → result FbuildError str) (l : list A) : result FbuildError str :=
  match l with [] => Ok [] | a :: l => x <-? f a; y <-? updates f l; Ok (x ++ y) end.

Definition sorted_paths (paths : list PathBuf) : list (str * PathBuf) :=
  merge_sort by_text_then_path ((λ p, (path_for_hash (common_parent_for_hash paths) p, p)) <$> paths).

Definition hash_files (D : Disk) (paths : list PathBuf) : result FbuildError str :=
  t <-? updates (file_update D) (sorted_paths paths); Ok (hex_encode (sha256 t)).

(** The files of a watch, sorted. *)
Definition watched_files (D : Disk) (watch : FingerprintWatch) : list PathBuf :=
  merge_sort path_le (filter (λ p, is_file D p && matches_extension p (extensions watch) = true)
    (walk_dir D (root watch) (λ p, should_descend D p (root watch) (excludes watch)))).

Definition by_identity (a b : FingerprintWatch) : Prop := str_le (watch_identity a) (watch_identity b).
#[global] Instance by_identity_dec : RelDecision by_identity := λ a b, decide (str_le _ _).
Definition ordered (watches : list FingerprintWatch) : list FingerprintWatch := merge_sort by_identity watches.

Definition watch_head (watch : FingerprintWatch) : str := &"watch" ++ [nul] ++ watch_identity watch ++ [nul].
Definition missing_root : str := &"missing-root" ++ [nul].

Definition watch_update (D : Disk) (watch : FingerprintWatch) : result FbuildError str :=
  if negb (exists_ D (root watch)) then Ok (watch_head watch ++ missing_root)
  else
    t <-? updates (λ file,
            bytes <-? read D file;
            Ok (&"file" ++ [nul] ++ relative_path_for_hash (root watch) file ++ [nul] ++ len_bytes bytes ++ blake3 bytes))
          (watched_files D watch);
    Ok (watch_head watch ++ t).

Definition hash_watch_set (D : Disk) (watches : list FingerprintWatch) : result FbuildError str :=
  t <-? updates (watch_update D) (ordered watches); Ok (hex_encode (sha256 t)).

(** ** With remembered stamps *)

Context {JW : Json PersistedWatchStampCache}.

Definition load_watch_stamp_cache (D : Disk) (path : PathBuf) : PersistedWatchStampCache :=
  match load_json D path with
  | Ok (Some cache) =>
      if decide (cache_version cache = WATCH_STAMP_CACHE_VERSION) then cache
      else {| cache_version := WATCH_STAMP_CACHE_VERSION; files := [] |}
  | _ => {| cache_version := WATCH_STAMP_CACHE_VERSION; files := [] |}
  end.

Definition previous_files (cache : PersistedWatchStampCache) : gmap str WatchFileStamp :=
  foldl (λ m file, <[relative_path file := file]> m) ∅ (files cache).

(** One turn of the loop over the files. *)
Definition stamp_file (content_hash_of : PathBuf → result FbuildError str) (D : Disk)
    (previous : gmap str WatchFileStamp) (root file : PathBuf) : result FbuildError WatchFileStamp :=
  let rel := relative_path_for_hash root file in
  st <-? from_path D file;
  h <-? match previous !! rel with
        | Some p => if decide (stamp p = st) then Ok (content_hash p) else content_hash_of file
        | None => content_hash_of file
        end;
  Ok {| relative_path := rel; stamp := st; content_hash := h |}.

Fixpoint stamp_files (stamp_one : PathBuf → result FbuildError WatchFileStamp) (l : list PathBuf) :
    result FbuildError (list WatchFileStamp) :=
  match l with [] => Ok [] | p :: l => f <-? stamp_one p; fs <-? stamp_files stamp_one l; Ok (f :: fs) end.

Definition stamp_update (f : WatchFileStamp) : str :=
  &"file" ++ [nul] ++ relative_path f ++ [nul] ++ u64_le (len (stamp f)) ++ content_hash f.

Context (denied : PathBuf → bool) (now : Z).

Section Inner.
Context (content_hash_of : Disk → PathBuf → result FbuildError str).

(** One turn of the loop over the watches: what is fed to the hasher. *)
Definition stamp_watch (watch : FingerprintWatch) : IO str := λ D,
  if negb (exists_ D (root watch)) then (Ok (watch_head watch ++ missing_root), D)
  else
    let previous := previous_files (load_watch_stamp_cache D (watch_stamp_cache_path watch)) in
    match stamp_files (stamp_file (content_hash_of D) D previous (root watch)) (watched_files D watch) with
    | Err e => (Err e, D)
    | Ok next_files =>
        (save_json denied now (watch_stamp_cache_path watch)
           {| cache_version := WATCH_STAMP_CACHE_VERSION; files := next_files |} ≫= λ _,
         mret (watch_head watch ++ (next_files ≫= stamp_update))) D
    end.

Fixpoint stamp_watches (watches : list FingerprintWatch) : IO str :=
  match watches with
  | [] => mret []
  | w :: watches => x ← stamp_watch w; y ← stamp_watches watches; mret (x ++ y)
  end.

Definition hash_watch_set_stamps_inner (watches : list FingerprintWatch) : IO str :=
  t ← stamp_watches (ordered watches); mret (hex_encode (sha256 t)).
End Inner.

Definition hash_watch_set_stamps : list FingerprintWatch → IO str :=
  hash_watch_set_stamps_inner content_hash_hex.

(** The daemon's memory of such hashes, [trait WatchSetStampCache], over the
    state [C] of an implementation. *)
Class WatchSetStampCache (C : Type) := {
  wc_get : list FingerprintWatch → C → option str * C;
  wc_put : list FingerprintWatch → str → C → C;
}.

Definition hash_watch_set_stamps_cached {C} {WC : WatchSetStampCache C} (watches : list FingerprintWatch)
    (cache : option C) (D : Disk) : result FbuildError str * option C * Disk :=
  let '(found, cache) :=
    match cache with Some c => let '(h, c) := wc_get watches c in (h, Some c) | None => (None, None) end in
  match found with
  | Some hash => (Ok hash, cache, D)
  | None =>
      match hash_watch_set_stamps watches D with
      | (Err e, D) => (Err e, cache, D)
      | (Ok hash, D) => (Ok hash, wc_put watches hash <$> cache, D)
      end
  end.
End Hashing.
