(* ===== verification/FastPath.v ===== *)
(** * [fbuild-build-engine/src/build_fingerprint/fast_path.rs]

    Reuse of a previous build whose metadata and watched inputs are unchanged,
    and its place in the build of [fbuild-build-arm/src/rp2040/orchestrator.rs].
    The embedded fingerprint engine is the interface [Zccache]. *)
From S2P Require Import Prelude RustStr CachePaths PathBuf NormPath LibCache FileDisk Fingerprint.
Local Open Scope Z.

Definition FAST_PATH_EXTENSIONS : list str :=
  [&"a"; &"bin"; &"c"; &"cc"; &"cpp"; &"csv"; &"elf"; &"h"; &"hh"; &"hpp"; &"ino"; &"json"; &"ld"; &"lds"; &"py";
   &"s"; &"S"; &"txt"].
Definition FAST_PATH_EXCLUDES : list str :=
  [&".cache"; &".fbuild"; &".git"; &".pio"; &".venv"; &".vscode"; &"__pycache__"; &"build"; &"node_modules";
   &"target"; &"venv"].

Definition fast_path_watch (cache_name : str) (build_dir root : PathBuf) : FingerprintWatch :=
  {| cache_file := buf_join build_dir (&"." ++ cache_name ++ &".zccache_fp.json");
     root := root; extensions := FAST_PATH_EXTENSIONS; excludes := FAST_PATH_EXCLUDES |}.

(** [CompileDatabase::expected_output_path], given whether the project is a
    library. *)
Definition expected_output_path (is_library : bool) (build_dir project_dir : PathBuf) : PathBuf :=
  buf_join (if is_library then build_dir else project_dir) (&"compile_commands.json").

Definition expected_fast_path_artifacts (is_library : bool) (build_dir project_dir : PathBuf) (output_names : list str) :
    PathBuf * list PathBuf * PathBuf :=
  (buf_join build_dir (&"firmware.elf"), buf_join build_dir <$> output_names,
   expected_output_path is_library build_dir project_dir).

(** ** The contract *)

Record FastPathContract := {
  build_dir : PathBuf;
  fingerprint_path : PathBuf;
  watches : list FingerprintWatch;
  required_artifacts : list PathBuf;
}.

Definition new_contract (build_dir : PathBuf) : FastPathContract :=
  {| build_dir := build_dir; fingerprint_path := buf_join build_dir (&"build_fingerprint.json");
     watches := []; required_artifacts := [] |}.

Definition add_watch_root (cache_name : str) (root : PathBuf) (c : FastPathContract) : FastPathContract :=
  {| build_dir := build_dir c; fingerprint_path := fingerprint_path c;
     watches := watches c ++ [fast_path_watch cache_name (build_dir c) root];
     required_artifacts := required_artifacts c |}.

Definition add_default_watches (project_dir : PathBuf) (c : FastPathContract) : FastPathContract :=
  add_watch_root (&"dep_libs") (buf_join (build_dir c) (&"libs")) (add_watch_root (&"project") project_dir c).

Definition add_required_artifacts (artifacts : list PathBuf) (c : FastPathContract) : FastPathContract :=
  {| build_dir := build_dir c; fingerprint_path := fingerprint_path c; watches := watches c;
     required_artifacts := required_artifacts c ++ artifacts |}.

Definition for_project_outputs (build_dir project_dir : PathBuf) (artifacts : list PathBuf) : FastPathContract :=
  add_required_artifacts artifacts (add_default_watches project_dir (new_contract build_dir)).

(** ** The embedded engine, [zccache.rs] *)

Inductive FingerprintCheck := Changed | Unchanged.

Class Zccache := {
  check_fingerprint_embedded : FingerprintWatch → Disk → result unit FingerprintCheck * Disk;
  mark_fingerprint_success_embedded : FingerprintWatch → Disk → result unit unit * Disk;
}.

Definition check_fingerprint {Z : Zccache} (watch : FingerprintWatch) (D : Disk) :
    result FbuildError FingerprintCheck * Disk :=
  match check_fingerprint_embedded watch D with
  | (Ok c, D) => (Ok c, D)
  | (Err _, D) => (Err BuildFailed, D)
  end.
Definition mark_fingerprint_success {Z : Zccache} (watch : FingerprintWatch) (D : Disk) :
    result FbuildError unit * Disk :=
  match mark_fingerprint_success_embedded watch D with
  | (Ok _, D) => (Ok tt, D)
  | (Err _, D) => (Err BuildFailed, D)
  end.

(** ** Inputs and results *)

Record FastPathCheckInputs := {
  check_metadata_hash : str;
  extra_artifact_ok : option (Disk → bool);
  check_compiler_cache : bool;
}.
Record FastPathPersistInputs := {
  persist_metadata_hash : str;
  persist_size_info : option SizeInfo;
  persist_compiler_cache : bool;
}.
Record FastPathHit := { persisted : PersistedBuildFingerprint; hit_size_info : option SizeInfo }.

Section FastPath.
Context {HS : Sha256} {B3 : Blake3} {W : WalkDir} {Zc : Zccache}.
Context {JW : Json PersistedWatchStampCache} {JF : Json PersistedBuildFingerprint}.
Context (denied : PathBuf → bool) (now : Z) {C : Type} {WC : WatchSetStampCache C}.

Definition check_with_stamps (watches : list FingerprintWatch) (previous : PersistedBuildFingerprint)
    (cache : option C) (D : Disk) : bool * option C * Disk :=
  match file_set_hash previous with
  | None => (false, cache, D)
  | Some previous_hash =>
      match hash_watch_set_stamps_cached denied now watches cache D with
      | (Ok current_hash, cache, D) => (bool_decide (current_hash = previous_hash), cache, D)
      | (Err _, cache, D) => (false, cache, D)
      end
  end.

(** The loop of [check_with_zccache]: [zccache_ok] and [changed]. *)
Fixpoint zccache_loop (watches : list FingerprintWatch) (D : Disk) : bool * bool * Disk :=
  match watches with
  | [] => (true, false, D)
  | w :: watches =>
      match check_fingerprint w D with
      | (Ok Unchanged, D) => zccache_loop watches D
      | (Ok Changed, D) => (true, true, D)
      | (Err _, D) => (false, false, D)
      end
  end.

Definition check_with_zccache (watches : list FingerprintWatch) (previous : PersistedBuildFingerprint)
    (cache : option C) (D : Disk) : bool * option C * Disk :=
  let '(zccache_ok, changed, D) := zccache_loop watches D in
  if zccache_ok then (negb changed, cache, D) else check_with_stamps watches previous cache D.

Definition fast_path_check (contract : FastPathContract) (inputs : FastPathCheckInputs) (cache : option C) (D : Disk) :
    result FbuildError (option FastPathHit) * option C * Disk :=
  let persisted := match load_json D (fingerprint_path contract) with Ok value => value | Err _ => None end in
  match persisted with
  | None => (Ok None, cache, D)
  | Some previous =>
      if negb (bool_decide (version previous = BUILD_FINGERPRINT_VERSION)) then (Ok None, cache, D)
      else if negb (bool_decide (metadata_hash previous = check_metadata_hash inputs)) then (Ok None, cache, D)
      else if negb (forallb (exists_ D) (required_artifacts contract)) then (Ok None, cache, D)
      else if negb (match extra_artifact_ok inputs with Some check => check D | None => true end)
      then (Ok None, cache, D)
      else
        let '(file_set_matches, cache, D) :=
          if check_compiler_cache inputs then check_with_zccache (watches contract) previous cache D
          else check_with_stamps (watches contract) previous cache D in
        if negb file_set_matches then (Ok None, cache, D)
        else (Ok (Some {| persisted := previous; hit_size_info := size_info previous |}), cache, D)
  end.

Fixpoint mark_all (watches : list FingerprintWatch) (D : Disk) : Disk :=
  match watches with [] => D | w :: watches => mark_all watches (mark_fingerprint_success w D).2 end.

Definition persist_fast_path_success (contract : FastPathContract) (inputs : FastPathPersistInputs)
    (cache : option C) (D : Disk) : option C * Disk :=
  let '(hashed, cache, D) := hash_watch_set_stamps_cached denied now (watches contract) cache D in
  let fp :=
    {| version := BUILD_FINGERPRINT_VERSION; metadata_hash := persist_metadata_hash inputs;
       file_set_hash := match hashed with Ok h => Some h | Err _ => None end;
       size_info := persist_size_info inputs |} in
  let D := (save_json denied now (fingerprint_path contract) fp D).2 in
  (cache, if persist_compiler_cache inputs then mark_all (watches contract) D else D).
End FastPath.

(** ** The result of a reused build *)

Record FastPathResultInputs := {
  platform_label : str; mcu : str; env_name : str;
  firmware_path : PathBuf; elf_path : PathBuf; compile_database_path : PathBuf;
}.

(** [crate::BuildResult], without times and logs. *)
Record BuildResult := {
  success : bool;
  result_firmware_path : option PathBuf;
  result_elf_path : option PathBuf;
  result_size_info : option SizeInfo;
  message : str;
  result_compile_database_path : option PathBuf;
}.

Definition assemble_fast_path_result (hit : FastPathHit) (inputs : FastPathResultInputs) : BuildResult :=
  {| success := true;
     result_firmware_path := Some (firmware_path inputs);
     result_elf_path := Some (elf_path inputs);
     result_size_info := hit_size_info hit;
     message := platform_label inputs ++ &" (" ++ mcu inputs ++ &") build for " ++ env_name inputs ++
                &" reused cached artifacts";
     result_compile_database_path := Some (compile_database_path inputs) |}.

(** ** A build around the fast path

    The order of [rp2040/orchestrator.rs]; what compiles, links and converts
    is the argument [compile], any change of the disk. *)
Record BuildParams := {
  compiledb_only : bool;
  symbol_analysis : bool;
  symbol_analysis_path : option PathBuf;
}.

Definition reuses (p : BuildParams) : bool :=
  negb (compiledb_only p) && negb (symbol_analysis p) && bool_decide (symbol_analysis_path p = None).

Inductive Outcome := Reused (r : BuildResult) | Built (r : BuildResult) | Failed (e : FbuildError).

Section Build.
Context {HS : Sha256} {B3 : Blake3} {W : WalkDir} {Zc : Zccache}.
Context {JW : Json PersistedWatchStampCache} {JF : Json PersistedBuildFingerprint}.
Context (denied : PathBuf → bool) (now : Z) {C : Type} {WC : WatchSetStampCache C}.

Definition build (contract : FastPathContract) (params : BuildParams) (metadata_hash : str)
    (result_inputs : FastPathResultInputs) (compile : IO BuildResult) (cache : option C) (D : Disk) :
    Outcome * option C * Disk :=
  let '(checked, cache, D) :=
    if reuses params then
      fast_path_check denied now contract
        {| check_metadata_hash := metadata_hash; extra_artifact_ok := None; check_compiler_cache := false |} cache D
    else (Ok None, cache, D) in
  match checked with
  | Err e => (Failed e, cache, D)
  | Ok (Some hit) => (Reused (assemble_fast_path_result hit result_inputs), cache, D)
  | Ok None =>
      match compile D with
      | (Err e, D) => (Failed e, cache, D)
      | (Ok r, D) =>
          if success r && reuses params then
            let '(cache, D) :=
              persist_fast_path_success denied now contract
                {| persist_metadata_hash := metadata_hash; persist_size_info := result_size_info r;
                   persist_compiler_cache := false |} cache D in
            (Built r, cache, D)
          else (Built r, cache, D)
      end
  end.
End Build.
