(* ===== verification/FingerprintFacts.v ===== *)
(** * What the digests of watched trees say

    The text that is hashed determines the watched files and their digests;
    with honest stamps, the text made with remembered hashes is the text made
    from the contents; and the files a build writes for itself are not seen. *)
From S2P Require Import Prelude RustStr CachePaths CachePathFacts PathBuf NormPath LibCache FileDisk Fingerprint.
From stdpp Require Import sorting.
Local Open Scope Z.

(** The digests have 32 bytes. *)
Class Blake3Ok (B : Blake3) := { blake3_length s : length (blake3 (Blake3 := B) s) = 32%nat }.

(** ** Codes that can be read from the front *)

Definition prefix_code {A} (ok : A → Prop) (f : A → str) : Prop :=
  ∀ a b r s, ok a → ok b → f a ++ r = f b ++ s → a = b ∧ r = s.

Lemma byte_of_inj a b : 0 ≤ a < 256 → 0 ≤ b < 256 → byte_of (Z.to_N a) = byte_of (Z.to_N b) → a = b.
Proof.
  intros Ha Hb H. unfold byte_of in H. apply (f_equal N_of_ascii) in H.
  rewrite !N_ascii_embedding in H by lia. lia.
Qed.

Lemma to_le_bytes_length n v : length (to_le_bytes n v) = n.
Proof. revert v. induction n as [|n IH]; intros v; cbn; [done|]. by rewrite IH. Qed.

Lemma to_le_bytes_inj n u v : 0 ≤ u < 256 ^ Z.of_nat n → 0 ≤ v < 256 ^ Z.of_nat n →
  to_le_bytes n u = to_le_bytes n v → u = v.
Proof.
  revert u v. induction n as [|n IH]; intros u v Hu Hv; [cbn in *; lia|]. cbn [to_le_bytes].
  rewrite Nat2Z.inj_succ, Z.pow_succ_r in Hu, Hv by lia. intros [= H1 H2].
  apply byte_of_inj in H1; [|by apply Z.mod_pos_bound..].
  apply IH in H2; [|split; [apply Z.div_pos; lia|apply Z.div_lt_upper_bound; lia]..].
  rewrite (Z.div_mod u 256), (Z.div_mod v 256) by lia. lia.
Qed.

Lemma u64_code : prefix_code (λ n, 0 ≤ n < 2 ^ 64) u64_le.
Proof.
  intros u v r s Hu Hv H. unfold u64_le in H. apply app_inj_1 in H as [H ->]; [|by rewrite !to_le_bytes_length].
  split; [|done]. by apply (to_le_bytes_inj 8).
Qed.

Lemma nul_code : prefix_code (λ s, nul ∉ s) (λ s, s ++ [nul]).
Proof. intros a b r s Ha Hb. rewrite <- !app_assoc. by apply first_split_inj. Qed.

Lemma fixed_code n : prefix_code (λ s : str, length s = n) (λ s, s).
Proof. intros a b r s Ha Hb H. apply app_inj_1 in H; [done|congruence]. Qed.

Definition hex_value (c : ascii) : Z := let n := Z.of_N (N_of_ascii c) in if n <? 58 then n - 48 else n - 87.
Definition unhex_byte (s : str) : ascii :=
  match s with h :: l :: _ => byte_of (Z.to_N (16 * hex_value h + hex_value l)) | _ => nul end.
Lemma unhex_hex_byte b : unhex_byte (hex_byte b) = b.
Proof. by destruct b as [[] [] [] [] [] [] [] []]. Qed.

Lemma hex_encode_length s : length (hex_encode s) = (2 * length s)%nat.
Proof. induction s as [|b s IH]; [done|]. change (hex_encode (b :: s)) with (hex_byte b ++ hex_encode s). cbn. lia. Qed.

Lemma hex_encode_inj s t : hex_encode s = hex_encode t → s = t.
Proof.
  revert t. induction s as [|b s IH]; intros [|c t] H; [done|done..|].
  change (hex_byte b ++ hex_encode s = hex_byte c ++ hex_encode t) in H.
  apply app_inj_1 in H as [H1 H2]; [|done]. f_equal; [|by apply IH].
  by rewrite <- (unhex_hex_byte b), <- (unhex_hex_byte c), H1.
Qed.

(** ** The hashed text is decodable *)

(** A watched file in the text: its relative path, length and digest. *)
Definition item : Type := str * Z * str.
Definition item_ok (n : nat) (i : item) : Prop := nul ∉ i.1.1 ∧ 0 ≤ i.1.2 < 2 ^ 64 ∧ length i.2 = n.
Definition item_text (i : item) : str := &"file" ++ [nul] ++ i.1.1 ++ [nul] ++ u64_le i.1.2 ++ i.2.

Lemma item_code n : prefix_code (item_ok n) item_text.
Proof.
  intros [[p l] h] [[p' l'] h'] r s (Hp & Hl & Hh) (Hp' & Hl' & Hh') H. cbn [fst snd] in *.
  unfold item_text in H. cbn [fst snd] in H. rewrite <- !app_assoc in H. apply app_inv_head, app_inv_head in H.
  rewrite !(app_assoc _ [nul]) in H. apply nul_code in H as [-> H]; [|done..].
  apply u64_code in H as [-> H]; [|done..]. apply (fixed_code n) in H as [-> ->]; done.
Qed.

(** What follows the items of a watch does not begin like an item. *)
Lemma items_code n l k r s : Forall (item_ok n) l → Forall (item_ok n) k → head r ≠ Some "f"%char → head s ≠ Some "f"%char →
  (l ≫= item_text) ++ r = (k ≫= item_text) ++ s → l = k ∧ r = s.
Proof.
  intros Hl. revert k. induction Hl as [|i l Hi Hl IH]; intros k Hk Hr Hs H.
  - destruct Hk as [|j k Hj Hk]; [done|]. exfalso. apply Hr. cbn in H. by rewrite H.
  - destruct Hk as [|j k Hj Hk]; [exfalso; apply Hs; cbn in H; by rewrite <- H|].
    cbn [mbind list_bind] in H. rewrite <- !app_assoc in H. apply (item_code n) in H as [-> H]; [|done..].
    apply IH in H as [-> ->]; done.
Qed.

(** A watch in the text: nothing, for a missing root, or its items. *)
Definition view : Type := option (list item).
Definition view_ok (n : nat) (v : view) : Prop := match v with Some l => Forall (item_ok n) l | None => True end.
Definition view_text (e : FingerprintWatch * view) : str :=
  watch_head e.1 ++ match e.2 with None => missing_root | Some l => l ≫= item_text end.

Lemma view_text_head l : head (l ≫= view_text) ≠ Some "f"%char.
Proof. by destruct l as [|[w v] l]. Qed.

Lemma one_view_code n w v u r s : view_ok n v → view_ok n u → head r ≠ Some "f"%char → head s ≠ Some "f"%char →
  head r ≠ Some "m"%char → head s ≠ Some "m"%char →
  view_text (w, v) ++ r = view_text (w, u) ++ s → v = u ∧ r = s.
Proof.
  intros Hv Hu Hr Hs Hr' Hs' H. unfold view_text in H. cbn [fst snd] in H. rewrite <- !app_assoc in H.
  apply app_inv_head in H. destruct v as [l|], u as [k|]; cbn [view_ok] in *.
  - apply (items_code n) in H as [-> ->]; done.
  - exfalso. destruct l as [|i l]; [apply Hr'; cbn in H; by rewrite H|by cbn in H].
  - exfalso. destruct k as [|i k]; [apply Hs'; cbn in H; by rewrite <- H|by cbn in H].
  - split; [done|]. by apply app_inv_head in H.
Qed.

Lemma view_text_head_m l : head (l ≫= view_text) ≠ Some "m"%char.
Proof. by destruct l as [|[w v] l]. Qed.

(** The text of the same watches determines what was seen of each. *)
Lemma views_code n ws vs us : length vs = length ws → length us = length ws →
  Forall (view_ok n) vs → Forall (view_ok n) us →
  (zip ws vs ≫= view_text) = (zip ws us ≫= view_text) → vs = us.
Proof.
  revert vs us. induction ws as [|w ws IH]; intros [|v vs] [|u us] Hl1 Hl2 Hv Hu H; try done.
  apply Forall_cons in Hv as [Hv Hvs], Hu as [Hu Hus]. cbn [zip_with mbind list_bind] in H.
  apply (one_view_code n) in H as [-> H]; try done; try apply view_text_head; try apply view_text_head_m.
  f_equal. apply IH; [by injection Hl1|by injection Hl2|done..].
Qed.

(** ** Sorted lists are determined by their elements *)

#[global] Instance component_key_inj : Inj (=) (=) component_key.
Proof. intros c d. destruct c, d; cbn; try done. by intros [= ->]. Qed.

#[global] Instance path_le_antisymm : AntiSymm (=) path_le.
Proof.
  intros p q H1 H2. assert (AntiSymm (=) str_le) by (intros s t; apply str_le_antisym).
  apply (inj (fmap component_key)). by apply (anti_symm (lex_le str_le)).
Qed.

Lemma merge_sort_path_ext l k : l ≡ₚ k → merge_sort path_le l = merge_sort path_le k.
Proof.
  intros H. apply (StronglySorted_unique path_le); [apply (StronglySorted_merge_sort path_le)..|].
  by rewrite !(merge_sort_Permutation path_le).
Qed.

(** ** What a walk sees *)

Section Watched.
Context {HS : Sha256} {B3 : Blake3} {W : WalkDir} {WOk : WalkDirOk W}.

Lemma watched_elem D w p : p ∈ watched_files D w ↔
  is_file D p = true ∧ matches_extension p (extensions w) = true ∧ root w `prefix_of` p ∧
  ∀ q, root w `prefix_of` q → q `prefix_of` p →
    should_descend D q (root w) (excludes w) = true ∧ (q ≠ p → opens D q = true).
Proof.
  unfold watched_files. rewrite (merge_sort_Permutation path_le), list_elem_of_filter, walk_dir_elem, andb_true_iff.
  split; [tauto|]. intros (Hf & He & Hr & Hq). split_and!; try done. unfold is_file in Hf.
  destruct (D !! p); [by eexists|done].
Qed.

Lemma watched_NoDup D w : NoDup (watched_files D w).
Proof. unfold watched_files. rewrite (merge_sort_Permutation path_le). apply NoDup_filter, walk_dir_NoDup. Qed.

Lemma watched_ext D D' w : (∀ p, p ∈ watched_files D w ↔ p ∈ watched_files D' w) → watched_files D w = watched_files D' w.
Proof.
  intros H. apply (StronglySorted_unique path_le);
    [apply (StronglySorted_merge_sort path_le)..|]. apply NoDup_Permutation; [apply watched_NoDup..|done].
Qed.

Lemma is_file_read D p : is_file D p = true ↔ ∃ f, D !! p = Some (Regular f).
Proof. unfold is_file. destruct (D !! p) as [[]|]; naive_solver. Qed.

(** A file that no walk of the watch reports. *)
Definition hidden (w : FingerprintWatch) (p : PathBuf) : Prop :=
  p ≠ root w ∧
  (¬ root w `prefix_of` p ∨ matches_extension p (extensions w) = false ∨
   ∃ q n, root w `prefix_of` q ∧ q `prefix_of` p ∧ q ≠ root w ∧ q ≠ p ∧ file_name q = Some n ∧ n ∈ excludes w).

Lemma hidden_not_watched D w p : hidden w p → p ∉ watched_files D w.
Proof.
  intros [_ Hh] Hp. apply watched_elem in Hp as (_ & He & Hr & Hq).
  destruct Hh as [Hh|[Hh|(q & n & H1 & H2 & H3 & H4 & H5 & H6)]]; [done|congruence|].
  destruct (Hq q H1 H2) as [Hd Ho]. specialize (Ho H4). unfold should_descend in Hd. rewrite decide_False in Hd by done.
  unfold is_dir, opens in *. destruct (D !! q) as [[d|f]|]; [|done..].
  cbn [negb] in Hd. rewrite H5 in Hd. cbn [default] in Hd. by rewrite bool_decide_true in Hd.
Qed.

(** Disks that differ in files of [P] only. *)
Definition agree (P : list PathBuf) (D D' : Disk) : Prop :=
  (∀ q, q ∉ P → D' !! q = D !! q) ∧ (∀ q, q ∈ P → is_dir D q = false ∧ is_dir D' q = false).

Lemma agree_refl P D : (∀ q, q ∈ P → is_dir D q = false) → agree P D D.
Proof. intros H. split; [done|]. auto. Qed.
Lemma agree_trans P D1 D2 D3 : agree P D1 D2 → agree P D2 D3 → agree P D1 D3.
Proof. intros [H1 K1] [H2 K2]. split; [intros q Hq; by rewrite H2, H1|]. intros q Hq. split; [by apply K1|by apply K2]. Qed.
Lemma agree_sym P D D' : agree P D D' → agree P D' D.
Proof. intros [H K]. split; [intros q Hq; by rewrite H|]. intros q Hq. specialize (K q Hq). tauto. Qed.

Lemma agree_dir P D D' q : agree P D D' → is_dir D' q = is_dir D q ∧ opens D' q = opens D q.
Proof.
  intros [H K]. destruct (decide (q ∈ P)) as [Hq|Hq].
  - destruct (K q Hq) as [K1 K2]. unfold is_dir, opens in *.
    destruct (D !! q) as [[]|], (D' !! q) as [[]|]; by try done.
  - unfold is_dir, opens. by rewrite H.
Qed.

Lemma watched_agree_sub P D D' w p : agree P D D' → (∀ q, q ∈ P → hidden w q) →
  p ∈ watched_files D w → p ∈ watched_files D' w.
Proof.
  intros HD HP Hp. assert (p ∉ P) as HpP by (intros Hp'; by apply (hidden_not_watched D w p (HP p Hp'))).
  apply watched_elem in Hp as (Hf & He & Hr & Hq). apply watched_elem. split_and!; [|done..|].
  - unfold is_file in *. destruct HD as [HD _]. by rewrite HD.
  - intros q Hq1 Hq2. destruct (Hq q Hq1 Hq2) as [Hd Ho]. destruct (agree_dir P D D' q HD) as [Ed Eo].
    rewrite Eo. split; [|done]. unfold should_descend in *. by rewrite Ed.
Qed.

(** The watch sees the same files, with the same contents. *)
Lemma watched_agree P D D' w : agree P D D' → (∀ q, q ∈ P → hidden w q) →
  watched_files D' w = watched_files D w ∧ exists_ D' (root w) = exists_ D (root w) ∧
  ∀ p, p ∈ watched_files D w → D' !! p = D !! p.
Proof.
  intros HD HP. split_and!.
  - apply watched_ext. intros p. split; apply (watched_agree_sub P); try done. by apply agree_sym.
  - unfold exists_. destruct HD as [HD _]. rewrite HD; [done|]. intros Hr. by destruct (HP _ Hr).
  - intros p Hp. destruct HD as [HD _]. apply HD. intros HpP. by apply (hidden_not_watched D w p (HP p HpP)).
Qed.

(** ** What a watch sees, and the text made from it *)

Definition file_data (D : Disk) (p : PathBuf) : FileData :=
  match D !! p with Some (Regular f) => f | _ => {| content := []; mtime := 0; readable := true |} end.

(** The inputs of a build: of every watch whether its root is there, and the
    relative paths and contents of its files. *)
Definition watch_input (D : Disk) (w : FingerprintWatch) : option (list (str * str)) :=
  if exists_ D (root w) then
    Some ((λ p, (relative_path_for_hash (root w) p, content (file_data D p))) <$> watched_files D w)
  else None.
Definition inputs (D : Disk) (ws : list FingerprintWatch) := watch_input D <$> ordered ws.

Definition digest_of (f : str * str) : item := (f.1, Z.of_nat (length f.2), hex_encode (blake3 f.2)).
Definition input_view (i : option (list (str * str))) : view :=
  match i with Some l => Some (digest_of <$> l) | None => None end.
Definition inputs_text (D : Disk) (ws : list FingerprintWatch) : str :=
  zip (ordered ws) (input_view <$> inputs D ws) ≫= view_text.

Lemma watch_input_agree P D D' w : agree P D D' → (∀ q, q ∈ P → hidden w q) → watch_input D' w = watch_input D w.
Proof.
  intros HD HP. destruct (watched_agree P D D' w HD HP) as (Hw & He & Hc). unfold watch_input. rewrite He, Hw.
  destruct (exists_ D (root w)); [|done]. f_equal. apply list_fmap_ext. intros i p Hp.
  unfold file_data. rewrite (Hc p); [done|]. by eapply list_elem_of_lookup_2.
Qed.

Lemma ordered_elem ws w : w ∈ ordered ws ↔ w ∈ ws.
Proof. unfold ordered. by rewrite (merge_sort_Permutation by_identity). Qed.

Lemma inputs_agree P D D' ws : agree P D D' → (∀ w q, w ∈ ws → q ∈ P → hidden w q) → inputs D' ws = inputs D ws.
Proof.
  intros HD HP. apply list_fmap_ext. intros i w Hw. apply (watch_input_agree P); [done|].
  intros q. apply HP, ordered_elem. by eapply list_elem_of_lookup_2.
Qed.

(** Names without NUL and lengths of a machine. *)
Definition watched_ok (D : Disk) (w : FingerprintWatch) : Prop :=
  ∀ p, p ∈ watched_files D w → nul ∉ relative_path_for_hash (root w) p ∧
    Z.of_nat (length (content (file_data D p))) < 2 ^ 64 ∧ mtime (file_data D p) < 2 ^ 64 * 10 ^ 9.

Context {B3Ok : Blake3Ok B3}.

Lemma input_view_ok D w : watched_ok D w → view_ok 64 (input_view (watch_input D w)).
Proof.
  intros Hok. unfold watch_input. destruct (exists_ D (root w)); [|done]. cbn. rewrite <- list_fmap_compose.
  apply Forall_fmap, Forall_forall. intros p Hp. destruct (Hok p Hp) as (Hn & Hl & _). unfold item_ok. cbn.
  split_and!; [done|lia|lia|]. by rewrite hex_encode_length, blake3_length.
Qed.

(** The BLAKE3 digests of the contents seen do not collide. *)
Definition blake3_injective_on (bs : list str) : Prop := ∀ a b, a ∈ bs → b ∈ bs → blake3 a = blake3 b → a = b.
Definition contents (i : list (option (list (str * str)))) : list str := i ≫= λ o, snd <$> default [] o.

Lemma input_view_inj bs i j : blake3_injective_on bs → contents [i] ⊆ bs → contents [j] ⊆ bs →
  input_view i = input_view j → i = j.
Proof.
  intros Hinj. unfold contents. cbn. rewrite !app_nil_r. destruct i as [l|], j as [k|]; cbn; try done.
  intros Hl Hk [= H]. f_equal. revert k Hk H. induction l as [|[p b] l IH]; intros [|[q c] k] Hk H; try done.
  cbn in Hl, Hk. injection H as -> _ Hh H. apply hex_encode_inj in Hh.
  rewrite (Hinj b c); [|apply Hl; left|apply Hk; left|done]. f_equal. apply IH; [|intros x Hx; apply Hk; by right|done].
  intros x Hx. apply Hl. by right.
Qed.

Lemma inputs_view_inj bs vs us : blake3_injective_on bs → contents vs ⊆ bs → contents us ⊆ bs →
  input_view <$> vs = input_view <$> us → vs = us.
Proof.
  intros Hinj. revert us. induction vs as [|i vs IH]; intros [|j us] Hi Hj H; try done.
  injection H as H1 H2. f_equal.
  - apply (input_view_inj bs); [done|..|done]; intros x Hx; [apply Hi|apply Hj];
      unfold contents in *; cbn [mbind list_bind] in *; rewrite app_nil_r in Hx; by apply elem_of_app; left.
  - apply IH; [..|done]; intros x Hx; [apply Hi|apply Hj]; unfold contents in *; cbn; by apply elem_of_app; right.
Qed.

(** The text that is hashed determines the inputs. *)
Lemma inputs_text_inj D D' ws : (∀ w, w ∈ ws → watched_ok D w ∧ watched_ok D' w) →
  blake3_injective_on (contents (inputs D ws) ++ contents (inputs D' ws)) →
  inputs_text D ws = inputs_text D' ws → inputs D ws = inputs D' ws.
Proof.
  intros Hok Hinj H. apply (views_code 64) in H; try (unfold inputs; by rewrite !length_fmap).
  - eapply inputs_view_inj; [done|..|done]; intros x Hx; apply elem_of_app; tauto.
  - apply Forall_fmap, Forall_fmap, Forall_forall. intros w Hw. rewrite ordered_elem in Hw.
    destruct (Hok w Hw). by apply input_view_ok.
  - apply Forall_fmap, Forall_fmap, Forall_forall. intros w Hw. rewrite ordered_elem in Hw.
    destruct (Hok w Hw). by apply input_view_ok.
Qed.
End Watched.
