(* ===== verification/FastPathFacts.v ===== *)
(** * A reused build is the build of the current inputs

    Remembered stamps give the digest of the contents when stamps are honest;
    along every history of edits, checks and builds a hit means that the
    artifacts were made from the inputs that are there now, and a build whose
    inputs did not change is reused. *)
From S2P Require Import Prelude RustStr CachePaths PathBuf NormPath LibCache FileDisk Fingerprint FastPath FingerprintFacts.
Local Open Scope Z.

(** ** What fits the types *)

Definition fits_u64 (n : Z) : Prop := 0 ≤ n < 2 ^ 64.
Definition stamp_fits (s : FileStamp) : Prop :=
  fits_u64 (len s) ∧ fits_u64 (modified_secs s) ∧ 0 ≤ modified_nanos s < 2 ^ 32.
Definition cache_fits (c : PersistedWatchStampCache) : Prop :=
  0 ≤ cache_version c < 2 ^ 32 ∧ Forall (λ f, stamp_fits (stamp f)) (files c).
Definition size_fits (s : SizeInfo) : Prop :=
  fits_u64 (text s) ∧ fits_u64 (data s) ∧ fits_u64 (bss s) ∧ fits_u64 (total_flash s) ∧ fits_u64 (total_ram s) ∧
  from_option fits_u64 True (max_flash s) ∧ from_option fits_u64 True (max_ram s).
Definition fingerprint_fits (f : PersistedBuildFingerprint) : Prop :=
  0 ≤ version f < 2 ^ 32 ∧ from_option size_fits True (size_info f).

(** ** Saving and loading *)

Section Saving.
Context (denied : PathBuf → bool) (now : Z) {A : Type} {J : Json A} {fits : A → Prop} {JOk : JsonOk A J fits}.

Definition above (D : Disk) (d : PathBuf) : Prop := ∀ q, q ∈ ancestors_down d → is_dir D q = true.

Lemma make_dirs_there ps D : (∀ q, q ∈ ps → is_dir D q = true) → make_dirs denied now ps D = (Ok tt, D).
Proof.
  induction ps as [|p ps IH]; intros H; [done|]. cbn [make_dirs]. unfold make_dir.
  assert (is_dir D p = true) as Hp by (apply H; left). unfold is_dir in Hp.
  destruct (D !! p) as [[d|f]|]; [|done..]. apply IH. intros q Hq. apply H. by right.
Qed.

Lemma above_parent D p d : parent p = Some d → above D d → d = [] ∨ is_dir D d = true.
Proof.
  intros _ H. destruct (decide (d = [])) as [->|Hd]; [by left|right].
  apply H, ancestors_down_elem. split; [done|done].
Qed.

(** A saved value replaces the file, or nothing happens. *)
Lemma save_json_spec p d v D : parent p = Some d → above D d → is_dir D p = false →
  ∃ r D', save_json denied now p v D = (r, D') ∧ agree [p] D D' ∧
    match r with
    | Ok _ => ∃ f, D' !! p = Some (Regular f) ∧ to_vec_pretty v = Some (content f)
    | Err _ => D' = D
    end.
Proof.
  intros Hp Hd Hnd. assert (agree [p] D D) as Hrefl.
  { apply agree_refl. by intros q ->%list_elem_of_singleton. }
  unfold save_json, mbind at 1, IO_bind. rewrite Hp. unfold create_dir_all. rewrite make_dirs_there by done.
  destruct (to_vec_pretty v) as [bytes|]; [|by exists (Err BuildFailed), D].
  assert (∃ r D', write denied now p bytes D = (r, D') ∧ agree [p] D D' ∧
    match r with Ok _ => ∃ f, D' !! p = Some (Regular f) ∧ Some bytes = Some (content f) | Err _ => D' = D end) as Hw.
  { destruct (write denied now p bytes D) as [r D'] eqn:E. exists r, D'. split; [done|].
    pose proof (write_keeps denied now p bytes D) as Hk. rewrite E in Hk. cbn [snd] in Hk.
    assert ((D' = D ∧ is_ok r = false) ∨ ∃ f, D' !! p = Some (Regular f) ∧ content f = bytes ∧ is_ok r = true) as Hcase.
    { unfold write in E. cbv zeta in E. destruct (denied p); [left; by injection E as <- <-|].
      destruct (D !! p) as [[]|]; [left; by injection E as <- <-|..].
      - right. injection E as <- <-. rewrite lookup_insert_eq. by eexists.
      - destruct (is_dir D (default [] (parent p))); [right|left; by injection E as <- <-].
        injection E as <- <-. rewrite lookup_insert_eq. by eexists. }
    destruct Hcase as [[-> Hr]|(f & Hf & Hc & Hr)]; destruct r; try done.
    split; [|exists f; by rewrite Hc]. split.
    - intros q Hq. apply Hk. set_solver.
    - intros q ->%list_elem_of_singleton. split; [done|]. unfold is_dir. by rewrite Hf. }
  unfold write_if_changed. destruct (read D p) as [old|] eqn:Er; [|done].
  destruct (decide (old = bytes)) as [->|]; [|done]. exists (Ok tt), D. split; [done|]. split; [done|].
  unfold read in Er. destruct (D !! p) as [[|f]|]; [done| |done]. exists f. split; [done|].
  destruct (readable f); [|done]. by injection Er as ->.
Qed.

(** With its directory there and leave to write, a value is saved. *)
Lemma save_not_denied p d v D bytes e D' : parent p = Some d → above D d → is_dir D p = false → denied p = false →
  to_vec_pretty v = Some bytes → d ≠ [] → save_json denied now p v D ≠ (Err e, D').
Proof.
  intros Hp Hd Hnd Hw Hj Hroot. unfold save_json. rewrite IO_bind_unfold, Hp. unfold create_dir_all.
  rewrite make_dirs_there, Hj by done. unfold write_if_changed.
  assert (write denied now p bytes D ≠ (Err e, D')) as Hwr.
  { unfold write. cbv zeta. rewrite Hw. unfold is_dir in Hnd. destruct (D !! p) as [[]|]; [done..|].
    rewrite Hp. change (default [] (Some d)) with d.
    destruct (above_parent D p d Hp Hd) as [->|Hdir]; [done|by rewrite Hdir]. }
  destruct (read D p); [|done]. by destruct (decide _).
Qed.

Lemma load_json_ext D D' p : D' !! p = D !! p → load_json D' p = load_json (A := A) D p.
Proof. intros H. unfold load_json, exists_, read. by rewrite H. Qed.

(** What is loaded later is what was saved, if the file can be read. *)
Lemma load_saved D p f v w : fits v → D !! p = Some (Regular f) → to_vec_pretty v = Some (content f) →
  load_json D p = Ok (Some w) → w = v.
Proof.
  intros Hv Hf Hc. unfold load_json, exists_, read. rewrite Hf, bool_decide_true by by eexists. cbn.
  destruct (readable f); cbn; [|done]. rewrite (from_to_vec_pretty _ _ Hv Hc). by intros [= ->].
Qed.
End Saving.

(** ** Honest stamps *)

Section Stamps.
Context {HS : Sha256} {B3 : Blake3} {B3Ok : Blake3Ok B3} {W : WalkDir} {WOk : WalkDirOk W}.
Context {JW : Json PersistedWatchStampCache} {JWOk : JsonOk _ JW cache_fits}.

(** A file seen by a watch, by its relative path. *)
Definition observed (D : Disk) (w : FingerprintWatch) (rel : str) (st : FileStamp) (b : str) : Prop :=
  ∃ p, p ∈ watched_files D w ∧ rel = relative_path_for_hash (root w) p ∧
    stamp_of (Z.of_nat (length (content (file_data D p)))) (mtime (file_data D p)) = Ok st ∧ content (file_data D p) = b.

(** A file of a watch that was seen twice with one stamp had one content. *)
Definition honest (past : list Disk) (ws : list FingerprintWatch) : Prop :=
  ∀ w D D' rel st b b', w ∈ ws → D ∈ past → D' ∈ past → observed D w rel st b → observed D' w rel st b' → b = b'.

(** Every remembered digest is that of a content seen with its stamp. *)
Definition backed (past : list Disk) (w : FingerprintWatch) (cache : PersistedWatchStampCache) : Prop :=
  ∀ f, f ∈ files cache → ∃ D b, D ∈ past ∧ observed D w (relative_path f) (stamp f) b ∧ content_hash f = hex_encode (blake3 b).

(** What the watch sees now was also seen at one of these moments. *)
Definition seen (past : list Disk) (D : Disk) (w : FingerprintWatch) : Prop :=
  ∀ rel st b, observed D w rel st b → ∃ D0, D0 ∈ past ∧ observed D0 w rel st b.

Lemma backed_mono past past' w cache : past ⊆ past' → backed past w cache → backed past' w cache.
Proof. intros Hs H f Hf. destruct (H f Hf) as (D & b & ? & ?). exists D, b. auto. Qed.

Lemma previous_files_Some cache rel f : previous_files cache !! rel = Some f → f ∈ files cache ∧ relative_path f = rel.
Proof.
  unfold previous_files. assert (∀ l (m : gmap str WatchFileStamp),
    foldl (λ m file, <[relative_path file := file]> m) m l !! rel = Some f →
    (f ∈ l ∧ relative_path f = rel) ∨ m !! rel = Some f) as Hgen.
  { induction l as [|g l IH]; intros m H; cbn in H; [by right|].
    destruct (IH _ H) as [[? ?]|Hm]; [left; split; [by right|done]|].
    destruct (decide (relative_path g = rel)) as [<-|Hne].
    - rewrite lookup_insert_eq in Hm. injection Hm as ->. left. split; [left|done].
    - rewrite lookup_insert_ne in Hm by done. by right. }
  intros H. destruct (Hgen _ _ H) as [?|H']; [done|]. by rewrite lookup_empty in H'.
Qed.

Lemma watched_file D w p : p ∈ watched_files D w → D !! p = Some (Regular (file_data D p)).
Proof. intros (Hf & _)%watched_elem. apply is_file_read in Hf as [f Hf]. unfold file_data. by rewrite Hf. Qed.

Lemma from_path_observed D w p st : p ∈ watched_files D w → from_path D p = Ok st →
  observed D w (relative_path_for_hash (root w) p) st (content (file_data D p)) ∧
  len st = Z.of_nat (length (content (file_data D p))).
Proof.
  intros Hp H. pose proof (watched_file D w p Hp) as Hf. unfold from_path, metadata in H. rewrite Hf in H. cbn in H.
  split; [by exists p|]. unfold stamp_of in H. destruct (_ <? _); [done|]. by injection H as <-.
Qed.

(** A remembered digest is used only where it is the digest of the content. *)
Lemma stamp_file_fresh past D w ws cache p f : w ∈ ws → seen past D w → honest past ws → backed past w cache →
  p ∈ watched_files D w →
  stamp_file (content_hash_hex D) D (previous_files cache) (root w) p = Ok f →
  stamp_update f = item_text (digest_of (relative_path_for_hash (root w) p, content (file_data D p))) ∧
  observed D w (relative_path f) (stamp f) (content (file_data D p)) ∧
  content_hash f = hex_encode (blake3 (content (file_data D p))).
Proof.
  intros Hw HD Hh Hb Hp H. unfold stamp_file in H. apply result_bind_Ok in H as (st & Hst & H).
  apply result_bind_Ok in H as (h & Hhash & [= <-]). destruct (from_path_observed D w p st Hp Hst) as [Hobs Hlen].
  assert (content_hash_hex D p = Ok h → h = hex_encode (blake3 (content (file_data D p)))) as Hread.
  { unfold content_hash_hex, read. rewrite (watched_file D w p Hp). by destruct (readable _); intros [= <-]. }
  assert (h = hex_encode (blake3 (content (file_data D p)))) as ->.
  { destruct (previous_files cache !! _) as [g|] eqn:Eg; [|by apply Hread].
    destruct (decide (stamp g = st)) as [Es|]; [|by apply Hread]. injection Hhash as <-.
    apply previous_files_Some in Eg as [Hg Hrel]. destruct (Hb g Hg) as (D0 & b & HD0 & Hobs0 & ->).
    rewrite Hrel, Es in Hobs0. destruct (HD _ _ _ Hobs) as (D1 & HD1 & Hobs1).
    do 2 f_equal. by eapply (Hh w D0 D1). }
  split; [|by split]. unfold stamp_update, item_text, digest_of. cbn. by rewrite Hlen.
Qed.

Lemma stamp_files_fresh past D w ws cache l fs : w ∈ ws → seen past D w → honest past ws → backed past w cache →
  (∀ p, p ∈ l → p ∈ watched_files D w) →
  stamp_files (stamp_file (content_hash_hex D) D (previous_files cache) (root w)) l = Ok fs →
  (fs ≫= stamp_update) =
    (digest_of <$> ((λ p, (relative_path_for_hash (root w) p, content (file_data D p))) <$> l)) ≫= item_text ∧
  ∀ f, f ∈ fs → ∃ p, p ∈ l ∧ observed D w (relative_path f) (stamp f) (content (file_data D p)) ∧
    content_hash f = hex_encode (blake3 (content (file_data D p))).
Proof.
  intros Hw HD Hh Hb. revert fs. induction l as [|p l IH]; intros fs Hl H; cbn [stamp_files] in H.
  { injection H as <-. split; [done|]. by intros f ?%not_elem_of_nil. }
  apply result_bind_Ok in H as (f & Hf & H). apply result_bind_Ok in H as (fs' & Hfs & [= <-]).
  apply (stamp_file_fresh past D w ws) in Hf as (Ht & Ho & Hc); [|try done..|apply Hl; left].
  destruct (IH fs') as [Ht' Ho']; [intros q Hq; apply Hl; by right|done|]. split.
  - cbn [mbind list_bind fmap list_fmap]. by rewrite Ht, <- Ht'.
  - intros g [->|Hg]%elem_of_cons; [exists p; split; [left|done]|].
    destruct (Ho' g Hg) as (q & Hq & ?). exists q. split; [by right|done].
Qed.

Lemma stamp_fits_observed D w rel st b : watched_ok D w → observed D w rel st b → stamp_fits st.
Proof.
  intros Hok (p & Hp & -> & Hst & _). destruct (Hok p Hp) as (_ & Hl & Hm). unfold stamp_of in Hst.
  destruct (Z.ltb_spec (mtime (file_data D p)) 0); [done|]. injection Hst as <-.
  change (10 ^ 9) with 1000000000 in *. unfold stamp_fits, fits_u64. cbn [len modified_secs modified_nanos].
  pose proof (Z.mod_pos_bound (mtime (file_data D p)) 1000000000).
  assert (0 ≤ mtime (file_data D p) / 1000000000 < 2 ^ 64); [|lia].
  split; [apply Z.div_pos; lia|apply Z.div_lt_upper_bound; lia].
Qed.

Context (denied : PathBuf → bool) (now : Z).

(** One watch: its text, and the cache it leaves. *)
Lemma stamp_watch_spec past ws w d D : w ∈ ws → seen past D w → honest past ws →
  backed past w (load_watch_stamp_cache D (watch_stamp_cache_path w)) → watched_ok D w →
  parent (watch_stamp_cache_path w) = Some d → above D d → is_dir D (watch_stamp_cache_path w) = false →
  ∃ r D', stamp_watch denied now content_hash_hex w D = (r, D') ∧ agree [watch_stamp_cache_path w] D D' ∧
    backed past w (load_watch_stamp_cache D' (watch_stamp_cache_path w)) ∧
    match r with Ok t => t = view_text (w, input_view (watch_input D w)) | Err _ => True end.
Proof.
  intros Hw HD Hh Hb Hok Hp Ha Hnd. set (path := watch_stamp_cache_path w) in *.
  assert (agree [path] D D) as Hrefl by (apply agree_refl; by intros q ->%list_elem_of_singleton).
  unfold stamp_watch, watch_input. fold path. destruct (exists_ D (root w)); cbn [negb].
  2: { by eexists _, D. }
  destruct (stamp_files _ _) as [fs|e] eqn:Ef; [|by eexists _, D].
  apply (stamp_files_fresh past D w ws) in Ef as [Ht Ho]; try done.
  set (c := {| cache_version := WATCH_STAMP_CACHE_VERSION; files := fs |}).
  assert (cache_fits c) as Hfit.
  { split; [by split|]. apply Forall_forall. intros f Hf. destruct (Ho f Hf) as (p & _ & Hobs & _).
    by eapply stamp_fits_observed. }
  destruct (save_json_spec denied now path d c D Hp Ha Hnd) as (r & D' & Hs & Hag & Hr).
  rewrite IO_bind_unfold, Hs. destruct r as [[]|e]; [|rewrite Hr; by eexists _, D].
  destruct Hr as (f & Hf & Hj). eexists _, D'. split; [done|]. split; [done|]. split.
  - unfold load_watch_stamp_cache. destruct (load_json D' path) as [[c'|]|] eqn:El;
      try (intros x Hx; by apply not_elem_of_nil in Hx).
    rewrite (load_saved (fits := cache_fits) D' path f c c' Hfit Hf Hj El). cbn.
    intros g Hg. destruct (Ho g Hg) as (p & Hpl & Hobs & Hc). destruct (HD _ _ _ Hobs) as (D1 & HD1 & Hobs1).
    by exists D1, (content (file_data D p)).
  - unfold view_text. cbn [fst snd input_view]. by rewrite Ht.
Qed.

(** The files a build keeps for itself: the stamp caches and [extra] ones,
    all in one directory, apart from each other, and hidden from the watches. *)
Record layout (ws : list FingerprintWatch) (extra : list PathBuf) (d : PathBuf) : Prop := {
  lay_parent p : p ∈ extra ++ (watch_stamp_cache_path <$> ws) → parent p = Some d;
  lay_hidden w p : w ∈ ws → p ∈ extra ++ (watch_stamp_cache_path <$> ws) → hidden w p;
  lay_NoDup : NoDup (extra ++ (watch_stamp_cache_path <$> ws));
  lay_dir : d ≠ [];
}.

Lemma stamp_path_inj ws extra d w w' : layout ws extra d → w ∈ ws → w' ∈ ws →
  watch_stamp_cache_path w = watch_stamp_cache_path w' → w = w'.
Proof.
  intros [_ _ Hnd _] Hw Hw' E. apply NoDup_app in Hnd as (_ & _ & Hnd).
  apply list_elem_of_lookup in Hw as [i Hi], Hw' as [j Hj].
  assert (i = j) as ->; [|congruence].
  apply (NoDup_lookup _ i j (watch_stamp_cache_path w) Hnd); rewrite list_lookup_fmap; [by rewrite Hi|by rewrite Hj, E].
Qed.

Lemma agree_weaken P Q D D' : P ⊆ Q → (∀ q, q ∈ Q → is_dir D q = false) → agree P D D' → agree Q D D'.
Proof.
  intros Hs HQ HD. split; [destruct HD as [H _]; intros q Hq; apply H; by intros ?%Hs|].
  intros q Hq. destruct (agree_dir P D D' q HD) as [E _]. rewrite E. auto.
Qed.

Lemma load_cache_ext D D' p : D' !! p = D !! p → load_watch_stamp_cache D' p = load_watch_stamp_cache D p.
Proof. intros H. unfold load_watch_stamp_cache. by rewrite (load_json_ext D D' p). Qed.

Lemma observed_agree P D D' w rel st b : agree P D D' → (∀ q, q ∈ P → hidden w q) →
  observed D' w rel st b → observed D w rel st b.
Proof.
  intros HD HP (p & Hp & -> & Hst & Hc). destruct (watched_agree P D D' w HD HP) as (Hw & _ & Hf).
  rewrite Hw in Hp. exists p. unfold file_data in *. rewrite (Hf p Hp) in Hst, Hc. by split_and!.
Qed.

Lemma watched_ok_agree P D D' w : agree P D D' → (∀ q, q ∈ P → hidden w q) → watched_ok D w → watched_ok D' w.
Proof.
  intros HD HP Hok p Hp. destruct (watched_agree P D D' w HD HP) as (Hw & _ & Hf). rewrite Hw in Hp.
  unfold file_data. rewrite (Hf p Hp). by apply Hok.
Qed.

Section Loop.
Context (past : list Disk) (ws : list FingerprintWatch) (extra : list PathBuf) (d : PathBuf).
Context (Hlay : layout ws extra d) (Hh : honest past ws).
Abbreviation own := (extra ++ (watch_stamp_cache_path <$> ws)).

(** What holds before and after each watch. *)
Record ready (D : Disk) : Prop := {
  rd_backed w : w ∈ ws → backed past w (load_watch_stamp_cache D (watch_stamp_cache_path w));
  rd_seen w : w ∈ ws → seen past D w;
  rd_ok w : w ∈ ws → watched_ok D w;
  rd_above : above D d;
  rd_file p : p ∈ own → is_dir D p = false;
}.

Lemma own_cache w : w ∈ ws → watch_stamp_cache_path w ∈ own.
Proof. intros Hw. apply elem_of_app. right. by apply list_elem_of_fmap_2. Qed.

Lemma ready_step D D' w : ready D → w ∈ ws → agree [watch_stamp_cache_path w] D D' →
  backed past w (load_watch_stamp_cache D' (watch_stamp_cache_path w)) → ready D'.
Proof.
  intros [Hb Hs Hok Ha Hf] Hw HD Hbw.
  assert (∀ w', w' ∈ ws → ∀ q, q ∈ [watch_stamp_cache_path w] → hidden w' q) as Hhid.
  { intros w' Hw' q ->%list_elem_of_singleton. by apply (lay_hidden _ _ _ Hlay), own_cache. }
  split.
  - intros w' Hw'. destruct (decide (watch_stamp_cache_path w' = watch_stamp_cache_path w)) as [E|Hne].
    + by rewrite (stamp_path_inj ws extra d w' w Hlay Hw' Hw E).
    + rewrite (load_cache_ext D D'); [by apply Hb|]. destruct HD as [HD _]. apply HD.
      by intros ?%list_elem_of_singleton.
  - intros w' Hw' rel st b Hobs. eapply Hs; [done|]. eapply observed_agree; [done|by apply Hhid|done].
  - intros w' Hw'. eapply watched_ok_agree; [done|by apply Hhid|by apply Hok].
  - intros q Hq. destruct (agree_dir _ D D' q HD) as [-> _]. by apply Ha.
  - intros q Hq. destruct (agree_dir _ D D' q HD) as [-> _]. by apply Hf.
Qed.

Lemma stamp_watches_spec l D : (∀ w, w ∈ l → w ∈ ws) → ready D →
  ∃ r D', stamp_watches denied now content_hash_hex l D = (r, D') ∧ agree (watch_stamp_cache_path <$> ws) D D' ∧
    ready D' ∧ match r with Ok t => t = zip l (input_view <$> (watch_input D <$> l)) ≫= view_text | Err _ => True end.
Proof.
  revert D. induction l as [|w l IH]; intros D Hl HD; cbn [stamp_watches].
  { exists (Ok []), D. split_and!; [done| |done|done]. apply agree_refl. intros p Hp. apply (rd_file _ HD), elem_of_app.
    by right. }
  assert (w ∈ ws) as Hw by (apply Hl; left). pose proof (own_cache w Hw) as Hown.
  destruct (stamp_watch_spec past ws w d D Hw (rd_seen _ HD w Hw) Hh (rd_backed _ HD w Hw) (rd_ok _ HD w Hw)
    (lay_parent _ _ _ Hlay _ Hown) (rd_above _ HD) (rd_file _ HD _ Hown)) as (r & D1 & E1 & Hag & Hb1 & Hr).
  pose proof (ready_step D D1 w HD Hw Hag Hb1) as HD1.
  assert (agree (watch_stamp_cache_path <$> ws) D D1) as Hag1.
  { eapply agree_weaken; [|intros q Hq; apply (rd_file _ HD), elem_of_app; by right|exact Hag].
    intros q ->%list_elem_of_singleton. by apply list_elem_of_fmap_2. }
  rewrite IO_bind_unfold, E1. destruct r as [t|e]; [|by eexists _, D1].
  destruct (IH D1) as (r2 & D2 & E2 & Hag2 & HD2 & Hr2); [intros q Hq; apply Hl; by right|done|].
  rewrite IO_bind_unfold, E2. pose proof (agree_trans _ _ _ _ Hag1 Hag2) as Hag12.
  destruct r2 as [t2|e]; [|by eexists _, D2]. eexists _, D2. split; [done|]. split; [done|]. split; [done|].
  rewrite Hr, Hr2. cbn [fmap list_fmap zip_with mbind list_bind]. f_equal. do 3 f_equal.
  apply list_fmap_ext. intros i w' Hw'. apply list_elem_of_lookup_2 in Hw'.
  eapply (watch_input_agree [watch_stamp_cache_path w]); [done|]. intros q ->%list_elem_of_singleton.
  apply (lay_hidden _ _ _ Hlay); [apply Hl; by right|done].
Qed.

(** Files that can be read, and times after the epoch. *)
Definition stampable (D : Disk) (w : FingerprintWatch) : Prop :=
  ∀ p, p ∈ watched_files D w → readable (file_data D p) = true ∧ 0 ≤ mtime (file_data D p).

Lemma stampable_agree P D D' w : agree P D D' → (∀ q, q ∈ P → hidden w q) → stampable D w → stampable D' w.
Proof.
  intros HD HP Hok p Hp. destruct (watched_agree P D D' w HD HP) as (Hw & _ & Hf). rewrite Hw in Hp.
  unfold file_data. rewrite (Hf p Hp). by apply Hok.
Qed.

Lemma stamp_file_total D w prev p : stampable D w → p ∈ watched_files D w →
  ∃ f, stamp_file (content_hash_hex D) D prev (root w) p = Ok f.
Proof.
  intros Hs Hp. destruct (Hs p Hp) as [Hr Hm].
  unfold stamp_file, from_path, metadata, content_hash_hex, read.
  rewrite (watched_file D w p Hp). cbn [result_bind fst snd]. unfold stamp_of.
  rewrite (proj2 (Z.ltb_ge _ _) Hm), Hr. cbn [result_bind].
  destruct (prev !! _) as [g|]; [destruct (decide _)|]; by eexists.
Qed.

Lemma stamp_files_total D w prev l : stampable D w → (∀ p, p ∈ l → p ∈ watched_files D w) →
  ∃ fs, stamp_files (stamp_file (content_hash_hex D) D prev (root w)) l = Ok fs.
Proof.
  intros Hs. induction l as [|p l IH]; intros Hl; [by eexists|].
  destruct IH as [fs E]; [intros q Hq; apply Hl; by right|].
  destruct (stamp_file_total D w prev p Hs) as [f Ef]; [apply Hl; left|].
  cbn [stamp_files]. rewrite Ef. cbn [result_bind]. rewrite E. by eexists.
Qed.

Lemma stamp_watches_total l D : (∀ w, w ∈ l → w ∈ ws) → ready D → (∀ w, w ∈ ws → stampable D w) →
  (∀ w, w ∈ ws → denied (watch_stamp_cache_path w) = false) →
  ∃ t D', stamp_watches denied now content_hash_hex l D = (Ok t, D').
Proof.
  revert D. induction l as [|w l IH]; intros D Hl HD Hs Hd; [by eexists _, D|].
  assert (w ∈ ws) as Hw by (apply Hl; left). pose proof (own_cache w Hw) as Hown.
  destruct (stamp_watch_spec past ws w d D Hw (rd_seen _ HD w Hw) Hh (rd_backed _ HD w Hw) (rd_ok _ HD w Hw)
    (lay_parent _ _ _ Hlay _ Hown) (rd_above _ HD) (rd_file _ HD _ Hown)) as (r & D1 & E1 & Hag & Hb1 & _).
  assert (is_ok r = true) as Hr.
  { unfold stamp_watch in E1. destruct (negb _); [by injection E1 as <- _|].
    destruct (stamp_files_total D w (previous_files (load_watch_stamp_cache D (watch_stamp_cache_path w))) (watched_files D w))
      as [fs Ef]; [by apply Hs|done|]. rewrite Ef, IO_bind_unfold in E1. set (c := {| cache_version := WATCH_STAMP_CACHE_VERSION; files := fs |}) in E1.
    assert (cache_fits c) as Hfit.
    { split; [by split|]. apply Forall_forall. intros f Hf.
      destruct (stamp_files_fresh past D w ws _ _ fs Hw (rd_seen _ HD w Hw) Hh (rd_backed _ HD w Hw) ltac:(done) Ef) as [_ Ho].
      destruct (Ho f Hf) as (q & _ & Hobs & _). eapply stamp_fits_observed; [by apply (rd_ok _ HD)|done]. }
    destruct (to_vec_pretty_some c Hfit) as [bytes Hbytes].
    destruct (save_json denied now _ c D) as [[[]|e] D2] eqn:Es; [by injection E1 as <- _|]. exfalso.
    eapply save_not_denied; [..|exact Es]; try done;
      [by apply (lay_parent _ _ _ Hlay)|apply (rd_above _ HD)|by apply (rd_file _ HD)|by apply Hd|apply Hlay]. }
  destruct r as [t|]; [|done]. cbn [stamp_watches]. rewrite IO_bind_unfold, E1.
  destruct (IH D1) as (t2 & D2 & E2); [intros q Hq; apply Hl; by right|by eapply ready_step| |done|].
  - intros w' Hw'. eapply stampable_agree; [done| |by apply Hs].
    intros q ->%list_elem_of_singleton. by apply (lay_hidden _ _ _ Hlay).
  - rewrite IO_bind_unfold, E2. by eexists _, D2.
Qed.

Lemma hash_stamps_total D : ready D → (∀ w, w ∈ ws → stampable D w) →
  (∀ w, w ∈ ws → denied (watch_stamp_cache_path w) = false) →
  ∃ h D', hash_watch_set_stamps denied now ws D = (Ok h, D').
Proof.
  intros HD Hs Hd. destruct (stamp_watches_total (ordered ws) D) as (t & D' & E); [intros w; apply ordered_elem|done..|].
  unfold hash_watch_set_stamps, hash_watch_set_stamps_inner. rewrite IO_bind_unfold, E. by eexists _, D'.
Qed.

(** The hash with remembered digests is that of the inputs. *)
Lemma hash_stamps_spec D : ready D →
  ∃ r D', hash_watch_set_stamps denied now ws D = (r, D') ∧ agree (watch_stamp_cache_path <$> ws) D D' ∧ ready D' ∧
    match r with Ok h => h = hex_encode (sha256 (inputs_text D ws)) | Err _ => True end.
Proof.
  intros HD. unfold hash_watch_set_stamps, hash_watch_set_stamps_inner.
  destruct (stamp_watches_spec (ordered ws) D) as (r & D' & E & Hag & HD' & Hr); [intros w; apply ordered_elem|done|].
  rewrite IO_bind_unfold, E. destruct r as [t|e]; eexists _, D'; split_and!; try done.
  by rewrite Hr.
Qed.
End Loop.
End Stamps.
