(* ===== verification/BuildRuns.v ===== *)
(** * Histories of edits, checks and builds around the fast path *)
From S2P Require Import Prelude RustStr CachePaths PathBuf NormPath LibCache FileDisk Fingerprint FastPath FingerprintFacts FastPathFacts.
Local Open Scope Z.

(** The states of a memory of hashes in which it never answers. *)
Class SilentCache (C : Type) (WC : WatchSetStampCache C) := {
  quiet : C → Prop;
  silent ws c : quiet c → (wc_get (C := C) ws c).1 = None;
}.

Section Runs.
Context {HS : Sha256} {B3 : Blake3} {B3Ok : Blake3Ok B3} {W : WalkDir} {WOk : WalkDirOk W} {Zc : Zccache}.
Context {JW : Json PersistedWatchStampCache} {JWOk : JsonOk _ JW cache_fits}.
Context {JF : Json PersistedBuildFingerprint} {JFOk : JsonOk _ JF fingerprint_fits}.
Context {C : Type} {WC : WatchSetStampCache C} {SC : SilentCache C WC}.
Context (c : FastPathContract) (Hlay : layout (watches c) [fingerprint_path c] (build_dir c)).

Abbreviation ws := (watches c).
Definition own : list PathBuf := [fingerprint_path c] ++ (watch_stamp_cache_path <$> ws).

(** Nothing but files where the build's own files belong, their directory is
    there when one of them is, and the watched files are in order. *)
Record sane (D : Disk) : Prop := {
  sane_file p : p ∈ own → is_dir D p = false;
  sane_above p : p ∈ own → is_Some (D !! p) → above D (build_dir c);
  sane_ok w : w ∈ ws → watched_ok D w;
}.

(** Others leave the build's own files alone, or remove them. *)
Definition spares (D D' : Disk) : Prop := ∀ p, p ∈ own → D' !! p = D !! p ∨ D' !! p = None.

(** The disk, the moments at which watched files were looked at, and the
    metadata and inputs that the artifacts were made from. *)
Record Moment := { disk : Disk; past : list Disk; made : option (str * list (option (list (str * str)))) }.

Definition stamps_inputs (m : str) : FastPathCheckInputs :=
  {| check_metadata_hash := m; extra_artifact_ok := None; check_compiler_cache := false |}.

Definition no_memory (cache : option C) : Prop := from_option quiet True cache.

Inductive runs : Moment → Prop :=
  | run_start D : sane D → (∀ p, p ∈ own → D !! p = None) → runs {| disk := D; past := []; made := None |}
  | run_edit D past made D' : runs {| disk := D; past := past; made := made |} → sane D' → spares D D' →
      runs {| disk := D'; past := past; made := made |}
  | run_check D past made denied now m cache out cache' D' :
      runs {| disk := D; past := past; made := made |} → honest (D :: past) ws → no_memory cache →
      fast_path_check denied now c m cache D = (out, cache', D') → check_compiler_cache m = false →
      runs {| disk := D'; past := D :: past; made := made |}
  (** A compilation reads the inputs of [D] and leaves the disk [D2], nobody
      edits them meanwhile, and the fingerprint can be written. *)
  | run_compile D past made D2 denied now p cache cache' D' :
      runs {| disk := D; past := past; made := made |} → sane D2 → spares D D2 → above D2 (build_dir c) →
      inputs D2 ws = inputs D ws → honest (D2 :: past) ws → no_memory cache →
      persist_fast_path_success denied now c p cache D2 = (cache', D') → persist_compiler_cache p = false →
      from_option size_fits True (persist_size_info p) → denied (fingerprint_path c) = false →
      runs {| disk := D'; past := D2 :: past; made := Some (persist_metadata_hash p, inputs D ws) |}.

(** What the stored fingerprint claims. *)
Definition claims (g : Moment) : Prop :=
  ∀ f h, load_json (disk g) (fingerprint_path c) = Ok (Some f) → file_set_hash f = Some h →
  ∃ D0, D0 ∈ past g ∧ (∀ w, w ∈ ws → watched_ok D0 w) ∧ h = hex_encode (sha256 (inputs_text D0 ws)) ∧
    made g = Some (metadata_hash f, inputs D0 ws).

Record inv (g : Moment) : Prop := {
  inv_sane : sane (disk g);
  inv_backed w : w ∈ ws → backed (past g) w (load_watch_stamp_cache (disk g) (watch_stamp_cache_path w));
  inv_claims : claims g;
}.

Lemma load_none {A} {J : Json A} D p : D !! p = None → load_json (A := A) D p = Ok None.
Proof. intros H. unfold load_json, exists_. rewrite H. by rewrite bool_decide_false by (intros [? ?]; done). Qed.

Lemma backed_spared D D' ps w : w ∈ ws → spares D D' →
  backed ps w (load_watch_stamp_cache D (watch_stamp_cache_path w)) →
  backed ps w (load_watch_stamp_cache D' (watch_stamp_cache_path w)).
Proof.
  intros Hw Hs Hb. destruct (Hs (watch_stamp_cache_path w)) as [E|E].
  - by apply (own_cache (watches c) [fingerprint_path c]).
  - by rewrite (load_cache_ext D D').
  - unfold load_watch_stamp_cache. rewrite (load_none D') by done. intros f Hf. by apply not_elem_of_nil in Hf.
Qed.

Lemma claims_spared D D' ps md : spares D D' →
  claims {| disk := D; past := ps; made := md |} → claims {| disk := D'; past := ps; made := md |}.
Proof.
  intros Hs Hc f h Hl Hh. cbn [disk past made] in *. apply (Hc f h); [|done]. cbn [disk].
  destruct (Hs (fingerprint_path c)) as [E|E]; [left|by rewrite <- (load_json_ext D D')|].
  by rewrite load_none in Hl.
Qed.

(** The state in which the watched files are hashed at [D]. *)
Lemma ready_at D ps : sane D → above D (build_dir c) →
  (∀ w, w ∈ ws → backed ps w (load_watch_stamp_cache D (watch_stamp_cache_path w))) →
  ready (D :: ps) ws [fingerprint_path c] (build_dir c) D.
Proof.
  intros [Hf _ Hok] Ha Hb. split; try done.
  - intros w Hw. eapply backed_mono; [|by apply Hb]. intros x Hx. by right.
  - intros w Hw rel st b Hobs. exists D. split; [left|done].
Qed.

Lemma hash_cached_silent denied now (cache : option C) D : no_memory cache → ∃ cache1,
  hash_watch_set_stamps_cached denied now ws cache D =
  match hash_watch_set_stamps denied now ws D with
  | (Err e, D') => (Err e, cache1, D')
  | (Ok h, D') => (Ok h, wc_put ws h <$> cache1, D')
  end.
Proof.
  intros Hq. unfold hash_watch_set_stamps_cached. destruct cache as [k|]; [|by exists None].
  pose proof (silent ws k Hq) as Hs. destruct (wc_get ws k) as [h k']. cbn in Hs. subst h. by exists (Some k').
Qed.

(** Hashing through the cache. *)
Lemma hash_cached_spec denied now ps cache D : no_memory cache → sane D → above D (build_dir c) → honest (D :: ps) ws →
  (∀ w, w ∈ ws → backed ps w (load_watch_stamp_cache D (watch_stamp_cache_path w))) →
  ∃ r cache' D', hash_watch_set_stamps_cached denied now ws cache D = (r, cache', D') ∧
    agree (watch_stamp_cache_path <$> ws) D D' ∧ ready (D :: ps) ws [fingerprint_path c] (build_dir c) D' ∧
    match r with Ok h => h = hex_encode (sha256 (inputs_text D ws)) | Err _ => True end.
Proof.
  intros Hq Hs Ha Hh Hb. destruct (hash_cached_silent denied now cache D Hq) as [cache1 E].
  destruct (hash_stamps_spec denied now (D :: ps) ws [fingerprint_path c] (build_dir c) Hlay Hh D (ready_at D ps Hs Ha Hb))
    as (r & D' & E' & Hag & Hr & Ht).
  rewrite E, E'. destruct r as [h|e]; by eexists _, _, D'.
Qed.

Lemma own_not_fp w : w ∈ ws → watch_stamp_cache_path w ≠ fingerprint_path c.
Proof.
  intros Hw E. pose proof (lay_NoDup _ _ _ Hlay) as Hnd. cbn in Hnd. apply NoDup_cons in Hnd as [Hnd _].
  apply Hnd. rewrite <- E. by apply list_elem_of_fmap_2.
Qed.

Lemma own_hidden w q : w ∈ ws → q ∈ own → hidden w q.
Proof. apply (lay_hidden _ _ _ Hlay). Qed.

Lemma sane_agree D D' : sane D → above D (build_dir c) → agree own D D' → sane D'.
Proof.
  intros [Hf _ Hok] Ha HD. split.
  - intros p Hp. destruct (agree_dir own D D' p HD) as [-> _]. by apply Hf.
  - intros _ _ _ q Hq. destruct (agree_dir own D D' q HD) as [-> _]. by apply Ha.
  - intros w Hw. eapply watched_ok_agree; [done|intros q; by apply own_hidden|by apply Hok].
Qed.

Lemma stamps_own D D' : sane D → agree (watch_stamp_cache_path <$> ws) D D' → agree own D D'.
Proof. intros Hs. apply agree_weaken; [intros q Hq; by right|]. intros q Hq. by apply (sane_file _ Hs). Qed.

Lemma stamps_keep_fp D D' : agree (watch_stamp_cache_path <$> ws) D D' → D' !! fingerprint_path c = D !! fingerprint_path c.
Proof. intros [HD _]. apply HD. intros (w & E & Hw)%list_elem_of_fmap. by apply (own_not_fp w Hw). Qed.

(** What a hit says. *)
Record hit_ok (D : Disk) (m : FastPathCheckInputs) (hit : FastPathHit) : Prop := {
  hit_loaded : load_json D (fingerprint_path c) = Ok (Some (persisted hit));
  hit_metadata : metadata_hash (persisted hit) = check_metadata_hash m;
  hit_hash : file_set_hash (persisted hit) = Some (hex_encode (sha256 (inputs_text D ws)));
  hit_artifacts : forallb (exists_ D) (required_artifacts c) = true;
  hit_size : hit_size_info hit = size_info (persisted hit);
}.

(** A check misses without looking at the inputs, or hashes them. *)
Lemma check_cases denied now m cache out cache' D D' : check_compiler_cache m = false →
  fast_path_check denied now c m cache D = (out, cache', D') →
  (out = Ok None ∧ D' = D) ∨
  ∃ f h r, load_json D (fingerprint_path c) = Ok (Some f) ∧ metadata_hash f = check_metadata_hash m ∧
    file_set_hash f = Some h ∧ forallb (exists_ D) (required_artifacts c) = true ∧
    hash_watch_set_stamps_cached denied now ws cache D = (r, cache', D') ∧
    out = Ok (match r with
              | Ok h' => if bool_decide (h' = h) then Some {| persisted := f; hit_size_info := size_info f |} else None
              | Err _ => None
              end).
Proof.
  intros Hm H. assert (∀ o, (Ok None, cache, D) = (out, cache', D') → (out = Ok None ∧ D' = D) ∨ o) as Hmiss
    by (intros o [= <- <- <-]; by left).
  unfold fast_path_check in H. destruct (load_json D (fingerprint_path c)) as [[f|]|] eqn:El; [|by apply Hmiss..].
  destruct (bool_decide (version f = _)); cbn [negb] in H; [|by apply Hmiss].
  destruct (bool_decide_reflect (metadata_hash f = check_metadata_hash m)) as [Em|]; cbn [negb] in H; [|by apply Hmiss].
  destruct (forallb (exists_ D) (required_artifacts c)) eqn:Ea; cbn [negb] in H; [|by apply Hmiss].
  destruct (match extra_artifact_ok m with Some check => check D | None => true end); cbn [negb] in H; [|by apply Hmiss].
  rewrite Hm in H. unfold check_with_stamps in H. destruct (file_set_hash f) as [h|] eqn:Ef; [|by apply Hmiss].
  right. exists f, h. destruct (hash_watch_set_stamps_cached denied now ws cache D) as [[r cache1] D1] eqn:Er.
  exists r. destruct r as [h'|e]; [destruct (bool_decide _)|]; cbn [negb] in H; injection H as <- <- <-; by split_and!.
Qed.

Lemma check_spec denied now m ps cache out cache' D D' : no_memory cache → sane D → honest (D :: ps) ws →
  (∀ w, w ∈ ws → backed ps w (load_watch_stamp_cache D (watch_stamp_cache_path w))) →
  check_compiler_cache m = false → fast_path_check denied now c m cache D = (out, cache', D') →
  sane D' ∧ agree own D D' ∧ D' !! fingerprint_path c = D !! fingerprint_path c ∧
  (∀ w, w ∈ ws → backed (D :: ps) w (load_watch_stamp_cache D' (watch_stamp_cache_path w))) ∧
  ∃ o, out = Ok o ∧ ∀ hit, o = Some hit → hit_ok D m hit.
Proof.
  intros Hq Hs Hh Hb Hm H. destruct (check_cases _ _ _ _ _ _ _ _ Hm H) as [[-> ->]|(f & h & r & El & Em & Ef & Ea & Er & ->)].
  { split_and!; [done|apply agree_refl, Hs|done| |by exists None].
    intros w Hw. eapply backed_mono; [|by apply Hb]. intros x Hx. by right. }
  assert (above D (build_dir c)) as Habove.
  { apply (sane_above _ Hs (fingerprint_path c)); [by left|]. unfold load_json, exists_ in El.
    destruct (bool_decide_reflect (is_Some (D !! fingerprint_path c))); done. }
  destruct (hash_cached_spec denied now ps cache D Hq Hs Habove Hh Hb) as (r' & cache1 & D1 & E1 & Hag & Hr & Ht).
  rewrite Er in E1. injection E1 as <- <- <-. pose proof (stamps_own _ _ Hs Hag) as Hown.
  split_and!; [by eapply sane_agree|done|by apply stamps_keep_fp|apply (rd_backed _ _ _ _ _ Hr)|].
  eexists. split; [done|]. intros hit Hhit. destruct r as [h'|e]; [|done].
  case_bool_decide as Eh; [|done]. injection Hhit as <-. split; cbn [persisted hit_size_info]; congruence.
Qed.

(** What persisting leaves: the caches, and a fingerprint of this moment. *)
Lemma persist_spec denied now p ps cache cache' D D' : no_memory cache → sane D → above D (build_dir c) → honest (D :: ps) ws →
  (∀ w, w ∈ ws → backed ps w (load_watch_stamp_cache D (watch_stamp_cache_path w))) →
  persist_compiler_cache p = false → from_option size_fits True (persist_size_info p) → denied (fingerprint_path c) = false →
  persist_fast_path_success denied now c p cache D = (cache', D') →
  sane D' ∧ agree own D D' ∧
  (∀ w, w ∈ ws → backed (D :: ps) w (load_watch_stamp_cache D' (watch_stamp_cache_path w))) ∧
  ∃ r cache1 D1 f fp, hash_watch_set_stamps_cached denied now ws cache D = (r, cache1, D1) ∧
    fp = {| version := BUILD_FINGERPRINT_VERSION; metadata_hash := persist_metadata_hash p;
            file_set_hash := match r with Ok h => Some h | Err _ => None end; size_info := persist_size_info p |} ∧
    fingerprint_fits fp ∧ D' !! fingerprint_path c = Some (Regular f) ∧ to_vec_pretty fp = Some (content f) ∧
    match r with Ok h => h = hex_encode (sha256 (inputs_text D ws)) | Err _ => True end.
Proof.
  intros Hq Hs Ha Hh Hb Hc Hfit Hd H. unfold persist_fast_path_success in H.
  destruct (hash_cached_spec denied now ps cache D Hq Hs Ha Hh Hb) as (r & cache1 & D1 & E1 & Hag & Hr & Ht).
  rewrite E1, Hc in H. set (fp := {| version := _ |}) in H. pose proof (stamps_own _ _ Hs Hag) as Hown.
  pose proof (sane_agree _ _ Hs Ha Hown) as Hs1.
  assert (fingerprint_fits fp) as Hfp by (split; [by split|done]).
  destruct (save_json_spec denied now (fingerprint_path c) (build_dir c) fp D1) as (r2 & D2 & E2 & Hag2 & Hr2);
    [apply (lay_parent _ _ _ Hlay); by left|apply (rd_above _ _ _ _ _ Hr)|apply (sane_file _ Hs1); by left|].
  rewrite E2 in H. cbn [snd] in H. injection H as <- <-.
  assert (agree own D1 D2) as Hown2.
  { apply (agree_weaken [fingerprint_path c]); [|apply Hs1|done]. intros q ->%list_elem_of_singleton. by left. }
  split_and!; [by eapply sane_agree; [done|apply (rd_above _ _ _ _ _ Hr)|]|by eapply agree_trans| |].
  { intros w Hw. rewrite (load_cache_ext D1 D2); [by apply (rd_backed _ _ _ _ _ Hr)|]. destruct Hag2 as [Hag2 _].
    apply Hag2. intros ?%list_elem_of_singleton. by eapply own_not_fp. }
  destruct (to_vec_pretty_some fp Hfp) as [bytes Hbytes].
  destruct r2 as [[]|e].
  2: { exfalso. eapply (save_not_denied denied now (fingerprint_path c)); [..|exact E2]; try done;
       [apply (lay_parent _ _ _ Hlay); by left|apply (rd_above _ _ _ _ _ Hr)|apply (sane_file _ Hs1); by left|apply Hlay]. }
  destruct Hr2 as (f & Hf & Hj). by exists r, cache1, D1, f, fp.
Qed.

Lemma runs_inv g : runs g → inv g.
Proof.
  induction 1 as [D Hs Hn|D ps md D' _ [Hs Hb Hc] Hs' Hsp|D ps md denied now m cache out cache' D' _ [Hs Hb Hc] Hh Hq H Hm
    |D ps md D2 denied now p cache cache' D' _ [Hs Hb Hc] Hs2 Hsp Ha Hi Hh Hq H Hp Hfit Hd]; cbn [disk past made] in *.
  - split; cbn; [done| |].
    + intros w Hw. unfold load_watch_stamp_cache. rewrite (load_none D); [intros f Hf; by apply not_elem_of_nil in Hf|].
      apply Hn, elem_of_app. right. by apply list_elem_of_fmap_2.
    + intros f h Hl. cbn in Hl. rewrite load_none in Hl; [done|]. apply Hn. by left.
  - split; cbn; [done| |by eapply claims_spared]. intros w Hw. eapply backed_spared; [done|done|by apply Hb].
  - destruct (check_spec _ _ _ _ _ _ _ _ _ Hq Hs Hh Hb Hm H) as (Hs1 & _ & Hfp & Hb1 & _). split; cbn; [done|done|].
    intros f h Hl Hf. cbn in Hl |- *. rewrite (load_json_ext D D') in Hl by done.
    destruct (Hc f h Hl Hf) as (D0 & HD0 & ?). exists D0. split; [by right|done].
  - assert (∀ w, w ∈ ws → backed ps w (load_watch_stamp_cache D2 (watch_stamp_cache_path w))) as Hb2
      by (intros w Hw; eapply backed_spared; [done|done|by apply Hb]).
    destruct (persist_spec _ _ _ _ _ _ _ _ Hq Hs2 Ha Hh Hb2 Hp Hfit Hd H)
      as (Hs' & _ & Hb' & r & cache1 & D1 & f & fp & _ & Efp & Hfits & Hf & Hj & Ht).
    split; cbn; [done|done|]. intros f' h Hl Hh'. cbn in Hl |- *.
    rewrite (load_saved (fits := fingerprint_fits) D' _ f fp f' Hfits Hf Hj Hl) in Hh' |- *. subst fp. cbn in Hh' |- *.
    exists D2. rewrite Hi. split_and!; [left|apply Hs2| |done]. destruct r; [|done]. injection Hh' as <-. done.
Qed.

(** ** Reuse *)

Context (denied : PathBuf → bool) (now : Z).

Lemma build_cases params m ri compile (cache : option C) D out cache' D' :
  build denied now c params m ri compile cache D = (out, cache', D') → ∀ r, out = Reused r →
  reuses params = true ∧ ∃ hit, fast_path_check denied now c (stamps_inputs m) cache D = (Ok (Some hit), cache', D') ∧
    r = assemble_fast_path_result hit ri.
Proof.
  unfold build. intros H r ->. destruct (reuses params); [|].
  - split; [done|]. unfold stamps_inputs. destruct (fast_path_check _ _ _ _ _ _) as [[[[hit|]|e] cache1] D1].
    + injection H as <- <- <-. by exists hit.
    + destruct (compile D1) as [[br|e] D2]; [|done]. destruct (success br && true); [|done].
      by destruct (persist_fast_path_success _ _ _ _ _ _).
    + done.
  - destruct (compile D) as [[br|e] D2]; [|done]. by rewrite andb_false_r in H.
Qed.

(** C11: a reused build is a build of what is there now.  Along every history
    of edits, checks and successful, recorded builds, none of them for symbol
    analysis, in which nobody edits the project during a build, the memory
    cache is absent or silent, no two contents of a watched file share length
    and modification time, and the digests involved do not collide: when a
    build reports that artifacts are reused, all of them exist, and the last
    compilation of the history was with the same metadata and from exactly
    the watched files, names and contents, that are there now. *)
Theorem reused_is_current g params m ri compile (cache cache' : option C) r D' : runs g → no_memory cache →
  honest (disk g :: past g) ws →
  (∀ D0, D0 ∈ past g → sha256 (inputs_text D0 ws) = sha256 (inputs_text (disk g) ws) →
    inputs_text D0 ws = inputs_text (disk g) ws) →
  blake3_injective_on ((disk g :: past g) ≫= λ D, contents (inputs D ws)) →
  build denied now c params m ri compile cache (disk g) = (Reused r, cache', D') →
  made g = Some (m, inputs (disk g) ws) ∧ Forall (λ p, exists_ (disk g) p = true) (required_artifacts c) ∧ success r = true.
Proof.
  intros Hg Hq Hh Hsha Hb3 H. destruct (runs_inv g Hg) as [Hs Hb Hc].
  destruct (build_cases _ _ _ _ _ _ _ _ _ H r eq_refl) as (_ & hit & Hck & ->).
  destruct (check_spec _ _ (stamps_inputs m) _ _ _ _ _ _ Hq Hs Hh Hb eq_refl Hck) as (_ & _ & _ & _ & o & [= <-] & Hhit).
  destruct (Hhit hit eq_refl) as [Hl Hm Hf Ha _]. destruct (Hc _ _ Hl Hf) as (D0 & HD0 & Hok0 & Eh & Hmade).
  apply hex_encode_inj in Eh. symmetry in Eh. apply Hsha in Eh; [|done]. rewrite Hmade, Hm. cbn.
  split_and!; [|by apply Forall_forall; intros p Hp; rewrite forallb_forall in Ha; apply Ha, list_elem_of_In|done].
  do 2 f_equal. apply inputs_text_inj; [|..|done].
  - intros w Hw. split; [by apply Hok0|by apply (sane_ok _ Hs)].
  - assert (∀ x, x ∈ contents (inputs D0 ws) ++ contents (inputs (disk g) ws) →
      x ∈ (disk g :: past g) ≫= λ D, contents (inputs D ws)) as Hin.
    { intros x [Hx|Hx]%elem_of_app; apply list_elem_of_bind; eexists; (split; [exact Hx|]); [by right|left]. }
    intros a b Ha' Hb'. apply Hb3; by apply Hin.
Qed.

Lemma hash_cached_total dn nw ps cache D : no_memory cache → sane D → above D (build_dir c) → honest (D :: ps) ws →
  (∀ w, w ∈ ws → backed ps w (load_watch_stamp_cache D (watch_stamp_cache_path w))) →
  (∀ w, w ∈ ws → stampable D w) → (∀ q, q ∈ own → dn q = false) →
  ∃ cache' D', hash_watch_set_stamps_cached dn nw ws cache D =
    (Ok (hex_encode (sha256 (inputs_text D ws))), cache', D').
Proof.
  intros Hq Hs Ha Hh Hb Hst Hd. destruct (hash_cached_spec dn nw ps cache D Hq Hs Ha Hh Hb) as (r & cache' & D' & E & _ & _ & Hr).
  destruct (hash_stamps_total dn nw (D :: ps) ws [fingerprint_path c] (build_dir c) Hlay Hh D
    (ready_at D ps Hs Ha Hb) Hst) as (h & D1 & E1).
  { intros w Hw. by apply Hd, (own_cache (watches c) [fingerprint_path c]). }
  destruct (hash_cached_silent dn nw cache D Hq) as [cache1 E2]. rewrite E1 in E2.
  assert (r = Ok h) as -> by congruence. by subst h; exists cache', D'.
Qed.

(** A check that finds everything as recorded. *)
Lemma check_hits dn nw m ps cache D fp : no_memory cache → sane D → honest (D :: ps) ws →
  (∀ w, w ∈ ws → backed ps w (load_watch_stamp_cache D (watch_stamp_cache_path w))) →
  (∀ w, w ∈ ws → stampable D w) → (∀ q, q ∈ own → dn q = false) →
  load_json D (fingerprint_path c) = Ok (Some fp) → version fp = BUILD_FINGERPRINT_VERSION → metadata_hash fp = m →
  file_set_hash fp = Some (hex_encode (sha256 (inputs_text D ws))) →
  Forall (λ q, exists_ D q = true) (required_artifacts c) →
  ∃ cache' D', fast_path_check dn nw c (stamps_inputs m) cache D =
    (Ok (Some {| persisted := fp; hit_size_info := size_info fp |}), cache', D').
Proof.
  intros Hq Hs Hh Hb Hst Hd Hl Hv Hm Hf Ha. unfold fast_path_check. rewrite Hl, Hv, Hm, !bool_decide_true by done. cbn [negb].
  assert (forallb (exists_ D) (required_artifacts c) = true) as ->.
  { apply forallb_forall. intros q Hin%list_elem_of_In. rewrite Forall_forall in Ha. by apply Ha. }
  cbn [negb extra_artifact_ok check_compiler_cache stamps_inputs]. unfold check_with_stamps. rewrite Hf.
  assert (above D (build_dir c)) as Habove.
  { apply (sane_above _ Hs (fingerprint_path c)); [by left|]. unfold load_json, exists_ in Hl.
    destruct (bool_decide_reflect (is_Some (D !! fingerprint_path c))); done. }
  destruct (hash_cached_total dn nw ps cache D Hq Hs Habove Hh Hb Hst Hd) as (cache' & D' & ->).
  rewrite bool_decide_true by done. by exists cache', D'.
Qed.

(** C27: a build that changed nothing since is reused.  After a successful
    build has recorded its fingerprint, with honest time stamps and a silent
    memory cache, and as long as the watched files have the same names and
    contents, whatever their times, the required artifacts exist and the
    build's own files are left alone and can be read, the next build with the
    same metadata, if its parameters allow reuse, compiles nothing and reports
    the recorded sizes. *)
Theorem unchanged_is_reused g p D2 (cache cache' cache2 : option C) D3 D4 now2 params ri compile : runs g →
  no_memory cache → no_memory cache2 → sane D2 → spares (disk g) D2 → above D2 (build_dir c) → honest (D4 :: D2 :: past g) ws →
  (∀ w, w ∈ ws → stampable D2 w ∧ stampable D4 w) → (∀ q, q ∈ own → denied q = false) →
  persist_compiler_cache p = false → from_option size_fits True (persist_size_info p) →
  persist_fast_path_success denied now c p cache D2 = (cache', D3) →
  sane D4 → inputs D4 ws = inputs D2 ws →
  (∀ q, q ∈ own → D4 !! q = D3 !! q) → readable (file_data D4 (fingerprint_path c)) = true →
  Forall (λ q, exists_ D4 q = true) (required_artifacts c) → reuses params = true →
  ∃ cache3 D5, build denied now2 c params (persist_metadata_hash p) ri compile cache2 D4 =
    (Reused (assemble_fast_path_result
      {| persisted := {| version := BUILD_FINGERPRINT_VERSION; metadata_hash := persist_metadata_hash p;
                         file_set_hash := Some (hex_encode (sha256 (inputs_text D4 ws))); size_info := persist_size_info p |};
         hit_size_info := persist_size_info p |} ri), cache3, D5).
Proof.
  intros Hg Hq Hq2 Hs2 Hsp Ha2 Hh Hst Hd Hp Hfit H Hs4 Hi Hown Hread Hart Hre. destruct (runs_inv g Hg) as [_ Hb _].
  assert (∀ w, w ∈ ws → backed (past g) w (load_watch_stamp_cache D2 (watch_stamp_cache_path w))) as Hb2
    by (intros w Hw; eapply backed_spared; [done|done|by apply Hb]).
  assert (honest (D2 :: past g) ws) as Hh2.
  { intros w D D' rel st b b' Hw HD HD'. apply Hh; [done|by right..]. }
  destruct (persist_spec denied now p (past g) cache cache' D2 D3 Hq Hs2 Ha2 Hh2 Hb2 Hp Hfit (Hd _ ltac:(by left)) H)
    as (Hs3 & _ & Hb3 & r & cache1 & D1 & f & fp & Er & Efp & Hfits & Hf & Hj & _).
  destruct (hash_cached_total denied now (past g) cache D2 Hq Hs2 Ha2 Hh2 Hb2 (λ w Hw, proj1 (Hst w Hw)) Hd) as (k & D' & Er').
  rewrite Er' in Er. injection Er as <- _ _. assert (inputs_text D2 ws = inputs_text D4 ws) as Et
    by (unfold inputs_text; by rewrite Hi). rewrite Et in Efp.
  destruct (check_hits denied now2 (persist_metadata_hash p) (D2 :: past g) cache2 D4 fp) as (cache3 & D5 & E); try done.
  - intros w Hw. rewrite (load_cache_ext D3); [by apply Hb3|].
    by apply Hown, (own_cache (watches c) [fingerprint_path c]).
  - intros w Hw. by apply Hst.
  - assert (D4 !! fingerprint_path c = Some (Regular f)) as Hf4 by (rewrite Hown; [done|by left]).
    unfold file_data in Hread. rewrite Hf4 in Hread. unfold load_json, exists_, read. rewrite Hf4, Hread.
    rewrite bool_decide_true by by eexists. cbn. by rewrite (from_to_vec_pretty _ _ Hfits Hj).
  - by subst fp.
  - by subst fp.
  - by subst fp.
  - exists cache3, D5. unfold build. rewrite Hre. fold (stamps_inputs (persist_metadata_hash p)). rewrite E. by subst fp.
Qed.


End Runs.
