(* ===== verification/WatchCache.v ===== *)
(** * [fbuild-daemon/src/watch_set_cache.rs]

    The daemon's memory of hashes of watched trees, with the window of
    [context.rs].  Instants and durations are nanoseconds; the hash of the
    roots, whose algorithm the standard library leaves open, is an argument. *)
From S2P Require Import Prelude RustStr CachePaths PathBuf LibCache FileDisk Fingerprint BuildRuns.
From stdpp Require Import sorting.
Local Open Scope Z.

(** [DefaultHasher] fed with paths, [0 ≤ _ < 2 ^ 64]. *)
Class PathHasher := hash_paths : list PathBuf → Z.

Record DaemonWatchSetCache := {
  inner : gmap Z (str * Z);
  max_age : Z;
  hits : Z;
  misses : Z;
  stale_evictions : Z;
  puts : Z;
}.

Record WatchSetCacheStats := {
  st_max_age_secs : Z; st_hits : Z; st_misses : Z; st_stale_evictions : Z; st_puts : Z;
}.

Definition DEFAULT_FRESHNESS : Z := 0.

Definition with_max_age (age : Z) : DaemonWatchSetCache :=
  {| inner := ∅; max_age := age; hits := 0; misses := 0; stale_evictions := 0; puts := 0 |}.
Definition new_cache : DaemonWatchSetCache := with_max_age DEFAULT_FRESHNESS.

Definition stats (c : DaemonWatchSetCache) : WatchSetCacheStats :=
  {| st_max_age_secs := max_age c / 10 ^ 9; st_hits := hits c; st_misses := misses c;
     st_stale_evictions := stale_evictions c; st_puts := puts c |}.

(** [context.rs]: the window, from the text of the environment variable. *)
Definition watch_set_cache_window_from_env (var : option str) : Z :=
  10 ^ 9 * default 0 (var ≫= λ s, parse_uint u64_max (trim s)).

(** [fetch_add(1)] on an [AtomicU64] wraps around. *)
Definition fetch_add1 (n : Z) : Z := (n + 1) mod 2 ^ 64.

Section Cache.
Context {PH : PathHasher}.

Definition key_for (watches : list FingerprintWatch) : Z := hash_paths (merge_sort path_le (root <$> watches)).

Definition get (now : Z) (watches : list FingerprintWatch) (c : DaemonWatchSetCache) : option str * DaemonWatchSetCache :=
  let key := key_for watches in
  match inner c !! key with
  | None =>
      (None, {| inner := inner c; max_age := max_age c; hits := hits c; misses := fetch_add1 (misses c);
                stale_evictions := stale_evictions c; puts := puts c |})
  | Some (hash, set_at) =>
      let age := saturating_sub now set_at in
      if max_age c <=? age then
        (None, {| inner := delete key (inner c); max_age := max_age c; hits := hits c; misses := misses c;
                  stale_evictions := fetch_add1 (stale_evictions c); puts := puts c |})
      else
        (Some hash, {| inner := inner c; max_age := max_age c; hits := fetch_add1 (hits c); misses := misses c;
                       stale_evictions := stale_evictions c; puts := puts c |})
  end.

Definition put (now : Z) (watches : list FingerprintWatch) (hash : str) (c : DaemonWatchSetCache) : DaemonWatchSetCache :=
  {| inner := <[key_for watches := (hash, now)]> (inner c); max_age := max_age c; hits := hits c; misses := misses c;
     stale_evictions := stale_evictions c; puts := fetch_add1 (puts c) |}.

(** The cache as the fingerprints use it, asked and told at two instants. *)
#[global] Instance daemon_cache (t_get t_put : Z) : WatchSetStampCache DaemonWatchSetCache := {|
  wc_get := get t_get;
  wc_put watches hash := put t_put watches hash;
|}.

(** With a window of zero it never answers. *)
#[global] Instance daemon_cache_silent t_get t_put : SilentCache DaemonWatchSetCache (daemon_cache t_get t_put).
Proof.
  refine {| quiet c := max_age c = 0 |}. intros ws c Hq. cbn. unfold get.
  destruct (inner c !! key_for ws) as [[h at_]|]; [|done]. unfold saturating_sub.
  rewrite Hq, (proj2 (Z.leb_le 0 _)) by lia. done.
Defined.

(** ** Histories *)

Inductive Op := Put (now : Z) (watches : list FingerprintWatch) (hash : str) | Get (now : Z) (watches : list FingerprintWatch).
Definition op_time (o : Op) : Z := match o with Put t _ _ | Get t _ => t end.

Definition run_op (o : Op) (c : DaemonWatchSetCache) : option str * DaemonWatchSetCache :=
  match o with Put t ws h => (None, put t ws h c) | Get t ws => get t ws c end.

Fixpoint run_ops (os : list Op) (c : DaemonWatchSetCache) : DaemonWatchSetCache :=
  match os with [] => c | o :: os => run_ops os (run_op o c).2 end.

(** What the cache promises: the last hash put under the key, while it is
    younger than the window. *)
Fixpoint last_put (k : Z) (os : list Op) (acc : option (str * Z)) : option (str * Z) :=
  match os with
  | [] => acc
  | Put t ws h :: os => last_put k os (if decide (key_for ws = k) then Some (h, t) else acc)
  | Get _ _ :: os => last_put k os acc
  end.
Definition promised (age now k : Z) (os : list Op) : option str :=
  match last_put k os None with
  | Some (h, t) => if now - t <? age then Some h else None
  | None => None
  end.

(** Entries are the last puts, and a last put that is missing is too old. *)
Definition follows (age now : Z) (os : list Op) (m : gmap Z (str * Z)) : Prop :=
  ∀ k, match m !! k with
       | Some e => last_put k os None = Some e ∧ e.2 ≤ now
       | None => match last_put k os None with Some e => age ≤ now - e.2 | None => True end
       end.

Lemma last_put_snoc k os o acc : last_put k (os ++ [o]) acc =
  match o with Put t ws h => if decide (key_for ws = k) then Some (h, t) else last_put k os acc | Get _ _ => last_put k os acc end.
Proof. revert acc. induction os as [|[t ws h|t ws] os IH]; intros acc; cbn; try apply IH. by destruct o. Qed.

Lemma follows_later age now now' os m : now ≤ now' → follows age now os m → follows age now' os m.
Proof.
  intros Ht H k. specialize (H k). destruct (m !! k) as [e|]; [split; [tauto|lia]|].
  destruct (last_put k os None); [lia|done].
Qed.

Lemma get_answers age now ws os c : 0 ≤ age → max_age c = age → follows age now os (inner c) →
  (get now ws c).1 = promised age now (key_for ws) os.
Proof.
  intros Ha Hc H. specialize (H (key_for ws)). unfold get, promised. rewrite Hc.
  destruct (inner c !! key_for ws) as [[h t]|]; cbn in H.
  - destruct H as [-> Ht]. unfold saturating_sub.
    destruct (Z.leb_spec age (Z.max 0 (now - t))), (Z.ltb_spec (now - t) age); try done; lia.
  - destruct (last_put _ _ _) as [[h t]|]; [|done]. cbn in H. by destruct (Z.ltb_spec (now - t) age); [lia|].
Qed.

Lemma op_follows age now o os c : op_time o = now → 0 ≤ age → max_age c = age → follows age now os (inner c) →
  follows age now (os ++ [o]) (inner (run_op o c).2) ∧ max_age (run_op o c).2 = age.
Proof.
  intros Ht Ha Hc H. destruct o as [t ws h|t ws]; cbn in Ht; subst t; cbn [run_op snd].
  - split; [|done]. intros k. rewrite last_put_snoc. cbn [inner put]. destruct (decide (key_for ws = k)) as [<-|Hne].
    + rewrite lookup_insert_eq. cbn. split; [done|lia].
    + rewrite lookup_insert_ne by done. apply H.
  - unfold get. rewrite Hc. destruct (inner c !! key_for ws) as [[h t]|] eqn:E.
    2: { split; [|done]. intros k. rewrite last_put_snoc. apply H. }
    destruct (Z.leb_spec age (saturating_sub now t)) as [Hold|].
    2: { split; [|done]. intros k. rewrite last_put_snoc. apply H. }
    split; [|done]. intros k. rewrite last_put_snoc. cbn [inner snd]. destruct (decide (k = key_for ws)) as [->|Hne].
    + rewrite lookup_delete_eq. specialize (H (key_for ws)). rewrite E in H. destruct H as [-> Hle].
      unfold saturating_sub in Hold. cbn in *. lia.
    + rewrite lookup_delete_ne by done. apply H.
Qed.

Lemma run_ops_snoc os o c : run_ops (os ++ [o]) c = (run_op o (run_ops os c)).2.
Proof. revert c. induction os as [|o' os IH]; intros c; cbn; [done|apply IH]. Qed.

Lemma ops_follow age os now : 0 ≤ age → StronglySorted Z.le ((op_time <$> os) ++ [now]) →
  follows age now os (inner (run_ops os (with_max_age age))) ∧ max_age (run_ops os (with_max_age age)) = age.
Proof.
  intros Ha. revert now. induction os as [|o os IH] using rev_ind; intros now Hs.
  { split; [|done]. by intros k. }
  rewrite fmap_app in Hs. pose proof (StronglySorted_app_1_l _ _ _ Hs) as Hs'.
  destruct (IH (op_time o) Hs') as [H Hc]. rewrite run_ops_snoc.
  destruct (op_follows age (op_time o) o os _ eq_refl Ha Hc H) as [H1 Hc1]. split; [|done].
  eapply follows_later; [|exact H1].
  apply (StronglySorted_app_1_elem_of _ _ _ _ _ Hs); [apply elem_of_app; right; left|left].
Qed.
End Cache.

(** the daemon's memory of watched-tree hashes answers with a hash exactly
    when that hash was the last one put for the same roots and is younger than
    the window, whatever was asked before and evicted for its age; with the
    window that the environment leaves unset it never answers. *)
Theorem watch_cache_refines {PH : PathHasher} age os now ws : 0 ≤ age →
  StronglySorted Z.le ((op_time <$> os) ++ [now]) →
  (get now ws (run_ops os (with_max_age age))).1 = promised age now (key_for ws) os ∧
  (get now ws (run_ops os (with_max_age (watch_set_cache_window_from_env None)))).1 = None.
Proof.
  intros Ha Hs. destruct (ops_follow age os now Ha Hs) as [H Hc]. split; [by apply get_answers|].
  destruct (ops_follow 0 os now) as [_ Hc0]; [done..|]. by apply (silent (SilentCache := daemon_cache_silent now now)).
Qed.

Definition toy_hasher : PathHasher := λ ps, Z.of_nat (length (mjoin ps)).
Definition toy_watch : FingerprintWatch := {| cache_file := []; root := [RootDir; Normal (&"p")]; extensions := []; excludes := [] |}.

Definition toy_ops : list Op := [Put 1 [toy_watch] (&"old"); Get 2 [toy_watch]; Put 3 [toy_watch] (&"new")].

Lemma watch_cache_refines_witness :
  (get (PH := toy_hasher) 7 [toy_watch] (run_ops (PH := toy_hasher) toy_ops (with_max_age 5))).1 = Some (&"new") ∧
  (get (PH := toy_hasher) 8 [toy_watch] (run_ops (PH := toy_hasher) toy_ops (with_max_age 5))).1 = None.
Proof.
  assert (∀ n, 3 ≤ n → StronglySorted Z.le ((op_time <$> toy_ops) ++ [n])) as Hs
    by (intros n Hn; cbn; repeat first [constructor | lia]).
  split.
  - rewrite (proj1 (watch_cache_refines (PH := toy_hasher) 5 toy_ops 7 [toy_watch] ltac:(lia) (Hs 7 ltac:(lia)))). by vm_compute.
  - rewrite (proj1 (watch_cache_refines (PH := toy_hasher) 5 toy_ops 8 [toy_watch] ltac:(lia) (Hs 8 ltac:(lia)))). by vm_compute.
Defined.
