(* ===== verification/FastPathSamples.v ===== *)
(** * The fast path on a small project

    The standard layout keeps the build's own files out of sight; a history in
    which a build is reused; and the histories in which a stale firmware is. *)
From S2P Require Import Prelude RustStr CachePaths PathBuf NormPath LibCache LibSamples FileDisk Fingerprint FastPath FingerprintFacts FastPathFacts BuildRuns WatchCache.
Local Open Scope Z.

(** ** The standard layout *)

Lemma buf_join_name d n : d ≠ [] → components n = [Normal n] → starts_with [slash] n = false → buf_join d n = d ++ [Normal n].
Proof. intros Hd Hn Hs. unfold buf_join. rewrite Hs, Hn. by destruct d. Qed.

Lemma parent_join_name d n : d ≠ [] → parent (d ++ [Normal n]) = Some d.
Proof.
  intros Hd. unfold parent. rewrite last_snoc, length_app. cbn. by rewrite Nat.add_1_r, Nat.pred_succ, take_app_length.
Qed.

Definition stamp_file_names : list str :=
  [&"build_fingerprint.json"; &".project.zccache_fp.stamp_cache.json"; &".dep_libs.zccache_fp.stamp_cache.json"].

(** The files that [for_project_outputs] keeps lie in the build directory,
    and below [.fbuild] no watch sees them. *)
Lemma project_layout pd rest artifacts : pd ≠ [] →
  let bd := pd ++ [Normal (&".fbuild")] ++ rest in
  let c := for_project_outputs bd pd artifacts in layout (watches c) [fingerprint_path c] (build_dir c).
Proof.
  intros Hpd bd c. assert (bd ≠ []) as Hbd by (intros [? _]%app_eq_nil; done).
  assert ([fingerprint_path c] ++ (watch_stamp_cache_path <$> watches c) = (λ n, bd ++ [Normal n]) <$> stamp_file_names) as Hown.
  { cbn. unfold watch_stamp_cache_path, with_extension, fast_path_watch. cbn [cache_file].
    rewrite !(buf_join_name bd) by done. unfold file_name. rewrite !last_snoc, !removelast_last. done. }
  split; [rewrite Hown..|done].
  - intros p (n & -> & _)%list_elem_of_fmap. by apply parent_join_name.
  - intros w p Hw (n & -> & Hn)%list_elem_of_fmap. cbn [watches for_project_outputs add_required_artifacts
      add_default_watches add_watch_root new_contract app build_dir] in Hw.
    apply elem_of_cons in Hw as [->|Hw%list_elem_of_singleton].
    + cbn [root fast_path_watch]. split.
      * unfold bd. intros E. apply (f_equal length) in E. rewrite !length_app in E. cbn in E. lia.
      * right; right. exists (pd ++ [Normal (&".fbuild")]), (&".fbuild"). split_and!; [by eexists|..].
        -- exists (rest ++ [Normal n]). unfold bd. by rewrite <- !app_assoc.
        -- intros E. apply (f_equal length) in E. rewrite length_app in E. cbn in E. lia.
        -- unfold bd. intros E. apply (f_equal length) in E. rewrite !length_app in E. cbn in E. lia.
        -- unfold file_name. by rewrite last_snoc.
        -- apply (bool_decide_unpack _). by vm_compute.
    + subst w. cbn [root fast_path_watch build_dir]. rewrite (buf_join_name bd) by done.
      assert (n ≠ &"libs") as Hne.
      { intros ->. revert Hn. apply (bool_decide_unpack _). by vm_compute. }
      split; [intros [_ E]%app_inj_tail; by injection E|]. left. intros [k E].
      cbn [root fast_path_watch] in E. rewrite <- app_assoc in E.
      apply app_inv_head in E. by injection E as E _.
  - apply NoDup_fmap_2; [intros x y [_ [= ->]]%app_inj_tail; done|]. apply (bool_decide_unpack _). by vm_compute.
Qed.

(** ** A small project *)

(** JSON to evaluate with: the binary digits of a value's number. *)
Definition toy_json {A} `{Countable A} : Json A := {|
  to_vec a := Some (bits (encode a));
  to_vec_pretty a := Some (bits (encode a));
  from_slice s := decode (unbits s);
|}.
Lemma toy_json_ok {A} `{Countable A} (fits : A → Prop) : JsonOk A toy_json fits.
Proof. split; [intros a _; by eexists|]. intros a b _ [= <-]. cbn. by rewrite unbits_bits, decode_encode. Qed.

#[global] Instance FileStamp_countable : Countable FileStamp.
Proof.
  refine (inj_countable' (λ s, (len s, modified_secs s, modified_nanos s))
    (λ x, {| len := x.1.1; modified_secs := x.1.2; modified_nanos := x.2 |}) _). by intros [].
Defined.
#[global] Instance WatchFileStamp_eq_dec : EqDecision WatchFileStamp.
Proof. solve_decision. Defined.
#[global] Instance WatchFileStamp_countable : Countable WatchFileStamp.
Proof.
  refine (inj_countable' (λ s, (relative_path s, stamp s, content_hash s))
    (λ x, {| relative_path := x.1.1; stamp := x.1.2; content_hash := x.2 |}) _). by intros [].
Defined.
#[global] Instance stamp_cache_eq_dec : EqDecision PersistedWatchStampCache.
Proof. solve_decision. Defined.
#[global] Instance stamp_cache_countable : Countable PersistedWatchStampCache.
Proof.
  refine (inj_countable' (λ s, (cache_version s, files s)) (λ x, {| cache_version := x.1; files := x.2 |}) _).
  by intros [].
Defined.
#[global] Instance SizeInfo_eq_dec : EqDecision SizeInfo.
Proof. solve_decision. Defined.
#[global] Instance SizeInfo_countable : Countable SizeInfo.
Proof.
  refine (inj_countable' (λ s, (text s, data s, bss s, total_flash s, total_ram s, max_flash s, max_ram s))
    (λ x, let '(a, b, c, d, e, f, g) := x in {| text := a; data := b; bss := c; total_flash := d; total_ram := e;
       max_flash := f; max_ram := g |}) _). by intros [].
Defined.
#[global] Instance fingerprint_eq_dec : EqDecision PersistedBuildFingerprint.
Proof. solve_decision. Defined.
#[global] Instance fingerprint_countable : Countable PersistedBuildFingerprint.
Proof.
  refine (inj_countable' (λ s, (version s, metadata_hash s, file_set_hash s, size_info s))
    (λ x, let '(a, b, c, d) := x in {| version := a; metadata_hash := b; file_set_hash := c; size_info := d |}) _).
  by intros [].
Defined.

(** Digests to evaluate with: the text itself, and its first bytes. *)
Definition toy_sha : Sha256 := λ s, s.
Definition toy_blake : Blake3 := λ s, take 32 (s ++ replicate 32 "."%char).
#[global] Instance toy_blake_ok : Blake3Ok toy_blake.
Proof. split. intros s. unfold blake3, toy_blake. rewrite length_take, length_app, length_replicate. lia. Qed.

Definition toy_zccache : Zccache := {|
  check_fingerprint_embedded _ D := (Err tt, D);
  mark_fingerprint_success_embedded _ D := (Err tt, D);
|}.

#[local] Existing Instances toy_sha toy_blake scan_walk toy_zccache toy_json toy_hasher.
#[local] Instance toy_memory : WatchSetStampCache DaemonWatchSetCache := daemon_cache 0 0.

Definition project : PathBuf := components (&"/p").
Definition main_c : PathBuf := components (&"/p/main.c").
Definition out_dir : PathBuf := components (&"/p/.fbuild/b").
Definition firmware : PathBuf := components (&"/p/.fbuild/b/firmware.elf").
Definition contract : FastPathContract := for_project_outputs out_dir project [firmware].

Definition file (b : str) (t : Z) : Entry := Regular {| content := b; mtime := t; readable := true |}.
Definition folder : Entry := Directory {| dir_size := 0; dir_mtime := 0; listable := true |}.
Definition fresh_disk : Disk := list_to_map
  [(components (&"/"), folder); (project, folder); (components (&"/p/.fbuild"), folder); (out_dir, folder);
   (main_c, file (&"A") 10)].

(** A compilation: the firmware is the source. *)
Definition made_result : BuildResult :=
  {| success := true; result_firmware_path := Some firmware; result_elf_path := Some firmware; result_size_info := None;
     message := &"completed"; result_compile_database_path := None |}.
Definition compile : IO BuildResult := λ D,
  match read D main_c with
  | Ok b => (Ok made_result, <[firmware := file b 20]> D)
  | Err e => (Err e, D)
  end.
Definition edit (b : str) (t : Z) (D : Disk) : Disk := <[main_c := file b t]> D.

Definition inputs_of_result : FastPathResultInputs :=
  {| platform_label := &"RP2040"; mcu := &"rp2040"; env_name := &"pico"; firmware_path := firmware; elf_path := firmware;
     compile_database_path := project |}.
Definition allowed (p : PathBuf) : bool := false.
Definition plainly : BuildParams := {| compiledb_only := false; symbol_analysis := false; symbol_analysis_path := None |}.
Definition analysing : BuildParams := {| compiledb_only := false; symbol_analysis := true; symbol_analysis_path := None |}.

Definition run_build (params : BuildParams) (compile : IO BuildResult) (D : Disk) : Outcome * Disk :=
  let r := build allowed 30 contract params (&"meta") inputs_of_result compile (Some new_cache) D in (r.1.1, r.2).
Definition reused (o : Outcome) : bool := match o with Reused _ => true | _ => false end.
Definition firmware_of (D : Disk) : str := content (file_data D firmware).

(** A second build reuses, also with a new time on the source; an edited
    source is compiled. *)
Example fast_path_demo :
  let D1 := (run_build plainly compile fresh_disk).2 in
  reused (run_build plainly compile fresh_disk).1 = false ∧
  reused (run_build plainly compile D1).1 = true ∧
  reused (run_build plainly compile (edit (&"A") 11 D1)).1 = true ∧
  reused (run_build plainly compile (edit (&"B") 11 D1)).1 = false ∧
  firmware_of (run_build plainly compile (edit (&"B") 11 D1)).2 = &"B".
Proof. by vm_compute. Qed.

(** ** Stale firmware *)

(** A build for a symbol report links the edited source but records nothing;
    when the edit is taken back, the next build reuses that firmware. *)
Lemma analysis_build_hides_edit :
  let D1 := (run_build plainly compile fresh_disk).2 in
  let D2 := (run_build analysing compile (edit (&"B") 40 D1)).2 in
  let D3 := edit (&"A") 41 D2 in
  let '(o, D4) := run_build plainly compile D3 in
  reused o = true ∧ read D4 main_c = Ok (&"A") ∧ firmware_of D4 = &"B".
Proof. by vm_compute. Qed.

(** So does a build that links and then fails. *)
Definition compile_then_fail : IO BuildResult := λ D, (Err BuildFailed, (compile D).2).
Lemma failed_build_hides_edit :
  let D1 := (run_build plainly compile fresh_disk).2 in
  let D2 := (run_build plainly compile_then_fail (edit (&"B") 40 D1)).2 in
  let '(o, D4) := run_build plainly compile (edit (&"A") 41 D2) in
  reused o = true ∧ read D4 main_c = Ok (&"A") ∧ firmware_of D4 = &"B".
Proof. by vm_compute. Qed.

(** The inputs are hashed after the compilation: an edit during it is recorded
    as built. *)
Definition compile_while_edited : IO BuildResult := λ D, let '(r, D) := compile D in (r, edit (&"B") 40 D).
Lemma edit_during_build_hidden :
  let D1 := (run_build plainly compile_while_edited fresh_disk).2 in
  let '(o, D2) := run_build plainly compile D1 in
  reused o = true ∧ read D2 main_c = Ok (&"B") ∧ firmware_of D2 = &"A".
Proof. by vm_compute. Qed.

(** An edit that keeps length and time is not seen. *)
Lemma same_stamp_edit_missed :
  let D1 := (run_build plainly compile fresh_disk).2 in
  let '(o, D2) := run_build plainly compile (edit (&"B") 10 D1) in
  reused o = true ∧ read D2 main_c = Ok (&"B") ∧ firmware_of D2 = &"A".
Proof. by vm_compute. Qed.

(** ** The history of the demo *)

Definition built_disk : Disk := (run_build plainly compile fresh_disk).2.
Definition compiled_disk : Disk := (compile fresh_disk).2.
Definition persist_inputs : FastPathPersistInputs :=
  {| persist_metadata_hash := &"meta"; persist_size_info := None; persist_compiler_cache := false |}.

Lemma contract_layout : layout (watches contract) [fingerprint_path contract] (build_dir contract).
Proof. apply (project_layout project [Normal (&"b")]). done. Qed.

(** Each watch sees the source, or nothing. *)
Lemma watched_main D w p : watched_files D w ⊆ [main_c] → p ∈ watched_files D w → p = main_c.
Proof. intros H Hp. by apply H, list_elem_of_singleton in Hp. Qed.

Definition sees_main (D : Disk) : bool :=
  forallb (λ w, bool_decide (watched_files D w ⊆ [main_c])) (watches contract).

Lemma sees_main_spec D w p : sees_main D = true → w ∈ watches contract → p ∈ watched_files D w → p = main_c.
Proof.
  intros H Hw Hp. unfold sees_main in H. rewrite forallb_forall in H. apply list_elem_of_In, H in Hw.
  apply bool_decide_eq_true in Hw. by eapply watched_main.
Qed.

(** What has to be checked of a disk, by evaluation. *)
Definition disk_checks (D : Disk) : bool :=
  sees_main D && forallb (λ p, negb (is_dir D p)) (own contract) &&
  forallb (λ q, is_dir D q) (ancestors_down (build_dir contract)) &&
  bool_decide (nul ∉ relative_path_for_hash project main_c) && bool_decide (nul ∉ relative_path_for_hash (out_dir ++ [Normal (&"libs")]) main_c) &&
  (length (content (file_data D main_c)) <=? 9)%nat && (mtime (file_data D main_c) <? 100) && (0 <=? mtime (file_data D main_c)) &&
  readable (file_data D main_c).

Lemma contract_watch w : w ∈ watches contract → root w = project ∨ root w = out_dir ++ [Normal (&"libs")].
Proof. intros [->|Hw%list_elem_of_singleton]%elem_of_cons; [by left|right; by subst w]. Qed.

Lemma disk_checks_sane D : disk_checks D = true →
  sane contract D ∧ above D (build_dir contract) ∧ (∀ w, w ∈ watches contract → stampable D w) ∧ sees_main D = true.
Proof.
  unfold disk_checks. rewrite !andb_true_iff, !forallb_forall, !bool_decide_eq_true.
  intros ((((((((Hm & Hf) & Ha) & Hn1) & Hn2) & Hl) & Ht) & Ht0) & Hr).
  assert (above D (build_dir contract)) as Habove by (intros q Hq; by apply Ha, list_elem_of_In).
  split_and!; [split| |..]; try done.
  - intros p Hp%list_elem_of_In. apply Hf in Hp. by destruct (is_dir D p).
  - intros w Hw p Hp. rewrite (sees_main_spec D w p Hm Hw Hp).
    apply Nat.leb_le in Hl. apply Z.ltb_lt in Ht. split_and!; [by destruct (contract_watch w Hw) as [-> | ->]|lia|lia].
  - intros w Hw p Hp. rewrite (sees_main_spec D w p Hm Hw Hp). apply Z.leb_le in Ht0. done.
Qed.

(** Disks with one content of the source are honest. *)
Lemma one_content_honest b past : Forall (λ D, sees_main D = true ∧ content (file_data D main_c) = b) past →
  honest past (watches contract).
Proof.
  rewrite Forall_forall. intros H w D D' rel st x y Hw HD HD' (p & Hp & _ & _ & <-) (q & Hq & _ & _ & <-).
  destruct (H D HD) as [Hm Hb], (H D' HD') as [Hm' Hb'].
  by rewrite (sees_main_spec D w p Hm Hw Hp), (sees_main_spec D' w q Hm' Hw Hq), Hb, Hb'.
Qed.

Definition persisted_disk : Disk := (persist_fast_path_success allowed 30 contract persist_inputs (Some new_cache) compiled_disk).2.
Definition demo : Moment :=
  {| disk := persisted_disk; past := [compiled_disk]; made := Some (&"meta", inputs fresh_disk (watches contract)) |}.

#[local] Existing Instance toy_json_ok.

(** Inputs that can be compared by evaluation. *)
Definition same_inputs (D D' : Disk) : bool := bool_decide (inputs D (watches contract) = inputs D' (watches contract)).

Definition own_absent (D : Disk) : bool := forallb (λ p, negb (exists_ D p)) (own contract).
Lemma own_absent_spec D p : own_absent D = true → p ∈ own contract → D !! p = None.
Proof.
  unfold own_absent. rewrite forallb_forall. intros H Hp%list_elem_of_In. apply H in Hp. unfold exists_ in Hp.
  destruct (D !! p); [|done]. by rewrite bool_decide_true in Hp by by eexists.
Qed.

Lemma fresh_runs : runs contract {| disk := fresh_disk; past := []; made := None |}.
Proof. apply run_start; [by apply disk_checks_sane; vm_compute|]. intros p. apply own_absent_spec. by vm_compute. Qed.

Lemma compiled_spares : spares contract fresh_disk compiled_disk.
Proof. intros p Hp. right. apply own_absent_spec; [by vm_compute|done]. Qed.

Lemma demo_runs : runs contract demo.
Proof.
  assert (disk_checks compiled_disk = true) as (Hs & Ha & _ & Hm)%disk_checks_sane by by vm_compute.
  destruct (persist_fast_path_success allowed 30 contract persist_inputs (Some new_cache) compiled_disk) as [cache' D'] eqn:E.
  assert (persisted_disk = D') as ED by (unfold persisted_disk; by rewrite E). unfold demo. rewrite ED.
  refine (run_compile contract fresh_disk [] None compiled_disk allowed 30 persist_inputs (Some new_cache) cache' D'
    fresh_runs Hs compiled_spares Ha _ _ eq_refl E eq_refl I eq_refl).
  - apply (bool_decide_unpack _). by vm_compute.
  - apply (one_content_honest (&"A")). constructor; [|constructor]. split; [exact Hm|by vm_compute].
Qed.

Lemma twice_A x : x ∈ [&"A"; &"A"] → x = &"A".
Proof. by intros [->|[->|[]%not_elem_of_nil]%elem_of_cons]%elem_of_cons. Qed.

Lemma reused_is_current_witness :
  ∃ r cache' D', build allowed 50 contract plainly (&"meta") inputs_of_result compile (Some new_cache) persisted_disk =
      (Reused r, cache', D') ∧
    made demo = Some (&"meta", inputs persisted_disk (watches contract)) ∧ success r = true.
Proof.
  destruct (build allowed 50 contract plainly (&"meta") inputs_of_result compile (Some new_cache) persisted_disk)
    as [[o cache'] D'] eqn:E.
  assert (reused o = true) as Ho.
  { change o with (o, cache', D').1.1. rewrite <- E. by vm_compute. }
  destruct o as [r|r|e]; [|discriminate Ho..]. exists r, cache', D'. split; [reflexivity|].
  destruct (reused_is_current contract contract_layout allowed 50 demo plainly (&"meta") inputs_of_result compile
    (Some new_cache) cache' r D' demo_runs eq_refl) as (H1 & _ & H2); [| | |exact E|by split].
  - apply (one_content_honest (&"A")). constructor; [|constructor; [|constructor]]; (split; vm_compute; reflexivity).
  - intros D0 _ H. exact H.
  - intros a b Ha Hb _.
    assert (((disk demo :: past demo) ≫= λ D, contents (inputs D (watches contract))) = [&"A"; &"A"]) as Ec by by vm_compute.
    rewrite Ec in Ha, Hb. transitivity (&"A"); [|symmetry]; by apply twice_A.
Defined.

(** The source saved again without a change. *)
Definition touched_disk : Disk := edit (&"A") 55 persisted_disk.

Lemma touched_keeps q : q ∈ own contract → touched_disk !! q = persisted_disk !! q.
Proof.
  intros Hq. apply lookup_insert_ne. intros <-. revert Hq. apply (bool_decide_unpack _). by vm_compute.
Qed.

Lemma unchanged_is_reused_witness :
  ∃ r cache' D', build allowed 60 contract plainly (&"meta") inputs_of_result compile (Some new_cache) touched_disk =
    (Reused r, cache', D') ∧ success r = true.
Proof.
  assert (disk_checks compiled_disk = true) as Hc by by vm_compute. assert (disk_checks touched_disk = true) as Ht by by vm_compute.
  apply disk_checks_sane in Hc as (Hs & Ha & Hst & Hm), Ht as (Hs4 & _ & Hst4 & Hm4).
  destruct (persist_fast_path_success allowed 30 contract persist_inputs (Some new_cache) compiled_disk) as [cache' D'] eqn:E.
  destruct (unchanged_is_reused contract contract_layout allowed 30 {| disk := fresh_disk; past := []; made := None |}
    persist_inputs compiled_disk (Some new_cache) cache' (Some new_cache) D' touched_disk 60 plainly inputs_of_result compile
    fresh_runs eq_refl eq_refl Hs compiled_spares Ha) as (cache3 & D5 & H); [..|eexists _, cache3, D5; split; [exact H|reflexivity]].
  - apply (one_content_honest (&"A")). constructor; [|constructor; [|constructor]]; (split; [assumption|vm_compute; reflexivity]).
  - intros w Hw. split; [by apply Hst|by apply Hst4].
  - reflexivity.
  - reflexivity.
  - exact I.
  - exact E.
  - exact Hs4.
  - apply (bool_decide_unpack _). by vm_compute.
  - replace D' with persisted_disk by (unfold persisted_disk; by rewrite E). exact touched_keeps.
  - vm_compute. reflexivity.
  - apply (bool_decide_unpack _). by vm_compute.
  - reflexivity.
Defined.
