(* ===== verification/Effects.v ===== *)
(** * Programs over the host

    Code that talks to devices, tools and the clock is a program: a tree of
    requests [E X] to the host, each answered by an [X].  What a program does
    is the list of its requests with their answers, whatever the answers;
    properties of programs are postconditions over these lists. *)
From S2P Require Import Prelude.

Section Programs.
Context {E : Type → Type}.

(** [Stop] is a loop that ran out of fuel, or an expectation that failed. *)
Inductive Prog (A : Type) : Type :=
  | Ret (a : A)
  | Stop
  | Vis {X : Type} (e : E X) (k : X → Prog A).
Arguments Ret {A} _.
Arguments Stop {A}.
Arguments Vis {A X} _ _.

Fixpoint bind {A B} (p : Prog A) (f : A → Prog B) : Prog B :=
  match p with Ret a => f a | Stop => Stop | Vis e k => Vis e (λ x, bind (k x) f) end.

Definition trigger {X} (e : E X) : Prog X := Vis e Ret.

(** The error operator: what follows an error is not run. *)
Definition on_ok {F A B} (k : A → Prog (result F B)) (r : result F A) : Prog (result F B) :=
  match r with Ok a => k a | Err e => Ret (Err e) end.

(** A request with its answer. *)
Inductive Obs :=
  | Did {X : Type} (e : E X) (x : X).

(** How far an execution was followed. *)
Inductive Ending (A : Type) := Cut | Stopped | Done (a : A).
Arguments Cut {A}.
Arguments Stopped {A}.
Arguments Done {A} _.

(** [execs p tr r]: the program may make these requests and get these answers,
    up to that ending; every prefix of an execution is one that was cut. *)
Fixpoint execs {A} (p : Prog A) (tr : list Obs) (r : Ending A) : Prop :=
  match p with
  | Ret a => tr = [] ∧ (r = Cut ∨ r = Done a)
  | Stop => tr = [] ∧ (r = Cut ∨ r = Stopped)
  | Vis e k => (tr = [] ∧ r = Cut) ∨ ∃ x tr', tr = Did e x :: tr' ∧ execs (k x) tr' r
  end.

(** The postcondition [Φ] holds of every execution, also of those cut. *)
Fixpoint wp {A} (p : Prog A) (Φ : list Obs → Ending A → Prop) : Prop :=
  match p with
  | Ret a => Φ [] Cut ∧ Φ [] (Done a)
  | Stop => Φ [] Cut ∧ Φ [] Stopped
  | Vis e k => Φ [] Cut ∧ ∀ x, wp (k x) (λ tr r, Φ (Did e x :: tr) r)
  end.

Lemma wp_execs {A} (p : Prog A) Φ : wp p Φ ↔ ∀ tr r, execs p tr r → Φ tr r.
Proof.
  revert Φ. induction p as [a| |X e k IH]; intros Φ; cbn.
  - split; [intros [H1 H2] tr r [-> [-> | ->]]; done|]. intros H. split; apply H; auto.
  - split; [intros [H1 H2] tr r [-> [-> | ->]]; done|]. intros H. split; apply H; auto.
  - split.
    + intros [H1 H2] tr r [[-> ->]|(x & tr' & -> & H)]; [done|]. by apply (proj1 (IH x _) (H2 x)).
    + intros H. split; [apply H; auto|]. intros x. apply IH. intros tr r Hx. apply H. right. eauto.
Qed.

Lemma wp_mono {A} (p : Prog A) (Φ Ψ : list Obs → Ending A → Prop) :
  wp p Φ → (∀ tr r, Φ tr r → Ψ tr r) → wp p Ψ.
Proof. rewrite !wp_execs. auto. Qed.

(** The rule for a sequence: the second part starts where the first is done. *)
Lemma wp_bind {A B} (p : Prog A) (f : A → Prog B) (Φ : list Obs → Ending B → Prop) :
  wp p (λ tr r, match r with
                | Cut => Φ tr Cut
                | Stopped => Φ tr Stopped
                | Done a => wp (f a) (λ tr' r', Φ (tr ++ tr') r')
                end) → wp (bind p f) Φ.
Proof.
  revert Φ. induction p as [a| |X e k IH]; intros Φ; cbn; [tauto|tauto|].
  intros [H1 H2]. split; [done|]. intros x. apply IH. eapply wp_mono; [exact (H2 x)|]. intros tr r. cbn. done.
Qed.

(** ** What is said of the single requests *)

(** Every request and answer satisfies [P]. *)
Definition always (P : Obs → Prop) (tr : list Obs) : Prop := Forall P tr.

(** An execution that always satisfies [P], and whose result satisfies [Q]. *)
Definition safe {A} (P : Obs → Prop) (p : Prog A) (Q : A → Prop) : Prop :=
  wp p (λ tr r, always P tr ∧ match r with Done a => Q a | _ => True end).

Lemma safe_ret {A} P (a : A) (Q : A → Prop) : Q a → safe P (Ret a) Q.
Proof. intros H. split; (split; [constructor|done]). Qed.

Lemma safe_stop {A} P (Q : A → Prop) : safe P Stop Q.
Proof. split; (split; [constructor|done]). Qed.

Lemma safe_mono {A} P (p : Prog A) (Q Q' : A → Prop) : safe P p Q → (∀ a, Q a → Q' a) → safe P p Q'.
Proof. intros H HQ. eapply wp_mono; [exact H|]. intros tr [| |a] [? ?]; auto. Qed.

Lemma safe_weaken {A} (P P' : Obs → Prop) (p : Prog A) Q : safe P p Q → (∀ o, P o → P' o) → safe P' p Q.
Proof.
  intros H HP. eapply wp_mono; [exact H|]. intros tr r [Ha Hr]. split; [|done].
  eapply Forall_impl; [exact Ha|exact HP].
Qed.

Lemma safe_vis {A X} P (e : E X) (k : X → Prog A) Q : (∀ x, P (Did e x) ∧ safe P (k x) Q) → safe P (Vis e k) Q.
Proof.
  intros H. split; [split; [constructor|done]|]. intros x. destruct (H x) as [Hp Hs].
  eapply wp_mono; [exact Hs|]. intros tr r [Ha Hr]. split; [by constructor|done].
Qed.

Lemma safe_bind {A B} P (p : Prog A) (f : A → Prog B) (Q : A → Prop) (Q' : B → Prop) :
  safe P p Q → (∀ a, Q a → safe P (f a) Q') → safe P (bind p f) Q'.
Proof.
  intros Hp Hf. apply wp_bind. eapply wp_mono; [exact Hp|]. intros tr [| |a] [Ha Hr]; [split; done..|].
  eapply wp_mono; [exact (Hf a Hr)|]. intros tr' r [Ha' Hr']. split; [by apply Forall_app|done].
Qed.

Lemma safe_trigger {A X} P (e : E X) (f : X → Prog A) Q : (∀ x, P (Did e x) ∧ safe P (f x) Q) → safe P (bind (trigger e) f) Q.
Proof. apply safe_vis. Qed.

Lemma safe_try {F A B} P (p : Prog (result F A)) (k : A → Prog (result F B)) (Q : result F A → Prop) (Q' : result F B → Prop) :
  safe P p Q → (∀ a, Q (Ok a) → safe P (k a) Q') → (∀ e, Q (Err e) → Q' (Err e)) → safe P (bind p (on_ok k)) Q'.
Proof. intros Hp Hk He. eapply safe_bind; [exact Hp|]. intros [a|e] Ha; [by apply Hk|apply safe_ret; by apply He]. Qed.

(** ** What is said of the result and the way to it *)

(** When the program ends, [Q] holds of its requests and its result. *)
Definition yields {A} (p : Prog A) (Q : list Obs → A → Prop) : Prop :=
  wp p (λ tr r, match r with Done a => Q tr a | _ => True end).

Lemma yields_execs {A} (p : Prog A) Q tr a : yields p Q → execs p tr (Done a) → Q tr a.
Proof. intros H He. by apply (proj1 (wp_execs p _) H tr (Done a)). Qed.

Lemma yields_mono {A} (p : Prog A) (Q Q' : list Obs → A → Prop) : yields p Q → (∀ tr a, Q tr a → Q' tr a) → yields p Q'.
Proof. intros H HQ. eapply wp_mono; [exact H|]. intros tr [| |a] ?; auto. Qed.

Lemma yields_ret {A} (a : A) (Q : list Obs → A → Prop) : Q [] a → yields (Ret a) Q.
Proof. done. Qed.

Lemma yields_trigger {A X} (e : E X) (f : X → Prog A) (Q : list Obs → A → Prop) :
  (∀ x, yields (f x) (λ tr a, Q (Did e x :: tr) a)) → yields (bind (trigger e) f) Q.
Proof. intros H. split; [done|]. intros x. eapply wp_mono; [exact (H x)|]. by intros tr [| |a]. Qed.

Lemma yields_bind {A B} (p : Prog A) (f : A → Prog B) (Q : list Obs → A → Prop) (Q' : list Obs → B → Prop) :
  yields p Q → (∀ tr a, Q tr a → yields (f a) (λ tr' b, Q' (tr ++ tr') b)) → yields (bind p f) Q'.
Proof.
  intros Hp Hf. apply wp_bind. eapply wp_mono; [exact Hp|]. intros tr [| |a] Hr; [done..|].
  eapply wp_mono; [exact (Hf tr a Hr)|]. by intros tr' [| |b].
Qed.

Lemma yields_try {F A B} (p : Prog (result F A)) (k : A → Prog (result F B)) (Q : list Obs → result F A → Prop)
    (Q' : list Obs → result F B → Prop) :
  yields p Q → (∀ tr a, Q tr (Ok a) → yields (k a) (λ tr' b, Q' (tr ++ tr') b)) → (∀ tr e, Q tr (Err e) → Q' tr (Err e)) →
  yields (bind p (on_ok k)) Q'.
Proof.
  intros Hp Hk He. eapply yields_bind; [exact Hp|]. intros tr [a|e] Ha; [by apply Hk|].
  split; [done|]. rewrite app_nil_r. by apply He.
Qed.

Lemma yields_true {A} (p : Prog A) : yields p (λ _ _, True).
Proof. apply wp_execs. by intros tr [| |a]. Qed.

Lemma yields_safe {A} P (p : Prog A) Q : safe P p Q → yields p (λ tr a, always P tr ∧ Q a).
Proof. intros H. eapply wp_mono; [exact H|]. by intros tr [| |a]. Qed.

Lemma yields_and {A} (p : Prog A) Q Q' : yields p Q → yields p Q' → yields p (λ tr a, Q tr a ∧ Q' tr a).
Proof.
  intros H H'. apply wp_execs. intros tr [| |a] He; [done..|]. split; [by apply (yields_execs p Q)|by apply (yields_execs p Q')].
Qed.

Lemma safe_execs {A} P (p : Prog A) Q tr r : safe P p Q → execs p tr r →
  always P tr ∧ match r with Done a => Q a | _ => True end.
Proof. intros H. by apply (proj1 (wp_execs p _) H). Qed.

Lemma execs_bind {A B} (p : Prog A) (f : A → Prog B) tr r : execs (bind p f) tr r →
  (∃ tr1 tr2 a, tr = tr1 ++ tr2 ∧ execs p tr1 (Done a) ∧ execs (f a) tr2 r) ∨
  (execs p tr Cut ∧ r = Cut) ∨ (execs p tr Stopped ∧ r = Stopped).
Proof.
  revert tr. induction p as [a| |X e k IH]; intros tr; cbn.
  - intros H. left. exists [], tr, a. auto.
  - intros [-> [-> | ->]]; right; [left|right]; by auto.
  - intros [[-> ->]|(x & tr' & -> & H)]; [right; left; auto|].
    destruct (IH x tr' H) as [(tr1 & tr2 & a & -> & H1 & H2)|[[H1 ->]|[H1 ->]]].
    + left. exists (Did e x :: tr1), tr2, a. split_and!; [done| |done]. right. eauto.
    + right. left. split; [|done]. right. eauto.
    + right. right. split; [|done]. right. eauto.
Qed.

(** ** Running against a host *)

Section Run.
Context {S : Type} (host : ∀ X, E X → S → X * S).

Fixpoint run {A} (p : Prog A) (s : S) : list Obs * Ending A * S :=
  match p with
  | Ret a => ([], Done a, s)
  | Stop => ([], Stopped, s)
  | Vis e k => let '(x, s) := host _ e s in let '(tr, r, s) := run (k x) s in (Did e x :: tr, r, s)
  end.

Lemma run_execs {A} (p : Prog A) s tr r s' : run p s = (tr, r, s') → execs p tr r.
Proof.
  revert s tr. induction p as [a| |X e k IH]; intros s tr; cbn.
  - intros [= <- <- <-]. auto.
  - intros [= <- <- <-]. auto.
  - destruct (host X e s) as [x s1]. destruct (run (k x) s1) as [[tr1 r1] s2] eqn:E1. intros [= <- <- <-].
    right. exists x, tr1. split; [done|]. by eapply IH.
Qed.

Lemma run_not_cut {A} (p : Prog A) s : (run p s).1.2 ≠ Cut.
Proof.
  revert s. induction p as [a| |X e k IH]; intros s; cbn; [done|done|]. destruct (host X e s) as [x s1].
  specialize (IH x s1). by destruct (run (k x) s1) as [[tr1 r1] s2].
Qed.
End Run.

(** The first requests of a program, and whether it got to its end. *)
Fixpoint cut_after {A} (n : nat) (p : Prog A) {struct p} : Prog (option A) :=
  match p with
  | Ret a => Ret (Some a)
  | Stop => Stop
  | Vis e k => match n with O => Ret None | S n => Vis e (λ x, cut_after n (k x)) end
  end.

Lemma wp_cut_after {A} n (p : Prog A) (Φ : list Obs → Ending A → Prop) (Ψ : list Obs → Ending (option A) → Prop) :
  wp p Φ → (∀ tr, Φ tr Cut → Ψ tr Cut ∧ Ψ tr (Done None)) → (∀ tr, Φ tr Stopped → Ψ tr Stopped) →
  (∀ tr a, Φ tr (Done a) → Ψ tr (Done (Some a))) → wp (cut_after n p) Ψ.
Proof.
  revert n Φ Ψ. induction p as [a| |X e k IH]; intros n Φ Ψ H Hc Hs Hd; cbn in *.
  - destruct H. split; [by apply Hc|by apply Hd].
  - destruct H. split; [by apply Hc|by apply Hs].
  - destruct H as [H1 H2]. destruct n as [|n]; cbn; [by apply Hc|]. split; [by apply Hc|]. intros x.
    apply (IH x n (λ tr r, Φ (Did e x :: tr) r)); auto.
Qed.

Lemma safe_cut_after {A} P n (p : Prog A) Q : safe P p Q → safe P (cut_after n p) (λ o, match o with Some a => Q a | None => True end).
Proof. intros H. eapply wp_cut_after; [exact H| | |]; cbn; tauto. Qed.
End Programs.

Arguments Prog : clear implicits.
Arguments Obs : clear implicits.
Arguments Ret {E A} _.
Arguments Stop {E A}.
Arguments Vis {E A X} _ _.
Arguments Cut {A}.
Arguments Stopped {A}.
Arguments Done {A} _.

Declare Scope prog_scope.
Notation "x <~ p ; k" := (bind p (λ x, k)) (at level 100, p at next level, k at level 200, right associativity) : prog_scope.
Notation "' x <~ p ; k" := (bind p (λ y, match y with x => k end))
  (at level 100, x strict pattern, p at next level, k at level 200, right associativity) : prog_scope.
Notation "x <~? p ; k" := (bind p (on_ok (λ x, k))) (at level 100, p at next level, k at level 200, right associativity) : prog_scope.
Notation "' x <~? p ; k" := (bind p (on_ok (λ y, match y with x => k end)))
  (at level 100, x strict pattern, p at next level, k at level 200, right associativity) : prog_scope.
