(* ===== verification/Uf2.v ===== *)
(** * UF2 images, [fbuild-deploy/src/rp2040.rs]

    Building the blocks of a flash image and validating an image before it is
    written.  Bytes are [ascii], addresses [Z] below [2 ^ 32]. *)
From S2P Require Import Prelude RustStr LibCache.
From stdpp Require Import sorting.
Local Open Scope Z.

Definition UF2_MAGIC_START0 : Z := 0x0A324655.
Definition UF2_MAGIC_START1 : Z := 0x9E5D5157.
Definition UF2_MAGIC_END : Z := 0x0AB16F30.
Definition UF2_FLAG_FAMILY_ID_PRESENT : Z := 0x2000.
Definition RP2040_FAMILY_ID : Z := 0xE48BFF56.
Definition RP2_ABSOLUTE_FAMILY_ID : Z := 0xE48BFF57.
Definition RP2350_FAMILY_ID : Z := 0xE48BFF59.
Definition RP2350_ERRATA_ABSOLUTE_ADDRESS : Z := 0x10FFFF00.
Definition RP2040_UF2_BASE_ADDRESS : Z := 0x10000000.
Definition RP2040_XIP_SRAM_START : Z := 0x15000000.
Definition RP2040_XIP_SRAM_END : Z := 0x15004000.
Definition RP2040_SRAM_START : Z := 0x20000000.
Definition RP2040_SRAM_END : Z := 0x20042000.
Definition UF2_PAYLOAD_SIZE : nat := 256.
Definition UF2_BLOCK_SIZE : nat := 512.

Inductive Uf2Target := Flash | Ram.
#[global] Instance Uf2Target_eq_dec : EqDecision Uf2Target.
Proof. solve_decision. Defined.

(** ** Encoding *)

Definition u32 (n : Z) : Z := n mod 2 ^ 32.
Definition zero_byte : ascii := "000"%char.

(** [buffer[offset..offset + n].copy_from_slice(bytes)] *)
Definition put_bytes (buffer : str) (offset : nat) (bytes : str) : str :=
  take offset buffer ++ bytes ++ drop (offset + length bytes) buffer.
Definition put_u32 (buffer : str) (offset : nat) (value : Z) : str := put_bytes buffer offset (to_le_bytes 4 value).

(** One turn of the loop of [encode_uf2_at_address]; the sum of the address
    wraps around. *)
Definition encode_block (binary : str) (base_address family_id : Z) (block_count block_no : nat) : str :=
  let start := (block_no * UF2_PAYLOAD_SIZE)%nat in
  let payload := take UF2_PAYLOAD_SIZE (drop start binary) in
  let block := replicate UF2_BLOCK_SIZE zero_byte in
  let block := put_u32 block 0 UF2_MAGIC_START0 in
  let block := put_u32 block 4 UF2_MAGIC_START1 in
  let block := put_u32 block 8 UF2_FLAG_FAMILY_ID_PRESENT in
  let block := put_u32 block 12 (u32 (u32 (Z.of_nat start) + base_address)) in
  let block := put_u32 block 16 (Z.of_nat UF2_PAYLOAD_SIZE) in
  let block := put_u32 block 20 (u32 (Z.of_nat block_no)) in
  let block := put_u32 block 24 (u32 (Z.of_nat block_count)) in
  let block := put_u32 block 28 family_id in
  let block := put_bytes block 32 payload in
  put_u32 block 508 UF2_MAGIC_END.

(** [binary.len().div_ceil(UF2_PAYLOAD_SIZE).max(1)] *)
Definition block_count (binary : str) : nat :=
  Nat.max 1 ((length binary + (UF2_PAYLOAD_SIZE - 1)) / UF2_PAYLOAD_SIZE).

Definition encode_uf2_at_address (binary : str) (base_address family_id : Z) : str :=
  seq 0 (block_count binary) ≫= encode_block binary base_address family_id (block_count binary).

Definition encode_uf2_for_family (binary : str) (family_id : Z) : str :=
  encode_uf2_at_address binary RP2040_UF2_BASE_ADDRESS family_id.
Definition encode_uf2 (binary : str) : str := encode_uf2_for_family binary RP2040_FAMILY_ID.

(** ** Validation *)

(** The refusals of [validate_uf2], one for each message. *)
Inductive Uf2Error :=
  | BadSize (size : nat)
  | BadMagic (index : nat)
  | WrongFamily (index : nat) (found : Z)
  | BadMetadata (index : nat)
  | BadAbsolute (index : nat)
  | MixedTargets
  | DuplicateBlock (block_number : Z)
  | Incomplete
  | NoExpectedFamily
  | Overlap (address : Z).

(** [u32::from_le_bytes] *)
Fixpoint from_le_bytes (s : str) : Z :=
  match s with [] => 0 | b :: s => Z.of_N (N_of_ascii b) + 256 * from_le_bytes s end.
Definition field (block : str) (offset : nat) : Z := from_le_bytes (take 4 (drop offset block)).

(** [chunks_exact(UF2_BLOCK_SIZE)] *)
Fixpoint chunks (fuel n : nat) (s : str) : list str :=
  match fuel with
  | O => []
  | S fuel => if (n <=? length s)%nat then take n s :: chunks fuel n (drop n s) else []
  end.
Definition blocks (bytes : str) : list str := chunks (length bytes) UF2_BLOCK_SIZE bytes.

Record Scan := {
  seen : list bool;
  seen_ranges : list (Z * Z);
  image_target : option Uf2Target;
  saw_expected_family : bool;
  saw_rp2350_absolute_block : bool;
}.

Section Validate.
Context (expected_family : Z).

Definition flash_end : Z := if decide (expected_family = RP2350_FAMILY_ID) then 0x14000000 else 0x11000000.

(** [target_address.checked_add(256)] *)
Definition target_end (target_address : Z) : option Z :=
  let e := target_address + Z.of_nat UF2_PAYLOAD_SIZE in if e <? 2 ^ 32 then Some e else None.

Definition block_target (target_address target_end : Z) : option Uf2Target :=
  let is_flash := (RP2040_UF2_BASE_ADDRESS <=? target_address) && (target_end <=? flash_end) &&
                  (target_address mod Z.of_nat UF2_PAYLOAD_SIZE =? 0) in
  let is_rp2040_ram := bool_decide (expected_family = RP2040_FAMILY_ID) &&
    ((RP2040_XIP_SRAM_START <=? target_address) && (target_end <=? RP2040_XIP_SRAM_END) ||
     (RP2040_SRAM_START <=? target_address) && (target_end <=? RP2040_SRAM_END)) in
  if is_flash then Some Flash else if is_rp2040_ram then Some Ram else None.

(** The turn of the loop for block [index]. *)
Definition scan_block (expected_block_count index : nat) (block : str) (st : Scan) : result Uf2Error Scan :=
  if negb ((field block 0 =? UF2_MAGIC_START0) && (field block 4 =? UF2_MAGIC_START1) && (field block 508 =? UF2_MAGIC_END))
  then Err (BadMagic index)
  else
    let family := field block 28 in
    let is_absolute := bool_decide (expected_family = RP2350_FAMILY_ID) && (family =? RP2_ABSOLUTE_FAMILY_ID) in
    if (Z.land (field block 8) UF2_FLAG_FAMILY_ID_PRESENT =? 0) || negb (family =? expected_family) && negb is_absolute
    then Err (WrongFamily index family)
    else
      let saw := saw_expected_family st || (family =? expected_family) in
      let address := field block 12 in
      match target_end address with
      | None => Err (BadMetadata index)
      | Some e =>
          if is_absolute then
            if saw_rp2350_absolute_block st || negb (address =? RP2350_ERRATA_ABSOLUTE_ADDRESS) ||
               negb (field block 16 =? Z.of_nat UF2_PAYLOAD_SIZE) || negb (field block 20 =? 0) || negb (field block 24 =? 2)
            then Err (BadAbsolute index)
            else Ok {| seen := seen st; seen_ranges := seen_ranges st ++ [(address, e)]; image_target := image_target st;
                       saw_expected_family := saw; saw_rp2350_absolute_block := true |}
          else
            let block_number := field block 20 in
            match block_target address e with
            | None => Err (BadMetadata index)
            | Some t =>
                if negb (field block 16 =? Z.of_nat UF2_PAYLOAD_SIZE) || (Z.of_nat expected_block_count <=? block_number) ||
                   negb (field block 24 =? Z.of_nat expected_block_count)
                then Err (BadMetadata index)
                else if match image_target st with Some t' => negb (bool_decide (t' = t)) | None => false end
                then Err MixedTargets
                else if default false (seen st !! Z.to_nat block_number) then Err (DuplicateBlock block_number)
                else Ok {| seen := <[Z.to_nat block_number := true]> (seen st);
                           seen_ranges := seen_ranges st ++ [(address, e)]; image_target := Some t;
                           saw_expected_family := saw; saw_rp2350_absolute_block := saw_rp2350_absolute_block st |}
            end
      end.

Fixpoint scan_blocks (expected_block_count index : nat) (bs : list str) (st : Scan) : result Uf2Error Scan :=
  match bs with
  | [] => Ok st
  | b :: bs => st <-? scan_block expected_block_count index b st; scan_blocks expected_block_count (S index) bs st
  end.

Definition by_start (a b : Z * Z) : Prop := a.1 <= b.1.
#[global] Instance by_start_dec : RelDecision by_start := λ a b, decide (a.1 <= b.1).

(** [windows(2).find(overlapping)] *)
Fixpoint find_overlap (ranges : list (Z * Z)) : option Z :=
  match ranges with
  | a :: ((b :: _) as rest) => if b.1 <? a.2 then Some b.1 else find_overlap rest
  | _ => None
  end.

Definition expected_blocks (bytes : str) : nat :=
  length (filter (λ b, field b 28 = expected_family) (blocks bytes)).

(** [None] is a panic of the expectation at the end; the indices into [seen]
    are in range by the check before them. *)
Definition validate_uf2 (bytes : str) : option (result Uf2Error Uf2Target) :=
  if bool_decide (bytes = []) || negb (length bytes mod UF2_BLOCK_SIZE =? 0)%nat then Some (Err (BadSize (length bytes)))
  else
    let n := expected_blocks bytes in
    match scan_blocks n 0 (blocks bytes)
            {| seen := replicate n false; seen_ranges := []; image_target := None; saw_expected_family := false;
               saw_rp2350_absolute_block := false |} with
    | Err e => Some (Err e)
    | Ok st =>
        if negb (forallb (λ b : bool, b) (seen st)) then Some (Err Incomplete)
        else if negb (saw_expected_family st) then Some (Err NoExpectedFamily)
        else match find_overlap (merge_sort by_start (seen_ranges st)) with
             | Some a => Some (Err (Overlap a))
             | None => match image_target st with Some t => Some (Ok t) | None => None end
             end
    end.
End Validate.

Example uf2_demo :
  length (encode_uf2 (replicate 300 "x"%char)) = 1024%nat ∧
  validate_uf2 RP2040_FAMILY_ID (encode_uf2 (replicate 300 "x"%char)) = Some (Ok Flash) ∧
  validate_uf2 RP2350_FAMILY_ID (encode_uf2 (replicate 300 "x"%char)) = Some (Err (WrongFamily 0 RP2040_FAMILY_ID)) ∧
  validate_uf2 RP2040_FAMILY_ID (&"x") = Some (Err (BadSize 1)).
Proof. by vm_compute. Qed.
