(* ===== verification/Uf2Facts.v ===== *)
(** * UF2 images: what the encoder writes and the validator accepts *)
From S2P Require Import Prelude RustStr LibCache FingerprintFacts Uf2.
From stdpp Require Import sorting.
Local Open Scope Z.

(** ** Fields of a block *)

Lemma from_to_le_bytes n v : 0 ≤ v < 256 ^ Z.of_nat n → from_le_bytes (to_le_bytes n v) = v.
Proof.
  revert v. induction n as [|n IH]; intros v Hv; [cbn in *; lia|]. cbn [to_le_bytes from_le_bytes].
  rewrite Nat2Z.inj_succ, Z.pow_succ_r in Hv by lia. unfold byte_of.
  pose proof (Z.mod_pos_bound v 256 ltac:(lia)). rewrite N_ascii_embedding by lia.
  rewrite IH by (split; [apply Z.div_pos; lia|apply Z.div_lt_upper_bound; lia]).
  rewrite Z2N.id by lia. pose proof (Z.div_mod v 256). lia.
Qed.

Lemma put_bytes_mid a b c bytes : length b = length bytes → put_bytes (a ++ b ++ c) (length a) bytes = a ++ bytes ++ c.
Proof.
  intros H. unfold put_bytes. rewrite take_app_length. do 2 f_equal.
  rewrite <- H, <- length_app, app_assoc. apply drop_app_length.
Qed.

Definition words (vs : list Z) : str := vs ≫= to_le_bytes 4.

Lemma words_length vs : length (words vs) = (4 * length vs)%nat.
Proof. induction vs as [|v vs IH]; [done|]. change (words (v :: vs)) with (to_le_bytes 4 v ++ words vs). rewrite length_app, to_le_bytes_length, IH. cbn. lia. Qed.

Lemma field_words vs rest i v : vs !! i = Some v → 0 ≤ v < 2 ^ 32 → field (words vs ++ rest) (4 * i) = v.
Proof.
  revert i. induction vs as [|u vs IH]; intros i Hi Hv; [done|].
  change (words (u :: vs)) with (to_le_bytes 4 u ++ words vs). rewrite <- app_assoc.
  destruct i as [|i]; cbn in Hi.
  - injection Hi as ->. unfold field. rewrite Nat.mul_0_r, drop_0, take_app_le, take_ge by (rewrite to_le_bytes_length; lia).
    by apply from_to_le_bytes.
  - unfold field in IH |- *. replace (4 * S i)%nat with (4 + 4 * i)%nat by lia.
    rewrite <- drop_drop, drop_app_length' by by rewrite to_le_bytes_length. by apply IH.
Qed.

(** A block: eight words, the padded payload, and the last magic number. *)
Definition block_words (address : Z) (block_no block_count family_id : Z) : list Z :=
  [UF2_MAGIC_START0; UF2_MAGIC_START1; UF2_FLAG_FAMILY_ID_PRESENT; address; Z.of_nat UF2_PAYLOAD_SIZE; block_no;
   block_count; family_id].
Definition padded (payload : str) : str := payload ++ replicate (476 - length payload) zero_byte.

Lemma zeros_words : replicate UF2_BLOCK_SIZE zero_byte =
  words [0; 0; 0; 0; 0; 0; 0; 0] ++ replicate 476 zero_byte ++ replicate 4 zero_byte.
Proof. by vm_compute. Qed.

Lemma put_word vs rest u i o : o = (4 * i)%nat → (i < length vs)%nat →
  put_u32 (words vs ++ rest) o u = words (<[i := u]> vs) ++ rest.
Proof.
  intros -> Hi. destruct (lookup_lt_is_Some_2 vs i Hi) as [v Hv].
  rewrite <- (take_drop_middle vs i v Hv) at 1. rewrite insert_take_drop by done. unfold words. rewrite !bind_app.
  cbn [mbind list_bind]. fold (words (take i vs)) (words (drop (S i) vs)). rewrite <- !app_assoc.
  replace (4 * i)%nat with (length (words (take i vs))) by (rewrite words_length, length_take; lia).
  by apply put_bytes_mid.
Qed.

Lemma encode_block_form binary base family n i :
  encode_block binary base family n i =
    words (block_words (u32 (u32 (Z.of_nat (i * UF2_PAYLOAD_SIZE)) + base)) (u32 (Z.of_nat i)) (u32 (Z.of_nat n)) family) ++
    padded (take UF2_PAYLOAD_SIZE (drop (i * UF2_PAYLOAD_SIZE) binary)) ++ to_le_bytes 4 UF2_MAGIC_END.
Proof.
  unfold encode_block. cbv zeta. set (payload := take _ _).
  assert (length payload ≤ 256)%nat as Hp by (unfold payload; rewrite length_take; unfold UF2_PAYLOAD_SIZE; lia).
  rewrite zeros_words.
  rewrite (put_word _ _ _ 0 0), (put_word _ _ _ 1 4), (put_word _ _ _ 2 8), (put_word _ _ _ 3 12), (put_word _ _ _ 4 16),
    (put_word _ _ _ 5 20), (put_word _ _ _ 6 24), (put_word _ _ _ 7 28) by (cbn; lia). cbn [insert list_insert].
  fold (block_words (u32 (u32 (Z.of_nat (i * UF2_PAYLOAD_SIZE)) + base)) (u32 (Z.of_nat i)) (u32 (Z.of_nat n)) family).
  set (ws := words _). assert (length ws = 32%nat) as Hws by (unfold ws; by rewrite words_length).
  assert (replicate 476 zero_byte = replicate (length payload) zero_byte ++ replicate (476 - length payload) zero_byte) as ->
    by (rewrite <- replicate_add; f_equal; lia).
  rewrite <- app_assoc, <- Hws at 1. rewrite put_bytes_mid by (by rewrite length_replicate).
  rewrite (app_assoc payload). change (payload ++ replicate (476 - length payload) zero_byte) with (padded payload).
  assert (length (ws ++ padded payload) = 508%nat) as Hl
    by (unfold padded; rewrite !length_app, length_replicate; lia).
  rewrite (app_assoc ws). unfold put_u32. rewrite <- Hl at 1. rewrite <- (app_nil_r (replicate 4 zero_byte)).
  rewrite put_bytes_mid by (by rewrite to_le_bytes_length). by rewrite app_nil_r, app_assoc.
Qed.

Lemma padded_length payload : (length payload ≤ 476)%nat → length (padded payload) = 476%nat.
Proof. intros H. unfold padded. rewrite length_app, length_replicate. lia. Qed.

(** ** Ranges that do not overlap *)

Definition apart (a b : Z * Z) : Prop := a.2 ≤ b.1 ∨ b.2 ≤ a.1.
Definition disjoint_ranges : list (Z * Z) → Prop := ForallOrdPairs apart.

Lemma apart_sym a b : apart a b → apart b a.
Proof. unfold apart. tauto. Qed.

Lemma FOP_cons a l : ForallOrdPairs apart (a :: l) ↔ Forall (apart a) l ∧ ForallOrdPairs apart l.
Proof. split; [by inversion 1|]. intros []. by constructor. Qed.

Lemma disjoint_Permutation l k : l ≡ₚ k → disjoint_ranges l → disjoint_ranges k.
Proof.
  unfold disjoint_ranges. induction 1 as [|a l k Hp IH|a b l|l k m _ IH1 _ IH2]; [done|..].
  - rewrite !FOP_cons. intros [H1 H2]. split; [by rewrite <- Hp|by apply IH].
  - rewrite !FOP_cons, !Forall_cons. intros [[H1 H2] [H3 H4]]. split_and!; [by apply apart_sym|done..].
  - auto.
Qed.

Definition proper (r : Z * Z) : Prop := r.1 < r.2.

(** On ranges sorted by start, looking at neighbours is enough. *)
Lemma find_overlap_spec l : StronglySorted by_start l → Forall proper l →
  (find_overlap l = None ↔ disjoint_ranges l).
Proof.
  induction l as [|a l IH]; intros Hs Hp; [split; [constructor|done]|].
  apply StronglySorted_inv in Hs as [Hs Ha]. apply Forall_cons in Hp as [Hpa Hp]. specialize (IH Hs Hp).
  unfold disjoint_ranges in *. rewrite FOP_cons. destruct l as [|b l]; [split; [split; constructor|done]|].
  cbn [find_overlap]. apply Forall_cons in Ha as [Hab Ha]. apply Forall_cons in Hp as [Hpb Hp].
  unfold by_start, proper in *. apply StronglySorted_inv in Hs as [_ Hb].
  destruct (Z.ltb_spec b.1 a.2) as [Hlt|Hge].
  - split; [done|]. intros [H _]. apply Forall_cons in H as [[H|H] _]; lia.
  - rewrite IH. split; [|tauto]. intros H. split; [|done]. constructor; [by left|].
    eapply Forall_impl; [exact Hb|]. intros c Hc. left. unfold by_start in Hc. lia.
Qed.

Lemma by_start_total : Total by_start.
Proof. intros a b. unfold by_start. lia. Qed.
Lemma by_start_trans : Transitive by_start.
Proof. intros a b c. unfold by_start. lia. Qed.

Lemma overlap_sorted l : Forall proper l → (find_overlap (merge_sort by_start l) = None ↔ disjoint_ranges l).
Proof.
  intros Hp. pose proof by_start_total. pose proof by_start_trans. pose proof (merge_sort_Permutation by_start l) as Hperm.
  rewrite find_overlap_spec; [|apply (StronglySorted_merge_sort by_start)|by rewrite Hperm].
  split; apply disjoint_Permutation; [done|by symmetry].
Qed.

(** ** The blocks of an encoded image *)

Lemma chunks_concat n l fuel : (0 < n)%nat → Forall (λ b : str, length b = n) l → (length l ≤ fuel)%nat →
  chunks fuel n (mjoin l) = l.
Proof.
  intros Hn Hl. revert fuel. induction Hl as [|b l Hb Hl IH]; intros fuel Hf.
  - destruct fuel; [done|]. cbn. by rewrite (proj2 (Nat.leb_gt _ _)).
  - destruct fuel as [|fuel]; [cbn in Hf; lia|]. cbn [chunks mjoin list_join].
    rewrite (proj2 (Nat.leb_le _ _)) by (rewrite length_app; lia).
    rewrite take_app_length', drop_app_length' by done. f_equal. apply IH. cbn in Hf. lia.
Qed.

Lemma chunks_exact fuel n s : (0 < n)%nat → (length s ≤ fuel)%nat →
  Forall (λ b : str, length b = n) (chunks fuel n s) ∧
  ∃ rest, s = mjoin (chunks fuel n s) ++ rest ∧ (length rest < n)%nat.
Proof.
  intros Hn. revert s. induction fuel as [|fuel IH]; intros s Hs.
  - split; [done|]. exists s. cbn. split; [done|lia].
  - cbn [chunks]. destruct (Nat.leb_spec n (length s)) as [Hle|Hlt].
    + destruct (IH (drop n s)) as [Hall (rest & E & Hr)]; [rewrite length_drop; lia|].
      split; [constructor; [rewrite length_take; lia|done]|]. exists rest. split; [|done].
      change (mjoin (?a :: ?l)) with (a ++ mjoin l). rewrite <- app_assoc, <- E. by rewrite take_drop.
    + split; [done|]. by exists s.
Qed.

Section Encoded.
Context (binary : str) (family : Z).
Abbreviation n := (block_count binary).

Definition address_of (i : nat) : Z := RP2040_UF2_BASE_ADDRESS + 256 * Z.of_nat i.
Definition payload_of (i : nat) : str := take UF2_PAYLOAD_SIZE (drop (i * UF2_PAYLOAD_SIZE) binary).
Definition nth_block (i : nat) : str :=
  words (block_words (address_of i) (Z.of_nat i) (Z.of_nat n) family) ++ padded (payload_of i) ++ to_le_bytes 4 UF2_MAGIC_END.

Lemma payload_of_length i : (length (payload_of i) ≤ 256)%nat.
Proof. unfold payload_of. rewrite length_take. unfold UF2_PAYLOAD_SIZE. lia. Qed.

Lemma nth_block_length i : length (nth_block i) = 512%nat.
Proof.
  unfold nth_block. rewrite !length_app, words_length, padded_length, to_le_bytes_length; [done|].
  pose proof (payload_of_length i). lia.
Qed.

Lemma block_count_spec : (1 ≤ n)%nat ∧ (length binary ≤ 256 * n)%nat ∧ (256 * n ≤ Nat.max 256 (length binary + 255))%nat.
Proof.
  unfold block_count, UF2_PAYLOAD_SIZE. pose proof (Nat.div_mod (length binary + (256 - 1)) 256 ltac:(lia)).
  pose proof (Nat.mod_upper_bound (length binary + (256 - 1)) 256 ltac:(lia)). lia.
Qed.

(** The flash has less than [2 ^ 31] bytes. *)
Context (Hsize : Z.of_nat (length binary) ≤ 2 ^ 31 - 256).

Lemma encoded_form : encode_uf2_for_family binary family = mjoin (nth_block <$> seq 0 n).
Proof.
  unfold encode_uf2_for_family, encode_uf2_at_address. pose proof block_count_spec.
    assert (∀ l, Forall (λ i, i < n)%nat l → l ≫= encode_block binary RP2040_UF2_BASE_ADDRESS family n = mjoin (nth_block <$> l)) as H'.
    { induction 1 as [|i l Hi Hl IH]; [done|]. cbn [mbind list_bind]. fold (mbind (M := list) (encode_block binary RP2040_UF2_BASE_ADDRESS family n)).
      rewrite IH. change (mjoin (nth_block <$> i :: l)) with (nth_block i ++ mjoin (nth_block <$> l)). f_equal.
      rewrite encode_block_form. unfold nth_block, address_of, u32, UF2_PAYLOAD_SIZE, RP2040_UF2_BASE_ADDRESS in *.
      rewrite (Z.mod_small (Z.of_nat (i * 256))), (Z.mod_small (Z.of_nat i)), (Z.mod_small (Z.of_nat n)) by lia.
      rewrite Z.mod_small by lia. do 3 f_equal. lia. }
    apply H', Forall_forall. intros i Hi%elem_of_seq. lia.
Qed.

Lemma encoded_blocks : blocks (encode_uf2_for_family binary family) = nth_block <$> seq 0 n.
Proof.
  unfold blocks. rewrite encoded_form. apply chunks_concat; [unfold UF2_BLOCK_SIZE; lia|..].
  - apply Forall_fmap, Forall_forall. intros i _. apply nth_block_length.
  - assert (∀ l, (length (nth_block <$> l) ≤ length (mjoin (nth_block <$> l)))%nat) as H'; [|apply H'].
    intros l. induction l as [|i l IH]; [done|]. change (mjoin (nth_block <$> i :: l)) with (nth_block i ++ mjoin (nth_block <$> l)).
    rewrite length_app, nth_block_length. cbn in *. lia.
Qed.

Lemma nth_block_field i k o v : o = (4 * k)%nat →
  block_words (address_of i) (Z.of_nat i) (Z.of_nat n) family !! k = Some v → 0 ≤ v < 2 ^ 32 →
  field (nth_block i) o = v.
Proof. intros -> Hk Hv. unfold nth_block. by apply field_words. Qed.

Lemma nth_block_end i : field (nth_block i) 508 = UF2_MAGIC_END.
Proof.
  unfold nth_block, field. rewrite app_assoc, drop_app_length'.
  - by vm_compute.
  - rewrite length_app, words_length, padded_length; [done|]. pose proof (payload_of_length i). lia.
Qed.

Context (Hfam : family = RP2040_FAMILY_ID ∨ family = RP2350_FAMILY_ID).
Context (Hflash : Z.of_nat (length binary) ≤ flash_end family - RP2040_UF2_BASE_ADDRESS).

Lemma address_bounds i : (i < n)%nat → RP2040_UF2_BASE_ADDRESS ≤ address_of i ∧ address_of i + 256 ≤ flash_end family ∧
  address_of i mod 256 = 0 ∧ flash_end family ≤ 0x14000000.
Proof.
  intros Hi. pose proof block_count_spec. unfold address_of, RP2040_UF2_BASE_ADDRESS in *.
  assert (∃ q, flash_end family = 0x10000000 + 256 * q ∧ 0x10000 ≤ q ≤ 0x40000) as (q & Hq & Hb).
  { unfold flash_end. destruct (decide _); [by exists 0x40000|by exists 0x10000]. }
  split_and!; [lia..| |lia]. rewrite Z.mul_comm. rewrite Z.mod_add by lia. done.
Qed.

(** The state after the first [k] blocks. *)
Definition scanned (k : nat) : Scan :=
  {| seen := replicate k true ++ replicate (n - k) false;
     seen_ranges := (λ i, (address_of i, address_of i + 256)) <$> seq 0 k;
     image_target := if decide (k = 0%nat) then None else Some Flash;
     saw_expected_family := negb (bool_decide (k = 0%nat)); saw_rp2350_absolute_block := false |}.

Lemma scan_nth_block k : (k < n)%nat → scan_block family n k (nth_block k) (scanned k) = Ok (scanned (S k)).
Proof.
  intros Hk. destruct (address_bounds k Hk) as (Ha1 & Ha2 & Ha3 & Hf). pose proof block_count_spec.
  unfold RP2040_UF2_BASE_ADDRESS in *. unfold scan_block.
  rewrite (nth_block_field k 0 0 UF2_MAGIC_START0), (nth_block_field k 1 4 UF2_MAGIC_START1), nth_block_end,
    (nth_block_field k 7 28 family), (nth_block_field k 2 8 UF2_FLAG_FAMILY_ID_PRESENT), (nth_block_field k 3 12 (address_of k)),
    (nth_block_field k 4 16 (Z.of_nat UF2_PAYLOAD_SIZE)), (nth_block_field k 5 20 (Z.of_nat k)), (nth_block_field k 6 24 (Z.of_nat n));
    try done; try lia; try (by destruct Hfam as [-> | ->]).
  assert (bool_decide (family = RP2350_FAMILY_ID) && (family =? RP2_ABSOLUTE_FAMILY_ID) = false) as ->
    by by destruct Hfam as [-> | ->].
  rewrite !Z.eqb_refl. cbn [negb andb orb]. change (Z.land _ _ =? 0) with false. cbn [orb].
  assert (target_end (address_of k) = Some (address_of k + 256)) as ->.
  { unfold target_end. by rewrite (proj2 (Z.ltb_lt _ _)) by (unfold UF2_PAYLOAD_SIZE; lia). }
  assert (block_target family (address_of k) (address_of k + 256) = Some Flash) as ->.
  { unfold block_target, RP2040_UF2_BASE_ADDRESS, UF2_PAYLOAD_SIZE. change (Z.of_nat 256) with 256.
    by rewrite !(proj2 (Z.leb_le _ _)), Ha3 by lia. }
  rewrite (proj2 (Z.leb_gt _ _)) by lia. cbn [orb].
  assert (match image_target (scanned k) with Some t' => negb (bool_decide (t' = Flash)) | None => false end = false) as ->
    by (cbn; by destruct (decide (k = 0%nat))).
  rewrite Nat2Z.id. cbn [seen scanned].
  rewrite lookup_app_r, length_replicate, Nat.sub_diag, lookup_replicate_2 by (rewrite ?length_replicate; lia). cbn [default].
  rewrite orb_true_r. f_equal. unfold scanned. f_equal.
  - rewrite insert_app_r_alt, length_replicate, Nat.sub_diag by (rewrite length_replicate; lia).
    replace (n - k)%nat with (S (n - S k)) by lia. cbn [replicate insert list_insert].
    by rewrite replicate_cons_app, <- app_assoc.
  - by rewrite seq_S, fmap_app.
Qed.

Lemma scan_all k : (k ≤ n)%nat → scan_blocks family n (n - k) (nth_block <$> seq (n - k) k) (scanned (n - k)) = Ok (scanned n).
Proof.
  induction k as [|k IH]; intros Hk; [by rewrite Nat.sub_0_r|]. cbn [seq fmap list_fmap scan_blocks].
  rewrite scan_nth_block by lia. cbn [result_bind]. replace (S (n - S k)) with (n - k)%nat by lia. apply IH. lia.
Qed.

Lemma all_expected : expected_blocks family (encode_uf2_for_family binary family) = n.
Proof.
  unfold expected_blocks. rewrite encoded_blocks.
  assert (∀ l : list nat, filter (λ b, field b 28 = family) ((nth_block <$> l) : list str) = nth_block <$> l) as H.
  { induction l as [|i l IH]; [done|]. cbn [fmap list_fmap]. rewrite filter_cons_True; [by f_equal|].
    apply (nth_block_field i 7 28 family); [done..|]. by destruct Hfam as [-> | ->]. }
  by rewrite H, length_fmap, length_seq.
Qed.

Lemma scanned_disjoint : disjoint_ranges (seen_ranges (scanned n)).
Proof.
  cbn [seen_ranges scanned]. unfold disjoint_ranges.
  assert (∀ m j, ForallOrdPairs apart ((λ i, (address_of i, address_of i + 256)) <$> seq j m)) as H; [|apply H].
  induction m as [|m IH]; intros j; [constructor|]. cbn [seq fmap list_fmap]. apply FOP_cons. split; [|apply IH].
  apply Forall_fmap, Forall_forall. intros i Hi%elem_of_seq. left. cbn. unfold address_of. lia.
Qed.

Lemma encoded_length : length (encode_uf2_for_family binary family) = (512 * n)%nat.
Proof.
  rewrite encoded_form. assert (∀ l : list nat, length (mjoin ((nth_block <$> l) : list str)) = (512 * length l)%nat) as H.
  { intros l. induction l as [|i l IH]; [done|]. change (mjoin ((nth_block <$> i :: l) : list str)) with (nth_block i ++ mjoin ((nth_block <$> l) : list str)).
    rewrite length_app, nth_block_length, IH. cbn [length]. lia. }
  by rewrite H, length_seq.
Qed.

Lemma encode_validates_aux : validate_uf2 family (encode_uf2_for_family binary family) = Some (Ok Flash).
Proof.
  unfold validate_uf2. pose proof block_count_spec as Hc. rewrite all_expected, encoded_length, encoded_blocks.
  rewrite bool_decide_false by (intros E; pose proof encoded_length as Hl; rewrite E in Hl; cbn [length] in Hl; lia).
  unfold UF2_BLOCK_SIZE. rewrite Nat.mul_comm, Nat.Div0.mod_mul. cbn [orb negb Nat.eqb].
  pose proof (scan_all n ltac:(lia)) as Hs. rewrite Nat.sub_diag in Hs. unfold scanned at 1 in Hs. rewrite Nat.sub_0_r in Hs.
  cbn [replicate app seq fmap list_fmap] in Hs. rewrite decide_True, bool_decide_true in Hs by done. cbn [negb] in Hs.
  unfold validate_uf2 in *. rewrite Hs.
  assert (forallb (λ b : bool, b) (seen (scanned n)) = true) as ->.
  { cbn. rewrite Nat.sub_diag, app_nil_r. apply forallb_forall. intros b Hb%list_elem_of_In. by apply elem_of_replicate in Hb as [-> _]. }
  assert (saw_expected_family (scanned n) = true) as -> by (cbn; by rewrite bool_decide_false by lia).
  assert (Forall proper (seen_ranges (scanned n))) as Hp
    by (apply Forall_fmap, Forall_forall; intros i _; unfold proper; cbn; lia).
  cbn [negb]. rewrite (proj2 (overlap_sorted _ Hp) scanned_disjoint). cbn. by rewrite decide_False by lia.
Qed.
End Encoded.

(** an image that fits the flash of its chip is encoded to a UF2 file
    that the deployment accepts as a flash image, whatever its bytes, also
    when it is empty or its length is not a multiple of the payload. *)
Theorem encode_validates binary family : family = RP2040_FAMILY_ID ∨ family = RP2350_FAMILY_ID →
  Z.of_nat (length binary) ≤ flash_end family - RP2040_UF2_BASE_ADDRESS →
  validate_uf2 family (encode_uf2_for_family binary family) = Some (Ok Flash).
Proof.
  intros Hfam Hflash. apply encode_validates_aux; [|done..].
  assert (flash_end family ≤ 0x14000000) by (unfold flash_end; by destruct (decide _)).
  unfold RP2040_UF2_BASE_ADDRESS in *. lia.
Qed.

Lemma encode_validates_witness :
  validate_uf2 RP2350_FAMILY_ID (encode_uf2_for_family (replicate 257 "x"%char) RP2350_FAMILY_ID) = Some (Ok Flash).
Proof.
  apply (encode_validates (replicate 257 "x"%char) RP2350_FAMILY_ID); [by right|]. by vm_compute.
Defined.

(** ** What an image puts into memory

    The boot ROM copies the 256 bytes of every block to its address. *)
Definition byte_at (bytes : str) (a : Z) : option ascii :=
  head (omap (λ b, if (field b 12 <=? a) && (a <? field b 12 + 256) then b !! Z.to_nat (32 + (a - field b 12)) else None)
    (blocks bytes)).

Section Loaded.
Context (binary : str) (family : Z) (Hsize : Z.of_nat (length binary) ≤ 2 ^ 31 - 256).
Abbreviation n := (block_count binary).

Lemma nth_block_address i : (i < n)%nat → field (nth_block binary family i) 12 = address_of i.
Proof.
  intros Hi. pose proof (block_count_spec binary). apply (nth_block_field binary family i 3 12); [done..|].
  unfold address_of, RP2040_UF2_BASE_ADDRESS. lia.
Qed.

Lemma nth_block_byte i o : (i < n)%nat → (o < 256)%nat →
  nth_block binary family i !! (32 + o)%nat = Some (default zero_byte (binary !! (256 * i + o)%nat)).
Proof.
  intros Hi Ho. unfold nth_block. rewrite lookup_app_r by (rewrite words_length; cbn; lia). rewrite words_length.
  replace (32 + o - 4 * length _)%nat with o by (cbn; lia). pose proof (payload_of_length binary i) as Hp.
  rewrite lookup_app_l by (rewrite padded_length; lia). unfold padded.
  assert (payload_of binary i !! o = binary !! (256 * i + o)%nat) as Hl.
  { unfold payload_of, UF2_PAYLOAD_SIZE. rewrite lookup_take_lt, lookup_drop by done. f_equal. lia. }
  destruct (binary !! (256 * i + o)%nat) as [b|] eqn:E.
  - rewrite lookup_app_l; [by rewrite Hl|]. apply lookup_lt_is_Some. by rewrite Hl.
  - apply lookup_ge_None in Hl. rewrite lookup_app_r by done. apply lookup_replicate_2. lia.
Qed.
End Loaded.

Lemma head_omap_seq {A} (f : nat → option A) k m i a : (k ≤ i < k + m)%nat →
  (∀ j, (k ≤ j < i)%nat → f j = None) → f i = Some a → head (omap f (seq k m)) = Some a.
Proof.
  revert k. induction m as [|m IH]; intros k Hi Hn Ha; [lia|]. cbn [seq]. destruct (decide (i = k)) as [->|Hne].
  - cbn. by rewrite Ha.
  - cbn. rewrite Hn by lia. apply IH; [lia| |done]. intros j Hj. apply Hn. lia.
Qed.

Lemma omap_map {A B C} (f : B → option C) (g : A → B) (l : list A) : omap f (g <$> l) = omap (λ x, f (g x)) l.
Proof. induction l as [|x l IH]; [done|]. cbn. destruct (f (g x)); by rewrite IH. Qed.

Lemma omap_none {A B} (f : A → option B) l : (∀ x, x ∈ l → f x = None) → omap f l = [].
Proof.
  induction l as [|x l IH]; intros H; [done|]. cbn. rewrite H by left. apply IH. intros y Hy. apply H. by right.
Qed.

(** C38: encoding loses nothing.  Loading the encoded file puts every byte of
    the binary at its place behind the base address, zeros up to the end of
    the last block, and nothing anywhere else. *)
Theorem encode_loads binary family a : Z.of_nat (length binary) ≤ 2 ^ 31 - 256 →
  byte_at (encode_uf2_for_family binary family) a =
    (if (RP2040_UF2_BASE_ADDRESS <=? a) && (a <? RP2040_UF2_BASE_ADDRESS + 256 * Z.of_nat (block_count binary))
     then Some (default zero_byte (binary !! Z.to_nat (a - RP2040_UF2_BASE_ADDRESS))) else None).
Proof.
  intros Hsize. unfold byte_at. rewrite encoded_blocks by done. rewrite omap_map.
  set (f := λ i, _). assert (∀ i, (i < block_count binary)%nat → f i =
    if (address_of i <=? a) && (a <? address_of i + 256) then nth_block binary family i !! Z.to_nat (32 + (a - address_of i)) else None) as Hf.
  { intros i Hi. unfold f. by rewrite !nth_block_address. }
  set (o := a - RP2040_UF2_BASE_ADDRESS). destruct (Z.leb_spec RP2040_UF2_BASE_ADDRESS a) as [H1|H1]; cbn [andb].
  1: destruct (Z.ltb_spec a (RP2040_UF2_BASE_ADDRESS + 256 * Z.of_nat (block_count binary))) as [H2|H2].
  - pose proof (Z.div_mod o 256 ltac:(lia)) as Hd. pose proof (Z.mod_pos_bound o 256 ltac:(lia)) as Hm.
    assert (0 ≤ o / 256) as Hq by (apply Z.div_pos; lia).
    apply (head_omap_seq f 0 _ (Z.to_nat (o / 256))); [lia|intros j Hj|].
    + rewrite Hf by lia. unfold address_of. rewrite (proj2 (Z.ltb_ge _ _)) by lia. by rewrite andb_false_r.
    + rewrite Hf by lia. unfold address_of. rewrite (proj2 (Z.leb_le _ _)), (proj2 (Z.ltb_lt _ _)) by lia. cbn [andb].
      replace (Z.to_nat (32 + _)) with (32 + Z.to_nat (o mod 256))%nat by lia.
      rewrite nth_block_byte by lia. do 3 f_equal. lia.
  - rewrite omap_none; [done|]. intros i Hi%elem_of_seq. rewrite Hf by lia. unfold address_of.
    rewrite (proj2 (Z.ltb_ge _ _)) by lia. by rewrite andb_false_r.
  - rewrite omap_none; [done|]. intros i Hi%elem_of_seq. rewrite Hf by lia. unfold address_of.
    by rewrite (proj2 (Z.leb_gt _ _)) by lia.
Qed.

Lemma encode_loads_witness :
  byte_at (encode_uf2_for_family (&"firmware") RP2040_FAMILY_ID) (RP2040_UF2_BASE_ADDRESS + 4) = Some "w"%char ∧
  byte_at (encode_uf2_for_family (&"firmware") RP2040_FAMILY_ID) (RP2040_UF2_BASE_ADDRESS + 256) = None.
Proof. split; rewrite (encode_loads (&"firmware") RP2040_FAMILY_ID) by (by vm_compute); by vm_compute. Defined.
