(* ===== verification/Uf2Sound.v ===== *)
(** * What an accepted UF2 image guarantees *)
From S2P Require Import Prelude RustStr LibCache Uf2 Uf2Facts.
From stdpp Require Import sorting.
Local Open Scope Z.

Lemma from_le_bytes_nonneg s : 0 ≤ from_le_bytes s.
Proof. induction s as [|b s IH]; cbn; lia. Qed.

(** Where the blocks of an image of each kind may lie. *)
Definition in_region (family : Z) (t : Uf2Target) (a : Z) : Prop :=
  match t with
  | Flash => RP2040_UF2_BASE_ADDRESS ≤ a ∧ a + 256 ≤ flash_end family ∧ a mod 256 = 0
  | Ram => family = RP2040_FAMILY_ID ∧
      (RP2040_XIP_SRAM_START ≤ a ∧ a + 256 ≤ RP2040_XIP_SRAM_END ∨ RP2040_SRAM_START ≤ a ∧ a + 256 ≤ RP2040_SRAM_END)
  end.

Section Sound.
Context (family : Z).

Abbreviation expected := (λ b : str, field b 28 = family).
Definition range (b : str) : Z * Z := (field b 12, field b 12 + 256).
Definition numbers (bs : list str) : list Z := (λ b, field b 20) <$> filter expected bs.

(** The one kind of block that may belong to another family. *)
Definition errata_block (b : str) : Prop :=
  family = RP2350_FAMILY_ID ∧ field b 28 = RP2_ABSOLUTE_FAMILY_ID ∧ field b 12 = RP2350_ERRATA_ABSOLUTE_ADDRESS.

Lemma block_target_region a t : block_target family a (a + 256) = Some t → in_region family t a.
Proof.
  unfold block_target, UF2_PAYLOAD_SIZE. change (Z.of_nat 256) with 256.
  destruct ((RP2040_UF2_BASE_ADDRESS <=? a) && _ && _) eqn:E.
  - intros [= <-]. rewrite !andb_true_iff, !Z.leb_le, Z.eqb_eq in E. cbn. tauto.
  - case_bool_decide as Ef; cbn [andb]; [|done].
    destruct (_ || _) eqn:E2; [|done]. intros [= <-]. cbn. split; [done|].
    rewrite orb_true_iff, !andb_true_iff, !Z.leb_le in E2. tauto.
Qed.

(** The state after a prefix of the blocks. *)
Record scan_inv (n : nat) (ps : list str) (st : Scan) : Prop := {
  si_length : length (seen st) = n;
  si_seen i : (i < n)%nat → seen st !! i = Some true ↔ Z.of_nat i ∈ numbers ps;
  si_NoDup : NoDup (numbers ps);
  si_range : seen_ranges st = range <$> ps;
  si_target t : image_target st = Some t → Forall (λ b, in_region family t (field b 12)) (filter expected ps);
  si_none : image_target st = None → filter expected ps = [];
  si_saw : saw_expected_family st = true → filter expected ps ≠ [];
  si_other : Forall errata_block (filter (λ b, ¬ expected b) ps);
}.

Lemma target_end_spec a e : target_end a = Some e → e = a + 256.
Proof. unfold target_end, UF2_PAYLOAD_SIZE. destruct (_ <? _); [|done]. by intros [= <-]. Qed.

Lemma filter_snoc_True {A} (P : A → Prop) `{∀ x, Decision (P x)} l x : P x → filter P (l ++ [x]) = filter P l ++ [x].
Proof. intros Hx. by rewrite filter_app, filter_cons_True, filter_nil. Qed.
Lemma filter_snoc_False {A} (P : A → Prop) `{∀ x, Decision (P x)} l x : ¬ P x → filter P (l ++ [x]) = filter P l.
Proof. intros Hx. by rewrite filter_app, filter_cons_False, filter_nil, app_nil_r. Qed.

Lemma numbers_snoc bs b : field b 28 = family → numbers (bs ++ [b]) = numbers bs ++ [field b 20].
Proof. intros Hb. unfold numbers. by rewrite filter_snoc_True, fmap_app. Qed.
Lemma numbers_skip bs b : field b 28 ≠ family → numbers (bs ++ [b]) = numbers bs.
Proof. intros Hb. unfold numbers. by rewrite filter_snoc_False. Qed.

(** A block that passes: one of the expected family, or the errata block. *)
Lemma scan_block_Ok n i b st st' : scan_block family n i b st = Ok st' →
  (field b 28 ≠ family ∧ errata_block b ∧ seen st' = seen st ∧ image_target st' = image_target st ∧
     saw_expected_family st' = saw_expected_family st ∧ seen_ranges st' = seen_ranges st ++ [range b]) ∨
  (field b 28 = family ∧ 0 ≤ field b 20 < Z.of_nat n ∧ default false (seen st !! Z.to_nat (field b 20)) = false ∧
     seen st' = <[Z.to_nat (field b 20) := true]> (seen st) ∧ saw_expected_family st' = true ∧
     seen_ranges st' = seen_ranges st ++ [range b] ∧
     ∃ t, image_target st' = Some t ∧ in_region family t (field b 12) ∧ (image_target st = None ∨ image_target st = Some t)).
Proof.
  unfold scan_block. intros H. destruct (negb _); [done|].
  destruct (bool_decide (family = RP2350_FAMILY_ID) && (field b 28 =? RP2_ABSOLUTE_FAMILY_ID)) eqn:Eabs.
  - apply andb_true_iff in Eabs as [->%bool_decide_eq_true Ea%Z.eqb_eq]. rewrite andb_false_r, orb_false_r in H.
    destruct (Z.land _ _ =? 0); [done|]. destruct (target_end _) as [e|] eqn:Ee; [|done]. apply target_end_spec in Ee as ->.
    destruct (_ || _ || _ || _ || _) eqn:E; [done|]. injection H as <-. left. cbn.
    rewrite !orb_false_iff, !negb_false_iff, !Z.eqb_eq in E. destruct E as ((((E1 & E2) & E3) & E4) & E5).
    assert (field b 28 =? RP2350_FAMILY_ID = false) as -> by by rewrite Ea.
    rewrite orb_false_r. split_and!; try done. by rewrite Ea.
  - rewrite andb_true_r in H. destruct (Z.land _ _ =? 0); [done|]. destruct (Z.eqb_spec (field b 28) family) as [Ef|]; [|done].
    cbn [negb orb andb] in H. destruct (target_end _) as [e|] eqn:Ee; [|done]. apply target_end_spec in Ee as ->.
    destruct (block_target _ _ _) as [t|] eqn:Et; [|done]. destruct (_ || _ || _) eqn:E; [done|].
    rewrite !orb_false_iff, Z.leb_gt in E. destruct E as [[_ En] _].
    destruct (match image_target st with Some t' => negb (bool_decide (t' = t)) | None => false end) eqn:Em; [done|].
    destruct (default false _) eqn:Es; [done|]. injection H as <-. right. cbn. rewrite orb_true_r.
    split_and!; try done; [apply from_le_bytes_nonneg|]. exists t. split_and!; [done|by apply block_target_region|].
    destruct (image_target st) as [t'|]; [right|by left]. by apply negb_false_iff, bool_decide_eq_true in Em as ->.
Qed.

Lemma scan_block_inv n i b ps st st' : scan_block family n i b st = Ok st' → scan_inv n ps st → scan_inv n (ps ++ [b]) st'.
Proof.
  intros H [Hlen Hseen Hnd Hr Ht Hno Hsaw Hoth].
  apply scan_block_Ok in H as [(Hf & Ho & Es & Et & Ew & Er)|(Hf & Hn & Hfree & Es & Ew & Er & t & Et & Hreg & Hold)].
  - split; rewrite ?Es, ?Et, ?Ew, ?Er, ?numbers_skip, ?(filter_snoc_False expected) by done; try done.
    + by rewrite Hr, fmap_app.
    + rewrite (filter_snoc_True (λ b, ¬ expected b)) by done. apply Forall_app. by split; [|constructor].
  - assert (Z.to_nat (field b 20) < n)%nat as Hlt by lia.
    assert (field b 20 ∉ numbers ps) as Hfresh.
    { intros Hin. rewrite <- (Z2Nat.id (field b 20)) in Hin by lia. apply Hseen in Hin; [|done]. by rewrite Hin in Hfree. }
    split; rewrite ?Es, ?Et, ?Ew, ?Er, ?numbers_snoc, ?(filter_snoc_True expected) by done.
    + by rewrite length_insert.
    + intros j Hj. rewrite elem_of_app, list_elem_of_singleton. destruct (decide (j = Z.to_nat (field b 20))) as [->|Hne].
      * rewrite list_lookup_insert_eq by lia. rewrite Z2Nat.id by lia. tauto.
      * rewrite list_lookup_insert_ne by done. rewrite Hseen by done. split; [tauto|]. intros [?|?]; [done|lia].
    + apply NoDup_app. split_and!; [done| |apply NoDup_singleton]. by intros x Hx ->%list_elem_of_singleton.
    + by rewrite Hr, fmap_app.
    + intros t' [= <-]. apply Forall_app. split; [|by constructor].
      destruct Hold as [Hold|Hold]; [by rewrite (Hno Hold)|by apply Ht].
    + done.
    + by intros _ [? ?]%app_nil.
    + by rewrite (filter_snoc_False (λ b, ¬ expected b)) by tauto.
Qed.

Lemma scan_blocks_inv n bs : ∀ i ps st st', scan_blocks family n i bs st = Ok st' → scan_inv n ps st → scan_inv n (ps ++ bs) st'.
Proof.
  induction bs as [|b bs IH]; intros i ps st st' H Hinv; cbn in H.
  - injection H as <-. by rewrite app_nil_r.
  - apply result_bind_Ok in H as (st1 & H1 & H). apply (scan_block_inv n i b ps) in H1; [|done].
    rewrite cons_middle, app_assoc. by eapply IH.
Qed.

Lemma scan_start_inv n : scan_inv n [] {| seen := replicate n false; seen_ranges := []; image_target := None;
  saw_expected_family := false; saw_rp2350_absolute_block := false |}.
Proof.
  split; cbn; try done.
  - apply length_replicate.
  - intros i Hi. rewrite lookup_replicate_2 by done. split; [done|by intros ?%not_elem_of_nil].
  - constructor.
Qed.
End Sound.

(** What the validator accepts. *)
Record accepted (family : Z) (bytes : str) (t : Uf2Target) : Prop := {
  (** The file is made of whole blocks, *)
  acc_blocks : bytes = mjoin (blocks bytes) ∧ Forall (λ b, length b = 512%nat) (blocks bytes);
  (** those of the chip's family are numbered without gaps or repetitions, *)
  acc_numbers : numbers family (blocks bytes) ≡ₚ Z.of_nat <$> seq 0 (expected_blocks family bytes);
  acc_some : (0 < expected_blocks family bytes)%nat;
  (** all lie in the region of the target, *)
  acc_region : Forall (λ b, in_region family t (field b 12)) (filter (λ b, field b 28 = family) (blocks bytes));
  (** any other is the errata block of the RP2350, *)
  acc_other : Forall (errata_block family) (filter (λ b, ¬ field b 28 = family) (blocks bytes));
  (** and no two overlap. *)
  acc_disjoint : disjoint_ranges (range <$> blocks bytes);
}.

Lemma seen_all family n bs st : scan_inv family n bs st → forallb (λ b : bool, b) (seen st) = true →
  n = length (numbers family bs) → numbers family bs ≡ₚ Z.of_nat <$> seq 0 n.
Proof.
  intros [Hlen Hseen Hnd _ _ _ _ _] Hall Hn. symmetry. apply submseteq_length_Permutation.
  - apply NoDup_submseteq; [apply NoDup_fmap_2; [intros x y; lia|apply NoDup_seq]|].
    intros x (i & -> & Hi%elem_of_seq)%list_elem_of_fmap. apply Hseen; [lia|].
    destruct (seen st !! i) as [b|] eqn:E; [|apply lookup_ge_None in E; lia].
    rewrite forallb_forall in Hall. by rewrite (Hall b) by by eapply list_elem_of_In, list_elem_of_lookup_2.
  - rewrite length_fmap, length_seq. lia.
Qed.

Lemma validate_uf2_total family bytes : validate_uf2 family bytes ≠ None.
Proof.
  unfold validate_uf2. destruct (bool_decide (bytes = []) || _); [done|]. destruct (scan_blocks _ _ _ _ _) as [st|e] eqn:Es; [|done].
  apply (scan_blocks_inv family _ _ _ []) in Es; [|apply scan_start_inv]. destruct (forallb _ _); [|done].
  destruct (saw_expected_family st) eqn:Esaw; [|done]. destruct (find_overlap _); [done|].
  destruct (image_target st) eqn:Et; [done|]. exfalso. by apply (si_saw _ _ _ _ Es Esaw), (si_none _ _ _ _ Es).
Qed.

(** C37: the validator decides, and what it accepts is safe to write: the file
    consists of whole blocks, those of the chip's family are numbered from 0
    without gap or repetition and lie in its flash on page bounds, or all in
    its RAM, any other block is the errata block of the RP2350, and no two
    blocks overlap.  It never panics. *)
Theorem validate_sound family bytes : validate_uf2 family bytes ≠ None ∧
  ∀ t, validate_uf2 family bytes = Some (Ok t) → accepted family bytes t.
Proof.
  split; [apply validate_uf2_total|]. intros t. unfold validate_uf2.
  destruct (bool_decide (bytes = []) || _) eqn:Esize; [done|].
  apply orb_false_iff in Esize as [_ Esize%negb_false_iff%Nat.eqb_eq].
  destruct (scan_blocks _ _ _ _ _) as [st|e] eqn:Es; [|done]. apply (scan_blocks_inv family _ _ _ []) in Es; [|apply scan_start_inv].
  cbn [app] in Es. destruct (forallb _ _) eqn:Eall; cbn [negb]; [|done].
  destruct (saw_expected_family st) eqn:Esaw; cbn [negb]; [|done].
  destruct (find_overlap _) eqn:Eo; [done|]. destruct (image_target st) as [t'|] eqn:Et; [|done]. intros [= <-].
  assert (expected_blocks family bytes = length (numbers family (blocks bytes))) as Hn
    by (unfold numbers, expected_blocks; by rewrite length_fmap).
  destruct (chunks_exact (length bytes) UF2_BLOCK_SIZE bytes) as [Hall (rest & E & Hrest)];
    [unfold UF2_BLOCK_SIZE; lia|done|]. fold (blocks bytes) in Hall, E. split.
  - split; [|done]. assert (rest = []) as ->; [|by rewrite app_nil_r in E].
    assert (length (mjoin (blocks bytes)) mod 512 = 0)%nat as Hm.
    { clear -Hall. induction Hall as [|b bs Hb _ IH]; [done|]. change (mjoin (b :: bs)) with (b ++ mjoin bs).
      rewrite length_app, Hb. unfold UF2_BLOCK_SIZE. rewrite <- Nat.Div0.add_mod_idemp_r, IH. done. }
    rewrite E, length_app in Esize. unfold UF2_BLOCK_SIZE in *. rewrite <- Nat.Div0.add_mod_idemp_l, Hm in Esize.
    rewrite Nat.add_0_l, Nat.mod_small in Esize by done. by destruct rest.
  - by eapply seen_all.
  - destruct (expected_blocks family bytes) eqn:E0; [|lia]. exfalso. apply (si_saw _ _ _ _ Es Esaw).
    unfold expected_blocks in E0. by apply length_zero_iff_nil in E0.
  - by apply (si_target _ _ _ _ Es).
  - apply (si_other _ _ _ _ Es).
  - rewrite <- (si_range _ _ _ _ Es). apply overlap_sorted; [|done]. rewrite (si_range _ _ _ _ Es).
    apply Forall_fmap, Forall_forall. intros b _. unfold proper, range. cbn. lia.
Qed.

Lemma validate_sound_witness : accepted RP2040_FAMILY_ID (encode_uf2 (&"firmware")) Flash.
Proof. apply (proj2 (validate_sound RP2040_FAMILY_ID (encode_uf2 (&"firmware")))). by vm_compute. Defined.
