(* ===== verification/Rp2040Target.v ===== *)
(** * RP2040 deployment: what is chosen, and from what

    The decisions of [fbuild-deploy/src/rp2040.rs], [rp2040_target.rs],
    [rp2040_preflight.rs], [rp2040_topology.rs] and [rp2040_picotool.rs] that
    need no look at the host: transport, runtime port, reset interface,
    BOOTSEL volume, the arguments of picotool.  A message is a constructor of
    [Failure] that carries what the code inserts into it. *)
From S2P Require Import Prelude RustStr CachePaths PathBuf NormPath DeviceManager UsbProfiles DeployPort Uf2.
From stdpp Require Import sorting.
Local Open Scope Z.

(** ** Text functions of the standard library *)

Definition ascii_upper (c : ascii) : ascii := if in_range "a" "z" c then byte_of (N_of_ascii c - 32) else c.
Definition to_ascii_uppercase (s : str) : str := ascii_upper <$> s.
Definition eq_ignore_ascii_case (s t : str) : bool := bool_decide (to_ascii_lowercase s = to_ascii_lowercase t).
Definition mem {A} `{EqDecision A} (x : A) (l : list A) : bool := bool_decide (x ∈ l).

(** ** What fails *)

(** What is looked at of an [io::Error]: [classify_error] of
    [fbuild-core/src/platform/fs.rs], the host's reading of its code. *)
Inductive ErrorClass := AccessDenied | TimedOut | InvalidatedHandle | CorruptFilesystem | DeviceUnavailable | OtherError.
Inductive SerialError := NoDevice (text : str) | SerialOther (text : str).
Definition serial_error_text (e : SerialError) : str := match e with NoDevice t | SerialOther t => t end.

Inductive PicobootPreflight :=
  | Ready
  | DriverMissing (instance_id : str) (problem_code : Z)
  | OtherProblem (instance_id : str) (problem_code : Z).

Inductive FailureDirection := PicotoolFallback | PicotoolPrimary.

Inductive Failure :=
  (* rp2040.rs: selection *)
  | UnsupportedTransport (raw : str)
  | UnsupportedMcu (mcu : str)
  | ProfilesUnavailable
  | NoBootselIdentity (family : str)
  | MultipleBootselIdentities (family : str)
  | IdentityRequired
  | EnumerateFailed (error : str)
  | ExplicitVolumeUnmarked (selector : str)
  | MultipleVolumes (volumes : list PathBuf)
  | HealthyUnresolved (selector name : str)
  | AmbiguousRecords (selector : str) (n : nat)
  | AmbiguousReset (selector : str) (n : nat)
  | AmbiguousResetTarget (port : str) (n : nat)
  (* rp2040_target.rs *)
  | SelectorUnhealthy (selector description : str)
  | SelectorUnmatched (selector : str)
  | SelectorAmbiguous (selector names : str)
  | MultipleWithSerial (serial names : str)
  | MultipleNewPorts (names : str)
  (* entering BOOTSEL *)
  | TouchAssert (port : str) (error : SerialError)
  | TouchDeassert (port : str) (error : SerialError)
  | TouchBaud (port : str) (error : SerialError)
  | TouchOpen (port : str) (error : SerialError)
  | NoTransition (reset_error : Failure)
  | BootselNotFound
  | NeverMounted
  | NativeReset (instance_id : str) (error : ErrorClass)
  | RebootRediscovery (earlier : option Failure) (error : Failure)
  | RebootNoVolume (earlier : option Failure) (seconds : Z)
  | RebootFailed (earlier : option Failure) (error : Failure)
  (* the image and its transfer *)
  | UnsupportedInput (firmware : PathBuf)
  | ReadFailed (file : PathBuf) (error : ErrorClass)
  | ReadUf2Failed (file : PathBuf) (error : ErrorClass)
  | WriteFailed (file : PathBuf) (error : ErrorClass)
  | InspectFailed (file : PathBuf) (error : ErrorClass)
  | InspectBeforeTransfer (file : PathBuf) (error : ErrorClass)
  | StaleUf2 (uf2 source : PathBuf)
  | InvalidUf2 (error : Uf2Error)
  | ShortTransfer (artifact destination : PathBuf) (written expected : Z)
  | CopyFailed (artifact destination : PathBuf) (error : ErrorClass)
  | WatchdogExpired (seconds : Z)
  | NotEjected (volume : PathBuf)
  (* rp2040_picotool.rs *)
  | HostFailed (error : str)
  | ToolFailed (output : str)
  | RebootToolFailed (output : str)
  | LoadToolFailed (output : str)
  | NotInstalled
  | NoDiagnostic
  | PreflightBlocked (preflight : PicobootPreflight)
  | ProbeFailed (error : Failure)
  | BothFailed (direction : FailureDirection) (mass_storage : Failure) (picotool : Failure)
  | InContext (error : Failure) (attempts : option nat) (topology : option str)
  | WithDiagnostic (error : Failure) (diagnostic : str)
  (* after the transfer *)
  | NoRuntimePort (seconds : Z).

(** ** Configuration *)

Inductive Rp2040Transport := Picotool | Uf2Drive.
#[global] Instance Rp2040Transport_eq_dec : EqDecision Rp2040Transport.
Proof. solve_decision. Defined.

Definition parse_rp2040_transport (raw : option str) : result Failure Rp2040Transport :=
  match raw with
  | None => Ok Picotool
  | Some r => if decide (r = &"picotool") then Ok Picotool else if decide (r = &"uf2") then Ok Uf2Drive
              else Err (UnsupportedTransport r)
  end.

Definition should_attempt_picotool_first (transport : Rp2040Transport) (preflight : option PicobootPreflight) : bool :=
  match transport with
  | Uf2Drive => false
  | Picotool => match preflight with None | Some Ready => true | _ => false end
  end.

Definition rp_family_name (family_id : Z) : str := if family_id =? RP2350_FAMILY_ID then &"rp2350" else &"rp2040".

(** Durations are nanoseconds. *)
Definition secs (n : Z) : Z := n * 10 ^ 9.
Definition millis (n : Z) : Z := n * 10 ^ 6.
Definition as_secs (d : Z) : Z := d / 10 ^ 9.
Definition as_millis (d : Z) : Z := d / 10 ^ 6.

Definition timeout_secs_from (raw : option str) (default : Z) : Z :=
  match raw with
  | None => default
  | Some raw =>
      match parse_uint u64_max (trim raw) with
      | Some n => if (1 <=? n) && (n <=? 600) then secs n else default
      | None => default
      end
  end.

Record Rp2040Deployer := {
  bootloader_timeout : Z;
  post_deploy_timeout : Z;
  uf2_write_timeout : Z;
  picotool_timeout : Z;
  deploy_transport : Rp2040Transport;
  family_id : Z;
}.

Definition CDC_POLL_INTERVAL : Z := millis 100.
Definition DEFAULT_UF2_WRITE_TIMEOUT : Z := secs 60.
Definition DEFAULT_PICOTOOL_LOAD_TIMEOUT : Z := secs 60.
Definition PICOTOOL_INFO_PROBE_TIMEOUT : Z := secs 10.
Definition UF2_TRANSFER_ATTEMPTS : nat := 3.

(** [env] reads a variable.  The application of a board that resets at 1200 bps
    has 30 s to come back ([fbuild-serial/src/boards.rs]). *)
Definition application_cdc_timeout_ms : Z := 30000.
Definition timeout_from_env (env : str → option str) (var_name : str) (default : Z) : Z :=
  timeout_secs_from (env var_name) default.
Definition rp2040_post_deploy_timeout (env : str → option str) : Z :=
  timeout_from_env env (&"FBUILD_RP2040_POST_DEPLOY_TIMEOUT_SECS") (millis application_cdc_timeout_ms).
Definition default_deployer (env : str → option str) : Rp2040Deployer :=
  {| bootloader_timeout := timeout_from_env env (&"FBUILD_RP2040_BOOTLOADER_TIMEOUT_SECS") (secs 10);
     post_deploy_timeout := rp2040_post_deploy_timeout env;
     uf2_write_timeout := timeout_from_env env (&"FBUILD_RP2040_UF2_WRITE_TIMEOUT_SECS") DEFAULT_UF2_WRITE_TIMEOUT;
     picotool_timeout := timeout_from_env env (&"FBUILD_RP2040_PICOTOOL_TIMEOUT_SECS") DEFAULT_PICOTOOL_LOAD_TIMEOUT;
     deploy_transport := Picotool;
     family_id := RP2040_FAMILY_ID |}.

Definition with_transport (d : Rp2040Deployer) (t : Rp2040Transport) : Rp2040Deployer :=
  {| bootloader_timeout := bootloader_timeout d; post_deploy_timeout := post_deploy_timeout d;
     uf2_write_timeout := uf2_write_timeout d; picotool_timeout := picotool_timeout d;
     deploy_transport := t; family_id := family_id d |}.

Definition for_mcu (deployer : Rp2040Deployer) (mcu : str) : result Failure Rp2040Deployer :=
  let value := to_ascii_lowercase mcu in
  if starts_with (&"rp2040") value then Ok deployer
  else if starts_with (&"rp2350") value then
    Ok {| bootloader_timeout := bootloader_timeout deployer; post_deploy_timeout := post_deploy_timeout deployer;
          uf2_write_timeout := uf2_write_timeout deployer; picotool_timeout := picotool_timeout deployer;
          deploy_transport := deploy_transport deployer; family_id := RP2350_FAMILY_ID |}
  else Err (UnsupportedMcu mcu).

(** ** Ports and reset interfaces *)

Record PicoCdcPort := {
  pico_name : str;
  pico_serial : option str;
  pico_vid : Z;
  pico_pid : Z;
  pico_health : PortHealth;
  pico_instance_id : option str;
  pico_parent_instance_id : option str;
}.

Record UsbResetInterface := {
  ri_instance_id : str;
  ri_parent_instance_id : str;
  ri_vid : Z;
  ri_pid : Z;
  ri_serial_number : str;
  ri_device_path : str;
  ri_interface_number : Z;
  ri_location_paths : list str;
}.

Record RequestedRuntimeTarget := {
  target_port : str;
  target_serial : option str;
  target_vid : Z;
  target_pid : Z;
}.

Definition bootloader_profile_matches_family (profile : UsbTransportProfile) (family_id : Z) : bool :=
  bool_decide (purpose profile = Bootloader) && bool_decide (role profile = BootloaderUf2) &&
  bool_decide (family profile = Some (rp_family_name family_id)) && bool_decide (is_Some (im_pid (identity_match profile))).

Definition profile_matches_family (profile : UsbTransportProfile) (family_id : Z) : bool :=
  if bool_decide (purpose profile ≠ Runtime) || bool_decide (role profile ≠ RuntimeCdc) ||
     bool_decide (interface profile ≠ Some (&"cdc"))
  then false
  else
    let expected := if family_id =? RP2350_FAMILY_ID then &"rp2350" else &"rp2040" in
    bool_decide (family profile = Some expected).

Definition name_le (a b : PicoCdcPort) : Prop := str_le (pico_name a) (pico_name b).
#[global] Instance name_le_dec : RelDecision name_le := λ a b, decide (str_le _ _).
Definition interface_le (a b : UsbResetInterface) : Prop := str_le (ri_instance_id a) (ri_instance_id b).
#[global] Instance interface_le_dec : RelDecision interface_le := λ a b, decide (str_le _ _).

Definition family_uses (installed : InstalledProfiles) (family_id vid pid : Z) : bool :=
  existsb (λ p, profile_matches_family p family_id) (profiles_for (Some installed) vid pid).

(** [catalogue_pico_cdc_ports], of the ports the host reports. *)
Definition pico_port (installed : InstalledProfiles) (expected_family : Z) (port : DetectedPort) : option PicoCdcPort :=
  match port_type port with
  | UsbPort v p serial _ =>
      if family_uses installed expected_family v p then
        Some {| pico_name := port_name port; pico_serial := serial; pico_vid := v; pico_pid := p;
                pico_health := health port; pico_instance_id := det_instance_id port;
                pico_parent_instance_id := det_parent_instance_id port |}
      else None
  | _ => None
  end.
Definition pico_cdc_ports (installed : InstalledProfiles) (expected_family : Z) (ports : list DetectedPort) : list PicoCdcPort :=
  merge_sort name_le (omap (pico_port installed expected_family) ports).

Definition pico_reset_interfaces (installed : InstalledProfiles) (expected_family : Z) (l : list UsbResetInterface) :
    list UsbResetInterface :=
  merge_sort interface_le (filter (λ i, family_uses installed expected_family (ri_vid i) (ri_pid i) = true) l).

Definition serial_selector (selector : str) : option str :=
  if (4 <=? length selector)%nat && eq_ignore_ascii_case (take 4 selector) (&"SER=") then
    match drop 4 selector with [] => None | serial => Some serial end
  else None.

Definition describe_unhealthy (port : PicoCdcPort) : str :=
  pico_name port ++ &" (health " ++ health_label (pico_health port)
  ++ (match problem_code (pico_health port) with Some c => &"; problem code " ++ decimal c | None => [] end)
  ++ (match pico_instance_id port with Some i => &"; instance " ++ i | None => [] end) ++ &")".

Definition names_of (ports : list PicoCdcPort) : str := RustStr.join (&", ") (pico_name <$> ports).

Definition resolve_requested_runtime_target (selector : str) (candidates : list PicoCdcPort) :
    result Failure RequestedRuntimeTarget :=
  let matches :=
    match serial_selector selector with
    | Some serial => filter (λ c, pico_serial c = Some serial) candidates
    | None => filter (λ c, pico_name c = selector) candidates
    end in
  match matches with
  | [only] =>
      if is_known_unhealthy (pico_health only) then Err (SelectorUnhealthy selector (describe_unhealthy only))
      else Ok {| target_port := pico_name only; target_serial := pico_serial only;
                 target_vid := pico_vid only; target_pid := pico_pid only |}
  | [] => Err (SelectorUnmatched selector)
  | many => Err (SelectorAmbiguous selector (names_of many))
  end.

Definition select_cdc_candidate (previous_port requested_serial : option str) (before : gset str) (ports : list PicoCdcPort) :
    result Failure (option PicoCdcPort) :=
  let eligible := filter (λ p, is_known_unhealthy (pico_health p) = false) ports in
  match requested_serial with
  | Some serial =>
      match filter (λ p, pico_serial p = Some serial) eligible with
      | [] => Ok None
      | [only] => Ok (Some only)
      | many => Err (MultipleWithSerial serial (names_of many))
      end
  | None =>
      match old ← previous_port; find (λ p, bool_decide (pico_name p = old)) eligible with
      | Some port => Ok (Some port)
      | None =>
          match filter (λ p, pico_name p ∉ before) eligible with
          | [] => Ok None
          | [only] => Ok (Some only)
          | many => Err (MultipleNewPorts (names_of many))
          end
      end
  end.

Definition find_reset (serial : str) (identity : option (Z * Z)) (l : list UsbResetInterface) : list UsbResetInterface :=
  filter (λ i, eq_ignore_ascii_case (ri_serial_number i) serial &&
               match identity with Some vp => bool_decide ((ri_vid i, ri_pid i) = vp) | None => true end = true) l.

Definition resolve_reset_only_target (selector : str) (cdc_candidates : list PicoCdcPort)
    (reset_interfaces : list UsbResetInterface) : result Failure (option UsbResetInterface) :=
  let wanted : result Failure (option (str * option (Z * Z))) :=
    match serial_selector selector with
    | Some serial => Ok (Some (serial, None))
    | None =>
        match filter (λ c, pico_name c = selector) cdc_candidates with
        | [] => Ok None
        | [only] =>
            if is_known_unhealthy (pico_health only) then
              Ok ((λ serial, (serial, Some (pico_vid only, pico_pid only))) <$> pico_serial only)
            else Err (HealthyUnresolved selector (pico_name only))
        | many => Err (AmbiguousRecords selector (length many))
        end
    end in
  wanted <-? wanted;
  match wanted with
  | None => Ok None
  | Some (serial, expected_vid_pid) =>
      match find_reset serial expected_vid_pid reset_interfaces with
      | [] => Ok None
      | [only] => Ok (Some only)
      | many => Err (AmbiguousReset selector (length many))
      end
  end.

Definition reset_interface_for_runtime_target (target : RequestedRuntimeTarget) (reset_interfaces : list UsbResetInterface) :
    result Failure (option UsbResetInterface) :=
  match target_serial target with
  | None => Ok None
  | Some serial =>
      match find_reset serial (Some (target_vid target, target_pid target)) reset_interfaces with
      | [] => Ok None
      | [only] => Ok (Some only)
      | many => Err (AmbiguousResetTarget (target_port target) (length many))
      end
  end.

(** ** BOOTSEL volumes *)

(** [volume_roots_filtered(false, home, _)] *)
Definition unix_volume_roots (home : option PathBuf) : list PathBuf :=
  (match home ≫= file_name with
   | Some user => [buf_join (components (&"/media")) user; buf_join (components (&"/run/media")) user]
   | None => []
   end) ++ [components (&"/Volumes"); components (&"/media"); components (&"/run/media")].

(** What [has_uf2_marker] asks of the text of [INFO_UF2.TXT]. *)
Definition marker_text (contents : str) : bool :=
  let upper := to_ascii_uppercase contents in
  contains (&"RP2") upper || contains (&"RP2040") upper || contains (&"RP2350") upper.
Definition info_file (volume : PathBuf) : PathBuf := buf_join volume (&"INFO_UF2.TXT").
Definition new_uf2 (volume : PathBuf) : PathBuf := buf_join volume (&"NEW.UF2").

Definition select_single_uf2_volume (matches : list PathBuf) : result Failure (option PathBuf) :=
  if (1 <? length matches)%nat then Err (MultipleVolumes matches) else Ok (last matches).

Definition select_appeared_volume (before : gset PathBuf) (discovered : list PathBuf) : result Failure (option PathBuf) :=
  select_single_uf2_volume (filter (λ v, v ∉ before) discovered).

Definition pretouch_volume_policy (mounted : list PathBuf) (can_attribute : bool) :
    result Failure (option PathBuf * gset PathBuf) :=
  if can_attribute && negb (bool_decide (mounted = [])) then Ok (None, list_to_set mounted)
  else if (1 <? length mounted)%nat then Err (MultipleVolumes mounted)
  else Ok (head mounted, ∅).

Definition explicit_candidate (selector : str) : PathBuf :=
  components (default selector (match RustStr.strip_prefix (&"UF2=") selector with
                                | Some s => Some s | None => RustStr.strip_prefix (&"uf2=") selector end)).

Definition select_volume_after_reset (volume : option PathBuf) (reset_error : option Failure) : result Failure PathBuf :=
  match volume with
  | Some volume => Ok volume
  | None => match reset_error with Some error => Err (NoTransition error) | None => Err BootselNotFound end
  end.

(** [rom_block_devices]: [entries] are the paths in [/dev/disk/by-id]. *)
Definition rom_block_devices (entries : list PathBuf) : list PathBuf :=
  merge_sort path_le (filter (λ p, match file_name p with
    | Some name => starts_with (&"usb-RPI_RP2") name && ends_with (&"-part1") name
    | None => false end = true) entries).

(** ** picotool *)

Record PicotoolTarget := { pt_serial_number : str; pt_vendor_id : str; pt_product_id : str }.

Definition matches_usb_instance (t : PicotoolTarget) (instance_id : str) : bool :=
  let upper := to_ascii_uppercase instance_id in
  contains (&"VID_" ++ to_ascii_uppercase (pt_vendor_id t)) upper &&
  contains (&"PID_" ++ to_ascii_uppercase (pt_product_id t)) upper.

Definition bootsel_identities (family_id : Z) (profiles : list UsbTransportProfile) : gset (str * str) :=
  list_to_set (omap (λ p, pid ← im_pid (identity_match p); Some (im_vid (identity_match p), pid))
    (filter (λ p, bootloader_profile_matches_family p family_id = true) profiles)).

Definition picotool_target_from_profiles (serial_number : str) (family_id : Z) (profiles : list UsbTransportProfile) :
    result Failure PicotoolTarget :=
  match elements (bootsel_identities family_id profiles) with
  | [] => Err (NoBootselIdentity (rp_family_name family_id))
  | [(vendor_id, product_id)] =>
      Ok {| pt_serial_number := serial_number; pt_vendor_id := vendor_id; pt_product_id := product_id |}
  | _ => Err (MultipleBootselIdentities (rp_family_name family_id))
  end.

Definition picotool_target_for_family (installed : InstalledProfiles) (serial_number : str) (family_id : Z) :
    result Failure PicotoolTarget :=
  picotool_target_from_profiles serial_number family_id (all_profiles (Some installed)).

Definition application_reboot_target (bootsel_present : bool) (runtime_target : option RequestedRuntimeTarget) :
    option PicotoolTarget :=
  if bootsel_present then None
  else
    t ← runtime_target;
    serial ← target_serial t;
    if bool_decide (serial = []) || (target_vid t =? 0) || (target_pid t =? 0) then None
    else Some {| pt_serial_number := serial; pt_vendor_id := hex4 "a" (target_vid t); pt_product_id := hex4 "a" (target_pid t) |}.

(** An argument of a command: a text, or a path as its text. *)
Inductive Arg := Text (s : str) | File (p : PathBuf).
#[global] Instance Arg_eq_dec : EqDecision Arg.
Proof. solve_decision. Defined.

Definition append_target_vid_pid (target : PicotoolTarget) : list Arg :=
  [Text (&"--vid"); Text (&"0x" ++ pt_vendor_id target); Text (&"--pid"); Text (&"0x" ++ pt_product_id target)].
Definition append_target_selection (target : PicotoolTarget) : list Arg :=
  append_target_vid_pid target ++ [Text (&"--ser"); Text (pt_serial_number target)].
Definition load_args (executable artifact : PathBuf) (target : PicotoolTarget) : list Arg :=
  [File executable; Text (&"load"); File artifact; Text (&"-x")] ++ append_target_selection target.
Definition reboot_to_bootsel_args (executable : PathBuf) (target : PicotoolTarget) : list Arg :=
  [File executable; Text (&"reboot"); Text (&"-u")] ++ append_target_vid_pid target ++ [Text (&"-f")].
Definition info_probe_args (executable : PathBuf) (target : PicotoolTarget) : list Arg :=
  [File executable; Text (&"info")] ++ append_target_selection target.
Definition uf2_info_args (executable : PathBuf) : list Arg := [File executable; Text (&"uf2"); Text (&"info")].

Definition combined_tool_output (stdout stderr : str) : str :=
  RustStr.join [nl] (filter (λ v, v ≠ []) [stderr; stdout]).

Inductive PriorTransportFailure := PriorPicotool (error : Failure) | PriorMassStorage (error : Failure).

Definition format_eject_failure (mass_storage_error : Failure) (prior_failure : option PriorTransportFailure)
    (uf2_diagnostic : option str) : Failure :=
  let message :=
    match prior_failure with
    | Some (PriorPicotool error) => BothFailed PicotoolPrimary mass_storage_error error
    | Some (PriorMassStorage prior) => BothFailed PicotoolFallback prior mass_storage_error
    | None => mass_storage_error
    end in
  match uf2_diagnostic with Some d => WithDiagnostic message d | None => message end.

(** ** The driver of the PICOBOOT interface (Windows) *)

Record UsbProblemDevice := { pd_instance_id : str; pd_problem_code : Z }.

Definition CM_PROB_FAILED_INSTALL : Z := 28.
Definition CM_PROB_NOT_CONFIGURED : Z := 1.
Definition CM_PROB_FAILED_ADD : Z := 31.

Definition is_picoboot_interface_devnode (instance_id : str) (target : PicotoolTarget) : bool :=
  matches_usb_instance target instance_id && contains (&"&MI_") (to_ascii_uppercase instance_id).
Definition is_driver_missing_family (problem_code : Z) : bool :=
  mem problem_code [CM_PROB_FAILED_INSTALL; CM_PROB_NOT_CONFIGURED; CM_PROB_FAILED_ADD].

Definition classify_picoboot_preflight (devices : list UsbProblemDevice) (target : PicotoolTarget) : PicobootPreflight :=
  match find (λ d, is_picoboot_interface_devnode (pd_instance_id d) target) devices with
  | Some d => if is_driver_missing_family (pd_problem_code d) then DriverMissing (pd_instance_id d) (pd_problem_code d)
              else OtherProblem (pd_instance_id d) (pd_problem_code d)
  | None => Ready
  end.

(** ** Where the board hangs *)

Inductive HubDepth := DirectRootPort | BehindHubs (tiers : nat) | HubUnavailable.

(** [\] *)
Definition id_separator : ascii := "092"%char.

Definition vid_pid_token (instance_id : str) : option str :=
  rest ← RustStr.strip_prefix (&"USB\") (to_ascii_uppercase instance_id);
  device_part ← head (split_on id_separator rest);
  match split_on "&" device_part with
  | vid :: pid :: _ =>
      if starts_with (&"VID_") vid && starts_with (&"PID_") pid then Some (vid ++ &"&" ++ pid) else None
  | _ => None
  end.
Definition is_root_hub_id (instance_id : str) : bool := starts_with (&"USB\ROOT_HUB") (to_ascii_uppercase instance_id).
Definition is_usb_device_id (instance_id : str) : bool :=
  let upper := to_ascii_uppercase instance_id in starts_with (&"USB\VID_") upper && contains (&"&PID_") upper.

Fixpoint skip_while {A} (f : A → bool) (l : list A) : list A :=
  match l with [] => [] | a :: l' => if f a then skip_while f l' else l end.

(** The loop over the ancestors; [hub_tiers] is the index. *)
Fixpoint hub_walk (hub_tiers : nat) (ancestor_ids : list str) : HubDepth :=
  match ancestor_ids with
  | [] => HubUnavailable
  | id :: rest => if is_root_hub_id id then BehindHubs hub_tiers
                  else if is_usb_device_id id then hub_walk (S hub_tiers) rest else HubUnavailable
  end.

Definition classify_ancestor_chain (own_id : str) (ancestor_ids : list str) : HubDepth :=
  let ancestor_ids :=
    match vid_pid_token own_id with
    | Some token => skip_while (λ id, contains token (to_ascii_uppercase id)) ancestor_ids
    | None => ancestor_ids
    end in
  match ancestor_ids with
  | [] => HubUnavailable
  | a :: _ => if is_root_hub_id a then DirectRootPort else hub_walk 0 ancestor_ids
  end.

Definition format_topology (depth : HubDepth) (location : option str) : str :=
  match depth with
  | DirectRootPort => match location with Some l => &"USB topology: direct root port (" ++ l ++ &")"
                                        | None => &"USB topology: direct root port" end
  | BehindHubs tiers =>
      &"USB topology: behind " ++ decimal (Z.of_nat tiers) ++ &" external hub tier(s)"
      ++ (match location with Some l => &" at " ++ l | None => [] end)
      ++ &"; hub power mode and sibling count unavailable (not queried)"
  | HubUnavailable => &"USB topology unavailable"
  end.

(** What [available_serial_ports] of [fbuild-core] says of a port. *)
Record PortFacts := {
  pf_port_name : str;
  pf_instance_id : option str;
  pf_ancestor_instance_ids : list str;
  pf_location_information : option str;
}.

Definition port_topology (facts : list PortFacts) (port_name : str) : option str :=
  port ← find (λ p, eq_ignore_ascii_case (pf_port_name p) port_name) facts;
  if bool_decide (pf_instance_id port = None) && bool_decide (pf_ancestor_instance_ids port = []) then None
  else Some (format_topology
    (classify_ancestor_chain (default [] (pf_instance_id port)) (pf_ancestor_instance_ids port)) (pf_location_information port)).

Example target_demo :
  serial_selector (&"ser=AB12") = Some (&"AB12") ∧ serial_selector (&"SER=") = None ∧ serial_selector (&"COM3") = None ∧
  explicit_candidate (&"UF2=/media/u/RPI-RP2") = components (&"/media/u/RPI-RP2") ∧
  marker_text (&"Board-ID: rpi-rp2") = true ∧
  classify_ancestor_chain (&"USB\VID_2E8A&PID_000A&MI_00\7") [&"USB\VID_2E8A&PID_000A\E66"; &"USB\VID_05E3&PID_0610\6"; &"USB\ROOT_HUB30\4"]
    = BehindHubs 1 ∧
  unix_volume_roots (Some (components (&"/home/u"))) =
    components <$> [&"/media/u"; &"/run/media/u"; &"/Volumes"; &"/media"; &"/run/media"] ∧
  timeout_secs_from (Some (&" 45 ")) (secs 10) = secs 45 ∧ timeout_secs_from (Some (&"601")) (secs 10) = secs 10.
Proof. by vm_compute. Qed.
