(* ===== verification/Rp2040Host.v ===== *)
(** * RP2040 deployment: the requests to the host, and its small steps

    The parts of [fbuild-deploy/src/rp2040.rs], [rp2040_mount.rs] and
    [rp2040_picotool.rs] that look at volumes and ports, wait, write and call
    picotool, as programs.  Every call that leaves the program is a request
    [ev]; its answer is whatever the host says at that moment.  A loop that
    polls until a deadline has as many turns as fit into its time; see
    [Rp2040Time] for why they are enough. *)
From S2P Require Import Prelude RustStr CachePaths PathBuf NormPath DeviceManager UsbProfiles DeployPort Effects Uf2 Rp2040Target.
From S2P Require Fingerprint.
Local Open Scope Z.
Local Open Scope prog_scope.

Record ToolOutput := { tool_success : bool; tool_stdout : str; tool_stderr : str }.

(** A failure is [Some] where the answer of a success holds nothing. *)
Inductive ev : Type → Type :=
  (** [populate_profiles_from_paths], and what is installed then. *)
  | EnsureProfiles : ev (option InstalledProfiles)
  (** Enumerations. *)
  | AvailablePorts : ev (result str (list DetectedPort))
  | ResetInterfaces : ev (list UsbResetInterface)
  | ProblemDevices : ev (list UsbProblemDevice)
  | SerialFacts : ev (option (list PortFacts))
  | HomeDir : ev (option PathBuf)
  | RemovableRoots : ev (option (list PathBuf))
  (** Files. *)
  | ReadToString (file : PathBuf) : ev (option str)
  | ReadDir (dir : PathBuf) : ev (option (list PathBuf))
  | IsDir (p : PathBuf) : ev bool
  | IsFile (p : PathBuf) : ev bool
  | ReadFile (file : PathBuf) : ev (result ErrorClass str)
  | WriteFile (file : PathBuf) (bytes : str) : ev (option ErrorClass)
  | Modified (file : PathBuf) : ev (result ErrorClass Z)
  | FileLen (file : PathBuf) : ev (result ErrorClass Z)
  (** The file on the volume: opened (and truncated), written, flushed.  A
      write that is interrupted is repeated; the answer is that of the last. *)
  | OpenShared (destination : PathBuf) : ev (option ErrorClass)
  | WriteTo (destination : PathBuf) (bytes : str) : ev (result ErrorClass nat)
  | Flush (destination : PathBuf) : ev (option ErrorClass)
  (** Time, in nanoseconds. *)
  | Now : ev Z
  | Sleep (d : Z) : ev unit
  (** How many requests of a task are made before its budget is used up;
      [None] when the task ends in time. *)
  | Watchdog (budget : Z) : ev (option nat)
  (** Devices. *)
  | MountBlockDevices (devices : list PathBuf) : ev unit
  | OpenSerial (port : str) (baud : Z) : ev (option SerialError)
  | WriteDtr (port : str) (level : bool) : ev (option SerialError)
  | SetBaud (port : str) (baud : Z) : ev (option SerialError)
  | ResetToBootsel (interface : UsbResetInterface) : ev (option ErrorClass)
  (** The managed picotool package, and running its executable. *)
  | EnsureInstalled : ev (option str)
  | RunCommand (args : list Arg) (timeout : Z) : ev (result str ToolOutput).

Abbreviation P := (Prog ev).

(** [map_err] of a request that answers [Some] on failure. *)
Definition guard {E} (e : option E) (f : E → Failure) : P (result Failure unit) :=
  Ret (match e with None => Ok tt | Some e => Err (f e) end).
Definition attempt {E A} (p : P (result E A)) (f : E → Failure) : P (result Failure A) :=
  r <~ p; Ret (match r with Ok a => Ok a | Err e => Err (f e) end).

(** The turns of a loop that sleeps 100 ms in each. *)
Definition POLL : Z := millis 100.
Definition turns (timeout : Z) : nat := (Z.to_nat (timeout / POLL) + 2)%nat.

Section Host.
Context (windows : bool).

(** ** Volumes *)

Definition volume_roots : P (list PathBuf) :=
  if windows then roots <~ trigger RemovableRoots; Ret (default [] roots)
  else home <~ trigger HomeDir; Ret (unix_volume_roots home).

Definition has_uf2_marker (path : PathBuf) : P bool :=
  contents <~ trigger (ReadToString (info_file path));
  Ret (match contents with Some c => marker_text c | None => false end).

Fixpoint scan_entries (entries : list PathBuf) (matches : gset PathBuf) : P (gset PathBuf) :=
  match entries with
  | [] => Ret matches
  | path :: entries =>
      dir <~ trigger (IsDir path);
      marked <~ (if dir : bool then has_uf2_marker path else Ret false);
      scan_entries entries (if marked : bool then {[path]} ∪ matches else matches)
  end.

Fixpoint scan_roots (roots : list PathBuf) (matches : gset PathBuf) : P (gset PathBuf) :=
  match roots with
  | [] => Ret matches
  | root :: roots =>
      marked <~ has_uf2_marker root;
      let matches := if marked : bool then {[root]} ∪ matches else matches in
      entries <~ trigger (ReadDir root);
      matches <~ scan_entries (default [] entries) matches;
      scan_roots roots matches
  end.

Definition find_uf2_volumes (roots : list PathBuf) : P (list PathBuf) :=
  matches <~ scan_roots roots ∅; Ret (btree_iter path_le matches).

Definition mounted_volumes : P (list PathBuf) := roots <~ volume_roots; find_uf2_volumes roots.

Definition by_id : PathBuf := components (&"/dev/disk/by-id").
Definition try_mount_rom_device : P bool :=
  entries <~ trigger (ReadDir by_id);
  let devices := rom_block_devices (default [] entries) in
  _ <~ trigger (MountBlockDevices devices);
  Ret (negb (bool_decide (devices = []))).

(** The loop of [find_uf2_volume_until_with]. *)
Fixpoint find_loop (fuel : nat) (scan : P (result Failure (option PathBuf))) (try_mount : P bool)
    (deadline : Z) (mount_attempted : bool) : P (result Failure (option PathBuf)) :=
  match fuel with
  | O => Stop
  | S fuel =>
      found <~? scan;
      match found with
      | Some path => Ret (Ok (Some path))
      | None =>
          mount_attempted <~ (if mount_attempted then Ret true else try_mount);
          now <~ trigger Now;
          if deadline <=? now then Ret (Ok None)
          else _ <~ trigger (Sleep POLL); find_loop fuel scan try_mount deadline mount_attempted
      end
  end.

Definition find_uf2_volume_until_with (timeout : Z) (scan : P (result Failure (option PathBuf))) (try_mount : P bool) :
    P (result Failure (option PathBuf)) :=
  now <~ trigger Now; find_loop (turns timeout) scan try_mount (now + timeout) false.

Definition scan_appeared (volumes_before : gset PathBuf) : P (result Failure (option PathBuf)) :=
  discovered <~ mounted_volumes; Ret (select_appeared_volume volumes_before discovered).

Definition find_uf2_volume_until (timeout : Z) (volumes_before : gset PathBuf) : P (result Failure (option PathBuf)) :=
  find_uf2_volume_until_with timeout (scan_appeared volumes_before) try_mount_rom_device.

Definition explicit_uf2_volume (selector : str) : P (option PathBuf) :=
  let path := explicit_candidate selector in
  marked <~ has_uf2_marker path; Ret (if marked : bool then Some path else None).

(** The loop of [wait_for_volume_disappearance]. *)
Fixpoint gone_loop (fuel : nat) (volume : PathBuf) (deadline : Z) : P (result Failure unit) :=
  match fuel with
  | O => Stop
  | S fuel =>
      now <~ trigger Now;
      if now <? deadline then
        marked <~ has_uf2_marker volume;
        if marked : bool then _ <~ trigger (Sleep POLL); gone_loop fuel volume deadline else Ret (Ok tt)
      else Ret (Err (NotEjected volume))
  end.
Definition wait_for_volume_disappearance (volume : PathBuf) (timeout : Z) : P (result Failure unit) :=
  now <~ trigger Now; gone_loop (turns timeout) volume (now + timeout).

(** ** The 1200-bps touch *)

Definition touch_1200bps (port : str) : P (result Failure unit) :=
  opened <~ trigger (OpenSerial port 9600);
  match opened with
  | None =>
      e <~ trigger (WriteDtr port true);
      _ <~? guard e (TouchAssert port);
      _ <~ trigger (Sleep POLL);
      e <~ trigger (WriteDtr port false);
      _ <~? guard e (TouchDeassert port);
      e <~ trigger (SetBaud port 1200);
      guard e (TouchBaud port)
  | Some (NoDevice _) => Ret (Ok tt)
  | Some error => Ret (Err (TouchOpen port error))
  end.

(** ** The image *)

Fixpoint reject_older (uf2 : PathBuf) (uf2_modified : Z) (extensions : list str) : P (result Failure unit) :=
  match extensions with
  | [] => Ret (Ok tt)
  | extension :: extensions =>
      let source := Fingerprint.with_extension uf2 extension in
      modified <~ trigger (Modified source);
      match modified with
      | Ok source_modified =>
          if uf2_modified <? source_modified then Ret (Err (StaleUf2 uf2 source)) else reject_older uf2 uf2_modified extensions
      | Err _ => reject_older uf2 uf2_modified extensions
      end
  end.
Definition reject_stale_uf2 (uf2 : PathBuf) : P (result Failure unit) :=
  modified <~? attempt (trigger (Modified uf2)) (InspectFailed uf2);
  reject_older uf2 modified [&"elf"; &"bin"].

Definition has_extension (p : PathBuf) (ext : str) : bool :=
  match Fingerprint.extension p with Some e => eq_ignore_ascii_case e ext | None => false end.

Definition check_image (family_id : Z) (artifact : PathBuf) (uf2 : str) : P (result Failure (PathBuf * Uf2Target)) :=
  match validate_uf2 family_id uf2 with
  | Some (Ok target) => Ret (Ok (artifact, target))
  | Some (Err e) => Ret (Err (InvalidUf2 e))
  | None => Stop
  end.

Definition prepare_uf2_artifact (firmware_path : PathBuf) (family_id : Z) : P (result Failure (PathBuf * Uf2Target)) :=
  let input_is_uf2 := has_extension firmware_path (&"uf2") in
  let input_is_bin := has_extension firmware_path (&"bin") in
  if negb input_is_uf2 && negb input_is_bin then Ret (Err (UnsupportedInput firmware_path))
  else
    input_bytes <~? attempt (trigger (ReadFile firmware_path)) (ReadFailed firmware_path);
    let sibling_uf2 := Fingerprint.with_extension firmware_path (&"uf2") in
    if input_is_uf2 then
      _ <~? reject_stale_uf2 firmware_path;
      check_image family_id firmware_path input_bytes
    else
      there <~ trigger (IsFile sibling_uf2);
      if there : bool then
        _ <~? reject_stale_uf2 sibling_uf2;
        bytes <~? attempt (trigger (ReadFile sibling_uf2)) (ReadUf2Failed sibling_uf2);
        check_image family_id sibling_uf2 bytes
      else
        let bytes := encode_uf2_for_family input_bytes family_id in
        e <~ trigger (WriteFile sibling_uf2 bytes);
        _ <~? guard e (WriteFailed sibling_uf2);
        check_image family_id sibling_uf2 bytes.

(** ** Writing it to a volume *)

Record Uf2WriteFailure := { wf_error : ErrorClass; wf_bytes_written : Z }.

(** [write_all] on the counting writer: a write of nothing is an error. *)
Fixpoint write_all (fuel : nat) (destination : PathBuf) (bytes : str) (bytes_written : Z) : P (result Uf2WriteFailure Z) :=
  match bytes with
  | [] => Ret (Ok bytes_written)
  | _ =>
      match fuel with
      | O => Stop
      | S fuel =>
          n <~ trigger (WriteTo destination bytes);
          match n with
          | Err e => Ret (Err {| wf_error := e; wf_bytes_written := bytes_written |})
          | Ok O => Ret (Err {| wf_error := OtherError; wf_bytes_written := bytes_written |})
          | Ok n => write_all fuel destination (drop n bytes) (bytes_written + Z.of_nat n)
          end
      end
  end.

Definition write_uf2_bytes (destination : PathBuf) (bytes : str) : P (result Uf2WriteFailure Z) :=
  written <~? write_all (length bytes) destination bytes 0;
  e <~ trigger (Flush destination);
  Ret (match e with None => Ok written | Some e => Err {| wf_error := e; wf_bytes_written := written |} end).

Definition write_uf2_artifact_direct (artifact destination : PathBuf) : P (result Uf2WriteFailure Z) :=
  bytes <~ trigger (ReadFile artifact);
  match bytes with
  | Err e => Ret (Err {| wf_error := e; wf_bytes_written := 0 |})
  | Ok bytes =>
      e <~ trigger (OpenShared destination);
      match e with
      | Some e => Ret (Err {| wf_error := e; wf_bytes_written := 0 |})
      | None => write_uf2_bytes destination bytes
      end
  end.

Definition is_device_disappearance_error (e : ErrorClass) : bool :=
  match e with DeviceUnavailable | InvalidatedHandle => true | _ => false end.

Definition copy_uf2_artifact_with (artifact destination volume : PathBuf)
    (copy : PathBuf → PathBuf → P (result Uf2WriteFailure Z)) : P (result Failure unit) :=
  expected_bytes <~? attempt (trigger (FileLen artifact)) (InspectBeforeTransfer artifact);
  copied <~ copy artifact destination;
  match copied with
  | Ok bytes_written =>
      Ret (if bytes_written =? expected_bytes then Ok tt else Err (ShortTransfer artifact destination bytes_written expected_bytes))
  | Err f =>
      accepted <~ (if (wf_bytes_written f =? expected_bytes) && is_device_disappearance_error (wf_error f)
                   then gone <~ wait_for_volume_disappearance volume (secs 2); Ret (is_ok gone) else Ret false);
      Ret (if accepted : bool then Ok tt else Err (CopyFailed artifact destination (wf_error f)))
  end.

Definition copy_prepared_uf2 (artifact volume : PathBuf) : P (result Failure PathBuf) :=
  let destination := new_uf2 volume in
  _ <~? copy_uf2_artifact_with artifact destination volume write_uf2_artifact_direct;
  Ret (Ok destination).

(** A task that is given up goes on by itself at most with what is left of its
    own requests; the program no longer waits for it. *)
Definition run_with_watchdog {A} (budget : Z) (work : P (result Failure A)) : P (result Failure A) :=
  in_time <~ trigger (Watchdog budget);
  match in_time with
  | None => work
  | Some n => _ <~ cut_after n work; Ret (Err (WatchdogExpired (as_secs budget)))
  end.

Record MscTransfer := { mt_destination : PathBuf; mt_volume : PathBuf }.
Record MscTransferFailure := { mf_error : Failure; mf_volume : PathBuf; mf_attempts : nat }.

Fixpoint transfer_loop (fuel : nat) (max_attempts : nat) (copy : PathBuf → P (result Failure PathBuf))
    (volume_gone : PathBuf → P bool) (rediscover : P (result Failure (option PathBuf)))
    (volume : PathBuf) (attempts : nat) : P (result MscTransferFailure MscTransfer) :=
  match fuel with
  | O => Stop
  | S fuel =>
      let attempts := S attempts in
      copied <~ copy volume;
      match copied with
      | Ok destination => Ret (Ok {| mt_destination := destination; mt_volume := volume |})
      | Err error =>
          let failure := Err {| mf_error := error; mf_volume := volume; mf_attempts := attempts |} in
          gone <~ (if (max_attempts <=? attempts)%nat then Ret false else volume_gone volume);
          if gone : bool then
            next <~ rediscover;
            match next with
            | Ok (Some next) => transfer_loop fuel max_attempts copy volume_gone rediscover next attempts
            | _ => Ret failure
            end
          else Ret failure
      end
  end.
Definition transfer_uf2_with_retries (initial_volume : PathBuf) (max_attempts : nat) (copy : PathBuf → P (result Failure PathBuf))
    (volume_gone : PathBuf → P bool) (rediscover : P (result Failure (option PathBuf))) : P (result MscTransferFailure MscTransfer) :=
  transfer_loop (S max_attempts) max_attempts copy volume_gone rediscover initial_volume 0.

Definition run_mass_storage_transfer (volume artifact : PathBuf) (bootloader_timeout write_budget : Z)
    (volumes_before : gset PathBuf) : P (result MscTransferFailure MscTransfer) :=
  transfer_uf2_with_retries volume UF2_TRANSFER_ATTEMPTS
    (λ volume, run_with_watchdog write_budget (copy_prepared_uf2 artifact volume))
    (λ volume, gone <~ wait_for_volume_disappearance volume (secs 2); Ret (is_ok gone))
    (find_uf2_volume_until bootloader_timeout volumes_before).
End Host.
