(* ===== verification/Rp2040Deploy.v ===== *)
(** * RP2040 deployment

    [Rp2040Deployer::deploy] of [fbuild-deploy/src/rp2040.rs] in the four
    parts of its body: survey what is there, enter BOOTSEL, transfer the
    image, confirm that the board took it. *)
From S2P Require Import Prelude RustStr CachePaths PathBuf NormPath DeviceManager UsbProfiles DeployPort Effects Uf2 Rp2040Target Rp2040Host.
Local Open Scope Z.
Local Open Scope prog_scope.

(** [fbuild-deploy/src/lib.rs] *)
Inductive FlashRegion := BootloaderRegion | PartitionsRegion | FirmwareRegion.
Inductive DeployOutcome := FullFlash | RamLoad | VerifySkip | SelectiveFlash (regions : list FlashRegion).
Definition region_name (r : FlashRegion) : str :=
  match r with BootloaderRegion => &"bootloader" | PartitionsRegion => &"partitions" | FirmwareRegion => &"firmware" end.
Definition describe (o : DeployOutcome) : str :=
  match o with
  | FullFlash => &"full flash"
  | RamLoad => &"RAM load accepted"
  | VerifySkip => &"verify skipped, device already matched"
  | SelectiveFlash regions => &"selective flash: " ++ RustStr.join (&", ") (map region_name regions)
  end.

Record DeploymentResult := {
  dr_success : bool;
  dr_message : str;
  dr_port : option str;
  dr_stdout : str;
  dr_stderr : str;
  dr_outcome : DeployOutcome;
}.

Definition describe_transfer_location (volume : option PathBuf) : str :=
  match volume with Some v => path_text v | None => &"PICOBOOT vendor interface" end.

Definition ram_load_result (volume : option PathBuf) (transfer_method stdout stderr : str) : DeploymentResult :=
  {| dr_success := true;
     dr_message := &"RP2040 RAM image accepted for execution via " ++ transfer_method ++ &" (" ++ describe_transfer_location volume ++ &")";
     dr_port := None; dr_stdout := stdout; dr_stderr := stderr; dr_outcome := RamLoad |}.

(** ** Waiting for the application's port *)

Record CdcWaitTimeout := {
  ct_elapsed : Z;
  ct_previous_port : option str;
  ct_requested_serial : option str;
  ct_candidates : list PicoCdcPort;
  ct_last_open_error : option str;
}.
Inductive CdcWaitError := CdcTimeout (t : CdcWaitTimeout) | CdcEnumeration (e : Failure).

Definition labelled (label : str) (o : option str) : str := match o with Some v => label ++ v | None => [] end.

Definition describe_candidate (c : PicoCdcPort) : str :=
  pico_name c ++ &" (" ++ (match pico_serial c with Some v => &"serial " ++ v | None => &"serial unavailable" end)
  ++ &"; health " ++ health_label (pico_health c) ++ labelled (&"; instance ") (pico_instance_id c)
  ++ labelled (&"; parent ") (pico_parent_instance_id c) ++ &")".

Definition diagnostics (t : CdcWaitTimeout) : str :=
  &"elapsed " ++ decimal (as_millis (ct_elapsed t)) ++ &"ms; prior port " ++ default (&"none") (ct_previous_port t)
  ++ &"; requested serial " ++ default (&"none") (ct_requested_serial t) ++ &"; catalogue candidates: "
  ++ (match ct_candidates t with [] => &"none" | l => RustStr.join (&", ") (map describe_candidate l) end)
  ++ labelled (&"; last open error ") (ct_last_open_error t).

Definition recovery_guidance (t : CdcWaitTimeout) : str :=
  (match filter (λ c, is_known_unhealthy (pico_health c) = true) (ct_candidates t) with
   | [] => []
   | stale => &" Windows retained stale/problem devnode record(s) for this board: "
       ++ RustStr.join (&", ") (map describe_unhealthy stale)
       ++ &"; a historical COM name with a matching serial is not a live endpoint and was not returned."
   end)
  ++ &" To recover manually: use a direct motherboard USB port and a known-good data cable, then 1) hold BOOT/BOOTSEL, 2) press and release RESET while still holding BOOT, 3) keep BOOT held for about two seconds, then release, 4) verify an RPI-RP2 volume appears and rerun the deploy.".

Inductive PostFlashCdc := Confirmed (port : str) | Unconfirmed (note : str).

Definition resolve_post_flash_cdc (flash_confirmed : bool) (wait_result : result CdcWaitError PicoCdcPort) (window : Z) :
    result Failure PostFlashCdc :=
  match wait_result with
  | Ok port => Ok (Confirmed (pico_name port))
  | Err (CdcEnumeration error) => Err error
  | Err (CdcTimeout t) =>
      if flash_confirmed then
        Ok (Unconfirmed (&"the firmware was flashed and accepted, but no healthy, openable runtime CDC port reappeared within "
          ++ decimal (as_secs window) ++ &"s (" ++ diagnostics t ++ &")." ++ recovery_guidance t
          ++ &" First-plug driver installation can also exceed this window (extend it with FBUILD_RP2040_POST_DEPLOY_TIMEOUT_SECS)"))
      else Err (NoRuntimePort (as_secs window))
  end.

(** A turn of the loop: the candidate of a fresh catalogue is returned once it
    opens; [next] is the rest of a turn that returned nothing. *)
Definition cdc_turn (previous_port requested_serial : option str) (before : gset str)
    (catalogue : P (result Failure (list PicoCdcPort))) (probe : PicoCdcPort → P (result str unit)) (last_open_error : option str)
    (next : list PicoCdcPort → option str → P (result CdcWaitError PicoCdcPort)) : P (result CdcWaitError PicoCdcPort) :=
  ports <~ catalogue;
  match ports with
  | Err e => Ret (Err (CdcEnumeration e))
  | Ok ports =>
      match select_cdc_candidate previous_port requested_serial before ports with
      | Err e => Ret (Err (CdcEnumeration e))
      | Ok None => next ports last_open_error
      | Ok (Some selected) =>
          opened <~ probe selected;
          match opened with
          | Ok _ => Ret (Ok selected)
          | Err error => next ports (Some (pico_name selected ++ &": " ++ error))
          end
      end
  end.

Fixpoint cdc_loop (fuel : nat) (previous_port requested_serial : option str) (before : gset str) (timeout : Z)
    (catalogue : P (result Failure (list PicoCdcPort))) (probe : PicoCdcPort → P (result str unit)) (elapsed : P Z)
    (last_open_error : option str) : P (result CdcWaitError PicoCdcPort) :=
  match fuel with
  | O => Stop
  | S fuel =>
      cdc_turn previous_port requested_serial before catalogue probe last_open_error (λ ports last_open_error,
        waited <~ elapsed;
        if timeout <=? waited then
          Ret (Err (CdcTimeout {| ct_elapsed := waited; ct_previous_port := previous_port; ct_requested_serial := requested_serial;
                                  ct_candidates := ports; ct_last_open_error := last_open_error |}))
        else _ <~ trigger (Sleep (Z.min CDC_POLL_INTERVAL (saturating_sub timeout waited)));
             cdc_loop fuel previous_port requested_serial before timeout catalogue probe elapsed last_open_error)
  end.

Definition probe_cdc_openable (port : PicoCdcPort) : P (result str unit) :=
  e <~ trigger (OpenSerial (pico_name port) 115200);
  Ret (match e with None => Ok tt | Some e => Err (serial_error_text e) end).

Definition catalogue_pico_cdc_ports (installed : InstalledProfiles) (expected_family : Z) : P (result Failure (list PicoCdcPort)) :=
  ports <~? attempt (trigger AvailablePorts) EnumerateFailed;
  Ret (Ok (pico_cdc_ports installed expected_family ports)).

Definition catalogue_pico_reset_interfaces (installed : InstalledProfiles) (expected_family : Z) : P (list UsbResetInterface) :=
  l <~ trigger ResetInterfaces; Ret (pico_reset_interfaces installed expected_family l).

Definition wait_for_cdc_port (installed : InstalledProfiles) (previous_port requested_serial : option str) (before : gset str)
    (expected_family timeout : Z) : P (result CdcWaitError PicoCdcPort) :=
  started <~ trigger Now;
  cdc_loop (turns timeout) previous_port requested_serial before timeout (catalogue_pico_cdc_ports installed expected_family)
    probe_cdc_openable (now <~ trigger Now; Ret (now - started)) None.

(** The deployer's [post_deploy_recovery]: until the port opens, or time is up. *)
Fixpoint recovery_loop (fuel : nat) (port : str) (deadline : Z) : P bool :=
  match fuel with
  | O => Stop
  | S fuel =>
      now <~ trigger Now;
      if now <? deadline then
        e <~ trigger (OpenSerial port 115200);
        match e with None => Ret true | Some _ => _ <~ trigger (Sleep POLL); recovery_loop fuel port deadline end
      else Ret false
  end.
Definition post_deploy_recovery (self : Rp2040Deployer) (port : str) : P bool :=
  now <~ trigger Now; recovery_loop (turns (post_deploy_timeout self)) port (now + post_deploy_timeout self).

Section Deploy.
(** The host's system, the executable of the managed picotool, the deployer. *)
Context (windows : bool) (picotool : PathBuf) (self : Rp2040Deployer).

(** ** picotool *)

Record PicotoolLoad := { pl_stdout : str; pl_stderr : str }.
Inductive PicotoolMode := PrimaryMode | FallbackMode.

Definition ensure_installed : P (result Failure unit) := e <~ trigger EnsureInstalled; guard e HostFailed.
Definition run_command (args : list Arg) (timeout : Z) : P (result Failure ToolOutput) :=
  attempt (trigger (RunCommand args timeout)) HostFailed.
Definition tool_text (o : ToolOutput) : str := combined_tool_output (trim (tool_stdout o)) (trim (tool_stderr o)).

Definition probe_picotool_info (target : PicotoolTarget) (timeout : Z) : P (result Failure unit) :=
  _ <~? ensure_installed;
  output <~? run_command (info_probe_args picotool target) timeout;
  Ret (if tool_success output then Ok tt else Err (ToolFailed (tool_text output))).

Definition reboot_runtime_to_bootsel (target : PicotoolTarget) (timeout : Z) : P (result Failure PicotoolLoad) :=
  _ <~? ensure_installed;
  output <~? run_command (reboot_to_bootsel_args picotool target) timeout;
  Ret (if tool_success output then Ok {| pl_stdout := tool_stdout output; pl_stderr := tool_stderr output |}
       else Err (RebootToolFailed (tool_text output))).

Definition probe_uf2_rejection_info (timeout : Z) : P (result Failure str) :=
  installed <~ trigger (IsFile picotool);
  if installed : bool then
    output <~? run_command (uf2_info_args picotool) timeout;
    Ret (match tool_text output with [] => Err NoDiagnostic | diagnostic => Ok diagnostic end)
  else Ret (Err NotInstalled).

(** [mass_storage_error] is given when picotool is the fallback. *)
Definition load_with_managed_picotool (artifact : PathBuf) (target : PicotoolTarget) (mass_storage_error : Failure) (timeout : Z)
    (mode : PicotoolMode) : P (result Failure PicotoolLoad) :=
  _ <~? ensure_installed;
  output <~? run_command (load_args picotool artifact target) timeout;
  Ret (if tool_success output then Ok {| pl_stdout := tool_stdout output; pl_stderr := tool_stderr output |}
       else Err (match mode with
                 | FallbackMode => BothFailed PicotoolFallback mass_storage_error (ToolFailed (tool_text output))
                 | PrimaryMode => LoadToolFailed (tool_text output)
                 end)).

Definition attempt_picotool_primary (artifact : PathBuf) (target : PicotoolTarget) (load_timeout : Z) :
    P (result Failure PicotoolLoad) :=
  preflight_result <~ (if windows then devices <~ trigger ProblemDevices; Ret (Some (classify_picoboot_preflight devices target))
                       else Ret None);
  if negb (should_attempt_picotool_first Picotool preflight_result) then
    match preflight_result with Some preflight => Ret (Err (PreflightBlocked preflight)) | None => Stop end
  else
    probed <~ probe_picotool_info target PICOTOOL_INFO_PROBE_TIMEOUT;
    match probed with
    | Err e => Ret (Err (ProbeFailed e))
    | Ok _ => load_with_managed_picotool artifact target NeverMounted load_timeout PrimaryMode
    end.

(** ** What is there before anything is touched *)

Record Survey := {
  sv_installed : InstalledProfiles;
  sv_ports_before : gset str;
  sv_volume_before_reset : option PathBuf;
  sv_volumes_before : gset PathBuf;
  sv_reset_interfaces : list UsbResetInterface;
  sv_runtime_target : option RequestedRuntimeTarget;
  sv_reset_only_target : option UsbResetInterface;
  sv_requested_serial : option str;
  sv_picotool_target : option PicotoolTarget;
}.

(** [map(f).transpose()?] of an optional selector. *)
Definition transposed {A B} (o : option A) (f : A → result Failure B) : result Failure (option B) :=
  match o with None => Ok None | Some a => match f a with Ok b => Ok (Some b) | Err e => Err e end end.
Definition or_else {A} (a b : option A) : option A := match a with Some _ => a | None => b end.

Definition ensure_verified_usb_profiles : P (result Failure InstalledProfiles) :=
  installed <~ trigger EnsureProfiles;
  Ret (match installed with Some i => Ok i | None => Err ProfilesUnavailable end).

(** The volumes that count: an explicit one, or by the policy of the first scan. *)
Definition choose_volumes (selector : option str) (current_ports : list PicoCdcPort) :
    P (result Failure (option PathBuf * gset PathBuf)) :=
  explicit_volume <~ (match selector with Some value => explicit_uf2_volume value | None => Ret None end);
  match explicit_volume, selector with
  | Some volume, _ => Ret (Ok (Some volume, ∅))
  | None, Some value =>
      if starts_with (&"uf2=") (to_ascii_lowercase value) then Ret (Err (ExplicitVolumeUnmarked value))
      else
        mounted <~ mounted_volumes windows;
        Ret (pretouch_volume_policy mounted (is_ok (resolve_requested_runtime_target value current_ports)))
  | None, None => mounted <~ mounted_volumes windows; Ret (pretouch_volume_policy mounted false)
  end.

Definition choose_target (selector : option str) (current_ports : list PicoCdcPort) (reset_interfaces : list UsbResetInterface) :
    result Failure (option RequestedRuntimeTarget * option UsbResetInterface) :=
  match selector with
  | None => Ok (None, None)
  | Some value =>
      match resolve_requested_runtime_target value current_ports with
      | Ok target => Ok (Some target, None)
      | Err cdc_error =>
          reset_target <-? resolve_reset_only_target value current_ports reset_interfaces;
          match reset_target with Some t => Ok (None, Some t) | None => Err cdc_error end
      end
  end.

Definition survey (port : option str) : P (result Failure Survey) :=
  installed <~? ensure_verified_usb_profiles;
  let selector := s ← trim <$> port; if bool_decide (s = []) then None else Some s in
  current_ports <~? catalogue_pico_cdc_ports installed (family_id self);
  '(volume_before_reset, volumes_before) <~? choose_volumes selector current_ports;
  reset_interfaces <~ (match volume_before_reset with
                       | None => catalogue_pico_reset_interfaces installed (family_id self)
                       | Some _ => Ret []
                       end);
  '(runtime_target, reset_only_target) <~? Ret (match volume_before_reset with
                                               | None => choose_target selector current_ports reset_interfaces
                                               | Some _ => Ok (None, None)
                                               end);
  let requested_serial :=
    or_else (selector ≫= serial_selector) (or_else (runtime_target ≫= target_serial) (ri_serial_number <$> reset_only_target)) in
  picotool_target <~? Ret (transposed requested_serial (λ serial, picotool_target_for_family installed serial (family_id self)));
  Ret (Ok {| sv_installed := installed; sv_ports_before := list_to_set (map pico_name current_ports);
             sv_volume_before_reset := volume_before_reset; sv_volumes_before := volumes_before;
             sv_reset_interfaces := reset_interfaces; sv_runtime_target := runtime_target;
             sv_reset_only_target := reset_only_target; sv_requested_serial := requested_serial;
             sv_picotool_target := picotool_target |}).

(** ** Entering BOOTSEL *)

Record ApplicationRebootRecovery := {
  ar_volume : option PathBuf;
  ar_volume_discovery_error : option Failure;
  ar_application_reboot_succeeded : bool;
}.

Definition run_application_reboot_recovery {T} (target : option T) (volume : option PathBuf)
    (volume_discovery_error : option Failure) (bootloader_timeout : Z) (reboot : T → P (result Failure PicotoolLoad))
    (discover_bootsel : P (result Failure (option PathBuf))) : P (result Failure ApplicationRebootRecovery) :=
  match target with
  | None => Ret (Ok {| ar_volume := volume; ar_volume_discovery_error := volume_discovery_error;
                       ar_application_reboot_succeeded := false |})
  | Some target =>
      let earlier_failure := volume_discovery_error in
      rebooted <~ reboot target;
      match rebooted with
      | Ok _ =>
          discovered <~? attempt discover_bootsel (RebootRediscovery earlier_failure);
          Ret (Ok {| ar_volume := discovered;
                     ar_volume_discovery_error := if bool_decide (is_Some discovered) then None
                       else Some (RebootNoVolume earlier_failure (as_secs bootloader_timeout));
                     ar_application_reboot_succeeded := true |})
      | Err error =>
          Ret (Ok {| ar_volume := volume; ar_volume_discovery_error := Some (RebootFailed earlier_failure error);
                     ar_application_reboot_succeeded := false |})
      end
  end.

Definition describe_port_topology (port : str) : P (option str) :=
  facts <~ trigger SerialFacts; Ret (match facts with Some f => port_topology f port | None => None end).

(** The touch, and the volume it brought up. *)
Definition touch_and_discover (s : Survey) : P (result Failure (option PathBuf * option Failure)) :=
  reset_error <~ (match sv_runtime_target s with
                  | Some target => r <~ touch_1200bps (target_port target); Ret (match r with Ok _ => None | Err e => Some e end)
                  | None => Ret None
                  end);
  match sv_volume_before_reset s with
  | Some volume => Ret (Ok (Some volume, None))
  | None =>
      discovered <~? find_uf2_volume_until windows (bootloader_timeout self) (sv_volumes_before s);
      Ret (Ok (match select_volume_after_reset discovered reset_error with
               | Ok volume => (Some volume, None)
               | Err error => (None, Some error)
               end))
  end.

Definition application_target (s : Survey) (volume : option PathBuf) : option PicotoolTarget :=
  match volume, sv_reset_only_target s with
  | Some _, _ => None
  | None, Some i => Some {| pt_serial_number := ri_serial_number i; pt_vendor_id := hex4 "a" (ri_vid i); pt_product_id := hex4 "a" (ri_pid i) |}
  | None, None => application_reboot_target false (sv_runtime_target s)
  end.

Definition native_reset_target (s : Survey) (volume : option PathBuf) : result Failure (option UsbResetInterface) :=
  if windows && bool_decide (volume = None) then
    match sv_reset_only_target s, sv_runtime_target s with
    | Some i, _ => Ok (Some i)
    | None, Some target => reset_interface_for_runtime_target target (sv_reset_interfaces s)
    | None, None => Ok None
    end
  else Ok None.

Definition request_reboot (native : option UsbResetInterface) (target : PicotoolTarget) : P (result Failure PicotoolLoad) :=
  match native with
  | Some i =>
      e <~ trigger (ResetToBootsel i);
      _ <~? guard e (NativeReset (ri_instance_id i));
      Ret (Ok {| pl_stdout := &"requested BOOTSEL through native Pico reset interface " ++ ri_instance_id i; pl_stderr := [] |})
  | None => reboot_runtime_to_bootsel target PICOTOOL_INFO_PROBE_TIMEOUT
  end.

Definition enter_bootsel (s : Survey) : P (result Failure (option str * ApplicationRebootRecovery)) :=
  topology <~ (match sv_runtime_target s with Some target => describe_port_topology (target_port target) | None => Ret None end);
  '(volume, volume_discovery_error) <~? touch_and_discover s;
  native <~? Ret (native_reset_target s volume);
  recovery <~? run_application_reboot_recovery (application_target s volume) volume volume_discovery_error
                 (bootloader_timeout self) (request_reboot native)
                 (find_uf2_volume_until windows (bootloader_timeout self) (sv_volumes_before s));
  Ret (Ok (topology, recovery)).

(** ** The transfer *)

Record Transferred := {
  tf_stdout : str;
  tf_stderr : str;
  tf_method : str;
  tf_volume : option PathBuf;
  tf_picotool_confirmed : bool;
  tf_prior_failure : option PriorTransportFailure;
}.

Definition mass_storage (s : Survey) (volume artifact : PathBuf) : P (result MscTransferFailure MscTransfer) :=
  run_mass_storage_transfer windows volume artifact (bootloader_timeout self) (uf2_write_timeout self) (sv_volumes_before s).

Definition written_to_volume (t : MscTransfer) (method : str) (prior : option PriorTransportFailure) : Transferred :=
  {| tf_stdout := &"wrote " ++ path_text (mt_destination t); tf_stderr := []; tf_method := method;
     tf_volume := Some (mt_volume t); tf_picotool_confirmed := false; tf_prior_failure := prior |}.
Definition loaded_by_picotool (l : PicotoolLoad) (method : str) (volume : option PathBuf) (prior : option PriorTransportFailure) :
    Transferred :=
  {| tf_stdout := pl_stdout l; tf_stderr := pl_stderr l; tf_method := method; tf_volume := volume;
     tf_picotool_confirmed := true; tf_prior_failure := prior |}.

(** The arm of [Rp2040Transport::Uf2]. *)
Definition uf2_transport (s : Survey) (topology : option str) (volume : option PathBuf) (volume_discovery_error : option Failure)
    (artifact : PathBuf) : P (result Failure Transferred) :=
  let fallback context method volume prior :=
    match sv_picotool_target s with
    | None => Ret (Err IdentityRequired)
    | Some target =>
        loaded <~? load_with_managed_picotool artifact target context (picotool_timeout self) FallbackMode;
        Ret (Ok (loaded_by_picotool loaded method volume prior))
    end in
  match volume with
  | Some volume =>
      transfer <~ mass_storage s volume artifact;
      match transfer with
      | Ok t => Ret (Ok (written_to_volume t (&"BOOTSEL mass-storage") None))
      | Err failure =>
          let context := InContext (mf_error failure) (Some (mf_attempts failure)) topology in
          fallback context (&"managed picotool fallback") (Some (mf_volume failure)) (Some (PriorMassStorage context))
      end
  | None =>
      match volume_discovery_error with
      | None => Stop
      | Some error => fallback (InContext error None topology) (&"managed picotool (BOOTSEL volume never mounted)") None None
      end
  end.

(** The arm of [Rp2040Transport::Picotool]. *)
Definition picotool_transport (s : Survey) (topology : option str) (volume : option PathBuf) (volume_discovery_error : option Failure)
    (artifact : PathBuf) : P (result Failure Transferred) :=
  match sv_picotool_target s with
  | None => Ret (Err IdentityRequired)
  | Some target =>
      attempted <~ attempt_picotool_primary artifact target (picotool_timeout self);
      match attempted with
      | Ok loaded => Ret (Ok (loaded_by_picotool loaded (&"PICOBOOT (managed picotool)") volume None))
      | Err picotool_error =>
          match volume with
          | Some volume =>
              transfer <~ mass_storage s volume artifact;
              match transfer with
              | Ok t => Ret (Ok (written_to_volume t (&"BOOTSEL mass-storage (picotool fallback)") (Some (PriorPicotool picotool_error))))
              | Err failure =>
                  let context := InContext (mf_error failure) (Some (mf_attempts failure)) topology in
                  Ret (Err (BothFailed PicotoolPrimary context picotool_error))
              end
          | None =>
              let context := InContext (default NeverMounted volume_discovery_error) None topology in
              Ret (Err (BothFailed PicotoolPrimary context picotool_error))
          end
      end
  end.

Definition effective_transport (s : Survey) : Rp2040Transport :=
  match sv_picotool_target s with None => Uf2Drive | Some _ => deploy_transport self end.

Definition transfer (s : Survey) (topology : option str) (r : ApplicationRebootRecovery) (firmware_path : PathBuf) :
    P (result Failure (Uf2Target * Transferred)) :=
  '(artifact, uf2_target) <~? prepare_uf2_artifact firmware_path (family_id self);
  t <~? (match effective_transport s with
         | Uf2Drive => uf2_transport s topology (ar_volume r) (ar_volume_discovery_error r) artifact
         | Picotool => picotool_transport s topology (ar_volume r) (ar_volume_discovery_error r) artifact
         end);
  Ret (Ok (uf2_target, t)).

(** ** Did the board take it? *)

Definition confirm (s : Survey) (application_reboot_succeeded : bool) (uf2_target : Uf2Target) (t : Transferred) :
    P (result Failure DeploymentResult) :=
  let transfer_method := if application_reboot_succeeded
    then tf_method t ++ &" after target-bound application reset-interface reboot" else tf_method t in
  _ <~? (match tf_volume t with
         | None => Ret (Ok tt)
         | Some volume =>
             ejected <~ wait_for_volume_disappearance volume (post_deploy_timeout self);
             match ejected with
             | Ok _ => Ret (Ok tt)
             | Err eject_error =>
                 diagnostic <~ probe_uf2_rejection_info PICOTOOL_INFO_PROBE_TIMEOUT;
                 Ret (Err (format_eject_failure eject_error (tf_prior_failure t)
                             (match diagnostic with Ok d => Some d | Err _ => None end)))
             end
         end);
  if decide (uf2_target = Ram) then Ret (Ok (ram_load_result (tf_volume t) transfer_method (tf_stdout t) (tf_stderr t)))
  else
    let recovery_port := target_port <$> sv_runtime_target s in
    let recovery_serial := or_else (sv_runtime_target s ≫= target_serial) (sv_requested_serial s) in
    wait_result <~ wait_for_cdc_port (sv_installed s) recovery_port recovery_serial (sv_ports_before s) (family_id self)
                     (post_deploy_timeout self);
    let flash_confirmed := bool_decide (is_Some (tf_volume t)) || tf_picotool_confirmed t in
    let location := describe_transfer_location (tf_volume t) in
    let deployed := &"firmware deployed to RP2040 via " ++ transfer_method ++ &" (" ++ location ++ &")" in
    cdc <~? Ret (resolve_post_flash_cdc flash_confirmed wait_result (post_deploy_timeout self));
    let '(message, port) := match cdc with Confirmed port => (deployed, Some port) | Unconfirmed note => (deployed ++ &"; " ++ note, None) end in
    Ret (Ok {| dr_success := true; dr_message := message; dr_port := port; dr_stdout := tf_stdout t; dr_stderr := tf_stderr t;
               dr_outcome := FullFlash |}).

Definition deploy (firmware_path : PathBuf) (port : option str) : P (result Failure DeploymentResult) :=
  s <~? survey port;
  '(topology, r) <~? enter_bootsel s;
  '(uf2_target, t) <~? transfer s topology r firmware_path;
  confirm s (ar_application_reboot_succeeded r) uf2_target t.
End Deploy.
