(* ===== verification/Rp2040Time.v ===== *)
(** * RP2040 deployment: it comes to an end

    Under a clock that does not go back and sleeps that take their time, no
    loop of the deployment runs out of its turns, and none of its
    expectations fails. *)
From S2P Require Import Prelude RustStr CachePaths PathBuf NormPath Effects Uf2 Uf2Sound Rp2040Target Rp2040Host Rp2040Deploy.
From S2P Require Fingerprint.
Local Open Scope Z.
Local Open Scope prog_scope.

(** ** The clock *)

(** The earliest time after a request, and what an honest clock answers. *)
Definition tick (t : Z) (o : Obs ev) : Z :=
  match o with
  | Did e x => match e in ev X return X → Z with Now => λ x, x | Sleep d => λ _, t + Z.max 0 d | _ => λ _, t end x
  end.
Definition tick_ok (t : Z) (o : Obs ev) : Prop :=
  match o with
  | Did e x => match e in ev X return X → Prop with Now => λ x, t ≤ x | _ => λ _, True end x
  end.
Fixpoint clocked (t : Z) (tr : list (Obs ev)) : Prop :=
  match tr with [] => True | o :: tr => tick_ok t o ∧ clocked (tick t o) tr end.
Definition after (t : Z) (tr : list (Obs ev)) : Z := foldl tick t tr.

Lemma tick_le t o : tick_ok t o → t ≤ tick t o.
Proof. destruct o as [X e x]. destruct e; cbn; lia. Qed.

Lemma after_le t tr : clocked t tr → t ≤ after t tr.
Proof.
  revert t. induction tr as [|o tr IH]; intros t; cbn; [lia|]. intros [H1 H2]. specialize (IH _ H2).
  apply tick_le in H1. unfold after in IH. lia.
Qed.

Lemma clocked_app t tr tr' : clocked t (tr ++ tr') ↔ clocked t tr ∧ clocked (after t tr) tr'.
Proof. revert t. induction tr as [|o tr IH]; intros t; cbn; [tauto|]. rewrite IH. unfold after. cbn. tauto. Qed.

(** ** Programs that end in time *)

Definition timely {A} (t : Z) (p : P A) (Q : Z → A → Prop) : Prop :=
  wp p (λ tr r, clocked t tr → match r with Cut => True | Stopped => False | Done a => Q (after t tr) a end).
Definition ends {A} (p : P A) (R : A → Prop) : Prop := ∀ t, timely t p (λ _, R).

Lemma timely_ret {A} t (a : A) (Q : Z → A → Prop) : Q t a → timely t (Ret a) Q.
Proof. intros H. by split. Qed.

Lemma timely_trigger {A X} t (e : ev X) (f : X → P A) (Q : Z → A → Prop) :
  (∀ x, tick_ok t (Did e x) → timely (tick t (Did e x)) (f x) Q) → timely t (bind (trigger e) f) Q.
Proof.
  intros H. split; [done|]. intros x. apply wp_execs. intros tr r He [H1 H2].
  exact (proj1 (wp_execs (f x) _) (H x H1) tr r He H2).
Qed.

Lemma timely_bind {A B} t (p : P A) (f : A → P B) (Q : Z → A → Prop) (Q' : Z → B → Prop) :
  timely t p Q → (∀ t' a, t ≤ t' → Q t' a → timely t' (f a) Q') → timely t (bind p f) Q'.
Proof.
  intros Hp Hf. apply wp_bind. eapply wp_mono; [exact Hp|]. intros tr [| |a] Hr; [done|done|].
  apply wp_execs. intros tr' r' He Hc. apply clocked_app in Hc as [Hc Hc'].
  specialize (Hf _ a (after_le _ _ Hc) (Hr Hc)). unfold after. rewrite foldl_app.
  exact (proj1 (wp_execs (f a) _) Hf tr' r' He Hc').
Qed.

Lemma timely_mono {A} t (p : P A) (Q Q' : Z → A → Prop) : timely t p Q → (∀ t' a, Q t' a → Q' t' a) → timely t p Q'.
Proof. intros H HQ. eapply wp_mono; [exact H|]. intros tr [| |a] Hr Hc; [done|by apply Hr|apply HQ; by apply Hr]. Qed.

Lemma ends_ret {A} (a : A) (R : A → Prop) : R a → ends (Ret a) R.
Proof. intros H t. by apply timely_ret. Qed.

Lemma ends_trigger {A X} (e : ev X) (f : X → P A) R : (∀ x, ends (f x) R) → ends (bind (trigger e) f) R.
Proof. intros H t. apply timely_trigger. intros x _. apply H. Qed.

Lemma ends_after {A B} (p : P A) (f : A → P B) (R : A → Prop) (R' : B → Prop) :
  ends p R → (∀ a, R a → ends (f a) R') → ends (bind p f) R'.
Proof. intros Hp Hf t. eapply timely_bind; [apply Hp|]. intros t' a _ Ha. by apply Hf. Qed.

Lemma ends_then {A B} (p : P A) (f : A → P B) (R' : B → Prop) :
  ends p (λ _, True) → (∀ a, ends (f a) R') → ends (bind p f) R'.
Proof. intros Hp Hf. by apply (ends_after p f (λ _, True)). Qed.

Lemma ends_mono {A} (p : P A) (R R' : A → Prop) : ends p R → (∀ a, R a → R' a) → ends p R'.
Proof. intros H HR t. eapply timely_mono; [apply H|]. auto. Qed.

Lemma ends_on_ok {F A B} (k : A → P (result F B)) (r : result F A) :
  (∀ a, ends (k a) (λ _, True)) → ends (on_ok k r) (λ _, True).
Proof. destruct r; cbn; [auto|]. intros _. by apply ends_ret. Qed.

Lemma ends_cut_after {A} n (p : P A) R : ends p R → ends (cut_after n p) (λ _, True).
Proof.
  intros H t. eapply wp_cut_after; [exact (H t)| | |]; cbn; tauto.
Qed.

Create HintDb ends.

(** Follows the program; every named part is left to the hints. *)
Ltac follow :=
  repeat match goal with
  | |- ∀ _, _ => intros ?
  | |- ends (Ret _) _ => apply ends_ret; try exact I
  | |- ends (bind (trigger _) _) _ => apply ends_trigger
  | |- ends (trigger _) _ => apply (ends_trigger _ Ret)
  | |- ends (on_ok _ (Ok _)) _ => cbn [on_ok]
  | |- ends (on_ok _ (Err _)) _ => cbn [on_ok]
  | |- ends (on_ok _ _) _ => apply ends_on_ok
  | |- ends (bind (Ret _) _) _ => cbn [bind]
  | |- ends (bind _ _) _ => apply ends_then; [solve [auto with ends] || follow|]
  | |- ends (match ?x with _ => _ end) _ => destruct x
  | |- ends (let _ := _ in _) _ => cbv zeta
  | |- _ => solve [auto with ends]
  end.

Lemma guard_ends {E} (e : option E) f : ends (guard e f) (λ _, True).
Proof. by apply ends_ret. Qed.
Lemma attempt_ends {E A} (p : P (result E A)) f : ends p (λ _, True) → ends (attempt p f) (λ _, True).
Proof. intros H. unfold attempt. follow. Qed.
#[export] Hint Resolve guard_ends attempt_ends : ends.
#[export] Hint Extern 1 (ends (trigger _) _) => by apply (ends_trigger _ Ret) : ends.

(** ** Volumes *)

Section Host.
Context (windows : bool).

Lemma has_uf2_marker_ends path : ends (has_uf2_marker path) (λ _, True).
Proof. unfold has_uf2_marker. follow. Qed.
#[local] Hint Resolve has_uf2_marker_ends : ends.

Lemma scan_entries_ends l m : ends (scan_entries l m) (λ _, True).
Proof. revert m. induction l as [|p l IH]; intros m; cbn [scan_entries]; follow. Qed.
#[local] Hint Resolve scan_entries_ends : ends.

Lemma scan_roots_ends l m : ends (scan_roots l m) (λ _, True).
Proof. revert m. induction l as [|p l IH]; intros m; cbn [scan_roots]; follow. Qed.
#[local] Hint Resolve scan_roots_ends : ends.

Lemma mounted_volumes_ends : ends (mounted_volumes windows) (λ _, True).
Proof. unfold mounted_volumes, volume_roots, find_uf2_volumes. follow. Qed.
#[local] Hint Resolve mounted_volumes_ends : ends.

(** ** Loops that poll *)

Lemma turns_enough timeout : ∃ n, turns timeout = S n ∧ timeout ≤ Z.of_nat n * POLL.
Proof.
  exists (S (Z.to_nat (timeout / POLL))). split; [unfold turns; lia|].
  pose proof (Z.mod_pos_bound timeout POLL ltac:(done)). pose proof (Z.div_mod timeout POLL ltac:(done)).
  assert (0 < POLL) by done. nia.
Qed.

Lemma find_loop_timely n scan try_mount deadline attempted t :
  ends scan (λ _, True) → ends try_mount (λ _, True) → deadline ≤ t + Z.of_nat n * POLL →
  timely t (find_loop (S n) scan try_mount deadline attempted) (λ _ _, True).
Proof.
  intros Hs Hm. revert attempted t. induction n as [|n IH]; intros attempted t Hd; cbn [find_loop].
  all: eapply timely_bind; [apply Hs|]; intros t1 [[found|]|e] H1 _; cbn [on_ok]; [by apply timely_ret| |by apply timely_ret].
  all: eapply timely_bind; [destruct attempted; [by apply (timely_ret t1 true (λ _ _, True))|apply Hm]|].
  all: intros t2 mounted H2 _; apply timely_trigger; intros now Hnow; cbn in Hnow.
  - rewrite (proj2 (Z.leb_le _ _)) by lia. by apply timely_ret.
  - destruct (Z.leb_spec deadline now); [by apply timely_ret|]. apply timely_trigger. intros [] _. cbn [tick].
    apply IH. assert (0 ≤ POLL) by done. lia.
Qed.

Lemma find_uf2_volume_until_ends timeout before : ends (find_uf2_volume_until windows timeout before) (λ _, True).
Proof.
  intros t. apply timely_trigger. intros now Hnow. cbn [tick]. destruct (turns_enough timeout) as (n & -> & Hn).
  apply find_loop_timely; [unfold scan_appeared; follow|unfold try_mount_rom_device; follow|lia].
Qed.

Lemma gone_loop_timely n volume deadline t : deadline ≤ t + Z.of_nat n * POLL →
  timely t (gone_loop (S n) volume deadline) (λ _ _, True).
Proof.
  revert t. induction n as [|n IH]; intros t Hd; cbn [gone_loop].
  all: apply timely_trigger; intros now Hnow; cbn in Hnow; cbn [tick].
  - rewrite (proj2 (Z.ltb_ge _ _)) by lia. by apply timely_ret.
  - destruct (Z.ltb_spec now deadline); [|by apply timely_ret].
    eapply timely_bind; [apply has_uf2_marker_ends|]. intros t1 [|] H1 _; [|by apply timely_ret].
    apply timely_trigger. intros [] _. cbn [tick]. apply IH. assert (0 ≤ POLL) by done. lia.
Qed.

Lemma wait_for_volume_disappearance_ends volume timeout : ends (wait_for_volume_disappearance volume timeout) (λ _, True).
Proof.
  intros t. apply timely_trigger. intros now Hnow. cbn [tick]. destruct (turns_enough timeout) as (n & -> & Hn).
  apply gone_loop_timely. lia.
Qed.
#[local] Hint Resolve find_uf2_volume_until_ends wait_for_volume_disappearance_ends : ends.

Lemma touch_1200bps_ends port : ends (touch_1200bps port) (λ _, True).
Proof. unfold touch_1200bps. follow. Qed.

(** ** The image and its transfer *)

Lemma reject_older_ends uf2 m l : ends (reject_older uf2 m l) (λ _, True).
Proof. induction l as [|ext l IH]; cbn [reject_older]; follow. Qed.
#[local] Hint Resolve reject_older_ends : ends.

Lemma check_image_ends family artifact uf2 : ends (check_image family artifact uf2) (λ _, True).
Proof.
  unfold check_image. pose proof (validate_uf2_total family uf2). destruct (validate_uf2 family uf2) as [[t|e]|]; [follow..|done].
Qed.
#[local] Hint Resolve check_image_ends : ends.

Lemma prepare_uf2_artifact_ends firmware family : ends (prepare_uf2_artifact firmware family) (λ _, True).
Proof. unfold prepare_uf2_artifact, reject_stale_uf2. follow. Qed.

Lemma write_all_ends fuel destination bytes n : (length bytes ≤ fuel)%nat → ends (write_all fuel destination bytes n) (λ _, True).
Proof.
  revert bytes n. induction fuel as [|fuel IH]; intros [|b bytes] n Hf; cbn [write_all]; [follow|cbn in Hf; lia|follow|].
  apply ends_trigger. intros [[|k]|e]; [follow| |follow]. apply IH. rewrite length_drop. cbn in *. lia.
Qed.

Lemma copy_prepared_uf2_ends artifact volume : ends (copy_prepared_uf2 artifact volume) (λ _, True).
Proof.
  assert (∀ a d, ends (write_uf2_artifact_direct a d) (λ _, True)).
  { intros a d. unfold write_uf2_artifact_direct, write_uf2_bytes. follow. by apply write_all_ends. }
  unfold copy_prepared_uf2, copy_uf2_artifact_with. follow.
Qed.

Lemma transfer_loop_ends fuel max copy gone rediscover volume attempts :
  (∀ v, ends (copy v) (λ _, True)) → (∀ v, ends (gone v) (λ _, True)) → ends rediscover (λ _, True) →
  (max < fuel + attempts)%nat → (attempts < fuel + attempts)%nat →
  ends (transfer_loop fuel max copy gone rediscover volume attempts) (λ _, True).
Proof.
  intros Hc Hg Hr. revert volume attempts. induction fuel as [|fuel IH]; intros volume attempts Hm Ha; cbn [transfer_loop]; [lia|].
  apply ends_then; [done|]. intros [d|e]; [follow|]. destruct (Nat.leb_spec max (S attempts)).
  - cbn [bind negb should_attempt_picotool_first]. follow.
  - apply ends_then; [done|]. intros [|]; [|follow]. apply ends_then; [done|]. intros [[next|]|e']; [|follow..].
    apply IH; lia.
Qed.

Lemma run_mass_storage_transfer_ends volume artifact bt budget before :
  ends (run_mass_storage_transfer windows volume artifact bt budget before) (λ _, True).
Proof.
  apply transfer_loop_ends; [|follow..|unfold UF2_TRANSFER_ATTEMPTS; lia|unfold UF2_TRANSFER_ATTEMPTS; lia].
  intros v. unfold run_with_watchdog. apply ends_trigger. intros [n|]; [|apply copy_prepared_uf2_ends].
  apply ends_then; [|follow]. apply (ends_cut_after n _ (λ _, True)), copy_prepared_uf2_ends.
Qed.
End Host.
#[export] Hint Resolve has_uf2_marker_ends mounted_volumes_ends find_uf2_volume_until_ends wait_for_volume_disappearance_ends
  touch_1200bps_ends prepare_uf2_artifact_ends run_mass_storage_transfer_ends : ends.

(** ** The wait for the port *)

Lemma cdc_turn_timely t catalogue probe prev serial before last_error
    (next : list PicoCdcPort → option str → P (result CdcWaitError PicoCdcPort)) :
  ends catalogue (λ _, True) → (∀ p, ends (probe p) (λ _, True)) → (∀ t' ports le, t ≤ t' → timely t' (next ports le) (λ _ _, True)) →
  timely t (cdc_turn prev serial before catalogue probe last_error next) (λ _ _, True).
Proof.
  intros Hc Hp Hnext. unfold cdc_turn. eapply timely_bind; [apply Hc|]. intros t1 [ports|e] H1 _; [|by apply timely_ret].
  destruct (select_cdc_candidate _ _ _ _) as [[sel|]|e]; [|by apply Hnext|by apply timely_ret].
  eapply timely_bind; [apply Hp|]. intros t2 [?|?] H2 _; [by apply timely_ret|]. apply Hnext. lia.
Qed.

Lemma cdc_loop_timely n prev serial before timeout catalogue probe started last_error t :
  ends catalogue (λ _, True) → (∀ p, ends (probe p) (λ _, True)) → timeout ≤ t - started + Z.of_nat n * POLL →
  timely t (cdc_loop (S n) prev serial before timeout catalogue probe (now <~ trigger Now; Ret (now - started)) last_error)
    (λ _ _, True).
Proof.
  intros Hc Hp. revert last_error t. induction n as [|n IH]; intros last_error t Ht.
  all: cbn [cdc_loop]; apply cdc_turn_timely; [done|done|].
  all: intros t' ports le Hle; apply timely_trigger; intros now Hnow; cbn in Hnow; cbn [bind tick].
  - rewrite (proj2 (Z.leb_le _ _)) by lia. by apply timely_ret.
  - destruct (Z.leb_spec timeout (now - started)); [by apply timely_ret|]. apply timely_trigger. intros [] _. cbn [tick].
    apply IH. unfold saturating_sub, CDC_POLL_INTERVAL, POLL in *. assert (0 ≤ millis 100) by done. lia.
Qed.

Lemma wait_for_cdc_port_ends installed prev serial before family timeout :
  ends (wait_for_cdc_port installed prev serial before family timeout) (λ _, True).
Proof.
  intros t. apply timely_trigger. intros now Hnow. cbn [tick]. destruct (turns_enough timeout) as (n & -> & Hn).
  apply cdc_loop_timely; [unfold catalogue_pico_cdc_ports; follow|unfold probe_cdc_openable; follow|lia].
Qed.
#[export] Hint Resolve wait_for_cdc_port_ends : ends.

Lemma recovery_loop_timely n port deadline t : deadline ≤ t + Z.of_nat n * POLL →
  timely t (recovery_loop (S n) port deadline) (λ _ _, True).
Proof.
  revert t. induction n as [|n IH]; intros t Hd; cbn [recovery_loop].
  all: apply timely_trigger; intros now Hnow; cbn in Hnow; cbn [tick].
  - rewrite (proj2 (Z.ltb_ge _ _)) by lia. by apply timely_ret.
  - destruct (Z.ltb_spec now deadline); [|by apply timely_ret]. apply timely_trigger. intros [e|] _; [|by apply timely_ret].
    apply timely_trigger. intros [] _. cbn [tick]. apply IH. assert (0 ≤ POLL) by done. lia.
Qed.

Lemma post_deploy_recovery_ends self port : ends (post_deploy_recovery self port) (λ _, True).
Proof.
  intros t. apply timely_trigger. intros now Hnow. cbn [tick].
  destruct (turns_enough (post_deploy_timeout self)) as (n & -> & Hn). apply recovery_loop_timely. lia.
Qed.

(** ** The deployment *)

Section Deploy.
Context (windows : bool) (picotool : PathBuf) (self : Rp2040Deployer).

Lemma survey_ends port : ends (survey windows self port) (λ _, True).
Proof.
  unfold survey, ensure_verified_usb_profiles, catalogue_pico_cdc_ports, choose_volumes, explicit_uf2_volume, catalogue_pico_reset_interfaces.
  follow.
Qed.

(** A volume that was not found comes with the reason. *)
Definition explained (r : ApplicationRebootRecovery) : Prop := ar_volume r = None → ar_volume_discovery_error r ≠ None.

Lemma touch_and_discover_ends s : ends (touch_and_discover windows self s)
  (λ r, match r with Ok (v, e) => v = None → e ≠ None | Err _ => True end).
Proof.
  unfold touch_and_discover. apply ends_then; [follow|]. intros reset_error.
  destruct (sv_volume_before_reset s); [by apply ends_ret|]. apply ends_then; [auto with ends|].
  intros [found|e]; [|by apply ends_ret]. apply ends_ret. by destruct found, reset_error.
Qed.

Lemma recovery_ends {T} (target : option T) volume error bt reboot discover :
  (volume = None → error ≠ None) → (∀ t, ends (reboot t) (λ _, True)) → ends discover (λ _, True) →
  ends (run_application_reboot_recovery target volume error bt reboot discover)
    (λ r, match r with Ok r => explained r | Err _ => True end).
Proof.
  intros He Hr Hd. unfold run_application_reboot_recovery. destruct target as [t|]; [|by apply ends_ret].
  apply ends_then; [apply Hr|]. intros [l|e]; [|by apply ends_ret].
  apply ends_then; [by apply attempt_ends|]. intros [d|e]; [|by apply ends_ret].
  apply ends_ret. by destruct d.
Qed.

Lemma enter_bootsel_ends s : ends (enter_bootsel windows picotool self s)
  (λ r, match r with Ok (_, r) => explained r | Err _ => True end).
Proof.
  unfold enter_bootsel, describe_port_topology. apply ends_then; [follow|]. intros topology.
  eapply ends_after; [apply touch_and_discover_ends|]. intros [[v e]|e] Hv; [|by apply ends_ret].
  cbn [on_ok bind]. destruct (native_reset_target windows s v) as [native|]; [|by apply ends_ret]. cbn [bind on_ok].
  eapply ends_after; [apply recovery_ends; [exact Hv|unfold request_reboot, reboot_runtime_to_bootsel, ensure_installed, run_command; follow|auto with ends]|].
  intros [r|e'] Hr; by apply ends_ret.
Qed.

Lemma load_ends artifact target context timeout mode : ends (load_with_managed_picotool picotool artifact target context timeout mode) (λ _, True).
Proof. unfold load_with_managed_picotool, ensure_installed, run_command. follow. Qed.
#[local] Hint Resolve load_ends : ends.

Lemma attempt_picotool_primary_ends artifact target timeout : ends (attempt_picotool_primary windows picotool artifact target timeout) (λ _, True).
Proof.
  unfold attempt_picotool_primary, probe_picotool_info, ensure_installed, run_command. destruct windows.
  - apply ends_trigger. intros devices. cbn [bind].
    destruct (classify_picoboot_preflight devices target); cbn [negb should_attempt_picotool_first]; follow.
  - cbn [bind negb should_attempt_picotool_first]. follow.
Qed.
#[local] Hint Resolve attempt_picotool_primary_ends : ends.

Lemma transfer_ends s topology r firmware : explained r → ends (transfer windows picotool self s topology r firmware) (λ _, True).
Proof.
  intros He. unfold transfer. apply ends_then; [auto with ends|]. intros [[artifact t]|e]; [|by apply ends_ret].
  cbn [on_ok]. apply ends_then; [|follow]. destruct (effective_transport _ _); unfold picotool_transport, uf2_transport, mass_storage; [follow|].
  destruct (ar_volume r) eqn:Ev; [follow|]. destruct (ar_volume_discovery_error r) eqn:E; [follow|]. by destruct (He Ev).
Qed.

Lemma confirm_ends s b t tf : ends (confirm picotool self s b t tf) (λ _, True).
Proof. unfold confirm, probe_uf2_rejection_info, run_command. follow. Qed.

Lemma deploy_ends firmware port : ends (deploy windows picotool self firmware port) (λ _, True).
Proof.
  unfold deploy. apply ends_then; [apply survey_ends|]. intros [s|e]; [|follow].
  eapply ends_after; [apply enter_bootsel_ends|]. intros [[topology r]|e] Hr; [|follow].
  apply ends_then; [by apply transfer_ends|]. intros [[t tf]|e]; [apply confirm_ends|follow].
Qed.

(** C28: a deployment ends.  On a host whose clock does not go back and whose
    sleeps take their time, every wait of the deployment runs into its
    deadline, however the devices behave: it returns a result or an error,
    and none of its expectations fails. *)
Theorem deploy_returns {S} (host : ∀ X, ev X → S → X * S) firmware port s t :
  clocked t (run host (deploy windows picotool self firmware port) s).1.1 →
  ∃ r, (run host (deploy windows picotool self firmware port) s).1.2 = Done r.
Proof.
  pose proof (deploy_ends firmware port t) as Hd. pose proof (run_not_cut host (deploy windows picotool self firmware port) s) as Hn.
  revert Hd Hn. generalize (deploy windows picotool self firmware port). intros p Hd Hn Hc.
  destruct (run host p s) as [[tr r] s'] eqn:E. cbn in Hn, Hc. cbn.
  pose proof (proj1 (wp_execs _ _) Hd tr r (run_execs _ _ _ _ _ _ E) Hc) as Hr. destruct r as [| |r]; [done|done|by eexists].
Qed.
End Deploy.
