(* ===== verification/Rp2040Acts.v ===== *)
(** * RP2040 deployment: what it does to devices

    Which of its requests touch a port, reset a board, write to a volume or run
    a tool, for every part of the deployment, with what the parts return. *)
From S2P Require Import Prelude RustStr CachePaths PathBuf NormPath Effects Uf2 Rp2040Target Rp2040Host Rp2040Deploy.
From S2P Require Fingerprint.
Local Open Scope Z.
Local Open Scope prog_scope.

(** What a request does: open a port to touch it, set its line or its rate;
    reset a board through an interface; write to a file on a volume; run a
    tool; or nothing of these. *)
Inductive Act := Mute | Touch (port : str) | Resetting (interface : UsbResetInterface) | Writing (destination : PathBuf) | Running (args : list Arg).
Definition act (o : Obs ev) : Act :=
  match o with
  | Did e _ =>
      match e with
      | OpenSerial port baud => if decide (baud = 9600) then Touch port else Mute
      | WriteDtr port _ | SetBaud port _ => Touch port
      | ResetToBootsel interface => Resetting interface
      | OpenShared d | WriteTo d _ | Flush d => Writing d
      | RunCommand args _ => Running args
      | _ => Mute
      end
  end.

Definition acts {A} (K : Act → Prop) (p : P A) (Q : A → Prop) : Prop := safe (λ o, K (act o)) p Q.

Definition anything {A} (a : A) : Prop := True.

Section Rules.
Context (K : Act → Prop).

Lemma acts_ret {A} (a : A) (Q : A → Prop) : Q a → acts K (Ret a) Q.
Proof. apply safe_ret. Qed.

Lemma acts_trigger {A X} (e : ev X) (f : X → P A) Q :
  (∀ x, K (act (Did e x))) → (∀ x, acts K (f x) Q) → acts K (bind (trigger e) f) Q.
Proof. intros He Hf. apply safe_trigger. intros x. split; [apply He|apply Hf]. Qed.

Lemma acts_bind {A B} (p : P A) (f : A → P B) (Q : A → Prop) (Q' : B → Prop) :
  acts K p Q → (∀ a, Q a → acts K (f a) Q') → acts K (bind p f) Q'.
Proof. apply safe_bind. Qed.

Lemma acts_then {A B} (p : P A) (f : A → P B) (Q' : B → Prop) :
  acts K p anything → (∀ a, acts K (f a) Q') → acts K (bind p f) Q'.
Proof. intros Hp Hf. eapply acts_bind; [exact Hp|]. auto. Qed.

Lemma acts_mono {A} (p : P A) (Q Q' : A → Prop) : acts K p Q → (∀ a, Q a → Q' a) → acts K p Q'.
Proof. apply safe_mono. Qed.

Lemma acts_stop {A} (Q : A → Prop) : acts K Stop Q.
Proof. apply safe_stop. Qed.

Lemma acts_on_ok {F A B} (k : A → P (result F B)) (r : result F A) :
  (∀ a, acts K (k a) anything) → acts K (on_ok k r) anything.
Proof. intros H. destruct r as [a|e]; [exact (H a)|by apply acts_ret]. Qed.
End Rules.

Lemma acts_weaken {A} (K K' : Act → Prop) (p : P A) Q : acts K p Q → (∀ a, K a → K' a) → acts K' p Q.
Proof. intros H HK. eapply safe_weaken; [exact H|]. auto. Qed.

Create HintDb acts.

(** Follows the program as [follow] does; every request must be allowed. *)
Ltac pace :=
  repeat match goal with
  | |- ∀ _, _ => intros ?
  | |- acts _ (Ret _) _ => apply acts_ret; try exact I
  | |- acts _ Stop _ => apply acts_stop
  | |- acts _ (bind (trigger _) _) _ => apply acts_trigger; [intros ?; cbn; solve [auto with acts]|]
  | |- acts _ (on_ok _ (Ok _)) _ => cbn [on_ok]
  | |- acts _ (on_ok _ (Err _)) _ => cbn [on_ok]
  | |- acts _ (on_ok _ _) _ => apply acts_on_ok
  | |- acts _ (bind (Ret _) _) _ => cbn [bind]
  | |- acts _ (bind _ _) _ => apply acts_then; [solve [auto with acts] || pace|]
  | |- acts _ (match ?x with _ => _ end) _ => destruct x
  | |- acts _ (let _ := _ in _) _ => cbv zeta
  | |- _ => solve [auto with acts]
  end.

(** ** Programs that only look *)

Section Looks.
Context (windows : bool) (K : Act → Prop) (Kmute : K Mute).
#[local] Hint Resolve Kmute : acts.

Lemma trigger_mute {X} (e : ev X) : (∀ x, act (Did e x) = Mute) → acts K (trigger e) anything.
Proof. intros H. apply (acts_trigger K e Ret); [intros x; by rewrite H|]. intros x. by apply acts_ret. Qed.

Lemma guard_acts {E} (e : option E) f : acts K (guard e f) anything.
Proof. by apply acts_ret. Qed.

Lemma attempt_acts {E A} (p : P (result E A)) f : acts K p anything → acts K (attempt p f) anything.
Proof. intros H. unfold attempt. pace. Qed.
#[local] Hint Resolve guard_acts attempt_acts : acts.
#[local] Hint Extern 1 (acts K (trigger _) _) => by apply trigger_mute : acts.

Lemma has_uf2_marker_acts path : acts K (has_uf2_marker path) anything.
Proof. unfold has_uf2_marker. pace. Qed.
#[local] Hint Resolve has_uf2_marker_acts : acts.

Lemma scan_entries_acts l m : acts K (scan_entries l m) anything.
Proof. revert m. induction l as [|p l IH]; intros m; cbn [scan_entries]; pace. Qed.
#[local] Hint Resolve scan_entries_acts : acts.

Lemma scan_roots_acts l m : acts K (scan_roots l m) anything.
Proof. revert m. induction l as [|p l IH]; intros m; cbn [scan_roots]; pace. Qed.
#[local] Hint Resolve scan_roots_acts : acts.

Lemma mounted_volumes_acts : acts K (mounted_volumes windows) anything.
Proof. unfold mounted_volumes, volume_roots, find_uf2_volumes. pace. Qed.
#[local] Hint Resolve mounted_volumes_acts : acts.

(** A volume found after the touch is none of those before it. *)
Definition appeared (before : gset PathBuf) (r : result Failure (option PathBuf)) : Prop :=
  ∀ v, r = Ok (Some v) → v ∉ before.

Lemma select_appeared_volume_new before l : appeared before (select_appeared_volume before l).
Proof.
  intros v. unfold select_appeared_volume, select_single_uf2_volume. destruct (1 <? _)%nat; [done|]. intros [= Hv].
  apply last_Some_elem_of in Hv. by apply list_elem_of_filter in Hv as [? _].
Qed.

Lemma find_loop_acts fuel scan try_mount deadline attempted before :
  acts K scan (appeared before) → acts K try_mount anything → acts K (find_loop fuel scan try_mount deadline attempted) (appeared before).
Proof.
  intros Hs Hm. revert attempted. induction fuel as [|fuel IH]; intros attempted; cbn [find_loop]; [apply acts_stop|].
  eapply acts_bind; [exact Hs|]. intros [[found|]|e] Hf; cbn [on_ok]; [by apply acts_ret| |by apply acts_ret].
  apply acts_then; [by destruct attempted; [apply acts_ret|]|]. intros a. apply acts_trigger; [done|]. intros now.
  destruct (deadline <=? now); [by apply acts_ret|]. apply acts_trigger; [done|]. intros _. apply IH.
Qed.

Lemma find_uf2_volume_until_acts timeout before : acts K (find_uf2_volume_until windows timeout before) (appeared before).
Proof.
  apply acts_trigger; [done|]. intros now. apply find_loop_acts; [|unfold try_mount_rom_device; pace].
  unfold scan_appeared. apply acts_then; [apply mounted_volumes_acts|]. intros l. apply acts_ret, select_appeared_volume_new.
Qed.

Lemma gone_loop_acts fuel volume deadline : acts K (gone_loop fuel volume deadline) anything.
Proof. induction fuel as [|fuel IH]; cbn [gone_loop]; pace. Qed.

Lemma wait_for_volume_disappearance_acts volume timeout : acts K (wait_for_volume_disappearance volume timeout) anything.
Proof. apply acts_trigger; [done|]. intros now. apply gone_loop_acts. Qed.

Lemma reject_older_acts uf2 m l : acts K (reject_older uf2 m l) anything.
Proof. induction l as [|ext l IH]; cbn [reject_older]; pace. Qed.
#[local] Hint Resolve reject_older_acts : acts.

Lemma prepare_uf2_artifact_acts firmware family : acts K (prepare_uf2_artifact firmware family) anything.
Proof. unfold prepare_uf2_artifact, reject_stale_uf2, check_image. pace. Qed.

Lemma cdc_loop_acts fuel prev serial before timeout catalogue probe elapsed last_error :
  acts K catalogue anything → (∀ p, acts K (probe p) anything) → acts K elapsed anything →
  acts K (cdc_loop fuel prev serial before timeout catalogue probe elapsed last_error) anything.
Proof. intros Hc Hp He. revert last_error. induction fuel as [|fuel IH]; intros le; cbn [cdc_loop]; unfold cdc_turn; pace. Qed.

Lemma wait_for_cdc_port_acts installed prev serial before family timeout :
  acts K (wait_for_cdc_port installed prev serial before family timeout) anything.
Proof.
  apply acts_trigger; [done|]. intros now. apply cdc_loop_acts; [unfold catalogue_pico_cdc_ports|unfold probe_cdc_openable|]; pace.
Qed.
End Looks.
#[export] Hint Resolve guard_acts attempt_acts has_uf2_marker_acts mounted_volumes_acts wait_for_volume_disappearance_acts
  prepare_uf2_artifact_acts wait_for_cdc_port_acts : acts.
#[export] Hint Extern 1 (acts _ (trigger _) _) => apply trigger_mute; [assumption|done] : acts.

Lemma acts_cut_after {A} K n (p : P A) Q : acts K p Q → acts K (cut_after n p) anything.
Proof. intros H. eapply safe_mono; [exact (safe_cut_after _ n p Q H)|done]. Qed.

Lemma touch_1200bps_acts K port : K Mute → K (Touch port) → acts K (touch_1200bps port) anything.
Proof. intros Km Kt. unfold touch_1200bps. pace. Qed.

(** ** Writing to volumes *)

Section Writes.
Context (windows : bool) (K : Act → Prop) (Kmute : K Mute).
Context (fresh : PathBuf → Prop) (Kwrite : ∀ v, fresh v → K (Writing (new_uf2 v))).
Context (before : gset PathBuf) (Hbefore : ∀ v, v ∉ before → fresh v).
#[local] Hint Resolve Kmute Kwrite : acts.

Lemma write_all_acts fuel destination bytes n : K (Writing destination) → acts K (write_all fuel destination bytes n) anything.
Proof. intros H. revert bytes n. induction fuel as [|fuel IH]; intros bytes n; cbn [write_all]; pace. Qed.
#[local] Hint Resolve write_all_acts : acts.

Lemma write_direct_acts artifact destination : K (Writing destination) → acts K (write_uf2_artifact_direct artifact destination) anything.
Proof. intros H. unfold write_uf2_artifact_direct, write_uf2_bytes. pace. Qed.
#[local] Hint Resolve write_direct_acts : acts.

Lemma copy_prepared_uf2_acts artifact volume : fresh volume → acts K (copy_prepared_uf2 artifact volume) anything.
Proof. intros H. unfold copy_prepared_uf2, copy_uf2_artifact_with. pace. Qed.

Lemma transfer_loop_acts fuel max copy gone rediscover volume attempts :
  (∀ v, fresh v → acts K (copy v) anything) → (∀ v, acts K (gone v) anything) → acts K rediscover (appeared before) → fresh volume →
  acts K (transfer_loop fuel max copy gone rediscover volume attempts) anything.
Proof.
  intros Hc Hg Hr. revert volume attempts. induction fuel as [|fuel IH]; intros volume attempts Hv; cbn [transfer_loop]; [apply acts_stop|].
  apply acts_then; [by apply Hc|]. intros [d|e]; [by apply acts_ret|].
  apply acts_then; [destruct (max <=? S attempts)%nat; [by apply acts_ret|apply Hg]|]. intros [|]; [|by apply acts_ret].
  eapply acts_bind; [exact Hr|]. intros [[next|]|e'] Hn; [|by apply acts_ret..]. apply IH, Hbefore, Hn. done.
Qed.

Lemma run_mass_storage_transfer_acts volume artifact bt budget : fresh volume →
  acts K (run_mass_storage_transfer windows volume artifact bt budget before) anything.
Proof.
  intros Hv. apply transfer_loop_acts; [|pace|by apply find_uf2_volume_until_acts|done].
  intros v Hf. unfold run_with_watchdog. apply acts_trigger; [done|]. intros [n|]; [|by apply copy_prepared_uf2_acts].
  apply acts_then; [|pace]. by eapply acts_cut_after, copy_prepared_uf2_acts.
Qed.
End Writes.

(** ** The parts of the deployment *)

Section Deploy.
Context (windows : bool) (picotool : PathBuf) (self : Rp2040Deployer).

Lemma survey_acts port K : K Mute → acts K (survey windows self port) anything.
Proof.
  intros Kmute. unfold survey, ensure_verified_usb_profiles, catalogue_pico_cdc_ports, choose_volumes, explicit_uf2_volume,
    catalogue_pico_reset_interfaces. pace.
Qed.

(** The tools the deployment runs for a survey. *)
Definition tool_of (s : Survey) (args : list Arg) : Prop :=
  (∃ artifact target, sv_picotool_target s = Some target ∧ args = load_args picotool artifact target) ∨
  (∃ target, sv_picotool_target s = Some target ∧ args = info_probe_args picotool target) ∨
  (∃ target, application_target s None = Some target ∧ args = reboot_to_bootsel_args picotool target) ∨
  args = uf2_info_args picotool.

(** The interfaces it resets. *)
Definition reset_of (s : Survey) (i : UsbResetInterface) : Prop :=
  sv_reset_only_target s = Some i ∨
  ∃ target, sv_runtime_target s = Some target ∧ reset_interface_for_runtime_target target (sv_reset_interfaces s) = Ok (Some i).

(** A volume a survey allows to write to. *)
Definition writable (s : Survey) (v : PathBuf) : Prop := sv_volume_before_reset s = Some v ∨ v ∉ sv_volumes_before s.

(** What follows the survey may do at least what it needs, but for the touch. *)
Record allows (s : Survey) (K : Act → Prop) : Prop := {
  allows_mute : K Mute;
  allows_write : ∀ v, writable s v → K (Writing (new_uf2 v));
  allows_run : ∀ args, tool_of s args → K (Running args);
  allows_reset : ∀ i, reset_of s i → K (Resetting i);
}.

Section Rest.
Context (s : Survey) (K : Act → Prop) (Kall : allows s K).
Let Kmute : K Mute := allows_mute s K Kall.
Let Kwrite : ∀ v, writable s v → K (Writing (new_uf2 v)) := allows_write s K Kall.
Let Krun : ∀ args, tool_of s args → K (Running args) := allows_run s K Kall.
#[local] Hint Resolve Kmute : acts.

(** The volume is one the survey allows. *)
Definition good_volume (o : option PathBuf) : Prop := ∀ v, o = Some v → writable s v.

Lemma touch_and_discover_acts : (∀ t, sv_runtime_target s = Some t → acts K (touch_1200bps (target_port t)) anything) →
  acts K (touch_and_discover windows self s) (λ r, match r with Ok (v, _) => good_volume v | Err _ => True end).
Proof.
  intros Ht. unfold touch_and_discover. apply acts_then.
  { destruct (sv_runtime_target s) as [t|]; [|by apply acts_ret]. apply acts_then; [by apply Ht|]. pace. }
  intros reset_error. destruct (sv_volume_before_reset s) as [v|] eqn:E.
  { apply acts_ret. intros ? [= <-]. by left. }
  eapply acts_bind; [by apply find_uf2_volume_until_acts|]. intros [found|e] Hf; [|by apply acts_ret].
  apply acts_ret. destruct found as [v|]; [|by destruct reset_error]. intros ? [= <-]. right. by apply Hf.
Qed.

Lemma native_reset_of volume native : native_reset_target windows s volume = Ok native → ∀ i, native = Some i → reset_of s i.
Proof.
  unfold native_reset_target. intros H i ->. destruct (_ && _); [|done]. destruct (sv_reset_only_target s) as [j|] eqn:E.
  - injection H as ->. by left.
  - destruct (sv_runtime_target s) as [t|] eqn:Et; [|done]. right. eauto.
Qed.

Lemma request_reboot_acts native target : (∀ i, native = Some i → reset_of s i) → application_target s None = Some target →
  acts K (request_reboot picotool native target) anything.
Proof.
  intros Hn Ht. pose proof (allows_reset s K Kall) as Kreset. assert (K (Running (reboot_to_bootsel_args picotool target))) by (apply Krun; right; right; left; eauto).
  unfold request_reboot, reboot_runtime_to_bootsel, ensure_installed, run_command. destruct native as [i|]; [pose proof (Kreset i (Hn i eq_refl)); pace|].
  apply acts_then; [pace|]. intros [[]|e]; [|pace]. apply acts_then; [|pace]. apply attempt_acts.
  by apply (acts_trigger _ _ Ret); [|intros x; apply acts_ret].
Qed.

Lemma recovery_acts volume error native : good_volume volume → (∀ i, native = Some i → reset_of s i) →
  acts K (run_application_reboot_recovery (application_target s volume) volume error (bootloader_timeout self)
    (request_reboot picotool native) (find_uf2_volume_until windows (bootloader_timeout self) (sv_volumes_before s)))
    (λ r, match r with Ok r => good_volume (ar_volume r) | Err _ => True end).
Proof.
  intros Hv Hn. unfold run_application_reboot_recovery. destruct (application_target s volume) as [t|] eqn:E; [|by apply acts_ret].
  apply acts_then; [apply request_reboot_acts; [done|by destruct volume]|]. intros [l|e]; [|by apply acts_ret].
  unfold attempt. eapply acts_bind; [eapply acts_bind; [by apply find_uf2_volume_until_acts|]|].
  - intros r Hr. apply (acts_ret _ _ (appeared (sv_volumes_before s))). destruct r; [exact Hr|done].
  - intros [d|e] Hd; [|by apply acts_ret]. apply acts_ret. intros v Hd'. right. cbn in Hd'. by apply Hd; rewrite Hd'.
Qed.

Lemma enter_bootsel_acts : (∀ t, sv_runtime_target s = Some t → acts K (touch_1200bps (target_port t)) anything) →
  acts K (enter_bootsel windows picotool self s) (λ r, match r with Ok (_, r) => good_volume (ar_volume r) | Err _ => True end).
Proof.
  intros Ht. unfold enter_bootsel, describe_port_topology. apply acts_then; [pace|]. intros topology.
  eapply acts_bind; [by apply touch_and_discover_acts|]. intros [[v e]|e] Hv; [|by apply acts_ret]. cbn [on_ok bind].
  destruct (native_reset_target windows s v) as [native|] eqn:En; [|by apply acts_ret]. cbn [bind on_ok].
  eapply acts_bind; [apply recovery_acts; [done|by eapply native_reset_of]|]. intros [r|e'] Hr; by apply acts_ret.
Qed.

Lemma run_command_acts args timeout : tool_of s args → acts K (run_command args timeout) anything.
Proof. intros H. apply attempt_acts, (acts_trigger _ _ Ret); [intros x; by apply Krun|]. intros x. by apply acts_ret. Qed.

Lemma load_acts artifact target context timeout mode : sv_picotool_target s = Some target →
  acts K (load_with_managed_picotool picotool artifact target context timeout mode) anything.
Proof.
  intros Ht. unfold load_with_managed_picotool, ensure_installed. apply acts_then; [pace|]. intros [[]|e]; [|pace].
  apply acts_then; [|pace]. apply run_command_acts. left. eauto.
Qed.

Lemma attempt_picotool_primary_acts artifact target timeout : sv_picotool_target s = Some target →
  acts K (attempt_picotool_primary windows picotool artifact target timeout) anything.
Proof.
  intros Ht. unfold attempt_picotool_primary. apply acts_then; [destruct windows; pace|]. intros pre. destruct (negb _); [destruct pre; pace|].
  apply acts_then; [|intros [?|?]; [by apply load_acts|pace]]. unfold probe_picotool_info, ensure_installed.
  apply acts_then; [pace|]. intros [[]|e]; [|pace]. apply acts_then; [|pace]. apply run_command_acts. right. left. eauto.
Qed.

Lemma mass_storage_acts volume artifact : writable s volume → acts K (mass_storage windows self s volume artifact) anything.
Proof. intros Hv. apply (run_mass_storage_transfer_acts _ _ Kmute (writable s)); [done|by right|done]. Qed.

Lemma transfer_acts topology r firmware : good_volume (ar_volume r) → acts K (transfer windows picotool self s topology r firmware) anything.
Proof.
  intros Hv. unfold transfer. apply acts_then; [by apply prepare_uf2_artifact_acts|]. intros [[artifact t]|e]; [|pace].
  cbn [on_ok]. apply acts_then; [|pace]. destruct (effective_transport _ _).
  - unfold picotool_transport. destruct (sv_picotool_target s) as [target|] eqn:E; [|pace].
    apply acts_then; [by apply attempt_picotool_primary_acts|]. intros [l|e]; [pace|].
    destruct (ar_volume r) as [v|]; [|pace]. apply acts_then; [by apply mass_storage_acts, Hv|]. pace.
  - unfold uf2_transport. assert (∀ target c m v p, sv_picotool_target s = Some target → acts K
      (loaded <~? load_with_managed_picotool picotool artifact target c (picotool_timeout self) FallbackMode;
       Ret (Ok (loaded_by_picotool loaded m v p))) anything) as Hl by (intros; apply acts_then; [by apply load_acts|pace]).
    destruct (ar_volume r) as [v|]; [apply acts_then; [by apply mass_storage_acts, Hv|]; intros [x|x]; [pace|]|].
    + destruct (sv_picotool_target s) as [target|] eqn:E; [by apply Hl|pace].
    + destruct (ar_volume_discovery_error r); [|pace]. destruct (sv_picotool_target s) as [target|] eqn:E; [by apply Hl|pace].
Qed.

Lemma confirm_acts b t tf : acts K (confirm picotool self s b t tf) anything.
Proof.
  assert (acts K (probe_uf2_rejection_info picotool PICOTOOL_INFO_PROBE_TIMEOUT) anything).
  { unfold probe_uf2_rejection_info. apply acts_then; [pace|]. intros [|]; [|pace]. apply acts_then; [|pace].
    apply run_command_acts. by repeat right. }
  unfold confirm. pace.
Qed.
End Rest.

(** What follows the survey. *)
Definition flash (firmware_path : PathBuf) (s : Survey) : P (result Failure DeploymentResult) :=
  '(topology, r) <~? enter_bootsel windows picotool self s;
  '(uf2_target, t) <~? transfer windows picotool self s topology r firmware_path;
  confirm picotool self s (ar_application_reboot_succeeded r) uf2_target t.

Lemma after_entry_acts s K firmware topology r : allows s K → good_volume s (ar_volume r) →
  acts K ('(uf2_target, t) <~? transfer windows picotool self s topology r firmware;
          confirm picotool self s (ar_application_reboot_succeeded r) uf2_target t) anything.
Proof.
  intros Ka Hg. apply acts_then; [by apply transfer_acts|]. intros [[t tf]|e]; [by apply confirm_acts|pace].
Qed.

Lemma flash_acts s K firmware : allows s K →
  (∀ t, sv_runtime_target s = Some t → acts K (touch_1200bps (target_port t)) anything) → acts K (flash firmware s) anything.
Proof.
  intros Ka Kt. unfold flash. eapply acts_bind; [by apply enter_bootsel_acts|].
  intros [[topology r]|e] Hg; [by apply after_entry_acts|by apply acts_ret].
Qed.
End Deploy.
