(* ===== verification/Rp2040Safe.v ===== *)
(** * RP2040 deployment: the right board

    A volume that was mounted before the board was touched is not written to,
    and whatever touches, resets or loads a board is bound to the one that the
    selector names. *)
From stdpp Require Import sorting.
From S2P Require Import Prelude RustStr CachePaths PathBuf NormPath DeviceManager UsbProfiles DeployPort Effects Uf2.
From S2P Require Import Rp2040Target Rp2040Host Rp2040Deploy Rp2040Acts.
From S2P Require Fingerprint.
Local Open Scope Z.
Local Open Scope prog_scope.

(** ** What was seen *)

(** A file in the root of a volume. *)
Definition inside (v : PathBuf) (name : str) : PathBuf := v ++ [Normal name].
Definition marker_of (v : PathBuf) : PathBuf := inside v (&"INFO_UF2.TXT").
Definition image_on (v : PathBuf) : PathBuf := inside v (&"NEW.UF2").

(** The text of a marker names a chip of the family, in any case. *)
Definition shows_chip (text : str) : Prop := ∃ a m b, text = a ++ m ++ b ∧ to_ascii_uppercase m = &"RP2".

(** The request read the marker of the volume [v], and it was there. *)
Definition marks (v : PathBuf) (o : Obs ev) : Prop := ∃ text, o = Did (ReadToString (marker_of v)) (Some text) ∧ shows_chip text.
Definition mounted (v : PathBuf) (tr : list (Obs ev)) : Prop := Exists (marks v) tr.

(** Somebody looked for the marker of [v]. *)
Definition probed (v : PathBuf) (tr : list (Obs ev)) : Prop := ∃ text, Did (ReadToString (marker_of v)) text ∈ tr.
(** ... and of each of these entries that is a directory. *)
Definition probed_all (entries : list PathBuf) (tr : list (Obs ev)) : Prop :=
  ∀ p, p ∈ entries → ∃ dir, Did (IsDir p) dir ∈ tr ∧ (dir = true → probed p tr).

(** The places where the host mounts volumes. *)
Definition mount_points (windows : bool) (tr : list (Obs ev)) (roots : list PathBuf) : Prop :=
  if windows then ∃ found, Did RemovableRoots found ∈ tr ∧ ∀ l, found = Some l → roots = l
  else ∃ home, Did HomeDir home ∈ tr ∧
    components (&"/Volumes") ∈ roots ∧ components (&"/media") ∈ roots ∧ components (&"/run/media") ∈ roots ∧
    ∀ dir user, home = Some (inside dir user) → buf_join (components (&"/media")) user ∈ roots ∧ buf_join (components (&"/run/media")) user ∈ roots.

(** All of them were looked through: each place itself, and its entries. *)
Definition looked_through (windows : bool) (tr : list (Obs ev)) : Prop :=
  ∃ roots, mount_points windows tr roots ∧
    ∀ root, root ∈ roots → probed root tr ∧ ∃ entries, Did (ReadDir root) entries ∈ tr ∧ probed_all (default [] entries) tr.

Lemma join_plain_name v n : starts_with [slash] n = false → components n = [Normal n] → buf_join v n = v ++ [Normal n].
Proof. intros H1 H2. unfold buf_join. rewrite H1, H2. by destruct v. Qed.

Lemma new_uf2_on v : new_uf2 v = image_on v.
Proof. unfold new_uf2. by rewrite join_plain_name by (by vm_compute). Qed.

Lemma info_file_of v : info_file v = marker_of v.
Proof. unfold info_file. by rewrite join_plain_name by (by vm_compute). Qed.

Lemma inside_inj v w n : inside v n = inside w n → v = w.
Proof. intros H. by apply app_inj_2 in H as [-> _]. Qed.

Lemma marker_text_iff c : marker_text c = true ↔ shows_chip c.
Proof.
  assert (∀ s, RustStr.contains (&"RP2") (to_ascii_uppercase s) = true ↔ shows_chip s) as Hc.
  { intros s. rewrite contains_iff. unfold shows_chip, to_ascii_uppercase. split.
    - intros (a & b & E). apply fmap_app_inv in E as (a' & r & _ & E & ->). symmetry in E. apply fmap_app_inv in E as (m & b' & Hm & _ & ->).
      by exists a', m, b'.
    - intros (a & m & b & -> & Hm). rewrite !fmap_app, Hm. eauto. }
  unfold marker_text. rewrite !orb_true_iff, Hc. split; [|tauto].
  assert (∀ t, RustStr.contains (&"RP2" ++ t) (to_ascii_uppercase c) = true → shows_chip c) as Hl.
  { intros t (a & b & E)%contains_iff. apply Hc, contains_iff. exists a, (t ++ b). by rewrite E, <- app_assoc. }
  intros [[?|?]|?]; [done|by apply (Hl (&"040"))|by apply (Hl (&"350"))].
Qed.

Lemma mounted_nil v : ¬ mounted v [].
Proof. by intros ?%Exists_nil. Qed.
Lemma mounted_app v tr tr' : mounted v (tr ++ tr') ↔ mounted v tr ∨ mounted v tr'.
Proof. apply Exists_app. Qed.
Lemma mounted_cons v o tr : mounted v (o :: tr) ↔ marks v o ∨ mounted v tr.
Proof. apply Exists_cons. Qed.
Lemma mounted_weaken v tr tr' : mounted v tr → tr ⊆ tr' → mounted v tr'.
Proof. intros (o & Ho & Hm)%Exists_exists Hs. apply Exists_exists. exists o. split; [by apply Hs|done]. Qed.

(** What the request read, if it read a text; others show no marker. *)
Definition read_of (o : Obs ev) : option (PathBuf * option str) :=
  match o with Did e x => match e in ev X return X → _ with ReadToString f => λ x, Some (f, x) | _ => λ _, None end x end.
Definition no_marker (o : Obs ev) : Prop := ∀ v, ¬ marks v o.
Lemma marks_other {X} (e : ev X) x : match e with ReadToString _ => False | _ => True end → no_marker (Did e x).
Proof. intros H v (t & E & _). apply (f_equal read_of) in E. by destruct e. Qed.

Lemma mounted_skip v o tr : no_marker o → mounted v (o :: tr) ↔ mounted v tr.
Proof. intros H. rewrite mounted_cons. split; [intros [?|?]; [by destruct (H v)|done]|by right]. Qed.

Lemma probed_weaken v tr tr' : probed v tr → tr ⊆ tr' → probed v tr'.
Proof. intros [t H] Hs. exists t. by apply Hs. Qed.
Lemma probed_all_weaken l tr tr' : probed_all l tr → tr ⊆ tr' → probed_all l tr'.
Proof.
  intros H Hs p Hp. destruct (H p Hp) as (d & H1 & H2). exists d. split; [by apply Hs|]. intros E. eapply probed_weaken; [by apply H2|done].
Qed.
Lemma looked_through_weaken w tr tr' : looked_through w tr → tr ⊆ tr' → looked_through w tr'.
Proof.
  intros (roots & H1 & H2) Hs. exists roots. split.
  - unfold mount_points in *. destruct w; destruct H1 as (x & Hx & H1); exists x; split; [by apply Hs|done|by apply Hs|done].
  - intros r Hr. destruct (H2 r Hr) as [H3 (es & H4 & H5)]. split; [by eapply probed_weaken|]. exists es.
    split; [by apply Hs|by eapply probed_all_weaken].
Qed.

(** ** The scan finds the marked volumes, all of them *)

Lemma has_uf2_marker_yields path : yields (has_uf2_marker path) (λ tr b, probed path tr ∧ ∀ v, mounted v tr ↔ v = path ∧ b = true).
Proof.
  unfold has_uf2_marker. rewrite info_file_of. apply yields_trigger. intros x. apply yields_ret. split; [exists x; by left|].
  intros v. rewrite mounted_cons. split.
  - intros [(t & E & Ht)|?%mounted_nil]; [|done].
    apply (f_equal read_of) in E. cbn in E. injection E as E1 ->.
    apply inside_inj in E1 as ->. split; [done|]. by apply marker_text_iff.
  - intros [-> Hb]. left. destruct x as [t|]; [|done]. exists t. split; [done|]. by apply marker_text_iff.
Qed.

Lemma scan_entries_yields l m : yields (scan_entries l m) (λ tr m', (∀ v, v ∈ m' ↔ v ∈ m ∨ mounted v tr) ∧ probed_all l tr).
Proof.
  revert m. induction l as [|p l IH]; intros m; cbn [scan_entries].
  { apply yields_ret. split; [|intros ? []%not_elem_of_nil]. intros v. split; [by left|by intros [?|?%mounted_nil]]. }
  apply yields_trigger. intros dir. eapply yields_bind.
  { instantiate (1 := λ tr b, (dir = true → probed p tr) ∧ ∀ v, mounted v tr ↔ v = p ∧ b = true).
    destruct dir; [eapply yields_mono; [apply has_uf2_marker_yields|]; by intros tr b []|]. apply yields_ret. split; [done|].
    intros v. split; [by intros ?%mounted_nil|by intros []]. }
  intros tr b [Hp Hb]. eapply yields_mono; [apply IH|]. cbn beta. intros tr' m' [H1 H2]. split.
  - intros v. rewrite H1, mounted_skip, mounted_app, Hb by by apply marks_other. destruct b; [rewrite elem_of_union, elem_of_singleton|]; intuition congruence.
  - intros q [->|Hq]%elem_of_cons.
    + exists dir. split; [by left|]. intros E. eapply probed_weaken; [by apply Hp|]. intros o Ho. right. apply elem_of_app. by left.
    + eapply (probed_all_weaken l); [exact H2| |exact Hq]. intros o Ho. right. apply elem_of_app. by right.
Qed.

Definition searched (roots : list PathBuf) (tr : list (Obs ev)) : Prop :=
  ∀ root, root ∈ roots → probed root tr ∧ ∃ entries, Did (ReadDir root) entries ∈ tr ∧ probed_all (default [] entries) tr.

Lemma searched_weaken l tr tr' : searched l tr → tr ⊆ tr' → searched l tr'.
Proof.
  intros H Hs r Hr. destruct (H r Hr) as [H3 (es & H4 & H5)]. split; [by eapply probed_weaken|]. exists es.
  split; [by apply Hs|by eapply probed_all_weaken].
Qed.

Lemma scan_roots_yields l m : yields (scan_roots l m) (λ tr m', (∀ v, v ∈ m' ↔ v ∈ m ∨ mounted v tr) ∧ searched l tr).
Proof.
  revert m. induction l as [|p l IH]; intros m; cbn [scan_roots].
  { apply yields_ret. split; [|intros ? []%not_elem_of_nil]. intros v. split; [by left|by intros [?|?%mounted_nil]]. }
  eapply yields_bind; [apply has_uf2_marker_yields|]. intros tr b [Hp Hb]. cbv zeta. apply yields_trigger. intros entries.
  eapply yields_bind; [apply scan_entries_yields|]. intros tr1 m1 [H1 H1']. eapply yields_mono; [apply IH|].
  cbn beta. intros tr2 m2 [H2 H2']. split.
  - intros v. rewrite H2, H1, mounted_app, mounted_skip, mounted_app, Hb by by apply marks_other.
    destruct b; [rewrite elem_of_union, elem_of_singleton|]; intuition congruence.
  - intros r [->|Hr]%elem_of_cons.
    + split; [eapply probed_weaken; [exact Hp|]; intros o Ho; apply elem_of_app; by left|]. exists entries.
      split; [apply elem_of_app; right; by left|]. eapply probed_all_weaken; [exact H1'|]. intros o Ho.
      apply elem_of_app. right. right. apply elem_of_app. by left.
    + eapply (searched_weaken l); [exact H2'| |exact Hr]. intros o Ho. apply elem_of_app. right. right. apply elem_of_app. by right.
Qed.

Lemma file_name_inside dir user : file_name (inside dir user) = Some user.
Proof. unfold file_name, inside. by rewrite last_snoc. Qed.

Lemma volume_roots_yields windows :
  yields (volume_roots windows) (λ tr roots, mount_points windows tr roots ∧ ∀ v, ¬ mounted v tr).
Proof.
  unfold volume_roots. destruct windows; apply yields_trigger; intros x; apply yields_ret; (split; [exists x; split; [by left|]|]).
  - by intros l ->.
  - intros v. rewrite mounted_skip by by apply marks_other. apply mounted_nil.
  - unfold unix_volume_roots. split_and!.
    1-3: apply elem_of_app; right; rewrite !elem_of_cons; auto.
    intros dir user ->. cbn [mbind option_bind]. rewrite file_name_inside. split; apply elem_of_app; left; rewrite !elem_of_cons; auto.
  - intros v. rewrite mounted_skip by by apply marks_other. apply mounted_nil.
Qed.

Lemma mounted_volumes_yields windows :
  yields (mounted_volumes windows) (λ tr l, (∀ v, v ∈ l ↔ mounted v tr) ∧ looked_through windows tr).
Proof.
  unfold mounted_volumes. eapply yields_bind; [apply volume_roots_yields|].
  intros tr roots [Hr Hn]. unfold find_uf2_volumes. eapply yields_bind; [apply scan_roots_yields|]. intros tr1 m [H1 H2]. apply yields_ret.
  rewrite app_nil_r. split.
  - intros v. rewrite elem_of_btree_iter, H1, mounted_app. pose proof (Hn v). rewrite elem_of_empty. tauto.
  - exists roots. split.
    + unfold mount_points in *. destruct windows; destruct Hr as (x & Hx & Hr); exists x; (split; [apply elem_of_app; by left|done]).
    + eapply (searched_weaken roots); [exact H2|]. intros o Ho. apply elem_of_app. by right.
Qed.

(** ** What a survey knows *)

Definition chosen (port : option str) : option str := s ← trim <$> port; if bool_decide (s = []) then None else Some s.

Definition resolves (selector : option str) (ports : list PicoCdcPort) : Prop :=
  ∃ value target, selector = Some value ∧ resolve_requested_runtime_target value ports = Ok target.

(** What is chosen was seen; and where the board is known, everything that is
    there was seen and is remembered. *)
Lemma choose_volumes_yields windows selector ports :
  yields (choose_volumes windows selector ports)
    (λ tr r, ∀ volume before, r = Ok (volume, before) → (∀ v, volume = Some v → mounted v tr) ∧
       (volume = None → resolves selector ports → looked_through windows tr ∧ ∀ v, mounted v tr → v ∈ before)).
Proof.
  unfold choose_volumes. eapply yields_bind; [instantiate (1 := λ tr e, (∀ v, e = Some v → mounted v tr) ∧ (e = None → ∀ v, ¬ mounted v tr))|].
  { destruct selector as [value|]; [|apply yields_ret; split; [done|by intros _ v ?%mounted_nil]]. unfold explicit_uf2_volume.
    eapply yields_bind; [apply has_uf2_marker_yields|]. intros tr b [_ Hb]. apply yields_ret. rewrite app_nil_r. split.
    - intros v E. apply Hb. destruct b; [by injection E as <-|done].
    - intros E v [_ ->]%Hb. done. }
  intros tr e [Hs He]. destruct e as [v|].
  { apply yields_ret. rewrite app_nil_r. intros ? ? [= <- <-]. split; [done|by intros]. }
  specialize (He eq_refl). clear Hs. destruct selector as [value|].
  - destruct (starts_with _ _); [by apply yields_ret|]. eapply yields_bind; [apply mounted_volumes_yields|]. intros tr1 l [Hl Hall].
    apply yields_ret. rewrite app_nil_r. intros volume before Hp.
    assert (∀ v, mounted v (tr ++ tr1) ↔ v ∈ l) as Hm by (intros v; rewrite mounted_app, Hl; pose proof (He v); tauto).
    setoid_rewrite Hm. revert Hp. unfold pretouch_volume_policy. destruct (is_ok _) eqn:Er; cbn [andb].
    + case_bool_decide as El; cbn [negb].
      * subst l. intros [= <- <-]. split; [done|]. intros _ _. split; [|by intros v ?%not_elem_of_nil].
        eapply looked_through_weaken; [exact Hall|]. intros o Ho. apply elem_of_app. by right.
      * intros [= <- <-]. split; [done|]. intros _ _. split; [|intros v; by rewrite elem_of_list_to_set].
        eapply looked_through_weaken; [exact Hall|]. intros o Ho. apply elem_of_app. by right.
    + destruct (1 <? _)%nat; [done|]. intros [= <- <-]. split; [intros v Hv; destruct l; [done|]; injection Hv as ->; by left|].
      intros _ (? & t & [= <-] & Ht). by rewrite Ht in Er.
  - eapply yields_bind; [apply mounted_volumes_yields|]. intros tr1 l [Hl _]. apply yields_ret. rewrite app_nil_r. intros volume before Hp.
    split; [|by intros _ (? & ? & ? & _)]. revert Hp. unfold pretouch_volume_policy. cbn [andb]. destruct (1 <? _)%nat; [done|].
    intros [= <- <-] v Hv. apply mounted_app. right. apply Hl. destruct l; [done|]. injection Hv as ->. by left.
Qed.

Section Survey.
Context (windows : bool) (picotool : PathBuf) (self : Rp2040Deployer).

(** How the fields of a survey follow from what the host reported. *)
Record surveyed (port : option str) (tr : list (Obs ev)) (ports : list DetectedPort) (s : Survey) : Prop := {
  su_installed : Did EnsureProfiles (Some (sv_installed s)) ∈ tr;
  su_ports : Did AvailablePorts (Ok ports) ∈ tr;
  su_target : match sv_volume_before_reset s with
              | None => ∃ l, Did ResetInterfaces l ∈ tr ∧ sv_reset_interfaces s = pico_reset_interfaces (sv_installed s) (family_id self) l ∧
                          choose_target (chosen port) (pico_cdc_ports (sv_installed s) (family_id self) ports) (sv_reset_interfaces s) =
                          Ok (sv_runtime_target s, sv_reset_only_target s)
              | Some v => sv_runtime_target s = None ∧ sv_reset_only_target s = None ∧ mounted v tr
              end;
  su_mounted : sv_volume_before_reset s = None → resolves (chosen port) (pico_cdc_ports (sv_installed s) (family_id self) ports) →
               looked_through windows tr ∧ ∀ v, mounted v tr → v ∈ sv_volumes_before s;
  su_serial : sv_requested_serial s = or_else (chosen port ≫= serial_selector)
                (or_else (sv_runtime_target s ≫= target_serial) (ri_serial_number <$> sv_reset_only_target s));
  su_picotool : transposed (sv_requested_serial s) (λ serial, picotool_target_for_family (sv_installed s) serial (family_id self)) =
                Ok (sv_picotool_target s);
}.

Lemma catalogue_ports_yields installed family :
  yields (catalogue_pico_cdc_ports installed family)
    (λ tr r, (∀ v, ¬ mounted v tr) ∧ ∀ l, r = Ok l → ∃ ports, Did AvailablePorts (Ok ports) ∈ tr ∧ l = pico_cdc_ports installed family ports).
Proof.
  unfold catalogue_pico_cdc_ports, attempt. apply yields_trigger. intros [ports|e]; cbn [bind on_ok]; apply yields_ret; split.
  1,3: by intros v; rewrite mounted_skip by (by apply marks_other); apply mounted_nil.
  - intros l [= <-]. exists ports. split; [by left|done].
  - done.
Qed.

Lemma catalogue_resets_yields installed family (o : option PathBuf) :
  yields (match o with None => catalogue_pico_reset_interfaces installed family | Some _ => Ret [] end)
    (λ tr r, (∀ v, ¬ mounted v tr) ∧ (o = None → ∃ l, Did ResetInterfaces l ∈ tr ∧ r = pico_reset_interfaces installed family l)).
Proof.
  destruct o; [apply yields_ret; split; [by intros v ?%mounted_nil|done]|]. apply yields_trigger. intros l. apply yields_ret. split.
  - intros v. rewrite mounted_skip by (by apply marks_other). apply mounted_nil.
  - intros _. exists l. split; [by left|done].
Qed.

Lemma survey_yields port :
  yields (survey windows self port) (λ tr r, ∀ s, r = Ok s → ∃ ports, surveyed port tr ports s).
Proof.
  unfold survey, ensure_verified_usb_profiles. apply yields_trigger. intros [installed|]; cbn [bind on_ok]; [|by apply yields_ret].
  fold (chosen port). eapply yields_try; [apply catalogue_ports_yields| |by intros].
  intros tr1 ps [Hm1 Hp]. destruct (Hp ps eq_refl) as (ports & Hports & ->). clear Hp.
  eapply yields_try; [apply choose_volumes_yields| |by intros]. intros tr2 [vb before] Hm2. destruct (Hm2 vb before eq_refl) as [Hvb Hvn]. clear Hm2.
  eapply yields_bind; [apply catalogue_resets_yields|]. intros tr3 interfaces [Hm3 Hi].
  destruct (match vb with None => _ | Some _ => _ end) as [[rt ro]|e] eqn:Et; cbn [bind on_ok]; [|by apply yields_ret].
  destruct (transposed _ _) as [target|e] eqn:Epico; cbn [bind on_ok]; [|by apply yields_ret].
  apply yields_ret. rewrite !app_nil_r. intros s [= <-]. exists ports.
  assert (∀ v, mounted v (Did EnsureProfiles (Some installed) :: tr1 ++ tr2 ++ tr3) ↔ mounted v tr2) as Hm.
  { intros v. rewrite mounted_skip, !mounted_app by (by apply marks_other). pose proof (Hm1 v). pose proof (Hm3 v). tauto. }
  split; cbn [sv_installed sv_ports_before sv_volume_before_reset sv_volumes_before sv_reset_interfaces sv_runtime_target sv_reset_only_target
    sv_requested_serial sv_picotool_target]; [by left|right; apply elem_of_app; by left| | |done|done].
  - destruct vb as [v|]; [injection Et as <- <-; split_and!; [done..|]; by apply Hm, Hvb|].
    destruct (Hi eq_refl) as (l & Hl & ->). exists l. split_and!; [|done..]. right. apply elem_of_app. right. apply elem_of_app. by right.
  - intros E Hr. destruct (Hvn E Hr) as [H1 H2]. split; [|by setoid_rewrite Hm]. eapply looked_through_weaken; [exact H1|].
    intros o Ho. right. apply elem_of_app. right. apply elem_of_app. by left.
Qed.

Lemma runtime_target_resolves port tr ports s t : surveyed port tr ports s → sv_runtime_target s = Some t →
  sv_volume_before_reset s = None ∧ ∃ value, chosen port = Some value ∧
    resolve_requested_runtime_target value (pico_cdc_ports (sv_installed s) (family_id self) ports) = Ok t.
Proof.
  intros [_ _ Ht _ _ _] Hr. destruct (sv_volume_before_reset s); [destruct Ht as (? & ? & _); congruence|]. destruct Ht as (l & _ & _ & Ht).
  split; [done|]. revert Ht. unfold choose_target. destruct (chosen port) as [value|]; [|congruence].
  destruct (resolve_requested_runtime_target value _) as [t'|e] eqn:E.
  - intros H. injection H as H _. exists value. split; [done|]. congruence.
  - intros H. apply result_bind_Ok in H as ([i|] & _ & H); [|done]. injection H as H _. congruence.
Qed.
End Survey.

(** ** Before the touch, after the touch *)

Definition calm (a : Act) : Prop := match a with Touch _ => False | _ => True end.

(** No marker is read between the survey and the last touch. *)
Definition pre_touch (tr : list (Obs ev)) : Prop :=
  ∀ tr1 p o tr2 v, tr = tr1 ++ o :: tr2 → act o = Touch p → ¬ mounted v tr1.

Lemma calm_no_touch tr tr1 p o tr2 : always (λ o, calm (act o)) tr → tr = tr1 ++ o :: tr2 → act o ≠ Touch p.
Proof. intros H -> E. apply Forall_app in H as [_ H]. apply Forall_cons in H as [H _]. by rewrite E in H. Qed.

Lemma app_touch tr tr' tr1 o tr2 p : always (λ o, calm (act o)) tr → tr ++ tr' = tr1 ++ o :: tr2 → act o = Touch p →
  ∃ l, tr1 = tr ++ l ∧ tr' = l ++ o :: tr2.
Proof.
  intros Hc E Ho. apply app_eq_inv in E as [(l & E1 & E2)|(l & E1 & E2)].
  - destruct l as [|o' l]; cbn in *.
    + exists []. rewrite app_nil_r in *. by subst.
    + injection E2 as <- E2. exfalso. by eapply (calm_no_touch tr tr1).
  - by exists l.
Qed.

Lemma pre_touch_calm tr : always (λ o, calm (act o)) tr → pre_touch tr.
Proof. intros H tr1 p o tr2 v E Ho. by destruct (calm_no_touch tr tr1 p o tr2 H E). Qed.

Lemma pre_touch_unmarked tr : always no_marker tr → pre_touch tr.
Proof.
  intros H tr1 p o tr2 v -> Ho (o' & Hin & Hm)%Exists_exists. apply Forall_app in H as [H _].
  by apply (proj1 (Forall_forall _ _) H o' Hin v).
Qed.

Lemma pre_touch_snoc tr tr' : pre_touch tr → always (λ o, calm (act o)) tr' → pre_touch (tr ++ tr').
Proof.
  intros Hp Hc tr1 p o tr2 v E Ho. apply app_eq_inv in E as [(l & E1 & E2)|(l & E1 & E2)].
  - destruct l as [|o' l]; cbn in *.
    + exfalso. by eapply (calm_no_touch tr' []).
    + injection E2 as <- E2. by eapply Hp.
  - exfalso. by eapply (calm_no_touch tr' l).
Qed.

Lemma pre_touch_app tr tr' : always (λ o, calm (act o)) tr → (∀ v, ¬ mounted v tr) → pre_touch tr' → pre_touch (tr ++ tr').
Proof.
  intros Hc Hm Hp tr1 p o tr2 v E Ho. destruct (app_touch _ _ _ _ _ _ Hc E Ho) as (l & -> & ->).
  intros [H|H]%mounted_app; [by apply Hm in H|by eapply Hp].
Qed.

Definition touched_first {A} (p : P A) : Prop := wp p (λ tr _, pre_touch tr).

Lemma touched_first_calm {A} (p : P A) Q : acts calm p Q → touched_first p.
Proof. intros H. eapply wp_mono; [exact H|]. intros tr r [Ha _]. by apply pre_touch_calm. Qed.

Lemma touched_first_knowing {A B} (p : P A) (f : A → P B) (Q : A → Prop) :
  touched_first p → acts (λ _, True) p Q → (∀ a, Q a → acts calm (f a) anything) → touched_first (bind p f).
Proof.
  intros Hp Hq Hf. apply wp_bind, wp_execs. intros tr r He. pose proof (proj1 (wp_execs _ _) Hp tr r He) as H.
  pose proof (safe_execs _ _ _ _ _ Hq He) as [_ HQ]. destruct r as [| |a]; [done..|].
  eapply wp_mono; [exact (Hf a HQ)|]. intros tr' r [Ha _]. by apply pre_touch_snoc.
Qed.

Lemma acts_true {A} (p : P A) : acts (λ _, True) p anything.
Proof. apply wp_execs. intros tr r _. split; [by apply Forall_true|by destruct r]. Qed.

Lemma touched_first_bind {A B} (p : P A) (f : A → P B) : touched_first p → (∀ a, acts calm (f a) anything) → touched_first (bind p f).
Proof. intros Hp Hf. by eapply touched_first_knowing; [|apply acts_true|]. Qed.

Lemma touch_1200bps_first port : touched_first (touch_1200bps port).
Proof.
  eapply (wp_mono _ (λ tr r, always no_marker tr ∧ match r with Done a => anything a | _ => True end));
    [|intros tr r [H _]; by apply pre_touch_unmarked].
  change (safe no_marker (touch_1200bps port) anything). unfold touch_1200bps.
  repeat match goal with
  | |- safe _ (bind (trigger _) _) _ => apply safe_trigger; intros ?; split; [by apply marks_other|]
  | |- safe _ (match ?x with _ => _ end) _ => destruct x
  | |- safe _ (bind (guard ?x _) _) _ => destruct x; cbn [guard bind on_ok]
  | |- safe _ (on_ok _ (match ?x with _ => _ end)) _ => destruct x; cbn [on_ok]
  | |- safe _ (Ret _) _ => by apply safe_ret
  | |- safe _ _ _ => by apply safe_ret
  end.
Qed.

Section Deploy.
Context (windows : bool) (picotool : PathBuf) (self : Rp2040Deployer).

Lemma allows_calm s : allows picotool s calm.
Proof. by split. Qed.

(** What follows the survey of a target touches at most the target's port,
    and first of all; see [flash_acts] for the rest. *)
Lemma enter_bootsel_first s : touched_first (enter_bootsel windows picotool self s).
Proof.
  pose proof (allows_calm s) as Hall. assert (calm Mute) as Hmute by done.
  destruct (sv_runtime_target s) as [target|] eqn:Et; [|eapply touched_first_calm, enter_bootsel_acts; [done|congruence]].
  unfold enter_bootsel. rewrite Et. unfold describe_port_topology. cbn [bind trigger]. split; [by apply pre_touch_calm; constructor|].
  intros facts. eapply wp_mono; [|intros tr r Hr; apply (pre_touch_app [_]); [by repeat constructor| |exact Hr];
    intros v; rewrite mounted_skip by (by apply marks_other); apply mounted_nil].
  cbn [bind]. apply touched_first_bind.
  - unfold touch_and_discover. rewrite Et. apply touched_first_bind; [apply touched_first_bind; [apply touch_1200bps_first|pace]|].
    intros reset_error. destruct (sv_volume_before_reset s); [pace|]. eapply acts_then; [|pace].
    eapply acts_mono; [by apply find_uf2_volume_until_acts|done].
  - intros [[v e]|e]; [|pace]. cbn [on_ok bind]. destruct (native_reset_target windows s v) as [native|] eqn:En; [|pace]. cbn [bind on_ok].
    apply acts_then; [|pace]. eapply (acts_mono _ _ anything); [|done]. unfold run_application_reboot_recovery.
    destruct (application_target s v) eqn:Ea; [|pace].
    apply acts_then; [eapply request_reboot_acts; [exact Hall|by eapply native_reset_of|by destruct v]|].
    intros [l|e']; [|pace]. apply acts_then; [|pace]. apply attempt_acts. eapply acts_mono; [by apply find_uf2_volume_until_acts|done].
Qed.

Lemma flash_first firmware s : touched_first (flash windows picotool self firmware s).
Proof.
  unfold flash. eapply touched_first_knowing; [apply enter_bootsel_first| |].
  - apply enter_bootsel_acts; [by split|]. intros t _. by apply touch_1200bps_acts.
  - intros [[topology r]|e] Hg; [apply after_entry_acts; [apply allows_calm|done]|by apply acts_ret].
Qed.

Lemma deploy_execs firmware port tr r : execs (deploy windows picotool self firmware port) tr r →
  (execs (survey windows self port) tr Cut ∨ execs (survey windows self port) tr Stopped ∨
   ∃ e, execs (survey windows self port) tr (Done (Err e))) ∨
  ∃ tr1 tr2 s, tr = tr1 ++ tr2 ∧ execs (survey windows self port) tr1 (Done (Ok s)) ∧ execs (flash windows picotool self firmware s) tr2 r.
Proof.
  intros [(tr1 & tr2 & [s|e] & -> & H1 & H2)|[[H _]|[H _]]]%execs_bind; [|left|by auto..].
  - right. by exists tr1, tr2, s.
  - right. right. exists e. destruct H2 as [-> _]. by rewrite app_nil_r.
Qed.

Lemma survey_calm port tr r : execs (survey windows self port) tr r → always (λ o, act o = Mute) tr.
Proof. intros H. by apply (safe_execs _ _ anything tr r (survey_acts windows self port (λ a, a = Mute) eq_refl)) in H as [H _]. Qed.

Lemma survey_surveyed port tr s : execs (survey windows self port) tr (Done (Ok s)) → ∃ ports, surveyed windows self port tr ports s.
Proof. intros H. by apply (yields_execs _ _ _ _ (survey_yields windows self port) H s). Qed.

(** C8: a volume that was there before is left alone.  When the deployment
    touches a port to reset its board, it has looked before the touch for the
    marker in every place where the host mounts volumes and in every directory
    there; and no volume that showed a marker then is written to, neither at
    first nor in a retry: it belongs to another board. *)
Theorem touch_spares_mounted firmware port tr r tr1 p o tr2 :
  execs (deploy windows picotool self firmware port) tr r → tr = tr1 ++ o :: tr2 → act o = Touch p →
  looked_through windows tr1 ∧ ∀ v, mounted v tr1 → Forall (λ o, act o ≠ Writing (image_on v)) tr.
Proof.
  intros He -> Ho. apply deploy_execs in He as [He|(trs & tr' & s & E & Hs & Hf)].
  { exfalso. assert (always (λ o, act o = Mute) (tr1 ++ o :: tr2)) as Hm by (destruct He as [He|[He|[e He]]]; by eapply survey_calm).
    apply Forall_app in Hm as [_ Hm]. apply Forall_cons in Hm as [Hm _]. congruence. }
  pose proof (survey_calm _ _ _ Hs) as Hm. destruct (survey_surveyed _ _ _ Hs) as [ports Hsv].
  assert (always (λ o, calm (act o)) trs) as Hc by (eapply Forall_impl; [exact Hm|]; by intros ? ->).
  destruct (app_touch trs tr' tr1 o tr2 p Hc (eq_sym E) Ho) as (l & -> & ->). rewrite <- app_assoc in *.
  assert (∃ t, sv_runtime_target s = Some t) as [t Ht].
  { destruct (sv_runtime_target s) eqn:Et; [eauto|]. exfalso. eapply calm_no_touch; [|done|exact Ho].
    eapply (safe_execs _ _ anything); [|exact Hf]. apply flash_acts; [apply allows_calm|congruence]. }
  destruct (runtime_target_resolves _ _ _ _ _ _ _ Hsv Ht) as (Hvb & value & Hch & Hres).
  destruct (su_mounted _ _ _ _ _ _ Hsv Hvb) as [Hall Hin]; [by exists value, t|].
  split; [eapply looked_through_weaken; [exact Hall|]; intros x Hx; apply elem_of_app; by left|]. intros v Hv.
  assert (v ∈ sv_volumes_before s) as Hv'.
  { apply mounted_app in Hv as [Hv|Hv]; [by apply Hin|]. exfalso. by eapply (proj1 (wp_execs _ _) (flash_first firmware s) _ _ Hf l). }
  apply Forall_app. split; [eapply Forall_impl; [exact Hm|]; by intros ? ->|].
  set (K a := match a with Writing d => ∃ w, d = image_on w ∧ w ∉ sv_volumes_before s | _ => True end).
  assert (always (λ o, K (act o)) (l ++ o :: tr2)) as HK.
  { eapply (safe_execs _ _ anything); [|exact Hf]. apply flash_acts; [split; [done| |done|done]|intros t' _; by apply touch_1200bps_acts].
    intros w Hw. rewrite new_uf2_on. destruct Hw as [?|?]; [congruence|]. by exists w. }
  eapply Forall_impl; [exact HK|]. intros o' H E'. change (K (act o')) in H. rewrite E' in H. destruct H as (w & Hw%inside_inj & Hn). by subst.
Qed.

(** ** Which board the selector names, read off what the host reported *)

Section Board.
Context (installed : InstalledProfiles) (ports : list DetectedPort) (seen : list (Obs ev)) (value : str).

(** The selector is a serial number behind SER= in any case. *)
Definition selects (serial : str) : Prop := ∃ p, value = p ++ serial ∧ eq_ignore_ascii_case p (&"SER=") = true ∧ serial ≠ [].

(** Ids that the profiles give to an application of the family. *)
Definition application_ids (vid pid : Z) : Prop :=
  ∃ pr, registered (Some installed) vid pid pr ∧ purpose pr = Runtime ∧ role pr = RuntimeCdc ∧ interface pr = Some (&"cdc") ∧
    family pr = Some (rp_family_name (family_id self)).

(** A port of an application of the family, and its ids and serial number. *)
Definition board_port (d : DetectedPort) (vid pid : Z) (serial : option str) : Prop :=
  (∃ product, port_type d = UsbPort vid pid serial product) ∧ application_ids vid pid.

(** The selector names it: by its serial number, or else by its name. *)
Definition named (d : DetectedPort) : Prop :=
  ∃ vid pid serial, board_port d vid pid serial ∧
    ((∃ s, selects s ∧ serial = Some s) ∨ ((∀ s, ¬ selects s) ∧ port_name d = value)).
Definition the_port (d : DetectedPort) : Prop := sole named ports d.

Definition in_trouble (h : PortHealth) : Prop := match h with PresentProblem _ _ | Phantom _ _ => True | _ => False end.

(** The only reset interface the host listed with these ids and this serial
    number, in any case. *)
Definition has_identity (serial : str) (vid pid : Z) (i : UsbResetInterface) : Prop :=
  application_ids (ri_vid i) (ri_pid i) ∧ eq_ignore_ascii_case (ri_serial_number i) serial = true ∧ ri_vid i = vid ∧ ri_pid i = pid.
(** The interface of the board: with the serial number of the selector, or with
    that and the ids of the port the selector names. *)
Definition the_interface (i : UsbResetInterface) : Prop :=
  ∃ l serial, Did ResetInterfaces l ∈ seen ∧ sole (has_identity serial (ri_vid i) (ri_pid i)) l i ∧
    (selects serial ∨ ∃ d, the_port d ∧ board_port d (ri_vid i) (ri_pid i) (Some serial)).

(** The serial number of the board, and its identity as an application. *)
Definition its_serial (serial : str) : Prop :=
  selects serial ∨ (∃ d vid pid, the_port d ∧ board_port d vid pid (Some serial)) ∨ ∃ i, the_interface i ∧ ri_serial_number i = serial.
Definition its_application (vid pid : Z) : Prop :=
  (∃ d serial, the_port d ∧ board_port d vid pid serial) ∨ ∃ i, the_interface i ∧ ri_vid i = vid ∧ ri_pid i = pid.

(** The one identity the profiles give the boot ROM of the family. *)
Definition boot_profile (pr : UsbTransportProfile) (v p : str) : Prop :=
  (∃ e, e ∈ in_identities installed ∧ ix_profile e = pr) ∧ purpose pr = Bootloader ∧ role pr = BootloaderUf2 ∧
  family pr = Some (rp_family_name (family_id self)) ∧ im_vid (identity_match pr) = v ∧ im_pid (identity_match pr) = Some p.
Definition boot_ids (v p : str) : Prop := (∃ pr, boot_profile pr v p) ∧ ∀ pr v' p', boot_profile pr v' p' → v' = v ∧ p' = p.

(** What may be done: touch the board's port, which is not known to be in
    trouble; reset its interface; probe and load the device that has its serial
    number and the identity of the boot ROM; reboot a device that has the
    identity of its application.  Writes to volumes are not bound here. *)
Definition bound_act (a : Act) : Prop :=
  match a with
  | Mute | Writing _ => True
  | Touch p => ∃ d, the_port d ∧ port_name d = p ∧ ¬ in_trouble (health d)
  | Resetting i => the_interface i
  | Running args =>
      (∃ serial v p front, its_serial serial ∧ boot_ids v p ∧
         args = File picotool :: front ++ [Text (&"--vid"); Text (&"0x" ++ v); Text (&"--pid"); Text (&"0x" ++ p); Text (&"--ser"); Text serial]) ∨
      ∃ vid pid, its_application vid pid ∧
         args = [File picotool; Text (&"reboot"); Text (&"-u"); Text (&"--vid"); Text (&"0x" ++ hex4 "a" vid);
                 Text (&"--pid"); Text (&"0x" ++ hex4 "a" pid); Text (&"-f")]
  end.

(** ** The code finds these *)

Let current : list PicoCdcPort := pico_cdc_ports installed (family_id self) ports.
Definition matching : list PicoCdcPort :=
  match serial_selector value with
  | Some serial => filter (λ c, pico_serial c = Some serial) current
  | None => filter (λ c, pico_name c = value) current
  end.

Lemma serial_selector_selects serial : serial_selector value = Some serial ↔ selects serial.
Proof.
  unfold serial_selector, selects. split.
  - destruct (_ && _) eqn:E; [|done]. apply andb_prop in E as [_ E]. intros H. exists (take 4 value).
    assert (drop 4 value = serial ∧ serial ≠ []) as [<- Hs] by (destruct (drop 4 value); [done|]; by injection H as <-).
    split_and!; [by rewrite take_drop|done|done].
  - intros (p & -> & E & Hs). assert (length p = 4%nat) as Hp.
    { apply bool_decide_eq_true in E. apply (f_equal length) in E. unfold to_ascii_lowercase in E. by rewrite !length_fmap in E. }
    rewrite take_app_length', drop_app_length', E, length_app, Hp by done. cbn. by destruct serial.
Qed.

Lemma family_uses_iff vid pid : family_uses installed (family_id self) vid pid = true ↔ application_ids vid pid.
Proof.
  unfold family_uses. rewrite existsb_exists. setoid_rewrite <- list_elem_of_In. setoid_rewrite profiles_for_registered.
  apply exist_proper. intros pr. apply and_iff_compat_l. unfold profile_matches_family. fold (rp_family_name (family_id self)).
  case_bool_decide as H1; cbn [orb]; [by split; [|intros (? & _)]|].
  case_bool_decide as H2; cbn [orb]; [by split; [|intros (? & ? & _)]|].
  case_bool_decide as H3; cbn [orb]; [by split; [|intros (? & ? & ? & _)]|]. rewrite bool_decide_eq_true.
  tauto.
Qed.

Definition port_named (d : DetectedPort) : Prop :=
  match pico_port installed (family_id self) d with
  | Some c => match serial_selector value with Some serial => pico_serial c = Some serial | None => pico_name c = value end
  | None => False
  end.
#[local] Instance port_named_dec d : Decision (port_named d).
Proof. unfold port_named. destruct (pico_port _ _ d); [destruct (serial_selector value)|]; apply _. Defined.

Lemma pico_port_board d c : pico_port installed (family_id self) d = Some c →
  board_port d (pico_vid c) (pico_pid c) (pico_serial c) ∧ pico_name c = port_name d ∧ pico_health c = health d.
Proof.
  unfold pico_port, board_port. destruct (port_type d) as [v p sn m| | |]; [|done..].
  destruct (family_uses _ _ _ _) eqn:E; [|done]. intros [= <-]. cbn. apply family_uses_iff in E. split_and!; eauto.
Qed.

Lemma board_pico_port d vid pid serial : board_port d vid pid serial →
  ∃ c, pico_port installed (family_id self) d = Some c ∧ pico_serial c = serial ∧ pico_name c = port_name d.
Proof.
  intros [[m E] H%family_uses_iff]. unfold pico_port. rewrite E, H. by eexists.
Qed.

Lemma port_named_iff d : port_named d ↔ named d.
Proof.
  unfold port_named, named. split.
  - destruct (pico_port _ _ d) as [c|] eqn:E; [|done]. destruct (pico_port_board d c E) as (Hb & Hn & _). intros H.
    exists (pico_vid c), (pico_pid c), (pico_serial c). split; [done|].
    destruct (serial_selector value) as [s|] eqn:Es; [left; exists s; split; [by apply serial_selector_selects|done]|].
    right. split; [|congruence]. intros s Hs%serial_selector_selects. congruence.
  - intros (vid & pid & sn & Hb & H). destruct (board_pico_port _ _ _ _ Hb) as (c & -> & Hs & Hn).
    destruct H as [(s & Hsel%serial_selector_selects & E)|[Hno E]]; [rewrite Hsel; congruence|].
    destruct (serial_selector value) as [s|] eqn:Es; [by destruct (Hno s); apply serial_selector_selects|congruence].
Qed.

Lemma omap_filter_single {A B} (f : A → option B) (R : B → Prop) (S : A → Prop) `{∀ x, Decision (R x)} `{∀ x, Decision (S x)} l b :
  (∀ a, S a ↔ ∃ b, f a = Some b ∧ R b) → filter R (omap f l) = [b] → ∃ a, filter S l = [a] ∧ f a = Some b.
Proof.
  intros HS. assert (omap f (filter S l) = filter R (omap f l)) as <-.
  { induction l as [|a l IH]; [done|].
    change (omap f (a :: l)) with (match f a with Some x => x :: omap f l | None => omap f l end).
    rewrite filter_cons. destruct (decide (S a)) as [Ha|Ha].
    - pose proof Ha as (x & Ex & Hx)%HS. change (omap f (a :: ?k)) with (match f a with Some x => x :: omap f k | None => omap f k end).
      rewrite Ex, filter_cons_True, IH by done. done.
    - destruct (f a) as [x|] eqn:Ex; [|done]. rewrite filter_cons_False, IH; [done|]. intros Hx. apply Ha, HS. eauto. }
  assert (∀ a, a ∈ filter S l → is_Some (f a)) as Hf by (intros a [(x & Ex & _)%HS _]%list_elem_of_filter; by exists x).
  destruct (filter S l) as [|a [|a' r]]; cbn; [done| |].
  - destruct (Hf a) as [x Ex]; [by left|]. rewrite Ex. intros [= <-]. by exists a.
  - destruct (Hf a) as [x ->]; [by left|]. destruct (Hf a') as [x' ->]; [by right; left|done].
Qed.

Lemma filter_merge_sort {A} (le : A → A → Prop) `{RelDecision A A le} (R : A → Prop) `{∀ x, Decision (R x)} l a :
  filter R (merge_sort le l) = [a] ↔ filter R l = [a].
Proof.
  assert (∀ k k', k ≡ₚ k' → filter R k = [a] → filter R k' = [a]) as Hp.
  { intros k k' Hk E. apply Permutation_singleton_r. by rewrite <- Hk, E. }
  split; apply Hp; by rewrite merge_sort_Permutation.
Qed.

Lemma matching_port c : matching = [c] → ∃ d, the_port d ∧ pico_port installed (family_id self) d = Some c.
Proof.
  intros H. assert (∃ d, filter port_named ports = [d] ∧ pico_port installed (family_id self) d = Some c) as (d & Hd & E).
  { unfold matching, current, pico_cdc_ports in H. destruct (serial_selector value) as [serial|] eqn:Es; apply filter_merge_sort in H.
    all: eapply (omap_filter_single _ _ port_named); [|exact H]; intros d; unfold port_named; rewrite Es.
    all: destruct (pico_port _ _ d) as [c'|]; [split; [eauto|by intros (? & [= <-] & ?)]|by split; [|intros (? & ? & _)]]. }
  exists d. split; [|done]. by apply (sole_filter _ _ port_named_iff).
Qed.

Lemma find_reset_sole serial identity l i : find_reset serial identity (pico_reset_interfaces installed (family_id self) l) = [i] →
  sole (has_identity serial (ri_vid i) (ri_pid i)) l i ∧ ∀ v p, identity = Some (v, p) → ri_vid i = v ∧ ri_pid i = p.
Proof.
  unfold find_reset, pico_reset_interfaces. intros H. apply filter_merge_sort in H. rewrite list_filter_filter in H.
  match type of H with filter ?F l = _ => set (R := F) in H end.
  assert (R i) as [[Hs Hi]%andb_prop Hf] by (apply (list_elem_of_filter R l i); rewrite H; by left).
  assert (∀ v p, identity = Some (v, p) → ri_vid i = v ∧ ri_pid i = p) as Hid.
  { intros v p ->. apply bool_decide_eq_true in Hi. by injection Hi. }
  split; [|done]. set (S := λ j, R j ∧ ri_vid j = ri_vid i ∧ ri_pid j = ri_pid i).
  assert (∀ j, Decision (S j)) as HS by (intros j; unfold S, R; apply _).
  assert (filter S l = [i]) as E.
  { assert (filter S l = filter (λ j, ri_vid j = ri_vid i ∧ ri_pid j = ri_pid i) (filter R l)) as ->.
    - rewrite list_filter_filter. apply list_filter_iff. intros j. unfold S. tauto.
    - rewrite H, filter_cons_True by done. done. }
  eapply (sole_filter S); [|exact E]. intros j. unfold S, R, has_identity. rewrite andb_true_iff, family_uses_iff. split; [tauto|].
  intros (Ha & Hs' & Ev & Ep). split_and!; [done| |done..]. destruct identity as [[v p]|]; [|done].
  destruct (Hid v p eq_refl). apply bool_decide_eq_true. congruence.
Qed.
End Board.

(** ** Everything that acts is bound *)

(** The selector is the requested port, trimmed and not empty. *)
Definition bound (port : option str) (tr : list (Obs ev)) (installed : InstalledProfiles) (ports : list DetectedPort) (a : Act) : Prop :=
  match a with
  | Mute | Writing _ => True
  | _ => a = Running [File picotool; Text (&"uf2"); Text (&"info")] ∨ ∃ value, chosen port = Some value ∧ bound_act installed ports tr value a
  end.

Section Bound.
Context (port : option str) (tr : list (Obs ev)) (ports : list DetectedPort) (s : Survey) (Hsv : surveyed windows self port tr ports s).

Lemma serial_selector_None value : serial_selector value = None → ∀ x, ¬ selects value x.
Proof. intros H x Hx%serial_selector_selects. congruence. Qed.

(** The port that the code resolves is the one that is named. *)
Lemma runtime_target_port t : sv_runtime_target s = Some t → ∃ value d, chosen port = Some value ∧ the_port (sv_installed s) ports value d ∧
  board_port (sv_installed s) d (target_vid t) (target_pid t) (target_serial t) ∧ port_name d = target_port t ∧ ¬ in_trouble (health d).
Proof.
  intros Ht. destruct (runtime_target_resolves _ _ _ _ _ _ _ Hsv Ht) as (_ & value & Hv & Hr). exists value.
  unfold resolve_requested_runtime_target in Hr. fold (matching (sv_installed s) ports value) in Hr.
  destruct (matching _ _ _) as [|c [|]] eqn:Em; [done| |done]. destruct (is_known_unhealthy _) eqn:Eh; [done|]. injection Hr as <-. cbn.
  destruct (matching_port _ _ _ _ Em) as (d & Hd & Hc). destruct (pico_port_board _ _ _ Hc) as (Hb & Hn & Hh).
  exists d. split_and!; [done..|]. rewrite <- Hh. intros Hp. by destruct (pico_health c).
Qed.

Lemma reset_only_interface value interfaces i :
  (∃ l, Did ResetInterfaces l ∈ tr ∧ interfaces = pico_reset_interfaces (sv_installed s) (family_id self) l) →
  resolve_reset_only_target value (pico_cdc_ports (sv_installed s) (family_id self) ports) interfaces = Ok (Some i) →
  the_interface (sv_installed s) ports tr value i.
Proof.
  intros (l & Hl & ->) H. unfold resolve_reset_only_target in H. apply result_bind_Ok in H as ([[serial identity]|] & Hw & H); [|done].
  assert (find_reset serial identity (pico_reset_interfaces (sv_installed s) (family_id self) l) = [i]) as E.
  { destruct (find_reset _ _ _) as [|j [|]]; [done| |done]. by injection H as ->. }
  destruct (find_reset_sole _ _ _ _ _ E) as [Hsole Hid]. exists l, serial. split_and!; [done..|].
  destruct (serial_selector value) as [x|] eqn:Es; [left; injection Hw as <- <-; by apply serial_selector_selects|]. right.
  assert (∀ c, filter (λ c, pico_name c = value) (pico_cdc_ports (sv_installed s) (family_id self) ports) = [c] →
    matching (sv_installed s) ports value = [c]) as Hm by (intros c; unfold matching; by rewrite Es).
  destruct (filter _ (pico_cdc_ports _ _ _)) as [|c [|]]; [done| |done]. destruct (matching_port _ _ _ c (Hm c eq_refl)) as (d & Hd & Hc).
  exists d. split; [done|]. destruct (is_known_unhealthy _); [|done]. destruct (pico_serial c) eqn:Ec; [|done]. injection Hw as <- <-.
  destruct (Hid _ _ eq_refl) as [-> ->]. rewrite <- Ec. by eapply pico_port_board.
Qed.

Lemma reset_only_bound i : sv_reset_only_target s = Some i → ∃ value, chosen port = Some value ∧ the_interface (sv_installed s) ports tr value i.
Proof.
  intros Hi. pose proof (su_target _ _ _ _ _ _ Hsv) as H. destruct (sv_volume_before_reset s); [destruct H as (? & ? & _); congruence|].
  destruct H as (l & Hl & Hrs & H). unfold choose_target in H. destruct (chosen port) as [value|]; [|injection H; congruence].
  destruct (resolve_requested_runtime_target _ _); [injection H; congruence|]. exists value. split; [done|].
  apply result_bind_Ok in H as ([i'|] & Hi' & H); [|done]. injection H as _ H. assert (i' = i) as -> by congruence.
  eapply reset_only_interface; [by exists l|done].
Qed.

Lemma reset_bound i : reset_of s i → ∃ value, chosen port = Some value ∧ the_interface (sv_installed s) ports tr value i.
Proof.
  intros [Hi|(t & Ht & Hr)]; [by apply reset_only_bound|]. destruct (runtime_target_port t Ht) as (value & d & Hv & Hd & Hb & _).
  exists value. split; [done|]. pose proof (su_target _ _ _ _ _ _ Hsv) as H.
  destruct (sv_volume_before_reset s); [destruct H as (? & _); congruence|]. destruct H as (l & Hl & Hrs & _). rewrite Hrs in Hr.
  unfold reset_interface_for_runtime_target in Hr. destruct (target_serial t) as [serial|]; [|done].
  destruct (find_reset _ _ _) as [|j [|]] eqn:E; [done| |done]. injection Hr as ->. destruct (find_reset_sole _ _ _ _ _ E) as [Hsole Hid].
  destruct (Hid _ _ eq_refl) as [Ev Ep]. exists l, serial. split_and!; [done..|]. right. exists d. split; [done|]. by rewrite Ev, Ep.
Qed.

Lemma serial_bound serial : sv_requested_serial s = Some serial → ∃ value, chosen port = Some value ∧ its_serial (sv_installed s) ports tr value serial.
Proof.
  rewrite (su_serial _ _ _ _ _ _ Hsv). destruct (chosen port ≫= serial_selector) as [x|] eqn:Ec.
  { intros [= ->]. apply bind_Some in Ec as (value & Hv & E). exists value. split; [done|]. left. by apply serial_selector_selects. }
  cbn. destruct (sv_runtime_target s ≫= target_serial) as [x|] eqn:Er; cbn.
  - intros [= ->]. apply bind_Some in Er as (t & Ht & Hts). destruct (runtime_target_port t Ht) as (value & d & Hv & Hd & Hb & _).
    exists value. split; [done|]. right. left. exists d, (target_vid t), (target_pid t). by rewrite Hts in Hb.
  - intros (i & Hi & ->)%fmap_Some. destruct (reset_only_bound i Hi) as (value & Hv & Hb). exists value. split; [done|]. right. right. eauto.
Qed.

Lemma boot_profile_iff pr v p : boot_profile (sv_installed s) pr v p ↔
  pr ∈ all_profiles (Some (sv_installed s)) ∧ bootloader_profile_matches_family pr (family_id self) = true ∧
  im_vid (identity_match pr) = v ∧ im_pid (identity_match pr) = Some p.
Proof.
  unfold boot_profile, all_profiles, bootloader_profile_matches_family. rewrite (merge_sort_Permutation priority_ge), list_elem_of_fmap.
  rewrite !andb_true_iff, !bool_decide_eq_true. split.
  - intros ((e & He & <-) & H1 & H2 & H3 & H4 & H5). split_and!; eauto.
  - intros ((e & -> & He) & [[[H1 H2] H3] _] & H4 & H5). split_and!; eauto.
Qed.

Lemma bootsel_ids_elem v p :
  (v, p) ∈ bootsel_identities (family_id self) (all_profiles (Some (sv_installed s))) ↔ ∃ pr, boot_profile (sv_installed s) pr v p.
Proof.
  unfold bootsel_identities. rewrite elem_of_list_to_set, list_elem_of_omap. split.
  - intros (pr & [Hb Hin]%list_elem_of_filter & E). apply bind_Some in E as (pid & Hp & [= <- <-]). exists pr. by apply boot_profile_iff.
  - intros (pr & (Hin & Hb & <- & Hp)%boot_profile_iff). exists pr. rewrite list_elem_of_filter, Hp. by split_and!.
Qed.

Lemma picotool_target_bound t : sv_picotool_target s = Some t →
  sv_requested_serial s = Some (pt_serial_number t) ∧ boot_ids (sv_installed s) (pt_vendor_id t) (pt_product_id t).
Proof.
  intros Ht. pose proof (su_picotool _ _ _ _ _ _ Hsv) as H. rewrite Ht in H. unfold transposed in H.
  destruct (sv_requested_serial s) as [serial|]; [|done]. unfold picotool_target_for_family, picotool_target_from_profiles in H.
  destruct (elements _) as [|[v p] [|]] eqn:E; [done| |done]. injection H as <-. split; [done|]. cbn.
  assert (∀ x y, (∃ pr, boot_profile (sv_installed s) pr x y) ↔ (x, y) = (v, p)) as Hx.
  { intros x y. rewrite <- bootsel_ids_elem, <- elem_of_elements, E. apply list_elem_of_singleton. }
  split; [by apply Hx|]. intros pr v' p' Hp. assert ((v', p') = (v, p)) as [= -> ->]; [|done]. apply Hx. eauto.
Qed.

Lemma application_target_bound t : application_target s None = Some t → ∃ value vid pid, chosen port = Some value ∧
  its_application (sv_installed s) ports tr value vid pid ∧ pt_vendor_id t = hex4 "a" vid ∧ pt_product_id t = hex4 "a" pid.
Proof.
  unfold application_target. destruct (sv_reset_only_target s) as [i|] eqn:Ei.
  - intros [= <-]. destruct (reset_only_bound i Ei) as (value & Hv & Hi). exists value, (ri_vid i), (ri_pid i). split_and!; [done| |done..].
    right. by exists i.
  - cbn. intros H. apply bind_Some in H as (rt & Hrt & H). apply bind_Some in H as (serial & Hs & H). destruct (_ || _); [done|]. injection H as <-.
    destruct (runtime_target_port rt Hrt) as (value & d & Hv & Hd & Hb & _). exists value, (target_vid rt), (target_pid rt).
    split_and!; [done| |done..]. left. eauto.
Qed.

Lemma bound_allowed : allows picotool s (bound port tr (sv_installed s) ports).
Proof.
  split; [done|done| |].
  - intros args [(a & t & Ht & ->)|[(t & Ht & ->)|[(t & Ht & ->)| ->]]]; [right|right|right|by left].
    1-2: destruct (picotool_target_bound t Ht) as [Hs Hb]; destruct (serial_bound _ Hs) as (value & Hv & Hser); exists value; (split; [done|]); left;
      exists (pt_serial_number t), (pt_vendor_id t), (pt_product_id t).
    + exists [Text (&"load"); File a; Text (&"-x")]. by split_and!.
    + exists [Text (&"info")]. by split_and!.
    + destruct (application_target_bound t Ht) as (value & vid & pid & Hv & Ha & Ev & Ep). exists value. split; [done|]. right.
      exists vid, pid. split; [done|]. unfold reboot_to_bootsel_args, append_target_vid_pid. by rewrite Ev, Ep.
  - intros i Hi. right. by apply reset_bound.
Qed.
End Bound.

(** Profiles and ports the host reported bind whatever acts on a board. *)
Definition bound_to_board (port : option str) (tr : list (Obs ev)) : Prop :=
  Forall (λ o, act o = Mute) tr ∨
  ∃ installed ports, Did EnsureProfiles (Some installed) ∈ tr ∧ Did AvailablePorts (Ok ports) ∈ tr ∧
    Forall (λ o, bound port tr installed ports (act o)) tr.

Lemma bound_weaken port tr tr' installed ports a : bound port tr installed ports a → tr ⊆ tr' → bound port tr' installed ports a.
Proof.
  intros H Hs. assert (∀ value i, the_interface installed ports tr value i → the_interface installed ports tr' value i) as Hi.
  { intros value i (l & x & Hl & Hx). exists l, x. split; [by apply Hs|done]. }
  assert (∀ value, bound_act installed ports tr value a → bound_act installed ports tr' value a) as Ha.
  { intros value. destruct a as [|p|i|d|args]; [done|done|apply Hi|done|].
    intros [(x & v & p & front & Hx & Hb)|(vid & pid & Hx & Hb)]; [left; exists x, v, p, front|right; exists vid, pid]; (split; [|done]).
    - destruct Hx as [Hx|[Hx|(i & Hx & E)]]; [by left|right; by left|right; right; exists i; split; [by apply Hi|done]].
    - destruct Hx as [Hx|(i & Hx & E)]; [by left|right; exists i; split; [by apply Hi|done]]. }
  destruct a; cbn in H |- *; [done| | |done|].
  all: destruct H as [H|(value & Hv & H)]; [by left|right; exists value; split; [done|by apply Ha]].
Qed.

End Deploy.
