(* ===== verification/Rp2040Success.v ===== *)
(** * RP2040 deployment: what success means

    A deployment that reports success has put a valid image on a board: it was
    written to a volume that had shown a BOOTSEL marker and then showed it no
    more, or picotool loaded it; and a port it returns was listed and opened. *)
From stdpp Require Import sorting.
From S2P Require Import Prelude RustStr CachePaths PathBuf NormPath DeviceManager UsbProfiles DeployPort Effects Uf2.
From S2P Require Import Rp2040Target Rp2040Host Rp2040Deploy Rp2040Acts Rp2040Safe.
From S2P Require Fingerprint.
Local Open Scope Z.
Local Open Scope prog_scope.

(** ** What the host answered *)

(** The marker of the volume was looked for and not found. *)
Definition gone (v : PathBuf) (tr : list (Obs ev)) : Prop :=
  ∃ text, Did (ReadToString (marker_of v)) text ∈ tr ∧ ∀ t, text = Some t → ¬ shows_chip t.
(** picotool was run to load the artifact, and reported success. *)
Definition loaded (picotool artifact : PathBuf) (tr : list (Obs ev)) : Prop :=
  ∃ options timeout out, Did (RunCommand (File picotool :: Text (&"load") :: File artifact :: options) timeout) (Ok out) ∈ tr ∧ tool_success out = true.

(** From now on the host reads this from the file. *)
Definition steady (file : PathBuf) (bytes : str) (tr : list (Obs ev)) : Prop :=
  (∀ x, Did (ReadFile file) (Ok x) ∈ tr → x = bytes) ∧ (∀ n, Did (FileLen file) (Ok n) ∈ tr → n = Z.of_nat (length bytes)).

(** ** What a file on a volume holds *)

(** The bytes the host took for [d] since it was last opened. *)
Definition written_step (d : PathBuf) (st : option str) (o : Obs ev) : option str :=
  match o with
  | Did e x =>
      match e in ev X return X → option str with
      | OpenShared d' => λ x, if bool_decide (d' = d) && bool_decide (x = None) then Some [] else st
      | WriteTo d' bytes => λ x, match x with Ok n => if bool_decide (d' = d) then (λ s, s ++ take n bytes) <$> st else st | Err _ => st end
      | _ => λ _, st
      end x
  end.
Definition written (d : PathBuf) (st : option str) (tr : list (Obs ev)) : option str := foldl (written_step d) st tr.

#[global] Instance ErrorClass_eq_dec : EqDecision ErrorClass.
Proof. solve_decision. Defined.

Lemma written_app d st tr tr' : written d st (tr ++ tr') = written d (written d st tr) tr'.
Proof. apply foldl_app. Qed.

Lemma written_step_reset d o : written_step d None o = None ∨ ∀ st, written_step d st o = written_step d None o.
Proof. destruct o as [X e x]. destruct e; cbn; auto; [destruct (_ && _)|destruct x; [destruct (bool_decide _)|]]; auto. Qed.

Lemma written_any d c tr st : written d None tr = Some c → written d st tr = Some c.
Proof.
  revert st. induction tr as [|o tr IH]; intros st; [done|]. cbn. fold (written d (written_step d None o) tr) (written d (written_step d st o) tr).
  destruct (written_step_reset d o) as [E|E]; [rewrite E; auto|rewrite (E st); auto].
Qed.

Lemma written_prepend d c tr tr' : written d None tr' = Some c → written d None (tr ++ tr') = Some c.
Proof. intros H. rewrite written_app. by apply written_any. Qed.

Lemma written_quiet d st tr : always (λ o, act o = Mute) tr → written d st tr = st.
Proof.
  intros H. induction H as [|o tr Ho _ IH]; [done|]. cbn. fold (written d (written_step d st o) tr).
  assert (written_step d st o = st) as ->; [|done]. destruct o as [X e x]. by destruct e.
Qed.

(** The first [len] bytes of the artifact are on the volume, as many as it was
    found to have (an artifact that somebody emptied meanwhile is no image). *)
Definition transferred (artifact v : PathBuf) (tr : list (Obs ev)) : Prop :=
  ∃ len, Did (FileLen artifact) (Ok len) ∈ tr ∧
    (0 < len → ∃ bytes, Did (ReadFile artifact) (Ok bytes) ∈ tr ∧ written (image_on v) None tr = Some (take (Z.to_nat len) bytes)).

Lemma transferred_prepend artifact v tr tr' : transferred artifact v tr' → transferred artifact v (tr ++ tr').
Proof.
  intros (len & H1 & H2). exists len. split; [apply elem_of_app; by right|]. intros Hl.
  destruct (H2 Hl) as (bytes & H3 & H4). exists bytes. split; [apply elem_of_app; by right|by apply written_prepend].
Qed.

(** Of an artifact that nobody changes, it is the whole. *)
Lemma transferred_steady artifact v bytes tr : transferred artifact v tr → bytes ≠ [] → steady artifact bytes tr →
  written (image_on v) None tr = Some bytes.
Proof.
  intros (len & Hl & H) Hn [H1 H2]. rewrite (H2 len Hl) in H. destruct H as (x & Hx & ->); [by destruct bytes|].
  rewrite (H1 x Hx), Nat2Z.id. by rewrite firstn_all.
Qed.

(** ** The transfer *)

Definition reported (r : result Uf2WriteFailure Z) : Z := match r with Ok n => n | Err f => wf_bytes_written f end.

Lemma write_all_yields fuel d bytes n : yields (write_all fuel d bytes n)
  (λ tr r, ∀ c, ∃ k, written d (Some c) tr = Some (c ++ take k bytes) ∧ reported r = n + Z.of_nat k).
Proof.
  revert bytes n. induction fuel as [|fuel IH]; intros [|b bytes] n; cbn [write_all].
  1,3: apply yields_ret; intros c; exists 0%nat; cbn; rewrite app_nil_r; split; [done|lia].
  { apply wp_execs. by intros tr r [-> [-> | ->]]. }
  apply yields_trigger. intros [[|k]|e]; [| |].
  1,3: apply yields_ret; intros c; exists 0%nat; cbn; rewrite ?bool_decide_true by done; cbn; rewrite ?app_nil_r; split; [done|lia].
  eapply yields_mono; [apply IH|]. cbn beta. intros tr r H c. destruct (H (c ++ take (S k) (b :: bytes))) as (m & H1 & H2).
  exists (S k + m)%nat. split; [|rewrite H2; lia]. cbn [written foldl written_step]. rewrite bool_decide_true by done. cbn [fmap option_fmap option_map].
  unfold written in H1. rewrite H1, <- app_assoc. do 2 f_equal. apply take_take_drop.
Qed.

Lemma quiet_yields {A} (p : P A) : acts (λ a, a = Mute) p anything → yields p (λ tr _, always (λ o, act o = Mute) tr).
Proof. intros H. eapply yields_mono; [exact (yields_safe _ _ _ H)|]. by intros tr a [? _]. Qed.

Lemma write_direct_yields artifact d : yields (write_uf2_artifact_direct artifact d)
  (λ tr r, 0 < reported r → ∃ bytes k, Did (ReadFile artifact) (Ok bytes) ∈ tr ∧ written d None tr = Some (take k bytes) ∧ reported r = Z.of_nat k).
Proof.
  apply yields_trigger. intros [bytes|e]; [|by apply yields_ret]. apply yields_trigger. intros [e|]; [by apply yields_ret|].
  eapply yields_try; [apply write_all_yields| |].
  - intros tr n H. apply yields_trigger. intros x. apply yields_ret. intros _. exists bytes. destruct (H []) as (k & H1 & H2). exists k.
    split_and!; [by left| |destruct x; cbn in *; lia]. cbn. rewrite !bool_decide_true by done. cbn. change (foldl _ _ _) with (written d (Some []) (tr ++ [Did (Flush d) x])).
    rewrite written_app, H1. by destruct x.
  - intros tr f H _. exists bytes. destruct (H []) as (k & H1 & H2). exists k. split_and!; [by left| |cbn in *; lia].
    cbn. rewrite !bool_decide_true by done. cbn. exact H1.
Qed.

Lemma copy_yields artifact v : yields (copy_prepared_uf2 artifact v) (λ tr r, ∀ d, r = Ok d → transferred artifact v tr).
Proof.
  unfold copy_prepared_uf2. rewrite new_uf2_on. eapply yields_try with (Q := λ tr r, ∀ a : unit, r = Ok a → transferred artifact v tr);
    [|intros tr a H; apply yields_ret; rewrite app_nil_r; intros _ _; exact (H a eq_refl)|done].
  unfold copy_uf2_artifact_with, attempt. apply yields_trigger. intros [len|e]; [|by apply yields_ret]. cbn [bind on_ok].
  eapply yields_bind; [apply write_direct_yields|]. intros tr r H.
  assert (∀ tr', (reported r = len → always (λ o, act o = Mute) tr' → transferred artifact v (Did (FileLen artifact) (Ok len) :: tr ++ tr'))) as Ht.
  { intros tr' Hr Hq. exists len. split; [by left|]. intros Hl. destruct H as (bytes & k & H1 & H2 & H3); [lia|]. exists bytes.
    split; [right; apply elem_of_app; by left|]. cbn. fold (written (image_on v) None (tr ++ tr')). rewrite written_app, H2, written_quiet by done.
    do 2 f_equal. lia. }
  destruct r as [n|f]; cbn [reported] in *.
  - destruct (Z.eqb_spec n len); apply yields_ret; [|done]. intros _ _. apply Ht; [done|constructor].
  - destruct (Z.eqb_spec (wf_bytes_written f) len) as [E|E]; cbn [andb]; [|cbn [bind]; by apply yields_ret].
    destruct (is_device_disappearance_error _); [|cbn [bind]; by apply yields_ret].
    eapply yields_bind; [apply quiet_yields; apply acts_then; [by apply wait_for_volume_disappearance_acts|pace]|].
    intros tr' a Hq. apply yields_ret. rewrite app_nil_r. intros _ _. by apply Ht.
Qed.

Lemma find_yields windows timeout before :
  yields (find_uf2_volume_until windows timeout before) (λ tr r, ∀ v, r = Ok (Some v) → mounted v tr).
Proof.
  unfold find_uf2_volume_until, find_uf2_volume_until_with. apply yields_trigger. intros now. generalize (turns timeout), (now + timeout), false.
  intros fuel deadline attempted. apply (yields_mono _ (λ tr r, ∀ v, r = Ok (Some v) → mounted v tr)); [|intros tr r H v E; right; by apply H].
  revert attempted. induction fuel as [|fuel IH]; intros attempted; cbn [find_loop]; [by split|].
  eapply yields_bind; [instantiate (1 := λ tr r, ∀ v, r = Ok (Some v) → mounted v tr)|].
  { unfold scan_appeared. eapply yields_bind; [apply mounted_volumes_yields|]. intros tr l [Hl _]. apply yields_ret. rewrite app_nil_r.
    intros v. unfold select_appeared_volume, select_single_uf2_volume. destruct (1 <? _)%nat; [done|]. intros [= Hv].
    apply last_Some_elem_of in Hv. apply list_elem_of_filter in Hv as [_ Hv]. by apply Hl. }
  intros tr [[found|]|e] H; cbn [on_ok]; [|clear H|by apply yields_ret].
  - apply yields_ret. rewrite app_nil_r. intros v [= <-]. by apply H.
  - eapply yields_bind; [apply yields_true|]. intros tr1 b _. apply yields_trigger. intros t. destruct (_ <=? t); [by apply yields_ret|].
    apply yields_trigger. intros x. eapply yields_mono; [apply IH|]. cbn beta. intros tr2 r Hr v E.
    rewrite !mounted_app. right. right. do 2 right. by apply Hr.
Qed.

(** The volume written to is the first one, or was found by a later search. *)
Definition put_on_one (artifact first v : PathBuf) (tr : list (Obs ev)) : Prop :=
  ∃ before after, tr = before ++ after ∧ (v = first ∨ mounted v before) ∧ transferred artifact v after.

Lemma put_on_one_after artifact first next v tr tr' : mounted next tr → put_on_one artifact next v tr' → put_on_one artifact first v (tr ++ tr').
Proof.
  intros Hm (b & a & -> & Hv & Ht). exists (tr ++ b), a. rewrite app_assoc. split_and!; [done| |done]. right. apply mounted_app.
  destruct Hv as [->|?]; [by left|by right].
Qed.

Lemma mass_storage_yields windows volume artifact bt budget before :
  yields (run_mass_storage_transfer windows volume artifact bt budget before) (λ tr r, ∀ t, r = Ok t → put_on_one artifact volume (mt_volume t) tr).
Proof.
  unfold run_mass_storage_transfer, transfer_uf2_with_retries. generalize (S UF2_TRANSFER_ATTEMPTS), 0%nat. intros fuel.
  revert volume. induction fuel as [|fuel IH]; intros volume attempts; cbn [transfer_loop]; [by split|].
  eapply yields_bind; [instantiate (1 := λ tr r, ∀ d, r = Ok d → transferred artifact volume tr)|].
  { unfold run_with_watchdog. apply yields_trigger. intros [n|].
    - eapply yields_bind; [apply yields_true|]. intros tr o _. by apply yields_ret.
    - eapply yields_mono; [apply copy_yields|]. intros tr r H d E. apply (transferred_prepend artifact volume [_]). by eapply H. }
  intros tr [d|e] H.
  { apply yields_ret; rewrite app_nil_r; intros t [= <-]. exists [], tr. split_and!; [done|by left|by eapply H]. }
  clear H. eapply yields_bind; [apply yields_true|]. intros tr1 [|] _; [|by apply yields_ret].
  eapply yields_bind; [apply find_yields|]. intros tr2 [[next|]|e'] Hn; [|by apply yields_ret..].
  eapply yields_mono; [apply IH|]. cbn beta. intros tr3 r H t E. rewrite !app_assoc. eapply put_on_one_after; [|by apply H].
  rewrite !mounted_app. right. by apply Hn.
Qed.

(** ** The image *)

(** The file held these bytes when it was read or written. *)
Definition held (file : PathBuf) (bytes : str) (tr : list (Obs ev)) : Prop :=
  Did (ReadFile file) (Ok bytes) ∈ tr ∨ Did (WriteFile file bytes) None ∈ tr.
(** The artifact held an image for the family. *)
Definition image (family : Z) (artifact : PathBuf) (bytes : str) (target : Uf2Target) (tr : list (Obs ev)) : Prop :=
  validate_uf2 family bytes = Some (Ok target) ∧ held artifact bytes tr.

Lemma image_weaken family artifact bytes target tr tr' : image family artifact bytes target tr → tr ⊆ tr' → image family artifact bytes target tr'.
Proof. intros [Hv [Hb|Hb]] Hs; (split; [done|]); [left|right]; by apply Hs. Qed.

Lemma image_not_empty family artifact bytes target tr : image family artifact bytes target tr → bytes ≠ [].
Proof. intros [Hv _] ->. by vm_compute in Hv. Qed.

Lemma check_image_yields family artifact bytes :
  yields (check_image family artifact bytes) (λ _ r, ∀ a t, r = Ok (a, t) → a = artifact ∧ validate_uf2 family bytes = Some (Ok t)).
Proof.
  unfold check_image. destruct (validate_uf2 family bytes) as [[t|e]|]; [apply yields_ret|apply yields_ret|by split]; [|done].
  by intros a t' [= <- <-].
Qed.


Lemma prepare_yields firmware family :
  yields (prepare_uf2_artifact firmware family) (λ tr r, ∀ artifact t, r = Ok (artifact, t) → ∃ bytes, image family artifact bytes t tr).
Proof.
  unfold prepare_uf2_artifact. destruct (_ && _); [by apply yields_ret|]. unfold attempt at 1. apply yields_trigger.
  intros [input|e]; [|by apply yields_ret]. cbn [bind on_ok].
  set (sibling := Fingerprint.with_extension firmware _).
  assert (∀ a b tr0, held a b tr0 →
    yields (check_image family a b) (λ tr r, ∀ artifact t, r = Ok (artifact, t) → ∃ bytes, image family artifact bytes t (tr0 ++ tr))) as Hc.
  { intros a b tr0 Ho. eapply yields_mono; [apply check_image_yields|]. cbn beta. intros tr r H artifact t E.
    destruct (H _ _ E) as [-> Hv]. exists b. eapply image_weaken; [by split|]. intros o Hin. apply elem_of_app. by left. }
  destruct (has_extension firmware _).
  - eapply yields_try; [apply yields_true| |done]. intros tr [] _. apply (Hc firmware input (Did (ReadFile firmware) (Ok input) :: tr)). left. by left.
  - apply yields_trigger. intros [|].
    + eapply yields_try; [apply yields_true| |done]. intros tr [] _. unfold attempt. apply yields_trigger.
      intros [bytes|e]; [|by apply yields_ret]. cbn [bind on_ok].
      eapply yields_mono; [apply (Hc sibling bytes (Did (ReadFile firmware) (Ok input) :: Did (IsFile sibling) true :: tr ++ [Did (ReadFile sibling) (Ok bytes)]))|].
      { left. do 2 right. apply elem_of_app. right. by left. }
      cbn beta. intros tr' r H artifact t E. specialize (H artifact t E). cbn in H. by rewrite <- app_assoc in H.
    + apply yields_trigger. intros [e|]; [by apply yields_ret|]. cbn [guard bind on_ok].
      eapply yields_mono; [apply (Hc sibling _
        [Did (ReadFile firmware) (Ok input); Did (IsFile sibling) false; Did (WriteFile sibling (encode_uf2_for_family input family)) None])|].
      { right. do 2 right. by left. }
      done.
Qed.

(** ** picotool *)

Lemma run_command_yields args timeout :
  yields (run_command args timeout) (λ tr r, ∀ out, r = Ok out → Did (RunCommand args timeout) (Ok out) ∈ tr).
Proof. unfold run_command, attempt. apply yields_trigger. intros [out|e]; apply yields_ret; [|done]. intros ? [= <-]. by left. Qed.

Lemma load_yields picotool artifact target context timeout mode :
  yields (load_with_managed_picotool picotool artifact target context timeout mode) (λ tr r, ∀ l, r = Ok l → loaded picotool artifact tr).
Proof.
  unfold load_with_managed_picotool. eapply yields_try; [apply yields_true| |done]. intros tr [] _.
  eapply yields_try; [apply run_command_yields| |done]. intros tr1 out H. apply yields_ret. intros l Hl.
  destruct (tool_success out) eqn:E; [|done]. rewrite app_nil_r. exists (Text (&"-x") :: append_target_selection target), timeout, out.
  split; [|done]. apply elem_of_app. right. by apply (H out).
Qed.

Lemma loaded_prepend picotool artifact tr tr' : loaded picotool artifact tr' → loaded picotool artifact (tr ++ tr').
Proof. intros (o & t & out & H & Hs). exists o, t, out. split; [apply elem_of_app; by right|done]. Qed.

Lemma primary_yields windows picotool artifact target timeout :
  yields (attempt_picotool_primary windows picotool artifact target timeout) (λ tr r, ∀ l, r = Ok l → loaded picotool artifact tr).
Proof.
  unfold attempt_picotool_primary. eapply yields_bind; [apply yields_true|]. intros tr pre _.
  destruct (negb _); [destruct pre; [by apply yields_ret|by split]|].
  eapply yields_bind; [apply yields_true|]. intros tr1 [[]|e] _; [|by apply yields_ret].
  eapply yields_mono; [apply load_yields|]. cbn beta. intros tr2 r H l E. rewrite app_assoc. apply loaded_prepend. by eapply H.
Qed.

(** ** The transfer as a whole *)

Definition flashed (picotool artifact : PathBuf) (volume : option PathBuf) (t : Transferred) (tr : list (Obs ev)) : Prop :=
  if tf_picotool_confirmed t then loaded picotool artifact tr
  else ∃ first v, volume = Some first ∧ tf_volume t = Some v ∧ put_on_one artifact first v tr.

Lemma flashed_prepend picotool artifact volume t tr tr' : flashed picotool artifact volume t tr' → flashed picotool artifact volume t (tr ++ tr').
Proof.
  unfold flashed. destruct (tf_picotool_confirmed t); [apply loaded_prepend|].
  intros (first & v & Hf & Hv & before & after & -> & Hm & Ht). exists first, v. split_and!; [done..|].
  exists (tr ++ before), after. rewrite app_assoc, mounted_app. split_and!; [done|tauto|done].
Qed.

Section Deploy.
Context (windows : bool) (picotool : PathBuf) (self : Rp2040Deployer).

Lemma by_picotool_yields volume artifact (p : P (result Failure PicotoolLoad)) method v prior :
  yields p (λ tr r, ∀ l, r = Ok l → loaded picotool artifact tr) →
  yields (loaded <~? p; Ret (Ok (loaded_by_picotool loaded method v prior)))
    (λ tr r, ∀ t, r = Ok t → flashed picotool artifact volume t tr).
Proof.
  intros H. eapply yields_try; [exact H| |done]. intros tr l Hl. apply yields_ret. intros t [= <-]. rewrite app_nil_r. by apply (Hl l).
Qed.

Lemma transports_yield s topology r artifact :
  yields (match effective_transport self s with
          | Uf2Drive => uf2_transport windows picotool self s topology (ar_volume r) (ar_volume_discovery_error r) artifact
          | Picotool => picotool_transport windows picotool self s topology (ar_volume r) (ar_volume_discovery_error r) artifact
          end) (λ tr x, ∀ t, x = Ok t → flashed picotool artifact (ar_volume r) t tr).
Proof.
  assert (∀ (v : PathBuf) (f : MscTransferFailure → P (result Failure Transferred)) method prior, ar_volume r = Some v →
    (∀ e, yields (f e) (λ tr x, ∀ t, x = Ok t → flashed picotool artifact (ar_volume r) t tr)) →
    yields (transfer <~ mass_storage windows self s v artifact;
            match transfer with Ok t => Ret (Ok (written_to_volume t method prior)) | Err e => f e end)
           (λ tr x, ∀ t, x = Ok t → flashed picotool artifact (ar_volume r) t tr)) as Hm.
  { intros v f method prior Hr Hf. eapply yields_bind; [apply mass_storage_yields|]. intros tr [t|e] H.
    - apply yields_ret. intros t' [= <-]. rewrite app_nil_r. exists v, (mt_volume t). split_and!; [done..|by apply H].
    - eapply yields_mono; [apply Hf|]. cbn beta. intros tr' x Hx t E. by apply flashed_prepend, Hx. }
  destruct (effective_transport self s); unfold picotool_transport, uf2_transport.
  - destruct (sv_picotool_target s) as [target|]; [|by apply yields_ret].
    eapply yields_bind; [apply primary_yields|]. intros tr [l|e] H.
    + apply yields_ret. intros t [= <-]. rewrite app_nil_r. by apply (H l).
    + destruct (ar_volume r) as [v|] eqn:Er; [|by apply yields_ret]. eapply yields_mono; [apply Hm; [done|]; intros e'; by apply yields_ret|].
      cbn beta. intros tr' x Hx t E. by apply flashed_prepend, Hx.
  - destruct (ar_volume r) as [v|] eqn:Er; [apply Hm; [done|]; intros e|destruct (ar_volume_discovery_error r); [|by split]].
    all: destruct (sv_picotool_target s) as [target|]; [apply by_picotool_yields, load_yields|by apply yields_ret].
Qed.

Lemma transfer_yields s topology r firmware :
  yields (transfer windows picotool self s topology r firmware)
    (λ tr x, ∀ target t, x = Ok (target, t) →
       ∃ artifact bytes, image (family_id self) artifact bytes target tr ∧ flashed picotool artifact (ar_volume r) t tr).
Proof.
  unfold transfer. eapply yields_try; [apply prepare_yields| |done]. intros tr [artifact target] Hi.
  eapply yields_try; [apply transports_yield| |done]. intros tr1 t Ht. apply yields_ret. intros ? ? [= <- <-].
  destruct (Hi artifact target eq_refl) as [bytes Hb]. exists artifact, bytes. rewrite app_nil_r.
  split; [|by apply flashed_prepend, Ht]. eapply image_weaken; [exact Hb|]. intros o Ho. apply elem_of_app. by left.
Qed.

(** The volume that is there when BOOTSEL is entered was seen. *)
Definition seen (s : Survey) (volume : option PathBuf) (tr : list (Obs ev)) : Prop :=
  ∀ v, volume = Some v → sv_volume_before_reset s = Some v ∨ mounted v tr.

Lemma touch_and_discover_yields s :
  yields (touch_and_discover windows self s) (λ tr r, ∀ v e, r = Ok (v, e) → seen s v tr).
Proof.
  unfold touch_and_discover. eapply yields_bind; [apply yields_true|]. intros tr reset_error _.
  destruct (sv_volume_before_reset s) as [v|] eqn:E; [apply yields_ret; intros ? ? [= <- <-] w [= <-]; by left|].
  eapply yields_try; [apply find_yields| |by intros]. intros tr1 found Hf. apply yields_ret. intros v e H w ->. right.
  rewrite !mounted_app. right. left. apply Hf. destruct found as [x|]; cbn in H; [by injection H as -> _|by destruct reset_error].
Qed.

Lemma recovery_yields {T} s (target : option T) volume error reboot tr0 : seen s volume tr0 →
  yields (run_application_reboot_recovery target volume error (bootloader_timeout self) reboot
    (find_uf2_volume_until windows (bootloader_timeout self) (sv_volumes_before s)))
    (λ tr r, ∀ x, r = Ok x → seen s (ar_volume x) (tr0 ++ tr)).
Proof.
  intros Hv. unfold run_application_reboot_recovery. destruct target as [t|]; [|apply yields_ret; intros x [= <-]; by rewrite app_nil_r].
  eapply yields_bind; [apply yields_true|]. intros tr [l|e] _.
  - eapply (yields_try _ _ (λ tr1 found, ∀ v, found = Ok (Some v) → mounted v tr1)); [| |done].
    + unfold attempt. eapply yields_bind; [apply find_yields|]. intros tr1 r H. apply yields_ret. rewrite app_nil_r.
      intros v E. apply H. destruct r; [by injection E as ->|done].
    + intros tr1 found H. apply yields_ret. intros x [= <-] v Hx. cbn in Hx. right. rewrite !mounted_app. right. right. left. apply H. congruence.
  - apply yields_ret. intros x [= <-] v Hx. cbn in Hx. destruct (Hv v Hx) as [?|?]; [by left|right]. rewrite mounted_app. by left.
Qed.

Lemma enter_bootsel_yields s :
  yields (enter_bootsel windows picotool self s) (λ tr r, ∀ topology x, r = Ok (topology, x) → seen s (ar_volume x) tr).
Proof.
  unfold enter_bootsel. eapply yields_bind; [apply yields_true|]. intros tr topology _.
  eapply yields_try; [apply touch_and_discover_yields| |by intros]. intros tr1 [v e] Hv. specialize (Hv v e eq_refl).
  destruct (native_reset_target windows s v) as [native|]; cbn [bind on_ok]; [|by apply yields_ret].
  eapply yields_try; [apply (recovery_yields s _ v e _ tr1 Hv)| |by intros]. intros tr2 x Hx. apply yields_ret. intros ? ? [= <- <-].
  rewrite app_nil_r. intros w Hw. destruct (Hx x eq_refl w Hw) as [?|?]; [by left|right]. rewrite mounted_app. by right.
Qed.

(** ** The port *)

(** The host listed the port as one of the family, not known to be in trouble
    and with the serial number, if one is asked for; and it opened. *)
Definition live (installed : InstalledProfiles) (serial : option str) (c : PicoCdcPort) (tr : list (Obs ev)) : Prop :=
  ¬ in_trouble (pico_health c) ∧ (∀ x, serial = Some x → pico_serial c = Some x) ∧
  (∃ ports, Did AvailablePorts (Ok ports) ∈ tr ∧ c ∈ pico_cdc_ports installed (family_id self) ports) ∧
  ∃ baud, Did (OpenSerial (pico_name c) baud) None ∈ tr.

Lemma live_prepend installed serial c tr tr' : live installed serial c tr' → live installed serial c (tr ++ tr').
Proof.
  intros (H1 & H2 & (ports & H3 & H4) & (b & H5)). split_and!; [done|done|exists ports; split; [|done]|exists b]; apply elem_of_app; by right.
Qed.

Lemma select_cdc_candidate_ok prev serial before ports c : select_cdc_candidate prev serial before ports = Ok (Some c) →
  c ∈ ports ∧ is_known_unhealthy (pico_health c) = false ∧ ∀ x, serial = Some x → pico_serial c = Some x.
Proof.
  unfold select_cdc_candidate. set (eligible := filter _ ports).
  assert (∀ x, x ∈ eligible → x ∈ ports ∧ is_known_unhealthy (pico_health x) = false) as He by (intros x [? ?]%list_elem_of_filter; done).
  destruct serial as [serial|].
  - destruct (filter _ eligible) as [|x [|]] eqn:E; [done| |done]. intros [= ->].
    assert (c ∈ filter (λ p, pico_serial p = Some serial) eligible) as [Hs Hc]%list_elem_of_filter by (rewrite E; by left).
    destruct (He c Hc). split_and!; [done|done|]. by intros ? [= <-].
  - destruct (prev ≫= _) as [x|] eqn:Ep; [|destruct (filter _ eligible) as [|x [|]] eqn:E; [done| |done]]; intros [= ->].
    + apply bind_Some in Ep as (old & _ & Hf). apply find_some in Hf as [Hf _]. apply list_elem_of_In in Hf. destruct (He c Hf). by split_and!.
    + assert (c ∈ filter (λ p, pico_name p ∉ before) eligible) as [_ Hc]%list_elem_of_filter by (rewrite E; by left).
      destruct (He c Hc). by split_and!.
Qed.

Lemma cdc_loop_yields fuel installed prev serial before timeout elapsed last_error :
  yields (cdc_loop fuel prev serial before timeout (catalogue_pico_cdc_ports installed (family_id self)) probe_cdc_openable elapsed last_error)
    (λ tr r, ∀ c, r = Ok c → live installed serial c tr).
Proof.
  revert last_error. induction fuel as [|fuel IH]; intros le; cbn [cdc_loop]; [by split|].
  assert (∀ ports le', yields (waited <~ elapsed;
    if timeout <=? waited then
      Ret (Err (CdcTimeout {| ct_elapsed := waited; ct_previous_port := prev; ct_requested_serial := serial; ct_candidates := ports; ct_last_open_error := le' |}))
    else _ <~ trigger (Sleep (Z.min CDC_POLL_INTERVAL (saturating_sub timeout waited)));
         cdc_loop fuel prev serial before timeout (catalogue_pico_cdc_ports installed (family_id self)) probe_cdc_openable elapsed le')
    (λ tr r, ∀ c, r = Ok c → live installed serial c tr)) as Hnext.
  { intros ports le'. eapply yields_bind; [apply yields_true|]. intros tr waited _. destruct (_ <=? _); [by apply yields_ret|].
    apply yields_trigger. intros x. eapply yields_mono; [apply IH|]. cbn beta. intros tr' r H c E.
    apply live_prepend, (live_prepend _ _ _ [_]), H, E. }
  unfold cdc_turn. eapply yields_bind; [apply catalogue_ports_yields|]. intros tr [ports|e] [_ Hp]; [|by apply yields_ret].
  destruct (Hp ports eq_refl) as (detected & Hd & ->). destruct (select_cdc_candidate _ _ _ _) as [[c|]|e] eqn:Es; [| |by apply yields_ret].
  - unfold probe_cdc_openable at 1. apply yields_trigger. intros [e|]; cbn [bind].
    + eapply yields_mono; [apply Hnext|]. cbn beta. intros tr' r H c' E. by apply live_prepend, (live_prepend _ _ _ [_]), H.
    + apply yields_ret. intros c' [= <-]. destruct (select_cdc_candidate_ok _ _ _ _ _ Es) as (H1 & H2 & H3).
      split_and!; [intros Ht; by destruct (pico_health c)|done|exists detected; split; [apply elem_of_app; by left|done]|].
      exists 115200. apply elem_of_app. right. by left.
  - eapply yields_mono; [apply Hnext|]. cbn beta. intros tr' r H c' E. by apply live_prepend, H.
Qed.

Lemma gone_prepend v tr tr' : gone v tr' → gone v (tr ++ tr').
Proof. intros (t & H1 & H2). exists t. split; [apply elem_of_app; by right|done]. Qed.

Lemma gone_append v tr tr' : gone v tr → gone v (tr ++ tr').
Proof. intros (t & H1 & H2). exists t. split; [apply elem_of_app; by left|done]. Qed.

Lemma gone_yields volume timeout :
  yields (wait_for_volume_disappearance volume timeout) (λ tr r, r = Ok tt → gone volume tr).
Proof.
  apply yields_trigger. intros now. generalize (turns timeout). intros fuel. generalize (now + timeout). intros deadline.
  apply (yields_mono _ (λ tr r, r = Ok tt → gone volume tr)); [|intros tr r H E; apply (gone_prepend _ [_]); by apply H].
  induction fuel as [|fuel IH]; cbn [gone_loop]; [by split|]. apply yields_trigger. intros t. destruct (t <? deadline); [|by apply yields_ret].
  unfold has_uf2_marker. rewrite info_file_of. apply yields_trigger. intros [c|]; cbn [bind]; [destruct (marker_text c) eqn:Em|].
  - apply yields_trigger. intros x. eapply yields_mono; [exact IH|]. cbn beta. intros tr r H E. apply (gone_prepend _ [_; _; _]). by apply H.
  - apply yields_ret. intros _. exists (Some c). split; [right; by left|]. intros ? [= <-] Hs%marker_text_iff. congruence.
  - apply yields_ret. intros _. exists None. split; [right; by left|done].
Qed.

(** ** The end of the deployment *)

Lemma wait_yields installed prev serial before timeout :
  yields (wait_for_cdc_port installed prev serial before (family_id self) timeout) (λ tr r, ∀ c, r = Ok c → live installed serial c tr).
Proof.
  apply yields_trigger. intros t. eapply yields_mono; [apply cdc_loop_yields|]. cbn beta. intros tr r H c E. apply (live_prepend _ _ _ [_]). by apply H.
Qed.

(** The serial number the port must have: the target's, or the one asked for. *)
Definition wanted_serial (s : Survey) : option str := or_else (sv_runtime_target s ≫= target_serial) (sv_requested_serial s).

Definition concluded (s : Survey) (target : Uf2Target) (t : Transferred) (res : DeploymentResult) (tr : list (Obs ev)) : Prop :=
  dr_success res = true ∧ dr_outcome res = (match target with Ram => RamLoad | Flash => FullFlash end) ∧
  (∀ v, tf_volume t = Some v → gone v tr) ∧
  (∀ p, dr_port res = Some p → ∃ c, pico_name c = p ∧ live (sv_installed s) (wanted_serial s) c tr).

Lemma confirm_yields s b target t :
  yields (confirm picotool self s b target t) (λ tr r, ∀ res, r = Ok res → concluded s target t res tr).
Proof.
  unfold confirm. eapply yields_try with (Q := λ tr r, r = Ok tt → ∀ v, tf_volume t = Some v → gone v tr); [| |done].
  { destruct (tf_volume t) as [v|]; [|by apply yields_ret]. eapply yields_bind; [apply gone_yields|]. intros tr [[]|e] H.
    - apply yields_ret. intros _ ? [= <-]. rewrite app_nil_r. by apply H.
    - eapply yields_bind; [apply yields_true|]. intros tr' r _. by apply yields_ret. }
  intros tr [] Hv. specialize (Hv eq_refl). destruct (decide (target = Ram)) as [->|Hram].
  { apply yields_ret. intros res [= <-]. rewrite app_nil_r. by split_and!. }
  fold (wanted_serial s). eapply yields_bind; [apply wait_yields|]. intros tr1 w Hw.
  destruct (resolve_post_flash_cdc _ w _) as [cdc|e] eqn:Ec; cbn [bind on_ok]; [|by apply yields_ret].
  destruct (match cdc with Confirmed _ => _ | Unconfirmed _ => _ end) as [message port] eqn:Em. apply yields_ret. intros res [= <-]. rewrite app_nil_r.
  split_and!; cbn; [done|by destruct target|intros v Ht; apply gone_append; by apply Hv|].
  intros p ->. destruct cdc as [q|]; [|done]. injection Em as _ ->. destruct w as [c|[?|?]]; cbn in Ec; [|by destruct (_ || _)|done].
  injection Ec as <-. exists c. split; [done|]. by apply live_prepend, Hw.
Qed.

(** The volume showed a marker, and took the artifact afterwards; of an artifact
    that still held the validated bytes, all of them. *)
Definition put_on (artifact : PathBuf) (bytes : str) (v : PathBuf) (tr : list (Obs ev)) : Prop :=
  ∃ before after, tr = before ++ after ∧ mounted v before ∧ transferred artifact v after ∧
    (steady artifact bytes after → written (image_on v) None after = Some bytes).

Lemma put_on_seen s artifact bytes target first v tr0 tr1 tr2 volume : image (family_id self) artifact bytes target tr2 →
  (∀ x, sv_volume_before_reset s = Some x → mounted x tr0) → seen s volume tr1 → volume = Some first →
  put_on_one artifact first v tr2 → put_on artifact bytes v (tr0 ++ tr1 ++ tr2).
Proof.
  intros Hi H0 Hs Hf (before & after & -> & Hv & Ht). exists (tr0 ++ tr1 ++ before), after. rewrite <- !app_assoc.
  split_and!; [done| |done|intros Hst; eapply transferred_steady; [done|by eapply image_not_empty|done]]. rewrite !mounted_app.
  destruct Hv as [->|?]; [|by right; right]. destruct (Hs first Hf) as [?|?]; [left; by apply H0|by right; left].
Qed.

Definition accomplished (port : option str) (res : DeploymentResult) (tr : list (Obs ev)) : Prop :=
  ∃ s ports artifact bytes target tr0 tr1 tr2, tr = tr0 ++ tr1 ++ tr2 ∧ surveyed windows self port tr0 ports s ∧
    image (family_id self) artifact bytes target tr1 ∧
    (loaded picotool artifact tr1 ∨ ∃ v, put_on artifact bytes v (tr0 ++ tr1) ∧ gone v tr2) ∧
    dr_success res = true ∧ dr_outcome res = (match target with Ram => RamLoad | Flash => FullFlash end) ∧
    ∀ p, dr_port res = Some p → ∃ c, pico_name c = p ∧ live (sv_installed s) (wanted_serial s) c tr2.

Lemma flash_yields firmware port tr0 ports s : surveyed windows self port tr0 ports s →
  yields (flash windows picotool self firmware s) (λ tr x, ∀ res, x = Ok res → accomplished port res (tr0 ++ tr)).
Proof.
  intros Hsv. unfold flash. eapply yields_try; [apply enter_bootsel_yields| |done]. intros tr [topology r] Hr. specialize (Hr topology r eq_refl).
  eapply yields_try; [apply transfer_yields| |done]. intros tr1 [target t] H. destruct (H target t eq_refl) as (artifact & bytes & Hi & Hf).
  eapply yields_mono; [apply confirm_yields|]. cbn beta. intros tr2 x Hx res E. destruct (Hx res E) as (H1 & H2 & H3 & H4).
  exists s, ports, artifact, bytes, target, tr0, (tr ++ tr1), tr2.
  rewrite <- !app_assoc. split_and!; [done|done| | |done|done|done].
  - eapply image_weaken; [exact Hi|]. intros o Ho. apply elem_of_app. by right.
  - unfold flashed in Hf. destruct (tf_picotool_confirmed t); [left; by apply loaded_prepend|].
    destruct Hf as (first & v & Hfirst & Hv & Hp). right. exists v. split; [|by apply H3]. eapply put_on_seen; [done| |done..].
    intros y Hy. pose proof (su_target _ _ _ _ _ _ Hsv) as Ht. rewrite Hy in Ht. by destruct Ht as (_ & _ & ?).
Qed.

Lemma deploy_yields firmware port :
  yields (deploy windows picotool self firmware port) (λ tr x, ∀ res, x = Ok res → accomplished port res tr).
Proof.
  unfold deploy. eapply yields_try; [apply survey_yields| |done]. intros tr0 s Hs. destruct (Hs s eq_refl) as [ports Hsv].
  exact (flash_yields firmware port tr0 ports s Hsv).
Qed.

(** C7: success is earned.  When the deployment reports success, an artifact
    held a valid image for the board's family when it was read or written;
    and either picotool reported that it loaded the artifact, or a volume that
    had shown a BOOTSEL marker took, after that, as many bytes of the artifact
    as it had (all the validated bytes, if nobody changed it meanwhile), and
    showed no marker any more afterwards.  The outcome says whether the image
    went to flash or to RAM; and a port that is returned was listed by the host
    afterwards with the serial number of the board, where that is known, was
    not known to be in trouble, and opened. *)
Theorem deploy_success firmware port tr res :
  execs (deploy windows picotool self firmware port) tr (Done (Ok res)) → accomplished port res tr.
Proof. intros He. exact (yields_execs _ _ _ _ (deploy_yields firmware port) He res eq_refl). Qed.
End Deploy.
