(* ===== verification/Rp2040Samples.v ===== *)
(** * RP2040 deployment: sample hosts

    Two boards on a Linux host: [A] runs its application, or is in BOOTSEL;
    [B] is in BOOTSEL until an image is written to it.  The theorems applied to runs against
    them, and what the code does that it should not. *)
From S2P Require Import Prelude RustStr CachePaths PathBuf NormPath DeviceManager UsbProfiles DeployPort Effects Uf2.
From S2P Require Import Rp2040Target Rp2040Host Rp2040Deploy Rp2040Time Rp2040Acts Rp2040Safe Rp2040Success.
Local Open Scope Z.

Definition path (s : str) : PathBuf := components s.
Definition volume_a : PathBuf := path (&"/media/u/RPI-RP2").
Definition volume_b : PathBuf := path (&"/media/u/RPI-RP21").
Definition firmware : PathBuf := path (&"/p/firmware.uf2").
Definition picotool_exe : PathBuf := path (&"/c/picotool").
Definition firmware_bytes : str := encode_uf2 (&"firmware").

Definition profile (pid : str) (p : UsbPurpose) (r : UsbDeviceRole) (i : option str) : UsbTransportProfile :=
  {| identity_match := {| im_vid := &"2e8a"; im_pid := Some pid; im_pid_mask := None |}; purpose := p; role := r;
     transport := []; reset := []; handoff := []; platform := None; family := Some (&"rp2040"); generation := None; interface := i;
     provenance := {| source_url := []; source_revision := []; source_class := [] |}; priority := 0; allow_ambiguous := false |}.
Definition indexed (pid : Z) (p : UsbTransportProfile) : IndexedProfile :=
  {| ix_vid := 0x2e8a; ix_pid := Some pid; ix_mask := None; ix_profile := p |}.
Definition pico_profiles : InstalledProfiles :=
  {| in_identities := [indexed 0x000a (profile (&"000a") Runtime RuntimeCdc (Some (&"cdc")));
                       indexed 0x0003 (profile (&"0003") Bootloader BootloaderUf2 None)];
     in_boards := ∅; in_aliases := ∅; in_ambiguous := ∅ |}.

Definition pico_at (name serial : str) : DetectedPort :=
  {| port_name := name; port_type := UsbPort 0x2e8a 0x000a (Some serial) None; health := HealthyPresent;
     det_instance_id := None; det_parent_instance_id := None; det_location_paths := [] |}.
Definition port_a : DetectedPort := pico_at (&"ttyACM0") (&"E661").
Definition port_b : DetectedPort := pico_at (&"ttyACM1") (&"E662").

(** [a_boot]: board [A] shows its volume; else it runs, if [a_there]. *)
Record World := { w_time : Z; a_there : bool; a_boot : bool; a_writable : bool; b_boot : bool }.
Definition set_a (there boot : bool) (w : World) : World :=
  {| w_time := w_time w; a_there := there; a_boot := boot; a_writable := a_writable w; b_boot := b_boot w |}.
Definition run_b (w : World) : World :=
  {| w_time := w_time w; a_there := a_there w; a_boot := a_boot w; a_writable := a_writable w; b_boot := false |}.
Definition volumes (w : World) : list PathBuf :=
  (if a_there w && a_boot w then [volume_a] else []) ++ (if b_boot w then [volume_b] else []).
Definition ports (w : World) : list DetectedPort :=
  (if a_there w && negb (a_boot w) then [port_a] else []) ++ (if b_boot w then [] else [port_b]).
Definition on_a (d : PathBuf) : bool := bool_decide (d = new_uf2 volume_a).

Definition host (X : Type) (e : ev X) (w : World) : X * World :=
  match e in ev X return X * World with
  | EnsureProfiles => (Some pico_profiles, w)
  | AvailablePorts => (Ok (ports w), w)
  | ResetInterfaces => ([], w)
  | ProblemDevices => ([], w)
  | SerialFacts => (None, w)
  | HomeDir => (Some (path (&"/home/u")), w)
  | RemovableRoots => (None, w)
  | ReadToString f => (if existsb (λ v, bool_decide (f = info_file v)) (volumes w) then Some (&"Board-ID: RPI-RP2") else None, w)
  | ReadDir d => (if bool_decide (d = path (&"/media/u")) then Some (volumes w) else None, w)
  | IsDir p => (existsb (λ v, bool_decide (p = v)) (volumes w), w)
  | IsFile _ => (false, w)
  | ReadFile f => (if bool_decide (f = firmware) then Ok firmware_bytes else Err OtherError, w)
  | WriteFile _ _ => (None, w)
  | Modified f => (if bool_decide (f = firmware) then Ok 1 else Err OtherError, w)
  | FileLen f => (if bool_decide (f = firmware) then Ok (Z.of_nat (length firmware_bytes)) else Err OtherError, w)
  | OpenShared _ => (None, w)
  | WriteTo d bytes => if on_a d && negb (a_writable w) then (Err TimedOut, set_a false false w) else (Ok (length bytes), w)
  | Flush d => (None, if on_a d then set_a true false w else run_b w)
  | Now => (w_time w, w)
  | Sleep d => (tt, {| w_time := w_time w + Z.max 0 d; a_there := a_there w; a_boot := a_boot w; a_writable := a_writable w; b_boot := b_boot w |})
  | Watchdog _ => (None, w)
  | MountBlockDevices _ => (tt, w)
  | OpenSerial p _ => (if existsb (λ d, bool_decide (port_name d = p)) (ports w) then None else Some (NoDevice (&"gone")), w)
  | WriteDtr _ _ => (None, w)
  | SetBaud _ _ => (None, set_a true true w)
  | ResetToBootsel _ => (Some OtherError, w)
  | EnsureInstalled => (None, w)
  | RunCommand _ _ => (Ok {| tool_success := false; tool_stdout := []; tool_stderr := &"no device" |}, w)
  end.

Definition deployer : Rp2040Deployer := default_deployer (λ _, None).
Definition running : World := {| w_time := 0; a_there := true; a_boot := false; a_writable := true; b_boot := true |}.

Definition deploy_a := deploy false picotool_exe deployer firmware (Some (&"ttyACM0")).

Definition trace_a : list (Obs ev) := (run host deploy_a running).1.1.
Definition result_a : DeploymentResult :=
  {| dr_success := true;
     dr_message := &"firmware deployed to RP2040 via BOOTSEL mass-storage (picotool fallback) (/media/u/RPI-RP2)";
     dr_port := Some (&"ttyACM0"); dr_stdout := &"wrote /media/u/RPI-RP2/NEW.UF2"; dr_stderr := []; dr_outcome := FullFlash |}.

(** Board [A] runs and its port is given: it is touched, found as the volume
    that appeared, picotool does not reach it, the image is written, and its
    port comes back. *)
Lemma deploy_a_runs : run host deploy_a running = (trace_a, Done (Ok result_a), (run host deploy_a running).2).
Proof. by vm_compute. Qed.

Lemma deploy_a_execs : execs deploy_a trace_a (Done (Ok result_a)).
Proof. exact (run_execs _ _ _ _ _ _ deploy_a_runs). Qed.

Lemma deploy_returns_witness : ∃ r, (run host deploy_a running).1.2 = Done r.
Proof. apply (deploy_returns false picotool_exe deployer host firmware (Some (&"ttyACM0")) running 0). vm_compute. split_and!; done. Defined.

Lemma touch_spares_mounted_witness : mounted volume_b (take 18 trace_a) ∧
  looked_through false (take 18 trace_a) ∧ ∀ v, mounted v (take 18 trace_a) → Forall (λ o, act o ≠ Writing (image_on v)) trace_a.
Proof.
  split.
  - apply Exists_exists. exists (Did (ReadToString (marker_of volume_b)) (Some (&"Board-ID: RPI-RP2"))).
    split; [by apply (list_elem_of_lookup_2 _ 7); vm_compute|]. exists (&"Board-ID: RPI-RP2"). split; [done|].
    by exists (&"Board-ID: RPI-"), (&"RP2"), [].
  - apply (touch_spares_mounted false picotool_exe deployer firmware (Some (&"ttyACM0")) trace_a (Done (Ok result_a))
      (take 18 trace_a) (&"ttyACM0") (Did (OpenSerial (&"ttyACM0") 9600) None) (drop 19 trace_a)); [exact deploy_a_execs|by vm_compute|done].
Defined.


Lemma deploy_success_witness : accomplished false picotool_exe deployer (Some (&"ttyACM0")) result_a trace_a.
Proof. exact (deploy_success false picotool_exe deployer firmware (Some (&"ttyACM0")) trace_a result_a deploy_a_execs). Defined.

(** ** What goes wrong *)

(** Finding: with an explicit volume nothing is remembered of the other
    volumes.  Both boards are in BOOTSEL and [A]'s volume is named; the write
    to it fails and the volume drops off; the search for its return takes the
    only volume there is, that of [B], and the image goes there.  The
    deployment reports success. *)
Definition in_bootsel : World := {| w_time := 0; a_there := true; a_boot := true; a_writable := false; b_boot := true |}.
Definition deploy_to_a := deploy false picotool_exe deployer firmware (Some (&"UF2=/media/u/RPI-RP2")).

Lemma retry_flashes_other_board :
  match (run host deploy_to_a in_bootsel).1.2 with
  | Done (Ok res) => dr_success res = true ∧ dr_stdout res = &"wrote /media/u/RPI-RP21/NEW.UF2" ∧ dr_port res = Some (&"ttyACM1")
  | _ => False
  end ∧ Exists (λ o, act o = Writing (new_uf2 volume_b)) (run host deploy_to_a in_bootsel).1.1.
Proof.
  split; [by vm_compute|]. apply Exists_exists. exists (Did (OpenShared (new_uf2 volume_b)) None).
  split; [by apply (list_elem_of_lookup_2 _ 32); vm_compute|done].
Qed.

(** Finding: a serial number is compared without regard to case to find the
    reset interface, and exactly to find the port.  A board whose serial is
    given in lower case is reset and flashed, and its port never recognised. *)
Definition interface_a : UsbResetInterface :=
  {| ri_instance_id := &"USB\7"; ri_parent_instance_id := []; ri_vid := 0x2e8a; ri_pid := 0x000a; ri_serial_number := &"E661";
     ri_device_path := []; ri_interface_number := 2; ri_location_paths := [] |}.

Lemma serial_case_mismatch :
  let listed := pico_cdc_ports pico_profiles RP2040_FAMILY_ID [port_a] in
  resolve_reset_only_target (&"SER=e661") listed [interface_a] = Ok (Some interface_a) ∧
  pico_serial <$> listed = [Some (&"E661")] ∧ select_cdc_candidate None (Some (&"e661")) ∅ listed = Ok None.
Proof. by vm_compute. Qed.
