(* ===== verification/InoPrototypes.v ===== *)
(** * Prototypes of a sketch, [fbuild-build-engine/src/source_scanner.rs]

    What the preprocessing of [.ino] files declares ahead: the functions of
    the sketch, found in the tree of the tree-sitter parser, which is an
    argument, less those whose signature names a type of the sketch.  The text
    of a prototype is that of the definition without default arguments. *)
From S2P Require Import Prelude RustStr.
(** A node of the parser's tree: its kind, the field it fills in its parent,
    its bytes in the source. *)
Inductive Node := node (kind : str) (field : option str) (start_byte end_byte : nat) (children : list Node).
Definition kind (n : Node) : str := let 'node k _ _ _ _ := n in k.
Definition field_name (n : Node) : option str := let 'node _ f _ _ _ := n in f.
Definition start_byte (n : Node) : nat := let 'node _ _ a _ _ := n in a.
Definition end_byte (n : Node) : nat := let 'node _ _ _ b _ := n in b.
Definition children (n : Node) : list Node := let 'node _ _ _ _ c := n in c.

Definition children_by_field_name (n : Node) (name : str) : list Node := filter (λ c, field_name c = Some name) (children n).
Definition child_by_field_name (n : Node) (name : str) : option Node := head (children_by_field_name n name).
Definition one_of (s : str) (l : list str) : bool := bool_decide (s ∈ l).

(** [source.get(a..b)] *)
Definition is_char_boundary (s : str) (i : nat) : bool :=
  (i =? length s) || match s !! i with Some c => negb (is_cont c) | None => false end.
Definition get_range (s : str) (a b : nat) : option str :=
  if (a <=? b) && (b <=? length s) && is_char_boundary s a && is_char_boundary s b then Some (take (b - a) (drop a s)) else None.
Definition node_text (n : Node) (source : str) : str := default [] (get_range source (start_byte n) (end_byte n)).

(** ** The types of the sketch *)

Section Types.
Context (source : str).

Fixpoint collect_type_identifiers (n : Node) (out : gset str) {struct n} : gset str :=
  let out := if bool_decide (kind n = &"type_identifier") then {[node_text n source]} ∪ out else out in
  let 'node _ _ _ _ cs := n in
  (fix all cs out := match cs with [] => out | c :: cs => all cs (collect_type_identifiers c out) end) cs out.

Definition declarator_kinds : list str :=
  [&"pointer_declarator"; &"reference_declarator"; &"array_declarator"; &"function_declarator";
   &"parenthesized_declarator"; &"attributed_declarator"].

(** The first child with the field [declarator]. *)
Fixpoint declared_type_identifier_name (n : Node) : option str :=
  if bool_decide (kind n = &"type_identifier") then Some (node_text n source)
  else if one_of (kind n) declarator_kinds then
    let 'node _ _ _ _ cs := n in
    (fix first cs := match cs with
                     | [] => None
                     | c :: cs => if bool_decide (field_name c = Some (&"declarator")) then declared_type_identifier_name c else first cs
                     end) cs
  else None.

Definition type_specifiers : list str := [&"struct_specifier"; &"class_specifier"; &"union_specifier"; &"enum_specifier"].

Definition add_names (n : Node) (names : gset str) : gset str :=
  if one_of (kind n) type_specifiers || bool_decide (kind n = &"alias_declaration") then
    match child_by_field_name n (&"name") with Some name => collect_type_identifiers name names | None => names end
  else if bool_decide (kind n = &"type_definition") then
    list_to_set (omap declared_type_identifier_name (children_by_field_name n (&"declarator"))) ∪ names
  else names.

Fixpoint collect_sketch_defined_type_names_into (n : Node) (names : gset str) {struct n} : gset str :=
  let names := add_names n names in
  let 'node _ _ _ _ cs := n in
  (fix all cs names := match cs with [] => names | c :: cs => all cs (collect_sketch_defined_type_names_into c names) end) cs names.
Definition collect_sketch_defined_type_names (root : Node) : gset str := collect_sketch_defined_type_names_into root ∅.

(** The first node of the kind below, in the order of the text. *)
Fixpoint find_descendant_kind (k : str) (n : Node) {struct n} : option Node :=
  let 'node _ _ _ _ cs := n in
  (fix first cs := match cs with
                   | [] => None
                   | c :: cs => if bool_decide (kind c = k) then Some c
                                else match find_descendant_kind k c with Some found => Some found | None => first cs end
                   end) cs.

Definition parameter_kinds : list str := [&"parameter_declaration"; &"optional_parameter_declaration"].
Definition signature_types (n : Node) : gset str :=
  let of_field n out := match child_by_field_name n (&"type") with Some t => collect_type_identifiers t out | None => out end in
  let referenced := of_field n ∅ in
  match find_descendant_kind (&"parameter_list") n with
  | Some parameter_list => foldl (λ out p, if one_of (kind p) parameter_kinds then of_field p out else out) referenced (children parameter_list)
  | None => referenced
  end.
Definition signature_references_sketch_type (n : Node) (sketch_types : gset str) : bool :=
  negb (bool_decide (sketch_types = ∅)) && negb (bool_decide (signature_types n ∩ sketch_types = ∅)).
End Types.

(** ** The text of a signature *)

Definition normalize_signature (signature : str) : option str :=
  match filter (λ l, l ≠ []) (trim <$> lines signature) with [] => None | ls => Some (join (&" ") ls) end.

Definition is_arduino_entry_point_signature (signature : str) : bool :=
  one_of (trim signature) [&"void setup()"; &"void setup(void)"; &"void loop()"; &"void loop(void)"].

(** The state of the loop of [strip_defaults_from_params]. *)
Record Strip := {
  output : str;
  skip_default : bool;
  paren_depth : nat;
  bracket_depth : nat;
  brace_depth : nat;
  angle_depth : nat;
  quote : option ascii;
  escaped : bool;
}.

Definition dquote : ascii := "034"%char.
Definition squote : ascii := "'"%char.
Definition backslash : ascii := "092"%char.

Definition set_output (out : str) (st : Strip) : Strip :=
  {| output := out; skip_default := skip_default st; paren_depth := paren_depth st; bracket_depth := bracket_depth st;
     brace_depth := brace_depth st; angle_depth := angle_depth st; quote := quote st; escaped := escaped st |}.
Definition set_skip (b : bool) (st : Strip) : Strip :=
  {| output := output st; skip_default := b; paren_depth := paren_depth st; bracket_depth := bracket_depth st;
     brace_depth := brace_depth st; angle_depth := angle_depth st; quote := quote st; escaped := escaped st |}.
Definition set_quote (q : option ascii) (e : bool) (st : Strip) : Strip :=
  {| output := output st; skip_default := skip_default st; paren_depth := paren_depth st; bracket_depth := bracket_depth st;
     brace_depth := brace_depth st; angle_depth := angle_depth st; quote := q; escaped := e |}.
(** The four depths, by functions. *)
Definition set_depths (f g h i : nat → nat) (st : Strip) : Strip :=
  {| output := output st; skip_default := skip_default st; paren_depth := f (paren_depth st); bracket_depth := g (bracket_depth st);
     brace_depth := h (brace_depth st); angle_depth := i (angle_depth st); quote := quote st; escaped := escaped st |}.

Definition push (c : ascii) (st : Strip) : Strip := if skip_default st then st else set_output (output st ++ [c]) st.
Definition at_top (st : Strip) : bool :=
  (paren_depth st =? 0) && (bracket_depth st =? 0) && (brace_depth st =? 0) && (angle_depth st =? 0).

(** The turn of the loop for a character; those that matter are ASCII, so it
    may be taken byte by byte. *)
Definition strip_step (st : Strip) (c : ascii) : Strip :=
  match quote st with
  | Some quote_char =>
      let st := push c st in
      if escaped st then set_quote (quote st) false st
      else if bool_decide (c = backslash) then set_quote (quote st) true st
      else if bool_decide (c = quote_char) then set_quote None (escaped st) st
      else st
  | None =>
      if bool_decide (c = dquote) || bool_decide (c = squote) then set_quote (Some c) (escaped st) (push c st)
      else if bool_decide (c = "("%char) then push c (set_depths S id id id st)
      else if bool_decide (c = ")"%char) then push c (set_depths pred id id id st)
      else if bool_decide (c = "["%char) then push c (set_depths id S id id st)
      else if bool_decide (c = "]"%char) then push c (set_depths id pred id id st)
      else if bool_decide (c = "{"%char) then push c (set_depths id id S id st)
      else if bool_decide (c = "}"%char) then push c (set_depths id id pred id st)
      else if bool_decide (c = "<"%char) then push c (set_depths id id id S st)
      else if bool_decide (c = ">"%char) then push c (set_depths id id id pred st)
      else if bool_decide (c = "="%char) && at_top st then set_output (trim_end (output st)) (set_skip true st)
      else if bool_decide (c = ","%char) && at_top st then set_output (trim_end (output st) ++ [c]) (set_skip false st)
      else push c st
  end.

Definition strip_start : Strip :=
  {| output := []; skip_default := false; paren_depth := 0; bracket_depth := 0; brace_depth := 0; angle_depth := 0;
     quote := None; escaped := false |}.
Definition strip_defaults_from_params (params : str) : str := trim_end (output (foldl strip_step strip_start params)).

Definition strip_default_arguments (signature : str) (params_start params_end : nat) : str :=
  match params ← get_range signature params_start params_end; p ← strip_prefix (&"(") params; strip_suffix (&")") p with
  | Some params_inner =>
      take (params_start + 1) signature ++ strip_defaults_from_params params_inner ++ drop (params_end - 1) signature
  | None => signature
  end.

(** ** Prototypes *)

Definition skipped_contexts : list str :=
  [&"namespace_definition"; &"class_specifier"; &"struct_specifier"; &"union_specifier"; &"field_declaration_list"].

(** [ancestors]: what [parent] leads through, the nearest first. *)
Definition has_skipped_function_context (ancestors : list Node) : bool := existsb (λ p, one_of (kind p) skipped_contexts) ancestors.

(** [a.checked_sub(b)] *)
Definition checked_sub (a b : nat) : option nat := if b <=? a then Some (a - b) else None.

Section Prototypes.
Context (source : str) (sketch_types : gset str).

Definition prototype_from_function_definition (ancestors : list Node) (n : Node) : option str :=
  if has_skipped_function_context ancestors then None
  else if signature_references_sketch_type source n sketch_types then None
  else
    let signature_node := match ancestors with
                          | parent :: _ => if bool_decide (kind parent = &"template_declaration") then parent else n
                          | [] => n
                          end in
    body ← child_by_field_name n (&"body");
    let signature_start := start_byte signature_node in
    signature ← get_range source signature_start (start_byte body);
    parameter_list ← find_descendant_kind (&"parameter_list") n;
    params_start ← checked_sub (start_byte parameter_list) signature_start;
    params_end ← checked_sub (end_byte parameter_list) signature_start;
    signature ← normalize_signature (strip_default_arguments signature params_start params_end);
    if contains (&"::") signature || starts_with (&"#") signature then None
    else if is_arduino_entry_point_signature signature then None
    else Some signature.

Fixpoint collect_function_prototypes (ancestors : list Node) (n : Node) {struct n} : list str :=
  if bool_decide (kind n = &"function_definition") then
    match prototype_from_function_definition ancestors n with Some p => [p] | None => [] end
  else
    let 'node _ _ _ _ cs := n in
    (fix all cs := match cs with [] => [] | c :: cs => collect_function_prototypes (n :: ancestors) c ++ all cs end) cs.
End Prototypes.

(** What a [HashSet] lets through: the first of equal values. *)
Fixpoint first_seen (seen : gset str) (l : list str) : list str :=
  match l with
  | [] => []
  | x :: l => if decide (x ∈ seen) then first_seen seen l else x :: first_seen ({[x]} ∪ seen) l
  end.

Definition extract_function_prototypes (parse_cpp_source : str → option Node) (source : str) : list str :=
  match parse_cpp_source source with
  | None => []
  | Some root => first_seen ∅ (collect_function_prototypes source (collect_sketch_defined_type_names source root) [] root)
  end.

Example strip_defaults_demo :
  strip_defaults_from_params (&"int a = f(1, 2), char b, T c = {3, 4}") = &"int a, char b, T c" ∧
  normalize_signature (&" void f(int a,
    int b) ") = Some (&"void f(int a, int b)").
Proof. by vm_compute. Qed.

(** ** Properties of the prototypes of a sketch

    Taking default arguments out of a parameter list, for lists written with
    balanced brackets and angles and closed quotes. *)

(** ** Trimming after a byte that is no white space *)

Lemma strip_many_guard encs n w c t : (∀ e, e ∈ encs → c ∉ e) →
  strip_many encs n (w ++ c :: t) = strip_many encs n w ++ c :: t.
Proof.
  intros Hc. revert w. induction n as [|n IH]; intros w; [done|]. cbn [strip_many].
  destruct (strip_one encs w) as [r|] eqn:E; [|by rewrite strip_one_guard].
  assert (strip_one encs (w ++ c :: t) = Some (r ++ c :: t)) as ->; [|apply IH].
  clear IH. revert Hc E. induction encs as [|e encs IHe]; intros Hc E; [done|]. cbn [strip_one] in *.
  destruct (strip_prefix e w) as [r'|] eqn:Ep.
  - apply strip_prefix_Some in Ep as ->. injection E as ->. by rewrite <- app_assoc, strip_prefix_app.
  - assert (strip_prefix e (w ++ c :: t) = None) as ->.
    { apply strip_prefix_None in Ep. apply strip_prefix_None. intros Hp. apply Ep. eapply prefix_guard; [|exact Hp].
      apply Hc. left. }
    apply IHe; [|done]. intros e' He'. apply Hc. by right.
Qed.

Lemma trim_end_after x c w : solid c → trim_end (x ++ c :: w) = x ++ c :: trim_end w.
Proof.
  intros Hc. unfold trim_end. rewrite reverse_app, reverse_cons, <- app_assoc. cbn [app].
  rewrite strip_many_guard by (intros e; by apply solid_reverse).
  rewrite (strip_many_fuel _ _ (length w)) by (try apply ws_rev_nonempty; rewrite ?length_reverse, ?length_app; cbn; lia).
  by rewrite reverse_app, reverse_cons, reverse_involutive, <- app_assoc.
Qed.

(** ** Balanced text *)

Inductive Mode := Declaring | Defaulting | Inside.
Definition allowed (m : Mode) (c : ascii) : Prop :=
  match m with Declaring => c ≠ "="%char ∧ c ≠ ","%char | Defaulting => c ≠ ","%char | Inside => True end.
Definition brackets : list (ascii * ascii) := [("(", ")")%char; ("[", "]")%char; ("{", "}")%char; ("<", ">")%char].
Definition quotes : list ascii := ["034"%char; "'"%char].
Definition special (c : ascii) : Prop := c ∈ quotes ++ brackets.*1 ++ brackets.*2.

(** What stands between quotes. *)
Inductive lit_body (q : ascii) : str → Prop :=
  | lit_nil : lit_body q []
  | lit_char c s : c ≠ q → c ≠ "092"%char → lit_body q s → lit_body q (c :: s)
  | lit_escape c s : lit_body q s → lit_body q ("092"%char :: c :: s).

Inductive balanced (m : Mode) : str → Prop :=
  | bal_nil : balanced m []
  | bal_char c s : ¬ special c → allowed m c → balanced m s → balanced m (c :: s)
  | bal_quoted q body s : q ∈ quotes → lit_body q body → balanced m s → balanced m (q :: body ++ q :: s)
  | bal_group o c inner s : (o, c) ∈ brackets → balanced Inside inner → balanced m s → balanced m (o :: inner ++ c :: s).

(** ** The loop over it *)

Definition emit (s : str) (st : Strip) : Strip := if skip_default st then st else set_output (output st ++ s) st.

Lemma emit_nil st : emit [] st = st.
Proof. destruct st as [u k p b r g q' e']; unfold emit, set_output; cbn. destruct k; [done|]. by rewrite app_nil_r. Qed.
Lemma emit_emit s t st : emit t (emit s st) = emit (s ++ t) st.
Proof. destruct st as [u k p b r g q' e']; unfold emit, set_output; cbn. destruct k; cbn; [done|]. by rewrite app_assoc. Qed.
Lemma push_emit c st : push c st = emit [c] st.
Proof. done. Qed.
Lemma emit_quote s st : quote (emit s st) = quote st ∧ escaped (emit s st) = escaped st ∧ at_top (emit s st) = at_top st ∧
  skip_default (emit s st) = skip_default st ∧ (skip_default st = true → output (emit s st) = output st).
Proof. destruct st as [u k p b r g q' e']; unfold emit, set_output; cbn. by destruct k. Qed.

Lemma emit_set_quote s q e st : emit s (set_quote q e st) = set_quote q e (emit s st).
Proof. destruct st as [u k p b r g q' e']; unfold emit, set_output, set_quote; cbn. by destruct k. Qed.
Lemma set_quote_same st : set_quote (quote st) (escaped st) st = st.
Proof. by destruct st. Qed.

Lemma set_quote_twice q e q' e' st : set_quote q e (set_quote q' e' st) = set_quote q e st.
Proof. done. Qed.

(** The state after some characters within a literal. *)
Lemma step_literal q c st : quote st = Some q → escaped st = false → c ≠ q → c ≠ backslash → strip_step st c = emit [c] st.
Proof.
  intros Hq He H1 H2. unfold strip_step. rewrite Hq, push_emit. destruct (emit_quote [c] st) as (_ & Ee & _).
  by rewrite Ee, He, !bool_decide_false.
Qed.
Lemma step_close q st : quote st = Some q → escaped st = false → q ≠ backslash →
  strip_step st q = set_quote None false (emit [q] st).
Proof.
  intros Hq He H. unfold strip_step. rewrite Hq, push_emit. destruct (emit_quote [q] st) as (_ & Ee & _).
  by rewrite Ee, He, bool_decide_false, bool_decide_true.
Qed.
Lemma step_escape q c st : quote st = Some q → escaped st = false →
  strip_step (strip_step st backslash) c = emit [backslash; c] st.
Proof.
  destruct st as [o k p b r g u e]. cbn [quote escaped]. intros -> ->.
  unfold strip_step. cbn [quote]. rewrite (bool_decide_true (backslash = backslash)) by done.
  destruct k; unfold push, emit, set_quote, set_output; cbn; [done|]. by rewrite <- app_assoc.
Qed.

Lemma run_body q body st : lit_body q body → q ≠ backslash → quote st = Some q → escaped st = false →
  foldl strip_step st (body ++ [q]) = set_quote None false (emit (body ++ [q]) st).
Proof.
  intros H Hq. revert st. induction H as [|c s Hc Hb _ IH|c s _ IH]; intros st Hst He; cbn [app foldl].
  - by apply step_close.
  - rewrite (step_literal q) by done. destruct (emit_quote [c] st) as (Eq & Ee & _).
    rewrite IH by congruence. by rewrite emit_emit.
  - rewrite (step_escape q) by done. destruct (emit_quote [backslash; c] st) as (Eq & Ee & _).
    rewrite IH by congruence. by rewrite emit_emit.
Qed.

(** ** Brackets *)

(** A state out of quotes that a text of the mode may be read in. *)
Definition reads (m : Mode) (st : Strip) : Prop :=
  quote st = None ∧ escaped st = false ∧
  match m with
  | Declaring => True
  | Defaulting => skip_default st = true ∧ trim_end (output st) = output st
  | Inside => at_top st = false
  end.

Lemma reads_emit m s st : reads m st → reads m (emit s st).
Proof.
  unfold reads. destruct (emit_quote s st) as (-> & -> & -> & -> & Ho). intros (? & ? & H). split_and!; [done..|].
  destruct m; [done| |done]. destruct H as [Hs Ht]. by rewrite Ho.
Qed.

Lemma not_special c : ¬ special c → c ≠ dquote ∧ c ≠ squote ∧
  c ≠ "("%char ∧ c ≠ ")"%char ∧ c ≠ "["%char ∧ c ≠ "]"%char ∧ c ≠ "{"%char ∧ c ≠ "}"%char ∧ c ≠ "<"%char ∧ c ≠ ">"%char.
Proof. intros H. split_and!; intros ->; apply H; apply (bool_decide_unpack _); by vm_compute. Qed.

Lemma step_plain m c st : ¬ special c → allowed m c → reads m st → strip_step st c = emit [c] st.
Proof.
  intros (?&?&?&?&?&?&?&?&?&?)%not_special Ha (Hq & He & Hm). unfold strip_step.
  rewrite Hq, !(bool_decide_false (c = _)) by done. cbn [orb]. rewrite push_emit.
  destruct m; cbn [allowed] in Ha.
  - rewrite !bool_decide_false by tauto. done.
  - rewrite (bool_decide_false (c = ","%char)) by done. destruct (_ && _); [|done]. destruct Hm as [Hs Ht].
    unfold emit. rewrite Hs, Ht. destruct st as [u k p b r g q' e']; cbn in *. by subst.
  - rewrite Hm, !andb_false_r. done.
Qed.

Lemma step_open_quote q st : q ∈ quotes → quote st = None → escaped st = false →
  strip_step st q = set_quote (Some q) false (emit [q] st).
Proof.
  intros Hin Hq He. unfold strip_step. rewrite Hq, push_emit. destruct (emit_quote [q] st) as (_ & Ee & _).
  rewrite He. by repeat (apply elem_of_cons in Hin as [->|Hin]; [done|]); apply not_elem_of_nil in Hin.
Qed.

(** The depth that a bracket changes. *)
Definition deeper (o : ascii) (f : nat → nat) (st : Strip) : Strip :=
  if decide (o = "("%char) then set_depths f id id id st
  else if decide (o = "["%char) then set_depths id f id id st
  else if decide (o = "{"%char) then set_depths id id f id st
  else set_depths id id id f st.

Ltac each_bracket H := repeat (apply elem_of_cons in H as [[= -> ->]|H]; [|]); [..|by apply not_elem_of_nil in H].

Lemma step_bracket o c st : (o, c) ∈ brackets → quote st = None →
  strip_step st o = emit [o] (deeper o S st) ∧ strip_step st c = emit [c] (deeper o pred st).
Proof. intros H Hq. unfold strip_step. rewrite Hq. each_bracket H; done. Qed.

Lemma deeper_back o c s st : (o, c) ∈ brackets → deeper o pred (emit s (deeper o S st)) = emit s st.
Proof.
  intros H. destruct st as [u k p b r g q e]. unfold deeper, emit, set_depths, set_output.
  each_bracket H; cbn; by destruct k.
Qed.

Lemma deeper_reads m o c st : (o, c) ∈ brackets → reads m st → reads Inside (emit [o] (deeper o S st)).
Proof.
  intros H (Hq & He & _). apply (reads_emit Inside). destruct st as [u k p b r g q e]. cbn in Hq, He. subst.
  each_bracket H; (split; [done|]; split; [done|]); unfold at_top; cbn; by rewrite ?andb_false_r.
Qed.

(** A balanced text is kept, or left out, as a whole. *)
Lemma run_balanced m s st : balanced m s → reads m st → foldl strip_step st s = emit s st.
Proof.
  intros H. revert st. induction H as [m|m c s Hc Ha _ IH|m q body s Hq Hb _ IH|m o c inner s Hoc _ IHi _ IH];
    intros st Hr; cbn [foldl].
  - by rewrite emit_nil.
  - rewrite (step_plain m) by done. rewrite IH by by apply reads_emit. by rewrite emit_emit.
  - destruct Hr as (Hn & He & Hm) eqn:Er. clear Er. rewrite step_open_quote by done.
    rewrite (app_assoc body [q] s : body ++ q :: s = _), foldl_app.
    rewrite (run_body q); [|done|by intros ->; repeat (apply elem_of_cons in Hq as [Hq|Hq]; [done|]); apply not_elem_of_nil in Hq|done|done].
    rewrite emit_set_quote, set_quote_twice, emit_emit.
    assert (set_quote None false (emit ([q] ++ body ++ [q]) st) = emit ([q] ++ body ++ [q]) st) as ->.
    { destruct (emit_quote ([q] ++ body ++ [q]) st) as (Eq & Ee & _). rewrite <- Hn, <- He, <- Eq, <- Ee. apply set_quote_same. }
    rewrite IH by by apply reads_emit. by rewrite emit_emit.
  - destruct (step_bracket o c st Hoc (proj1 Hr)) as [-> _].
    rewrite (app_assoc inner [c] s : inner ++ c :: s = _), !foldl_app.
    rewrite IHi by by eapply deeper_reads. rewrite emit_emit. cbn [foldl].
    destruct (step_bracket o c (emit ([o] ++ inner) (deeper o S st)) Hoc) as [_ ->].
    { destruct (emit_quote ([o] ++ inner) (deeper o S st)) as [-> _]. rewrite <- (proj1 Hr). clear. unfold deeper. by repeat case_decide. }
    rewrite (deeper_back o c) by done. rewrite emit_emit, IH by by apply reads_emit. by rewrite emit_emit.
Qed.

(** ** Parameter lists *)

Record Param := { decl : str; dflt : option str }.
Definition param_text (p : Param) : str := decl p ++ match dflt p with Some d => &"=" ++ d | None => [] end.
Definition params_text (ps : list Param) : str := join (&",") (param_text <$> ps).
Definition param_ok (p : Param) : Prop := balanced Declaring (decl p) ∧ from_option (balanced Defaulting) True (dflt p).
(** The declarations alone, without white space before the commas. *)
Definition declared (ps : list Param) : str := join (&",") ((λ p, trim_end (decl p)) <$> ps).

Definition at_start (o : str) : Strip :=
  {| output := o; skip_default := false; paren_depth := 0; bracket_depth := 0; brace_depth := 0; angle_depth := 0;
     quote := None; escaped := false |}.

(** What can precede a parameter. *)
Definition fenced (o : str) : Prop := ∀ w, trim_end (o ++ w) = o ++ trim_end w.
Lemma fenced_nil : fenced [].
Proof. done. Qed.
Lemma fenced_comma o : fenced (o ++ &",").
Proof.
  intros w. rewrite <- !app_assoc. cbn [app]. apply trim_end_after. apply (bool_decide_unpack _). by vm_compute.
Qed.

(** One parameter leaves its declaration. *)
Lemma run_param p o : fenced o → param_ok p → ∃ k x,
  foldl strip_step (at_start o) (param_text p) = set_skip k (at_start (o ++ x)) ∧ trim_end x = trim_end (decl p).
Proof.
  intros Ho [Hd Hf]. unfold param_text. rewrite foldl_app. rewrite (run_balanced Declaring (decl p)); [|done|by split_and!].
  unfold emit. cbn [skip_default at_start]. change (set_output _ _) with (at_start (o ++ decl p)).
  destruct (dflt p) as [d|]; cbn [from_option] in Hf.
  - exists true, (trim_end (decl p)). split; [|apply trim_end_idemp]. rewrite foldl_app.
    assert (foldl strip_step (at_start (o ++ decl p)) (&"=") = set_skip true (at_start (trim_end (o ++ decl p)))) as ->; [done|].
    rewrite Ho. rewrite (run_balanced Defaulting); [done|done|]. split_and!; [done|done|done|].
    change (trim_end (o ++ trim_end (decl p)) = o ++ trim_end (decl p)). by rewrite Ho, trim_end_idemp.
  - exists false, (decl p). done.
Qed.

Lemma run_params ps o : fenced o → Forall param_ok ps →
  trim_end (output (foldl strip_step (at_start o) (params_text ps))) = o ++ declared ps.
Proof.
  intros Ho H. revert o Ho. induction H as [|p ps Hp Hps IH]; intros o Ho.
  { change (trim_end o = o ++ []). pose proof (Ho []) as E. rewrite !app_nil_r in *. exact E. }
  destruct (run_param p o Ho Hp) as (k & x & E & Hx).
  destruct ps as [|p2 ps].
  - unfold params_text, declared. cbn [fmap list_fmap join]. rewrite E. cbn [set_skip output at_start]. by rewrite Ho, Hx.
  - assert (params_text (p :: p2 :: ps) = param_text p ++ &"," ++ params_text (p2 :: ps)) as -> by done.
    assert (declared (p :: p2 :: ps) = trim_end (decl p) ++ &"," ++ declared (p2 :: ps)) as -> by done.
    rewrite foldl_app, E, foldl_app.
    assert (foldl strip_step (set_skip k (at_start (o ++ x))) (&",") = at_start (trim_end (o ++ x) ++ &",")) as -> by done.
    rewrite Ho, Hx, IH by apply fenced_comma. by rewrite <- !app_assoc.
Qed.

(** ** In the signature *)

Lemma get_range_middle x y z : is_char_boundary (x ++ y ++ z) (length x) = true →
  is_char_boundary (x ++ y ++ z) (length x + length y) = true →
  get_range (x ++ y ++ z) (length x) (length x + length y) = Some y.
Proof.
  intros H1 H2. unfold get_range. rewrite H1, H2, (proj2 (Nat.leb_le _ _)), (proj2 (Nat.leb_le _ _)); [|rewrite !length_app; lia|lia].
  cbn. by rewrite drop_app_length, Nat.add_comm, Nat.add_sub, take_app_length.
Qed.

(** C19: In a signature whose parameters are written with balanced brackets and
    closed quotes, what is taken out are the default arguments, each from its
    [=] to the comma that ends the parameter, and the blanks before them. *)
Theorem strip_default_arguments_spec pre ps post : Forall param_ok ps → from_option (λ c, is_cont c = false) True (head post) →
  strip_default_arguments (pre ++ &"(" ++ params_text ps ++ &")" ++ post) (length pre) (length pre + length (params_text ps) + 2) =
  pre ++ &"(" ++ declared ps ++ &")" ++ post.
Proof.
  intros Hps Hpost. unfold strip_default_arguments.
  set (mid := &"(" ++ params_text ps ++ &")").
  assert (length pre + length (params_text ps) + 2 = length pre + length mid) as El.
  { unfold mid. rewrite !length_app. cbn. lia. }
  assert (pre ++ &"(" ++ params_text ps ++ &")" ++ post = pre ++ mid ++ post) as Et by (unfold mid; by rewrite <- !app_assoc).
  rewrite El, Et, get_range_middle.
  - cbn [mbind option_bind]. unfold mid at 1. rewrite strip_prefix_app. cbn [mbind option_bind].
    change (&")") with [")"%char] at 1 2. rewrite strip_suffix_snoc, decide_True by done. unfold strip_defaults_from_params. change strip_start with (at_start []).
    rewrite (run_params ps []) by done. rewrite <- Et, <- El. cbn [app].
    assert (pre ++ &"(" ++ params_text ps ++ &")" ++ post = (pre ++ &"(") ++ params_text ps ++ &")" ++ post) as -> by by rewrite <- app_assoc.
    rewrite take_app_length' by (rewrite length_app; cbn; lia).
    rewrite (app_assoc (pre ++ &"(") (params_text ps)).
    rewrite drop_app_length' by (rewrite !length_app; cbn; lia). by rewrite <- !app_assoc.
  - unfold is_char_boundary, mid. rewrite lookup_app_r, Nat.sub_diag by done. cbn. apply orb_true_r.
  - unfold is_char_boundary. rewrite (app_assoc pre mid post), <- length_app. destruct post as [|c post].
    + by rewrite app_nil_r, Nat.eqb_refl.
    + rewrite lookup_app_r, Nat.sub_diag by done. cbn in Hpost |- *. rewrite Hpost. apply orb_true_r.
Qed.
