(* ===== verification/SourceFilter.v ===== *)
(** * Source filters, [fbuild-build-engine/src/source_scanner.rs]

    The rules of [src_filter]: globs, turned into regular expressions for the
    [regex] crate, which is an interface with the meaning of the expressions
    that the translation can produce. *)
From S2P Require Import Prelude RustStr CachePaths PathBuf NormPath FileDisk.
(** [Regex::new] and [is_match] of the crate. *)
Class Regex := {
  regex : Type;
  regex_new : str → option regex;
  is_match : regex → str → bool;
}.

Definition normalize_glob_separators (pattern : str) : str := (λ c, if decide (c = "092"%char) then slash else c) <$> pattern.

Definition regex_specials : str := &".+()[]{}^$|\".

Fixpoint glob_fragment_to_regex (pattern : str) : str :=
  match pattern with
  | [] => []
  | c :: rest =>
      if decide (c = "*"%char) then
        match rest with
        | d :: rest' => if decide (d = "*"%char) then &".*" ++ glob_fragment_to_regex rest' else &"[^/]*" ++ glob_fragment_to_regex rest
        | [] => &"[^/]*"
        end
      else if decide (c = "?"%char) then &"[^/]" ++ glob_fragment_to_regex rest
      else if decide (c ∈ regex_specials) then "092"%char :: c :: glob_fragment_to_regex rest
      else c :: glob_fragment_to_regex rest
  end.

(** [trim_end_matches('/')] *)
Definition trim_slashes (s : str) : str := trim_end_of [slash] s.

Definition regex_body (normalized : str) : str :=
  if decide (normalized = &"*") then &".*"
  else if ends_with [slash] normalized then glob_fragment_to_regex (trim_slashes normalized) ++ &"(?:/.*)?"
  else if contains [slash] normalized then glob_fragment_to_regex normalized
  else &"(?:.*/)?" ++ glob_fragment_to_regex normalized.

Section Filters.
Context {RX : Regex}.

Definition compile_source_filter_pattern (pattern : str) : result FbuildError regex :=
  match regex_new (&"^" ++ regex_body (normalize_glob_separators pattern) ++ &"$") with
  | Some r => Ok r
  | None => Err ConfigError
  end.

Record SourceFilterRule := { include : bool; matcher : regex }.
Record SourceFilter := { rules : list SourceFilterRule; has_include_rules : bool }.

(** The sign and the inside of a token. *)
Definition split_rule (token : str) : option (bool * str) :=
  if starts_with (&"+<") token && ends_with (&">") token then Some (true, take (length token - 3) (drop 2 token))
  else if starts_with (&"-<") token && ends_with (&">") token then Some (false, take (length token - 3) (drop 2 token))
  else None.

Definition parse_rule (token : str) : result FbuildError SourceFilterRule :=
  match split_rule token with
  | None => Err ConfigError
  | Some (inc, inner) =>
      let pattern := normalize_glob_separators (trim inner) in
      if decide (pattern = []) then Err ConfigError
      else m <-? compile_source_filter_pattern pattern; Ok {| include := inc; matcher := m |}
  end.

Fixpoint parse_rules (tokens : list str) (filter : SourceFilter) : result FbuildError SourceFilter :=
  match tokens with
  | [] => Ok filter
  | raw :: tokens =>
      let token := trim raw in
      if decide (token = []) then parse_rules tokens filter
      else
        r <-? parse_rule token;
        parse_rules tokens {| rules := rules filter ++ [r]; has_include_rules := has_include_rules filter || include r |}
  end.

Definition parse (spec : option str) : result FbuildError SourceFilter :=
  let empty := {| rules := []; has_include_rules := false |} in
  match spec with None => Ok empty | Some spec => parse_rules (lines spec ≫= split_on ","%char) empty end.

Definition relative_text (root path : PathBuf) : str :=
  normalize_glob_separators (from_utf8_lossy (path_text (default path (strip_path root path)))).

Definition matches (f : SourceFilter) (root path : PathBuf) : bool :=
  match rules f with
  | [] => true
  | rs =>
      let rel := relative_text root path in
      foldl (λ included r, if is_match (matcher r) rel then include r else included) (negb (has_include_rules f)) rs
  end.
End Filters.

(** ** Properties of source filters

    A filter reads as globs: the last rule that names a file decides.  The
    [regex] crate is assumed to follow its documentation on the expressions
    that the translation makes, for texts in ASCII on one line. *)

Definition star : ascii := "*"%char.
Definition question : ascii := "?"%char.
Definition is_ascii (c : ascii) : Prop := between 0 127 c = true.
Definition plain_text (s : str) : Prop := Forall is_ascii s ∧ nl ∉ s.

(** ** The expressions of the translation *)

Inductive Piece := AnyStar | NameStar | NameChar | Lit (c : ascii) | OptDirs | OptRest.
Definition render (p : Piece) : str :=
  match p with
  | AnyStar => &".*" | NameStar => &"[^/]*" | NameChar => &"[^/]"
  | Lit c => if decide (c ∈ regex_specials) then ["092"%char; c] else [c]
  | OptDirs => &"(?:.*/)?" | OptRest => &"(?:/.*)?"
  end.
Definition pieces_text (ps : list Piece) : str := &"^" ++ (ps ≫= render) ++ &"$".

Definition piece_ok (p : Piece) : Prop := match p with Lit c => is_ascii c ∧ c ≠ star ∧ c ≠ question | _ => True end.

(** The texts that one stands for, and several. *)
Definition one (p : Piece) (w : str) : Prop :=
  match p with
  | AnyStar => True
  | NameStar => slash ∉ w
  | NameChar => ∃ c, w = [c] ∧ c ≠ slash
  | Lit c => w = [c]
  | OptDirs => w = [] ∨ ∃ u, w = u ++ [slash]
  | OptRest => w = [] ∨ ∃ u, w = slash :: u
  end.
Fixpoint denotes (ps : list Piece) (s : str) : Prop :=
  match ps with [] => s = [] | p :: ps => ∃ w r, s = w ++ r ∧ one p w ∧ denotes ps r end.

Class RegexOk (RX : Regex) := regex_ok ps : Forall piece_ok ps → ∃ r, regex_new (pieces_text ps) = Some r ∧
  ∀ s, plain_text s → is_match r s = true ↔ denotes ps s.

(** ** Globs *)

Inductive globs : str → str → Prop :=
  | globs_nil : globs [] []
  | globs_char c p s : c ≠ star → c ≠ question → globs p s → globs (c :: p) (c :: s)
  | globs_one c p s : c ≠ slash → globs p s → globs (question :: p) (c :: s)
  | globs_star w p s : slash ∉ w → head p ≠ Some star → globs p s → globs (star :: p) (w ++ s)
  | globs_stars w p s : globs p s → globs (star :: star :: p) (w ++ s).

Fixpoint glob_pieces (pattern : str) : list Piece :=
  match pattern with
  | [] => []
  | c :: rest =>
      if decide (c = star) then
        match rest with
        | d :: rest' => if decide (d = star) then AnyStar :: glob_pieces rest' else NameStar :: glob_pieces rest
        | [] => [NameStar]
        end
      else if decide (c = question) then NameChar :: glob_pieces rest
      else Lit c :: glob_pieces rest
  end.

Lemma glob_pieces_cons c p : c ≠ star → c ≠ question → glob_pieces (c :: p) = Lit c :: glob_pieces p.
Proof. intros. cbn [glob_pieces]. by rewrite !decide_False. Qed.
Lemma glob_pieces_star p : head p ≠ Some star → glob_pieces (star :: p) = NameStar :: glob_pieces p.
Proof.
  intros H. cbn [glob_pieces]. destruct p as [|d p]; [done|]. rewrite decide_True by done.
  rewrite decide_False; [done|]. intros ->. by apply H.
Qed.
Lemma fragment_cons c p : c ≠ star → c ≠ question → glob_fragment_to_regex (c :: p) = render (Lit c) ++ glob_fragment_to_regex p.
Proof.
  intros H1 H2. cbn [glob_fragment_to_regex]. rewrite (decide_False (P := c = "*"%char)), (decide_False (P := c = "?"%char)) by done.
  unfold render. by case_decide.
Qed.
Lemma fragment_star p : head p ≠ Some star → glob_fragment_to_regex (star :: p) = render NameStar ++ glob_fragment_to_regex p.
Proof.
  intros H. cbn [glob_fragment_to_regex]. destruct p as [|d p]; [done|]. rewrite decide_True by done.
  rewrite decide_False; [done|]. intros ->. by apply H.
Qed.

(** The four forms of a pattern. *)
Lemma glob_ind (P : str → Prop) : P [] → (∀ p, P p → P (star :: star :: p)) → (∀ p, head p ≠ Some star → P p → P (star :: p)) →
  (∀ p, P p → P (question :: p)) → (∀ c p, c ≠ star → c ≠ question → P p → P (c :: p)) → ∀ p, P p.
Proof.
  intros H0 H1 H2 H3 H4 p. induction p as [|c|c d p IH1 IH2] using list_ind2; [done|..].
  - destruct (decide (c = star)) as [->|]; [by apply H2|]. destruct (decide (c = question)) as [->|]; [by apply H3|by apply H4].
  - destruct (decide (c = star)) as [->|].
    + destruct (decide (d = star)) as [->|]; [by apply H1|]. apply H2; [cbn; congruence|done].
    + destruct (decide (c = question)) as [->|]; [by apply H3|by apply H4].
Qed.

Lemma glob_pieces_text p : glob_fragment_to_regex p = glob_pieces p ≫= render.
Proof.
  induction p as [|p IH|p Hp IH|p IH|c p H1 H2 IH] using glob_ind; [done|..].
  - change (glob_fragment_to_regex (star :: star :: p)) with (&".*" ++ glob_fragment_to_regex p). by rewrite IH.
  - by rewrite fragment_star, glob_pieces_star, bind_cons, IH.
  - change (glob_fragment_to_regex (question :: p)) with (&"[^/]" ++ glob_fragment_to_regex p). by rewrite IH.
  - by rewrite fragment_cons, glob_pieces_cons, bind_cons, IH.
Qed.

Lemma glob_pieces_ok p : Forall is_ascii p → Forall piece_ok (glob_pieces p).
Proof.
  induction p as [|p IH|p Hp IH|p IH|c p H1 H2 IH] using glob_ind; intros H; [constructor|..].
  - apply Forall_cons in H as [_ [_ H]%Forall_cons]. change (Forall piece_ok (AnyStar :: glob_pieces p)). constructor; [done|by apply IH].
  - apply Forall_cons in H as [_ H]. rewrite glob_pieces_star by done. constructor; [done|by apply IH].
  - apply Forall_cons in H as [_ H]. change (Forall piece_ok (NameChar :: glob_pieces p)). constructor; [done|by apply IH].
  - apply Forall_cons in H as [Hc H]. rewrite glob_pieces_cons by done. constructor; [done|by apply IH].
Qed.

Lemma denotes_globs p s : denotes (glob_pieces p) s ↔ globs p s.
Proof.
  split.
  - revert s. induction p as [|p IH|p Hp IH|p IH|c p H1 H2 IH] using glob_ind; intros s.
    + intros ->. constructor.
    + intros (w & r & -> & _ & Hr). by apply globs_stars, IH.
    + rewrite glob_pieces_star by done. intros (w & r & -> & Hw & Hr). by apply globs_star; [..|apply IH].
    + intros (w & r & -> & (x & -> & Hx) & Hr). by apply globs_one; [|apply IH].
    + rewrite glob_pieces_cons by done. intros (w & r & -> & -> & Hr). by apply globs_char; [..|apply IH].
  - induction 1 as [|c p s H1 H2 _ IH|c p s Hc _ IH|w p s Hw Hp _ IH|w p s _ IH]; [done|..].
    + rewrite glob_pieces_cons by done. by exists [c], s.
    + exists [c], s. split_and!; [done|by exists c|done].
    + rewrite glob_pieces_star by done. by exists w, s.
    + by exists w, s.
Qed.

(** ** One rule *)

(** The files that a pattern names, by their texts relative to the root. *)
Definition names (pattern rel : str) : Prop :=
  if decide (pattern = &"*") then True
  else if ends_with [slash] pattern then
    ∃ dir rest, rel = dir ++ rest ∧ globs (trim_slashes pattern) dir ∧ (rest = [] ∨ ∃ below, rest = slash :: below)
  else if contains [slash] pattern then globs pattern rel
  else ∃ above name, rel = above ++ name ∧ (above = [] ∨ ∃ dirs, above = dirs ++ [slash]) ∧ globs pattern name.

Definition body_pieces (pattern : str) : list Piece :=
  if decide (pattern = &"*") then [AnyStar]
  else if ends_with [slash] pattern then glob_pieces (trim_slashes pattern) ++ [OptRest]
  else if contains [slash] pattern then glob_pieces pattern
  else OptDirs :: glob_pieces pattern.

Lemma denotes_app ps qs s : denotes (ps ++ qs) s ↔ ∃ u v, s = u ++ v ∧ denotes ps u ∧ denotes qs v.
Proof.
  revert s. induction ps as [|p ps IH]; intros s; cbn [app denotes].
  - split; [intros H; by exists [], s|intros (u & v & -> & -> & H); done].
  - setoid_rewrite IH. split.
    + intros (w & r & -> & Hw & u & v & -> & Hu & Hv). exists (w ++ u), v. rewrite <- app_assoc. split_and!; [done| |done]. by exists w, u.
    + intros (u & v & -> & (w & r & -> & Hw & Hr) & Hv). exists w, (r ++ v). rewrite <- app_assoc. split_and!; [done..|]. by exists r, v.
Qed.
Lemma denotes_one p s : denotes [p] s ↔ one p s.
Proof.
  cbn. split; [intros (w & r & -> & Hw & ->); by rewrite app_nil_r|]. intros H. exists s, []. by rewrite app_nil_r.
Qed.

Lemma denotes_body pattern rel : denotes (body_pieces pattern) rel ↔ names pattern rel.
Proof.
  unfold body_pieces, names. destruct (decide _); [by rewrite denotes_one|].
  destruct (ends_with _ _); [|destruct (contains _ _); [apply denotes_globs|]].
  - rewrite denotes_app. setoid_rewrite denotes_globs. setoid_rewrite denotes_one. done.
  - cbn [denotes]. setoid_rewrite denotes_globs. done.
Qed.

Lemma body_text pattern : pieces_text (body_pieces pattern) = &"^" ++ regex_body pattern ++ &"$".
Proof.
  unfold pieces_text, body_pieces, regex_body. f_equal. f_equal.
  destruct (decide _); [done|]. destruct (ends_with _ _); [|destruct (contains _ _)].
  - by rewrite bind_app, glob_pieces_text.
  - by rewrite glob_pieces_text.
  - by rewrite bind_cons, glob_pieces_text.
Qed.

(** ** Filters *)

Definition tokens (spec : str) : list str := filter (λ t, t ≠ []) (trim <$> (lines spec ≫= split_on ","%char)).
(** The sign and the pattern of a token. *)
Definition rule_of (token : str) : option (bool * str) :=
  match split_rule token with
  | Some (inc, inner) => let p := normalize_glob_separators (trim inner) in if decide (p = []) then None else Some (inc, p)
  | None => None
  end.

(** The last rule that names a file decides; without one, that there are no
    rules that include. *)
Definition decides (rs : list (bool * str)) (rel : str) (b : bool) : Prop :=
  (∃ k1 p k2, rs = k1 ++ (b, p) :: k2 ∧ names p rel ∧ ∀ r, r ∈ k2 → ¬ names r.2 rel) ∨
  ((∀ r, r ∈ rs → ¬ names r.2 rel) ∧ b = negb (existsb fst rs)).

Lemma normalize_idemp s : normalize_glob_separators (normalize_glob_separators s) = normalize_glob_separators s.
Proof.
  unfold normalize_glob_separators. rewrite <- list_fmap_compose. apply list_fmap_ext. intros i c _. cbn.
  by repeat case_decide.
Qed.

Lemma trim_ascii s : Forall is_ascii s → Forall is_ascii (trim s).
Proof. rewrite !Forall_forall. intros H c Hc. by apply H, trim_elem. Qed.

Lemma rule_of_ascii t inc p : Forall is_ascii t → rule_of t = Some (inc, p) → Forall is_ascii p.
Proof.
  intros Ht. unfold rule_of. assert (∀ i inner, split_rule t = Some (i, inner) → Forall is_ascii inner) as H.
  { unfold split_rule. intros i inner. destruct (_ && _); [|destruct (_ && _); [|done]];
      intros [= _ <-]; by apply Forall_take, Forall_drop. }
  destruct (split_rule t) as [[i inner]|]; [|done]. specialize (H i inner eq_refl). cbv zeta. case_decide; [done|].
  intros [= _ <-]. apply Forall_fmap. eapply Forall_impl; [by apply trim_ascii|]. intros c Hc. cbn. by case_decide.
Qed.

Section Filter.
Context {RX : Regex} {RXok : RegexOk RX}.

Definition rule_means (r : SourceFilterRule) (x : bool * str) : Prop :=
  include r = x.1 ∧ ∀ s, plain_text s → is_match (matcher r) s = true ↔ names x.2 s.

Lemma body_pieces_ok p : Forall is_ascii p → Forall piece_ok (body_pieces p).
Proof.
  intros H. unfold body_pieces. destruct (decide _); [by repeat constructor|].
  destruct (ends_with _ _); [|destruct (contains _ _); [by apply glob_pieces_ok|]].
  - apply Forall_app. split; [|by repeat constructor]. apply glob_pieces_ok. unfold trim_slashes, trim_end_of.
    rewrite Forall_reverse. apply Forall_reverse in H. induction H as [|c s Hc Hs IH]; cbn; [constructor|].
    case_decide; [done|by constructor].
  - constructor; [done|by apply glob_pieces_ok].
Qed.

Lemma parse_rule_spec t : Forall is_ascii t →
  match rule_of t with
  | None => parse_rule t = Err ConfigError
  | Some x => ∃ r, parse_rule t = Ok r ∧ rule_means r x
  end.
Proof.
  intros Ht. pose proof (rule_of_ascii t) as Ha. unfold rule_of, parse_rule in *.
  destruct (split_rule t) as [[inc inner]|]; [|done]. cbv zeta in *. case_decide as Hp; [done|].
  specialize (Ha inc _ Ht eq_refl). set (p := normalize_glob_separators (trim inner)) in *.
  destruct (regex_ok (body_pieces p)) as (r & Hr & Hm); [by apply body_pieces_ok|].
  exists {| include := inc; matcher := r |}. unfold compile_source_filter_pattern. unfold p at 1. rewrite normalize_idemp. fold p.
  rewrite <- body_text, Hr. split; [done|]. split; [done|]. intros s Hs. cbn. by rewrite Hm, denotes_body.
Qed.

Lemma parse_rules_spec toks f0 : Forall (Forall is_ascii) toks →
  match mapM rule_of (filter (λ t, t ≠ []) (trim <$> toks)) with
  | None => parse_rules toks f0 = Err ConfigError
  | Some xs => ∃ rs, parse_rules toks f0 = Ok {| rules := rules f0 ++ rs; has_include_rules := has_include_rules f0 || existsb fst xs |} ∧
      Forall2 rule_means rs xs
  end.
Proof.
  intros H. revert f0. induction H as [|t toks Ht _ IH]; intros f0.
  { exists []. cbn. rewrite app_nil_r, orb_false_r. destruct f0. split; [done|constructor]. }
  cbn [parse_rules fmap list_fmap]. cbv zeta. destruct (decide (trim t = [])) as [E|E].
  - rewrite filter_cons_False by (by rewrite E; intros []). apply IH.
  - rewrite filter_cons_True by done. cbn [mapM]. pose proof (parse_rule_spec (trim t) (trim_ascii t Ht)) as Hr.
    destruct (rule_of (trim t)) as [x|]; [|by rewrite Hr]. destruct Hr as (r & -> & Hx). cbn [mbind option_bind result_bind].
    specialize (IH {| rules := rules f0 ++ [r]; has_include_rules := has_include_rules f0 || include r |}).
    destruct (mapM rule_of _) as [xs|]; [|by rewrite IH]. destruct IH as (rs & -> & Hrs).
    exists (r :: rs). cbn. destruct Hx as [Hi Hx]. rewrite <- app_assoc, <- Hi, <- orb_assoc. split; [done|]. by constructor.
Qed.

Lemma foldl_decides rs xs rel d : Forall2 rule_means rs xs → plain_text rel →
  let b := foldl (λ included r, if is_match (matcher r) rel then include r else included) d rs in
  (∃ k1 p k2, xs = k1 ++ (b, p) :: k2 ∧ names p rel ∧ ∀ r, r ∈ k2 → ¬ names r.2 rel) ∨
  (∀ r, r ∈ xs → ¬ names r.2 rel) ∧ b = d.
Proof.
  intros H Hp. revert d. induction H as [|r [sign p] rs xs [Hi Hm] _ IH]; intros d; cbn [foldl] in *.
  { right. split; [|done]. by intros ? ?%not_elem_of_nil. }
  cbn [fst snd] in *. specialize (Hm rel Hp). destruct (IH (if is_match (matcher r) rel then include r else d)) as [(k1 & q & k2 & E & Hn)|[Hn E]].
  - left. exists ((sign, p) :: k1), q, k2. by rewrite <- app_comm_cons, <- E.
  - rewrite E. destruct (is_match (matcher r) rel).
    + left. rewrite Hi. exists [], p, xs. split; [done|]. split; [by apply Hm|done].
    + right. split; [|done]. intros x [->|Hx]%elem_of_cons; [|by apply Hn]. cbn. intros Hx. by apply Hm in Hx.
Qed.

(** C18: A source filter reads as its globs: it is refused when a rule has no
    sign, no angles or no pattern; else a file is compiled exactly when the
    last rule that names it includes it, or none names it and none includes. *)
Theorem source_filter_spec spec root path : Forall is_ascii spec → plain_text (relative_text root path) →
  match mapM rule_of (tokens spec) with
  | None => parse (Some spec) = Err ConfigError
  | Some xs => ∃ f, parse (Some spec) = Ok f ∧ decides xs (relative_text root path) (matches f root path)
  end.
Proof.
  intros Hs Hp. unfold parse, tokens. cbv zeta.
  assert (Forall (Forall is_ascii) (lines spec ≫= split_on ","%char)) as Ha.
  { apply Forall_forall. intros t (l & Ht & Hl)%list_elem_of_bind. apply Forall_forall. intros c Hc.
    rewrite Forall_forall in Hs. apply Hs. eapply line_elem; [done|]. by eapply split_by_elem. }
  pose proof (parse_rules_spec _ {| rules := []; has_include_rules := false |} Ha) as H.
  destruct (mapM rule_of _) as [xs|]; [|done]. destruct H as (rs & -> & Hrs). eexists. split; [done|]. cbn.
  pose proof (foldl_decides rs xs (relative_text root path) (negb (existsb fst xs)) Hrs Hp) as Hd. cbv zeta in Hd.
  unfold matches. cbn. destruct rs as [|r rs]; [|exact Hd]. inversion Hrs. subst. right. split; [by intros ? ?%not_elem_of_nil|done].
Qed.
End Filter.
