(* ===== verification/SourceScan.v ===== *)
(** * The source scanner, [fbuild-build-engine/src/source_scanner.rs]

    The files of a project that are compiled, and the translation of the
    [.ino] tabs of a sketch to one C++ file with a prelude for each tab.
    Paths are lists of components; the parser of C++, the regular expressions
    and the colours of the terminal are arguments. *)
From S2P Require Import Prelude RustStr CachePaths PathBuf NormPath FileDisk Fingerprint InoPrototypes SourceFilter.
From stdpp Require Import sorting.

Definition InoPreludeMap : Type := list (PathBuf * PathBuf).

Record SourceCollection := {
  sketch_sources : list PathBuf;
  core_sources : list PathBuf;
  variant_sources : list PathBuf;
  headers : list PathBuf;
  ino_preludes : InoPreludeMap;
}.
Definition all_sources (c : SourceCollection) : list PathBuf := sketch_sources c ++ core_sources c ++ variant_sources c.

Definition EXCLUDE_DIRS : list str :=
  [&".zap"; &".pio"; &".build"; &"build"; &".git"; &"__pycache__"; &"node_modules"; &".fbuild"; &".venv"; &"venv";
   &".cache"; &"target"; &".vscode"; &".idea"].

(** ** Texts *)

(** [to_string_lossy], [read_to_string] *)
Definition lossy (s : str) : str := from_utf8_lossy s.
Definition read_to_string (D : Disk) (p : PathBuf) : result FbuildError str :=
  bytes <-? read D p; match from_utf8 bytes with Some s => Ok s | None => Err Io end.

(** [eq_ignore_ascii_case] *)
Definition eq_ignore_case (s t : str) : bool := bool_decide (to_ascii_lowercase s = to_ascii_lowercase t).

Definition drive_letter (s : str) : bool :=
  match s with a :: b :: c :: _ => in_range "A" "Z" a && bool_decide (b = ":"%char) && bool_decide (c = slash) | _ => false end.
Definition normalize_generated_source_path_text (path : str) : str :=
  let normalized := normalize_glob_separators path in
  match normalized with
  | a :: rest => if drive_letter normalized then ascii_lower a :: rest else normalized
  | [] => []
  end.
(** [display] is lossy as well. *)
Definition normalize_generated_source_path (path : PathBuf) : str := normalize_generated_source_path_text (lossy (path_text path)).

Fixpoint crlf_to_lf (s : str) : str :=
  match s with
  | [] => []
  | c :: rest =>
      match rest with
      | d :: rest' => if decide (c = cr ∧ d = nl) then nl :: crlf_to_lf rest' else c :: crlf_to_lf rest
      | [] => [c]
      end
  end.
Definition normalize_generated_source_line_endings (source : str) : str :=
  (λ c, if decide (c = cr) then nl else c) <$> crlf_to_lf source.

Definition is_include_directive (trimmed : str) : bool := starts_with (&"#include") trimmed.

Definition hoist_include_directives (contents : list str) : list str :=
  first_seen ∅ (filter (λ l, is_include_directive l = true) (trim <$> (contents ≫= lines))).

Definition blank_include (line : str) : str := if is_include_directive (trim line) then [] else line.
Definition strip_include_directives (source : str) : str := RustStr.join [nl] (blank_include <$> lines source).

Definition file_stem (p : PathBuf) : option str := file_name p ≫= λ n, Some (split_file_name n).1.
Definition file_name_for_sort (p : PathBuf) : str := from_option lossy [] (file_name p).
(** The letters that the extensions are compared with have no upper case
    beyond ASCII. *)
Definition lower_extension (p : PathBuf) : str := to_ascii_lowercase (from_option lossy [] (extension p)).

(** ** The order of the tabs *)

Definition compare_ino_paths (a b : PathBuf) : Prop :=
  let a := file_name_for_sort a in
  let b := file_name_for_sort b in
  if decide (to_ascii_lowercase a = to_ascii_lowercase b) then str_le a b
  else str_le (to_ascii_lowercase a) (to_ascii_lowercase b).
#[global] Instance compare_ino_paths_dec : RelDecision compare_ino_paths.
Proof. intros a b. unfold compare_ino_paths. cbv zeta. case_decide; unfold str_le; apply _. Defined.

Definition primary_ino_stems (src_dir : PathBuf) : list str :=
  match lossy <$> file_name src_dir with
  | None => []
  | Some src_name =>
      if eq_ignore_case src_name (&"src") then
        &"main" :: match parent src_dir ≫= file_name with Some project_name => [lossy project_name] | None => [] end
      else [src_name]
  end.

Definition file_stem_eq_ignore_ascii_case (path : PathBuf) (expected : str) : bool :=
  match file_stem path with Some stem => eq_ignore_case (lossy stem) expected | None => false end.

(** [position] *)
Fixpoint position {A} (f : A → bool) (l : list A) : option nat :=
  match l with [] => None | x :: l => if f x then Some 0 else S <$> position f l end.

Section Scanner.
Context {W : WalkDir} {RX : Regex}.
Context (parse_cpp_source : str → option Node) (setup_or_loop : str → bool) (bold yellow : str → str).

Definition find_by_stem (ino_files : list PathBuf) (primary_stem : str) : option nat :=
  position (λ path, file_stem_eq_ignore_ascii_case path primary_stem) ino_files.
Definition find_primary_ino_index (D : Disk) (src_dir : PathBuf) (ino_files : list PathBuf) : option nat :=
  match head (omap (find_by_stem ino_files) (primary_ino_stems src_dir)) with
  | Some index => Some index
  | None =>
      position (λ path, match read_to_string D path with Ok content => setup_or_loop content | Err _ => false end) ino_files
  end.

Definition order_ino_files (D : Disk) (src_dir : PathBuf) (ino_files : list PathBuf) : list PathBuf :=
  let ino_files := merge_sort compare_ino_paths ino_files in
  match find_primary_ino_index D src_dir ino_files with
  | Some i => match ino_files !! i with Some primary => primary :: delete i ino_files | None => ino_files end
  | None => ino_files
  end.

(** ** Walking *)

Definition keep_entry (D : Disk) (root p : PathBuf) : bool :=
  if decide (p = root) then true
  else if is_dir D p then
    let name := lossy (default [] (file_name p)) in
    negb (bool_decide (name ∈ EXCLUDE_DIRS)) && negb (starts_with (&".") name)
  else true.
Definition walk_sources (D : Disk) (dir : PathBuf) : list PathBuf :=
  merge_sort path_le (filter (λ p, is_file D p = true) (walk_dir D dir (keep_entry D dir))).

Definition source_extensions : list str := [&"cpp"; &"c"; &"s"; &"cc"; &"cxx"].
Definition with_extension_in (exts : list str) (files : list PathBuf) : list PathBuf :=
  filter (λ p, lower_extension p ∈ exts) files.
Definition scan_core_sources (D : Disk) (core_dir : PathBuf) : list PathBuf :=
  if negb (exists_ D core_dir) then [] else with_extension_in source_extensions (walk_sources D core_dir).
Definition scan_variant_sources (D : Disk) (variant_dir : PathBuf) : list PathBuf :=
  if negb (exists_ D variant_dir) then [] else with_extension_in source_extensions (walk_sources D variant_dir).
Definition scan_headers (D : Disk) (dir : PathBuf) : list PathBuf :=
  if negb (exists_ D dir) then [] else with_extension_in [&"h"; &"hpp"] (walk_sources D dir).

Definition arduino_header_available (D : Disk) (include_roots : list PathBuf) : bool :=
  existsb (λ root, is_file D (buf_join root (&"Arduino.h"))) include_roots.

(** What the scan writes to the standard error. *)
Definition main_cpp_skips_ino_warning (main_cpp : PathBuf) (ino_files : list PathBuf) : str :=
  match ino_files with
  | [] => []
  | _ =>
      let skipped := RustStr.join (&", ") (normalize_generated_source_path <$> ino_files) in
      let message := normalize_generated_source_path main_cpp ++
                     &" takes precedence; skipping automatic .ino preprocessing for: " ++ skipped in
      yellow (bold (&"warning:")) ++ &" " ++ yellow message ++ [nl]
  end.

(** ** Preprocessing *)

Context (denied : PathBuf → bool) (now : Z).

Definition write_if_changed (path : PathBuf) (contents : str) : IO unit := λ D,
  match read_to_string D path with
  | Ok existing => if decide (existing = contents) then (Ok tt, D) else write denied now path contents D
  | Err _ => write denied now path contents D
  end.

Fixpoint read_tabs (D : Disk) (ino_files : list PathBuf) : result FbuildError (list str) :=
  match ino_files with
  | [] => Ok []
  | ino :: rest =>
      s <-? read_to_string D ino; contents <-? read_tabs D rest;
      Ok (normalize_generated_source_line_endings s :: contents)
  end.

Definition build_ino_prelude (include_arduino_h : bool) (sketch_includes prototypes : list str) : str :=
  (if include_arduino_h then &"#include <Arduino.h>" ++ [nl] else []) ++
  (sketch_includes ≫= λ inc, inc ++ [nl]) ++
  (match prototypes with
   | [] => []
   | _ => &"// Auto-generated function prototypes" ++ [nl] ++ (prototypes ≫= λ proto, proto ++ &";" ++ [nl]) ++ [nl]
   end).

Section Project.
Context (src_dir build_dir : PathBuf).

Definition line_directive_path (path : PathBuf) : str :=
  let project_root := default src_dir (parent src_dir) in
  normalize_generated_source_path (default path (strip_path project_root path)).

Definition line_directive (ino : PathBuf) : str := &"#line 1 " ++ ["034"%char] ++ line_directive_path ino ++ ["034"%char; nl].
(** What the loops over the tabs push for one. *)
Definition tab_segment (tab : PathBuf * str) : str :=
  line_directive tab.1 ++ tab.2 ++ (if ends_with [nl] tab.2 then [] else [nl]).

Definition output_file (ino : PathBuf) (suffix : str) : PathBuf :=
  build_dir ++ [Normal (from_option lossy [] (file_stem ino) ++ suffix)].
Definition ino_cpp (ino : PathBuf) : PathBuf := output_file ino (&".ino.cpp").
Definition prelude_path (ino : PathBuf) : PathBuf := output_file ino (&".ino.prelude.h").

(** [prior]: the segments of the tabs before. *)
Fixpoint write_preludes (prelude prior : str) (tabs : list (PathBuf * str)) : IO InoPreludeMap :=
  match tabs with
  | [] => mret []
  | tab :: tabs =>
      _ ← write_if_changed (prelude_path tab.1) (prelude ++ prior);
      mapping ← write_preludes prelude (prior ++ tab_segment tab) tabs;
      mret ((tab.1, prelude_path tab.1) :: mapping)
  end.
Definition write_ino_preludes (tabs : list (PathBuf * str)) (prelude : str) : IO InoPreludeMap := write_preludes prelude [] tabs.

Definition prelude_of (include_arduino_h : bool) (contents : list str) : str :=
  build_ino_prelude include_arduino_h (hoist_include_directives contents)
    (extract_function_prototypes parse_cpp_source (RustStr.join [nl] contents)).

Definition preprocess_ino_files (ino_files : list PathBuf) (include_arduino_h : bool) : IO (PathBuf * InoPreludeMap) :=
  contents ← look (λ D, read_tabs D ino_files);
  let tabs := zip ino_files (strip_include_directives <$> contents) in
  let prelude := prelude_of include_arduino_h contents in
  let output := prelude ++ (tabs ≫= tab_segment) in
  _ ← create_dir_all denied now build_dir;
  let output_path := ino_cpp (default [] (head ino_files)) in
  _ ← write_if_changed output_path output;
  preludes ← write_ino_preludes tabs prelude;
  mret (output_path, preludes).

(** ** Scanning *)

Record Found := { sources : list PathBuf; ino_files : list PathBuf; main_cpp_path : option PathBuf }.
Definition sort_entry (f : Found) (entry : PathBuf) : Found :=
  let ext := lower_extension entry in
  if decide (ext = &"ino") then {| sources := sources f; ino_files := ino_files f ++ [entry]; main_cpp_path := main_cpp_path f |}
  else if decide (ext ∈ source_extensions) then
    {| sources := sources f ++ [entry]; ino_files := ino_files f;
       main_cpp_path := if decide (file_name entry = Some (&"main.cpp")) then Some entry else main_cpp_path f |}
  else f.
Definition find_sketch (D : Disk) (filter : SourceFilter) : Found :=
  foldl sort_entry {| sources := []; ino_files := []; main_cpp_path := None |}
    (base.filter (λ p, matches filter src_dir p = true) (walk_sources D src_dir)).

(** The sources, the preludes, and what was written to the standard error. *)
Definition scan_sketch_sources_and_preludes (filter_spec : option str) (include_roots : list PathBuf) :
    IO (list PathBuf * InoPreludeMap * str) := λ D,
  if negb (exists_ D src_dir) then (Ok ([], [], []), D)
  else
    match parse filter_spec with
    | Err e => (Err e, D)
    | Ok filter =>
        let found := find_sketch D filter in
        match main_cpp_path found, ino_files found with
        | Some main_cpp, inos => (Ok (sources found, [], main_cpp_skips_ino_warning main_cpp inos), D)
        | None, [] => (Ok (sources found, [], []), D)
        | None, inos =>
            let inos := order_ino_files D src_dir inos in
            (r ← preprocess_ino_files inos (arduino_header_available D include_roots);
             mret (r.1 :: sources found, r.2, [])) D
        end
    end.

Definition scan_sketch_sources (filter_spec : option str) (include_roots : list PathBuf) : IO (list PathBuf * str) :=
  r ← scan_sketch_sources_and_preludes filter_spec include_roots; mret (r.1.1, r.2).

Definition scan_all (core_dir variant_dir : option PathBuf) (filter_spec : option str) : IO (SourceCollection * str) :=
  r ← scan_sketch_sources_and_preludes filter_spec (option_list core_dir ++ option_list variant_dir);
  look (λ D, Ok ({| sketch_sources := r.1.1;
     core_sources := from_option (scan_core_sources D) [] core_dir;
     variant_sources := from_option (scan_variant_sources D) [] variant_dir;
     headers := scan_headers D src_dir ++ from_option (scan_headers D) [] core_dir ++ from_option (scan_headers D) [] variant_dir;
     ino_preludes := r.1.2 |}, r.2)).
End Project.
End Scanner.
