(* ===== verification/SourceRescan.v ===== *)
(** * A second scan of a project

    What preprocessing writes is not seen by the walk of the sources, so a
    scan that follows finds the same files, and leaves the disk as it is. *)
From S2P Require Import Prelude RustStr CachePaths PathBuf NormPath FileDisk Fingerprint FingerprintFacts FastPathFacts InoPrototypes SourceFilter SourceScan.
From stdpp Require Import sorting.
(** ** Properties of the source scanner: what a scan writes

    The files that the preprocessing leaves, what else it leaves alone, and
    that a scan of an unchanged project finds and writes nothing new. *)

(** ** The disk after the operations *)

(** A text that reading gives back. *)
Definition legible (D : Disk) (p : PathBuf) : Prop :=
  ∀ f, D !! p = Some (Regular f) → readable f = true ∧ decoded (content f).

Lemma read_to_string_Ok D p s : read_to_string D p = Ok s → holds D p s.
Proof.
  unfold read_to_string, read. destruct (D !! p) as [[|f]|] eqn:E; [done| |done].
  destruct (readable f); [|done]. cbn. unfold from_utf8. destruct (decide _); [|done]. intros [= <-]. by exists f.
Qed.
Lemma read_to_string_legible D p s : holds D p s → legible D p → read_to_string D p = Ok s.
Proof.
  intros (f & Hf & <-) Hl. destruct (Hl f Hf) as [Hr Hd]. unfold read_to_string, read. rewrite Hf, Hr. cbn.
  unfold from_utf8. by rewrite decide_True.
Qed.
Lemma read_to_string_ext D D' p : D' !! p = D !! p → read_to_string D' p = read_to_string D p.
Proof. intros H. unfold read_to_string, read. by rewrite H. Qed.

Section Writes.
Context (denied : PathBuf → bool) (now : Z).

Lemma write_if_changed_Ok p c D D' : write_if_changed denied now p c D = (Ok tt, D') →
  holds D' p c ∧ is_dir D p = false ∧ ∀ q, q ≠ p → D' !! q = D !! q.
Proof.
  unfold write_if_changed. destruct (read_to_string D p) as [old|] eqn:Er; [|apply write_Ok].
  destruct (decide (old = c)) as [->|]; [|apply write_Ok]. intros [= <-].
  apply read_to_string_Ok in Er. split_and!; [done| |done]. destruct Er as (f & Hf & _). unfold is_dir. by rewrite Hf.
Qed.

Lemma write_if_changed_same p c D : holds D p c → legible D p → write_if_changed denied now p c D = (Ok tt, D).
Proof. intros Hh Hl. unfold write_if_changed. rewrite (read_to_string_legible _ _ c) by done. by rewrite decide_True. Qed.

End Writes.

(** ** The outputs *)

Section Project.
Context {W : WalkDir} {WOk : WalkDirOk W} {RX : Regex}.
Context (parse_cpp_source : str → option Node) (setup_or_loop : str → bool) (bold yellow : str → str).
Context (src_dir build_dir : PathBuf).

Local Abbreviation segment := (tab_segment src_dir).
Local Abbreviation prelude_at := (prelude_path build_dir).

Lemma outputs_differ ino ino' : ino_cpp build_dir ino ≠ prelude_at ino'.
Proof.
  unfold ino_cpp, prelude_path, output_file. intros H%app_inv_head. injection H as H.
  apply (f_equal last) in H. by rewrite !last_app in H.
Qed.

Definition tabs_of (prelude prior : str) (tabs : list (PathBuf * str)) (D : Disk) : Prop :=
  ∀ i tab, tabs !! i = Some tab → holds D (prelude_at tab.1) (prelude ++ prior ++ (take i tabs ≫= segment)).
Definition mapping_of (tabs : list (PathBuf * str)) : InoPreludeMap := (λ tab, (tab.1, prelude_at tab.1)) <$> tabs.

Lemma mapping_of_snd tabs : (mapping_of tabs).*2 = prelude_at <$> tabs.*1.
Proof. unfold mapping_of. by rewrite <- !list_fmap_compose. Qed.

Lemma tabs_of_cons prelude prior tab tabs D : holds D (prelude_at tab.1) (prelude ++ prior) →
  tabs_of prelude (prior ++ segment tab) tabs D → tabs_of prelude prior (tab :: tabs) D.
Proof.
  intros H1 H2 [|i] t Ht; cbn [lookup] in Ht.
  - injection Ht as <-. by rewrite take_0, app_nil_r.
  - rewrite firstn_cons, bind_cons, (assoc_L (++) prior). by apply H2.
Qed.
Lemma tabs_of_tail prelude prior tab tabs D : tabs_of prelude prior (tab :: tabs) D →
  holds D (prelude_at tab.1) (prelude ++ prior) ∧ tabs_of prelude (prior ++ segment tab) tabs D.
Proof.
  intros H. split.
  - specialize (H 0 tab eq_refl). by rewrite take_0, app_nil_r in H.
  - intros i t Ht. specialize (H (S i) t Ht). by rewrite firstn_cons, bind_cons, (assoc_L (++) prior) in H.
Qed.

Section Writing.
Context (denied : PathBuf → bool) (now : Z).

Lemma write_preludes_Ok prelude prior tabs m D D' :
  write_preludes denied now src_dir build_dir prelude prior tabs D = (Ok m, D') →
  m = mapping_of tabs ∧ (∀ q, q ∉ m.*2 → D' !! q = D !! q) ∧ (∀ q, q ∈ m.*2 → is_dir D q = false ∧ is_dir D' q = false) ∧
  (NoDup m.*2 → tabs_of prelude prior tabs D').
Proof.
  revert prior m D. induction tabs as [|tab tabs IH]; intros prior m D; cbn [write_preludes].
  { intros [= <- <-]. split_and!; [done..|by intros ? ?%not_elem_of_nil|by intros _ [|] ?]. }
  intros ([] & D1 & Hw & (mp & D2 & Hp & Hr)%IO_bind_Ok)%IO_bind_Ok. injection Hr as <- <-.
  apply write_if_changed_Ok in Hw as (Hh & Hnd & Hk). apply IH in Hp as (-> & Hk2 & Hd2 & Ht).
  cbn [fmap list_fmap snd]. split_and!; [done|..].
  - intros q [Hq1 Hq2]%not_elem_of_cons. by rewrite Hk2, Hk.
  - assert (∀ q, is_dir D q = true → is_dir D2 q = true ∧ q ≠ prelude_at tab.1) as Hdir.
    { intros q Hq. assert (q ≠ prelude_at tab.1) as Hne by (intros ->; congruence). split; [|done].
      unfold is_dir in *. destruct (decide (q ∈ (mapping_of tabs).*2)) as [Hin|Hin]; [|by rewrite Hk2, Hk].
      apply Hd2 in Hin as [Hin _]. unfold is_dir in Hin. rewrite Hk in Hin by done. by rewrite Hin in Hq. }
    intros q Hq. assert (is_dir D2 q = false) as H2.
    { apply elem_of_cons in Hq as [->|Hq]; [|by apply Hd2].
      destruct (decide (prelude_at tab.1 ∈ (mapping_of tabs).*2)) as [Hin|Hin]; [by apply Hd2|].
      unfold is_dir. rewrite Hk2 by done. by destruct Hh as (f & -> & _). }
    split; [|done]. destruct (is_dir D q) eqn:Eq; [|done]. destruct (Hdir q Eq). congruence.
  - intros [Hn1 Hn2]%NoDup_cons. apply tabs_of_cons; [|by apply Ht].
    destruct Hh as (f & Hf & Hc). exists f. by rewrite Hk2.
Qed.

Lemma write_preludes_same prelude prior tabs D : tabs_of prelude prior tabs D →
  (∀ q, q ∈ (mapping_of tabs).*2 → legible D q) →
  write_preludes denied now src_dir build_dir prelude prior tabs D = (Ok (mapping_of tabs), D).
Proof.
  revert prior. induction tabs as [|tab tabs IH]; intros prior Ht Hl; [done|]. cbn [write_preludes].
  apply tabs_of_tail in Ht as [Hh Ht]. rewrite IO_bind_unfold, write_if_changed_same; [|done|by apply Hl; left].
  rewrite IO_bind_unfold, IH; [done|done|]. intros q Hq. apply Hl. by right.
Qed.
End Writing.

(** ** One preprocessing *)

Definition stripped_tabs (inos : list PathBuf) (contents : list str) : list (PathBuf * str) :=
  zip inos (strip_include_directives <$> contents).
Definition outputs (r : PathBuf * InoPreludeMap) : list PathBuf := r.1 :: r.2.*2.

(** Directories are made down to the build directory; else the outputs change. *)
Definition changes (outs : list PathBuf) (D D' : Disk) : Prop := ∀ q,
  D' !! q = D !! q ∨ (q `prefix_of` build_dir ∧ D !! q = None ∧ is_dir D' q = true) ∨
  (q ∈ outs ∧ is_dir D q = false ∧ is_dir D' q = false).

Record preprocessed (inos : list PathBuf) (arduino : bool) (contents : list str) (r : PathBuf * InoPreludeMap) (D D' : Disk) : Prop := {
  pp_output : r.1 = ino_cpp build_dir (default [] (head inos));
  pp_mapping : r.2 = mapping_of (stripped_tabs inos contents);
  pp_cpp : holds D' r.1 (prelude_of parse_cpp_source arduino contents ++ (stripped_tabs inos contents ≫= segment));
  pp_preludes : NoDup r.2.*2 → tabs_of (prelude_of parse_cpp_source arduino contents) [] (stripped_tabs inos contents) D';
  pp_above : above D' build_dir;
  pp_changes : changes (outputs r) D D';
}.

Local Abbreviation preprocess dn nw := (preprocess_ino_files parse_cpp_source dn nw src_dir build_dir).

Lemma dirs_made dn nw D D1 : create_dir_all dn nw build_dir D = (Ok tt, D1) →
  above D1 build_dir ∧ ∀ q, D1 !! q = D !! q ∨ q `prefix_of` build_dir ∧ D !! q = None ∧ is_dir D1 q = true.
Proof.
  intros [Hd Hk]%make_dirs_Ok. split; [done|]. intros q. destruct (Hk q) as [H|(H & HN & HD)]; [by left|right].
  apply ancestors_down_elem in H as [H _]. done.
Qed.

(** What is a directory stays one when files are written. *)
Lemma dir_kept (outs : list PathBuf) D D' q : (∀ q, q ∉ outs → D' !! q = D !! q) → (∀ q, q ∈ outs → is_dir D q = false) →
  is_dir D q = true → is_dir D' q = true.
Proof.
  intros Hk Hd Hq. destruct (decide (q ∈ outs)) as [Hin|Hin]; [by rewrite Hd in Hq|]. unfold is_dir in *. by rewrite Hk.
Qed.

Lemma written_changes r D D1 D3 : (∀ q, D1 !! q = D !! q ∨ q `prefix_of` build_dir ∧ D !! q = None ∧ is_dir D1 q = true) →
  (∀ q, q ∉ outputs r → D3 !! q = D1 !! q) → (∀ q, q ∈ outputs r → is_dir D1 q = false ∧ is_dir D3 q = false) →
  changes (outputs r) D D3.
Proof.
  intros H1 H2 H3 q. destruct (decide (q ∈ outputs r)) as [Hq|Hq].
  - right; right. destruct (H3 q Hq) as [Ha Hb]. split_and!; [done| |done].
    destruct (H1 q) as [E|(_ & _ & E)]; [|congruence]. unfold is_dir in *. by rewrite <- E.
  - destruct (H1 q) as [E|(Hp & HN & E)]; [left; by rewrite H2|right; left]. split_and!; [done..|].
    unfold is_dir in *. by rewrite H2.
Qed.

Lemma preprocess_Ok dn nw inos arduino r D D' : preprocess dn nw inos arduino D = (Ok r, D') →
  ∃ contents, read_tabs D inos = Ok contents ∧ preprocessed inos arduino contents r D D'.
Proof.
  intros (contents & D0 & Hc & H)%IO_bind_Ok. injection Hc as Hc <-. exists contents. split; [done|].
  apply IO_bind_Ok in H as ([] & D1 & [Ha Hk1]%dirs_made & H).
  apply IO_bind_Ok in H as ([] & D2 & (Hh & Hnd & Hk2)%write_if_changed_Ok & H).
  apply IO_bind_Ok in H as (m & D3 & Hp & Hr). injection Hr as <- <-.
  apply write_preludes_Ok in Hp as (-> & Hk3 & Hd3 & Ht).
  change (zip inos _) with (stripped_tabs inos contents) in *. set (out := ino_cpp build_dir _) in *.
  assert (∀ q, q ∉ outputs (out, mapping_of (stripped_tabs inos contents)) → D3 !! q = D1 !! q) as Hkeep.
  { intros q [Hq1 Hq2]%not_elem_of_cons. cbn in Hq1. by rewrite Hk3, Hk2. }
  assert (out ∉ (mapping_of (stripped_tabs inos contents)).*2) as Hout.
  { rewrite mapping_of_snd. intros (ino & H & _)%list_elem_of_fmap. by apply outputs_differ in H. }
  assert (∀ q, q ∈ outputs (out, mapping_of (stripped_tabs inos contents)) → is_dir D1 q = false ∧ is_dir D3 q = false) as Hdirs.
  { intros q Hq. unfold outputs in Hq. cbn [fst snd] in Hq. apply elem_of_cons in Hq as [->|Hq].
    - split; [done|]. unfold is_dir. destruct Hh as (f & Hf & _). by rewrite Hk3, Hf.
    - destruct (Hd3 q Hq) as [H2 H3]. split; [|done]. unfold is_dir in *. rewrite <- (Hk2 q); [done|]. by intros ->. }
  split; cbn [fst snd]; try done.
  - destruct Hh as (f & Hf & <-). exists f. by rewrite Hk3.
  - intros q Hq. eapply (dir_kept _ D1); [exact Hkeep| |by apply Ha]. intros ? ?. by apply Hdirs.
  - by apply (written_changes _ D D1).
Qed.

(** With its outputs there, another changes nothing. *)
Lemma preprocess_same dn nw inos arduino contents r D D' : preprocessed inos arduino contents r D D' →
  read_tabs D' inos = Ok contents → NoDup r.2.*2 → (∀ q, q ∈ outputs r → legible D' q) →
  preprocess dn nw inos arduino D' = (Ok r, D').
Proof.
  intros [Ho Hm Hc Hp Ha _] Hr Hn Hl. unfold preprocess_ino_files. rewrite IO_bind_unfold. unfold look. rewrite Hr.
  rewrite IO_bind_unfold. unfold create_dir_all. rewrite make_dirs_there by done.
  rewrite IO_bind_unfold, <- Ho, write_if_changed_same; [|done|by apply Hl; left].
  rewrite IO_bind_unfold. unfold write_ino_preludes. rewrite write_preludes_same; [|by apply Hp|].
  - destruct r as [o m]. cbn [fst snd] in *. by rewrite Hm.
  - intros q Hq. apply Hl. right. by rewrite Hm.
Qed.
End Project.

Section Rescan.
Context {W : WalkDir} {WOk : WalkDirOk W} {RX : Regex}.
Context (parse_cpp_source : str → option Node) (setup_or_loop : str → bool) (bold yellow : str → str).
Context (src_dir build_dir : PathBuf).

Local Abbreviation scan dn nw :=
  (scan_sketch_sources_and_preludes parse_cpp_source setup_or_loop bold yellow dn nw src_dir build_dir).

(** Whatever exists is in a directory that exists. *)
Definition tree (D : Disk) : Prop := ∀ p q, is_Some (D !! p) → q `prefix_of` p → q ≠ [] → is_Some (D !! q).

(** The walk of the sources does not enter the build directory. *)
Definition excluded_name (q : PathBuf) : Prop :=
  ∃ n, file_name q = Some n ∧ (lossy n ∈ EXCLUDE_DIRS ∨ starts_with (&".") (lossy n) = true).
Definition apart : Prop :=
  ¬ src_dir `prefix_of` build_dir ∧ ¬ build_dir `prefix_of` src_dir ∨
  ∃ q, src_dir `prefix_of` q ∧ q ≠ src_dir ∧ q `prefix_of` build_dir ∧ excluded_name q.

Definition below_build (outs : list PathBuf) : Prop := ∀ q, q ∈ outs → build_dir `prefix_of` q ∧ q ≠ build_dir.

Lemma keep_excluded D q : excluded_name q → q ≠ src_dir → is_dir D q = true → keep_entry D src_dir q = false.
Proof.
  intros (n & Hn & He) Hs Hd. unfold keep_entry. rewrite decide_False, Hd, Hn by done. cbn [default]. change (id n) with n.
  destruct He as [He|He]; [by rewrite bool_decide_true|]. rewrite He. by rewrite andb_false_r.
Qed.
Lemma opens_is_dir D q : opens D q = true → is_dir D q = true.
Proof. unfold opens, is_dir. by destruct (D !! q) as [[]|]. Qed.

(** What a walk reports, and what it goes through. *)
Definition reached (D : Disk) (p : PathBuf) : Prop :=
  src_dir `prefix_of` p ∧ is_Some (D !! p) ∧
  ∀ q, src_dir `prefix_of` q → q `prefix_of` p → keep_entry D src_dir q = true ∧ (q ≠ p → opens D q = true).

Lemma walk_sources_elem D p : p ∈ walk_sources D src_dir ↔ is_file D p = true ∧ reached D p.
Proof. unfold walk_sources, reached. by rewrite (merge_sort_Permutation path_le), list_elem_of_filter, walk_dir_elem. Qed.

Lemma reached_not_below D p : apart → reached D p → build_dir `prefix_of` p → p ≠ build_dir → False.
Proof.
  intros [[Hs Hb]|(e & He1 & He2 & He3 & He4)] (Hp & _ & Hq) Hbp Hne.
  - destruct (prefix_weak_total src_dir build_dir p) as [|]; done.
  - assert (e ≠ p) as Hep. { intros ->. apply Hne. by apply (anti_symm prefix). }
    destruct (Hq e He1) as [Hk Ho]; [by etrans|]. rewrite keep_excluded in Hk; [done|done|done|].
    by apply opens_is_dir, Ho.
Qed.

Section Unchanged.
Context (outs : list PathBuf) (D D' : Disk).
Hypothesis Hap : apart.
Hypothesis Hs0 : src_dir ≠ [].
Hypothesis Hb : below_build outs.
Hypothesis Ht : tree D.
Hypothesis Hc : changes build_dir outs D D'.

(** On the way to what is reached before, nothing changes. *)
Lemma reached_kept p q : reached D p → src_dir `prefix_of` q → q `prefix_of` p → D' !! q = D !! q.
Proof.
  intros Hp Hsq Hqp. destruct (Hc q) as [E|[(_ & HN & _)|(Ho & _ & _)]]; [done|exfalso..].
  - destruct Hp as (_ & Hs & Hq). destruct (Hq q Hsq Hqp) as [_ Ho]. destruct (decide (q = p)) as [->|Hne].
    + by destruct Hs as [? ?]; simplify_eq.
    + specialize (Ho Hne). unfold opens in Ho. by rewrite HN in Ho.
  - destruct (Hb q Ho) as [Hbq Hne]. apply (reached_not_below D p Hap Hp); [by etrans|].
    intros ->. apply Hne. by apply (anti_symm prefix).
Qed.

Lemma reached_after p : reached D p → reached D' p.
Proof.
  intros Hp. pose proof Hp as (Hs & Hsome & Hq). split_and!; [done|by rewrite (reached_kept p)|].
  intros q H1 H2. destruct (Hq q H1 H2) as [Hk Ho]. unfold keep_entry, opens, is_dir in *.
  by rewrite (reached_kept p).
Qed.

(** On the way to a file that is reached after, nothing changed. *)
Lemma reached_kept_back p q : is_file D' p = true → reached D' p → src_dir `prefix_of` q → q `prefix_of` p → D' !! q = D !! q.
Proof.
  intros Hf Hp Hsq Hqp. destruct (Hc q) as [E|[(Hqb & HN & Hd)|(Ho & _ & _)]]; [done|exfalso..].
  - destruct (Hc p) as [E|[(_ & _ & Hdp)|(Ho & _ & _)]].
    + destruct (Ht p q) as [x Hx]; [rewrite <- E; apply Hp|done| |congruence]. intros ->. by apply prefix_nil_inv in Hsq.
    + unfold is_file, is_dir in *. by destruct (D' !! p) as [[]|].
    + destruct (Hb p Ho) as [Hbp Hne]. by apply (reached_not_below D' p Hap Hp).
  - destruct (Hb q Ho) as [Hbq Hne]. apply (reached_not_below D' p Hap Hp); [by etrans|].
    intros ->. apply Hne. by apply (anti_symm prefix).
Qed.

Lemma reached_before p : is_file D' p = true → reached D' p → reached D p.
Proof.
  intros Hf Hp. pose proof Hp as (Hs & Hsome & Hq). split_and!; [done|by rewrite <- (reached_kept_back p)|].
  intros q H1 H2. destruct (Hq q H1 H2) as [Hk Ho]. unfold keep_entry, opens, is_dir in *.
  by rewrite <- (reached_kept_back p).
Qed.

Lemma walk_unchanged : walk_sources D' src_dir = walk_sources D src_dir ∧
  ∀ p, p ∈ walk_sources D src_dir → D' !! p = D !! p.
Proof.
  split.
  - apply merge_sort_path_ext, NoDup_Permutation; [apply NoDup_filter, walk_dir_NoDup..|]. intros p.
    assert (∀ E, p ∈ filter (λ p, is_file E p = true) (walk_dir E src_dir (keep_entry E src_dir)) ↔ is_file E p = true ∧ reached E p) as Hw.
    { intros E. rewrite <- walk_sources_elem. unfold walk_sources. by rewrite (merge_sort_Permutation path_le). }
    rewrite !Hw. split; intros [Hf Hp].
    + apply reached_before in Hp as Hp0; [|done]. split; [|done]. unfold is_file in *.
      by rewrite <- (reached_kept p p) by (try done; apply Hp).
    + split; [|by apply reached_after]. unfold is_file in *. by rewrite (reached_kept p p) by (try done; apply Hp).
  - intros p [Hf Hp]%walk_sources_elem. apply (reached_kept p p); [done|apply Hp|done].
Qed.

Lemma src_unchanged : exists_ D src_dir = true → exists_ D' src_dir = true.
Proof.
  unfold exists_. rewrite !bool_decide_eq_true. intros [x Hx].
  destruct (Hc src_dir) as [E|[(_ & HN & _)|(Ho & _ & _)]]; [by rewrite E|congruence|exfalso].
  destruct (Hb _ Ho) as [Hbs Hne]. destruct Hap as [[_ H]|(e & H1 & H2 & H3 & _)]; [done|].
  apply Hne. apply (anti_symm prefix); [by etrans|done].
Qed.
End Unchanged.

(** ** What the scan reads *)

Lemma position_ext {A} (f g : A → bool) l : (∀ x, x ∈ l → f x = g x) → position f l = position g l.
Proof.
  induction l as [|x l IH]; intros H; [done|]. cbn [position]. rewrite (H x) by left.
  rewrite IH; [done|]. intros y Hy. apply H. by right.
Qed.

Lemma order_ext D D' inos : (∀ p, p ∈ inos → D' !! p = D !! p) →
  order_ino_files setup_or_loop D' src_dir inos = order_ino_files setup_or_loop D src_dir inos.
Proof.
  intros H. unfold order_ino_files. cbv zeta. unfold find_primary_ino_index.
  rewrite (position_ext _ (λ path, match read_to_string D path with Ok content => setup_or_loop content | Err _ => false end)
    (merge_sort compare_ino_paths inos)); [done|].
  intros p Hp. rewrite (merge_sort_Permutation compare_ino_paths) in Hp. by rewrite (read_to_string_ext D D' p) by auto.
Qed.

Lemma order_elem D inos p : p ∈ order_ino_files setup_or_loop D src_dir inos → p ∈ inos.
Proof.
  rewrite <- (merge_sort_Permutation compare_ino_paths inos) at 2. unfold order_ino_files. cbv zeta.
  set (l := merge_sort compare_ino_paths inos). destruct (find_primary_ino_index _ _ _ _) as [i|]; [|done].
  destruct (l !! i) as [x|] eqn:Ex; [|done]. apply delete_Permutation in Ex as E. by rewrite <- E.
Qed.

Lemma read_tabs_ext D D' inos : (∀ p, p ∈ inos → D' !! p = D !! p) → read_tabs D' inos = read_tabs D inos.
Proof.
  induction inos as [|ino inos IH]; intros H; [done|]. cbn [read_tabs].
  rewrite (read_to_string_ext D D') by (apply H; left). rewrite IH; [done|]. intros p Hp. apply H. by right.
Qed.

Lemma found_elem l f p : p ∈ ino_files (foldl sort_entry f l) → p ∈ ino_files f ∨ p ∈ l.
Proof.
  revert f. induction l as [|x l IH]; intros f H; [by left|]. cbn [foldl] in H. apply IH in H as [H|H]; [|right; by right].
  unfold sort_entry in H. cbv zeta in H. destruct (decide (lower_extension x = &"ino")); [|by destruct (decide _); left].
  cbn [ino_files] in H. apply elem_of_app in H as [H| ->%list_elem_of_singleton]; [by left|right; left].
Qed.

Lemma outputs_below inos arduino contents r D D' :
  preprocessed parse_cpp_source src_dir build_dir inos arduino contents r D D' →
  ∀ q, q ∈ outputs r → ∃ stem suffix, suffix ∈ [&".ino.cpp"; &".ino.prelude.h"] ∧ q = build_dir ++ [Normal (stem ++ suffix)].
Proof.
  intros [Ho Hm _ _ _ _] q Hq. unfold outputs in Hq. rewrite Hm, mapping_of_snd, Ho in Hq.
  apply elem_of_cons in Hq as [->|(ino & -> & _)%list_elem_of_fmap].
  - eexists _, _. split; [|done]. left.
  - eexists _, _. split; [|done]. right; left.
Qed.

Lemma arduino_h_last root : last (buf_join root (&"Arduino.h")) = Some (Normal (&"Arduino.h")).
Proof.
  unfold buf_join. assert (components (&"Arduino.h") = [Normal (&"Arduino.h")]) as -> by by vm_compute.
  change (starts_with [slash] (&"Arduino.h")) with false. cbv zeta iota.
  destruct root; [done|]. rewrite filter_cons_True by done. by rewrite filter_nil, last_snoc.
Qed.
Lemma not_arduino_h stem suffix : suffix ∈ [&".ino.cpp"; &".ino.prelude.h"] → stem ++ suffix ≠ &"Arduino.h".
Proof.
  intros [->|[->|[]%not_elem_of_nil]%elem_of_cons]%elem_of_cons E.
  - apply (f_equal last) in E. by rewrite last_app in E.
  - apply (f_equal length) in E. rewrite length_app in E. cbn in E. lia.
Qed.

(** ** The second scan *)

(** The files that a scan may have written. *)
Definition written (r : list PathBuf * InoPreludeMap * str) : list PathBuf :=
  match r.1.2 with [] => [] | m => option_list (head r.1.1) ++ m.*2 end.

Lemma scan_unchanged filter outs D D' : apart → src_dir ≠ [] → below_build outs → tree D → changes build_dir outs D D' →
  find_sketch src_dir D' filter = find_sketch src_dir D filter ∧
  ∀ p, p ∈ ino_files (find_sketch src_dir D filter) → D' !! p = D !! p.
Proof.
  intros Hap Hs Hb Ht Hc. destruct (walk_unchanged outs D D' Hap Hs Hb Ht Hc) as [Hw Hk].
  unfold find_sketch. rewrite Hw. split; [done|]. intros p [H|[_ H]%list_elem_of_filter]%found_elem; [|by apply Hk].
  by apply not_elem_of_nil in H.
Qed.

Lemma arduino_unchanged inos arduino contents r D D' roots :
  preprocessed parse_cpp_source src_dir build_dir inos arduino contents r D D' →
  arduino_header_available D' roots = arduino_header_available D roots.
Proof.
  intros Hp. unfold arduino_header_available. induction roots as [|root roots IH]; [done|]. cbn [existsb]. rewrite IH.
  f_equal. destruct (pp_changes _ _ _ _ _ _ _ _ _ Hp (buf_join root (&"Arduino.h"))) as [E|[(_ & E & Hd)|(Ho & _)]].
  - unfold is_file. by rewrite E.
  - unfold is_file, is_dir in *. rewrite E. by destruct (D' !! _) as [[]|].
  - exfalso. destruct (outputs_below _ _ _ _ _ _ Hp _ Ho) as (stem & suffix & Hx & E).
    pose proof (arduino_h_last root) as Hl. rewrite E, last_snoc in Hl. injection Hl as Hl.
    by apply (not_arduino_h stem suffix).
Qed.

Lemma read_tabs_length D inos contents : read_tabs D inos = Ok contents → length contents = length inos.
Proof.
  revert contents. induction inos as [|i inos IH]; intros contents; cbn [read_tabs]; [by intros [= <-]|].
  intros (s & _ & (cs & Hcs & [= <-])%result_bind_Ok)%result_bind_Ok. cbn [length]. by rewrite (IH cs).
Qed.

Lemma tabs_there D ino inos contents : read_tabs D (order_ino_files setup_or_loop D src_dir (ino :: inos)) = Ok contents →
  mapping_of build_dir (stripped_tabs (order_ino_files setup_or_loop D src_dir (ino :: inos)) contents) ≠ [].
Proof.
  intros Hc%read_tabs_length E%(f_equal length). unfold mapping_of, stripped_tabs in E.
  rewrite length_fmap, length_zip, length_fmap, Hc, Nat.min_id in E.
  assert (length (order_ino_files setup_or_loop D src_dir (ino :: inos)) = S (length inos)) as Hn; [|by rewrite Hn in E].
  change (S (length inos)) with (length (ino :: inos)). rewrite <- (merge_sort_Permutation compare_ino_paths (ino :: inos)) at 2.
  unfold order_ino_files. cbv zeta. set (l := merge_sort _ _). destruct (find_primary_ino_index _ _ _ _) as [i|]; [|done].
  destruct (l !! i) as [x|] eqn:Ex; [|done]. apply delete_Permutation in Ex as Hl. by rewrite <- Hl.
Qed.

(** C10: When a scan has left its translation of the tabs in the build
    directory, which the walk of the sources does not enter, and no two tabs
    share a prelude, another scan gives the same sources and preludes and
    leaves every file as it is, so that nothing is compiled again. *)
Theorem rescan_writes_nothing dn nw dn' nw' spec roots r D D' : scan dn nw spec roots D = (Ok r, D') →
  tree D → src_dir ≠ [] → apart → NoDup r.1.2.*2 → (∀ q, q ∈ written r → legible D' q) →
  scan dn' nw' spec roots D' = (Ok r, D').
Proof.
  intros Hscan Ht Hs Hap Hn Hl. unfold scan_sketch_sources_and_preludes in *.
  destruct (exists_ D src_dir) eqn:Ex; cbn [negb] in Hscan; [|injection Hscan as <- <-; by rewrite Ex].
  destruct (parse spec) as [filter|]; [|done]. cbv zeta in *.
  destruct (main_cpp_path (find_sketch src_dir D filter)) as [main|] eqn:Em; [injection Hscan as <- <-; by rewrite Ex, Em|].
  destruct (ino_files (find_sketch src_dir D filter)) as [|ino inos] eqn:Ei; [injection Hscan as <- <-; by rewrite Ex, Em, Ei|].
  apply IO_bind_Ok in Hscan as (pp & D1 & Hp & Hr). injection Hr as <- <-. cbn [fst snd] in *.
  apply preprocess_Ok in Hp as (contents & Hc & Hp).
  assert (below_build (outputs pp)) as Hb.
  { intros q Hq. destruct (outputs_below _ _ _ _ _ _ Hp q Hq) as (st & su & _ & ->). split; [by eexists|].
    intros E%(f_equal length). rewrite length_app in E. cbn in E. lia. }
  destruct (scan_unchanged filter _ D D1 Hap Hs Hb Ht (pp_changes _ _ _ _ _ _ _ _ _ Hp)) as [Ef Hk].
  rewrite (src_unchanged _ D D1 Hap Hb (pp_changes _ _ _ _ _ _ _ _ _ Hp) Ex). cbn [negb]. rewrite Ef, Em, Ei. rewrite Ei in Hk.
  rewrite (order_ext D D1) by done. rewrite (arduino_unchanged _ _ _ _ _ _ roots Hp).
  rewrite IO_bind_unfold. erewrite preprocess_same; [done|exact Hp| |done|].
  - rewrite (read_tabs_ext D D1); [done|]. intros p Hin. apply Hk. by eapply order_elem.
  - intros q Hq. apply Hl. unfold written, outputs in *. cbn [fst snd head option_list] in *.
    destruct pp.2 as [|x l] eqn:E2; [|done]. rewrite (pp_mapping _ _ _ _ _ _ _ _ _ Hp) in E2.
    by destruct (tabs_there _ _ _ _ Hc E2).
Qed.
End Rescan.
