(* ===== verification/SourceTabs.v ===== *)
(** * Where the lines of the translated sketch come from

    A compiler that honours [#line] attributes every line of the generated
    file to the line of the tab that it is; the prelude of a tab is what
    stands above it there. *)
From S2P Require Import Prelude RustStr CachePaths PathBuf NormPath FileDisk Fingerprint InoPrototypes SourceFilter SourceScan SourceRescan.

(** ** Lines *)

Lemma join_lines_snoc xs x : RustStr.join [nl] (xs ++ [x]) = unlines xs ++ x.
Proof.
  induction xs as [|y xs IH]; [done|]. cbn [app]. unfold unlines in *. rewrite bind_cons, <- !(assoc_L (++)), <- IH.
  by destruct xs.
Qed.

(** What follows a directive: the lines of the tab, but for an empty last one. *)
Lemma segment_unlines ls : Forall clean ls → ∃ ls',
  RustStr.join [nl] ls ++ (if ends_with [nl] (RustStr.join [nl] ls) then [] else [nl]) = unlines ls' ∧
  (ls' = ls ∨ ls = [] ∧ ls' = [[]] ∨ ls = ls' ++ [[]]).
Proof.
  intros H. destruct ls as [|x xs _] using rev_ind; [exists [[]]; by auto|]. rewrite join_lines_snoc.
  apply Forall_app in H as [_ [[Hx _] _]%Forall_cons].
  destruct x as [|c x _] using rev_ind.
  - rewrite app_nil_r. destruct xs as [|y ys _] using rev_ind; [exists [[]]; by auto|]. exists (ys ++ [y]). split; [|by auto].
    assert (ends_with [nl] (unlines (ys ++ [y])) = true) as ->; [|by rewrite app_nil_r].
    apply ends_with_char. exists (unlines ys ++ y). by rewrite unlines_app, unlines_one, (assoc_L (++)).
  - exists (xs ++ [x ++ [c]]). split; [|by auto].
    destruct (ends_with [nl] (unlines xs ++ x ++ [c])) eqn:E.
    + apply ends_with_char in E as [r E]. rewrite (assoc_L (++)) in E. apply app_inj_tail in E as [_ ->]. set_solver.
    + by rewrite unlines_app, unlines_one, <- !(assoc_L (++)).
Qed.

Lemma split_inclusive_app c r b : split_inclusive c ((r ++ [c]) ++ b) = split_inclusive c (r ++ [c]) ++ split_inclusive c b.
Proof.
  induction r as [|a r IH]; cbn [app]; [cbn; by rewrite !decide_True by done|]. cbn [split_inclusive].
  case_decide; [by rewrite IH|]. rewrite IH. destruct (split_inclusive c (r ++ [c])) eqn:E; [|done].
  exfalso. apply (f_equal mjoin) in E. rewrite split_inclusive_concat in E. by destruct r.
Qed.
Lemma lines_app_nl p b : p = [] ∨ ends_with [nl] p = true → lines (p ++ b) = lines p ++ lines b.
Proof.
  intros [->|[r ->]%ends_with_char]; [done|]. unfold lines. by rewrite split_inclusive_app, fmap_app.
Qed.

(** Texts that have been read have no carriage returns. *)
Lemma normalized_no_cr s : cr ∉ normalize_generated_source_line_endings s.
Proof. unfold normalize_generated_source_line_endings. intros (c & H & _)%list_elem_of_fmap. by case_decide. Qed.

Lemma lines_of_clean s : cr ∉ s → Forall clean (lines s).
Proof. intros H. apply Forall_forall. intros l Hl. split; [by eapply lines_no_nl|]. intros Hc. by eapply H, line_elem. Qed.

Lemma blank_clean ls : Forall clean ls → Forall clean (blank_include <$> ls).
Proof.
  intros H. apply Forall_fmap. eapply Forall_impl; [exact H|]. intros l Hl. unfold clean, blank_include.
  cbn. destruct (is_include_directive _); [|done]. split; by intros ?%not_elem_of_nil.
Qed.

Lemma read_tabs_clean D inos contents c : read_tabs D inos = Ok contents → c ∈ contents → cr ∉ c.
Proof.
  revert contents. induction inos as [|i inos IH]; intros contents; cbn [read_tabs].
  { intros [= <-] []%not_elem_of_nil. }
  intros (s & _ & (cs & Hcs & [= <-])%result_bind_Ok)%result_bind_Ok [->|Hc]%elem_of_cons; [apply normalized_no_cr|by eapply IH].
Qed.

(** ** What a compiler makes of them *)

Definition dquoted (s : str) : str := ["034"%char] ++ s ++ ["034"%char].
(** The file that a line starts, at its first line. *)
Definition line_marker (l : str) : option str := rest ← strip_prefix (&"#line 1 " ++ ["034"%char]) l; strip_suffix ["034"%char] rest.

(** The lines with the file and the number that stand for them. *)
Fixpoint locate (file : str) (n : nat) (ls : list str) : list (str * nat * str) :=
  match ls with
  | [] => []
  | l :: ls => match line_marker l with Some f => locate f 1 ls | None => (file, n, l) :: locate file (S n) ls end
  end.
Definition visible (ls : list (str * nat * str)) : list (str * nat * str) := filter (λ x, x.2 ≠ []) ls.
Definition numbered (file : str) (n : nat) (ls : list str) : list (str * nat * str) := imap (λ k l, (file, n + k, l)) ls.

Lemma numbered_cons file n l ls : numbered file n (l :: ls) = (file, n, l) :: numbered file (S n) ls.
Proof. unfold numbered. cbn [imap]. f_equal; [by rewrite Nat.add_0_r|]. apply imap_ext. intros i x _. unfold compose. by rewrite Nat.add_succ_r. Qed.

Lemma locate_plain file n ls rest : Forall (λ l, line_marker l = None) ls →
  locate file n (ls ++ rest) = numbered file n ls ++ locate file (n + length ls) rest.
Proof.
  intros H. revert n. induction H as [|l ls Hl _ IH]; intros n; [by rewrite Nat.add_0_r|].
  rewrite numbered_cons. cbn [app locate length]. rewrite Hl, IH. by rewrite Nat.add_succ_r.
Qed.

Lemma visible_numbered file n ls ls' : ls' = ls ∨ ls = [] ∧ ls' = [[]] ∨ ls = ls' ++ [[]] →
  visible (numbered file n ls') = visible (numbered file n ls).
Proof.
  intros [->|[[-> ->]| ->]]; [done|done|]. unfold numbered. rewrite imap_app. unfold visible. rewrite filter_app.
  cbn [imap]. rewrite filter_cons_False by (cbn; tauto). by rewrite filter_nil, app_nil_r.
Qed.

Section Project.
Context (src_dir : PathBuf).
Local Abbreviation segment := (tab_segment src_dir).
Local Abbreviation shown := (line_directive_path src_dir).

Definition directive (ino : PathBuf) : str := &"#line 1 " ++ dquoted (shown ino).
Lemma line_directive_nl ino : line_directive src_dir ino = directive ino ++ [nl].
Proof. unfold line_directive, directive, dquoted. by rewrite <- !(assoc_L (++)). Qed.
Lemma directive_marks ino : line_marker (directive ino) = Some (shown ino).
Proof.
  unfold line_marker, directive, dquoted. rewrite (assoc_L (++)), strip_prefix_app. cbn [mbind option_bind].
  by rewrite strip_suffix_snoc, decide_True.
Qed.
Lemma directive_clean ino : clean (shown ino) → clean (directive ino).
Proof.
  intros [Hn Hc]. unfold clean, directive, dquoted. rewrite !not_elem_of_app, !not_elem_of_cons.
  split; (split; [apply (bool_decide_unpack _); by vm_compute|]); (split_and!; [|apply not_elem_of_nil|done| |apply not_elem_of_nil]; done).
Qed.

(** ** The body *)

Definition stripped (t : PathBuf * str) : PathBuf * str := (t.1, strip_include_directives t.2).
Lemma stripped_zip inos contents : stripped_tabs inos contents = stripped <$> zip inos contents.
Proof.
  unfold stripped_tabs. revert contents. induction inos as [|i inos IH]; intros [|c contents]; try done.
  cbn [fmap list_fmap zip_with]. f_equal. apply IH.
Qed.

Definition well_placed (t : PathBuf * str) : Prop :=
  clean (shown t.1) ∧ cr ∉ t.2 ∧ ∀ l, l ∈ lines t.2 → line_marker l = None.
Definition tab_lines (t : PathBuf * str) : list (str * nat * str) := numbered (shown t.1) 1 (blank_include <$> lines t.2).

Lemma unmarked ls ls' : Forall (λ l, line_marker l = None) ls → ls' = ls ∨ ls = [] ∧ ls' = [[]] ∨ ls = ls' ++ [[]] →
  Forall (λ l, line_marker l = None) ls'.
Proof. intros H [->|[[_ ->]| ->]]; [done|by repeat constructor|by apply Forall_app in H as [H _]]. Qed.

Lemma locate_tabs ts f n : Forall well_placed ts →
  visible (locate f n (lines ((stripped <$> ts) ≫= segment))) = visible (ts ≫= tab_lines).
Proof.
  intros H. revert f n. induction H as [|[ino c] ts (Hp & Hc & Hm) _ IH]; intros f n; [done|]. cbn [fst snd] in *.
  rewrite fmap_cons, !bind_cons. unfold tab_segment at 1. cbn [stripped fst snd].
  destruct (segment_unlines (blank_include <$> lines c)) as (ls' & E & Hls); [by apply blank_clean, lines_of_clean|].
  unfold strip_include_directives. rewrite E. rewrite line_directive_nl, <- unlines_one, <- unlines_app.
  assert (Forall clean (blank_include <$> lines c)) as Hcl by by apply blank_clean, lines_of_clean.
  rewrite lines_unlines_app.
  2: { apply Forall_app. split; [constructor; [by apply directive_clean|constructor]|].
       destruct Hls as [->|[[_ ->]|Hls]]; [done|by repeat constructor; apply not_elem_of_nil|].
       rewrite Hls in Hcl. by apply Forall_app in Hcl as [Hcl _]. }
  cbn [app locate]. rewrite directive_marks, locate_plain.
  2: { apply (unmarked (blank_include <$> lines c)); [|done]. apply Forall_fmap, Forall_forall. intros l Hl. cbn.
       unfold blank_include. destruct (is_include_directive _); [done|by apply Hm]. }
  unfold visible in *. rewrite !filter_app, IH. f_equal. by apply visible_numbered.
Qed.
End Project.

(** ** The prelude *)

Lemma elem_of_first_seen seen l x : x ∈ first_seen seen l ↔ x ∈ l ∧ x ∉ seen.
Proof.
  revert seen. induction l as [|y l IH]; intros seen; cbn [first_seen]; [by set_solver|].
  destruct (decide (y ∈ seen)); [rewrite IH; set_solver|]. rewrite !elem_of_cons, IH.
  destruct (decide (x = y)); set_solver.
Qed.

Lemma trim_clean l : clean l → clean (trim l).
Proof.
  intros [Hn Hc]. split; by intros ?%trim_elem.
Qed.

Lemma prelude_shape ar incs protos : build_ino_prelude ar incs protos = [] ∨ ends_with [nl] (build_ino_prelude ar incs protos) = true.
Proof.
  unfold build_ino_prelude. destruct protos as [|p ps].
  - rewrite app_nil_r. destruct incs as [|x incs _] using rev_ind.
    + cbn [mbind list_bind]. rewrite app_nil_r. destruct ar; [right|by left]. apply ends_with_char. by eexists.
    + right. rewrite bind_app, bind_singleton, !(assoc_L (++)). apply ends_with_snoc.
  - right. rewrite !(assoc_L (++)). apply ends_with_snoc.
Qed.

Lemma includes_in_prelude ar incs protos l : Forall clean incs → l ∈ incs → l ∈ lines (build_ino_prelude ar incs protos).
Proof.
  intros Hi Hl. unfold build_ino_prelude. change (incs ≫= λ inc, inc ++ [nl]) with (unlines incs).
  destruct ar; rewrite ?(lines_cons (&"#include <Arduino.h>")); rewrite <- ?(assoc_L (++)).
  - change ([nl] ++ ?x) with (nl :: x). rewrite lines_cons by (apply (bool_decide_unpack _); by vm_compute).
    rewrite lines_unlines_app by done. set_solver.
  - cbn [app]. rewrite lines_unlines_app by done. set_solver.
Qed.

Lemma hoisted_elem contents c l : c ∈ contents → l ∈ lines c → is_include_directive (trim l) = true →
  trim l ∈ hoist_include_directives contents.
Proof.
  intros Hc Hl Hi. unfold hoist_include_directives. apply elem_of_first_seen. split; [|set_solver].
  apply list_elem_of_filter. split; [done|]. apply list_elem_of_fmap. exists l. split; [done|].
  apply list_elem_of_bind. by exists c.
Qed.
Lemma hoisted_clean contents : (∀ c, c ∈ contents → cr ∉ c) → Forall clean (hoist_include_directives contents).
Proof.
  intros H. apply Forall_forall. intros l [Hl _]%elem_of_first_seen. apply list_elem_of_filter in Hl as [_ Hl].
  apply list_elem_of_fmap in Hl as (l' & -> & (c & Hl & Hc)%list_elem_of_bind). apply trim_clean.
  pose proof (lines_of_clean c (H c Hc)) as Hf. rewrite Forall_forall in Hf. by apply Hf.
Qed.

(** ** The generated file *)

Section Preprocessing.
Context (parse_cpp_source : str → option Node) (src_dir build_dir : PathBuf) (dn : PathBuf → bool) (nw : Z).
Local Abbreviation preprocess := (preprocess_ino_files parse_cpp_source dn nw src_dir build_dir).
Local Abbreviation shown := (line_directive_path src_dir).

(** C9: To a compiler that honours [#line], whatever stands before, every line
    of the tabs that is not empty comes from the tab that it is of and has its
    number there, an include aside, which stands above all of them. *)
Theorem tabs_located inos arduino r D D' contents : preprocess inos arduino D = (Ok r, D') → read_tabs D inos = Ok contents →
  (∀ ino, ino ∈ inos → clean (shown ino)) → (∀ c l, c ∈ contents → l ∈ lines c → line_marker l = None) →
  ∃ text top bottom, holds D' r.1 text ∧ lines text = top ++ bottom ∧
    (∀ f n, visible (locate f n bottom) =
      visible (zip inos contents ≫= λ t, numbered (shown t.1) 1 (blank_include <$> lines t.2))) ∧
    (∀ c l, c ∈ contents → l ∈ lines c → is_include_directive (trim l) = true → trim l ∈ top).
Proof.
  intros (cs & Hc & Hp)%preprocess_Ok Hr Hi Hm. rewrite Hr in Hc. injection Hc as <-.
  pose proof (pp_cpp _ _ _ _ _ _ _ _ _ Hp) as Hcpp. eexists _, _, _. split; [exact Hcpp|]. split_and!.
  - apply lines_app_nl, prelude_shape.
  - intros f n. rewrite stripped_zip. apply locate_tabs, Forall_forall. intros [ino c] Ht. split_and!; cbn [fst snd].
    + apply Hi. by eapply elem_of_zip_l.
    + eapply read_tabs_clean; [done|]. by eapply elem_of_zip_r.
    + intros l. apply Hm. by eapply elem_of_zip_r.
  - intros c l Hin Hl Hinc. apply includes_in_prelude; [|by eapply hoisted_elem].
    apply hoisted_clean. intros c' Hc'. by eapply read_tabs_clean.
Qed.

(** When no two tabs share a prelude, that of a tab is the generated file
    up to the directive of the tab. *)
Theorem preludes_exact inos arduino r D D' contents i ino p : preprocess inos arduino D = (Ok r, D') →
  read_tabs D inos = Ok contents → NoDup r.2.*2 → r.2 !! i = Some (ino, p) →
  ∃ c prelude rest, inos !! i = Some ino ∧ contents !! i = Some c ∧ holds D' p prelude ∧
    holds D' r.1 (prelude ++ line_directive src_dir ino ++ strip_include_directives c ++ rest).
Proof.
  intros (cs & Hc & Hp)%preprocess_Ok Hr Hn Hi. rewrite Hr in Hc. injection Hc as <-.
  pose proof (pp_preludes _ _ _ _ _ _ _ _ _ Hp Hn) as Ht. pose proof (pp_cpp _ _ _ _ _ _ _ _ _ Hp) as Hcpp.
  rewrite (pp_mapping _ _ _ _ _ _ _ _ _ Hp) in Hi. unfold mapping_of in Hi.
  rewrite list_lookup_fmap_Some in Hi. destruct Hi as ([ino' t] & E & Hi). injection E as -> ->.
  specialize (Ht i _ Hi). cbn [fst app] in Ht. pose proof Hi as Hi2. rewrite stripped_zip in Hi2.
  rewrite list_lookup_fmap_Some in Hi2. destruct Hi2 as ([ino2 c] & E & Hz). injection E as <- ->.
  apply lookup_zip_Some in Hz as [H1 H2].
  rewrite <- (take_drop_middle _ _ _ Hi), bind_app, bind_cons in Hcpp. unfold tab_segment at 2 in Hcpp. cbn [fst snd] in Hcpp.
  eexists c, _, _. split_and!; [done|done|exact Ht|]. by rewrite <- !(assoc_L (++)) in *.
Qed.
End Preprocessing.
