(* ===== verification/SourceSamples.v ===== *)
(** * The source scanner on concrete sketches

    A matcher for the expressions of the filters, which keeps the documented
    behaviour of the [regex] crate that is relied on, a sketch of two tabs on
    a disk, and what goes wrong on other sketches. *)
From S2P Require Import Prelude RustStr CachePaths PathBuf NormPath FileDisk Fingerprint FingerprintFacts FastPathFacts InoPrototypes SourceFilter SourceScan SourceRescan SourceTabs.

(** ** A matcher *)

(** One piece at the front of an expression. *)
Definition parse_piece (s : str) : option (Piece * str) :=
  match strip_prefix (&"(?:.*/)?") s with
  | Some r => Some (OptDirs, r)
  | None =>
  match strip_prefix (&"(?:/.*)?") s with
  | Some r => Some (OptRest, r)
  | None =>
  match strip_prefix (&".*") s with
  | Some r => Some (AnyStar, r)
  | None =>
  match strip_prefix (&"[^/]*") s with
  | Some r => Some (NameStar, r)
  | None =>
  match strip_prefix (&"[^/]") s with
  | Some r => Some (NameChar, r)
  | None =>
  match s with
  | c :: d :: r => if decide (c = "092"%char) then Some (Lit d, r) else Some (Lit c, d :: r)
  | [c] => Some (Lit c, [])
  | [] => None
  end end end end end end.
Fixpoint parse_pieces (fuel : nat) (s : str) : option (list Piece) :=
  match s, fuel with
  | [], _ => Some []
  | _, O => None
  | _, S n => x ← parse_piece s; ps ← parse_pieces n x.2; Some (x.1 :: ps)
  end.

Definition splits (s : str) : list (str * str) := (λ n, (take n s, drop n s)) <$> seq 0 (S (length s)).
Definition one_bool (p : Piece) (w : str) : bool :=
  match p with
  | AnyStar => true
  | NameStar => bool_decide (slash ∉ w)
  | NameChar => match w with [c] => bool_decide (c ≠ slash) | _ => false end
  | Lit c => bool_decide (w = [c])
  | OptDirs => bool_decide (w = []) || ends_with [slash] w
  | OptRest => bool_decide (w = []) || starts_with [slash] w
  end.
Fixpoint denotes_bool (ps : list Piece) (s : str) : bool :=
  match ps with
  | [] => bool_decide (s = [])
  | p :: ps => existsb (λ x, if one_bool p x.1 then denotes_bool ps x.2 else false) (splits s)
  end.

#[export] Instance toy_regex : Regex := {|
  regex := list Piece;
  regex_new t := t ← strip_prefix (&"^") t; t ← strip_suffix (&"$") t; parse_pieces (length t) t;
  is_match := denotes_bool |}.

Lemma splits_elem s u v : (u, v) ∈ splits s ↔ s = u ++ v.
Proof.
  unfold splits. rewrite list_elem_of_fmap. setoid_rewrite elem_of_seq. split.
  - intros (n & [= -> ->] & _). by rewrite take_drop.
  - intros ->. exists (length u). by rewrite take_app_length, drop_app_length, length_app; split; [|lia].
Qed.

Lemma one_bool_iff p w : one_bool p w = true ↔ one p w.
Proof.
  destruct p; cbn; rewrite ?orb_true_iff, ?bool_decide_eq_true; try done.
  - destruct w as [|c [|d w]]; [split; [done|by intros (? & ? & _)]| |split; [done|by intros (? & ? & _)]].
    rewrite bool_decide_eq_true. split; [intros H; by exists c|by intros (? & [= ->] & ?)].
  - by rewrite (ends_with_char slash).
  - rewrite starts_with_iff. unfold prefix. done.
Qed.

Lemma denotes_bool_iff ps s : denotes_bool ps s = true ↔ denotes ps s.
Proof.
  revert s. induction ps as [|p ps IH]; intros s; cbn [denotes_bool denotes]; [by rewrite bool_decide_eq_true|].
  rewrite existsb_exists. split.
  - intros ([u v] & Hin & H). apply list_elem_of_In, splits_elem in Hin as ->. cbn [fst snd] in H.
    destruct (one_bool p u) eqn:H1; [|done].
    exists u, v. by rewrite <- one_bool_iff, <- IH.
  - intros (u & v & -> & H1 & H2). exists (u, v). rewrite <- list_elem_of_In, splits_elem. split; [done|].
    cbn [fst snd]. apply one_bool_iff in H1 as ->. by rewrite IH.
Qed.

Lemma pieces_head ps : Forall piece_ok ps → head (ps ≫= render) ≠ Some star.
Proof.
  intros H. destruct H as [|p ps Hp _]; [done|]. destruct p; cbn; try done. case_decide; [done|]. cbn. destruct Hp as (_ & Hs & _). congruence.
Qed.

Lemma parse_piece_render p rest : piece_ok p → head rest ≠ Some star → parse_piece (render p ++ rest) = Some (p, rest).
Proof.
  intros Hp Hr. destruct p as [| | |c| |]; try done.
  - destruct rest as [|d rest]; [done|]. unfold parse_piece. cbn.
    repeat (rewrite decide_False; [|done]). repeat (rewrite decide_True; [|done]).
    rewrite decide_False; [done|]. intros <-. by apply Hr.
  - cbn [render]. case_decide as Hc; [done|].
    assert (c ≠ "("%char ∧ c ≠ "."%char ∧ c ≠ "["%char ∧ c ≠ "092"%char) as (H1 & H2 & H3 & H4).
    { split_and!; intros ->; apply Hc; apply (bool_decide_unpack _); by vm_compute. }
    unfold parse_piece. cbn. repeat (rewrite decide_False by congruence). destruct rest; [done|]. by rewrite decide_False.
Qed.

Lemma parse_pieces_text ps n : Forall piece_ok ps → length (ps ≫= render) ≤ n → parse_pieces n (ps ≫= render) = Some ps.
Proof.
  intros H. revert n. induction H as [|p ps Hp Hps IH]; intros n Hn; [by destruct n|].
  rewrite bind_cons in *. assert (1 ≤ length (render p)) as Hl by (destruct p; cbn; try case_decide; cbn; lia).
  rewrite length_app in Hn. destruct n as [|n]; [lia|]. cbn [parse_pieces].
  rewrite parse_piece_render by (done || by apply pieces_head).
  destruct (render p ++ _) eqn:E; [apply (f_equal length) in E; rewrite length_app in E; cbn in E; lia|].
  cbn. rewrite IH by lia. done.
Qed.

#[export] Instance toy_regex_ok : RegexOk toy_regex.
Proof.
  intros ps H. exists ps. split; [|intros s _; apply denotes_bool_iff]. unfold regex_new, toy_regex, pieces_text.
  rewrite strip_prefix_app. cbn [mbind option_bind]. change (&"$") with ["$"%char]. rewrite strip_suffix_snoc, decide_True by done.
  cbn [mbind option_bind]. by apply parse_pieces_text.
Qed.

(** ** A sketch of two tabs *)

Definition newline : str := [nl].
Definition dir (p : string) : PathBuf * Entry := (components (&p), Directory {| dir_size := 0; dir_mtime := 0; listable := true |}).
Definition file (p : string) (text : str) : PathBuf * Entry := (components (&p), Regular {| content := text; mtime := 1; readable := true |}).

Definition main_head : str := &"#include <SPI.h>" ++ newline ++ &"void setup() {}" ++ newline.
Definition main_def : str := &"int twice(int x = 1) ".
Definition main_tab : str := main_head ++ main_def ++ &"{ return x; }" ++ newline ++ &"void loop() {}" ++ newline.
Definition other_tab : str := &"int helper;" ++ [cr; nl].
Definition sketch : Disk := list_to_map
  [dir "/"; dir "/p"; dir "/p/src"; dir "/p/src/build"; file "/p/src/build/x.cpp" []; file "/p/src/extra.cpp" [];
   file "/p/src/a.ino" other_tab; file "/p/src/p.ino" main_tab].
Definition src : PathBuf := components (&"/p/src").
Definition build : PathBuf := components (&"/p/.fbuild/build").

(** The tree of the one function with parameters. *)
Definition toy_parser (source : str) : option Node :=
  let a := length main_head in
  Some (node (&"translation_unit") None 0 (length source)
    [node (&"function_definition") None a (a + length main_def + 13)
      [node (&"primitive_type") (Some (&"type")) a (a + 3) [];
       node (&"function_declarator") (Some (&"declarator")) (a + 4) (a + 20)
         [node (&"parameter_list") (Some (&"parameters")) (a + 9) (a + 20) []];
       node (&"compound_statement") (Some (&"body")) (a + 21) (a + 34) []]]).

#[local] Existing Instance scan_walk.
Definition nobody : PathBuf → bool := λ _, false.
Local Abbreviation scan_now := (scan_sketch_sources_and_preludes toy_parser (contains (&"void setup")) id id).
Definition first_scan := scan_now nobody 7%Z src build None [] sketch.
Definition found : list PathBuf * InoPreludeMap * str := match first_scan.1 with Ok r => r | Err _ => ([], [], []) end.
Definition scanned : Disk := first_scan.2.

Lemma first_scan_found : scan_now nobody 7%Z src build None [] sketch = (Ok found, scanned).
Proof.
  change (first_scan = (Ok found, scanned)). unfold found, scanned.
  assert (is_ok first_scan.1 = true) as H by by vm_compute. by destruct first_scan as [[r|e] D].
Qed.

Definition shown_of (D : Disk) (p : string) : option str :=
  match D !! components (&p) with Some (Regular f) => Some (content f) | _ => None end.
Example sketch_scanned :
  found = ((λ p : string, components (&p)) <$> ["/p/.fbuild/build/p.ino.cpp"; "/p/src/extra.cpp"],
           (λ x : string * string, (components (&(x.1)), components (&(x.2)))) <$>
             [("/p/src/p.ino", "/p/.fbuild/build/p.ino.prelude.h"); ("/p/src/a.ino", "/p/.fbuild/build/a.ino.prelude.h")], []) ∧
  lines <$> shown_of scanned "/p/.fbuild/build/p.ino.cpp" = Some
    [&"#include <SPI.h>"; &"// Auto-generated function prototypes"; &"int twice(int x);"; []; &"#line 1 " ++ dquoted (&"src/p.ino"); [];
     &"void setup() {}"; &"int twice(int x = 1) { return x; }"; &"void loop() {}"; &"#line 1 " ++ dquoted (&"src/a.ino"); &"int helper;"].
Proof. by vm_compute. Qed.

(** ** Instances of the theorems *)

Definition tree_bool (D : Disk) : bool :=
  forallb (λ e : PathBuf * Entry, forallb (λ n, exists_ D (take n e.1)) (seq 1 (length e.1))) (map_to_list D).
Lemma tree_check D : tree_bool D = true → tree D.
Proof.
  unfold tree_bool. rewrite forallb_forall. intros H p q [e He] [k ->] Hq.
  specialize (H (q ++ k, e) (proj1 (list_elem_of_In _ _) (proj2 (elem_of_map_to_list _ _ _) He))). cbn [fst] in H.
  rewrite forallb_forall in H. specialize (H (length q)). rewrite take_app_length in H.
  unfold exists_ in H. rewrite bool_decide_eq_true in H. apply H, list_elem_of_In, elem_of_seq. rewrite length_app.
  destruct q; [done|]. cbn. lia.
Qed.
Definition legible_bool (D : Disk) (p : PathBuf) : bool :=
  match D !! p with Some (Regular f) => readable f && bool_decide (decoded (content f)) | _ => true end.
Lemma legible_check D l : forallb (legible_bool D) l = true → ∀ q, q ∈ l → legible D q.
Proof.
  rewrite forallb_forall. intros H q Hq%list_elem_of_In%H f Hf. unfold legible_bool in Hq. rewrite Hf in Hq.
  apply andb_true_iff in Hq as [H1 H2]. by apply bool_decide_eq_true in H2.
Qed.

Example rescan_writes_nothing_witness : scan_now (λ _, true) 8%Z src build None [] scanned = (Ok found, scanned).
Proof.
  apply (rescan_writes_nothing toy_parser (contains (&"void setup")) id id src build nobody 7%Z _ _ _ _ _ sketch).
  - exact first_scan_found.
  - apply tree_check. by vm_compute.
  - done.
  - left. split; apply (bool_decide_unpack _); by vm_compute.
  - apply (bool_decide_unpack _). by vm_compute.
  - apply legible_check. by vm_compute.
Defined.

Definition inos : list PathBuf := [components (&"/p/src/p.ino"); components (&"/p/src/a.ino")].
Definition preprocessing := preprocess_ino_files toy_parser nobody 7%Z src build inos false sketch.
Definition made : PathBuf * InoPreludeMap := match preprocessing.1 with Ok r => r | Err _ => ([], []) end.
Definition tab_texts : list str := match read_tabs sketch inos with Ok l => l | Err _ => [] end.
Lemma preprocessing_made : preprocessing = (Ok made, preprocessing.2).
Proof. assert (is_ok preprocessing.1 = true) as H by by vm_compute. unfold made. by destruct preprocessing as [[r|e] D]. Qed.

Example tabs_located_witness : ∃ text top bottom, holds preprocessing.2 made.1 text ∧ lines text = top ++ bottom ∧
  (∀ f n, visible (locate f n bottom) =
    visible (zip inos tab_texts ≫= λ t, numbered (line_directive_path src t.1) 1 (blank_include <$> lines t.2))) ∧
  (∀ c l, c ∈ tab_texts → l ∈ lines c → is_include_directive (trim l) = true → trim l ∈ top).
Proof.
  apply (tabs_located toy_parser src build nobody 7%Z inos false made sketch preprocessing.2 tab_texts).
  - exact preprocessing_made.
  - by vm_compute.
  - apply Forall_forall. apply (bool_decide_unpack _). by vm_compute.
  - assert (Forall (λ c, Forall (λ l, line_marker l = None) (lines c)) tab_texts) as H; [apply (bool_decide_unpack _); by vm_compute|].
    rewrite Forall_forall in H. intros c l Hc. specialize (H c Hc). rewrite Forall_forall in H. apply H.
Defined.

Example preludes_exact_witness : ∃ c prelude rest, inos !! 1 = Some (components (&"/p/src/a.ino")) ∧ tab_texts !! 1 = Some c ∧
  holds preprocessing.2 (components (&"/p/.fbuild/build/a.ino.prelude.h")) prelude ∧
  holds preprocessing.2 made.1 (prelude ++ line_directive src (components (&"/p/src/a.ino")) ++ strip_include_directives c ++ rest).
Proof.
  apply (preludes_exact toy_parser src build nobody 7%Z inos false made sketch preprocessing.2 tab_texts).
  - exact preprocessing_made.
  - by vm_compute.
  - apply (bool_decide_unpack _). by vm_compute.
  - by vm_compute.
Defined.

Definition params : list Param :=
  [{| decl := &"int a "; dflt := Some (&" f(1, 2)") |}; {| decl := &" char b[2]"; dflt := None |}].
Lemma balanced_plain m s t : Forall (λ c, ¬ special c ∧ allowed m c) s → balanced m t → balanced m (s ++ t).
Proof. induction 1 as [|c s [H1 H2] _ IH]; intros Ht; [done|]. apply bal_char; [done..|by apply IH]. Qed.

#[local] Instance allowed_dec m c : Decision (allowed m c).
Proof. destruct m; apply _. Defined.
#[local] Instance special_dec c : Decision (special c).
Proof. unfold special. apply _. Defined.

Lemma params_ok : Forall param_ok params.
Proof.
  assert (∀ m s, bool_decide (Forall (λ c, ¬ special c ∧ allowed m c) s) = true → balanced m s) as Hp.
  { intros m s H%bool_decide_eq_true. rewrite <- (app_nil_r s). apply balanced_plain; [done|constructor]. }
  assert (∀ m pre o c inner post, (o, c) ∈ brackets → bool_decide (Forall (λ c, ¬ special c ∧ allowed m c) pre) = true →
    balanced Inside inner → balanced m post → balanced m (pre ++ o :: inner ++ c :: post)) as Hg.
  { intros m pre o c inner post Ho H%bool_decide_eq_true Hi Hpost. apply balanced_plain; [done|by apply bal_group]. }
  apply Forall_cons; split; [split|apply Forall_cons; split; [split|constructor]]; cbn [decl dflt from_option].
  - apply Hp. by vm_compute.
  - apply (Hg _ (&" f") _ ")"%char (&"1, 2") []); [apply (bool_decide_unpack _); by vm_compute|by vm_compute| |constructor].
    apply Hp. by vm_compute.
  - apply (Hg _ (&" char b") _ "]"%char (&"2") []); [apply (bool_decide_unpack _); by vm_compute|by vm_compute| |constructor].
    apply Hp. by vm_compute.
  - done.
Qed.

Example strip_default_arguments_spec_witness :
  strip_default_arguments (&"void g" ++ &"(" ++ params_text params ++ &")" ++ &" ") 6 (6 + length (params_text params) + 2) =
  &"void g" ++ &"(" ++ declared params ++ &")" ++ &" ".
Proof. apply (strip_default_arguments_spec (&"void g") params (&" ")); [exact params_ok|done]. Defined.

Definition filter_spec : str := &"+<*.cpp>, -<old/>" ++ newline ++ &"+<old/**/keep_?.cpp>".
Example source_filter_spec_witness : ∃ f, parse (Some filter_spec) = Ok f ∧
  decides [(true, &"*.cpp"); (false, &"old/"); (true, &"old/**/keep_?.cpp")] (&"old/a/b/keep_1.cpp")
    (matches f src (components (&"/p/src/old/a/b/keep_1.cpp"))) ∧ matches f src (components (&"/p/src/old/a/b/keep_1.cpp")) = true.
Proof.
  assert (mapM rule_of (tokens filter_spec) = Some [(true, &"*.cpp"); (false, &"old/"); (true, &"old/**/keep_?.cpp")]) as E by by vm_compute.
  assert (match parse (Some filter_spec) with Ok f => matches f src (components (&"/p/src/old/a/b/keep_1.cpp")) | Err _ => false end = true) as Hm
    by by vm_compute.
  assert (Forall is_ascii filter_spec) as H1 by (apply (bool_decide_unpack _); by vm_compute).
  assert (plain_text (relative_text src (components (&"/p/src/old/a/b/keep_1.cpp")))) as H2 by (apply (bool_decide_unpack _); by vm_compute).
  pose proof (source_filter_spec filter_spec src _ H1 H2) as H. rewrite E in H. destruct H as (f & Hf & Hd).
  rewrite Hf in Hm. assert (relative_text src (components (&"/p/src/old/a/b/keep_1.cpp")) = &"old/a/b/keep_1.cpp") as Er by by vm_compute.
  rewrite Er in Hd. exists f. split; [exact Hf|]. split; [exact Hd|exact Hm].
Defined.

(** ** What goes wrong *)

(** A [<] in a default argument swallows the parameters after it. *)
Example angle_drops_parameters : strip_defaults_from_params (&"int x = 1 << 2, int y") = &"int x".
Proof. by vm_compute. Qed.

(** An include that the preprocessor would leave out stands in the prelude
    without its condition. *)
Example guarded_include_hoisted :
  hoist_include_directives [&"#if 0" ++ newline ++ &"#include <Missing.h>" ++ newline ++ &"#endif"] = [&"#include <Missing.h>"] ∧
  strip_include_directives (&"#if 0" ++ newline ++ &"#include <Missing.h>" ++ newline ++ &"#endif") = &"#if 0" ++ newline ++ newline ++ &"#endif".
Proof. by vm_compute. Qed.

(** The prelude, the directive and the text of the only tab are not the
    generated file once the tab has an include. *)
Definition alone : Disk := list_to_map [dir "/"; dir "/p"; dir "/p/src"; file "/p/src/p.ino" main_tab].
Definition alone_after : Disk := (scan_now nobody 7%Z src build None [] alone).2.
Example prelude_and_text_differ : ∃ prelude generated,
  shown_of alone_after "/p/.fbuild/build/p.ino.prelude.h" = Some prelude ∧ shown_of alone_after "/p/.fbuild/build/p.ino.cpp" = Some generated ∧
  bool_decide (generated = prelude ++ line_directive src (components (&"/p/src/p.ino")) ++ main_tab) = false.
Proof. eexists _, _. split; [by vm_compute|]. split; [by vm_compute|]. by vm_compute. Qed.

(** Two tabs of one stem share a prelude, which every scan writes twice. *)
Definition twins : Disk := list_to_map
  [dir "/"; dir "/p"; dir "/p/src"; dir "/p/src/a"; dir "/p/src/b"; file "/p/src/a/t.ino" other_tab; file "/p/src/b/t.ino" (&"int y;")].
Definition twins_once := scan_now nobody 7%Z src build None [] twins.
Definition twins_twice := scan_now nobody 8%Z src build None [] twins_once.2.
Definition written_at (D : Disk) (p : string) : option Z :=
  match D !! components (&p) with Some (Regular f) => Some (mtime f) | _ => None end.
Example twin_tabs_rewritten :
  is_ok twins_once.1 = true ∧ is_ok twins_twice.1 = true ∧
  written_at twins_once.2 "/p/.fbuild/build/t.ino.prelude.h" = Some 7%Z ∧ written_at twins_twice.2 "/p/.fbuild/build/t.ino.prelude.h" = Some 8%Z.
Proof. by vm_compute. Qed.
