(* ===== verification/ResponseFile.v ===== *)
(** * Response files, [fbuild-core/src/response_file.rs]

    The arguments of a compiler, written to a file that is named by a digest
    of its text and found again by that name.  The order in which a directory
    is read, the environment and the removals that the system refuses are
    arguments.  What a compiler reads in such a file is [response_args]. *)
From S2P Require Import Prelude RustStr CachePaths CachePathFacts PathBuf NormPath FileDisk FingerprintFacts FastPath FastPathFacts.
Local Open Scope Z.

(** ** Where *)

Definition response_files_root (home : PathBuf) (dev_mode : bool) : PathBuf :=
  home ++ [Normal (&".fbuild"); Normal (if dev_mode then &"dev" else &"prod"); Normal (&"tmp"); Normal (&"response-files")].

Section Place.
Context (env : str → option str) (temp_dir : PathBuf) (is_windows : bool).

Definition home_dir : PathBuf :=
  match env (&"HOME") with
  | Some h => components h
  | None => match env (&"USERPROFILE") with Some h => components h | None => temp_dir end
  end.
Definition is_dev_mode : bool := bool_decide (env (&"FBUILD_DEV_MODE") = Some (&"1")).
Definition response_files_dir : PathBuf := response_files_root home_dir is_dev_mode.
Definition windows_temp_dir : PathBuf := if is_windows then response_files_dir else temp_dir.
End Place.

(** ** What *)

(** [b as char], pushed on a string. *)
Definition latin1 (b : ascii) : str :=
  let n := N_of_ascii b in if (n <? 128)%N then [b] else [byte_of (192 + n / 64); byte_of (128 + n mod 64)].

Fixpoint replace_path_backslashes (s : str) : str :=
  match s with
  | [] => []
  | c :: rest =>
      if decide (c = "092"%char) then
        match rest with
        | d :: rest' => if decide (d = "034"%char) then c :: d :: replace_path_backslashes rest' else slash :: replace_path_backslashes rest
        | [] => [slash]
        end
      else latin1 c ++ replace_path_backslashes rest
  end.

(** A quote is put for a backslash with a quote. *)
Fixpoint unescape_quotes (s : str) : str :=
  match s with
  | [] => []
  | c :: rest =>
      match rest with
      | d :: rest' => if decide (c = "092"%char ∧ d = "034"%char) then d :: unescape_quotes rest' else c :: unescape_quotes rest
      | [] => [c]
      end
  end.

Definition render_flag (f : str) : str :=
  let fwd := replace_path_backslashes f in
  let normalized := if contains ["092"; "034"]%char fwd then unescape_quotes fwd else fwd in
  if contains ["034"%char] normalized then &"'" ++ normalized ++ &"'"
  else if contains (&" ") normalized then ["034"%char] ++ normalized ++ ["034"%char]
  else normalized.
Definition render_content (flags : list str) : str := join [nl] (render_flag <$> flags).

Section Files.
Context {HS : Sha256}.

Definition content_hash (content : str) : str := hex_encode (take 4 (sha256 content)).
Definition response_path (temp_dir : PathBuf) (prefix content : str) : PathBuf :=
  temp_dir ++ [Normal (&"fbuild_" ++ prefix ++ &"_" ++ content_hash content ++ &".rsp")].
Definition render_response_file (flags : list str) (temp_dir : PathBuf) (prefix : str) : PathBuf * str :=
  let content := render_content flags in (response_path temp_dir prefix content, content).

(** ** Cleaning up *)

Definition RESPONSE_FILE_PREFIX : str := &"fbuild_".
Definition RESPONSE_FILE_SUFFIX : str := &".rsp".
Definition RESPONSE_FILE_STALE_AFTER : Z := 7 * 24 * 60 * 60 * 10 ^ 9.

(** [read_dir]: what a directory holds, in some order, up to an error. *)
Context (read_dir : Disk → PathBuf → list (result FbuildError PathBuf)).
(** The files that cannot be removed. *)
Context (stuck : PathBuf → bool).

Definition is_response_name (path : PathBuf) : bool :=
  match file_name path with
  | Some name =>
      bool_decide (from_utf8 name = Some name) && starts_with RESPONSE_FILE_PREFIX name && ends_with RESPONSE_FILE_SUFFIX name
  | None => false
  end.

(** A time in the future is no age. *)
Definition is_stale (stale_after now : Z) (D : Disk) (path : PathBuf) : bool :=
  match metadata D path with
  | Ok (_, modified) => (modified <=? now) && (stale_after <=? now - modified)
  | Err _ => false
  end.

Definition remove_file (path : PathBuf) (D : Disk) : bool * Disk :=
  if is_file D path && negb (stuck path) then (true, delete path D) else (false, D).

Fixpoint cleanup_loop (stale_after now : Z) (entries : list (result FbuildError PathBuf)) (removed : Z) : IO Z := λ D,
  match entries with
  | [] => (Ok removed, D)
  | Err e :: _ => (Err e, D)
  | Ok path :: entries =>
      if is_response_name path && is_stale stale_after now D path then
        let '(done, D) := remove_file path D in
        cleanup_loop stale_after now entries (if done then removed + 1 else removed) D
      else cleanup_loop stale_after now entries removed D
  end.

Definition cleanup_stale_response_files (temp_dir : PathBuf) (stale_after now : Z) : IO Z := λ D,
  match D !! temp_dir with
  | None => (Ok 0, D)
  | Some (Directory d) => if listable d then cleanup_loop stale_after now (read_dir D temp_dir) 0 D else (Err Io, D)
  | Some (Regular _) => (Err Io, D)
  end.

(** ** Writing *)

Context (denied : PathBuf → bool) (now : Z).

Definition build_failed {A} (m : IO A) : IO A := λ D, match m D with (Err _, D) => (Err BuildFailed, D) | r => r end.

(** The blocking and the asynchronous one do the same. *)
Definition write_response_file (flags : list str) (temp_dir : PathBuf) (prefix : str) : IO PathBuf :=
  _ ← build_failed (create_dir_all denied now temp_dir);
  _ ← (λ D, (Ok tt, (cleanup_stale_response_files temp_dir RESPONSE_FILE_STALE_AFTER now D).2));
  let '(path, content) := render_response_file flags temp_dir prefix in
  there ← look (λ D, Ok (exists_ D path));
  if there : bool then mret path
  else _ ← build_failed (write denied now path content); mret path.
Definition write_response_file_blocking : list str → PathBuf → str → IO PathBuf := write_response_file.
End Files.

(** ** What a compiler reads *)

Inductive Quote := Unquoted | Single | Double.
Definition is_space (c : ascii) : bool := bool_decide (c ∈ [sp; tab; nl; "011"; "012"; cr]%char).

(** [@file] of GCC: words between white space, quotes around white space, and
    a backslash before a character to take as it is; [word] is what has been
    read of the current one. *)
Fixpoint read_args (s : str) (q : Quote) (word : option str) : list str :=
  let put c := Some (default [] word ++ [c]) in
  match s with
  | [] => option_list word
  | c :: rest =>
      match q with
      | Unquoted =>
          if is_space c then option_list word ++ read_args rest Unquoted None
          else if decide (c = "092"%char) then
            match rest with d :: rest' => read_args rest' q (Some (default [] word ++ [d])) | [] => option_list word end
          else if decide (c = "'"%char) then read_args rest Single (Some (default [] word))
          else if decide (c = "034"%char) then read_args rest Double (Some (default [] word))
          else read_args rest q (put c)
      | Single =>
          if decide (c = "092"%char) then
            match rest with d :: rest' => read_args rest' q (Some (default [] word ++ [d])) | [] => option_list word end
          else if decide (c = "'"%char) then read_args rest Unquoted word
          else read_args rest q (put c)
      | Double =>
          if decide (c = "092"%char) then
            match rest with d :: rest' => read_args rest' q (Some (default [] word ++ [d])) | [] => option_list word end
          else if decide (c = "034"%char) then read_args rest Unquoted word
          else read_args rest q (put c)
      end
  end.
Definition response_args (s : str) : list str := read_args s Unquoted None.

(** The argument that a flag stands for: escaped quotes are quotes, other
    backslashes separate directories. *)
Fixpoint flag_text (f : str) : str :=
  match f with
  | [] => []
  | c :: rest =>
      if decide (c = "092"%char) then
        match rest with
        | d :: rest' => if decide (d = "034"%char) then d :: flag_text rest' else slash :: flag_text rest
        | [] => [slash]
        end
      else c :: flag_text rest
  end.

(** Printable ASCII without single quotes, and something. *)
Definition plain_char (c : ascii) : Prop := between 32 126 c = true ∧ c ≠ "'"%char.
Definition plain_flag (f : str) : Prop := Forall plain_char f ∧ f ≠ [].

Lemma contains_char c s : contains [c] s = true ↔ c ∈ s.
Proof.
  induction s as [|d s IH]; [split; [done|by intros ?%not_elem_of_nil]|]. cbn [contains]. rewrite orb_true_iff, IH, elem_of_cons.
  split; intros [H|H]; [|by right| |by right].
  - left. unfold starts_with in H. cbn in H. by destruct (decide (c = d)).
  - left. subst. unfold starts_with. cbn. by rewrite decide_True.
Qed.

Lemma latin1_plain c : plain_char c → latin1 c = [c].
Proof.
  intros [H _]. unfold latin1, between, code in *. apply andb_true_iff in H as [_ H%N.leb_le].
  assert ((N_of_ascii c <? 128)%N = true) as ->; [|done]. apply N.ltb_lt. lia.
Qed.

Lemma unescape_cons c s : c ≠ "092"%char → unescape_quotes (c :: s) = c :: unescape_quotes s.
Proof. intros H. cbn [unescape_quotes]. destruct s; [done|]. rewrite decide_False; [done|]. by intros [-> _]. Qed.

Lemma replace_head f : Forall plain_char f → head (replace_path_backslashes f) = Some "034"%char → head f = Some "034"%char.
Proof.
  destruct f as [|c f]; [done|]. intros [Hc _]%Forall_cons. cbn [replace_path_backslashes].
  destruct (decide (c = "092"%char)) as [->|]; [|by rewrite latin1_plain].
  destruct f as [|d f]; [done|]. by destruct (decide (d = "034"%char)).
Qed.

Lemma unescape_replace f : Forall plain_char f → unescape_quotes (replace_path_backslashes f) = flag_text f.
Proof.
  induction f as [|c|c d f IH1 IH2] using list_ind2; intros H; [done|..].
  - apply Forall_cons in H as [Hc _]. cbn. destruct (decide _); [done|]. by rewrite latin1_plain.
  - apply Forall_cons in H as [Hc H]. specialize (IH2 H). pose proof H as [Hd Hf]%Forall_cons.
    change (replace_path_backslashes (c :: d :: f)) with
      (if decide (c = "092"%char) then if decide (d = "034"%char) then c :: d :: replace_path_backslashes f
        else slash :: replace_path_backslashes (d :: f) else latin1 c ++ replace_path_backslashes (d :: f)).
    change (flag_text (c :: d :: f)) with
      (if decide (c = "092"%char) then if decide (d = "034"%char) then d :: flag_text f else slash :: flag_text (d :: f) else c :: flag_text (d :: f)).
    destruct (decide (c = "092"%char)) as [->|Hc92].
    + destruct (decide (d = "034"%char)) as [->|].
      * cbn [unescape_quotes]. rewrite decide_True by done. by rewrite IH1.
      * rewrite unescape_cons by done. by rewrite IH2.
    + rewrite latin1_plain by done. cbn [app]. rewrite unescape_cons by done. by rewrite IH2.
Qed.

(** Without an escaped quote there is no backslash left. *)
Lemma unescape_none f : Forall plain_char f → contains ["092"; "034"]%char (replace_path_backslashes f) = false →
  unescape_quotes (replace_path_backslashes f) = replace_path_backslashes f.
Proof.
  generalize (replace_path_backslashes f). intros s _. induction s as [|c|c d s IH1 IH2] using list_ind2; intros H; [done|done|].
  cbn [contains] in H. apply orb_false_iff in H as [H1 H2]. change (unescape_quotes (c :: d :: s)) with
    (if decide (c = "092"%char ∧ d = "034"%char) then d :: unescape_quotes s else c :: unescape_quotes (d :: s)).
  destruct (decide _) as [[-> ->]|]; [done|]. by rewrite IH2.
Qed.

Lemma flag_text_chars f c : Forall plain_char f → c ∈ flag_text f → plain_char c ∧ c ≠ "092"%char.
Proof.
  induction f as [|d|d e f IH1 IH2] using list_ind2; intros H Hc; [by apply not_elem_of_nil in Hc|..].
  - apply Forall_cons in H as [Hd _]. cbn in Hc. destruct (decide _); apply list_elem_of_singleton in Hc as ->; done.
  - apply Forall_cons in H as [Hd H]. pose proof H as [He Hf]%Forall_cons.
    change (flag_text (d :: e :: f)) with
      (if decide (d = "092"%char) then if decide (e = "034"%char) then e :: flag_text f else slash :: flag_text (e :: f) else d :: flag_text (e :: f)) in Hc.
    destruct (decide (d = "092"%char)) as [->|]; [destruct (decide (e = "034"%char)) as [->|]|];
      apply elem_of_cons in Hc as [->|Hc]; try done; [by apply IH1|by apply IH2..].
Qed.
Lemma flag_text_nonempty f : f ≠ [] → flag_text f ≠ [].
Proof. destruct f as [|c [|d f]]; [done|..]; intros _; cbn; repeat case_decide; done. Qed.

Lemma render_flag_text f : Forall plain_char f → render_flag f =
  if contains ["034"%char] (flag_text f) then &"'" ++ flag_text f ++ &"'"
  else if contains (&" ") (flag_text f) then ["034"%char] ++ flag_text f ++ ["034"%char] else flag_text f.
Proof.
  intros H. unfold render_flag. cbv zeta.
  assert ((if contains ["092"; "034"]%char (replace_path_backslashes f) then unescape_quotes (replace_path_backslashes f)
    else replace_path_backslashes f) = flag_text f) as ->; [|done].
  rewrite <- unescape_replace by done. destruct (contains _ _) eqn:E; [done|]. by rewrite unescape_none.
Qed.

(** ** Reading it back *)

(** What is read as itself within the quotes. *)
Definition inert (q : Quote) (c : ascii) : Prop :=
  c ≠ "092"%char ∧
  match q with Unquoted => is_space c = false ∧ c ≠ "'"%char ∧ c ≠ "034"%char | Single => c ≠ "'"%char | Double => c ≠ "034"%char end.

Lemma read_inert q w rest acc : Forall (inert q) w → read_args (w ++ rest) q (Some acc) = read_args rest q (Some (acc ++ w)).
Proof.
  intros H. revert acc. induction H as [|c w [Hc Hq] _ IH]; intros acc; [by rewrite app_nil_r|].
  cbn [app read_args]. destruct q; cbn in Hq; [destruct Hq as (-> & H1 & H2)|..]; rewrite !decide_False by done; cbn [default];
    rewrite IH, <- app_assoc; done.
Qed.

Lemma plain_space c : plain_char c → c ≠ sp → is_space c = false.
Proof.
  intros [H _] Hs. unfold is_space. apply bool_decide_eq_false. intros Hin. unfold between in H.
  repeat (apply elem_of_cons in Hin as [->|Hin]; [done|]). by apply not_elem_of_nil in Hin.
Qed.

(** Where a word ends. *)
Lemma read_end rest acc : rest = [] ∨ head rest = Some nl → read_args rest Unquoted (Some acc) = acc :: read_args (tail rest) Unquoted None.
Proof. intros [->|H]; [done|]. destruct rest as [|c rest]; [done|]. injection H as ->. done. Qed.

Lemma read_flag f rest : plain_flag f → rest = [] ∨ head rest = Some nl →
  read_args (render_flag f ++ rest) Unquoted None = flag_text f :: read_args (tail rest) Unquoted None.
Proof.
  intros [Hf Hne] Hr. rewrite render_flag_text by done. pose proof (λ c, flag_text_chars f c Hf) as Hc.
  apply flag_text_nonempty in Hne. set (t := flag_text f) in *.
  destruct (contains ["034"%char] t) eqn:Eq.
  - rewrite <- !app_assoc. change (read_args (&"'" ++ ?s) Unquoted None) with (read_args s Single (Some [])).
    rewrite read_inert; [|apply Forall_forall; intros c Hin; destruct (Hc c Hin) as [[_ H1] H2]; done].
    change (read_args (&"'" ++ rest) Single ?w) with (read_args rest Unquoted w). by apply read_end.
  - assert ("034"%char ∉ t) as Hq by (rewrite <- contains_char; by rewrite Eq).
    destruct (contains (&" ") t) eqn:Es.
    + rewrite <- !app_assoc. change (read_args (["034"%char] ++ ?s) Unquoted None) with (read_args s Double (Some [])).
      rewrite read_inert; [|apply Forall_forall; intros c Hin; destruct (Hc c Hin) as [_ H2]; split; [done|by intros ->]].
      change (read_args (["034"%char] ++ rest) Double ?w) with (read_args rest Unquoted w). by apply read_end.
    + assert (sp ∉ t) as Hs by (rewrite <- contains_char; change [sp] with (&" "); by rewrite Es).
      assert (Forall (inert Unquoted) t) as Hi.
      { apply Forall_forall. intros c Hin. destruct (Hc c Hin) as [Hp H2]. split; [done|]. split_and!; [|apply Hp|by intros ->].
        apply plain_space; [done|by intros ->]. }
      destruct t as [|c t]; [done|]. apply Forall_cons in Hi as [[H1 (H2 & H3 & H4)] Hi]. cbn [app read_args].
      rewrite H2, !decide_False by done. cbn [default]. rewrite read_inert by done. by apply read_end.
Qed.

Lemma response_args_render flags : Forall plain_flag flags → response_args (render_content flags) = flag_text <$> flags.
Proof.
  unfold response_args, render_content. induction 1 as [|f flags Hf _ IH]; [done|]. destruct flags as [|g flags].
  - cbn [fmap list_fmap join]. rewrite <- (app_nil_r (render_flag f)), read_flag by auto. done.
  - change (join [nl] (render_flag <$> f :: g :: flags)) with (render_flag f ++ nl :: join [nl] (render_flag <$> g :: flags)).
    rewrite read_flag by auto. cbn [tail]. by rewrite IH.
Qed.

(** ** The directory of the files *)

Section Directory.
Context {HS : Sha256} (read_dir : Disk → PathBuf → list (result FbuildError PathBuf)) (stuck : PathBuf → bool).
Context (temp_dir : PathBuf).
Hypothesis read_dir_below : ∀ D dir p, Ok p ∈ read_dir D dir → parent p = Some dir.

(** What is at the place of a response file is one of the texts, and has the
    digest of its name. *)
Definition honest (texts : list str) (D : Disk) : Prop := ∀ prefix c e, D !! response_path temp_dir prefix c = Some e →
  ∃ f, e = Regular f ∧ content_hash (content f) = content_hash c ∧ content f ∈ texts.

(** The only entries that a clean-up removes. *)
Definition spent (now : Z) (D : Disk) (q : PathBuf) : Prop :=
  parent q = Some temp_dir ∧ is_response_name q = true ∧ is_stale RESPONSE_FILE_STALE_AFTER now D q = true.

Lemma cleanup_loop_spec now entries removed D r D' :
  (∀ p, Ok p ∈ entries → parent p = Some temp_dir) →
  cleanup_loop stuck RESPONSE_FILE_STALE_AFTER now entries removed D = (r, D') →
  ∀ q, D' !! q = D !! q ∨ D' !! q = None ∧ spent now D q.
Proof.
  revert removed D. induction entries as [|[p|e] entries IH]; intros removed D Hp; cbn [cleanup_loop];
    [by intros [= _ <-]; left|intros H q|by intros [= _ <-]; left].
  assert (∀ p, Ok p ∈ entries → parent p = Some temp_dir) as Hp' by (intros ? ?; apply Hp; by right).
  destruct (is_response_name p && is_stale RESPONSE_FILE_STALE_AFTER now D p) eqn:E; [|by eapply IH].
  apply andb_true_iff in E as [E1 E2]. unfold remove_file in H.
  destruct (is_file D p && negb (stuck p)); [|by eapply IH].
  assert (spent now D p) as Hs by (split; [apply Hp; left|done]).
  destruct (IH _ _ Hp' H q) as [E|[E1' (Hq1 & Hq2 & Hq3)]].
  - destruct (decide (q = p)) as [->|Hne]; [right; by rewrite E, lookup_delete_eq|]. left. by rewrite E, lookup_delete_ne.
  - right. split; [done|]. destruct (decide (q = p)) as [->|Hne]; [done|]. split; [done|]. split; [done|].
    unfold is_stale, metadata in *. by rewrite lookup_delete_ne in Hq3.
Qed.

Lemma cleanup_spec now D q :
  let D' := (cleanup_stale_response_files read_dir stuck temp_dir RESPONSE_FILE_STALE_AFTER now D).2 in
  D' !! q = D !! q ∨ D' !! q = None ∧ spent now D q.
Proof.
  cbv zeta. unfold cleanup_stale_response_files. destruct (D !! temp_dir) as [[d|f]|]; [|by left..].
  destruct (listable d); [|by left]. destruct (cleanup_loop _ _ _ _ _ _) as [r D'] eqn:E. cbn [snd].
  eapply cleanup_loop_spec; [|done]. apply read_dir_below.
Qed.

Context {HSok : Sha256Ok HS}.

Lemma response_path_inj p1 c1 p2 c2 : response_path temp_dir p1 c1 = response_path temp_dir p2 c2 → content_hash c1 = content_hash c2.
Proof.
  unfold response_path. intros H%app_inv_head.
  assert (∀ c, length (content_hash c) = 8%nat) as Hl.
  { intros c. unfold content_hash. rewrite hex_encode_length, length_take, sha256_length. done. }
  assert ((&"fbuild_" ++ p1 ++ &"_" ++ content_hash c1) ++ &".rsp" = (&"fbuild_" ++ p2 ++ &"_" ++ content_hash c2) ++ &".rsp") as E.
  { rewrite <- !app_assoc. exact (f_equal (λ l, match l with [Normal n] => n | _ => [] end) H). }
  apply app_inv_tail in E. rewrite !app_assoc in E.
  apply app_inj_2 in E as [_ E]; [done|by rewrite !Hl].
Qed.

Lemma build_failed_Ok {A} (m : IO A) D a D' : build_failed m D = (Ok a, D') → m D = (Ok a, D').
Proof. unfold build_failed. destruct (m D) as [[b|e] D1]; [by intros [= -> ->]|done]. Qed.

(** What the compiler reads in a response file is the flags it was written
    for, if no other text of the directory has the same digest. *)
Section Writing.
Context (denied : PathBuf → bool) (now : Z) (flags : list str) (prefix : str) (p : PathBuf) (D D' : Disk) (texts : list str).
Hypothesis Hw : write_response_file read_dir stuck denied now flags temp_dir prefix D = (Ok p, D').
Hypothesis Hh : honest texts D.
Local Abbreviation text := (render_content flags).

Lemma write_steps : ∃ D1 D2, p = response_path temp_dir prefix text ∧
  (∀ q, D1 !! q = D !! q ∨ q `prefix_of` temp_dir ∧ D !! q = None ∧ is_dir D1 q = true) ∧
  (∀ q, D2 !! q = D1 !! q ∨ D2 !! q = None ∧ spent now D1 q) ∧
  (is_Some (D2 !! p) ∧ D' = D2 ∨ holds D' p text ∧ ∀ q, q ≠ p → D' !! q = D2 !! q).
Proof.
  apply IO_bind_Ok in Hw as ([] & D1 & H1%build_failed_Ok & H).
  apply IO_bind_Ok in H as ([] & D2 & H2 & H). injection H2 as H2. unfold render_response_file in H. cbn zeta beta iota in H.
  apply IO_bind_Ok in H as (there & D3 & H3 & H). injection H3 as <- <-. exists D1, D2.
  assert (∀ q, D2 !! q = D1 !! q ∨ D2 !! q = None ∧ spent now D1 q) as Hs by (intros q; rewrite <- H2; apply cleanup_spec).
  assert (∀ q, D1 !! q = D !! q ∨ q `prefix_of` temp_dir ∧ D !! q = None ∧ is_dir D1 q = true) as Hm.
  { intros q. destruct (make_dirs_Ok _ _ _ _ _ H1) as [_ Hk]. destruct (Hk q) as [E|(E1 & E2 & E3)]; [by left|right].
    apply ancestors_down_elem in E1 as [E1 _]. done. }
  destruct (exists_ D2 _) eqn:Ex.
  - injection H as <- <-. unfold exists_ in Ex. apply bool_decide_eq_true in Ex. split_and!; [done..|]. by left.
  - apply IO_bind_Ok in H as ([] & D4 & H4%build_failed_Ok & H). injection H as <- <-.
    apply write_Ok in H4 as (Hc & _ & Hk). split_and!; [done..|]. by right.
Qed.

Lemma response_not_above pre c : ¬ response_path temp_dir pre c `prefix_of` temp_dir.
Proof. unfold response_path. intros H%prefix_length. rewrite length_app in H. cbn in H. lia. Qed.

Lemma honest_after : honest (text :: texts) D'.
Proof.
  destruct write_steps as (D1 & D2 & -> & H1 & H2 & H3). intros pre c e He.
  assert (∀ e, D2 !! response_path temp_dir pre c = Some e → D !! response_path temp_dir pre c = Some e) as Hback.
  { intros e' He'. destruct (H2 (response_path temp_dir pre c)) as [E|[E _]]; [|congruence].
    destruct (H1 (response_path temp_dir pre c)) as [E1|[E1 _]]; [congruence|by apply response_not_above in E1]. }
  assert (∀ e, D !! response_path temp_dir pre c = Some e →
    ∃ f, e = Regular f ∧ content_hash (content f) = content_hash c ∧ content f ∈ text :: texts) as Hh'.
  { intros e' (f & -> & Hf & Ht)%Hh. exists f. split_and!; [done..|by right]. }
  destruct H3 as [[_ ->]|[(f & Hf & Ht) Hk]]; [by apply Hh', Hback|].
  destruct (decide (response_path temp_dir pre c = response_path temp_dir prefix text)) as [E|Hne].
  - rewrite E, Hf in He. injection He as <-. exists f. rewrite Ht. split_and!; [done| |left].
    symmetry. by eapply response_path_inj.
  - rewrite Hk in He by done. by apply Hh', Hback.
Qed.

Lemma response_there : ∃ f, D' !! p = Some (Regular f) ∧ content_hash (content f) = content_hash text ∧ content f ∈ text :: texts.
Proof.
  pose proof honest_after as Ha. destruct write_steps as (D1 & D2 & -> & _ & _ & H3).
  assert (is_Some (D' !! response_path temp_dir prefix text)) as [e He].
  { destruct H3 as [[H ->]|[(f & Hf & _) _]]; [done|by eexists]. }
  destruct (Ha _ _ _ He) as (f & -> & Hc). by exists f.
Qed.

Lemma others_kept q e : D !! q = Some e → D' !! q = Some e ∨ q = p ∨ D' !! q = None ∧ spent now D q.
Proof.
  intros He. destruct write_steps as (D1 & D2 & _ & H1 & H2 & H3). destruct (decide (q = p)) as [->|Hne]; [by right; left|].
  assert (D' !! q = D2 !! q) as -> by (destruct H3 as [[_ ->]|[_ Hk]]; [done|by apply Hk]).
  assert (D1 !! q = Some e) as E1 by (destruct (H1 q) as [->|(_ & E & _)]; [done|congruence]).
  destruct (H2 q) as [->|[-> (Hs1 & Hs2 & Hs3)]]; [by left|]. right; right. split; [done|]. split; [done|]. split; [done|].
  unfold is_stale, metadata in *. by rewrite He, E1 in *.
Qed.
End Writing.

(** C21: For flags of printable ASCII without single quotes, none of them
    empty, the response file that is returned reads as the flags, whether it
    was written now or found, when the files of the directory have been
    written for texts among which the digest tells this one; so they have
    afterwards, and nothing else is removed but response files that are a week
    old. *)
Theorem response_file_reads texts denied now flags prefix p D D' :
  write_response_file read_dir stuck denied now flags temp_dir prefix D = (Ok p, D') → honest texts D → Forall plain_flag flags →
  (∀ c, c ∈ texts → content_hash c = content_hash (render_content flags) → c = render_content flags) →
  (∃ f, D' !! p = Some (Regular f) ∧ response_args (content f) = flag_text <$> flags) ∧
  honest (render_content flags :: texts) D' ∧
  ∀ q e, D !! q = Some e → D' !! q = Some e ∨ q = p ∨ D' !! q = None ∧ spent now D q.
Proof.
  intros Hw Hh Hf Hc. split_and!.
  - destruct (response_there _ _ _ _ _ _ _ _ Hw Hh) as (f & Hp & E & Ht). exists f. split; [done|].
    apply elem_of_cons in Ht as [->|Ht]; [by apply response_args_render|]. rewrite (Hc _ Ht E). by apply response_args_render.
  - by eapply honest_after.
  - intros q e. by eapply others_kept.
Qed.
End Directory.

(** ** On a disk *)

(** A digest that ends texts apart by their last letters. *)
Definition last_letters : Sha256 := λ s, take 32 (reverse s ++ replicate 32 "-"%char).
#[global] Instance last_letters_ok : Sha256Ok last_letters.
Proof. split. intros s. unfold sha256, last_letters. rewrite length_take, length_app, length_replicate. lia. Qed.

Definition map_read_dir (D : Disk) (dir : PathBuf) : list (result FbuildError PathBuf) :=
  Ok <$> filter (λ p, parent p = Some dir) (map_to_list D).*1.
Lemma map_read_dir_below D dir p : Ok p ∈ map_read_dir D dir → parent p = Some dir.
Proof. unfold map_read_dir. intros (q & [= ->] & H)%list_elem_of_fmap. by apply list_elem_of_filter in H as [H _]. Qed.

#[local] Existing Instance last_letters.
Definition tmp : PathBuf := components (&"/tmp").
Definition day : Z := 24 * 60 * 60 * 10 ^ 9.
Definition a_dir : Entry := Directory {| dir_size := 0; dir_mtime := 0; listable := true |}.
Definition a_file (at_time : Z) (text : str) : Entry := Regular {| content := text; mtime := at_time; readable := true |}.
Definition some_flags : list str := [&"-DNAME=\" ++ ["034"%char] ++ &"a b\" ++ ["034"%char]; &"-IC:\include dir"; &"-c"].
Definition old_text : str := render_content [&"-Os"].
Definition tmp_disk : Disk := list_to_map
  [(components (&"/"), a_dir); (tmp, a_dir); (response_path tmp (&"cc") old_text, a_file 0 old_text);
   (components (&"/tmp/notes.txt"), a_file 0 (&"x"))].
Definition write_flags (flags : list str) (now : Z) := write_response_file map_read_dir (λ _, false) (λ _, false) now flags tmp (&"cc").
Definition wrote := write_flags some_flags (8 * day) tmp_disk.
Definition wrote_path : PathBuf := response_path tmp (&"cc") (render_content some_flags).

Lemma tmp_honest : honest tmp [old_text] tmp_disk.
Proof.
  intros pre c e H%elem_of_list_to_map_2.
  apply elem_of_cons in H as [H|H]; [by apply (f_equal (λ x, length x.1)) in H|].
  apply elem_of_cons in H as [H|H]; [by apply (f_equal (λ x, length x.1)) in H|].
  apply elem_of_cons in H as [H|H].
  - pose proof (f_equal fst H) as H1. pose proof (f_equal snd H) as H2. cbn [fst snd] in H1, H2. subst e.
    eexists. split; [done|]. split; [|left]. symmetry. by apply (response_path_inj tmp pre c (&"cc") old_text).
  - apply list_elem_of_singleton in H. apply (f_equal (λ x, last x.1)) in H. discriminate.
Qed.

Example wrote_there : is_ok wrote.1 = true ∧ response_args (render_content some_flags) =
  [&"-DNAME=" ++ ["034"%char] ++ &"a b" ++ ["034"%char]; &"-IC:/include dir"; &"-c"] ∧
  wrote.2 !! response_path tmp (&"cc") old_text = None.
Proof. by vm_compute. Qed.

Example response_file_reads_witness :
  (∃ f, wrote.2 !! wrote_path = Some (Regular f) ∧ response_args (content f) = flag_text <$> some_flags) ∧
  honest tmp [render_content some_flags; old_text] wrote.2 ∧
  ∀ q e, tmp_disk !! q = Some e → wrote.2 !! q = Some e ∨ q = wrote_path ∨ wrote.2 !! q = None ∧ spent tmp (8 * day) tmp_disk q.
Proof.
  apply (response_file_reads map_read_dir (λ _, false) tmp map_read_dir_below [old_text] (λ _, false) (8 * day) some_flags (&"cc") wrote_path tmp_disk wrote.2).
  - assert (wrote.1 = Ok wrote_path) as E by by vm_compute. change (wrote = (Ok wrote_path, wrote.2)). rewrite <- E. by destruct wrote.
  - exact tmp_honest.
  - apply (bool_decide_unpack _). by vm_compute.
  - intros c ->%list_elem_of_singleton. by vm_compute.
Defined.

(** ** What goes wrong *)

(** Text beyond ASCII is encoded a second time. *)
Example non_ascii_mangled : render_content [&"-I/caf" ++ ["195"; "169"]%char] = &"-I/caf" ++ ["195"; "131"; "194"; "169"]%char.
Proof. by vm_compute. Qed.

(** A single quote in a flag with a double one ends its quoting. *)
Example single_quote_lost :
  response_args (render_content [&"-DMSG=" ++ ["034"%char] ++ &"it's" ++ ["034"%char]; &"-c"]) ≠
  flag_text <$> [&"-DMSG=" ++ ["034"%char] ++ &"it's" ++ ["034"%char]; &"-c"].
Proof. by vm_compute. Qed.

(** A file left cut short under its name is found and returned. *)
Definition cut_disk : Disk := <[wrote_path := a_file (8 * day) []]> tmp_disk.
Example cut_file_returned : ∃ D, write_flags some_flags (8 * day) cut_disk = (Ok wrote_path, D) ∧
  (∃ f, D !! wrote_path = Some (Regular f) ∧ response_args (content f) = []).
Proof.
  exists (write_flags some_flags (8 * day) cut_disk).2. split.
  - assert ((write_flags some_flags (8 * day) cut_disk).1 = Ok wrote_path) as E by by vm_compute.
    rewrite <- E. by destruct (write_flags _ _ cut_disk).
  - eexists. split; by vm_compute.
Qed.

(** A file that is found keeps its age: a clean-up right after removes it
    before the compiler has read it. *)
Definition week_old : Disk := <[wrote_path := a_file day (render_content some_flags)]> tmp_disk.
Example found_file_removed :
  let found := write_flags some_flags (8 * day - 1) week_old in
  found.1 = Ok wrote_path ∧
  (cleanup_stale_response_files map_read_dir (λ _, false) tmp RESPONSE_FILE_STALE_AFTER (8 * day) found.2).2 !! wrote_path = None.
Proof. by vm_compute. Qed.
