(* ===== verification/FlagOverlay.v ===== *)
(** * Extra compiler flags, [fbuild-build-engine/src/flag_overlay.rs]

    The flags that scripts and [build_flags] add to a compilation, and the
    conversions of [script_runtime.rs] that make them from the values a script
    leaves behind.  Paths are texts, joined as on Unix. *)
From S2P Require Import Prelude RustStr CachePaths PathBuf NormPath FileDisk Fingerprint SourceScan.

(** [serde_json::Value]; a number is its text, an object a list of fields. *)
Inductive Value := Null | Bool (b : bool) | Number (n : str) | String (s : str) | Array (items : list Value) | Object (fields : list (str * Value)).

Definition get (fields : list (str * Value)) (key : str) : option Value := p ← list_find (λ f, f.1 = key) fields; Some p.2.2.
Definition as_str (v : Value) : option str := match v with String s => Some s | _ => None end.

(** ** The overlay *)

Record LanguageExtraFlags := { common : list str; c_flags : list str; cxx_flags : list str; asm_flags : list str }.
Definition no_flags : LanguageExtraFlags := {| common := []; c_flags := []; cxx_flags := []; asm_flags := [] |}.
Definition null {A} (l : list A) : bool := match l with [] => true | _ => false end.

Definition flags_is_empty (f : LanguageExtraFlags) : bool :=
  null (common f) && null (c_flags f) && null (cxx_flags f) && null (asm_flags f).
Definition flags_extend (f other : LanguageExtraFlags) : LanguageExtraFlags :=
  {| common := common f ++ common other; c_flags := c_flags f ++ c_flags other;
     cxx_flags := cxx_flags f ++ cxx_flags other; asm_flags := asm_flags f ++ asm_flags other |}.
Definition combined (parts : list LanguageExtraFlags) : LanguageExtraFlags := foldl flags_extend no_flags parts.
Definition for_source (f : LanguageExtraFlags) (source : PathBuf) : list str :=
  let ext := lower_extension source in
  common f ++
  (if decide (ext = &"c") then c_flags f
   else if decide (ext ∈ [&"s"; &"sx"; &"asm"; &"spp"]) then asm_flags f
   else cxx_flags f).
Definition flatten (f : LanguageExtraFlags) : list str := common f ++ c_flags f ++ cxx_flags f ++ asm_flags f.

Record LinkExtraFlags := { link_flags : list str; link_libs : list str }.
Definition link_is_empty (f : LinkExtraFlags) : bool := null (link_flags f) && null (link_libs f).
Definition link_extend (f other : LinkExtraFlags) : LinkExtraFlags :=
  {| link_flags := link_flags f ++ link_flags other; link_libs := link_libs f ++ link_libs other |}.

Record LiteSconsRecords := {
  executed_actions : list Value;
  generated_files : list Value;
  recorded_pre_actions : list Value;
  recorded_post_actions : list Value;
  custom_targets : list Value;
  middleware : list Value;
  builder_calls : list Value;
  errors : list str;
}.
Record BuildOverlay := {
  global_compile : LanguageExtraFlags;
  project_compile : LanguageExtraFlags;
  link : LinkExtraFlags;
  notes : list str;
  lite_scons_records : option LiteSconsRecords;
}.
Definition overlay_is_empty (o : BuildOverlay) : bool :=
  flags_is_empty (global_compile o) && flags_is_empty (project_compile o) && link_is_empty (link o) && null (notes o) &&
  match lite_scons_records o with None => true | Some _ => false end.

Record ScriptScopeState := {
  cppdefines : list Value; cpppath : list Value; ccflags : list Value; cflags : list Value; cxxflags : list Value;
  asflags : list Value; linkflags : list Value; libpath : list Value; libs : list Value;
}.
Record ScriptRuntimeResult := {
  env : ScriptScopeState;
  projenv : ScriptScopeState;
  runtime_notes : list str;
  unsupported : list str;
  runtime_records : option LiteSconsRecords;
}.

(** ** Values of scripts *)

Definition absolutize_if_relative (project_dir raw : str) : str := if is_absolute raw then raw else path_join project_dir raw.

(** A scalar, as text. *)
Definition scalar (v : Value) : option str :=
  match v with
  | String s => Some s | Number n => Some n | Bool b => Some (if b then &"1" else &"0")
  | _ => None
  end.

Definition object_args (project_dir : str) (fields : list (str * Value)) : result FbuildError (list str) :=
  match get fields (&"kind") ≫= as_str with
  | None => Ok []
  | Some kind =>
      if decide (kind = &"path") then
        match get fields (&"value") ≫= as_str with
        | Some raw => Ok [absolutize_if_relative project_dir raw]
        | None => Err BuildFailed
        end
      else if decide (kind = &"kv") then
        match get fields (&"key") ≫= as_str with
        | None => Err BuildFailed
        | Some key =>
            match get fields (&"value") with
            | None => Err BuildFailed
            | Some value => match scalar value with Some s => Ok [key ++ &"=" ++ s] | None => Err BuildFailed end
            end
        end
      else Err BuildFailed
  end.

Fixpoint append_value_args (project_dir : str) (value : Value) : result FbuildError (list str) :=
  match value with
  | Array items =>
      (fix all items := match items with
                        | [] => Ok []
                        | item :: items => a <-? append_value_args project_dir item; b <-? all items; Ok (a ++ b)
                        end) items
  | Object fields => object_args project_dir fields
  | Null => Ok []
  | v => match scalar v with Some s => Ok [s] | None => Ok [] end
  end.
Fixpoint values_to_args (values : list Value) (project_dir : str) : result FbuildError (list str) :=
  match values with
  | [] => Ok []
  | v :: values => a <-? append_value_args project_dir v; b <-? values_to_args values project_dir; Ok (a ++ b)
  end.

Definition cpppath_to_flags (project_dir : str) (values : list Value) : result FbuildError (list str) :=
  entries <-? values_to_args values project_dir;
  Ok ((λ entry, &"-I" ++ absolutize_if_relative project_dir entry) <$> entries).

Definition cppdefine (value : Value) : result FbuildError str :=
  match value with
  | String s => Ok (&"-D" ++ s)
  | Object fields =>
      match get fields (&"kind") ≫= as_str with
      | None => Err BuildFailed
      | Some kind =>
          if decide (kind = &"kv") then
            match get fields (&"key") ≫= as_str with
            | None => Err BuildFailed
            | Some key =>
                match get fields (&"value") ≫= scalar with
                | Some rendered => Ok (&"-D" ++ key ++ &"=" ++ rendered)
                | None => Err BuildFailed
                end
            end
          else Err BuildFailed
      end
  | _ => Err BuildFailed
  end.
Fixpoint cppdefines_to_flags (values : list Value) : result FbuildError (list str) :=
  match values with [] => Ok [] | v :: values => f <-? cppdefine v; fs <-? cppdefines_to_flags values; Ok (f :: fs) end.

Definition lib_flag (project_dir entry : str) : str :=
  if starts_with (&"-l") entry then entry
  else if contains (&"/") entry || ends_with (&".a") entry || ends_with (&".o") entry || ends_with (&".lib") entry then
    absolutize_if_relative project_dir entry
  else &"-l" ++ entry.
Definition libs_to_flags (project_dir : str) (values : list Value) : result FbuildError (list str) :=
  entries <-? values_to_args values project_dir; Ok (lib_flag project_dir <$> entries).

Definition scope_to_compile_overlay (project_dir : str) (scope : ScriptScopeState) : result FbuildError LanguageExtraFlags :=
  defines <-? cppdefines_to_flags (cppdefines scope);
  paths <-? cpppath_to_flags project_dir (cpppath scope);
  cc <-? values_to_args (ccflags scope) project_dir;
  c <-? values_to_args (cflags scope) project_dir;
  cxx <-? values_to_args (cxxflags scope) project_dir;
  asm <-? values_to_args (asflags scope) project_dir;
  Ok {| common := defines ++ paths ++ cc; c_flags := c; cxx_flags := cxx; asm_flags := asm |}.

Definition scope_to_link_overlay (project_dir : str) (scope : ScriptScopeState) : result FbuildError LinkExtraFlags :=
  flags <-? values_to_args (linkflags scope) project_dir;
  paths <-? values_to_args (libpath scope) project_dir;
  libs <-? libs_to_flags project_dir (libs scope);
  Ok {| link_flags := flags ++ ((λ entry, &"-L" ++ absolutize_if_relative project_dir entry) <$> paths); link_libs := libs |}.

(** What is made of the result of a script. *)
Definition overlay_of_runtime (project_dir : str) (runtime : ScriptRuntimeResult) : result FbuildError BuildOverlay :=
  match unsupported runtime with
  | _ :: _ => Err BuildFailed
  | [] =>
      g <-? scope_to_compile_overlay project_dir (env runtime);
      p <-? scope_to_compile_overlay project_dir (projenv runtime);
      l <-? scope_to_link_overlay project_dir (env runtime);
      l2 <-? scope_to_link_overlay project_dir (projenv runtime);
      Ok {| global_compile := g; project_compile := p; link := link_extend l l2;
            notes := runtime_notes runtime; lite_scons_records := runtime_records runtime |}
  end.

(** ** Flags of the user *)

Definition define_flag_name (flag : str) : option str :=
  define ← RustStr.strip_prefix (&"-D") flag;
  let name := trim (match find_char "="%char define with Some i => take i define | None => define end) in
  if decide (name = []) then None else Some name.
Definition is_std (flag : str) : bool := starts_with (&"-std=") flag.

Definition apply_user_flag (result : list str) (flag : str) : list str :=
  (if is_std flag then filter (λ f, is_std f = false) result
   else match define_flag_name flag with
        | Some define_name => filter (λ f, define_flag_name f ≠ Some define_name) result
        | None => result
        end) ++ [flag].
Definition apply_user_flags (base_flags user_flags : list str) : list str := foldl apply_user_flag base_flags user_flags.

Definition apply_overlay_flags (base_flags : list str) (overlay : LanguageExtraFlags) (probe_name : str) : list str :=
  apply_user_flags base_flags (for_source overlay (components probe_name)).

(** ** What the compiler makes of the flags *)

(** The macro a flag is about. *)
Definition about (n f : str) : Prop := define_flag_name f = Some n ∨ f = &"-U" ++ n.
#[global] Instance about_dec n f : Decision (about n f).
Proof. unfold about. apply _. Defined.

(** What a later flag of the user takes away. *)
Definition overrides (g f : str) : bool :=
  if is_std g then is_std f
  else match define_flag_name g with Some n => bool_decide (define_flag_name f = Some n) | None => false end.
Definition outlives (l : list str) (f : str) : Prop := existsb (λ g, overrides g f) l = false.
#[local] Instance outlives_dec l f : Decision (outlives l f).
Proof. unfold outlives. apply _. Defined.
Fixpoint survivors (l : list str) : list str :=
  match l with [] => [] | f :: l => if decide (outlives l f) then f :: survivors l else survivors l end.

Lemma filter_all (P : str → Prop) `{∀ f, Decision (P f)} (l : list str) : (∀ f, P f) → filter P l = l.
Proof. intros Hall. induction l as [|f l IH]; [done|]. by rewrite filter_cons_True, IH. Qed.

Lemma outlives_one g f : outlives [g] f ↔ overrides g f = false.
Proof. unfold outlives. cbn [existsb]. by rewrite orb_false_r. Qed.
Lemma apply_one result g : apply_user_flag result g = filter (outlives [g]) result ++ [g].
Proof.
  unfold apply_user_flag. f_equal. destruct (is_std g) eqn:Es; [|destruct (define_flag_name g) as [n|] eqn:En].
  - apply list_filter_iff. intros f. rewrite outlives_one. unfold overrides. by rewrite Es.
  - apply list_filter_iff. intros f. rewrite outlives_one. unfold overrides. by rewrite Es, En, bool_decide_eq_false.
  - symmetry. apply filter_all. intros f. rewrite outlives_one. unfold overrides. by rewrite Es, En.
Qed.

Lemma outlives_cons g l f : outlives (g :: l) f ↔ outlives [g] f ∧ outlives l f.
Proof. unfold outlives. cbn [existsb]. rewrite !orb_false_iff. tauto. Qed.

Lemma apply_survivors base user : apply_user_flags base user = filter (outlives user) base ++ survivors user.
Proof.
  unfold apply_user_flags. revert base. induction user as [|g user IH]; intros base; cbn [foldl survivors].
  - rewrite app_nil_r. symmetry. by apply filter_all.
  - rewrite IH, apply_one, filter_app, list_filter_filter, <- app_assoc. f_equal.
    + apply list_filter_iff. intros f. rewrite (outlives_cons g user f). tauto.
    + cbn. by destruct (decide (outlives user g)).
Qed.

(** A property that is handed on by overriding keeps its last bearer. *)
Section Last.
Context (P : str → Prop) `{∀ f, Decision (P f)}.
Hypothesis HP : ∀ g f, overrides g f = true → P f → P g.

Lemma last_later (k l : list str) : l ≠ [] → last (k ++ l) = last l.
Proof. intros Hl. destruct l as [|x l _] using rev_ind; [done|]. by rewrite (assoc_L (++)), !last_snoc. Qed.

Lemma overridden_later l f : ¬ outlives l f → P f → filter P l ≠ [].
Proof.
  unfold outlives. intros Hn%not_false_iff_true Hf E. apply existsb_exists in Hn as (g & Hg%list_elem_of_In & Ho).
  assert (g ∈ filter P l) as Hin; [|by rewrite E in Hin; apply not_elem_of_nil in Hin].
  apply list_elem_of_filter. split; [by eapply HP|done].
Qed.

Lemma survivors_last l : last (filter P (survivors l)) = last (filter P l) ∧ (filter P l ≠ [] → filter P (survivors l) ≠ []).
Proof.
  induction l as [|f l [IH1 IH2]]; [done|]. cbn [survivors]. rewrite (filter_cons P f l).
  destruct (decide (outlives l f)) as [Ho|Ho].
  - rewrite filter_cons. destruct (decide (P f)); [|done]. split; [|done]. destruct (decide (filter P l = [])) as [E|E].
    + rewrite E in *. destruct (filter P (survivors l)) as [|x xs _] using rev_ind; [done|]. by rewrite last_snoc in IH1.
    + change (f :: filter P (survivors l)) with ([f] ++ filter P (survivors l)). change (f :: filter P l) with ([f] ++ filter P l).
      rewrite !last_later; [done|done|by apply IH2].
  - destruct (decide (P f)) as [Hf|]; [|done]. pose proof (overridden_later l f Ho Hf) as Hne.
    change (f :: filter P l) with ([f] ++ filter P l). rewrite last_later by done. split; [done|]. intros _. by apply IH2.
Qed.

Lemma apply_last base user : last (filter P (apply_user_flags base user)) = last (filter P (base ++ user)).
Proof.
  rewrite apply_survivors, !filter_app. destruct (survivors_last user) as [E Hne].
  destruct (decide (filter P user = [])) as [Eu|Eu].
  - rewrite Eu in E. destruct (filter P (survivors user)) as [|x xs _] using rev_ind; [|by rewrite last_snoc in E].
    rewrite Eu, !app_nil_r. f_equal. rewrite list_filter_filter. apply list_filter_iff. intros f. split; [tauto|]. intros Hf.
    split; [done|]. destruct (decide (outlives user f)) as [|Ho]; [done|]. by destruct (overridden_later user f Ho Hf).
  - rewrite !last_later; [done|done|by apply Hne].
Qed.
End Last.

(** Of flags that all override each other the last one alone is left. *)
Lemma only_last (P : str → Prop) `{∀ f, Decision (P f)} base user : (∀ g f, overrides g f = true → P f → P g) → (∀ f g, P f → P g → overrides g f = true) →
  (∃ g, g ∈ user ∧ P g) → ∃ f, filter P (apply_user_flags base user) = [f].
Proof.
  intros Hon HP Hex. rewrite apply_survivors, filter_app.
  assert (∀ l f, P f → filter P l ≠ [] → ¬ outlives l f) as Hover.
  { intros l f Hf Hne Ho. destruct (filter P l) as [|g gs] eqn:E; [done|].
    assert (g ∈ filter P l) as [Hg Hin]%list_elem_of_filter by (rewrite E; left).
    unfold outlives in Ho. apply not_true_iff_false in Ho. apply Ho, existsb_exists. exists g. rewrite <- list_elem_of_In. auto. }
  assert (filter P user ≠ []) as Hne.
  { destruct Hex as (g & Hg & HPg). intros E. assert (g ∈ filter P user) as Hin by by apply list_elem_of_filter.
    rewrite E in Hin. by apply not_elem_of_nil in Hin. }
  assert (filter P (filter (outlives user) base) = []) as ->.
  { apply elem_of_nil_inv. intros f [Hf [Ho _]%list_elem_of_filter]%list_elem_of_filter. by apply (Hover user f). }
  cbn [app]. clear Hex. induction user as [|g l IH]; [done|]. cbn [survivors].
  destruct (decide (filter P l = [])) as [E|E].
  - assert (filter P (survivors l) = []) as Es.
    { apply elem_of_nil_inv. intros f [Hf Hin]%list_elem_of_filter. assert (f ∈ filter P l) as Hin'; [|by rewrite E in Hin'; apply not_elem_of_nil in Hin'].
      apply list_elem_of_filter. split; [done|]. clear -Hin. induction l as [|x l IH]; [done|]. cbn [survivors] in Hin.
      destruct (decide _); [apply elem_of_cons in Hin as [->|Hin]; [left|]|]; right; by apply IH. }
    rewrite filter_cons in Hne. destruct (decide (P g)) as [Hg|]; [|done]. exists g.
    destruct (decide (outlives l g)) as [|Ho]; [by rewrite filter_cons_True, Es|].
    by destruct (overridden_later P Hon l g Ho Hg).
  - destruct (IH E) as [f Hf]. exists f. destruct (decide (outlives l g)); [|done].
    rewrite filter_cons_False; [done|]. intros Hg. by apply (Hover l g).
Qed.

(** A flag that overrides nothing of its kind is kept. *)
Definition plain (f : str) : Prop := is_std f = false ∧ define_flag_name f = None.
#[global] Instance plain_dec f : Decision (plain f).
Proof. unfold plain. apply _. Defined.

Lemma plain_outlives l f : plain f → outlives l f.
Proof.
  intros [Hs Hd]. unfold outlives. apply not_true_iff_false. intros (g & _ & Ho)%existsb_exists.
  unfold overrides in Ho. destruct (is_std g); [congruence|]. destruct (define_flag_name g); [|done].
  apply bool_decide_eq_true in Ho. congruence.
Qed.
Lemma plain_kept base user : filter plain (apply_user_flags base user) = filter plain (base ++ user).
Proof.
  rewrite apply_survivors, !filter_app. f_equal.
  - rewrite list_filter_filter. apply list_filter_iff. intros f. pose proof (plain_outlives user f). tauto.
  - induction user as [|g l IH]; [done|]. cbn [survivors]. rewrite (filter_cons plain g l), <- IH.
    destruct (decide (outlives l g)) as [|Ho]; [by rewrite filter_cons|].
    destruct (decide (plain g)) as [Hp|]; [|done]. by destruct (Ho (plain_outlives l g Hp)).
Qed.

Lemma std_no_define f : is_std f = true → define_flag_name f = None.
Proof.
  unfold is_std, define_flag_name, starts_with. change (&"-std=") with ["-"; "s"; "t"; "d"; "="]%char. change (&"-D") with ["-"; "D"]%char.
  destruct f as [|a [|b f]]; [done|by cbn; case_decide|]. cbn [RustStr.strip_prefix]. do 2 (case_decide; [subst|done]).
  by rewrite decide_False.
Qed.
Lemma overrides_define n g f : overrides g f = true → define_flag_name f = Some n → define_flag_name g = Some n.
Proof.
  unfold overrides. intros Ho Hf. destruct (is_std g); [by rewrite (std_no_define f Ho) in Hf|].
  destruct (define_flag_name g); [|done]. apply bool_decide_eq_true in Ho. congruence.
Qed.
Lemma overrides_std g f : overrides g f = true → is_std f = true → is_std g = true.
Proof.
  unfold overrides. intros Ho Hf. destruct (is_std g); [done|]. destruct (define_flag_name g) as [n|]; [|done].
  apply bool_decide_eq_true in Ho. by rewrite (std_no_define f Hf) in Ho.
Qed.
Lemma overrides_undefine n g f : overrides g f = true → f ≠ &"-U" ++ n.
Proof.
  change (&"-U") with ["-"; "U"]%char. intros Ho ->. unfold overrides in Ho. destruct (is_std g); [by destruct n|].
  destruct (define_flag_name g); [|done]. apply bool_decide_eq_true in Ho. by destruct n.
Qed.

(** ** The macros of the flags, read without the code *)

(** Text the compiler reads as nothing, and the name of a macro. *)
Definition white (b : str) : Prop := ∃ es, Forall (.∈ ws_encodings) es ∧ b = mjoin es.
Definition identifier (n : str) : Prop := n ≠ [] ∧ Forall (λ c, is_ascii_alphanumeric c || bool_decide (c = "_"%char) = true) n.
(** The flag defines the macro [n], with or without a value. *)
Definition defines (n f : str) : Prop :=
  ∃ a b, white a ∧ white b ∧ (f = &"-D" ++ a ++ n ++ b ∨ ∃ v, f = &"-D" ++ a ++ n ++ b ++ &"=" ++ v).
Definition concerns (n f : str) : Prop := defines n f ∨ f = &"-U" ++ n.
Definition names_standard (f : str) : Prop := ∃ v, f = &"-std=" ++ v.
Definition other (f : str) : Prop := ¬ &"-D" `prefix_of` f ∧ ¬ &"-std=" `prefix_of` f.

#[global] Instance other_dec f : Decision (other f).
Proof. unfold other. apply _. Defined.

Lemma white_nil : white [].
Proof. by exists []. Qed.
Lemma strip_one_white e s : e ∈ ws_encodings → strip_one ws_encodings (e ++ s) = Some s.
Proof. unfold ws_encodings at 1. intros H. repeat (apply elem_of_cons in H as [->|H]; [reflexivity|]). by apply not_elem_of_nil in H. Qed.
Lemma strip_one_white_rev e s : e ∈ ws_encodings → strip_one (reverse <$> ws_encodings) (reverse e ++ s) = Some s.
Proof. unfold ws_encodings at 1. intros H. repeat (apply elem_of_cons in H as [->|H]; [reflexivity|]). by apply not_elem_of_nil in H. Qed.

Lemma strip_many_step encs s r : all_nonempty encs → strip_one encs s = Some r → strip_many encs (length s) s = strip_many encs (length r) r.
Proof.
  intros Hne Hs. pose proof (strip_one_Some _ _ _ Hs) as (e & He & E). apply Hne in He.
  destruct s as [|c s]; [by destruct e|]. cbn [length strip_many]. rewrite Hs. apply strip_many_fuel; [done| |done].
  apply (f_equal length) in E. rewrite length_app in E. destruct e; cbn in E; [done|lia].
Qed.

Lemma trim_start_white b s : white b → trim_start (b ++ s) = trim_start s.
Proof.
  intros (es & Hes & ->). unfold trim_start. induction Hes as [|e es He Hes IH]; [done|].
  cbn [mjoin list_join]. rewrite <- (assoc_L (++)), (strip_many_step _ _ (mjoin es ++ s)); [done|apply ws_nonempty|by apply strip_one_white].
Qed.
Lemma trim_end_white b s : white b → trim_end (s ++ b) = trim_end s.
Proof.
  intros (es & Hes & ->). unfold trim_end. f_equal. revert s. induction Hes as [|e es He Hes IH]; intros s; [by rewrite app_nil_r|].
  change (mjoin (e :: es)) with (e ++ mjoin es). rewrite (assoc_L (++)), IH. rewrite reverse_app, <- length_reverse, reverse_app.
  rewrite (strip_many_step _ _ (reverse s)); [by rewrite length_reverse|apply ws_rev_nonempty|by apply strip_one_white_rev].
Qed.

Lemma strip_many_peel encs n s : ∃ es, Forall (.∈ encs) es ∧ s = mjoin es ++ strip_many encs n s.
Proof.
  revert s. induction n as [|n IH]; intros s; cbn [strip_many]; [by exists []|].
  destruct (strip_one encs s) as [r|] eqn:E; [|by exists []]. apply strip_one_Some in E as (e & He & ->).
  destruct (IH r) as (es & Hes & Hr). exists (e :: es). split; [by constructor|].
  change (mjoin (e :: es)) with (e ++ mjoin es). rewrite <- (assoc_L (++)). by f_equal.
Qed.
Lemma mjoin_reverse (es : list str) : reverse (mjoin es) = mjoin (reverse (reverse <$> es)).
Proof.
  induction es as [|e es IH]; [done|]. change (mjoin (e :: es)) with (e ++ mjoin es).
  rewrite reverse_app, fmap_cons, reverse_cons, IH, join_app. cbn [mjoin list_join]. by rewrite app_nil_r.
Qed.
Lemma trim_split s : ∃ a b, white a ∧ white b ∧ s = a ++ trim s ++ b.
Proof.
  destruct (strip_many_peel ws_encodings (length s) s) as (es & Hes & Hs). fold (trim_start s) in Hs.
  destruct (strip_many_peel (reverse <$> ws_encodings) (length (trim_start s)) (reverse (trim_start s))) as (fs & Hfs & Ht).
  exists (mjoin es), (reverse (mjoin fs)). split; [by exists es|]. split.
  - exists (reverse (reverse <$> fs)). split; [|apply mjoin_reverse]. apply Forall_forall.
    intros x (y & -> & Hy)%elem_of_reverse%list_elem_of_fmap. rewrite Forall_forall in Hfs.
    apply Hfs, list_elem_of_fmap in Hy as (z & -> & Hz). by rewrite reverse_involutive.
  - rewrite Hs at 1. f_equal. apply (f_equal reverse) in Ht. rewrite reverse_involutive, reverse_app in Ht. exact Ht.
Qed.

Lemma identifier_char c : is_ascii_alphanumeric c || bool_decide (c = "_"%char) = true → solid c ∧ c ≠ "="%char.
Proof.
  intros Hc. assert (Forall (λ c, ¬ (is_ascii_alphanumeric c || bool_decide (c = "_"%char) = true) ∨ (solid c ∧ c ≠ "="%char)) (ascii_of_nat <$> seq 0 256)) as Hall
    by (apply (bool_decide_unpack _); by vm_compute).
  rewrite Forall_forall in Hall. destruct (Hall c); [|done|done]. apply list_elem_of_fmap. exists (nat_of_ascii c).
  split; [by rewrite ascii_nat_embedding|]. apply elem_of_seq. pose proof (nat_ascii_bounded c). lia.
Qed.
Lemma identifier_trim n : identifier n → trim n = n ∧ "="%char ∉ n.
Proof.
  intros [_ Hn]. split.
  - induction Hn as [|c n Hc Hn IH]; [done|]. by apply (trim_around c [] n); [apply identifier_char in Hc as []| |].
  - intros Hin. rewrite Forall_forall in Hn. by apply Hn, identifier_char in Hin as [_ []].
Qed.
Lemma white_no_eq b : white b → "="%char ∉ b.
Proof.
  intros (es & Hes & ->) (e & Hin & He)%list_elem_of_join. rewrite Forall_forall in Hes. apply Hes in He.
  assert (Forall (λ e, "="%char ∉ e) ws_encodings) as Hall by (apply (bool_decide_unpack _); by vm_compute).
  rewrite Forall_forall in Hall. by apply (Hall e).
Qed.
Lemma trim_identifier n a b : identifier n → white a → white b → trim (a ++ n ++ b) = n.
Proof.
  intros Hn Ha Hb. pose proof (identifier_trim n Hn) as [Ht _]. unfold trim. rewrite trim_start_white by done.
  destruct Hn as [Hne Hn]. destruct Hn as [|c n Hc Hn]; [done|].
  assert (trim_start ((c :: n) ++ b) = (c :: n) ++ b) as ->.
  { apply trim_start_fix_iff, starts_ws_iff. by apply (strip_one_guard ws_encodings [] c); [apply identifier_char in Hc as []|]. }
  rewrite trim_end_white by done. by apply trim_fix in Ht as [_ Ht].
Qed.

(** The name the code finds is the one the flag defines. *)
Lemma define_flag_name_iff n f : identifier n → define_flag_name f = Some n ↔ defines n f.
Proof.
  intros Hn. pose proof (identifier_trim n Hn) as [_ Heq]. unfold define_flag_name. split.
  - destruct (RustStr.strip_prefix (&"-D") f) as [d|] eqn:E; [|done]. apply strip_prefix_Some in E as ->. cbn [mbind option_bind].
    destruct (find_char "="%char d) as [i|] eqn:Ei; case_decide; [done| |done|]; intros [= Et].
    + apply find_char_Some in Ei as [Hs _]. destruct (trim_split (take i d)) as (a & b & Ha & Hb & Ed). rewrite Et in Ed.
      exists a, b. split; [done|]. split; [done|]. right. exists (drop (S i) d). f_equal.
      rewrite Hs at 1. rewrite Ed. by rewrite <- !(assoc_L (++)).
    + destruct (trim_split d) as (a & b & Ha & Hb & Ed). rewrite Et in Ed. exists a, b. split; [done|]. split; [done|]. left. by f_equal.
  - intros (a & b & Ha & Hb & [->|[v ->]]); rewrite RustStr.strip_prefix_app; cbn [mbind option_bind].
    + assert ("="%char ∉ a ++ n ++ b) as ->%find_char_None by (rewrite !elem_of_app; intros [?|[?|?]]; [by eapply (white_no_eq a)|done|by eapply (white_no_eq b)]).
      rewrite trim_identifier by done. rewrite decide_False; [done|]. apply Hn.
    + change (&"=" ++ v) with ("="%char :: v). rewrite !(assoc_L (++)), find_char_app.
      * rewrite take_app_length, <- (assoc_L (++)), trim_identifier by done. rewrite decide_False; [done|]. apply Hn.
      * rewrite !elem_of_app. intros [[?|?]|?]; [by eapply (white_no_eq a)|done|by eapply (white_no_eq b)].
Qed.

Lemma about_concerns n f : identifier n → about n f ↔ concerns n f.
Proof. intros Hn. unfold about, concerns. by rewrite define_flag_name_iff. Qed.
Lemma is_std_names f : is_std f = true ↔ names_standard f.
Proof. apply starts_with_iff. Qed.

Lemma other_plain f : other f → plain f.
Proof.
  intros [Hd Hs]. split.
  - apply not_true_iff_false. unfold is_std. by rewrite starts_with_iff.
  - unfold define_flag_name. destruct (RustStr.strip_prefix (&"-D") f) as [d|] eqn:E; [|done]. apply strip_prefix_Some in E. destruct Hd. by exists d.
Qed.
Lemma other_kept base user : filter other (apply_user_flags base user) = filter other (base ++ user).
Proof.
  assert (∀ l : list str, filter other l = filter other (filter plain l)) as E.
  { intros l. rewrite list_filter_filter. apply list_filter_iff. intros f. pose proof (other_plain f). tauto. }
  by rewrite E, plain_kept, <- E.
Qed.

(** C22: With the flags of a user the compiler is told the same of every macro
    without parameters (the flags -DNAME and -DNAME=value, white space around
    the name allowed, and -UNAME, for an identifier NAME) and of the standard
    as if they stood after the flags of the build: the last word on it is the
    same.  Of a macro the user defines one definition is left, and of the
    standard one flag when the user names one; and every flag that begins
    neither with -D nor with -std= is kept, in its place. *)
Theorem user_flags_win base user : let result := apply_user_flags base user in
  (∀ n f, identifier n → last_of (concerns n) result f ↔ last_of (concerns n) (base ++ user) f) ∧
  (∀ f, last_of names_standard result f ↔ last_of names_standard (base ++ user) f) ∧
  (∀ n, identifier n → (∃ g, g ∈ user ∧ defines n g) → ∃ f, sole (defines n) result f) ∧
  ((∃ g, g ∈ user ∧ names_standard g) → ∃ f, sole names_standard result f) ∧
  filter other result = filter other (base ++ user).
Proof.
  cbv zeta. split; [|split; [|split; [|split]]].
  - intros n f Hn. rewrite !(last_of_filter (about n) (concerns n) (λ f, about_concerns n f Hn)), (apply_last (about n)); [done|].
    intros g f' Ho [Hf|Hf]; [left; by eapply overrides_define|by destruct (overrides_undefine n g f')].
  - intros f. rewrite !(last_of_filter (λ f, is_std f = true) names_standard is_std_names), (apply_last (λ f, is_std f = true)); [done|]. exact overrides_std.
  - intros n Hn (g0 & Hg0 & Hd0). destruct (only_last (λ f, define_flag_name f = Some n) base user) as [f Hf].
    + intros g f. apply overrides_define.
    + intros f g Hf Hg. unfold overrides. destruct (is_std g) eqn:Es; [by rewrite (std_no_define g Es) in Hg|].
      rewrite Hg. by apply bool_decide_eq_true.
    + exists g0. by rewrite define_flag_name_iff.
    + exists f. by apply (sole_filter (λ f, define_flag_name f = Some n) (defines n) (λ f, define_flag_name_iff n f Hn)).
  - intros (g0 & Hg0 & Hs0). destruct (only_last (λ f, is_std f = true) base user) as [f Hf].
    + exact overrides_std.
    + intros f g Hf Hg. unfold overrides. by rewrite Hg.
    + exists g0. by rewrite is_std_names.
    + exists f. by apply (sole_filter (λ f, is_std f = true) names_standard is_std_names).
  - apply other_kept.
Qed.

(** A macro with parameters and one without are taken for two macros. *)
Lemma function_macro_kept : apply_user_flags [&"-DF(x)=1"] [&"-DF=2"] = [&"-DF(x)=1"; &"-DF=2"].
Proof. vm_compute. reflexivity. Qed.
