(* ===== verification/CrashDecoder.v ===== *)
(** * Crash traces, [fbuild-serial/src/crash_decoder.rs]

    The machine that finds crash dumps among the lines of a serial port and
    has [addr2line] name the places.  The matches of the regular expressions,
    the hash of a dump, the clock and the answers of [addr2line] are
    arguments. *)
From S2P Require Import Prelude RustStr CachePaths PathBuf NormPath SerialManager.
Local Open Scope Z.

(** ** What a dump looks like *)

Definition CRASH_START_PATTERNS : list str :=
  [&"Guru Meditation Error"; &"panic'ed"; &"Core  0 register dump"; &"Core  1 register dump"; &"LoadProhibited";
   &"StoreProhibited"; &"Unhandled exception"; &"abort() was called"; &"Task watchdog got triggered"].
Definition DEBOUNCE_SECONDS : Z := 10.
Definition ADDR2LINE_TIMEOUT : Z := 5.

Definition riscv_register_re : str := &"(?:MEPC|RA|SP|GP|TP|T[0-6]|S[0-9]|S1[01]|A[0-7])\s*:\s*" ++ &"(0x[0-9a-fA-F]+)".
Definition xtensa_backtrace_re : str := &"Backtrace:\s*" ++ &"((?:0x[0-9a-fA-F]+:0x[0-9a-fA-F]+\s*" ++ &")+)".
Definition xtensa_addr_pair_re : str := &"(0x[0-9a-fA-F]+):0x[0-9a-fA-F]+".
Definition stack_pointer_re : str := &"0x(?:3[CcFf]|4[02]|50)[0-9a-fA-F]{6}".
Definition abort_pc_re : str := &"abort\(\) was called at PC (0x[0-9a-fA-F]+)".

Definition detect_crash_start (line : str) : bool := existsb (λ p, contains p line) CRASH_START_PATTERNS.
Definition is_marker (line : str) : bool := contains (&"ELF file SHA256") line || contains (&"Rebooting...") line.
Definition is_blank (line : str) : bool := bool_decide (trim line = []).

(** ** The world at one line *)

Record ToolOutput := { stdout : str; stderr : str; exit_code : Z }.
Inductive CommandError := Timeout | Failed (e : str).
Record Moment := { now : Z; run_command : list str → Z → result CommandError ToolOutput }.

Inductive DecoderState := Idle | Accumulating.
Record CrashDecoder := {
  elf_path : option PathBuf;
  addr2line_path : option PathBuf;
  state : DecoderState;
  buffer : list str;
  blank_line_count : Z;
  last_crash_hash : option Z;
  last_crash_time : option Z;
  warned_no_elf : bool;
  warned_no_addr2line : bool;
}.
Definition new (elf a2l : option PathBuf) : CrashDecoder :=
  {| elf_path := elf; addr2line_path := a2l; state := Idle; buffer := []; blank_line_count := 0;
     last_crash_hash := None; last_crash_time := None; warned_no_elf := false; warned_no_addr2line := false |}.
Definition can_decode (d : CrashDecoder) : bool := bool_decide (is_Some (elf_path d)) && bool_decide (is_Some (addr2line_path d)).
Definition is_accumulating (d : CrashDecoder) : bool := match state d with Accumulating => true | Idle => false end.

Definition with_lines (st : DecoderState) (buf : list str) (n : Z) (d : CrashDecoder) : CrashDecoder :=
  {| elf_path := elf_path d; addr2line_path := addr2line_path d; state := st; buffer := buf; blank_line_count := n;
     last_crash_hash := last_crash_hash d; last_crash_time := last_crash_time d;
     warned_no_elf := warned_no_elf d; warned_no_addr2line := warned_no_addr2line d |}.
Definition with_crash (h t : Z) (d : CrashDecoder) : CrashDecoder :=
  {| elf_path := elf_path d; addr2line_path := addr2line_path d; state := state d; buffer := buffer d;
     blank_line_count := blank_line_count d; last_crash_hash := Some h; last_crash_time := Some t;
     warned_no_elf := warned_no_elf d; warned_no_addr2line := warned_no_addr2line d |}.
Definition with_warned (elf a2l : bool) (d : CrashDecoder) : CrashDecoder :=
  {| elf_path := elf_path d; addr2line_path := addr2line_path d; state := state d; buffer := buffer d;
     blank_line_count := blank_line_count d; last_crash_hash := last_crash_hash d; last_crash_time := last_crash_time d;
     warned_no_elf := elf; warned_no_addr2line := a2l |}.

Definition no_elf_text : str := &"  [crash decode disabled — no firmware.elf found]".
Definition no_addr2line_text : str := &"  [crash decode disabled — addr2line not found]".
Definition duplicate_text : str := &"  [crash decode skipped — duplicate within debounce window]".

Definition accumulate (line : str) (d : CrashDecoder) : CrashDecoder :=
  with_lines Accumulating (buffer d ++ [line]) (if is_blank line then blank_line_count d else 0) d.
Definition detect_crash_end (line : str) (d : CrashDecoder) : bool * CrashDecoder :=
  if is_marker line then (true, with_lines (state d) (buffer d ++ [line]) (blank_line_count d) d)
  else if is_blank line then
    let n := blank_line_count d + 1 in (2 <=? n, with_lines (state d) (buffer d) n d)
  else (false, with_lines (state d) (buffer d) 0 d).
Definition reset (d : CrashDecoder) : CrashDecoder := with_lines Idle [] 0 d.

(** ** Addresses *)

(** Text whose lower case has been seen is left out. *)
Fixpoint first_spellings (seen : gset str) (found : list str) : list str :=
  match found with
  | [] => []
  | a :: found =>
      let low := to_ascii_lowercase a in
      if decide (low ∈ seen) then first_spellings seen found else a :: first_spellings ({[low]} ∪ seen) found
  end.
Definition is_code (a : str) : bool :=
  let low := to_ascii_lowercase a in starts_with (&"0x40") low || starts_with (&"0x42") low.

(** ** addr2line *)

Definition keep_line (raw_line : str) : option str :=
  let stripped := trim raw_line in
  if decide (stripped = [] ∨ stripped = &"??:0" ∨ stripped = &"?? ??:0") then None else Some (&"  " ++ stripped).
Definition format_trace (stdout : str) : list str :=
  let output_lines := [[]; &"=== Decoded Stack Trace ==="] ++ omap keep_line (lines (trim stdout)) ++ [&"==========================="; []] in
  if (length output_lines <=? 4)%nat then [] else output_lines.
Definition run_addr2line (m : Moment) (a2l elf : PathBuf) (addresses : list str) : list str :=
  match run_command m ([path_text a2l; &"-pfiaC"; &"-e"; path_text elf] ++ addresses) ADDR2LINE_TIMEOUT with
  | Err Timeout => [&"  [crash decode timed out]"]
  | Err (Failed e) => [&"  [crash decode error: " ++ e ++ &"]"]
  | Ok r => if exit_code r =? 0 then format_trace (stdout r) else [&"  [addr2line error: " ++ trim (stderr r) ++ &"]"]
  end.

Section Decoder.
Context (captures find_iter : str → str → list str) (hash : list str → Z).

Definition found (full_text : str) : list str :=
  captures abort_pc_re full_text ++
  (captures xtensa_backtrace_re full_text ≫= captures xtensa_addr_pair_re) ++
  filter (λ a, is_code a = true) (captures riscv_register_re full_text) ++
  filter (λ a, is_code a = true) (find_iter stack_pointer_re full_text).
Definition extract_addresses (buffer : list str) : list str := first_spellings ∅ (found (RustStr.join [nl] buffer)).

(** ** The machine *)

(** [now.duration_since(prev).as_secs_f64() < 10.0], in nanoseconds. *)
Definition within_window (now prev : Z) : bool := Z.max 0 (now - prev) <? DEBOUNCE_SECONDS * 10 ^ 9.
Definition is_duplicate_crash (now : Z) (d : CrashDecoder) : bool * CrashDecoder :=
  let crash_hash := hash (buffer d) in
  let is_dup := match last_crash_hash d, last_crash_time d with
                | Some prev_hash, Some prev_time => bool_decide (prev_hash = crash_hash) && within_window now prev_time
                | _, _ => false
                end in
  (is_dup, with_crash crash_hash now d).

Definition decode (m : Moment) (d : CrashDecoder) : list str * CrashDecoder :=
  match buffer d with
  | [] => ([], d)
  | _ =>
      match elf_path d with
      | None => if warned_no_elf d then ([], d) else ([no_elf_text], with_warned true (warned_no_addr2line d) d)
      | Some elf =>
          match addr2line_path d with
          | None => if warned_no_addr2line d then ([], d) else ([no_addr2line_text], with_warned (warned_no_elf d) true d)
          | Some a2l =>
              let '(dup, d) := is_duplicate_crash (now m) d in
              if dup then ([duplicate_text], d)
              else match extract_addresses (buffer d) with
                   | [] => ([], d)
                   | addresses => (run_addr2line m a2l elf addresses, d)
                   end
          end
      end
  end.

Definition process_line (m : Moment) (line : str) (d : CrashDecoder) : option (list str) * CrashDecoder :=
  match state d with
  | Idle => (None, if detect_crash_start line then accumulate line d else d)
  | Accumulating =>
      let '(ended, d) := detect_crash_end line d in
      if ended then
        let '(decoded, d) := decode m d in
        (match decoded with [] => None | _ => Some decoded end, reset d)
      else (None, accumulate line d)
  end.

Fixpoint process_lines (events : list (Moment * str)) (d : CrashDecoder) : list (option (list str)) * CrashDecoder :=
  match events with
  | [] => ([], d)
  | (m, line) :: events =>
      let '(out, d) := process_line m line d in
      let '(outs, d) := process_lines events d in (out :: outs, d)
  end.

(** ** What should be reported *)

Context (elf a2l : option PathBuf).

(** Of a dump at a moment, when the dump before it was [prev]. *)
Definition report (prev : option (list str * Moment)) (dump : list str) (m : Moment) : list str :=
  match elf, a2l with
  | None, _ => match prev with None => [no_elf_text] | Some _ => [] end
  | Some _, None => match prev with None => [no_addr2line_text] | Some _ => [] end
  | Some elf, Some a2l =>
      if match prev with Some (before, m') => bool_decide (hash before = hash dump) && within_window (now m) (now m') | None => false end
      then [duplicate_text]
      else match extract_addresses dump with [] => [] | addresses => run_addr2line m a2l elf addresses end
  end.
Definition shown (text : list str) : option (list str) := match text with [] => None | _ => Some text end.

(** Lines that may stand within a dump. *)
Definition open_body (body : list str) : Prop :=
  Forall (λ l, is_marker l = false) body ∧
  ∀ before b1 b2 after, body = before ++ b1 :: b2 :: after → is_blank b1 = true → is_blank b2 = true → False.

(** The lines of a dump, and its text: a marker ends it and belongs to it,
    the second of two blank lines ends it and does not. *)
Inductive Dump : list str → list str → Prop :=
  | marker_dump start body e : detect_crash_start start = true → open_body body → is_marker e = true →
      Dump (start :: body ++ [e]) (start :: body ++ [e])
  | blank_dump start body b1 b2 : detect_crash_start start = true → open_body (body ++ [b1]) →
      is_blank b1 = true → is_blank b2 = true → is_marker b2 = false → Dump (start :: body ++ [b1; b2]) (start :: body ++ [b1]).

(** What is shown after each line: nothing, but after the last line of a dump
    its report. *)
Inductive Heard (prev : option (list str * Moment)) : list (Moment * str) → list (option (list str)) → Prop :=
  | heard_nothing : Heard prev [] []
  | heard_quiet m line events outs : detect_crash_start line = false → Heard prev events outs →
      Heard prev ((m, line) :: events) (None :: outs)
  | heard_open dump : (∃ start body, dump.*2 = start :: body ∧ detect_crash_start start = true ∧ open_body body) →
      Heard prev dump (replicate (length dump) None)
  | heard_dump dump m line text events outs : Dump (dump ++ [(m, line)]).*2 text → Heard (Some (text, m)) events outs →
      Heard prev (dump ++ (m, line) :: events) (replicate (length dump) None ++ shown (report prev text m) :: outs).

End Decoder.

Definition remove_exe : str → str := (fix go (skip : nat) (s : str) : str :=
  match s with
  | [] => []
  | c :: rest => match skip with
                 | S skip => go skip rest
                 | O => if starts_with (&".exe") s then go 3%nat rest else c :: go O rest
                 end
  end) O.
Definition native_name (is_windows : bool) (stem : str) : str := if is_windows then stem ++ &".exe" else stem.
Definition derive_addr2line_path (is_windows : bool) (exists_ : PathBuf → bool) (cc_path : PathBuf) : option PathBuf :=
  name ← file_name cc_path;
  let stem := remove_exe (from_utf8_lossy name) in
  if ends_with (&"gcc") stem then
    dir ← parent cc_path;
    let addr2line := dir ++ [Normal (native_name is_windows (take (length stem - 3) stem ++ &"addr2line"))] in
    if exists_ addr2line then Some addr2line else None
  else None.

(** ** The machine reports what it should *)

(** The dump ends in a blank line. *)
Definition blank_end (body : list str) : bool := match last body with Some l => is_blank l | None => false end.

Lemma blank_end_true body : blank_end body = true → ∃ body' b, body = body' ++ [b] ∧ is_blank b = true.
Proof.
  unfold blank_end. destruct body as [|b body _] using rev_ind; [done|]. rewrite last_snoc. eauto.
Qed.
Lemma open_nil : open_body [].
Proof. split; [constructor|]. by intros []. Qed.
Lemma open_snoc body l : open_body (body ++ [l]) ↔ open_body body ∧ is_marker l = false ∧ blank_end body && is_blank l = false.
Proof.
  unfold open_body. rewrite Forall_app, Forall_singleton. split.
  - intros [[Hm Hl] Hb]. split_and!; [done| |done|].
    + intros before b1 b2 after -> H1 H2. eapply (Hb before b1 b2 (after ++ [l])); [by rewrite <- app_assoc|done..].
    + apply not_true_iff_false. intros [(body' & b & -> & Hb1)%blank_end_true Hb2]%andb_true_iff.
      eapply (Hb body' b l []); [by rewrite <- app_assoc|done..].
  - intros ((Hm & Hb) & Hl & Hn). split; [done|]. intros before b1 b2 after E H1 H2.
    destruct after as [|x after _] using rev_ind.
    + change (before ++ [b1; b2]) with (before ++ [b1] ++ [b2]) in E. rewrite (assoc_L (++)) in E.
      apply app_inj_tail in E as [-> ->]. unfold blank_end in Hn. rewrite last_snoc, H1, H2 in Hn. done.
    + change (before ++ b1 :: b2 :: after ++ [x]) with (before ++ (b1 :: b2 :: after) ++ [x]) in E. rewrite (assoc_L (++)) in E.
      apply app_inj_tail in E as [-> ->]. by eapply Hb.
Qed.

Section Machine.
Context (captures find_iter : str → str → list str) (hash : list str → Z) (elf a2l : option PathBuf).
Notation process := (process_line captures find_iter hash).
Notation run := (process_lines captures find_iter hash).
Notation rep := (report captures find_iter hash elf a2l).
Notation Heard := (Heard captures find_iter hash elf a2l).

(** What is remembered of the dumps before. *)
Definition ready (prev : option (list str * Moment)) (d : CrashDecoder) : Prop :=
  elf_path d = elf ∧ addr2line_path d = a2l ∧
  match elf, a2l with
  | None, _ => warned_no_elf d = bool_decide (is_Some prev)
  | Some _, None => warned_no_addr2line d = bool_decide (is_Some prev)
  | Some _, Some _ => last_crash_hash d = hash ∘ fst <$> prev ∧ last_crash_time d = now ∘ snd <$> prev
  end.
Definition idle (d : CrashDecoder) : Prop := state d = Idle ∧ buffer d = [] ∧ blank_line_count d = 0.
Definition holding (start : str) (body : list str) (d : CrashDecoder) : Prop :=
  state d = Accumulating ∧ buffer d = start :: body ∧ blank_line_count d = if blank_end body then 1 else 0.

Lemma decode_report prev m d : ready prev d → buffer d ≠ [] →
  (decode captures find_iter hash m d).1 = rep prev (buffer d) m ∧
  ready (Some (buffer d, m)) (decode captures find_iter hash m d).2.
Proof.
  unfold ready, decode, report. intros (He & Ha & Hr) Hne. destruct (buffer d) as [|s body] eqn:Eb; [done|].
  rewrite He. destruct elf as [e|]; [rewrite Ha; destruct a2l as [a|]|].
  - destruct Hr as [Hh Ht]. unfold is_duplicate_crash. rewrite Hh, Ht, Eb.
    destruct prev as [[before m']|]; cbn [fmap option_fmap option_map compose fst snd with_crash buffer]; rewrite ?Eb;
      [destruct (bool_decide _ && within_window _ _); [done|]|]; destruct (extract_addresses _ _ (s :: body)); done.
  - rewrite Hr. destruct prev as [p|]; cbn; [done|]. done.
  - rewrite Hr. destruct prev as [p|]; cbn; done.
Qed.

Lemma run_app es fs d : run (es ++ fs) d =
  ((run es d).1 ++ (run fs (run es d).2).1, (run fs (run es d).2).2).
Proof.
  revert d. induction es as [|[m l] es IH]; intros d; [cbn; by destruct (run fs d)|].
  cbn [app process_lines]. destruct (process m l d) as [o d1]. rewrite IH. by destruct (run es d1).
Qed.

Lemma start_holds prev m start d : idle d → ready prev d → detect_crash_start start = true →
  ∃ d', process m start d = (None, d') ∧ holding start [] d' ∧ ready prev d'.
Proof.
  intros (Hs & Hb & Hn) Hr Hd. unfold process_line. rewrite Hs, Hd. eexists. split; [done|]. split; [|done].
  unfold holding, accumulate. cbn. rewrite Hb, Hn. by destruct (is_blank start).
Qed.

Lemma body_holds prev m start body l d : holding start body d → ready prev d → open_body (body ++ [l]) →
  ∃ d', process m l d = (None, d') ∧ holding start (body ++ [l]) d' ∧ ready prev d'.
Proof.
  intros (Hs & Hb & Hn) Hr (_ & Hm & Ho)%open_snoc. unfold process_line, detect_crash_end. rewrite Hs, Hm.
  unfold holding. unfold blank_end at 1. rewrite last_snoc. destruct (is_blank l) eqn:El.
  - rewrite andb_true_r in Ho. rewrite Ho in Hn. rewrite Hn. cbn. eexists. split; [done|]. unfold accumulate. cbn. by rewrite Hb, El.
  - eexists. split; [done|]. unfold accumulate. cbn. by rewrite Hb, El.
Qed.

Lemma open_run prev start dump d : dump.*2 = start :: tail dump.*2 → detect_crash_start start = true → open_body (tail dump.*2) →
  idle d → ready prev d →
  (run dump d).1 = replicate (length dump) None ∧ holding start (tail dump.*2) (run dump d).2 ∧ ready prev (run dump d).2.
Proof.
  intros Hd Hs Ho Hi Hr. destruct dump as [|[m x] body]; [done|]. cbn in Hd, Ho |- *. injection Hd as ->.
  destruct (start_holds prev m start d Hi Hr Hs) as (d1 & -> & Hh & Hr1). clear Hi Hr d.
  destruct (run body d1) as [outs d2] eqn:E. cbn. revert outs d2 E.
  induction body as [|[m' l] body IH] using rev_ind; intros outs d2 E; [by injection E as <- <-|].
  rewrite fmap_app in Ho |- *. rewrite run_app in E. destruct (run body d1) as [o3 d3].
  destruct (IH (proj1 (proj1 (open_snoc _ _) Ho)) o3 d3 eq_refl) as (Ho3 & Hh3 & Hr3).
  destruct (body_holds prev m' start body.*2 l d3 Hh3 Hr3 Ho) as (d4 & Hp & Hh4 & Hr4).
  cbn in E. rewrite Hp in E. injection E as <- <-. injection Ho3 as ->. rewrite length_app, Nat.add_1_r, replicate_S_end.
  by rewrite app_comm_cons, <- replicate_S.
Qed.

Lemma end_reports prev m start body e text d : holding start body d → ready prev d →
  (is_marker e = true ∧ text = start :: body ++ [e]) ∨
  (is_marker e = false ∧ is_blank e = true ∧ blank_end body = true ∧ text = start :: body) →
  ∃ d', process m e d = (shown (rep prev text m), d') ∧ idle d' ∧ ready (Some (text, m)) d'.
Proof.
  intros (Hs & Hb & Hn) Hr Hend. unfold process_line. rewrite Hs.
  assert (∃ d1, detect_crash_end e d = (true, d1) ∧ buffer d1 = text ∧ ready prev d1) as (d1 & -> & Ht & Hr1).
  { unfold detect_crash_end. destruct Hend as [[-> ->]|(-> & -> & Hbe & ->)]; eexists.
    - split; [done|]. cbn. by rewrite Hb.
    - rewrite Hn, Hbe. split; [done|]. by cbn. }
  assert (buffer d1 ≠ []) as Hne by (rewrite Ht; destruct Hend as [[_ ->]|(_ & _ & _ & ->)]; done).
  destruct (decode_report prev m d1 Hr1 Hne) as [Hd Hr2]. rewrite Ht in Hd, Hr2.
  destruct (decode captures find_iter hash m d1) as [decoded d2]. cbn in Hd, Hr2. subst decoded. by exists (reset d2).
Qed.

(** A dump is a line that starts one, an open body, and a line that ends it. *)
Lemma Dump_snoc dump e text : Dump (dump ++ [e]) text ↔ ∃ start body, dump = start :: body ∧
  detect_crash_start start = true ∧ open_body body ∧
  ((is_marker e = true ∧ text = start :: body ++ [e]) ∨
   (is_marker e = false ∧ is_blank e = true ∧ blank_end body = true ∧ text = start :: body)).
Proof.
  split.
  - intros Hd. inversion Hd as [s b e' Hs Ho He E|s b b1 b2 Hs Ho H1 H2 Hm E]; subst.
    + rewrite app_comm_cons in E. apply app_inj_tail in E as [<- <-]. eauto 10.
    + change [b1; b2] with ([b1] ++ [b2]) in E. rewrite (assoc_L (++)), app_comm_cons in E. apply app_inj_tail in E as [<- <-].
      exists s, (b ++ [b1]). split_and!; [done..|]. right. unfold blank_end. by rewrite last_snoc.
  - intros (s & b & -> & Hs & Ho & [[He ->]|(Hm & He & (b' & x & -> & Hx)%blank_end_true & ->)]).
    + by apply marker_dump.
    + cbn [app]. rewrite <- app_assoc. by apply blank_dump.
Qed.

Lemma heard_run prev events outs : Heard prev events outs → ∀ d, idle d → ready prev d → (run events d).1 = outs.
Proof.
  induction 1 as [prev|prev m line events outs Hl _ IH|prev dump (s & b & Hd & Hs & Ho)|prev dump m line text events outs Hd _ IH];
    intros d Hi Hr; [done|..].
  - cbn [process_lines]. unfold process_line. destruct (Hi) as (-> & _ & _). rewrite Hl.
    specialize (IH d Hi Hr). destruct (run events d). cbn in *. by subst.
  - by eapply (open_run prev s); rewrite ?Hd.
  - rewrite fmap_app in Hd. apply Dump_snoc in Hd as (s & b & Hd & Hs & Ho & He).
    destruct (open_run prev s dump d) as (E1 & Hh & Hr1); [by rewrite Hd|done|by rewrite Hd|done|done|]. rewrite Hd in Hh. cbn in Hh.
    rewrite run_app, E1. cbn [fst process_lines]. f_equal.
    destruct (end_reports prev m s b line text _ Hh Hr1 He) as (d2 & -> & Hi2 & Hr2).
    specialize (IH d2 Hi2 Hr2). destruct (run events d2). cbn in *. by subst.
Qed.

Lemma body_splits (ls : list (Moment * str)) : open_body ls.*2 ∨ ∃ body m e rest, ls = body ++ (m, e) :: rest ∧
  open_body body.*2 ∧ (is_marker e = true ∨ is_marker e = false ∧ is_blank e = true ∧ blank_end body.*2 = true).
Proof.
  induction ls as [|[m l] ls IH] using rev_ind; [left; apply open_nil|].
  destruct IH as [Ho|(body & m' & e & rest & -> & Ho & He)].
  - destruct (is_marker l) eqn:Em; [right; exists ls, m, l, []; auto|].
    destruct (blank_end ls.*2) eqn:Eb, (is_blank l) eqn:El.
    { right. exists ls, m, l, []. auto 10. }
    all: left; rewrite fmap_app; apply (open_snoc _ l); rewrite Eb, El; auto.
  - right. exists body, m', e, (rest ++ [(m, l)]). by rewrite <- app_assoc.
Qed.

Lemma heard_exists prev events : ∃ outs, Heard prev events outs.
Proof.
  revert prev. induction events as [events IH] using (well_founded_induction (well_founded_ltof _ (@length (Moment * str)))). intros prev.
  destruct events as [|[m line] events]; [eexists; constructor|].
  destruct (detect_crash_start line) eqn:Es.
  - destruct (body_splits events) as [Ho|(body & m' & e & rest & -> & Ho & He)].
    + eexists. apply heard_open. cbn. eauto.
    + set (text := line :: if is_marker e then body.*2 ++ [e] else body.*2).
      destruct (IH rest) with (prev := Some (text, m')) as [outs Hrest]; [unfold ltof; cbn; rewrite length_app; cbn; lia|].
      eexists. rewrite app_comm_cons. apply (heard_dump _ _ _ _ _ _ ((m, line) :: body) m' e text); [|exact Hrest].
      rewrite fmap_app. apply Dump_snoc. exists line, body.*2. split_and!; [done..|]. unfold text.
      cbn [snd]. destruct He as [->|(-> & Hb & Hbe)]; auto 10.
  - destruct (IH events) with (prev := prev) as [outs Hrest]; [unfold ltof; cbn; lia|]. eexists. by apply heard_quiet.
Qed.

Lemma ready_new : ready None (new elf a2l).
Proof. unfold ready. by destruct elf, a2l. Qed.

Lemma idle_new : idle (new elf a2l).
Proof. by split_and!. Qed.

Lemma run_heard events outs : (run events (new elf a2l)).1 = outs ↔ Heard None events outs.
Proof.
  split.
  - intros <-. destruct (heard_exists None events) as [outs Ho]. by rewrite (heard_run None events outs Ho _ idle_new ready_new).
  - intros Ho. apply (heard_run None); [done|apply idle_new|apply ready_new].
Qed.

(** ** The decoder of a port *)

Fixpoint process_crash_lines (p : str) (events : list (Moment * str)) (m : SharedSerialManager CrashDecoder) :
    list (option (list str)) * SharedSerialManager CrashDecoder :=
  match events with
  | [] => ([], m)
  | (w, line) :: events =>
      let '(out, m) := process_crash_line (process w) p line m in
      let '(outs, m) := process_crash_lines p events m in (out :: outs, m)
  end.

Lemma process_crash_lines_run p events m d : crash_decoders m !! resolve_port_key p m = Some d →
  (process_crash_lines p events m).1 = (run events d).1.
Proof.
  revert m d. induction events as [|[w line] events IH]; intros m d Hd; [done|]. cbn [process_crash_lines process_lines].
  unfold process_crash_line. rewrite Hd. destruct (process w line d) as [out d'] eqn:E.
  match goal with |- context [process_crash_lines p events ?m'] => pose proof (IH m' d') as IH' end.
  cbn [crash_decoders set_decoders] in IH' |- *. rewrite insert_delete_eq in IH' |- *.
  destruct (process_crash_lines _ _ _) as [outs m2], (run events d') as [outs2 d2]. cbn in *. f_equal. apply IH'. apply lookup_insert_eq.
Qed.

(** C24: After [set_crash_decoder], what a port's lines show is what [Heard]
    says: a dump begins with a line that names a crash and ends with a marker,
    which belongs to it, or the second of two blank lines, which does not; its
    report follows its last line and nothing is shown elsewhere.  The report
    is, once, that decoding is disabled when a tool is missing, that the dump
    is a duplicate if the one before was the same less than ten seconds ago,
    and else what [addr2line] makes of its addresses. *)
Theorem crashes_reported p events m outs :
  (process_crash_lines p events (set_crash_decoder p (new elf a2l) m)).1 = outs ↔ Heard None events outs.
Proof.
  rewrite (process_crash_lines_run p events _ (new elf a2l)); [apply run_heard|]. apply lookup_insert_eq.
Qed.

(** ** Addresses, each once *)

Lemma first_spellings_spec seen l :
  NoDup (to_ascii_lowercase <$> first_spellings seen l) ∧
  (∀ a, a ∈ first_spellings seen l → a ∈ l ∧ to_ascii_lowercase a ∉ seen) ∧
  (∀ a, a ∈ l → to_ascii_lowercase a ∉ seen → to_ascii_lowercase a ∈ to_ascii_lowercase <$> first_spellings seen l).
Proof.
  revert seen. induction l as [|x l IH]; intros seen; cbn [first_spellings].
  { split_and!; [constructor|set_solver|set_solver]. }
  destruct (decide (to_ascii_lowercase x ∈ seen)) as [Hx|Hx].
  - destruct (IH seen) as (H1 & H2 & H3). split_and!; [done|set_solver|].
    intros a [->|Ha]%elem_of_cons Hn; [done|auto].
  - destruct (IH ({[to_ascii_lowercase x]} ∪ seen)) as (H1 & H2 & H3). rewrite fmap_cons. split_and!.
    + apply NoDup_cons. split; [|done]. intros (a & E & Ha)%list_elem_of_fmap. destruct (H2 a Ha) as [_ Hn]. apply Hn. set_solver.
    + intros a [->|Ha]%elem_of_cons; [set_solver|]. destruct (H2 a Ha). set_solver.
    + intros a Ha Hn. apply elem_of_cons. destruct (decide (to_ascii_lowercase a = to_ascii_lowercase x)) as [|Hne]; [by left|right].
      apply elem_of_cons in Ha as [->|Ha]; [done|]. apply H3; [done|]. set_solver.
Qed.

(** The addresses of a dump are the ones found, each in one spelling. *)
Lemma extract_addresses_spec dump : let addresses := extract_addresses captures find_iter dump in
  let all := found captures find_iter (RustStr.join [nl] dump) in
  NoDup (to_ascii_lowercase <$> addresses) ∧ addresses ⊆ all ∧
  ∀ a, a ∈ all → to_ascii_lowercase a ∈ to_ascii_lowercase <$> addresses.
Proof.
  cbv zeta. destruct (first_spellings_spec ∅ (found captures find_iter (RustStr.join [nl] dump))) as (H1 & H2 & H3).
  split_and!; [done|intros a Ha; by apply H2|intros a Ha; apply H3; [done|set_solver]].
Qed.

(** A dump that nothing ends is kept whole, however long. *)
Lemma buffer_unbounded m n : length (buffer (run ((m, &"panic'ed") :: replicate n (m, &"hello")) (new elf a2l)).2) = S n.
Proof.
  destruct (open_run None (&"panic'ed") ((m, &"panic'ed") :: replicate n (m, &"hello")) (new elf a2l)) as (_ & (_ & -> & _) & _);
    [done|by vm_compute| |apply idle_new|apply ready_new|].
  - cbn [fmap list_fmap tail snd]. rewrite fmap_replicate. cbn [snd]. induction n as [|n IH]; [apply open_nil|].
    rewrite replicate_S_end. apply open_snoc. split_and!; [done|by vm_compute|]. apply andb_false_iff. right. by vm_compute.
  - cbn [fmap list_fmap tail snd length]. by rewrite length_fmap, length_replicate.
Qed.
End Machine.

(** ** Dumps *)

Definition words (pattern text : str) : list str :=
  if decide (pattern = stack_pointer_re) then filter (λ w, starts_with (&"0x") w = true) (split_by is_ascii_whitespace text) else [].
Definition none_found (pattern text : str) : list str := [].
Definition text_hash (dump : list str) : Z := Z.of_nat (length (concat dump)).
Definition at_second (t : Z) : Moment :=
  {| now := t * 10 ^ 9; run_command := λ args _, Ok {| stdout := default [] (last args) ++ &" in loop"; stderr := []; exit_code := 0 |} |}.
Definition tools : CrashDecoder := new (Some [Normal (&"fw.elf")]) (Some [Normal (&"addr2line")]).
Definition dump_at (t : Z) : list (Moment * str) :=
  pair (at_second t) <$> [&"abort() was called"; []; &"0x42001234 0x42001234"; &"Rebooting..."].
Definition heard (events : list (Moment * str)) := (process_lines none_found words text_hash events tools).1.
Definition trace : option (list str) :=
  Some [[]; &"=== Decoded Stack Trace ==="; &"  0x42001234 in loop"; &"==========================="; []].

Example dump_is_decoded : heard (dump_at 0) = [None; None; None; trace].
Proof. vm_compute. reflexivity. Qed.

(** Every repetition starts the ten seconds anew: the third dump comes 18
    seconds after the one that was decoded. *)
Example window_slides : heard (dump_at 0 ++ dump_at 9 ++ dump_at 18) =
  [None; None; None; trace; None; None; None; Some [duplicate_text]; None; None; None; Some [duplicate_text]].
Proof. vm_compute. reflexivity. Qed.

(** Two clients of a port feed one decoder, each with every line: a blank line
    counts twice and ends the dump before its addresses. *)
Example two_clients_cut_dump : heard (dump_at 0 ≫= λ e, [e; e]) = replicate 8 None.
Proof. vm_compute. reflexivity. Qed.
