(* ===== verification/SerialSocket.v ===== *)
(** * Serial monitors over a socket, [fbuild-daemon/src/handlers/websockets.rs]

    The handler of [/ws/serial-monitor]: the handshake, and the three tasks of
    an attached client with the channels between them.  What a receiver
    answers, a socket brings or a send returns is the argument of the step
    that waits for it; a turn of a task between two waits is one step, and a
    history is any sequence of steps.  A channel is all that was sent on it
    and how much of it was received.  Messages are taken before they are
    written as JSON. *)
From S2P Require Import Prelude RustStr SerialReader SerialManager.
Local Open Scope Z.

(** ** Messages: [fbuild-serial/src/messages.rs] *)

Module Client.
Inductive SerialClientMessage :=
  | Attach (client_id port : str) (baud_rate : Z) (open_if_needed pre_acquire_writer : bool) (client_metadata : option SerialClientMetadata)
  | Write (data : str)
  | Detach
  | ClearBuffer
  | GetInWaiting.
End Client.

Module Server.
Inductive SerialServerMessage :=
  | Attached (success : bool) (message : str) (writer_pre_acquired : bool)
  | Data (lines : list str) (current_index : Z)
  | Preempted (reason preempted_by : str)
  | Reconnected (message : str)
  | PortDisconnected (port reason message : str)
  | PortRenumbered (port new_port reason : str) (serial : option str)
  | PortReattached (port previous_port : str)
  | PortRebindFailed (port new_port reason message : str)
  | WriteAck (success : bool) (bytes_written : Z) (message : option str)
  | InWaiting (count : Z)
  | Error (message : str).
End Server.
Import Client Server.
Abbreviation Msg := SerialServerMessage.

(** ** The tasks *)

Inductive ReaderControl := Drain | GetDepth.

(** What [rx.recv()] and [rx.try_recv()] answer. *)
Inductive RecvAnswer := Got (e : SerialStreamEvent) | Lagged (n : Z) | Closed.
Inductive TryAnswer := TryGot (e : SerialStreamEvent) | TryEmpty | TryLagged (n : Z) | TryClosed.

(** What [ws_stream.next()] brings; a text that is no message is [None]. *)
Inductive ClientFrame := Text (m : option SerialClientMessage) | CloseFrame | StreamError | StreamEnd | OtherFrame.

(** Where each task waits. *)
Inductive ReaderState := RSelect | RDecode (line : str) | RExited.
Inductive WriterState := WRecv | WTry (pending : list Msg) | WSend (unsent : list Msg) | WExited.
Inductive InboundState := IRead | IWrite (decoded : str) | IReply (cmd : ReaderControl) | IExited.

(** The tasks, the control channel with its one command and the reply, the
    queue of messages, and the two ends: events taken from the port's channel,
    frames sent to the client. *)
Record Socket := MkSocket {
  reader : ReaderState;
  line_index : Z;
  taken : list SerialStreamEvent;
  inbound : InboundState;
  control : option ReaderControl;
  reply : option Z;
  writer : WriterState;
  pushed : list Msg;
  popped : nat;
  frames : list Msg;
}.
Definition attached : Socket := MkSocket RSelect 0 [] IRead None None WRecv [] 0 [].

Definition set_reader (r : ReaderState) s :=
  MkSocket r (line_index s) (taken s) (inbound s) (control s) (reply s) (writer s) (pushed s) (popped s) (frames s).
Definition set_inbound (i : InboundState) s :=
  MkSocket (reader s) (line_index s) (taken s) i (control s) (reply s) (writer s) (pushed s) (popped s) (frames s).
Definition set_control (c : option ReaderControl) (n : option Z) s :=
  MkSocket (reader s) (line_index s) (taken s) (inbound s) c n (writer s) (pushed s) (popped s) (frames s).
Definition set_writer (w : WriterState) (k : nat) (fs : list Msg) s :=
  MkSocket (reader s) (line_index s) (taken s) (inbound s) (control s) (reply s) w (pushed s) k fs.
Definition take_event (e : SerialStreamEvent) (r : ReaderState) (n : Z) s :=
  MkSocket r n (taken s ++ [e]) (inbound s) (control s) (reply s) (writer s) (pushed s) (popped s) (frames s).

(** [out_tx.send(msg)]: fails once the writer, with the receiver, is gone. *)
Definition writer_gone s : bool := match writer s with WExited => true | _ => false end.
Definition reader_gone s : bool := match reader s with RExited => true | _ => false end.
Definition inbound_gone s : bool := match inbound s with IExited => true | _ => false end.
Definition out_send (msg : Msg) s : bool * Socket :=
  if writer_gone s then (false, s)
  else (true, MkSocket (reader s) (line_index s) (taken s) (inbound s) (control s) (reply s) (writer s) (pushed s ++ [msg]) (popped s) (frames s)).

(** *** READER *)

(** Of an event that is not data. *)
Definition forward (e : SerialStreamEvent) : Msg :=
  match e with
  | SerialManager.Data line => Data [line] 0
  | SerialManager.PortDisconnected p reason message => PortDisconnected p reason message
  | SerialManager.PortRenumbered p new_port reason serial => PortRenumbered p new_port reason serial
  | SerialManager.PortReattached p previous_port => PortReattached p previous_port
  | SerialManager.PortRebindFailed p new_port reason message => PortRebindFailed p new_port reason message
  end.

(** Commands that were not answered are dropped with their replies. *)
Definition reader_exit s : Socket := set_control None (reply s) (set_reader RExited s).

Definition reader_recv (a : RecvAnswer) s : Socket :=
  match reader s with
  | RSelect =>
      match a with
      | Got (SerialManager.Data line) => take_event (SerialManager.Data line) (RDecode line) (line_index s + 1) s
      | Got e => (out_send (forward e) (take_event e RSelect (line_index s) s)).2
      | Lagged _ => s
      | Closed => reader_exit s
      end
  | _ => s
  end.
(** [decoded] is the answer of [process_crash_line]. *)
Definition reader_decoded (decoded : option (list str)) s : Socket :=
  match reader s with
  | RDecode line =>
      let '(ok, s) := out_send (Data (line :: default [] decoded) (line_index s)) s in
      if ok then set_reader RSelect s else reader_exit s
  | _ => s
  end.
(** [while rx.try_recv().is_ok()], by the answers. *)
Fixpoint drain (answers : list TryAnswer) : Z :=
  match answers with TryGot _ :: answers => 1 + drain answers | _ => 0 end.
Definition reader_control (answers : list TryAnswer) (depth : Z) s : Socket :=
  match reader s with
  | RSelect =>
      match control s with
      | Some Drain => set_control None (Some (drain answers)) s
      | Some GetDepth => set_control None (Some depth) s
      | None => if inbound_gone s then reader_exit s else s
      end
  | _ => s
  end.

(** *** WRITER *)

Definition flush (data_batch : list str) (last_index : Z) : list Msg :=
  match data_batch with [] => [] | _ => [Data data_batch last_index] end.
Fixpoint coalesce (data_batch : list str) (last_index : Z) (pending : list Msg) : list Msg :=
  match pending with
  | [] => flush data_batch last_index
  | Data lines current_index :: pending => coalesce (data_batch ++ lines) current_index pending
  | other :: pending => flush data_batch last_index ++ other :: coalesce [] last_index pending
  end.
Definition start_send (pending : list Msg) : WriterState :=
  match coalesce [] 0 pending with [] => WRecv | unsent => WSend unsent end.

(** [ok] is the answer of [ws_sink.send], if the writer waits for that. *)
Definition writer_turn (ok : bool) s : Socket :=
  match writer s with
  | WRecv =>
      match pushed s !! popped s with
      | Some first => set_writer (WTry [first]) (S (popped s)) (frames s) s
      | None => if reader_gone s && inbound_gone s then set_writer WExited (popped s) (frames s) s else s
      end
  | WTry pending =>
      match pushed s !! popped s with
      | Some more =>
          let pending := pending ++ [more] in
          set_writer (if (256 <=? length pending)%nat then start_send pending else WTry pending) (S (popped s)) (frames s) s
      | None => set_writer (start_send pending) (popped s) (frames s) s
      end
  | WSend (f :: unsent) =>
      if ok then set_writer (match unsent with [] => WRecv | _ => WSend unsent end) (popped s) (frames s ++ [f]) s
      else set_writer WExited (popped s) (frames s) s
  | WSend [] => set_writer WRecv (popped s) (frames s) s
  | WExited => s
  end.

(** *** INBOUND *)

Section Inbound.
Context (base64_decode : str → result str str).

Definition inbound_frame (f : ClientFrame) s : Socket :=
  match inbound s with
  | IRead =>
      match f with
      | Text (Some (Write data)) =>
          match base64_decode data with
          | Ok decoded => set_inbound (IWrite decoded) s
          | Err e => (out_send (Error (&"base64 decode error: " ++ e)) s).2
          end
      | Text (Some Detach) | CloseFrame | StreamError | StreamEnd => set_inbound IExited s
      | Text (Some ClearBuffer) =>
          if reader_gone s then s else set_inbound (IReply Drain) (set_control (Some Drain) None s)
      | Text (Some GetInWaiting) =>
          if reader_gone s then (out_send (InWaiting 0) s).2 else set_inbound (IReply GetDepth) (set_control (Some GetDepth) None s)
      | Text (Some (Attach _ _ _ _ _ _)) | Text None | OtherFrame => s
      end
  | _ => s
  end.
(** [r] is the answer of [write_to_port]. *)
Definition inbound_written (r : result str Z) s : Socket :=
  match inbound s with
  | IWrite _ =>
      set_inbound IRead (out_send match r with
                                  | Ok n => WriteAck true n None
                                  | Err e => WriteAck false 0 (Some (&"write error: " ++ e))
                                  end s).2
  | _ => s
  end.
(** The reply has come, or its sender is gone. *)
Definition inbound_replied s : Socket :=
  match inbound s with
  | IReply cmd =>
      let got (n : Z) := set_inbound IRead (set_control (control s) None
        match cmd with Drain => s | GetDepth => (out_send (InWaiting n) s).2 end) in
      match reply s with
      | Some n => got n
      | None => if reader_gone s then got 0 else s
      end
  | _ => s
  end.

(** *** Histories *)

Inductive Event :=
  | Recv (a : RecvAnswer)
  | Decoded (decoded : option (list str))
  | Control (answers : list TryAnswer) (depth : Z)
  | Turn (ok : bool)
  | Frame (f : ClientFrame)
  | Written (r : result str Z)
  | Replied.
Definition step (s : Socket) (e : Event) : Socket :=
  match e with
  | Recv a => reader_recv a s
  | Decoded o => reader_decoded o s
  | Control answers depth => reader_control answers depth s
  | Turn ok => writer_turn ok s
  | Frame f => inbound_frame f s
  | Written r => inbound_written r s
  | Replied => inbound_replied s
  end.
Definition run (events : list Event) : Socket := foldl step attached events.
End Inbound.

(** When the handler records activity of the daemon. *)
Definition touches_activity (e : Event) s : bool :=
  match e with
  | Recv (Got (SerialManager.Data _)) => match reader s with RSelect => true | _ => false end
  | Frame (Text (Some (Write _))) => match inbound s with IRead => true | _ => false end
  | _ => false
  end.

(** The first task to end ends the session. *)
Definition session_over s : bool := writer_gone s || inbound_gone s || reader_gone s.

(** ** The handshake and the clean-up, on the serial manager *)

Definition WS_ATTACH_HANDSHAKE_TIMEOUT : Z := 10.
Definition WS_SERIAL_OPEN_PORT_TIMEOUT : Z := 3000.
Definition format_timeout_for_error (millis : Z) : str :=
  if (0 <? millis) && (millis <? 1000) then decimal millis ++ &"ms" else decimal (millis / 1000) ++ &"s".

(** How [open_port] ended within its time; [None]: it did not. *)
Definition await_ws_serial_open_port (port : str) (ended : option (result str unit)) (timeout : Z) : result str unit :=
  match ended with
  | Some (Ok tt) => Ok tt
  | Some (Err e) => Err (&"failed to open port: " ++ e)
  | None => Err (&"open_port(" ++ port ++ &") exceeded " ++ format_timeout_for_error timeout ++ &"; serial driver may be wedged")
  end.

(** The first frame; a text is a message or what is wrong with it. *)
Inductive FirstFrame := NoFrameInTime | FirstText (m : result str SerialClientMessage) | NoText.

Section Handshake.
Context {D : Type}.
Implicit Types m : SharedSerialManager D.

Definition cleanup_ws_serial_session (port client_id : str) (writer_acquired : bool) (now : f64) m :
    option (str * Z) * SharedSerialManager D :=
  let m := detach_reader port client_id now m in
  let m := if writer_acquired then release_writer port client_id now m else m in
  if has_clients port m then (None, m) else grace_schedule port m.

(** Up to the opening of the port: the reply that refuses, or the request. *)
Definition first_frame (f : FirstFrame) : option Msg + SerialClientMessage :=
  match f with
  | NoFrameInTime => inl (Some (Error (&"attach handshake not received within " ++ decimal WS_ATTACH_HANDSHAKE_TIMEOUT ++ &"s; closing connection")))
  | FirstText (Ok (Attach c p b o w md)) => inr (Attach c p b o w md)
  | FirstText (Ok _) => inl (Some (Error (&"expected attach message first")))
  | FirstText (Err e) => inl (Some (Error (&"invalid message: " ++ e)))
  | NoText => inl None
  end.

(** From there to the reply: the message sent, what the session needs if it
    goes on, and the timer a clean-up starts. *)
Definition attach_session (port client_id : str) (baud_rate : Z) (pre_acquire_writer : bool) (md : option SerialClientMetadata)
    (now : f64) m : Msg * option (nat * bool) * option (str * Z) * SharedSerialManager D :=
  let '(writer_acquired, m) :=
    if pre_acquire_writer then let '(r, m) := acquire_writer port client_id now m in (is_ok r, m) else (false, m) in
  let '(rx, m) := attach_reader port client_id md now m in
  match rx with
  | None =>
      let '(timer, m) := cleanup_ws_serial_session port client_id writer_acquired now m in
      (Error (&"port " ++ port ++ &" not open"), None, timer, m)
  | Some rx =>
      (Attached true (&"attached to " ++ port ++ &" at " ++ decimal baud_rate ++ &" baud") writer_acquired, Some (rx, writer_acquired), None, m)
  end.

(** When the confirmation could not be sent the session is undone. *)
Definition attach_sent (port client_id : str) (ok writer_acquired : bool) (now : f64) m :
    option (str * Z) * SharedSerialManager D :=
  if ok then (None, m) else cleanup_ws_serial_session port client_id writer_acquired now m.
End Handshake.

(** ** What a client receives *)

Definition is_data (m : Msg) : bool := match m with Data _ _ => true | _ => false end.
Definition data_lines (ms : list Msg) : list (list str) := omap (λ m, match m with Data ls _ => Some ls | _ => None end) ms.
Definition data_index (ms : list Msg) : list Z := omap (λ m, match m with Data _ i => Some i | _ => None end) ms.

(** Frames that are messages, in order, but that adjacent [Data] may be one:
    their lines, and the index of the last. *)
Definition datas (r : list (list str * Z)) : list Msg := (λ d, Data d.1 d.2) <$> r.
Inductive Packs : list Msg → list Msg → Prop :=
  | packs_nil : Packs [] []
  | packs_other m ms fs : is_data m = false → Packs ms fs → Packs (m :: ms) (m :: fs)
  | packs_data r ls i ms fs : Packs ms fs → Packs (datas r ++ Data ls i :: ms) (Data (concat r.*1 ++ ls) i :: fs).

(** Messages that come from the port, and the event each one carries. *)
Definition is_stream (m : Msg) : bool :=
  match m with Data _ _ | PortDisconnected _ _ _ | PortRenumbered _ _ _ _ | PortReattached _ _ | PortRebindFailed _ _ _ _ => true | _ => false end.
Definition carries (e : SerialStreamEvent) (m : Msg) : Prop :=
  match e with SerialManager.Data line => ∃ decoded i, m = Data (line :: decoded) i | e => m = forward e end.

Lemma packs_app ms fs ms' fs' : Packs ms fs → Packs ms' fs' → Packs (ms ++ ms') (fs ++ fs').
Proof.
  induction 1 as [|m ms fs Hm _ IH|r ls i ms fs _ IH]; intros H'; cbn; [done| |].
  - constructor; auto.
  - rewrite <- app_assoc. cbn. constructor. auto.
Qed.

Lemma packs_cons f fs ms : Packs ms (f :: fs) → ∃ a b, ms = a ++ b ∧ Packs a [f] ∧ Packs b fs.
Proof.
  intros H. inversion H as [|m ms' fs' Hm H'|r ls i ms' fs' H']; subst.
  - exists [f], ms'. split_and!; [done| |done]. constructor; [done|constructor].
  - exists (datas r ++ [Data ls i]), ms'. rewrite <- app_assoc. split_and!; [done| |done]. constructor. constructor.
Qed.

(** [Data] that has a line. *)
Definition full (m : Msg) : Prop := match m with Data [] _ => False | _ => True end.

Lemma flush_packs r last_index : Forall full (datas r) → (∀ d, last r = Some d → d.2 = last_index) →
  Packs (datas r) (flush (concat r.*1) last_index).
Proof.
  intros Hf Hl. destruct r as [|[ls i] r _] using rev_ind; [constructor|].
  rewrite last_snoc in Hl. rewrite <- (Hl _ eq_refl). unfold datas in Hf |- *. rewrite fmap_app in Hf. rewrite !fmap_app, concat_app.
  apply Forall_app in Hf as [_ [Hf _]%Forall_cons]. cbn [fmap list_fmap concat fst snd] in *. rewrite app_nil_r.
  replace (flush (concat r.*1 ++ ls) i) with [Data (concat r.*1 ++ ls) i].
  - apply packs_data. constructor.
  - unfold flush. destruct (concat r.*1 ++ ls) eqn:E; [|done]. apply app_eq_nil in E as [_ ->]. destruct Hf.
Qed.

Lemma coalesce_packs pending r last_index : Forall full (datas r) → Forall full pending →
  (∀ d, last r = Some d → d.2 = last_index) → Packs (datas r ++ pending) (coalesce (concat r.*1) last_index pending).
Proof.
  revert r last_index. induction pending as [|m pending IH]; intros r n Hr Hp Hl; cbn [coalesce].
  { rewrite app_nil_r. by apply flush_packs. }
  apply Forall_cons in Hp as [Hm Hp].
  destruct m as [| ls i| | | | | | | | |]; try (apply packs_app; [by apply flush_packs|]; apply packs_other; [done|]; by apply (IH [] n)).
  specialize (IH (r ++ [(ls, i)]) i). unfold datas in IH. rewrite !fmap_app, concat_app, <- app_assoc in IH.
  cbn [fmap list_fmap concat fst snd app] in IH. rewrite app_nil_r in IH. apply IH; [|done|].
  - apply Forall_app. split; [done|]. by apply Forall_singleton.
  - intros d. rewrite last_snoc. by intros [= <-].
Qed.

(** *** Nothing is lost between the tasks *)

Definition delivery s : Prop := Forall full (pushed s) ∧ ∃ done rest,
  pushed s = done ++ rest ++ drop (popped s) (pushed s) ∧ popped s = length (done ++ rest) ∧ Packs done (frames s) ∧
  match writer s with
  | WRecv => rest = []
  | WTry pending => rest = pending
  | WSend unsent => Packs rest unsent
  | WExited => True
  end.
Definition numbering s : Prop := ∃ n : nat, data_index (pushed s) = seqZ 1 (Z.of_nat n) ∧
  match reader s with RSelect => line_index s = Z.of_nat n | RDecode _ => line_index s = Z.of_nat n + 1 | RExited => True end.
Definition streaming s : Prop := ∃ done rest, taken s = done ++ rest ∧
  Forall2 carries done (filter (λ m, is_stream m = true) (pushed s)) ∧
  (writer_gone s = false → rest = match reader s with RDecode line => [SerialManager.Data line] | _ => [] end).

(** What the tasks but the writer do to the channel. *)
Definition pushes (extra : list Msg) s s' : Prop :=
  pushed s' = pushed s ++ extra ∧ popped s' = popped s ∧ writer s' = writer s ∧ frames s' = frames s ∧ Forall full extra.

Lemma pushes_delivery extra s s' : pushes extra s s' → delivery s → delivery s'.
Proof.
  intros (Hp & Hk & Hw & Hf & He) (Hfull & a & b & E & Hl & Ha & Hb). split; [rewrite Hp; by apply Forall_app|].
  exists a, b. rewrite Hw, Hf, Hk, Hp. split_and!; [|done..].
  assert (popped s ≤ length (pushed s))%nat by (rewrite Hl, E, !length_app; lia).
  rewrite drop_app_le by done. rewrite E at 1. by rewrite <- !app_assoc.
Qed.

Lemma out_send_pushes m s : full m → ∃ extra, (extra = [] ∨ extra = [m]) ∧ pushes extra s (out_send m s).2 ∧
  reader (out_send m s).2 = reader s ∧ line_index (out_send m s).2 = line_index s ∧ taken (out_send m s).2 = taken s ∧
  (extra = [] ↔ writer_gone s = true).
Proof.
  intros Hm. unfold out_send, pushes. destruct (writer_gone s).
  - exists []. rewrite app_nil_r. by split_and!; [left|..].
  - exists [m]. assert (Forall full [m]) by by apply Forall_cons. by split_and!; [right|..].
Qed.

Lemma start_send_packs pending : Forall full pending →
  match start_send pending with WRecv => Packs pending [] | WSend unsent => Packs pending unsent | _ => False end.
Proof.
  intros Hp. unfold start_send. pose proof (coalesce_packs pending [] 0 (List.Forall_nil _) Hp ltac:(done)) as H.
  cbn in H. by destruct (coalesce [] 0 pending).
Qed.
Lemma packs_nil_inv ms : Packs ms [] → ms = [].
Proof. by inversion 1. Qed.

Lemma writer_delivery ok s : delivery s → delivery (writer_turn ok s) ∧ pushed (writer_turn ok s) = pushed s.
Proof.
  intros [Hfull (a & b & E & Hl & Ha & Hb)]. unfold writer_turn, delivery.
  assert (∀ x, pushed s !! popped s = Some x → drop (popped s) (pushed s) = x :: drop (S (popped s)) (pushed s)) as Hnext
    by (intros x Hx; by apply drop_S).
  assert (Forall full b) as Hfb by (rewrite E in Hfull; by apply Forall_app in Hfull as [_ [? _]%Forall_app]).
  destruct (writer s) as [|pending|[|f unsent]|] eqn:Ew.
  - subst b. destruct (pushed s !! popped s) as [x|] eqn:Ex.
    + split; [|done]. split; [done|]. exists a, [x]. cbn. rewrite <- (Hnext x eq_refl). rewrite !length_app in *. cbn in *. split_and!; [done|lia|done..].
    + destruct (reader_gone s && inbound_gone s); (split; [|done]); split; try done; exists a, []; by rewrite ?Ew.
  - subst b. destruct (pushed s !! popped s) as [x|] eqn:Ex.
    + assert (Forall full (pending ++ [x])) as Hx.
      { rewrite E in Hfull. rewrite (Hnext x eq_refl) in Hfull. apply Forall_app in Hfull as [_ Hfull].
        rewrite cons_middle, (assoc_L (++)) in Hfull. by apply Forall_app in Hfull as [? _]. }
      split; [|done]. split; [done|]. exists a, (pending ++ [x]).
      cbn [set_writer pushed popped writer frames]. split_and!; [|rewrite !length_app in *; cbn; lia|done|].
      * rewrite E at 1. by rewrite (Hnext x eq_refl), <- app_assoc.
      * destruct (256 <=? length (pending ++ [x]))%nat; [|done]. pose proof (start_send_packs _ Hx) as Hs.
        destruct (start_send (pending ++ [x])); try done. by apply packs_nil_inv.
    + split; [|done]. split; [done|]. exists a, pending. cbn. split_and!; try done.
      pose proof (start_send_packs _ Hfb) as Hs. destruct (start_send pending); try done. by apply packs_nil_inv.
  - apply packs_nil_inv in Hb as ->. split; [|done]. split; [done|]. by exists a, [].
  - apply packs_cons in Hb as (c & d & -> & Hc & Hd). destruct ok; (split; [|done]); (split; [done|]).
    + exists (a ++ c), d. cbn. rewrite <- !app_assoc in *. split_and!; [done|done|by apply packs_app|].
      destruct unsent; [by apply packs_nil_inv|done].
    + exists a, (c ++ d). cbn. rewrite <- ?app_assoc in *. by split_and!.
  - split; [|done]. split; [done|]. exists a, b. by rewrite Ew.
Qed.

(** Steps by which nothing of the port is taken or pushed. *)
Definition quiet s s' : Prop := ∃ extra, pushes extra s s' ∧ Forall (λ m, is_stream m = false) extra ∧
  taken s' = taken s ∧ line_index s' = line_index s ∧ (reader s' = reader s ∨ reader s = RSelect ∧ reader s' = RExited).

Lemma quiet_refl s s' : pushed s' = pushed s → popped s' = popped s → writer s' = writer s → frames s' = frames s →
  taken s' = taken s → line_index s' = line_index s → (reader s' = reader s ∨ reader s = RSelect ∧ reader s' = RExited) → quiet s s'.
Proof. intros. exists []. unfold pushes. rewrite app_nil_r. by split_and!. Qed.
Lemma quiet_send m s : full m → is_stream m = false → quiet s (out_send m s).2.
Proof.
  intros Hf Hs. destruct (out_send_pushes m s Hf) as (extra & He & Hp & Hr & Hl & Ht & _). exists extra. split_and!; auto.
  destruct He as [->| ->]; [done|by apply Forall_cons].
Qed.
Lemma quiet_set s s' s'' : quiet s s' → pushed s'' = pushed s' → popped s'' = popped s' → writer s'' = writer s' → frames s'' = frames s' →
  taken s'' = taken s' → line_index s'' = line_index s' → reader s'' = reader s' → quiet s s''.
Proof.
  intros (extra & (H1 & H2 & H3 & H4 & H5) & Hs & Ht & Hl & Hr) E1 E2 E3 E4 E5 E6 E7. exists extra. unfold pushes.
  rewrite E1, E2, E3, E4, E5, E6, E7. by split_and!.
Qed.

Lemma inbound_quiet decode f s : quiet s (inbound_frame decode f s).
Proof.
  assert (quiet s s) as H0 by (apply quiet_refl; auto). unfold inbound_frame.
  destruct (inbound s); [|done..]. destruct f as [[[|data| | |]|]| | | |]; try done; try (by apply (quiet_set s s)).
  - destruct (decode data); [by apply (quiet_set s s)|by apply quiet_send].
  - destruct (reader_gone s); [done|by apply (quiet_set s s)].
  - destruct (reader_gone s); [by apply quiet_send|by apply (quiet_set s s)].
Qed.
Lemma inbound_written_quiet r s : quiet s (inbound_written r s).
Proof.
  unfold inbound_written. destruct (inbound s); try (apply quiet_refl; auto; fail).
  match goal with |- quiet s (set_inbound _ (out_send ?m s).2) => apply (quiet_set s (out_send m s).2); [|done..] end.
  by destruct r; apply quiet_send.
Qed.
Lemma replied_quiet s : quiet s (inbound_replied s).
Proof.
  assert (quiet s s) as H0 by (apply quiet_refl; auto). unfold inbound_replied.
  destruct (inbound s) as [| |cmd|]; try done. cbv zeta.
  assert (∀ n, quiet s match cmd with Drain => s | GetDepth => (out_send (InWaiting n) s).2 end) as Hq
    by (intros n; destruct cmd; [done|by apply quiet_send]).
  destruct (reply s) as [n|]; [|destruct (reader_gone s); [|done]]; by (eapply quiet_set; [apply Hq|..]).
Qed.
Lemma control_quiet answers depth s : quiet s (reader_control answers depth s).
Proof.
  unfold reader_control. destruct (reader s) eqn:Er; [|apply quiet_refl; auto..].
  destruct (control s) as [[]|]; [apply quiet_refl; auto..|]. destruct (inbound_gone s); apply quiet_refl; auto.
Qed.

Lemma quiet_filter extra : Forall (λ m, is_stream m = false) extra →
  filter (λ m, is_stream m = true) extra = [] ∧ data_index extra = [].
Proof.
  induction 1 as [|m extra Hm _ [IH1 IH2]]; [done|]. rewrite filter_cons_False by congruence. split; [done|].
  unfold data_index in *. by destruct m.
Qed.
Lemma quiet_keeps s s' : quiet s s' → numbering s ∧ streaming s → numbering s' ∧ streaming s'.
Proof.
  intros (extra & (Hp & _ & Hw & _) & [Hf Hd]%quiet_filter & Ht & Hl & Hr) [(n & Hn & Hi) (a & b & E & Ha & Hb)]. split.
  - exists n. unfold data_index in *. rewrite Hp, omap_app, Hd, app_nil_r, Hl. split; [done|]. by destruct Hr as [->|[_ ->]].
  - exists a, b. rewrite Ht, Hp, filter_app, Hf, app_nil_r. split_and!; [done..|]. unfold writer_gone in *. rewrite Hw. intros Hg.
    rewrite (Hb Hg). by destruct Hr as [->|[-> ->]].
Qed.

Lemma recv_keeps a s : delivery s → numbering s ∧ streaming s →
  delivery (reader_recv a s) ∧ numbering (reader_recv a s) ∧ streaming (reader_recv a s).
Proof.
  intros Hd [(n & Hn & Hi) (done & rest & E & Ha & Hb)].
  assert (delivery s ∧ numbering s ∧ streaming s) as Hsame by (split_and!; [done|by exists n|by exists done, rest]).
  unfold reader_recv. destruct (reader s) eqn:Er; [|done..]. destruct a as [e|k|]; [|done|].
  - assert (∀ m, forward e = m → (∀ line, e ≠ SerialManager.Data line) → let s' := (out_send m (take_event e RSelect (line_index s) s)).2 in
      delivery s' ∧ numbering s' ∧ streaming s') as Hport.
    { intros m Hm Hne. assert (full m ∧ is_stream m = true ∧ is_data m = false) as (Hf & Hs & Hdm)
        by (subst m; destruct e; [by edestruct Hne|done..]). cbv zeta.
      destruct (out_send_pushes m (take_event e RSelect (line_index s) s) Hf) as (x & Hx & Hp & Hr & Hl & Ht & Hg).
      split_and!; [by apply (pushes_delivery x (take_event e RSelect (line_index s) s))| |].
      - exists n. destruct Hp as (-> & _). rewrite Hr, Hl. split; [|done]. unfold data_index in *. rewrite omap_app. cbn. rewrite Hn.
        destruct Hx as [->| ->]; [by rewrite app_nil_r|]. cbn. by destruct m; [rewrite app_nil_r| |rewrite app_nil_r..].
      - destruct Hp as (Hp & _ & Hw & _). unfold streaming. rewrite Ht, Hp, Hr, filter_app. cbn [take_event taken pushed reader].
        unfold writer_gone in *. rewrite Hw. cbn [take_event writer] in *. destruct Hx as [->| ->].
        + exists done, (rest ++ [e]). rewrite E, app_nil_r, <- app_assoc. split_and!; [done..|]. intros Hgo.
          by rewrite (proj1 Hg eq_refl) in Hgo.
        + assert (writer_gone s = false) as Hgo.
          { apply not_true_iff_false. intros Hgo. discriminate (proj2 Hg Hgo). }
          rewrite (Hb Hgo), app_nil_r in E. exists (done ++ [e]), []. rewrite E, app_nil_r. split_and!; [done| |done].
          rewrite filter_cons_True by done. apply Forall2_app; [done|]. constructor; [|constructor]. subst m. destruct e; [by edestruct Hne|done..]. }
    destruct e as [line| | | |]; [|by apply Hport..]. split_and!; [done|exists n; split; [done|cbn; lia]|].
    exists done, (rest ++ [SerialManager.Data line]). cbn. rewrite E, <- app_assoc. split_and!; [done..|].
    intros Hgo. by rewrite (Hb Hgo).
  - split_and!; [done|by exists n|]. exists done, rest. by split_and!.
Qed.

Lemma decoded_keeps o s : delivery s → numbering s ∧ streaming s →
  delivery (reader_decoded o s) ∧ numbering (reader_decoded o s) ∧ streaming (reader_decoded o s).
Proof.
  intros Hd [(n & Hn & Hi) (done & rest & E & Ha & Hb)].
  unfold reader_decoded. destruct (reader s) as [|line|] eqn:Er; [split_and!; [done|exists n; by rewrite Er|exists done, rest; by rewrite Er]| |
    split_and!; [done|exists n; by rewrite Er|exists done, rest; by rewrite Er]].
  unfold out_send. destruct (writer_gone s) eqn:Eg.
  - split_and!; [done|by exists n|]. exists done, rest. split_and!; [done..|]. unfold writer_gone in *. cbn. by rewrite Eg.
  - split_and!.
    + apply (pushes_delivery [Data (line :: default [] o) (line_index s)] s); [|done]. split_and!; [done..|by apply Forall_cons].
    + exists (S n). cbn. unfold data_index in *. rewrite omap_app, Hn. cbn. split; [|lia]. rewrite Hi.
      replace (Z.of_nat (S n)) with (Z.of_nat n + 1) by lia. rewrite seqZ_app by lia. f_equal. change (seqZ (1 + Z.of_nat n) 1) with [1 + Z.of_nat n]. f_equal. lia.
    + exists (done ++ rest), []. cbn. rewrite app_nil_r, filter_app, (Hb eq_refl). split_and!; [by rewrite E, (Hb eq_refl)| |done].
      apply Forall2_app; [done|]. rewrite filter_cons_True by done. constructor; [|constructor]. by eexists _, _.
Qed.

Lemma turn_keeps ok s : numbering s ∧ streaming s → pushed (writer_turn ok s) = pushed s →
  numbering (writer_turn ok s) ∧ streaming (writer_turn ok s).
Proof.
  assert (reader (writer_turn ok s) = reader s ∧ line_index (writer_turn ok s) = line_index s ∧ taken (writer_turn ok s) = taken s ∧
    (writer_gone s = true → writer_gone (writer_turn ok s) = true)) as (Hr & Hl & Ht & Hg).
  { unfold writer_turn, writer_gone. destruct (writer s) as [|p|[|f u]|] eqn:Ew; [| |by split_and!| |by rewrite Ew; split_and!].
    - destruct (pushed s !! popped s); [by split_and!|]. destruct (reader_gone s && inbound_gone s); [by split_and!|]. by rewrite Ew; split_and!.
    - by destruct (pushed s !! popped s); split_and!.
    - by destruct ok; split_and!. }
  unfold numbering, streaming. intros [Hn (a & b & E & Ha & Hb)] ->. rewrite Hr, Hl, Ht. split; [done|]. exists a, b. split_and!; [done..|].
  intros Hgo. apply Hb. apply not_true_iff_false. intros ?. by rewrite Hg in Hgo.
Qed.

Section Delivered.
Context (base64_decode : str → result str str).
Notation run := (run base64_decode).

Lemma run_inv events : delivery (run events) ∧ numbering (run events) ∧ streaming (run events).
Proof.
  induction events as [|e events IH] using rev_ind.
  { split_and!; [split; [constructor|]; exists [], []; split_and!; [done..|constructor|done]|by exists 0%nat|]. exists [], []. split_and!; [done|constructor|done]. }
  unfold SerialSocket.run in *. rewrite foldl_app. cbn [foldl]. set (s := foldl _ attached events) in *. destruct IH as [Hd Hs].
  assert (∀ s', quiet s s' → delivery s' ∧ numbering s' ∧ streaming s') as Hq.
  { intros s' H. split; [|by apply (quiet_keeps s)]. destruct H as (extra & Hp & _). by apply (pushes_delivery extra s). }
  destruct e as [a|o|answers depth|ok|f|r|]; cbn [step].
  - by apply recv_keeps.
  - by apply decoded_keeps.
  - apply Hq, control_quiet.
  - destruct (writer_delivery ok s Hd) as [Hd' Hp]. split; [done|]. by apply turn_keeps.
  - apply Hq, inbound_quiet.
  - apply Hq, inbound_written_quiet.
  - apply Hq, replied_quiet.
Qed.
End Delivered.

(** *** What the index of a frame says *)

Lemma data_index_length ms : length (data_index ms) = length (data_lines ms).
Proof. unfold data_index, data_lines. induction ms as [|m ms IH]; [done|]. destruct m; cbn; auto. Qed.
Lemma data_lines_app a b : data_lines (a ++ b) = data_lines a ++ data_lines b.
Proof. apply omap_app. Qed.
Lemma data_lines_datas r : data_lines (datas r) = r.*1.
Proof. unfold data_lines, datas. induction r as [|d r IH]; [done|]. cbn. by f_equal. Qed.

Lemma packs_upto ms fs : Packs ms fs → ∀ pre ls i post, fs = pre ++ Data ls i :: post →
  ∃ a ls' b, ms = a ++ Data ls' i :: b ∧ concat (data_lines (pre ++ [Data ls i])) = concat (data_lines (a ++ [Data ls' i])).
Proof.
  induction 1 as [|m ms fs Hm _ IH|r l j ms fs _ IH]; intros pre ls i post E.
  - by destruct pre.
  - destruct pre as [|m' pre]; injection E as -> E; [done|]. destruct (IH _ _ _ _ E) as (a & ls' & b & -> & Hc).
    exists (m' :: a), ls', b. split; [done|]. cbn. destruct m'; try done.
  - destruct pre as [|m' pre].
    + injection E as <- <- _. exists (datas r), l, ms. split; [done|]. cbn [app].
      rewrite (data_lines_app (datas r)), data_lines_datas, concat_app. cbn. by rewrite !app_nil_r.
    + injection E as <- E. destruct (IH _ _ _ _ E) as (a & ls' & b & -> & Hc). exists (datas r ++ Data l j :: a), ls', b.
      rewrite <- app_assoc. split; [done|]. rewrite <- app_assoc, (data_lines_app (datas r)), concat_app, data_lines_datas.
      cbn. rewrite <- app_assoc. do 2 f_equal. exact Hc.
Qed.

Lemma index_says n ms fs queue pre ls i post : Packs ms fs → data_index (ms ++ queue) = seqZ 1 (Z.of_nat n) → fs = pre ++ Data ls i :: post →
  concat (data_lines (pre ++ [Data ls i])) = concat (take (Z.to_nat i) (data_lines (ms ++ queue))).
Proof.
  intros Hp Hn E. destruct (packs_upto _ _ Hp _ _ _ _ E) as (a & ls' & b & -> & ->). f_equal.
  assert (i = 1 + Z.of_nat (length (data_lines a))) as ->.
  { rewrite <- data_index_length. symmetry. assert (data_index ((a ++ Data ls' i :: b) ++ queue) !! length (data_index a) = Some i) as Hl.
    { unfold data_index. rewrite <- app_assoc, omap_app. by apply list_lookup_middle. }
    rewrite Hn in Hl. apply lookup_seqZ in Hl. lia. }
  rewrite <- app_assoc, !data_lines_app. replace (Z.to_nat _) with (length (data_lines a) + 1)%nat by lia. cbn.
  by rewrite take_app_add.
Qed.

(** *** The writer catches up *)

Definition turns (n : nat) s : Socket := Nat.iter n (writer_turn true) s.
Definition weight s : nat := 4 * length (drop (popped s) (pushed s)) +
  match writer s with WTry pending => length pending + 2 | WSend unsent => length unsent + 1 | _ => 0 end.

Lemma flush_length batch n : (length (flush batch n) ≤ length batch)%nat ∧ (length (flush batch n) ≤ 1)%nat.
Proof. destruct batch; cbn; lia. Qed.
Lemma coalesce_length pending batch n : (length (coalesce batch n pending) ≤ S (length pending))%nat ∧
  (batch = [] → length (coalesce batch n pending) ≤ length pending)%nat.
Proof.
  revert batch n. induction pending as [|m pending IH]; intros batch n; cbn [coalesce length].
  { destruct (flush_length batch n). split; [done|]. by intros ->. }
  destruct (flush_length batch n). destruct m as [| ls i| | | | | | | | |]; rewrite ?length_app; cbn [length];
    try (destruct (IH [] n) as [_ IH2]; specialize (IH2 eq_refl); split; [lia|]; intros ->; cbn; lia).
  destruct (IH (batch ++ ls) i). lia.
Qed.
Lemma start_send_weight pending : (match start_send pending with WTry p => length p + 2 | WSend u => length u + 1 | _ => 0 end ≤ length pending + 1)%nat.
Proof.
  unfold start_send. destruct (coalesce_length pending [] 0) as [_ H]. specialize (H eq_refl).
  destruct (coalesce [] 0 pending); cbn [length] in *; lia.
Qed.

Lemma turn_lighter s : writer_gone s = false →
  weight s = O ∨ (weight (writer_turn true s) < weight s)%nat ∧ writer_gone (writer_turn true s) = false.
Proof.
  assert (∀ p, match start_send p with WExited => true | _ => false end = false) as Hss
    by (intros p; unfold start_send; by destruct (coalesce [] 0 p)).
  unfold weight, writer_turn, writer_gone. destruct (writer s) as [|p|[|f u]|] eqn:Ew; intros Hg; [| |right; cbn; lia| |done].
  - destruct (pushed s !! popped s) as [x|] eqn:Ex.
    + right. cbn [set_writer pushed popped writer]. rewrite (drop_S _ x _ Ex). cbn [length]. lia.
    + left. rewrite drop_ge; [done|]. by apply lookup_ge_None.
  - right. destruct (pushed s !! popped s) as [x|] eqn:Ex; cbn [set_writer pushed popped writer].
    + rewrite (drop_S _ x _ Ex). pose proof (start_send_weight (p ++ [x])) as Hs. rewrite length_app in Hs. cbn [length] in *.
      destruct (256 <=? length (p ++ [x]))%nat; [split; [lia|apply Hss]|]. rewrite length_app. cbn [length]. lia.
    + pose proof (start_send_weight p). split; [lia|apply Hss].
  - right. cbn [set_writer pushed popped writer]. destruct u; cbn [length]; lia.
Qed.

Lemma writer_flushes s : delivery s → writer_gone s = false → ∃ n, Packs (pushed s) (frames (turns n s)).
Proof.
  remember (weight s) as k eqn:Ek. revert s Ek. induction k as [k IH] using lt_wf_ind. intros s -> Hd Hg.
  destruct (turn_lighter s Hg) as [H0|[Hlt Hg']].
  - exists O. destruct Hd as [_ (a & b & E & _ & Ha & Hb)]. unfold weight in H0.
    assert (drop (popped s) (pushed s) = []) as Hq by (apply nil_length_inv; lia).
    unfold writer_gone in Hg. destruct (writer s); [subst b|lia..|done]. rewrite Hq, !app_nil_r in E. by rewrite E.
  - destruct (writer_delivery true s Hd) as [Hd' Hp]. destruct (IH _ Hlt _ eq_refl Hd' Hg') as [n Hn].
    exists (S n). unfold turns in *. by rewrite Nat.iter_succ_r, <- Hp.
Qed.

Section Client.
Context (base64_decode : str → result str str).
Notation run := (run base64_decode).

(** C14: Whatever the order in which the tasks of an attached client run, the
    frames it is sent are what they pushed, in order, adjacent data being
    joined; the index of a data frame tells how many lines of the port the
    client has, every one with its decoded trace; the messages from the port
    carry the events taken from its channel, in order, each one once; and while
    the writer lives, all that was pushed is sent after finitely many of its
    turns, if no send fails. *)
Theorem client_gets_all events : let s := run events in
  (∃ sent queue, pushed s = sent ++ queue ∧ Packs sent (frames s)) ∧
  (∀ pre ls i post, frames s = pre ++ Data ls i :: post →
     concat (data_lines (pre ++ [Data ls i])) = concat (take (Z.to_nat i) (data_lines (pushed s)))) ∧
  (∃ settled rest, taken s = settled ++ rest ∧ Forall2 carries settled (filter (λ m, is_stream m = true) (pushed s)) ∧
     (writer_gone s = false → rest = match reader s with RDecode line => [SerialManager.Data line] | _ => [] end)) ∧
  (writer_gone s = false → ∃ n, Packs (pushed s) (frames (turns n s))).
Proof.
  cbv zeta. destruct (run_inv base64_decode events) as (Hd & (n & Hn & _) & Hs). split_and!; [| |done|by apply writer_flushes].
  - destruct Hd as [_ (a & b & E & _ & Ha & _)]. by exists a, (b ++ drop (popped (run events)) (pushed (run events))).
  - destruct Hd as [_ (a & b & E & _ & Ha & _)]. intros pre ls i post Ef. rewrite E in Hn |- *. by eapply index_says.
Qed.

(** Lines that wait for the socket are sent after a [ClearBuffer]. *)
Example clear_leaves_queue : frames (run
  [Recv (Got (SerialManager.Data (&"old"))); Decoded None; Frame (Text (Some ClearBuffer)); Control [TryEmpty] 0; Replied;
   Turn true; Turn true; Turn true]) = [Data [&"old"] 1].
Proof. vm_compute. reflexivity. Qed.

(** A drain that meets a gap ends there, whatever follows. *)
Example clear_stops_at_gap rest : drain (TryLagged 7 :: rest) = 0.
Proof. done. Qed.

(** A drain takes the news of the port as well: the client never hears. *)
Example clear_drops_news : let s := run [Frame (Text (Some ClearBuffer));
    Control [TryGot (SerialManager.PortRenumbered (&"COM3") (&"COM7") (&"moved") None); TryEmpty] 1; Replied; Turn true] in
  reply s = None ∧ pushed s = [].
Proof. by vm_compute. Qed.

(** The tasks left when one has ended go on: the session is over and cleaned
    up, and a request is still answered. *)
Example tasks_outlive_session : let over := [Recv Closed] in
  session_over (run over) = true ∧
  frames (run (over ++ [Frame (Text (Some GetInWaiting)); Turn true; Turn true; Turn true])) = [InWaiting 0].
Proof. by vm_compute. Qed.
End Client.

(** *** The end of a session *)

Section Undone.
Context {D : Type}.
Implicit Types m : SharedSerialManager D.

Lemma grace_sessions p m : sessions (grace_schedule p m).2 = sessions m.
Proof. unfold grace_schedule. by destruct (_ || _). Qed.

(** A clean-up takes the client, and nobody else, out of the session. *)
Lemma socket_cleanup_spec p client acquired now m s : sessions m !! resolve_port_key p m = Some s →
  ∃ s', sessions (cleanup_ws_serial_session p client acquired now m).2 !! resolve_port_key p m = Some s' ∧
    reader_client_ids s' = reader_client_ids s ∖ {[client]} ∧
    writer_client_id s' = if acquired && bool_decide (writer_client_id s = Some client) then None else writer_client_id s.
Proof.
  intros Hs. unfold cleanup_ws_serial_session.
  match goal with |- context [has_clients p ?m'] => set (m1 := m') end.
  assert (sessions (if has_clients p m1 then (None, m1) else grace_schedule p m1).2 = sessions m1) as ->
    by (destruct (has_clients p m1); [done|apply grace_sessions]).
  unfold m1, release_writer, detach_reader, with_session, resolve_port_key. clear m1. unfold resolve_port_key in Hs.
  destruct acquired; cbn; rewrite ?lookup_alter_eq, Hs; cbn; [|by eexists].
  eexists. split; [done|]. case_decide; case_bool_decide; done.
Qed.
End Undone.
