(* ===== verification/SymbolGraph.v ===== *)
(** * Who pulled a symbol in, [fbuild-core/src/symbol_analysis/graph/]

    The graph of what refers to a symbol and what the symbol calls, from
    [mod.rs] and [walker.rs].  A slice of a text that cuts a character is a
    panic; sums of sizes are taken not to overflow.  The rendering as a [.dot]
    file is not modelled, its widths being logarithms. *)
From S2P Require Import Prelude RustStr.

(** ** Symbols *)

Inductive MemoryRegion := Flash | Ram.
Record SymbolReference := { ref_archive : option str; ref_object : str }.
Record FineGrainedSymbol := {
  mangled : str; demangled : str; address : Z; size : Z; sym_type : str; region : MemoryRegion;
  archive : option str; object : option str; output_section : option str; source : str;
  referenced_by : list SymbolReference; references_to : list str; called_by : list str;
}.
Abbreviation Sym := FineGrainedSymbol.

(** A translation unit, by its archive and object. *)
Abbreviation Tu := (option str * str)%type.
Definition tu_key (r : SymbolReference) : Tu := (ref_archive r, ref_object r).

(** ** Configurations and graphs *)

Inductive GraphDepth := Adaptive | Fixed (n : nat).
Inductive Direction := Backward | Forward | Bidirectional.
Record GraphConfig := {
  depth_policy : GraphDepth; fan_out : nat; max_depth : nat;
  collapse_archives : list str; exclude_archives : list str; direction : Direction;
}.
Definition default_config : GraphConfig :=
  {| depth_policy := Adaptive; fan_out := 5; max_depth := 4; collapse_archives := [&"libc.a"; &"libgcc.a"];
     exclude_archives := []; direction := Backward |}.

Inductive NodeKind :=
  | RootSymbol (demangled : str) (size : Z)
  | TranslationUnit (size_hint : option Z)
  | Callee (demangled : str) (size : Z) (callers_count : nat)
  | Caller (demangled : str) (size : Z) (callees_count : nat)
  | Collapsed (archive : str) (count : nat).
Record GraphNode := { id : str; label : str; node_archive : option str; node_object : option str; kind : NodeKind; depth : nat }.
Inductive EdgeDirection := BackwardEdge | ForwardEdge.
Record GraphEdge := { from : str; to : str; edge_direction : EdgeDirection }.
Record BackrefGraph := { root_id : str; nodes : list GraphNode; edges : list GraphEdge }.

Definition backward (from to : str) : GraphEdge := {| from := from; to := to; edge_direction := BackwardEdge |}.
Definition forward (from to : str) : GraphEdge := {| from := from; to := to; edge_direction := ForwardEdge |}.

(** ** Texts *)

Inductive Stop := Panicked | OutOfFuel.

(** By characters: the bytes that continue one are left out. *)
Definition sanitize_id (s : str) : str :=
  let out := omap (λ c, if is_ascii_alphanumeric c || bool_decide (c = "_"%char) then Some c
                        else if is_cont c then None else Some "_"%char) s in
  match out with [] => &"anon" | _ => out end.

Definition count_text (n : nat) : str := decimal (Z.of_nat n).
(** [&s[..63]] and an ellipsis, for a text over 64 bytes. *)
Definition truncated (s : str) : result Stop str :=
  if (64 <? length s)%nat then
    match s !! 63%nat with
    | Some c => if is_cont c then Err Panicked else Ok (take 63 s ++ &"…")
    | None => Ok s
    end
  else Ok s.
Definition format_root_label (demangled : str) (size : Z) : result Stop str :=
  t <-? truncated demangled; Ok (t ++ [nl] ++ decimal size ++ &" B").
Definition format_symbol_label (relation demangled : str) (size : Z) (count : nat) : result Stop str :=
  t <-? truncated demangled;
  Ok (t ++ [nl] ++ decimal size ++ &" B" ++ (if (1 <? count)%nat then [nl] ++ relation ++ &" ×" ++ count_text count else [])).
Definition format_callee_label : str → Z → nat → result Stop str := format_symbol_label (&"shared").
Definition format_caller_label : str → Z → nat → result Stop str := format_symbol_label (&"calls").
Definition format_tu_label (tu : SymbolReference) (bytes : Z) : str :=
  ref_object tu ++ [nl] ++ match ref_archive tu with Some a => a | None => &"(app)" end ++ [nl] ++ decimal bytes ++ &" B".
Definition tu_id_str (tu : SymbolReference) : str :=
  match ref_archive tu with Some a => a ++ &"__" ++ ref_object tu | None => ref_object tu end.

(** ** The symbols of a translation unit *)

Definition TuIndex : Type := gmap Tu (list Sym).
Definition index_symbol (by_tu : TuIndex) (s : Sym) : TuIndex :=
  match object s with
  | Some obj => <[(archive s, obj) := default [] (by_tu !! (archive s, obj)) ++ [s]]> by_tu
  | None => by_tu
  end.
Definition index_of (symbols : list Sym) : TuIndex := foldl index_symbol ∅ symbols.
Definition symbols_in (index : TuIndex) (tu : Tu) : list Sym := default [] (index !! tu).
Definition sum_sizes (l : list Sym) : Z := foldr (λ s acc, (size s + acc)%Z) 0%Z l.
Definition bytes_in (index : TuIndex) (tu : Tu) : Z := sum_sizes (symbols_in index tu).
Definition tu_total_bytes (index : TuIndex) : gmap Tu Z := sum_sizes <$> index.

(** ** Ranking *)

(** A stable sort. *)
Section Sort.
Context {A} (le : A → A → bool).
Fixpoint insert_by (x : A) (l : list A) : list A :=
  match l with [] => [x] | y :: l => if le x y then x :: y :: l else y :: insert_by x l end.
Definition sort_by (l : list A) : list A := foldr insert_by [] l.
End Sort.

Inductive CappedReferencer :=
  | CTu (r : SymbolReference)
  | CollapsedArchive (archive : str) (count : nat)
  | FanOutOverflow (count : nat).

Definition in_archives (archives : list str) (a : option str) : bool :=
  match a with Some a => bool_decide (a ∈ archives) | None => false end.

(** The archives with their counts, in order. *)
Definition by_collapse (refs : list SymbolReference) : list (str * nat) :=
  let names := sort_by str_leb (remove_dups (omap ref_archive refs)) in
  (λ a, (a, length (filter (λ r, ref_archive r = Some a) refs))) <$> names.

Definition rank_and_cap_referencers (refs : list SymbolReference) (index : TuIndex) (config : GraphConfig) : list CappedReferencer :=
  let kept := filter (λ r, in_archives (exclude_archives config) (ref_archive r) = false) refs in
  let collapsed := filter (λ r, in_archives (collapse_archives config) (ref_archive r) = true) kept in
  let non_collapsed := sort_by (λ a b, (bytes_in index (tu_key b) <=? bytes_in index (tu_key a))%Z)
    (filter (λ r, in_archives (collapse_archives config) (ref_archive r) = false) kept) in
  let total := length non_collapsed in
  let take_n := Nat.min (fan_out config) total in
  (CTu <$> take take_n non_collapsed) ++
  (if (0 <? total - take_n)%nat then [FanOutOverflow (total - take_n)] else []) ++
  ((λ c, CollapsedArchive c.1 c.2) <$> by_collapse collapsed).

Definition push_edge_dedup (es : list GraphEdge) (candidate : GraphEdge) : list GraphEdge :=
  if existsb (λ e, bool_decide (from e = from candidate) && bool_decide (to e = to candidate)) es then es else es ++ [candidate].

Definition find_symbol (symbols : list Sym) (name : str) : option Sym :=
  snd <$> list_find (λ s, mangled s = name ∨ demangled s = name) symbols.

(** ** Symbol by symbol: [walk_forward] and [walk_backward_per_symbol] *)

Record Side := {
  next : Sym → list str;
  popularity : Sym → nat;
  side_kind : str → Z → nat → NodeKind;
  side_label : str → Z → nat → result Stop str;
  edge_to : str → str → GraphEdge;
  ovf_prefix : str;
  ovf_noun : str;
}.
Definition callees : Side :=
  {| next := references_to; popularity := λ s, length (referenced_by s); side_kind := Callee; side_label := format_callee_label;
     edge_to := forward; ovf_prefix := &"fwd_ovf__"; ovf_noun := &" more callees)" |}.
Definition callers : Side :=
  {| next := called_by; popularity := λ s, length (references_to s); side_kind := Caller; side_label := format_caller_label;
     edge_to := λ callee caller, backward caller callee; ovf_prefix := &"bwd_ovf__"; ovf_noun := &" more callers)" |}.

Record Walked := { w_nodes : list GraphNode; w_edges : list GraphEdge; visited_syms : gset str }.
Definition push_node (n : GraphNode) (w : Walked) : Walked :=
  {| w_nodes := w_nodes w ++ [n]; w_edges := w_edges w; visited_syms := visited_syms w |}.
Definition set_edges (es : list GraphEdge) (w : Walked) : Walked :=
  {| w_nodes := w_nodes w; w_edges := es; visited_syms := visited_syms w |}.
Definition see (m : str) (w : Walked) : Walked :=
  {| w_nodes := w_nodes w; w_edges := w_edges w; visited_syms := {[m]} ∪ visited_syms w |}.

Definition sym_id (m : str) : str := &"sym__" ++ sanitize_id m.

Section Walk.
Context (symbols : list Sym) (config : GraphConfig) (side : Side).

(** A name with its row, if it has one. *)
Abbreviation Candidate := (str * option Sym)%type.
Definition c_size (c : Candidate) : Z := match c.2 with Some s => size s | None => 0 end.
Definition c_count (c : Candidate) : nat := match c.2 with Some s => popularity side s | None => 0 end.
Definition candidate_leb (a b : Candidate) : bool :=
  if decide (c_size a = c_size b) then
    if decide (c_count a = c_count b) then str_leb a.1 b.1 else (c_count b <=? c_count a)%nat
  else (c_size b <=? c_size a)%Z.
Definition candidates (sym : Sym) (visited : gset str) : list Candidate :=
  sort_by candidate_leb
    (filter (λ c, in_archives (exclude_archives config) (c.2 ≫= archive) = false)
      ((λ m, (m, find_symbol symbols m)) <$> filter (λ m, m ∉ visited) (next side sym))).

Definition candidate_node (c : Candidate) (d : nat) : result Stop GraphNode :=
  let dem := match c.2 with Some s => demangled s | None => c.1 end in
  l <-? side_label side dem (c_size c) (c_count c);
  Ok {| id := sym_id c.1; label := l; node_archive := c.2 ≫= archive; node_object := c.2 ≫= object;
        kind := side_kind side dem (c_size c) (c_count c); depth := d |}.
Definition overflow_node (node_id : str) (d overflow : nat) : GraphNode :=
  {| id := ovf_prefix side ++ sanitize_id node_id ++ &"__d" ++ count_text d ++ &"__" ++ count_text overflow;
     label := &"(… and " ++ count_text overflow ++ ovf_noun side; node_archive := None; node_object := None;
     kind := Collapsed (&"(overflow)") overflow; depth := d |}.

(** One candidate after the other; [go] is the walk from there. *)
Definition visit (go : Sym → str → nat → Walked → result Stop Walked) (node_id : str) (d : nat) (c : Candidate) (w : Walked) : result Stop Walked :=
  w <-? (if decide (c.1 ∈ visited_syms w) then Ok w
         else n <-? candidate_node c d;
              let w := push_node n (see c.1 w) in
              match c.2 with
              | Some resolved =>
                  if (d <? max_depth config)%nat && negb (bool_decide (next side resolved = [])) then go resolved (sym_id c.1) (S d) w
                  else Ok w
              | None => Ok w
              end);
  Ok (set_edges (push_edge_dedup (w_edges w) (edge_to side node_id (sym_id c.1))) w).
Fixpoint visit_all (go : Sym → str → nat → Walked → result Stop Walked) (node_id : str) (d : nat) (cs : list Candidate) (w : Walked) :
    result Stop Walked :=
  match cs with [] => Ok w | c :: cs => w <-? visit go node_id d c w; visit_all go node_id d cs w end.

Fixpoint walk (fuel : nat) (sym : Sym) (node_id : str) (d : nat) (w : Walked) : result Stop Walked :=
  if (max_depth config <? d)%nat then Ok w else
  match fuel with
  | O => Err OutOfFuel
  | S fuel =>
      let cs := candidates sym (visited_syms w) in
      let total := length cs in
      let take_n := Nat.min (fan_out config) total in
      w <-? visit_all (walk fuel) node_id d (take take_n cs) w;
      let overflow := (total - take_n)%nat in
      if (0 <? overflow)%nat then
        let n := overflow_node node_id d overflow in
        Ok (set_edges (w_edges w ++ [edge_to side node_id (id n)]) (push_node n w))
      else Ok w
  end.
End Walk.

Definition walk_forward (symbols : list Sym) (config : GraphConfig) := walk symbols config callees.
Definition walk_backward_per_symbol (symbols : list Sym) (config : GraphConfig) := walk symbols config callers.

(** ** Unit by unit: the queue of [build_with_index] *)

Record Bfs := {
  b_nodes : list GraphNode;
  b_edges : list GraphEdge;
  visited_tus : gset Tu;
  node_id_by_tu : gmap Tu str;
  queue : list (Tu * str * nat);
}.
Definition add_edge (es : list GraphEdge) (b : Bfs) : Bfs :=
  {| b_nodes := b_nodes b; b_edges := es; visited_tus := visited_tus b; node_id_by_tu := node_id_by_tu b; queue := queue b |}.
Definition add_node (n : GraphNode) (b : Bfs) : Bfs :=
  {| b_nodes := b_nodes b ++ [n]; b_edges := b_edges b; visited_tus := visited_tus b; node_id_by_tu := node_id_by_tu b; queue := queue b |}.
Definition set_queue (q : list (Tu * str * nat)) (b : Bfs) : Bfs :=
  {| b_nodes := b_nodes b; b_edges := b_edges b; visited_tus := visited_tus b; node_id_by_tu := node_id_by_tu b; queue := q |}.

Section Units.
Context (index : TuIndex) (config : GraphConfig).

Definition tu_node (tu : SymbolReference) (d : nat) : GraphNode :=
  {| id := &"tu__" ++ sanitize_id (tu_id_str tu); label := format_tu_label tu (bytes_in index (tu_key tu));
     node_archive := ref_archive tu; node_object := Some (ref_object tu);
     kind := TranslationUnit (Some (bytes_in index (tu_key tu))); depth := d |}.
(** A unit seen for the first time, referring to [target]. *)
Definition enter_tu (tu : SymbolReference) (target : str) (d : nat) (b : Bfs) : Bfs :=
  let n := tu_node tu d in
  {| b_nodes := b_nodes b ++ [n]; b_edges := b_edges b ++ [backward (id n) target];
     visited_tus := {[tu_key tu]} ∪ visited_tus b; node_id_by_tu := <[tu_key tu := id n]> (node_id_by_tu b);
     queue := queue b ++ [(tu_key tu, id n, d)] |}.
Definition collapsed_node (archive : str) (count d : nat) : GraphNode :=
  {| id := &"col__" ++ sanitize_id archive ++ &"__d" ++ count_text d; label := &"[" ++ archive ++ &"]" ++ [nl] ++ count_text count ++ &" TUs";
     node_archive := Some archive; node_object := None; kind := Collapsed archive count; depth := d |}.
Definition tu_overflow_node (name : str) (count d : nat) : GraphNode :=
  {| id := name; label := &"(… and " ++ count_text count ++ &" more)"; node_archive := None; node_object := None;
     kind := Collapsed (&"(overflow)") count; depth := d |}.
Definition has_node (i : str) (b : Bfs) : bool := existsb (λ n, bool_decide (id n = i)) (b_nodes b).
Definition add_collapsed (archive : str) (count d : nat) (b : Bfs) : Bfs :=
  let n := collapsed_node archive count d in if has_node (id n) b then b else add_node n b.

(** What refers to the root itself. *)
Definition seed (root_id : str) (b : Bfs) (entry : CappedReferencer) : Bfs :=
  match entry with
  | CTu tu => if decide (tu_key tu ∈ visited_tus b) then b else enter_tu tu root_id 1 b
  | CollapsedArchive a count =>
      let b := add_collapsed a count 1 b in add_edge (b_edges b ++ [backward (id (collapsed_node a count 1)) root_id]) b
  | FanOutOverflow count =>
      let n := tu_overflow_node (&"ovf__d1__" ++ count_text count) count 1 in
      add_edge (b_edges b ++ [backward (id n) root_id]) (add_node n b)
  end.
(** What refers to a unit, at depth [d]. *)
Definition expand (current_id : str) (d : nat) (b : Bfs) (entry : CappedReferencer) : Bfs :=
  match entry with
  | CTu tu =>
      if decide (tu_key tu ∈ visited_tus b) then
        match node_id_by_tu b !! tu_key tu with
        | Some target_id => add_edge (push_edge_dedup (b_edges b) (backward target_id current_id)) b
        | None => b
        end
      else enter_tu tu current_id d b
  | CollapsedArchive a count =>
      let b := add_collapsed a count d b in
      add_edge (push_edge_dedup (b_edges b) (backward (id (collapsed_node a count d)) current_id)) b
  | FanOutOverflow count =>
      let n := tu_overflow_node (&"ovf__d" ++ count_text d ++ &"__" ++ sanitize_id current_id ++ &"__" ++ count_text count) count d in
      add_edge (b_edges b ++ [backward (id n) current_id]) (add_node n b)
  end.

(** The units that refer to a symbol of [current], each once. *)
Fixpoint first_refs (seen : gset Tu) (refs : list SymbolReference) : list SymbolReference :=
  match refs with
  | [] => []
  | r :: refs => if decide (tu_key r ∈ seen) then first_refs seen refs else r :: first_refs ({[tu_key r]} ∪ seen) refs
  end.
Definition parent_refs (current : Tu) : list SymbolReference := first_refs {[current]} (symbols_in index current ≫= referenced_by).

Definition stops_here (root_archive : option str) (current : Tu) (d : nat) : bool :=
  (max_depth config <=? d)%nat ||
  match depth_policy config with
  | Adaptive => (1 <=? d)%nat && bool_decide (is_Some root_archive) && negb (bool_decide (current.1 = root_archive))
  | Fixed _ => false
  end.
Fixpoint expand_all (fuel : nat) (root_archive : option str) (b : Bfs) : result Stop Bfs :=
  match queue b with
  | [] => Ok b
  | (current, current_id, d) :: q =>
      match fuel with
      | O => Err OutOfFuel
      | S fuel =>
          let b := set_queue q b in
          expand_all fuel root_archive
            (if stops_here root_archive current d then b
             else foldl (expand current_id (S d)) b (rank_and_cap_referencers (parent_refs current) index config))
      end
  end.
End Units.

(** ** The graph *)

Definition unknown_graph (target : str) : BackrefGraph :=
  {| root_id := sanitize_id target; edges := [];
     nodes := [{| id := sanitize_id target; label := target ++ [nl] ++ &"(not in symbol map)"; node_archive := None; node_object := None;
                  kind := RootSymbol target 0; depth := 0 |}] |}.

(** At most as many units are entered as there are references. *)
Definition enough (symbols : list Sym) : nat := length (symbols ≫= referenced_by).

Definition wants_backward (d : Direction) : bool := match d with Forward => false | _ => true end.
Definition wants_forward (d : Direction) : bool := match d with Backward => false | _ => true end.

Definition walk_side (config : GraphConfig) (symbols : list Sym) (side : Side) (root : Sym) (root_id : str) (g : list GraphNode * list GraphEdge) :
    result Stop (list GraphNode * list GraphEdge) :=
  w <-? walk symbols config side (max_depth config) root root_id 1 {| w_nodes := g.1; w_edges := g.2; visited_syms := {[mangled root]} |};
  Ok (w_nodes w, w_edges w).

Definition build_with_index (symbols : list Sym) (index : TuIndex) (target_mangled : str) (config : GraphConfig) : result Stop BackrefGraph :=
  match find_symbol symbols target_mangled with
  | None => Ok (unknown_graph target_mangled)
  | Some root =>
      let root_id := sym_id (mangled root) in
      l <-? format_root_label (demangled root) (size root);
      let root_node := {| id := root_id; label := l; node_archive := archive root; node_object := object root;
                          kind := RootSymbol (demangled root) (size root); depth := 0 |} in
      let use_per_symbol_backward := wants_backward (direction config) && negb (bool_decide (called_by root = [])) in
      let want_tu_backward := wants_backward (direction config) && negb use_per_symbol_backward in
      let level1 := if want_tu_backward then rank_and_cap_referencers (referenced_by root) index config else [] in
      let b := {| b_nodes := [root_node]; b_edges := []; visited_tus := ∅; node_id_by_tu := ∅; queue := [] |} in
      b <-? expand_all index config (enough symbols) (archive root) (foldl (seed index root_id) b level1);
      g <-? (if use_per_symbol_backward then walk_side config symbols callers root root_id (b_nodes b, b_edges b) else Ok (b_nodes b, b_edges b));
      g <-? (if wants_forward (direction config) then walk_side config symbols callees root root_id g else Ok g);
      Ok {| root_id := root_id; nodes := g.1; edges := g.2 |}
  end.
Definition build (symbols : list Sym) (target_mangled : str) (config : GraphConfig) : result Stop BackrefGraph :=
  build_with_index symbols (index_of symbols) target_mangled config.

(** ** Both rankings of the callees, and of the callers, of a symbol *)

Record Ranked := { r_mangled : str; r_demangled : str; r_size : Z; r_count : nat; r_sym : option Sym }.
Definition resolve_ranked (symbols : list Sym) (count : Sym → nat) (m : str) : Ranked :=
  let s := find_symbol symbols m in
  {| r_mangled := m; r_demangled := from_option demangled m s; r_size := from_option size 0%Z s;
     r_count := from_option count O s; r_sym := s |}.
Definition size_leb (a b : Ranked) : bool :=
  if decide (r_size a = r_size b) then str_leb (r_demangled a) (r_demangled b) else (r_size b <=? r_size a)%Z.
Definition count_leb (a b : Ranked) : bool := if decide (r_count a = r_count b) then size_leb a b else (r_count b <=? r_count a)%nat.
Definition rank_dual (symbols : list Sym) (count : Sym → nat) (names : list str) (top_n : nat) : list Ranked * list Ranked * nat :=
  let resolved := resolve_ranked symbols count <$> names in
  let size_top := take top_n (sort_by size_leb resolved) in
  let count_top := take top_n (sort_by count_leb resolved) in
  (size_top, count_top, length (filter (λ c, r_mangled c ∉ r_mangled <$> size_top ++ count_top) resolved)).
Definition rank_callees_dual (symbols : list Sym) (caller : Sym) : nat → list Ranked * list Ranked * nat :=
  rank_dual symbols (λ s, length (referenced_by s)) (references_to caller).
Definition rank_callers_dual (symbols : list Sym) (callee : Sym) : nat → list Ranked * list Ranked * nat :=
  rank_dual symbols (λ s, length (references_to s)) (called_by callee).

(** ** Names of files *)

(** [chars().take(n)] *)
Fixpoint take_chars (n : nat) (s : str) : str :=
  match s with
  | [] => []
  | c :: s => if is_cont c then c :: take_chars n s else match n with O => [] | S n => c :: take_chars n s end
  end.
Definition unsafe_chars : str := ["/"; "092"; ":"; "<"; ">"; "034"; "|"; "?"; "*"; " "; "009"; "010"; "("; ")"; ","; "&"; "#"; ";"]%char.
Definition sanitize_filename (symbol : str) : str :=
  let out := (λ c, if decide (c ∈ unsafe_chars) then "_"%char else c) <$> take_chars 80 symbol in
  match out with [] => &"sym" | _ => out end.
Definition escape_dot_label (s : str) : str :=
  s ≫= λ c, if decide (c = "092"%char) then ["092"; "092"]%char else if decide (c = "034"%char) then ["092"; "034"]%char
            else if decide (c = nl) then ["092"; "n"]%char else [c].

(** ** What is true of the graph *)

(** An edge from one to the other, whichever way it is drawn. *)
Definition uses (es : list GraphEdge) (x y : str) : Prop := ∃ e, e ∈ es ∧ from e = x ∧ to e = y.
Definition beside (side : Side) (es : list GraphEdge) (x y : str) : Prop := uses es (from (edge_to side x y)) (to (edge_to side x y)).
Definition keeps (es es' : list GraphEdge) : Prop := ∀ e, e ∈ es → e ∈ es'.

Lemma uses_mono es es' x y : keeps es es' → uses es x y → uses es' x y.
Proof. intros Hk (e & He & H). exists e. auto. Qed.
Lemma beside_mono side es es' x y : keeps es es' → rtc (beside side es) x y → rtc (beside side es') x y.
Proof. intros Hk. apply rtc_subrel. intros a b. by apply uses_mono. Qed.
Lemma keeps_app es es' : keeps es (es ++ es').
Proof. intros e He. by apply elem_of_app; left. Qed.
Lemma keeps_dedup es e : keeps es (push_edge_dedup es e).
Proof. unfold push_edge_dedup. destruct (existsb _ es); [done|apply keeps_app]. Qed.
Lemma edges_trans es es' es'' : keeps es es' → keeps es' es'' → keeps es es''.
Proof. unfold keeps. auto. Qed.
Lemma pushed_uses es e : uses (es ++ [e]) (from e) (to e).
Proof. exists e. split; [|done]. apply elem_of_app. right. left. Qed.
Lemma dedup_uses es e : uses (push_edge_dedup es e) (from e) (to e).
Proof.
  unfold push_edge_dedup. destruct (existsb _ es) eqn:E; [|apply pushed_uses].
  apply existsb_exists in E as (x & Hx%list_elem_of_In & [H1%bool_decide_eq_true H2%bool_decide_eq_true]%andb_true_iff). by exists x.
Qed.

(** The units among the nodes. *)
Definition is_unit (k : NodeKind) : bool := match k with TranslationUnit _ => true | _ => false end.
Definition unit_of (n : GraphNode) : option Tu := if is_unit (kind n) then (λ o, (node_archive n, o)) <$> node_object n else None.
Definition units (ns : list GraphNode) : list Tu := omap unit_of ns.
Lemma units_snoc ns n : is_unit (kind n) = false → units (ns ++ [n]) = units ns.
Proof. intros Hn. unfold units. rewrite omap_app. cbn. unfold unit_of. by rewrite Hn, app_nil_r. Qed.

(** A node that stands for a symbol, by the name that was looked up, and one
    at which the references to a symbol arrive: itself or its unit. *)
Definition tu_name (r : SymbolReference) : str := &"tu__" ++ sanitize_id (tu_id_str r).
Definition named (symbols : list Sym) (s : Sym) (i : str) : Prop :=
  s ∈ symbols ∧ (i = sym_id (mangled s) ∨ ∃ name, find_symbol symbols name = Some s ∧ i = sym_id name).
Definition about (symbols : list Sym) (s : Sym) (i : str) : Prop :=
  s ∈ symbols ∧ (i = sym_id (mangled s) ∨ ∃ o, object s = Some o ∧ i = tu_name {| ref_archive := archive s; ref_object := o |}).

(** A reference that arrives at a node. *)
Definition refers (symbols : list Sym) (target : str) (r : SymbolReference) : Prop := ∃ s, about symbols s target ∧ r ∈ referenced_by s.
(** The references to a symbol, or those from different units to a unit. *)
Definition refs_ok (symbols : list Sym) (target : str) (refs : list SymbolReference) : Prop :=
  (∀ r, r ∈ refs → refers symbols target r) ∧
  ((∃ s, about symbols s target ∧ refs ⊆+ referenced_by s) ∨ NoDup (tu_key <$> refs)).
(** Of the references that arrive at a node [count] are too many. *)
Definition crowded (symbols : list Sym) (config : GraphConfig) (target : str) (count : nat) : Prop :=
  ∃ refs, refs_ok symbols target refs ∧ (0 < count)%nat ∧ (fan_out config + count ≤ length refs)%nat.
(** Names that [side] leads to, beyond those that are drawn. *)
Definition left_out (config : GraphConfig) (names left : list str) : Prop :=
  left ≠ [] ∧ left ⊆+ names ∧ (fan_out config + length left ≤ length names)%nat.

(** What an edge stands for: a call, a reference from a unit, one from an
    archive drawn as one node, or a number of those left out. *)
Inductive real (symbols : list Sym) (config : GraphConfig) : GraphEdge → Prop :=
  | real_calls s i m : named symbols s i → m ∈ references_to s → real symbols config (forward i (sym_id m))
  | real_called s i m : named symbols s i → m ∈ called_by s → real symbols config (backward (sym_id m) i)
  | real_refers s i r : about symbols s i → r ∈ referenced_by s → real symbols config (backward (tu_name r) i)
  | real_collapsed s i r a d : about symbols s i → r ∈ referenced_by s → ref_archive r = Some a →
      real symbols config (backward (&"col__" ++ sanitize_id a ++ &"__d" ++ count_text d) i)
  | real_more_units i place count : crowded symbols config i count → real symbols config (backward (&"ovf__d" ++ place ++ &"__" ++ count_text count) i)
  | real_more_callees s i d left : named symbols s i → left_out config (references_to s) left →
      real symbols config (forward i (id (overflow_node callees i d (length left))))
  | real_more_callers s i d left : named symbols s i → left_out config (called_by s) left →
      real symbols config (backward (id (overflow_node callers i d (length left))) i).

Lemma sort_by_perm {A} (le : A → A → bool) (l : list A) : sort_by le l ≡ₚ l.
Proof.
  assert (∀ x l, insert_by le x l ≡ₚ x :: l) as Hi.
  { intros x k. induction k as [|z k IH]; cbn [insert_by]; [done|]. destruct (le x z); [done|]. rewrite IH. apply Permutation_swap. }
  unfold sort_by. induction l as [|y l IH]; [done|]. cbn [foldr]. by rewrite Hi, IH.
Qed.
Lemma sort_by_elem {A} (le : A → A → bool) (l : list A) x : x ∈ sort_by le l ↔ x ∈ l.
Proof. by rewrite sort_by_perm. Qed.
Lemma find_symbol_elem symbols name s : find_symbol symbols name = Some s → s ∈ symbols.
Proof.
  unfold find_symbol. intros ([i s'] & Hf & ->)%fmap_Some. apply list_find_Some in Hf as [Hl _]. by eapply list_elem_of_lookup_2.
Qed.

(** *** Walks by symbol *)

Section WalkFacts.
Context (symbols : list Sym) (config : GraphConfig) (side : Side).
Hypothesis real_step : ∀ s i m, named symbols s i → m ∈ next side s → real symbols config (edge_to side i (sym_id m)).
Hypothesis real_more : ∀ s i d left, named symbols s i → left_out config (next side s) left →
  real symbols config (edge_to side i (id (overflow_node side i d (length left)))).
Hypothesis label_ends : ∀ dem n k, side_label side dem n k ≠ Err OutOfFuel.
Hypothesis kind_symbol : ∀ dem n k, is_unit (side_kind side dem n k) = false.
Notation link es := (rtc (beside side es)).

(** What a walk from a node has added: nodes that hang on that node, and
    edges that stand for something. *)
Record grown (node_id : str) (d : nat) (w w' : Walked) : Prop := {
  g_keeps : keeps (w_edges w) (w_edges w');
  g_units : units (w_nodes w') = units (w_nodes w);
  g_real e : e ∈ w_edges w' → e ∈ w_edges w ∨ real symbols config e;
  g_nodes n : n ∈ w_nodes w' → n ∈ w_nodes w ∨ link (w_edges w') node_id (id n) ∧ (d ≤ depth n ≤ max_depth config)%nat;
}.

Lemma grown_refl i d w : grown i d w w.
Proof. split; auto. done. Qed.
Lemma grown_trans i d w w' w'' : grown i d w w' → grown i d w' w'' → grown i d w w''.
Proof.
  intros [K1 U1 R1 H1] [K2 U2 R2 H2]. split; [by eapply edges_trans|congruence| |].
  - intros e [He|He]%R2; auto.
  - intros n [Hn|Hn]%H2; [|by right]. apply H1 in Hn as [Hn|[Hl Hd]]; [by left|right]. split; [by eapply beside_mono|done].
Qed.

(** An edge to another node comes after what hangs on that. *)
Lemma grown_edge i j d w w' : (d ≤ max_depth config)%nat → grown j (S d) w w' → real symbols config (edge_to side i j) →
  grown i d w (set_edges (push_edge_dedup (w_edges w') (edge_to side i j)) w').
Proof.
  intros Hd [K U R H] Hr. set (e := edge_to side i j).
  assert (link (push_edge_dedup (w_edges w') e) i j) as Hij by (apply rtc_once; apply dedup_uses).
  split; cbn [set_edges w_edges w_nodes]; [by apply (edges_trans _ (w_edges w')); [|apply keeps_dedup]|done| |].
  - intros x. unfold push_edge_dedup. destruct (existsb _ _); [by apply R|]. intros [Hx|Hx%list_elem_of_singleton]%elem_of_app; [by apply R|subst x; by right].
  - intros n [Hn|[Hl Hdn]]%H; [by left|right]. split; [|lia]. etrans; [exact Hij|]. eapply beside_mono; [apply keeps_dedup|done].
Qed.
Lemma grown_node i n d w : link (w_edges w) i (id n) → (d ≤ depth n ≤ max_depth config)%nat → is_unit (kind n) = false → grown i d w (push_node n w).
Proof.
  intros Hl Hd Hu. split; cbn; [done|by apply units_snoc|auto|].
  intros x [Hx|Hx%list_elem_of_singleton]%elem_of_app; [by left|subst x; by right].
Qed.

Lemma candidates_spec sym visited c : c ∈ candidates symbols config side sym visited → c.1 ∈ next side sym ∧ c.2 = find_symbol symbols c.1.
Proof.
  unfold candidates. rewrite sort_by_elem. intros [_ (m & -> & [_ Hm]%list_elem_of_filter)%list_elem_of_fmap]%list_elem_of_filter. done.
Qed.

Lemma candidates_submseteq sym visited : (candidates symbols config side sym visited).*1 ⊆+ next side sym.
Proof.
  unfold candidates. rewrite sort_by_perm. transitivity (filter (λ m, m ∉ visited) (next side sym)); [|apply sublist_submseteq, sublist_filter].
  induction (filter (λ m, m ∉ visited) (next side sym)) as [|m l IH]; [done|]. cbn [fmap list_fmap]. rewrite filter_cons.
  destruct (decide _); [by apply submseteq_skip|]. by apply submseteq_cons.
Qed.
Lemma candidates_left sym visited : let cs := candidates symbols config side sym visited in
  (0 < length cs - Nat.min (fan_out config) (length cs))%nat →
  ∃ left, length left = (length cs - Nat.min (fan_out config) (length cs))%nat ∧ left_out config (next side sym) left.
Proof.
  intros cs Hlen. exists (drop (fan_out config) cs.*1). pose proof (candidates_submseteq sym visited) as Hs. fold cs in Hs.
  pose proof (submseteq_length _ _ Hs) as Hl. rewrite length_drop, length_fmap in *. split; [lia|]. split_and!.
  - intros E. apply (f_equal length) in E. rewrite length_drop, length_fmap in E. cbn in E. lia.
  - by etrans; [apply submseteq_drop|].
  - rewrite length_drop, length_fmap. lia.
Qed.

Lemma visit_grown go sym i d c w w' : (d ≤ max_depth config)%nat → named symbols sym i → c.1 ∈ next side sym → c.2 = find_symbol symbols c.1 →
  (∀ s w w', named symbols s (sym_id c.1) → go s (sym_id c.1) (S d) w = Ok w' → grown (sym_id c.1) (S d) w w') →
  visit config side go i d c w = Ok w' → grown i d w w'.
Proof.
  intros Hd Hs Hc Hf Hgo. unfold visit. set (m := if decide (c.1 ∈ visited_syms w) then _ else _). destruct m as [w1|] eqn:Em; [|done].
  cbn [result_bind]. intros [= <-]. pose proof (real_step sym i c.1 Hs Hc) as Hr.
  subst m. destruct (decide _) as [_|_].
  { injection Em as <-. apply grown_edge; [done|apply grown_refl|done]. }
  destruct (candidate_node side c d) as [x|] eqn:Ex; [|done]. cbn [result_bind] in Em.
  assert (id x = sym_id c.1 ∧ depth x = d ∧ is_unit (kind x) = false) as (Hx & Hdx & Hux).
  { unfold candidate_node in Ex. destruct (side_label _ _ _ _); [|done]. injection Ex as <-. split_and!; [done..|apply kind_symbol]. }
  assert (grown (sym_id c.1) (S d) (push_node x (see c.1 w)) w1) as Hg.
  { destruct c.2 as [s|] eqn:Es; [|injection Em as <-; apply grown_refl].
    destruct (_ && _); [|injection Em as <-; apply grown_refl]. apply Hgo in Em; [done|].
    split; [by eapply find_symbol_elem|]. right. by exists c.1. }
  destruct (grown_edge i (sym_id c.1) d _ _ Hd Hg Hr) as [K U R H].
  split; [done|by rewrite U; cbn [push_node see w_nodes]; rewrite units_snoc|done|].
  intros n [[Hn|Hn%list_elem_of_singleton]%elem_of_app|Hn]%H; [by left|subst n; right; rewrite Hx, Hdx|by right].
  split; [|done]. apply rtc_once, dedup_uses.
Qed.

Lemma walk_grown fuel sym i d w w' : named symbols sym i → walk symbols config side fuel sym i d w = Ok w' → grown i d w w'.
Proof.
  revert sym i d w w'. induction fuel as [|fuel IH]; intros sym i d w w' Hs; cbn [walk];
    (destruct (Nat.ltb_spec (max_depth config) d) as [|Hd]; [intros [= <-]; apply grown_refl|]); [done|]. cbv zeta.
  set (all := candidates symbols config side sym (visited_syms w)).
  assert (∀ cs w w', (∀ c, c ∈ cs → c ∈ all) → visit_all config side (walk symbols config side fuel) i d cs w = Ok w' → grown i d w w') as Hall.
  { induction cs as [|c cs IHc]; intros w1 w2 Hin; cbn [visit_all]; [intros [= <-]; apply grown_refl|].
    destruct (visit _ _ _ _ _ _ _) as [w3|] eqn:E3; [|done]. cbn [result_bind]. intros H.
    destruct (candidates_spec sym _ c (Hin c ltac:(left))) as [Hc Hf].
    eapply grown_trans; [|by apply IHc; [set_solver|]]. eapply (visit_grown _ sym); [done..| |exact E3]. intros s ? ?. by apply IH. }
  destruct (visit_all _ _ _ _ _ _ _) as [w1|] eqn:Ev; [|done]. cbn [result_bind].
  assert (grown i d w w1) as Hg by (eapply Hall; [|exact Ev]; intros c Hc;
    rewrite <- (take_drop (Nat.min (fan_out config) (length all)) all); by apply elem_of_app; left).
  destruct (Nat.ltb_spec 0 (length all - Nat.min (fan_out config) (length all))) as [Hlt|]; intros [= <-]; [|done].
  destruct (candidates_left sym (visited_syms w) Hlt) as (left & Eleft & Hleft). fold all in Eleft. rewrite <- Eleft.
  set (n := overflow_node _ _ _ _). eapply grown_trans; [exact Hg|].
  split; cbn [set_edges push_node w_edges w_nodes]; [apply keeps_app|by apply units_snoc| |].
  - intros e [He|He%list_elem_of_singleton]%elem_of_app; [by left|subst e; right; by apply (real_more sym)].
  - intros x [Hx|Hx%list_elem_of_singleton]%elem_of_app; [by left|subst x; right]. split; [|cbn; lia]. apply rtc_once, pushed_uses.
Qed.

Lemma walk_ends fuel sym i d w : (max_depth config < fuel + d)%nat → walk symbols config side fuel sym i d w ≠ Err OutOfFuel.
Proof.
  revert sym i d w. induction fuel as [|fuel IH]; intros sym i d w Hf; cbn [walk];
    (destruct (Nat.ltb_spec (max_depth config) d) as [|Hd]; [done|]); [lia|]. cbv zeta.
  assert (∀ cs w, visit_all config side (walk symbols config side fuel) i d cs w ≠ Err OutOfFuel) as Hv.
  { induction cs as [|c cs IHc]; intros w'; cbn [visit_all]; [done|].
    destruct (visit _ _ _ _ _ _ _) as [w2|e] eqn:E2; [apply IHc|]. cbn [result_bind]. intros [= ->]. unfold visit in E2.
    destruct (decide _); [done|]. unfold candidate_node in E2. destruct (side_label _ _ _ _) as [l|x] eqn:El; cbn [result_bind] in E2.
    - destruct c.2 as [s|]; [|done]. destruct (_ && _); [|done]. destruct (walk _ _ _ _ _ _ _ _) as [|e] eqn:Ew; [done|].
      cbn [result_bind] in E2. injection E2 as ->. apply (IH s (sym_id c.1) (S d) _ ltac:(lia) Ew).
    - injection E2 as ->. by apply (label_ends _ _ _ El). }
  destruct (visit_all _ _ _ _ _ _ _) as [w1|e] eqn:Ev; cbn [result_bind]; [by destruct (0 <? _)%nat|]. rewrite <- Ev. apply Hv.
Qed.
End WalkFacts.

(** *** The queue of units *)

Lemma symbols_in_sub symbols k s : s ∈ symbols_in (index_of symbols) k → s ∈ symbols ∧ object s = Some k.2 ∧ archive s = k.1.
Proof.
  unfold index_of. assert (∀ l by_tu, (∀ k s, s ∈ symbols_in by_tu k → s ∈ symbols ∧ object s = Some k.2 ∧ archive s = k.1) → (∀ s, s ∈ l → s ∈ symbols) →
    s ∈ symbols_in (foldl index_symbol by_tu l) k → s ∈ symbols ∧ object s = Some k.2 ∧ archive s = k.1) as Hf.
  { induction l as [|x l IH]; intros by_tu Hb Hl; cbn [foldl]; [apply Hb|]. apply IH; [|set_solver]. clear IH k s. intros k s.
    unfold index_symbol. destruct (object x) as [o|] eqn:Eo; [|apply Hb]. unfold symbols_in, TuIndex in *. destruct (decide (k = (archive x, o))) as [->|Hk].
    - rewrite lookup_insert_eq. cbn [default from_option]. intros [Hs|Hs%list_elem_of_singleton]%elem_of_app; [by apply Hb|].
      subst s. split; [|done]. apply Hl. left.
    - rewrite lookup_insert_ne by done. apply Hb. }
  apply (Hf symbols ∅); [|done]. intros k' s'. unfold symbols_in, TuIndex. rewrite lookup_empty. by intros ?%not_elem_of_nil.
Qed.
Lemma first_refs_elem seen refs r : r ∈ first_refs seen refs → r ∈ refs.
Proof.
  revert seen. induction refs as [|x refs IH]; intros seen; cbn [first_refs]; [done|].
  destruct (decide _); [by intros ?%IH; right|]. intros [->|?%IH]%elem_of_cons; [left|by right].
Qed.

(** Entries of a ranking: the units are among the references, the archives
    are those of references. *)
Lemma ranked_elem refs index config entry : entry ∈ rank_and_cap_referencers refs index config →
  match entry with
  | CTu r => r ∈ refs | CollapsedArchive a _ => ∃ r, r ∈ refs ∧ ref_archive r = Some a
  | FanOutOverflow n => (0 < n)%nat ∧ (fan_out config + n ≤ length refs)%nat
  end.
Proof.
  unfold rank_and_cap_referencers. cbv zeta. set (l := sort_by _ _). intros [He|[He|He]%elem_of_app]%elem_of_app.
  - apply list_elem_of_fmap in He as (r & -> & Hr). assert (r ∈ l) as Hl.
    { rewrite <- (take_drop (Nat.min (fan_out config) (length l)) l). by apply elem_of_app; left. }
    unfold l in Hl. rewrite sort_by_elem in Hl. by apply list_elem_of_filter in Hl as [_ [_ ?]%list_elem_of_filter].
  - destruct (Nat.ltb_spec 0 (length l - Nat.min (fan_out config) (length l))) as [Hlt|]; [|by apply not_elem_of_nil in He].
    apply list_elem_of_singleton in He as ->. split; [done|]. assert (length l ≤ length refs)%nat; [|lia].
    unfold l. rewrite sort_by_perm. by do 2 (etrans; [apply length_filter|]).
  - apply list_elem_of_fmap in He as ([a n] & -> & Ha). unfold by_collapse in Ha. apply list_elem_of_fmap in Ha as (b & [= -> _] & Hb).
    rewrite sort_by_elem in Hb. apply elem_of_remove_dups, list_elem_of_omap in Hb as (r & Hr & Hra). exists r.
    by apply list_elem_of_filter in Hr as [_ [_ ?]%list_elem_of_filter].
Qed.

Section BfsFacts.
Context (symbols : list Sym) (config : GraphConfig) (root : str).
Notation index := (index_of symbols).
Definition universe : gset Tu := list_to_set (tu_key <$> (symbols ≫= referenced_by)).

(** Every node leads to the root, every edge stands for something, and every
    unit was entered once. *)
Record hung (b : Bfs) : Prop := {
  h_nodes n : n ∈ b_nodes b → rtc (uses (b_edges b)) (id n) root ∧ (depth n ≤ Nat.max 1 (max_depth config))%nat;
  h_queue k i d : (k, i, d) ∈ queue b → rtc (uses (b_edges b)) i root ∧ i = tu_name {| ref_archive := k.1; ref_object := k.2 |};
  h_ids k i : node_id_by_tu b !! k = Some i → i = tu_name {| ref_archive := k.1; ref_object := k.2 |};
  h_real e : e ∈ b_edges b → real symbols config e;
  h_once : NoDup (units (b_nodes b));
  h_visited k : k ∈ units (b_nodes b) → k ∈ visited_tus b;
  h_known : visited_tus b ⊆ universe;
}.
Definition pending (b : Bfs) : nat := base.size (universe ∖ visited_tus b) + length (queue b).

Lemma hung_edges b es : hung b → keeps (b_edges b) es → (∀ e, e ∈ es → e ∈ b_edges b ∨ real symbols config e) → hung (add_edge es b).
Proof.
  intros [H1 H2 H3 H4 H5 H6 H7] Hk Hr.
  assert (∀ x, rtc (uses (b_edges b)) x root → rtc (uses es) x root) as Hup by (intros x; apply rtc_subrel; intros y z; by apply uses_mono).
  split; cbn [add_edge b_nodes b_edges queue visited_tus node_id_by_tu]; try done.
  - intros n [Hn Hd]%H1. auto.
  - intros k i d [Hq Hi]%H2. auto.
  - intros e [He|He]%Hr; auto.
Qed.
Lemma hung_push b e : hung b → real symbols config e → hung (add_edge (b_edges b ++ [e]) b).
Proof.
  intros H Hr. apply hung_edges; [done|apply keeps_app|]. intros x [Hx|Hx%list_elem_of_singleton]%elem_of_app; [by left|subst x; by right].
Qed.
Lemma hung_dedup b e : hung b → real symbols config e → hung (add_edge (push_edge_dedup (b_edges b) e) b).
Proof.
  intros H Hr. unfold push_edge_dedup. destruct (existsb _ _) eqn:E; [|by apply hung_push].
  apply hung_edges; auto. done.
Qed.

(** A node that is no unit, once its edge is there. *)
Lemma hung_node n target b : hung b → uses (b_edges b) (id n) target → rtc (uses (b_edges b)) target root →
  is_unit (kind n) = false → (depth n ≤ Nat.max 1 (max_depth config))%nat → hung (add_node n b).
Proof.
  intros [H1 H2 H3 H4 H5 H6 H7] Hu Ht Hk Hd.
  split; cbn [add_node b_nodes b_edges queue visited_tus node_id_by_tu]; rewrite ?units_snoc by done; try done.
  intros x [Hx|Hx%list_elem_of_singleton]%elem_of_app; [by apply H1|]. subst x. split; [by eapply rtc_l|done].
Qed.

Lemma hung_enter s tu target d b : hung b → rtc (uses (b_edges b)) target root → tu_key tu ∉ visited_tus b →
  about symbols s target → tu ∈ referenced_by s → (d ≤ Nat.max 1 (max_depth config))%nat →
  hung (enter_tu index tu target d b) ∧ pending (enter_tu index tu target d b) = pending b.
Proof.
  intros [H1 H2 H3 H4 H5 H6 H7] Ht Hn Hs Hr Hd. set (n := tu_node index tu d).
  assert (tu_key tu ∈ universe) as Hk.
  { apply elem_of_list_to_set, list_elem_of_fmap. exists tu. split; [done|]. apply list_elem_of_bind. exists s. split; [done|apply Hs]. }
  assert (∀ x, rtc (uses (b_edges b)) x root → rtc (uses (b_edges b ++ [backward (id n) target])) x root) as Hup.
  { intros x Hx. eapply rtc_subrel; [|exact Hx]. intros y z. apply uses_mono, keeps_app. }
  assert (rtc (uses (b_edges b ++ [backward (id n) target])) (id n) root) as Hnr.
  { eapply rtc_l; [|apply Hup, Ht]. apply (pushed_uses _ (backward (id n) target)). }
  assert (units (b_nodes b ++ [n]) = units (b_nodes b) ++ [tu_key tu]) as Hu by (unfold units; by rewrite omap_app).
  assert (id n = tu_name {| ref_archive := (tu_key tu).1; ref_object := (tu_key tu).2 |}) as Hid by by destruct tu.
  split; [split; cbn [enter_tu b_nodes b_edges queue visited_tus node_id_by_tu]; fold n|].
  - intros x [Hx|Hx%list_elem_of_singleton]%elem_of_app; [by destruct (H1 x Hx); auto|by subst x].
  - intros k i d' [Hq|Hq%list_elem_of_singleton]%elem_of_app; [destruct (H2 _ _ _ Hq); auto|by injection Hq as -> -> ->].
  - intros k i [[<- <-]|[_ Hki]]%lookup_insert_Some; [done|by apply H3].
  - intros e [He|He%list_elem_of_singleton]%elem_of_app; [by apply H4|]. subst e. by apply (real_refers _ _ s).
  - rewrite Hu. apply NoDup_app. split_and!; [done| |apply NoDup_singleton]. intros k Hin ->%list_elem_of_singleton. by apply Hn, H6.
  - rewrite Hu. intros k [Hin|Hin%list_elem_of_singleton]%elem_of_app; [by apply elem_of_union_r, H6|subst k; by apply elem_of_union_l, elem_of_singleton].
  - apply union_subseteq. split; [by apply singleton_subseteq_l|done].
  - unfold pending. cbn [enter_tu queue visited_tus]. rewrite length_app. cbn [length].
    assert (universe ∖ visited_tus b = {[tu_key tu]} ∪ universe ∖ ({[tu_key tu]} ∪ visited_tus b)) as ->.
    { apply set_eq. intros k. rewrite elem_of_union, !elem_of_difference, elem_of_union, elem_of_singleton.
      destruct (decide (k = tu_key tu)) as [->|]; tauto. }
    rewrite (size_union (C := gset Tu) {[tu_key tu]} (universe ∖ ({[tu_key tu]} ∪ visited_tus b))), size_singleton; [lia|]. apply disjoint_singleton_l.
    rewrite elem_of_difference, elem_of_union, elem_of_singleton. tauto.
Qed.

(** What a step at [target] keeps. *)
Definition kept (target : str) (k : nat) (b : Bfs) : Prop := hung b ∧ rtc (uses (b_edges b)) target root ∧ pending b = k.

(** A node with its edge to the target. *)
Lemma kept_bundle target k n es b : kept target k b → keeps (b_edges b) es → uses es (id n) target →
  (∀ e, e ∈ es → e ∈ b_edges b ∨ real symbols config e) → is_unit (kind n) = false → (depth n ≤ Nat.max 1 (max_depth config))%nat →
  kept target k (add_edge es (add_node n b)) ∧ kept target k (add_edge es b).
Proof.
  intros (H & Ht & Hp) Hk Hu Hr Hn Hd. pose proof (hung_edges b es H Hk Hr) as He.
  assert (rtc (uses es) target root) as Ht' by (eapply rtc_subrel; [|exact Ht]; intros x y; by apply uses_mono).
  split; (split; [|done]); [|done]. by apply (hung_node n target (add_edge es b)).
Qed.
Lemma kept_collapsed target k a count d es s r b : kept target k b → about symbols s target → r ∈ referenced_by s → ref_archive r = Some a →
  (d ≤ Nat.max 1 (max_depth config))%nat → let e := backward (id (collapsed_node a count d)) target in
  es = b_edges b ++ [e] ∨ es = push_edge_dedup (b_edges b) e → kept target k (add_edge es (add_collapsed a count d b)).
Proof.
  intros Hb Hs Hr Ha Hd e He. assert (real symbols config e) as Hre by (by eapply real_collapsed).
  destruct (kept_bundle target k (collapsed_node a count d) es b) as [H1 H2]; [done| | | |done|done|].
  - destruct He as [->| ->]; [apply keeps_app|apply keeps_dedup].
  - destruct He as [->| ->]; [apply (pushed_uses _ e)|apply (dedup_uses _ e)].
  - intros x. unfold push_edge_dedup in He. destruct He as [->| ->]; [|destruct (existsb _ _); [by left|]];
      (intros [Hx|Hx%list_elem_of_singleton]%elem_of_app; [by left|subst x; by right]).
  - unfold add_collapsed. by destruct (has_node _ _).
Qed.
Lemma kept_more target k n b : kept target k b → real symbols config (backward (id n) target) → is_unit (kind n) = false → (depth n ≤ Nat.max 1 (max_depth config))%nat →
  kept target k (add_edge (b_edges b ++ [backward (id n) target]) (add_node n b)).
Proof.
  intros Hb Hn Hu Hd. apply kept_bundle; [done|apply keeps_app|apply (pushed_uses _ (backward (id n) target))| |done|done].
  intros x [Hx|Hx%list_elem_of_singleton]%elem_of_app; [by left|subst x; by right].
Qed.
Lemma kept_enter s target k tu d b : kept target k b → tu_key tu ∉ visited_tus b → about symbols s target → tu ∈ referenced_by s →
  (d ≤ Nat.max 1 (max_depth config))%nat → kept target k (enter_tu index tu target d b).
Proof.
  intros (H & Ht & Hp) Hn Hs Hr Hd. destruct (hung_enter s tu target d b H Ht Hn Hs Hr Hd) as [H' Hp']. split_and!; [done| |by rewrite Hp'].
  eapply rtc_subrel; [|exact Ht]. intros x y. apply uses_mono, keeps_app.
Qed.

Definition entry_ok (target : str) (entry : CappedReferencer) : Prop :=
  match entry with
  | CTu r => refers symbols target r | CollapsedArchive a _ => ∃ r, refers symbols target r ∧ ref_archive r = Some a
  | FanOutOverflow n => crowded symbols config target n
  end.

Lemma seed_kept target k b entry : kept target k b → entry_ok target entry → kept target k (seed index target b entry).
Proof.
  intros Hb He. destruct entry as [tu|a count|count]; cbn [seed entry_ok] in *.
  - destruct He as (s & Hs & Hr). destruct (decide _); [done|]. apply (kept_enter s); auto. lia.
  - destruct He as (r & (s & Hs & Hr) & Ha). cbv zeta. apply (kept_collapsed target k a count 1 _ s r); auto; [lia|].
    left. unfold add_collapsed. by destruct (has_node _ _).
  - apply (kept_more target k (tu_overflow_node _ _ _)); [done| |done|cbn; lia]. by apply (real_more_units symbols config target (&"1") count).
Qed.
Lemma expand_kept target k d b entry : kept target k b → entry_ok target entry → (d ≤ max_depth config)%nat →
  kept target k (expand index target d b entry).
Proof.
  intros Hb He Hd. destruct entry as [tu|a count|count]; cbn [expand entry_ok] in *.
  - destruct He as (s & Hs & Hr). destruct (decide _); [|apply (kept_enter s); auto; lia].
    destruct (node_id_by_tu b !! tu_key tu) as [i|] eqn:Ei; [|done]. destruct Hb as (H & Ht & Hp).
    apply (h_ids b H) in Ei. split_and!; [apply hung_dedup; [done|]| |done].
    + subst i. assert ({| ref_archive := (tu_key tu).1; ref_object := (tu_key tu).2 |} = tu) as -> by (by destruct tu). by apply (real_refers _ _ s).
    + eapply rtc_subrel; [|exact Ht]. intros x y. apply uses_mono, keeps_dedup.
  - destruct He as (r & (s & Hs & Hr) & Ha). cbv zeta. apply (kept_collapsed target k a count d _ s r); auto; [lia|].
    right. unfold add_collapsed. by destruct (has_node _ _).
  - apply (kept_more target k (tu_overflow_node _ _ _)); [done| |done|cbn; lia]. cbn [tu_overflow_node id].
    pose proof (real_more_units symbols config target (count_text d ++ &"__" ++ sanitize_id target) count He) as Hr.
    rewrite <- !(assoc_L (++)) in Hr. exact Hr.
Qed.
Lemma kept_fold target k (f : Bfs → CappedReferencer → Bfs) entries b : (∀ b e, kept target k b → entry_ok target e → kept target k (f b e)) →
  (∀ e, e ∈ entries → entry_ok target e) → kept target k b → kept target k (foldl f b entries).
Proof.
  intros Hf. revert b. induction entries as [|e entries IH]; intros b Hin Hb; [done|]. cbn [foldl].
  apply IH; [set_solver|]. apply Hf; [done|]. apply Hin. left.
Qed.
Lemma ranked_ok target refs : refs_ok symbols target refs → ∀ e, e ∈ rank_and_cap_referencers refs index config → entry_ok target e.
Proof.
  intros Hok e He%ranked_elem. pose proof Hok as [Hr _]. destruct e; cbn in *; [by apply Hr| |by exists refs].
  destruct He as (r & Hin & Ha). exists r. auto.
Qed.
Lemma first_refs_once seen refs : NoDup (tu_key <$> first_refs seen refs) ∧ ∀ r, r ∈ first_refs seen refs → tu_key r ∉ seen.
Proof.
  revert seen. induction refs as [|x refs IH]; intros seen; cbn [first_refs]; [split; [constructor|by intros r ?%not_elem_of_nil]|].
  destruct (decide _) as [|Hx]; [apply IH|]. destruct (IH ({[tu_key x]} ∪ seen)) as [H1 H2]. split.
  - cbn [fmap list_fmap]. constructor; [|done]. intros (r & E & Hr)%list_elem_of_fmap. apply H2 in Hr. rewrite <- E in Hr. set_solver.
  - intros r [->|Hr%H2]%elem_of_cons; [done|set_solver].
Qed.

Lemma expand_all_hung fuel ra b : hung b → (pending b ≤ fuel)%nat → ∃ b', expand_all index config fuel ra b = Ok b' ∧ hung b'.
Proof.
  revert b. induction fuel as [|fuel IH]; intros b Hb Hf.
  - assert (queue b = []) as Hq by (apply nil_length_inv; unfold pending in Hf; lia). exists b. cbn [expand_all]. by rewrite Hq.
  - cbn [expand_all]. destruct (queue b) as [|[[cur i] d] q] eqn:Eq; [by exists b|]. cbv zeta.
    destruct (h_queue b Hb cur i d) as [Hi Hn]; [rewrite Eq; left|].
    assert (kept i (pred (pending b)) (set_queue q b)) as Hk.
    { split_and!; [|done|unfold pending; cbn [set_queue visited_tus queue]; rewrite Eq; cbn [length]; lia].
      destruct Hb as [H1 H2 H3 H4 H5 H6 H7]. split; try done. intros k j d' Hin. apply (H2 k j d'). rewrite Eq. by right. }
    destruct (stops_here config ra cur d) eqn:Es; [apply IH; [apply Hk|]|].
    { destruct Hk as (_ & _ & ->). lia. }
    unfold stops_here in Es. apply orb_false_iff in Es as [Hd%Nat.leb_gt _].
    set (entries := rank_and_cap_referencers (parent_refs index cur) index config).
    assert (kept i (pred (pending b)) (foldl (expand index i (S d)) (set_queue q b) entries)) as (H' & _ & Hp').
    + apply kept_fold; [intros b' e Hb' He; by apply expand_kept| |exact Hk].
      apply ranked_ok. split; [|right; apply first_refs_once]. intros r Hr%first_refs_elem. apply list_elem_of_bind in Hr as (s & Hr & (Hs & Ho & Ha)%symbols_in_sub).
      exists s. split; [|done]. split; [done|]. right. exists cur.2. split; [done|]. by rewrite Ha.
    + apply IH; [done|]. rewrite Hp'. lia.
Qed.
End BfsFacts.

(** *** The whole graph *)

Lemma set_size_le `{Countable A} (l : list A) : (base.size (list_to_set l : gset A) ≤ length l)%nat.
Proof.
  induction l as [|x l IH]; [done|]. cbn [list_to_set length]. rewrite size_union_alt, size_singleton.
  assert (base.size ((list_to_set l : gset A) ∖ {[x]}) ≤ base.size (list_to_set l : gset A))%nat; [|lia]. apply subseteq_size. set_solver.
Qed.
Lemma enough_units symbols : (base.size (universe symbols) ≤ enough symbols)%nat.
Proof. unfold universe, enough. etrans; [apply set_size_le|]. by rewrite length_fmap. Qed.

Lemma truncated_ends s : truncated s ≠ Err OutOfFuel.
Proof. unfold truncated. destruct (64 <? _)%nat; [|done]. destruct (s !! 63%nat) as [c|]; [|done]. by destruct (is_cont c). Qed.
Lemma symbol_label_ends relation dem n k : format_symbol_label relation dem n k ≠ Err OutOfFuel.
Proof. unfold format_symbol_label. pose proof (truncated_ends dem). destruct (truncated dem) as [|[]]; done. Qed.
Lemma root_label_ends dem n : format_root_label dem n ≠ Err OutOfFuel.
Proof. unfold format_root_label. pose proof (truncated_ends dem). destruct (truncated dem) as [|[]]; done. Qed.

Section Build.
Context (symbols : list Sym) (config : GraphConfig).

(** A node that leads to the root, or to which the root leads. *)
Definition tied (es : list GraphEdge) (root n : str) : Prop := rtc (uses es) n root ∨ rtc (uses es) root n.
Record good (root : str) (g : list GraphNode * list GraphEdge) : Prop := {
  good_nodes n : n ∈ g.1 → tied g.2 root (id n) ∧ (depth n ≤ Nat.max 1 (max_depth config))%nat;
  good_edges e : e ∈ g.2 → real symbols config e;
  good_units : NoDup (units g.1);
}.

Lemma beside_callers es x y : rtc (beside callers es) x y → rtc (uses es) y x.
Proof.
  induction 1 as [|a b c Hab _ IH]; [done|]. eapply rtc_r; [exact IH|exact Hab].
Qed.
Lemma walk_side_good side root i g : (∀ es x y, rtc (beside side es) x y → tied es x y) →
  (∀ s j m, named symbols s j → m ∈ next side s → real symbols config (edge_to side j (sym_id m))) →
  (∀ s j d left, named symbols s j → left_out config (next side s) left →
     real symbols config (edge_to side j (id (overflow_node side j d (length left))))) →
  (∀ dem n k, side_label side dem n k ≠ Err OutOfFuel) → (∀ dem n k, is_unit (side_kind side dem n k) = false) →
  named symbols root i → good i g →
  walk_side config symbols side root i g ≠ Err OutOfFuel ∧ ∀ g', walk_side config symbols side root i g = Ok g' → good i g'.
Proof.
  intros Ht Hr Hm Hl Hk Hn [G1 G2 G3]. unfold walk_side. set (w := {| w_nodes := g.1; w_edges := g.2; visited_syms := _ |}).
  pose proof (walk_ends symbols config side Hl (max_depth config) root i 1 w ltac:(lia)) as He.
  destruct (walk symbols config side (max_depth config) root i 1 w) as [w'|[]] eqn:Ew; cbn [result_bind]; [|by split|by split].
  split; [done|]. intros g' [= <-]. destruct (walk_grown symbols config side Hr Hm Hl Hk _ _ _ _ _ _ Hn Ew) as [K U R H]. split; cbn [fst snd].
  - intros n [[[Hn1|Hn1] Hd]%G1|[Hl' Hd]]%H.
    + split; [left|done]. eapply rtc_subrel; [|exact Hn1]. intros x y. by apply uses_mono.
    + split; [right|done]. eapply rtc_subrel; [|exact Hn1]. intros x y. by apply uses_mono.
    + split; [by apply Ht|lia].
  - intros e [He'|He']%R; [by apply G2|done].
  - by rewrite U.
Qed.

Lemma callers_good (up : bool) root i g : named symbols root i → good i g →
  (if up then walk_side config symbols callers root i g else Ok g) ≠ Err OutOfFuel ∧
  ∀ g', (if up then walk_side config symbols callers root i g else Ok g) = Ok g' → good i g'.
Proof.
  intros Hn Hg. destruct up; [|split; [done|by intros g' [= <-]]]. apply walk_side_good; try done.
  - intros es x y H. left. by apply beside_callers.
  - intros s j m Hs Hm. by apply (real_called symbols config s).
  - intros s j d left. apply (real_more_callers symbols config s).
  - intros. apply symbol_label_ends.
Qed.
Lemma callees_good (down : bool) root i g : named symbols root i → good i g →
  (if down then walk_side config symbols callees root i g else Ok g) ≠ Err OutOfFuel ∧
  ∀ g', (if down then walk_side config symbols callees root i g else Ok g) = Ok g' → good i g'.
Proof.
  intros Hn Hg. destruct down; [|split; [done|by intros g' [= <-]]]. apply walk_side_good; try done.
  - intros es x y H. by right.
  - intros s j m Hs Hm. by apply (real_calls symbols config s).
  - intros s j d left. apply (real_more_callees symbols config s).
  - intros. apply symbol_label_ends.
Qed.

Lemma build_good target : build symbols target config ≠ Err OutOfFuel ∧
  ∀ g, build symbols target config = Ok g → good (root_id g) (nodes g, edges g).
Proof.
  unfold build, build_with_index. destruct (find_symbol symbols target) as [root|] eqn:Ef.
  2:{ split; [done|]. intros g [= <-]. split; cbn; [|by intros e ?%not_elem_of_nil|constructor].
      intros n ->%list_elem_of_singleton. split; [by left|cbn; lia]. }
  cbv zeta. pose proof (root_label_ends (demangled root) (size root)) as Hl.
  destruct (format_root_label _ _) as [l|[]]; cbn [result_bind]; [|by split|by split]. clear Hl.
  assert (root ∈ symbols) as Hroot by (by eapply find_symbol_elem). set (i := sym_id (mangled root)).
  set (n := {| id := i; label := l; node_archive := _; node_object := _; kind := _; depth := 0 |}).
  set (up := wants_backward (direction config) && negb (bool_decide (called_by root = []))).
  set (level1 := if wants_backward (direction config) && negb up then _ else _).
  set (b0 := {| b_nodes := [n]; b_edges := []; visited_tus := ∅; node_id_by_tu := ∅; queue := [] |}).
  assert (kept symbols config i i (base.size (universe symbols)) b0) as H0.
  { split_and!; [|done|unfold pending; cbn; by rewrite difference_empty_L, Nat.add_0_r].
    split; cbn; [|by intros ? ? ? ?%not_elem_of_nil|done|by intros ? ?%not_elem_of_nil|constructor|by intros ? ?%not_elem_of_nil|apply empty_subseteq].
    intros x ->%list_elem_of_singleton. split; [done|cbn; lia]. }
  assert (∀ e, e ∈ level1 → entry_ok symbols config i e) as Hlev.
  { unfold level1. destruct (_ && negb up); [|by intros e ?%not_elem_of_nil]. apply ranked_ok.
    assert (about symbols root i) as Hri by (split; [done|by left]). split; [intros r Hr; by exists root|]. left. exists root. by split. }
  destruct (kept_fold symbols config i i (base.size (universe symbols)) (seed (index_of symbols) i) level1 b0) as (H1 & _ & Hp);
    [intros b e Hb He; by apply seed_kept|done|done|].
  destruct (expand_all_hung symbols config i (enough symbols) (archive root) _ H1) as (b & -> & [B1 _ _ B4 B5 _ _]).
  { rewrite Hp. apply enough_units. }
  cbn [result_bind]. assert (good i (b_nodes b, b_edges b)) as Hg0.
  { split; cbn; [intros x [? ?]%B1; split; [by left|done]|done|done]. }
  assert (named symbols root i) as Hnamed by (split; [done|by left]).
  destruct (callers_good up root i _ Hnamed Hg0) as [U1 U2]. destruct (if up then _ else _) as [g1|[]] eqn:E1; cbn [result_bind]; [|by split|by split].
  destruct (callees_good (wants_forward (direction config)) root i g1 Hnamed (U2 g1 eq_refl)) as [F1 F2].
  destruct (if wants_forward _ then _ else _) as [g2|[]] eqn:E2; cbn [result_bind]; [|by split|by split].
  split; [done|]. intros g [= <-]. cbn. destruct (F2 g2 eq_refl) as [? ? ?]. by split.
Qed.
End Build.

(** C25: The synthesis of a graph ends.  In the graph every node leads to the
    root or is led to by it, at a depth of at most [max_depth] (or 1; a fixed
    depth sets no other bound); every edge stands for a call or a reference of
    the report, for those from an archive, or for a number of those left out
    at a node with more than [fan_out] of them; and no translation unit has
    two nodes. *)
Theorem graph_hangs_together symbols target config : build symbols target config ≠ Err OutOfFuel ∧
  ∀ g, build symbols target config = Ok g →
    (∀ n, n ∈ nodes g → tied (edges g) (root_id g) (id n) ∧ (depth n ≤ Nat.max 1 (max_depth config))%nat) ∧
    (∀ e, e ∈ edges g → real symbols config e) ∧ NoDup (units (nodes g)).
Proof.
  destruct (build_good symbols config target) as [H1 H2]. split; [done|]. intros g Hg. by destruct (H2 g Hg).
Qed.

(** A label never closes the quotes around it. *)
Lemma escaped_safe s a b : escape_dot_label s = a ++ "034"%char :: b → ∃ a', a = a' ++ ["092"%char].
Proof.
  revert a. induction s as [|c s IH]; intros a; cbn; [by destruct a|]. unfold escape_dot_label in IH.
  destruct (decide (c = "092"%char)); [|destruct (decide (c = "034"%char)); [|destruct (decide (c = nl))]]; cbn; intros E.
  - destruct a as [|x [|y a]]; [done..|]. injection E as <- <- E. destruct (IH _ E) as [a' ->]. by exists ("092" :: "092" :: a')%char.
  - destruct a as [|x [|y a]]; [done| |].
    + injection E as <- _. by exists [].
    + injection E as <- <- E. destruct (IH _ E) as [a' ->]. by exists ("092" :: "034" :: a')%char.
  - destruct a as [|x [|y a]]; [done..|]. injection E as <- <- E. destruct (IH _ E) as [a' ->]. by exists ("092" :: "n" :: a')%char.
  - destruct a as [|x a]; [by injection E|]. injection E as <- E. destruct (IH _ E) as [a' ->]. by exists (c :: a').
Qed.

(** ** What goes wrong *)

(** The number of hops that is asked for has no effect. *)
Lemma fixed_depth_ignored symbols target fan max collapse exclude dir n k :
  let config p := {| depth_policy := p; fan_out := fan; max_depth := max; collapse_archives := collapse; exclude_archives := exclude; direction := dir |} in
  build symbols target (config (Fixed n)) = build symbols target (config (Fixed k)).
Proof. reflexivity. Qed.

Definition a_symbol (name : str) (bytes : Z) (calls : list str) : Sym :=
  {| mangled := name; demangled := name; address := 0; size := bytes; sym_type := &"T"; region := Flash; archive := None; object := None;
     output_section := None; source := &"nm"; referenced_by := []; references_to := calls; called_by := [] |}.
Definition forward_config (max : nat) : GraphConfig :=
  {| depth_policy := Adaptive; fan_out := 5; max_depth := max; collapse_archives := []; exclude_archives := []; direction := Forward |}.
Definition drawn (symbols : list Sym) (max : nat) : result Stop (list (str * nat) * list (str * str)) :=
  g <-? build symbols (&"r") (forward_config max); Ok ((λ n, (id n, depth n)) <$> nodes g, (λ e, (from e, to e)) <$> edges g).

(** The root calls [b] itself, yet [b] is two hops away and what it calls is
    not drawn, because the walk came to it through [a]. *)
Example walk_is_not_breadth_first :
  drawn [a_symbol (&"r") 1 [&"a"; &"b"]; a_symbol (&"a") 20 [&"b"]; a_symbol (&"b") 10 [&"c"]; a_symbol (&"c") 5 []] 2 =
  Ok ([(&"sym__r", 0); (&"sym__a", 1); (&"sym__b", 2)]%nat, [(&"sym__a", &"sym__b"); (&"sym__r", &"sym__a"); (&"sym__r", &"sym__b")]).
Proof. vm_compute. reflexivity. Qed.

(** Two symbols whose names differ in a dot have one id, and one edge. *)
Example ids_collide :
  drawn [a_symbol (&"r") 1 [&"f.1"; &"f_1"]; a_symbol (&"f.1") 20 []; a_symbol (&"f_1") 10 []] 4 =
  Ok ([(&"sym__r", 0); (&"sym__f_1", 1); (&"sym__f_1", 1)]%nat, [(&"sym__r", &"sym__f_1")]).
Proof. vm_compute. reflexivity. Qed.

(** A call back to a symbol that has been drawn before is not drawn. *)
Example recursion_not_drawn :
  drawn [a_symbol (&"r") 1 [&"a"]; a_symbol (&"a") 20 [&"r"]] 4 = Ok ([(&"sym__r", 0); (&"sym__a", 1)]%nat, [(&"sym__r", &"sym__a")]).
Proof. vm_compute. reflexivity. Qed.

(** A name whose 63rd byte ends within a character. *)
Example label_panics : drawn [a_symbol (&"r") 1 [replicate 62 "x"%char ++ ["195"; "169"; "y"]%char]] 4 = Err Panicked.
Proof. vm_compute. reflexivity. Qed.
